(* ===== verification/_CoqProject ===== *)
-Q . S2P
Prelude.v
GoString.v
GoSet.v
DataTypes.v
QueryEngine.v
Value.v
ValueFacts.v
Schema.v
Stream.v
StreamFacts.v
Catalog.v
CatalogFacts.v
State.v
StateFacts.v
TwoPC.v
TwoPCFacts.v
Fields.v
FieldsFacts.v
IndexDB.v
IndexDBFacts.v
Protocol.v
ProtocolFacts.v
Writers.v
WritersFacts.v
Utils.v
Backfill.v
BackfillFacts.v
Incremental.v
IncrementalFacts.v
Ranges.v
Jdbc.v
JdbcFacts.v
Chunking.v
Planners.v
Transforms.v
TransformsFacts.v
ArrowWriter.v
ArrowWriterFacts.v
ArrowUpsertFacts.v
ArrowCommitFacts.v
ArrowIndexFacts.v
Iceberg.v
TableIndexScan.v
IcebergIndexFacts.v
IcebergFacts.v
Binlog.v
BinlogFacts.v
Cdc.v
CdcFacts.v
MysqlCdc.v
MysqlCdcFacts.v
Waljs.v
PostgresCdc.v
WaljsFacts.v
PostgresCdcFacts.v
MssqlCdc.v
MssqlInstances.v
MssqlCdcFacts.v
ChunkingFacts.v
CharsetFacts.v
