(* ===== verification/Prelude.v ===== *)
(** * OLake: a verification library for the replication engine

    OLake (src/) replicates tables of source databases into a lake of Parquet files or
    Iceberg tables.  A run discovers the streams of the source (a catalog), merges them
    with the user's configuration, classifies the selected ones, and reads each of them:
    a full refresh or the first load of another mode is a backfill in chunks, an
    incremental stream then reads the rows beyond a cursor, and a CDC stream the change
    log of the source.  Records go through writer threads (batching, schema evolution,
    filter, flattening) to a destination, which commits them together with metadata; a
    state file records what is done, so that an interrupted run continues.

    ** The files, in dependency order

    Foundations
    - Prelude: outcomes of Go calls ([result], [foldM]), machine integers ([wrap_u],
      [wrap_s]), slices, tactics and hints.
    - GoString: byte strings, UTF-8, the functions of strings and fmt that are used, and
      the string helpers of utils/utils.go.
    - GoSet: types/set.go, hash-keyed sets.
    Types and configuration (types/)
    - DataTypes, Schema: data_types.go, type_schema.go -- the type lattice, the schema of
      a stream.
    - QueryEngine: query_engine.go, delete_mode.go -- delete formats.
    - Stream, StreamFacts: stream.go, stream_configured.go -- column selection, filters,
      cursors.
    - Catalog, CatalogFacts: catalog.go, protocol/discover.go -- merging and comparing.
    - State, StateFacts: state.go -- cursors, chunks, the CDC position, the state file.
    Values and records (utils/)
    - Value, ValueFacts: typeutils casts, type inference, comparison.
    - Fields, FieldsFacts: writer schema, flattening, record filter.
    - Utils: record ids and retry loops of utils.go.
    Destinations (destination/)
    - TwoPC, TwoPCFacts: parquet/parquet_2pc.go -- the two-phase commit on S3.
    - Writers, WritersFacts: writers.go -- threads, batches, statistics.
    - Transforms, TransformsFacts: iceberg/arrow-writer/transforms.go.
    - ArrowWriter: iceberg/arrow-writer/writer.go and utils.go -- the thread that splits
      records by partition, tracks their earlier versions, writes data and delete files
      and commits them.  ArrowWriterFacts: what a run of a thread leaves in its files;
      ArrowUpsertFacts: the laws of server and index ([ArrowServer], [IndexSpec]) and the
      entries of a run; ArrowCommitFacts: the table after a commit; ArrowIndexFacts: the
      same with the index.
    - Iceberg: iceberg/iceberg.go (set-up, the schema of a batch, evolution, partition
      patterns), index.go (catching the stream index up), legacy-writer/writer.go,
      interface.go.  TableIndexScan: the scan the Java service answers index requests
      with (TableIndexScanner.java, OlakeTableIndexer.java).  IcebergIndexFacts: syncs
      with the index; IcebergFacts: batches.
    - IndexDB, IndexDBFacts: pkg/indexdb -- the index from record to row.
    Running a sync (protocol/, drivers/abstract/)
    - Protocol, ProtocolFacts: sync.go, clear.go -- classification, kept and cleared state.
    - Backfill, BackfillFacts: backfill.go; Incremental, IncrementalFacts: incremental.go;
      Cdc: cdc.go; CdcFacts: lemmas the change readers share, and an example of two tables.
    Drivers (drivers/, pkg/)
    - Ranges, Jdbc, JdbcFacts: pkg/jdbc -- the SQL of chunk scans, boundaries, filters.
    - Chunking (common and MySQL), Planners (all relational drivers), ChunkingFacts,
      CharsetFacts: the planning of chunks, drivers/*/internal/backfill.go.
    - Binlog, BinlogFacts: pkg/binlog -- decoding the MySQL binary log.
    - MysqlCdc, MysqlCdcFacts: drivers/mysql/internal/cdc.go.
    - Waljs, WaljsFacts: pkg/waljs -- the pgoutput and wal2json readers of PostgreSQL's
      logical replication, the decoding of rows, acknowledging and advancing a slot.
    - PostgresCdc, PostgresCdcFacts: drivers/postgres/internal -- cdc.go, the conversion
      and the size of values.
    - MssqlCdc: drivers/mssql/internal -- cdc.go, the conversion and the size of values,
      and the scanning of rows of pkg/jdbc/reader.go.  MssqlInstances: LSN texts, the
      choice and the management of capture instances; MssqlCdcFacts: runs.

    ** How the code is modelled

    Pure functions are functions of the same name.  State is passed explicitly and bundled
    in records: [State], [cdc_world] and so on.  An error is [Err], a panic or fatal exit
    [Panic] or [Died].  A Go map is a [gmap] and its unspecified iteration order a class
    ([GoRange]).  Concurrency is an explicit order of steps: the writer threads of Writers
    interleave by events, the chunks of a backfill by a schedule.  Failures are inputs:
    every attempt takes the fate of each of its calls ([fault], [ifault], [close_fate],
    [tick], the crash budget of TwoPC), and the theorems quantify over them.  What is not
    in src/ is a parameter: GoEnv (float parsing and printing, time parsing, the zone),
    JsonCodec and JsonText (JSON), GoHash (structural hashes), KVStore (Pebble), Sink (the
    destination as the readers see it), the answers of the databases, go-mysql events,
    pglogrepl messages and LSN texts (LsnCodec, WalCodec), the Iceberg server and the Parquet
    library (ServerClient, IcebergServer, ParquetLib),
    md5 and murmur3, collation tables.  Their laws are class fields, and the witnesses
    instantiate them.

    ** What the theorems show

    - Exactly once: [parquet_commit_atomic], [backfill_chunk_exactly_once],
      [backfill_exactly_once], [backfill_completes], [incremental_exactly_once],
      [mysql_cdc_exactly_once], [postgres_cdc_exactly_once], [mssql_cdc_exactly_once] --
      each read path delivers every row once to the destination wherever attempts fail
      and processes die, and completes once nothing fails.  The paths rely on what a
      destination promises, stated as the classes SinkSpec, CursorSink, StreamSink and
      TextSink, and on conditions their comments name: chunk bounds and cursor values that
      the JSON of the state file gives back unchanged (text, not large integers), cursors
      that grow with arrival, and, for change capture, a record [fair] of the failures
      left out.  What happens outside of them is shown by lemmas beside each theorem:
      [integer_bound_loads_twice], [open_failure_loses_changes],
      [recovery_wait_loses_changes], [recovery_eof_loses_changes],
      [recovery_overshoot_duplicates], [mssql_open_failure_loses_changes].
    - Iceberg tables: [arrow_last_version_wins], [iceberg_sync_upserts] -- after a commit
      the last version of every record is in the table, without and with the stream
      index, when equal partition directories have equal values
      ([timestamp_identity_collides] otherwise); [index_reconciled] -- the index catches
      up with the table and survives an interruption; it finds every row when the versions
      of a record are in the order of the scan ([versions_ordered];
      [scan_points_at_dead_row] otherwise); [batch_schema_sound] -- the schema of an
      accepted batch, for any schedule of the tasks that detect it.
    - Reading the right rows: [chunk_scans_partition], [backfill_incremental_split] give
      the generated SQL a meaning in three-valued logic; [planners_gapless],
      [int_chunks_read_once], [ctid_chunks_read_once], [charset_order_isomorphism] are
      about the plans; [columns_resolved], [unsigned_values_recovered],
      [members_roundtrip], [toast_values_recovered], [precdc_guarantees] about change
      events and their start.
    - The state, its file and the commands: [state_invariant], [chunk_lifecycle],
      [reload_resumes], [sync_resumes_selected], [classification_exact],
      [clear_resets_selected].
    - Configuration: [merge_keeps_configuration], [streams_delta_exact],
      [merged_selection_exact], [validated_delete_format_readable],
      [column_projection_consistent], [legacy_filter_roundtrip].
    - Records: [schema_evolution_widens], [record_filter_semantics], [flatten_spec],
      [discovery_order_independent], [compare_total_order], [record_id_stable],
      [transform_values_typed], [transform_bounds].
    - Components: [index_refines_map], [committed_thread_delivers],
      [stats_count_committed], [set_refines_finite_sets], [retry_bounded].
    Lemmas that show a defect of the code are named in the findings of the manifest.

    ** Bounds and fuel

    Loops that are not structural take fuel and return [None] when it is spent; the
    theorems state how much is enough.  Integer splits need one unit per chunk, ctid
    splits one per page batch; a varint has at most 10 bytes; a record id needs 2 calls;
    draining a writer needs one unit per task; walking back the history of an Iceberg
    table one unit per snapshot; the string planner doubles its step at
    most 21 times (2^20 exceeds its million); decoding a string number needs one digit per
    power of the base, at most log2 of it.  Integers keep their Go width wherever the
    code can overflow.

    ** Not modelled

    Connections, credentials, logging and telemetry (I/O); of the Java process behind the
    Iceberg destination all but the scan for the index, and the writing of Parquet files
    through a library; the parsers of the S3 driver; the I/O errors of Pebble, which the
    index returns as they are.  Left for later: change capture of MongoDB, the Kafka reader,
    RunChangeStream, and the planning of MongoDB chunks. *)

From stdpp Require Export base gmap sets list strings option numbers pretty.
From stdpp Require Export sorting.
From Stdlib Require Export ZArith Lia ZifyBool.

#[global] Set Default Goal Selector "!".
#[global] Open Scope Z_scope.

Declare Scope olake_scope.
Delimit Scope olake_scope with olake.
#[global] Open Scope olake_scope.

(** ** Outcomes of Go calls

    A Go function with an [error] result returns a value or an error; a nil
    dereference, a failed type assertion or a [reflect] conversion panics. *)
Inductive result (A : Type) : Type :=
| Ok (a : A)
| Err (e : string)
| Panic (m : string).
Arguments Ok {A} a.
Arguments Err {A} e%_string_scope.
Arguments Panic {A} m%_string_scope.

#[export] Instance result_ret : MRet result := λ A a, Ok a.
#[export] Instance result_bind : MBind result := λ A B f r,
  match r with Ok a => f a | Err e => Err e | Panic m => Panic m end.
#[export] Instance result_fmap : FMap result := λ A B f r,
  match r with Ok a => Ok (f a) | Err e => Err e | Panic m => Panic m end.

#[export] Instance result_eq_dec {A} `{EqDecision A} : EqDecision (result A).
Proof. unfold EqDecision, Decision in *. decide equality; apply String.string_dec. Defined.

Definition is_ok {A} (r : result A) : bool :=
  match r with Ok _ => true | _ => false end.

Lemma bind_Ok {A B} (r : result A) (f : A → result B) b :
  (r ≫= f) = Ok b ↔ ∃ a, r = Ok a ∧ f a = Ok b.
Proof. destruct r; simpl; naive_solver. Qed.

(** [foldM] runs a fallible loop body over a slice, stopping at the first error:
    the shape of every [for ... { if err != nil { return err } }]. *)
Fixpoint foldM {A S} (f : S → A → result S) (s : S) (l : list A) : result S :=
  match l with
  | [] => Ok s
  | x :: l' => match f s x with Ok s' => foldM f s' l' | Err e => Err e | Panic m => Panic m end
  end.

Lemma foldM_app {A S} (f : S → A → result S) s l k :
  foldM f s (l ++ k) = (s' ← foldM f s l; foldM f s' k).
Proof. revert s. induction l as [|x l IH]; intros s; simpl; [done|]. destruct (f s x); auto. Qed.

Lemma foldM_inv {A S} (P : S → Prop) (f : S → A → result S) l s s' :
  (∀ s x s', x ∈ l → P s → f s x = Ok s' → P s') →
  P s → foldM f s l = Ok s' → P s'.
Proof.
  revert s. induction l as [|x l IH]; intros s Hf Hs; simpl; [naive_solver|].
  destruct (f s x) as [s1| |] eqn:E; [|done..].
  apply IH; [set_solver|]. eapply Hf; eauto. set_solver.
Qed.

(** ** Tactics *)
Ltac case_res := match goal with
  | H : context [match ?r with Ok _ => _ | Err _ => _ | Panic _ => _ end] |- _ =>
      let E := fresh "E" in destruct r eqn:E; simplify_eq/=
  | |- context [match ?r with Ok _ => _ | Err _ => _ | Panic _ => _ end] =>
      let E := fresh "E" in destruct r eqn:E; simplify_eq/=
  end.
Ltac case_ifs := repeat match goal with
  | |- context [if ?b then _ else _] => let E := fresh "E" in destruct b eqn:E; simplify_eq/=
  | H : context [if ?b then _ else _] |- _ => let E := fresh "E" in destruct b eqn:E; simplify_eq/=
  end.
Ltac bool_hyps := repeat match goal with
  | H : _ && _ = true |- _ => apply andb_true_iff in H as [? ?]
  | H : _ || _ = false |- _ => apply orb_false_iff in H as [? ?]
  | H : negb _ = true |- _ => apply negb_true_iff in H
  | H : negb _ = false |- _ => apply negb_false_iff in H
  | H : bool_decide _ = true |- _ => apply bool_decide_eq_true in H
  | H : bool_decide _ = false |- _ => apply bool_decide_eq_false in H
  | H : String.eqb _ _ = true |- _ => apply String.eqb_eq in H
  | H : String.eqb _ _ = false |- _ => apply String.eqb_neq in H
  | H : (_ =? _)%Z = true |- _ => apply Z.eqb_eq in H
  | H : (_ =? _)%Z = false |- _ => apply Z.eqb_neq in H
  | H : (_ <? _)%Z = true |- _ => apply Z.ltb_lt in H
  | H : (_ <? _)%Z = false |- _ => apply Z.ltb_ge in H
  | H : (_ <=? _)%Z = true |- _ => apply Z.leb_le in H
  | H : (_ <=? _)%Z = false |- _ => apply Z.leb_gt in H
  end.

(** Decidable closed goals by evaluation. *)
Ltac by_decide := apply (bool_decide_unpack _); vm_compute; exact I.

Create HintDb olake.
Create Rewrite HintDb olake.

(** ** Machine integers: [wrap_u w], [wrap_s w] are Go's conversions to the
    w-bit unsigned and signed types. *)
Definition wrap_u (w z : Z) : Z := z mod 2 ^ w.
Definition wrap_s (w z : Z) : Z := (z + 2 ^ (w - 1)) mod 2 ^ w - 2 ^ (w - 1).

Lemma pow2_double w : 0 < w → 2 ^ w = 2 * 2 ^ (w - 1).
Proof. intros. replace w with (Z.succ (w - 1)) at 1 by lia. rewrite Z.pow_succ_r; lia. Qed.

Lemma wrap_u_range w z : 0 ≤ w → 0 ≤ wrap_u w z < 2 ^ w.
Proof. intros. apply Z.mod_pos_bound, Z.pow_pos_nonneg; lia. Qed.
Lemma wrap_u_id w z : 0 ≤ z < 2 ^ w → wrap_u w z = z.
Proof. apply Z.mod_small. Qed.
Lemma wrap_s_range w z : 0 < w → - 2 ^ (w - 1) ≤ wrap_s w z < 2 ^ (w - 1).
Proof.
  intros. unfold wrap_s.
  pose proof (Z.mod_pos_bound (z + 2 ^ (w - 1)) (2 ^ w) ltac:(apply Z.pow_pos_nonneg; lia)) as Hb.
  pose proof (pow2_double w). lia.
Qed.
Lemma wrap_s_id w z : 0 < w → - 2 ^ (w - 1) ≤ z < 2 ^ (w - 1) → wrap_s w z = z.
Proof. intros. unfold wrap_s. rewrite Z.mod_small; [lia|]. rewrite (pow2_double w) by lia. lia. Qed.
#[export] Hint Resolve wrap_u_range wrap_s_range : olake.
#[export] Hint Rewrite wrap_u_id wrap_s_id using lia : olake.

Definition MaxInt64 : Z := 9223372036854775807.
Definition MinInt64 : Z := -9223372036854775808.
Definition MaxInt32 : Z := 2147483647.
Definition MinInt32 : Z := -2147483648.

(** ** Slices *)

(** [utils.ArrayContains]: index of the first match. *)
Fixpoint ArrayContains {T} (set : list T) (matches : T → bool) : Z * bool :=
  match set with
  | [] => (-1, false)
  | e :: set' =>
      if matches e then (0, true)
      else let '(i, b) := ArrayContains set' matches in if b then (i + 1, true) else (-1, false)
  end.

(** The index-free reading of the call sites that update [set[index]]. *)
Fixpoint update_first {T} (p : T → bool) (f : T → T) (l : list T) : option (list T) :=
  match l with
  | [] => None
  | x :: l' => if p x then Some (f x :: l') else (x ::.) <$> update_first p f l'
  end.

Fixpoint lookup_first {T} (p : T → bool) (l : list T) : option T :=
  match l with
  | [] => None
  | x :: l' => if p x then Some x else lookup_first p l'
  end.

Lemma ArrayContains_spec {T} (l : list T) p :
  match lookup_first p l with
  | Some x => ∃ i : nat, ArrayContains l p = (Z.of_nat i, true) ∧ l !! i = Some x ∧ p x = true
              ∧ ∀ j y, (j < i)%nat → l !! j = Some y → p y = false
  | None => ArrayContains l p = (-1, false) ∧ ∀ y, y ∈ l → p y = false
  end.
Proof.
  induction l as [|x l IH]; simpl; [split; [done|set_solver]|].
  destruct (p x) eqn:Hp.
  - exists 0%nat. split_and!; [done..|]. intros; lia.
  - destruct (lookup_first p l) as [y|].
    + destruct IH as (i & -> & Hi & Hy & Hj). exists (S i).
      split_and!; [f_equal; lia|done..|].
      intros [|j] z Hlt Hz; simpl in Hz; [naive_solver|]. eapply Hj; eauto; lia.
    + destruct IH as [-> Hn]. split; [done|]. intros y [->|Hy]%elem_of_cons; eauto.
Qed.

Lemma lookup_first_Some {T} (p : T → bool) l x : lookup_first p l = Some x → x ∈ l ∧ p x = true.
Proof. induction l as [|y l IH]; simpl; [done|]. destruct (p y) eqn:E; [|set_solver]. intros [= ->]. set_solver. Qed.

Lemma lookup_first_None {T} (p : T → bool) l : lookup_first p l = None ↔ ∀ x, x ∈ l → p x = false.
Proof.
  induction l as [|y l IH]; simpl; [set_solver|]. destruct (p y) eqn:E.
  - split; [done|]. intros H. specialize (H y). rewrite E in H. set_solver.
  - rewrite IH. set_solver.
Qed.

Lemma update_first_None {T} (p : T → bool) f l : update_first p f l = None ↔ lookup_first p l = None.
Proof.
  induction l as [|y l IH]; simpl; [done|]. destruct (p y); [done|].
  rewrite fmap_None. done.
Qed.

Lemma update_first_lookup {T} (p : T → bool) f l l' x :
  (∀ x, p x = true → p (f x) = true) →
  update_first p f l = Some l' → lookup_first p l = Some x → lookup_first p l' = Some (f x).
Proof.
  intros Hf. revert l'. induction l as [|y l IH]; intros l'; simpl; [done|].
  destruct (p y) eqn:E.
  - intros [= <-] [= ->]. simpl. by rewrite (Hf _ E).
  - intros (k & Hk & ->)%fmap_Some Hx. simpl. rewrite E. eauto.
Qed.

Lemma update_first_other {T} (p q : T → bool) f l l' :
  (∀ x, p x = true → q x = false) → (∀ x, p x = true → q (f x) = false) →
  update_first p f l = Some l' → lookup_first q l' = lookup_first q l.
Proof.
  intros H1 H2. revert l'. induction l as [|y l IH]; intros l'; simpl; [done|].
  destruct (p y) eqn:E.
  - intros [= <-]. simpl. by rewrite (H1 _ E), (H2 _ E).
  - intros (k & Hk & ->)%fmap_Some. simpl. by rewrite (IH k).
Qed.

Lemma lookup_first_app {T} (p : T → bool) l k :
  lookup_first p (l ++ k) = match lookup_first p l with Some x => Some x | None => lookup_first p k end.
Proof. induction l as [|x l IH]; simpl; [done|]. destruct (p x); done. Qed.

(** [slices.Contains] *)
Definition contains {T} `{EqDecision T} (l : list T) (x : T) : bool := bool_decide (x ∈ l).

Lemma contains_true {T} `{EqDecision T} (l : list T) x : contains l x = true ↔ x ∈ l.
Proof. apply bool_decide_eq_true. Qed.
Lemma contains_false {T} `{EqDecision T} (l : list T) x : contains l x = false ↔ x ∉ l.
Proof. apply bool_decide_eq_false. Qed.

(** [utils.ForEach] *)
Definition ForEach {T S} (set : list T) (action : S → T → result S) (s : S) : result S := foldM action s set.

(** [utils.Ternary] evaluates both arguments before choosing. *)
Definition Ternary {T} (cond : bool) (a b : T) : T := if cond then a else b.

Lemma filter_all {A} (P : A → Prop) `{∀ x, Decision (P x)} l : Forall P l → filter P l = l.
Proof. induction 1; [done|]. by rewrite filter_cons_True, IHForall. Qed.
Lemma filter_none {A} (P : A → Prop) `{∀ x, Decision (P x)} l : Forall (λ x, ¬ P x) l → filter P l = [].
Proof. induction 1; [done|]. by rewrite filter_cons_False. Qed.

(** Checking a boolean property on an interval by bisection, so that evaluation
    stays on binary integers. *)
Fixpoint all_in (k : nat) (lo : Z) (f : Z → bool) : bool :=
  match k with
  | O => f lo
  | S k' => all_in k' lo f && all_in k' (lo + 2 ^ Z.of_nat k') f
  end.

Lemma all_in_spec k lo f : all_in k lo f = true → ∀ z, lo ≤ z < lo + 2 ^ Z.of_nat k → f z = true.
Proof.
  revert lo. induction k as [|k IH]; intros lo; cbn [all_in].
  - intros Hf z Hz. replace z with lo; [done|]. change (2 ^ Z.of_nat 0) with 1 in Hz. lia.
  - rewrite andb_true_iff. intros [H1 H2] z Hz.
    rewrite Nat2Z.inj_succ, Z.pow_succ_r in Hz by lia.
    destruct (Z_lt_le_dec z (lo + 2 ^ Z.of_nat k)); [apply (IH lo)|apply (IH (lo + 2 ^ Z.of_nat k))]; auto; lia.
Qed.
