(* ===== verification/GoString.v ===== *)
(** * Strings as the program uses them

    Go strings are byte sequences; a [string] here is the same sequence, one
    [ascii] per byte.  The file models the [strings], [unicode/utf8] and [fmt]
    functions the sources call and the string helpers of utils/utils.go. *)

From S2P Require Import Prelude.
From Stdlib Require Export Ascii.
From Stdlib Require String.
Export String.StringSyntax.
#[global] Open Scope string_scope.
#[global] Open Scope list_scope.
#[global] Open Scope stdpp_scope.
#[global] Open Scope Z_scope.

(** ** Bytes *)
Definition byte_of (a : ascii) : Z := Z.of_N (Ascii.N_of_ascii a).
Definition ascii_of (b : Z) : ascii := Ascii.ascii_of_N (Z.to_N b).

Fixpoint bytes_of (s : string) : list Z :=
  match s with EmptyString => [] | String a s' => byte_of a :: bytes_of s' end.
Fixpoint string_of (l : list Z) : string :=
  match l with [] => EmptyString | b :: l' => String (ascii_of b) (string_of l') end.

Lemma ascii_of_byte_of a : ascii_of (byte_of a) = a.
Proof. unfold ascii_of, byte_of. rewrite N2Z.id. apply Ascii.ascii_N_embedding. Qed.
Lemma byte_of_range a : 0 ≤ byte_of a < 256.
Proof. unfold byte_of. pose proof (Ascii.N_ascii_bounded a). lia. Qed.
Lemma byte_of_ascii_of b : 0 ≤ b < 256 → byte_of (ascii_of b) = b.
Proof. intros. unfold ascii_of, byte_of. rewrite Ascii.N_ascii_embedding; lia. Qed.
Lemma string_of_bytes_of s : string_of (bytes_of s) = s.
Proof. induction s; simpl; [done|]. by rewrite ascii_of_byte_of, IHs. Qed.
Lemma bytes_of_string_of l : Forall (λ b, 0 ≤ b < 256) l → bytes_of (string_of l) = l.
Proof. induction 1; simpl; [done|]. by rewrite byte_of_ascii_of, IHForall. Qed.
Lemma string_of_app l k : string_of (l ++ k) = string_of l +:+ string_of k.
Proof. induction l; simpl; [done|]. by rewrite IHl. Qed.
Lemma bytes_of_app s t : bytes_of (s +:+ t) = bytes_of s ++ bytes_of t.
Proof. induction s; simpl; [done|]. by rewrite IHs. Qed.
Lemma bytes_of_range s : Forall (λ b, 0 ≤ b < 256) (bytes_of s).
Proof. induction s; simpl; constructor; auto using byte_of_range. Qed.
#[export] Instance bytes_of_inj : Inj (=) (=) bytes_of.
Proof. intros s t H. by rewrite <- (string_of_bytes_of s), <- (string_of_bytes_of t), H. Qed.
Lemma string_app_inv_l (s t t' : string) : s +:+ t = s +:+ t' → t = t'.
Proof. intros Heq%(f_equal bytes_of). rewrite !bytes_of_app in Heq. apply app_inv_head in Heq. by apply (inj bytes_of). Qed.
Lemma string_app_inv_r (s s' t : string) : s +:+ t = s' +:+ t → s = s'.
Proof. intros Heq%(f_equal bytes_of). rewrite !bytes_of_app in Heq. apply app_inv_tail in Heq. by apply (inj bytes_of). Qed.
Lemma bytes_of_length s : length (bytes_of s) = String.length s.
Proof. induction s; simpl; auto. Qed.

(** ** UTF-8: [unicode/utf8.DecodeRune]

    [runes l] lists the runes of a byte string with the bytes each was decoded
    from; an invalid byte decodes to U+FFFD, one byte at a time. *)
Definition RuneError : Z := 65533.
Definition in_range (lo hi b : Z) : bool := (lo <=? b) && (b <=? hi).
Definition cont (b : Z) : bool := in_range 128 191 b.
Definition two_ok (b0 b1 : Z) : bool := in_range 194 223 b0 && cont b1.
Definition three_ok (b0 b1 b2 : Z) : bool :=
  ((b0 =? 224) && in_range 160 191 b1 || in_range 225 236 b0 && cont b1
   || (b0 =? 237) && in_range 128 159 b1 || in_range 238 239 b0 && cont b1) && cont b2.
Definition four_ok (b0 b1 b2 b3 : Z) : bool :=
  ((b0 =? 240) && in_range 144 191 b1 || in_range 241 243 b0 && cont b1
   || (b0 =? 244) && in_range 128 143 b1) && cont b2 && cont b3.

Fixpoint runes (l : list Z) : list (Z * list Z) :=
  match l with
  | [] => []
  | b0 :: t0 =>
      if b0 <? 128 then (b0, [b0]) :: runes t0 else
      match t0 with
      | b1 :: t1 =>
          if two_ok b0 b1 then ((b0 - 192) * 64 + (b1 - 128), [b0; b1]) :: runes t1 else
          match t1 with
          | b2 :: t2 =>
              if three_ok b0 b1 b2
              then ((b0 - 224) * 4096 + (b1 - 128) * 64 + (b2 - 128), [b0; b1; b2]) :: runes t2 else
              match t2 with
              | b3 :: t3 =>
                  if four_ok b0 b1 b2 b3
                  then ((b0 - 240) * 262144 + (b1 - 128) * 4096 + (b2 - 128) * 64 + (b3 - 128),
                        [b0; b1; b2; b3]) :: runes t3
                  else (RuneError, [b0]) :: runes t0
              | [] => (RuneError, [b0]) :: runes t0
              end
          | [] => (RuneError, [b0]) :: runes t0
          end
      | [] => (RuneError, [b0]) :: runes t0
      end
  end.

(** [utf8.AppendRune] for the runes [runes] yields. *)
Definition encode_rune (r : Z) : list Z :=
  if r <? 128 then [r]
  else if r <? 2048 then [192 + r / 64; 128 + r mod 64]
  else if r <? 65536 then [224 + r / 4096; 128 + (r / 64) mod 64; 128 + r mod 64]
  else [240 + r / 262144; 128 + (r / 4096) mod 64; 128 + (r / 64) mod 64; 128 + r mod 64].

(** Decoding splits the bytes without loss: the chunks concatenate to the input. *)
Lemma runes_concat l : concat (runes l).*2 = l.
Proof.
  remember (length l) as n eqn:Hn. revert l Hn.
  induction (lt_wf n) as [n _ IH]; intros l ->.
  destruct l as [|b0 t0]; [done|]; cbn [runes].
  assert (Hbad : concat (((RuneError, [b0]) :: runes t0).*2) = b0 :: t0).
  { simpl. f_equal. eapply IH; [|done]. simpl; lia. }
  destruct (b0 <? 128); [simpl; f_equal; eapply IH; [|done]; simpl; lia|].
  destruct t0 as [|b1 t1]; [done|].
  destruct (two_ok b0 b1); [simpl; do 2 f_equal; eapply IH; [|done]; simpl; lia|].
  destruct t1 as [|b2 t2]; [done|].
  destruct (three_ok b0 b1 b2); [simpl; do 3 f_equal; eapply IH; [|done]; simpl; lia|].
  destruct t2 as [|b3 t3]; [done|].
  destruct (four_ok b0 b1 b2 b3); [simpl; do 4 f_equal; eapply IH; [|done]; simpl; lia|done].
Qed.

Definition rune_list (s : string) : list Z := (runes (bytes_of s)).*1.
(** Decoding and encoding again leaves the string as it is (utf8.ValidString). *)
Definition utf8_valid (s : string) : Prop := string_of (concat (encode_rune <$> rune_list s)) = s.

(** The code points UTF-8 encodes. *)
Definition scalar (r : Z) : Prop := 0 ≤ r < 55296 ∨ 57344 ≤ r < 1114112.

Lemma runes_encode r rest : scalar r → runes (encode_rune r ++ rest) = (r, encode_rune r) :: runes rest.
Proof.
  unfold scalar. intros Hr. unfold encode_rune.
  destruct (Z.ltb_spec r 128); [cbn; by rewrite (proj2 (Z.ltb_lt r 128))|].
  destruct (Z.ltb_spec r 2048).
  { assert (Hd : 2 ≤ r / 64 ≤ 31) by (Z.to_euclidean_division_equations; lia). pose proof (Z.mod_pos_bound r 64).
    cbn [app runes]. rewrite (proj2 (Z.ltb_ge _ _)) by lia.
    assert (two_ok (192 + r / 64) (128 + r mod 64) = true) as -> by (unfold two_ok, cont, in_range; lia).
    do 2 f_equal. pose proof (Z.div_mod r 64). lia. }
  assert (Hnot2 : ∀ b0 b1, 224 ≤ b0 → two_ok b0 b1 = false) by (intros; unfold two_ok, in_range; lia).
  assert (Hdm : ∀ x, 0 ≤ x mod 64 < 64 ∧ x = 64 * (x / 64) + x mod 64) by (intros x; pose proof (Z.mod_pos_bound x 64); pose proof (Z.div_mod x 64); lia).
  destruct (Hdm r) as [Hm0 He0]. destruct (Hdm (r / 64)) as [Hm1 He1]. destruct (Hdm (r / 64 / 64)) as [Hm2 He2].
  assert (Hd2 : r / 4096 = r / 64 / 64) by (rewrite Z.div_div by lia; done).
  assert (Hd3 : r / 262144 = r / 64 / 64 / 64) by (rewrite !Z.div_div by lia; done).
  destruct (Z.ltb_spec r 65536).
  { rewrite Hd2. cbn [app runes]. rewrite (proj2 (Z.ltb_ge _ _)) by lia. rewrite Hnot2 by lia.
    assert (three_ok (224 + r / 64 / 64) (128 + (r / 64) mod 64) (128 + r mod 64) = true) as ->.
    { unfold three_ok, cont, in_range. lia. }
    do 2 f_equal. lia. }
  rewrite Hd2, Hd3. cbn [app runes]. rewrite (proj2 (Z.ltb_ge _ _)) by lia. rewrite Hnot2 by lia.
  assert (Hnot3 : ∀ b1 b2, three_ok (240 + r / 64 / 64 / 64) b1 b2 = false) by (intros; unfold three_ok, in_range; lia).
  rewrite Hnot3.
  assert (four_ok (240 + r / 64 / 64 / 64) (128 + (r / 64 / 64) mod 64) (128 + (r / 64) mod 64) (128 + r mod 64) = true) as ->.
  { unfold four_ok, cont, in_range. lia. }
  do 2 f_equal. lia.
Qed.

Lemma runes_scalar l : Forall (λ b, 0 ≤ b < 256) l → Forall scalar (runes l).*1.
Proof.
  remember (length l) as n eqn:Hn. revert l Hn. induction (lt_wf n) as [n _ IH]; intros l -> Hl.
  destruct l as [|b0 t0]; [constructor|]. cbn [runes]. pose proof Hl as [Hb0 Ht0]%Forall_cons.
  assert (Hbad : Forall scalar ((RuneError, [b0]) :: runes t0).*1).
  { constructor; [unfold scalar, RuneError; cbn; lia|]. eapply IH; [|done|done]. cbn; lia. }
  destruct (Z.ltb_spec b0 128); [constructor; [left; cbn; lia|eapply IH; [|done|done]; cbn; lia]|].
  destruct t0 as [|b1 t1]; [done|]. pose proof Ht0 as [Hb1 Ht1]%Forall_cons.
  destruct (two_ok b0 b1) eqn:E2.
  { unfold two_ok, cont, in_range in E2. constructor; [left; cbn; lia|eapply IH; [|done|done]; cbn; lia]. }
  destruct t1 as [|b2 t2]; [done|]. pose proof Ht1 as [Hb2 Ht2]%Forall_cons.
  destruct (three_ok b0 b1 b2) eqn:E3.
  { unfold three_ok, cont, in_range in E3. constructor; [unfold scalar; cbn; lia|eapply IH; [|done|done]; cbn; lia]. }
  destruct t2 as [|b3 t3]; [done|]. pose proof Ht2 as [Hb3 Ht3]%Forall_cons.
  destruct (four_ok b0 b1 b2 b3) eqn:E4; [|done].
  unfold four_ok, cont, in_range in E4. constructor; [right; cbn; lia|eapply IH; [|done|done]; cbn; lia].
Qed.

Lemma encode_rune_bytes r : scalar r → Forall (λ b, 0 ≤ b < 256) (encode_rune r).
Proof.
  unfold scalar, encode_rune. intros Hr. pose proof (Z.mod_pos_bound r 64). pose proof (Z.mod_pos_bound (r / 64) 64). pose proof (Z.mod_pos_bound (r / 4096) 64).
  repeat case_match; rewrite ?Z.ltb_lt, ?Z.ltb_ge in *; repeat constructor; Z.to_euclidean_division_equations; lia.
Qed.

(** The code points of a string are scalar values, and encoding scalar values gives a string with
    just those code points. *)
Lemma rune_list_scalar s : Forall scalar (rune_list s).
Proof. apply runes_scalar, bytes_of_range. Qed.
Lemma rune_list_encode l : Forall scalar l → rune_list (string_of (concat (encode_rune <$> l))) = l.
Proof.
  intros Hl. unfold rune_list. rewrite bytes_of_string_of.
  - induction Hl as [|r l Hr _ IH]; [done|]. cbn [fmap list_fmap concat]. rewrite runes_encode by done. cbn. by f_equal.
  - induction Hl as [|r l Hr _ IH]; cbn; [constructor|]. apply Forall_app. split; [by apply encode_rune_bytes|done].
Qed.

(** A string of ASCII bytes decodes to its own bytes. *)
Lemma runes_ascii l : Forall (λ b, 0 ≤ b < 128) l → (runes l).*1 = l.
Proof.
  induction 1 as [|b l Hb Hl IH]; [done|]. cbn [runes].
  destruct (Z.ltb_spec b 128); [simpl; by f_equal|lia].
Qed.

(** ** Case

    The lower case of a rune.  Apart from ASCII only U+212A (Kelvin) and U+0130
    have an ASCII lower case; every other rune above 127 stays above 127, which
    is all the program's users of [strings.ToLower] can observe, as they compare
    the result with ASCII words or replace the non-ASCII runes. *)
Definition lower_rune (r : Z) : Z :=
  if in_range 65 90 r then r + 32
  else if r =? 8490 then 107
  else if r =? 304 then 105
  else r.

Definition ToLower (s : string) : string :=
  string_of (concat (encode_rune ∘ lower_rune <$> rune_list s)).

(** [strings.EqualFold] against an ASCII word without k or s. *)
Definition EqualFoldWord (s word : string) : bool := String.eqb (ToLower s) (ToLower word).

(** ** Space: [unicode.IsSpace], [strings.TrimSpace] *)
Definition IsSpace (r : Z) : bool :=
  in_range 9 13 r || (r =? 32) || (r =? 133) || (r =? 160) || (r =? 5760) || in_range 8192 8202 r
  || (r =? 8232) || (r =? 8233) || (r =? 8239) || (r =? 8287) || (r =? 12288).

Fixpoint drop_while {A} (p : A → bool) (l : list A) : list A :=
  match l with [] => [] | x :: l' => if p x then drop_while p l' else l end.

Definition TrimSpace (s : string) : string :=
  let sp := λ r : Z * list Z, IsSpace r.1 in
  string_of (concat (reverse (drop_while sp (reverse (drop_while sp (runes (bytes_of s)))))).*2).

(** ** Splitting and joining *)

(** [strings.Split] with a one-byte separator: never empty. *)
Fixpoint Split (sep : ascii) (s : string) : list string :=
  match s with
  | EmptyString => [EmptyString]
  | String a s' =>
      if Ascii.eqb a sep then EmptyString :: Split sep s'
      else match Split sep s' with
           | w :: ws => String a w :: ws
           | [] => [String a EmptyString]
           end
  end.

Fixpoint Join (sep : string) (l : list string) : string :=
  match l with
  | [] => ""
  | [x] => x
  | x :: l' => x +:+ sep +:+ Join sep l'
  end.

(** [strings.Cut] / [strings.SplitN(s, sep, 2)] on a one-byte separator. *)
Fixpoint Cut (sep : ascii) (s : string) : option (string * string) :=
  match s with
  | EmptyString => None
  | String a s' =>
      if Ascii.eqb a sep then Some (EmptyString, s')
      else (λ p, (String a p.1, p.2)) <$> Cut sep s'
  end.

Fixpoint HasPrefix (s p : string) : bool :=
  match p, s with
  | EmptyString, _ => true
  | String b p', String a s' => Ascii.eqb a b && HasPrefix s' p'
  | _, _ => false
  end.

Fixpoint TrimPrefix_exact (s p : string) : string :=
  match p, s with
  | String _ p', String _ s' => TrimPrefix_exact s' p'
  | _, _ => s
  end.
Definition TrimPrefix (s p : string) : string := if HasPrefix s p then TrimPrefix_exact s p else s.

(** [strings.Contains] *)
Fixpoint StrContains (s sub : string) : bool :=
  HasPrefix s sub || match s with EmptyString => false | String _ s' => StrContains s' sub end.

Lemma Split_not_nil sep s : Split sep s ≠ [].
Proof. destruct s as [|a s]; simpl; [done|]. destruct (Ascii.eqb a sep); [done|]. by destruct (Split sep s). Qed.

Lemma Join_Split sep s : Join (String sep "") (Split sep s) = s.
Proof.
  induction s as [|a s IH]; [done|]. cbn [Split].
  pose proof (Split_not_nil sep s) as Hne.
  destruct (Ascii.eqb_spec a sep) as [->|].
  - destruct (Split sep s) as [|w ws]; [done|]. cbn [Join] in *. by rewrite IH.
  - destruct (Split sep s) as [|w ws]; [done|]. cbn [Join] in *. destruct ws; simpl in *; by rewrite <- IH.
Qed.

Lemma HasPrefix_spec s p : HasPrefix s p = true ↔ ∃ t, s = p +:+ t.
Proof.
  revert s. induction p as [|b p IH]; intros s; cbn [HasPrefix]; [by destruct s; split; eauto|].
  destruct s as [|a s].
  - split; [done|]. by intros [t ?].
  - cbn. rewrite andb_true_iff, IH, Ascii.eqb_eq. split.
    + intros [-> [t ->]]. by exists t.
    + intros [t [= -> ->]]. eauto.
Qed.
Lemma TrimPrefix_app p t : TrimPrefix (p +:+ t) p = t.
Proof.
  unfold TrimPrefix. assert (HasPrefix (p +:+ t) p = true) as -> by (apply HasPrefix_spec; eauto).
  induction p; simpl; auto. by destruct t.
Qed.

(** A string without the separator is its own only part. *)
Lemma Split_single sep s : ¬ StrContains s (String sep "") → Split sep s = [s].
Proof.
  induction s as [|a s IH]; [done|]. simpl. intros Hn.
  destruct (Ascii.eqb a sep) eqn:E; simpl in *; [by destruct s|]. by rewrite IH.
Qed.

(** ** utils/utils.go string helpers *)
Definition IsLetterOrNumber (symbol : Z) : bool :=
  in_range 97 122 symbol || in_range 65 90 symbol || in_range 48 57 symbol.

Definition Reformat (key : string) : string :=
  string_of ((λ r, if IsLetterOrNumber r then r else 95) <$> (lower_rune <$> rune_list key)).

Definition StreamIdentifier (name namespace : string) : string :=
  if String.eqb namespace "" then name else namespace +:+ "." +:+ name.

Fixpoint ExtractColumnName (groups : list string) : string :=
  match groups with
  | [] => ""
  | g :: gs => if String.eqb g "" then ExtractColumnName gs else g
  end.

Definition SplitAndTrim (s : string) : list string :=
  filter (λ t, t ≠ "") (TrimSpace <$> Split "," s).

(** [prefix] is the value of the DESTINATION_DATABASE_PREFIX setting. *)
Definition GenerateDestinationDetails (prefix namespace name : string) (sourceDatabase : option string)
    : string * string :=
  let parts := (if String.eqb prefix "" then [] else [Reformat prefix])
    ++ match sourceDatabase with
       | Some db => if String.eqb db "" then [] else [Reformat db]
       | None => []
       end in
  let dbName := Join "_" parts in
  let dbName := if String.eqb namespace "" then dbName else dbName +:+ ":" +:+ Reformat namespace in
  (dbName, Reformat name).

(** Decimal rendering ([%d], [strconv.Itoa]). *)
Definition fmt_d (z : Z) : string := pretty z.

(** ** [Reformat] produces destination-safe names: lower-case letters, digits
    and underscores, one byte per rune, and is idempotent. *)
Definition safe_byte (b : Z) : bool := in_range 97 122 b || in_range 48 57 b || (b =? 95).

Lemma lower_rune_alnum r : IsLetterOrNumber (lower_rune r) = true →
  safe_byte (lower_rune r) = true ∧ 48 ≤ lower_rune r < 128.
Proof. unfold IsLetterOrNumber, lower_rune, safe_byte, in_range. case_ifs; lia. Qed.

Definition reformat_byte (r : Z) : Z := if IsLetterOrNumber (lower_rune r) then lower_rune r else 95.

Lemma reformat_byte_safe r : safe_byte (reformat_byte r) = true.
Proof. unfold reformat_byte. case_ifs; [|done]. by apply lower_rune_alnum. Qed.

Lemma safe_byte_fix b : safe_byte b = true → reformat_byte b = b ∧ 0 ≤ b < 128.
Proof. unfold reformat_byte, IsLetterOrNumber, lower_rune, safe_byte, in_range. case_ifs; lia. Qed.

Lemma Reformat_bytes key : bytes_of (Reformat key) = reformat_byte <$> rune_list key.
Proof.
  unfold Reformat. rewrite <- list_fmap_compose. unfold compose. fold reformat_byte.
  rewrite bytes_of_string_of; [done|].
  apply Forall_fmap, Forall_true. intros r.
  change (0 ≤ reformat_byte r < 256).
  pose proof (safe_byte_fix _ (reformat_byte_safe r)). lia.
Qed.

Lemma Reformat_safe key : Forall (λ b, safe_byte b = true) (bytes_of (Reformat key)).
Proof. rewrite Reformat_bytes. apply Forall_fmap, Forall_true. intros. apply reformat_byte_safe. Qed.

Lemma Reformat_length key : String.length (Reformat key) = length (rune_list key).
Proof. rewrite <- bytes_of_length, Reformat_bytes. apply length_fmap. Qed.

Lemma Reformat_fix key : Forall (λ b, safe_byte b = true) (bytes_of key) → Reformat key = key.
Proof.
  intros H. apply (inj bytes_of). rewrite Reformat_bytes. unfold rune_list.
  rewrite runes_ascii.
  - induction H as [|b l Hb Hl IH]; [done|]. rewrite fmap_cons, IH. f_equal. by apply safe_byte_fix.
  - eapply Forall_impl; [exact H|]. intros b Hb. by apply safe_byte_fix.
Qed.

Lemma Reformat_idemp key : Reformat (Reformat key) = Reformat key.
Proof. apply Reformat_fix, Reformat_safe. Qed.
#[export] Hint Rewrite Reformat_idemp : olake.
#[export] Hint Resolve Reformat_safe : olake.
