(* ===== verification/GoSet.v ===== *)
(** * types/set.go: the hash-keyed [Set[T]]

    A set keeps two maps, [hash] (the keys present) and [storage] (key to
    element), both indexed by a string hash of the element.  Where the element
    type has neither a [Hash] nor an [ID] method and no hasher was installed, the
    key is the decimal rendering of a third-party structural hash, which is a
    parameter of the model ([hashstructure], [None] for its error). *)

From S2P Require Import Prelude GoString.

Class GoHash (T : Type) := {
  method_hash : T → option string;     (* Hashable.Hash / Identifier.ID, when implemented *)
  hashstructure : T → option Z;        (* hashstructure.Hash(elem, nil) *)
  zero_value : T                       (* the value a missing map key reads as *)
}.

Record GoSet (T : Type) := mkGoSet {
  hash : gset string;
  storage : gmap string T;
  funcHash : option (T → string)
}.
Arguments mkGoSet {T} _ _ _.
Arguments hash {T} _.
Arguments storage {T} _.
Arguments funcHash {T} _.

Section Ops.
Context {T : Type} `{GoHash T}.
Implicit Types (st set : GoSet T) (elem : T).

Definition hash_key (f : option (T → string)) elem : string :=
  match method_hash elem with
  | Some h => h
  | None =>
      match f with
      | Some f => f elem
      | None => match hashstructure elem with Some u => fmt_d u | None => "false" end
      end
  end.

Definition Hash st elem : string := hash_key (funcHash st) elem.

Definition empty_set : GoSet T := mkGoSet ∅ ∅ None.

Definition WithHasher (f : T → string) st : GoSet T := mkGoSet (hash st) (storage st) (Some f).

Definition Exists st elem : bool := bool_decide (Hash st elem ∈ hash st).

Definition Insert1 st elem : GoSet T :=
  if Exists st elem then st
  else mkGoSet ({[Hash st elem]} ∪ hash st) (<[Hash st elem := elem]> (storage st)) (funcHash st).

Definition Insert st (elements : list T) : GoSet T := foldl Insert1 st elements.

Definition NewSet (initial : list T) : GoSet T := Insert empty_set initial.

Definition Remove st elem : GoSet T :=
  mkGoSet (hash st ∖ {[Hash st elem]}) (delete (Hash st elem) (storage st)) (funcHash st).

Definition stored st (k : string) : T := default zero_value (storage st !! k).

Definition Difference st set : GoSet T :=
  foldl (λ d k, if bool_decide (k ∈ hash set) then d else Insert1 d (stored st k)) empty_set (elements (hash st)).

Definition Intersection st set : GoSet T :=
  foldl (λ d k, if bool_decide (k ∈ hash set) then Insert1 d (stored set k) else d) empty_set (elements (hash st)).

Definition Union st set : GoSet T :=
  foldl (λ d k, Insert1 d (stored set k))
    (foldl (λ d k, Insert1 d (stored st k)) empty_set (elements (hash st)))
    (elements (hash set)).

Definition Len st : Z := Z.of_nat (size (hash st)).

Definition SubsetOf st set : bool :=
  if Len set <? Len st then false
  else forallb (λ k, bool_decide (k ∈ hash set)) (elements (hash st)).

Definition ProperSubsetOf st set : bool := SubsetOf st set && (Len st <? Len set).

(** [Array], [Range] and [String] walk [storage] in an unspecified order; [Array]
    is one such order, and what depends on it is stated for every permutation. *)
Definition Array st : list T := (map_to_list (storage st)).*2.

Definition Range {S} (f : S → T → S) (s : S) st : S := foldl f s (Array st).

Definition Clear st : GoSet T := mkGoSet ∅ ∅ (funcHash st).

(** [UnmarshalJSON] on an already decoded array. *)
Definition UnmarshalArray (arr : list T) : GoSet T := foldl Insert1 empty_set arr.
Definition MarshalArray st : list T := Array st.

(** ** Well-formed sets *)
Definition set_wf st : Prop :=
  hash st = dom (storage st) ∧ map_Forall (λ k v, Hash st v = k) (storage st).

Definition member elem st : Prop := ∃ k, storage st !! k = Some elem.

Lemma empty_wf : set_wf empty_set.
Proof. split; [symmetry; apply (dom_empty_L (D := gset string))|apply map_Forall_empty]. Qed.

Lemma Insert1_funcHash st x : funcHash (Insert1 st x) = funcHash st.
Proof. unfold Insert1. by destruct (Exists st x). Qed.
Lemma Insert_funcHash st l : funcHash (Insert st l) = funcHash st.
Proof. revert st. induction l as [|x l IH]; intros st; simpl; [done|]. by rewrite IH, Insert1_funcHash. Qed.

Lemma Insert1_wf st x : set_wf st → set_wf (Insert1 st x).
Proof.
  intros [Hd Hf]. unfold Insert1, Exists. case_bool_decide as Hin; [done|]. split; simpl.
  - by rewrite dom_insert_L, Hd.
  - apply map_Forall_insert_2; [done|exact Hf].
Qed.
Lemma foldl_wf {A} (f : GoSet T → A → GoSet T) l st :
  (∀ st x, set_wf st → set_wf (f st x)) → set_wf st → set_wf (foldl f st l).
Proof. intros Hf. revert st. induction l; simpl; auto. Qed.
Lemma Insert_wf st l : set_wf st → set_wf (Insert st l).
Proof. apply foldl_wf, Insert1_wf. Qed.
Lemma NewSet_wf l : set_wf (NewSet l).
Proof. apply Insert_wf, empty_wf. Qed.
Lemma Remove_wf st x : set_wf st → set_wf (Remove st x).
Proof.
  intros [Hd Hf]. split; simpl.
  - by rewrite dom_delete_L, Hd.
  - by apply map_Forall_delete.
Qed.
Lemma Clear_wf st : set_wf (Clear st).
Proof. split; [symmetry; apply (dom_empty_L (D := gset string))|apply map_Forall_empty]. Qed.
Lemma Difference_wf st set : set_wf (Difference st set).
Proof. apply foldl_wf, empty_wf. intros. case_bool_decide; auto using Insert1_wf. Qed.
Lemma Intersection_wf st set : set_wf (Intersection st set).
Proof. apply foldl_wf, empty_wf. intros. case_bool_decide; auto using Insert1_wf. Qed.
Lemma Union_wf st set : set_wf (Union st set).
Proof. apply foldl_wf; auto using Insert1_wf. apply foldl_wf, empty_wf. auto using Insert1_wf. Qed.

(** In a well-formed set the key a set element is stored under is its hash. *)
Lemma member_key st x : set_wf st → member x st ↔ storage st !! Hash st x = Some x.
Proof.
  intros [_ Hf]. split; [|by exists (Hash st x)].
  intros [k Hk]. by rewrite (Hf _ _ Hk).
Qed.
Lemma member_hash st x : set_wf st → member x st → Hash st x ∈ hash st.
Proof. intros Hwf Hm. rewrite member_key in Hm by done. destruct Hwf as [-> _]. by apply elem_of_dom_2 in Hm. Qed.
Lemma stored_member st k : set_wf st → k ∈ hash st → member (stored st k) st ∧ Hash st (stored st k) = k.
Proof.
  intros [Hd Hf] Hk. rewrite Hd in Hk. apply elem_of_dom in Hk as [v Hv].
  unfold stored. rewrite Hv. simpl. split; [by exists k|by apply Hf].
Qed.
Lemma member_Array x st : x ∈ Array st ↔ member x st.
Proof.
  unfold Array, member. rewrite list_elem_of_fmap. split.
  - intros [[k v] [-> Hkv%elem_of_map_to_list]]. by exists k.
  - intros [k Hk]. exists (k, x). split; [done|]. by apply elem_of_map_to_list.
Qed.

(** ** Collision-freeness: what the clients rely on the hash for. *)
Definition collision_free (U : T → Prop) (f : option (T → string)) : Prop :=
  ∀ x y, U x → U y → hash_key f x = hash_key f y → x = y.

Definition inside (U : T → Prop) st : Prop := ∀ x, member x st → U x.

Lemma Exists_member U st x :
  collision_free U (funcHash st) → set_wf st → inside U st → U x → Exists st x = true ↔ member x st.
Proof.
  intros Hcf Hwf Hin Hx. unfold Exists. rewrite bool_decide_eq_true. split; [|by apply member_hash].
  intros Hk. destruct (stored_member st _ Hwf Hk) as [Hm Hh].
  by rewrite <- (Hcf (stored st (Hash st x)) x) by auto.
Qed.

Lemma member_Insert1 U st x y :
  collision_free U (funcHash st) → set_wf st → inside U st → U x →
  member y (Insert1 st x) ↔ y = x ∨ member y st.
Proof.
  intros Hcf Hwf Hin Hx. unfold Insert1.
  destruct (Exists st x) eqn:E.
  - rewrite (Exists_member U) in E by done. naive_solver.
  - unfold Exists in E. apply bool_decide_eq_false in E.
    assert (storage st !! Hash st x = None) as Hn by (destruct Hwf as [Hd _]; rewrite Hd in E; by apply not_elem_of_dom).
    unfold member; simpl. split.
    + intros [k Hk]. destruct (decide (Hash st x = k)) as [<-|]; simplify_map_eq; eauto.
    + intros [->|[k Hk]]; [exists (Hash st x); by simplify_map_eq|].
      exists k. rewrite lookup_insert_ne; [done|]. intros <-. congruence.
Qed.

Lemma member_Insert1_sub st x y : member y (Insert1 st x) → y = x ∨ member y st.
Proof.
  unfold Insert1. destruct (Exists st x); [auto|]. intros [k Hk]. simpl in Hk.
  apply lookup_insert_Some in Hk as [[? ?]|[? ?]]; [by left|right; by exists k].
Qed.

Lemma inside_Insert1 U st x : inside U st → U x → inside U (Insert1 st x).
Proof. intros Hin Hx y [->|Hy]%member_Insert1_sub; auto. Qed.

Lemma inside_foldl U {A} (g : A → option T) l st :
  inside U st → (∀ a x, a ∈ l → g a = Some x → U x) →
  inside U (foldl (λ d a, match g a with Some x => Insert1 d x | None => d end) st l).
Proof.
  revert st. induction l as [|a l IH]; intros st Hin Hg; simpl; [done|].
  apply IH; [|set_solver]. destruct (g a) eqn:E; [|done]. apply inside_Insert1; [done|]. eapply Hg; eauto. set_solver.
Qed.

(** Folding insertions adds exactly the inserted elements: the shape shared by
    [Insert], [NewSet], [Difference], [Intersection] and [Union]. *)
Lemma member_foldl U {A} (g : A → option T) l st y :
  collision_free U (funcHash st) → set_wf st → inside U st → (∀ a x, a ∈ l → g a = Some x → U x) →
  member y (foldl (λ d a, match g a with Some x => Insert1 d x | None => d end) st l)
  ↔ member y st ∨ ∃ a, a ∈ l ∧ g a = Some y.
Proof.
  revert st. induction l as [|a l IH]; intros st Hcf Hwf Hin Hg; simpl.
  { split; [auto|]. intros [?|(a & Ha & _)]; [done|]. by apply elem_of_nil in Ha. }
  destruct (g a) as [x|] eqn:E.
  - assert (U x) by (eapply Hg; eauto; set_solver).
    rewrite IH, (member_Insert1 U) by (rewrite ?Insert1_funcHash; auto using Insert1_wf, inside_Insert1; set_solver).
    setoid_rewrite elem_of_cons. naive_solver.
  - rewrite IH by (auto; set_solver). setoid_rewrite elem_of_cons. naive_solver.
Qed.

Lemma member_empty y : ¬ member y empty_set.
Proof. intros [k Hk]. simpl in Hk. by rewrite lookup_empty in Hk. Qed.

Lemma inside_empty U : inside U empty_set.
Proof. intros x Hx. by apply member_empty in Hx. Qed.

Lemma member_Insert U st l y :
  collision_free U (funcHash st) → set_wf st → inside U st → (∀ x, x ∈ l → U x) →
  member y (Insert st l) ↔ member y st ∨ y ∈ l.
Proof.
  intros Hcf Hwf Hin Hl. unfold Insert.
  rewrite (member_foldl U (λ x, Some x) l st) by (auto; naive_solver). naive_solver.
Qed.

Lemma member_NewSet U l y : collision_free U None → (∀ x, x ∈ l → U x) → member y (NewSet l) ↔ y ∈ l.
Proof.
  intros. unfold NewSet. rewrite (member_Insert U) by auto using empty_wf, inside_empty.
  split; [|auto]. intros [Hm|?]; [|done]. by apply member_empty in Hm.
Qed.

Lemma Exists_NewSet U l x :
  collision_free U None → (∀ x, x ∈ l → U x) → U x → Exists (NewSet l) x = true ↔ x ∈ l.
Proof.
  intros Hcf Hl Hx. assert (funcHash (NewSet l) = None) as Hf by apply Insert_funcHash.
  rewrite (Exists_member U) by (rewrite ?Hf; auto using NewSet_wf; intros y; rewrite (member_NewSet U); auto).
  by apply member_NewSet with (U := U).
Qed.

Lemma Exists_Insert U st l x :
  collision_free U (funcHash st) → set_wf st → inside U st → (∀ x, x ∈ l → U x) → U x →
  Exists (Insert st l) x = true ↔ Exists st x = true ∨ x ∈ l.
Proof.
  intros Hcf Hwf Hin Hl Hx.
  rewrite !(Exists_member U), (member_Insert U); rewrite ?Insert_funcHash; auto using Insert_wf.
  intros y. rewrite (member_Insert U) by done. naive_solver.
Qed.

Lemma member_Remove U st x y :
  collision_free U (funcHash st) → set_wf st → inside U st → U x →
  member y (Remove st x) ↔ member y st ∧ y ≠ x.
Proof.
  intros Hcf Hwf Hin Hx. rewrite (member_key (Remove st x)) by (by apply Remove_wf).
  change (Hash (Remove st x) y) with (Hash st y). cbn [storage Remove].
  rewrite lookup_delete_Some, (member_key st) by done. split.
  - intros [Hne Hy]. split; [done|]. congruence.
  - intros [Hy Hne]. split; [|done]. intros Hh. apply Hne. symmetry. eapply Hcf; eauto.
    apply Hin. by apply member_key.
Qed.

End Ops.

(** ** The set operations refine finite-set algebra *)
Section Refinement.
Context {T : Type} `{GoHash T} (U : T → Prop).
Implicit Types (st set : GoSet T).

(** A set the clients can use: well formed, keyed by the default hash, and over a
    universe of elements on which that hash has no collision. *)
Record good (st : GoSet T) : Prop := {
  good_wf : set_wf st;
  good_default : funcHash st = None;
  good_inside : inside U st
}.

Lemma Len_Array st : set_wf st → Len st = Z.of_nat (length (Array st)).
Proof.
  intros [Hd _]. unfold Len, Array. rewrite Hd, length_fmap, length_map_to_list, size_dom. done.
Qed.

Lemma NoDup_Array st : set_wf st → NoDup (Array st).
Proof.
  intros [_ Hf]. unfold Array.
  apply NoDup_fmap_2_strong; [|apply NoDup_map_to_list].
  intros [k v] [k' v'] Hv%elem_of_map_to_list Hv'%elem_of_map_to_list Heq. simpl in *. subst v'.
  rewrite <- (Hf _ _ Hv), <- (Hf _ _ Hv'). done.
Qed.

Lemma Insert1_skip (d : GoSet T) (b : bool) v :
  (if b then Insert1 d v else d) = match (if b then Some v else None) with Some x => Insert1 d x | None => d end.
Proof. by destruct b. Qed.

Lemma foldl_ext_fun {A B} (f g : A → B → A) l a : (∀ a b, f a b = g a b) → foldl f a l = foldl g a l.
Proof. intros Hfg. revert a. induction l as [|b l IH]; intros a; simpl; [done|]. by rewrite Hfg, IH. Qed.

Hypothesis Hcf : collision_free U None.

Lemma Remove_good st x : good st → U x → good (Remove st x).
Proof.
  intros [Hw Hf Hi] Hc. split; [by apply Remove_wf|done|]. intros y.
  rewrite (member_Remove U) by (rewrite ?Hf; done). intros [? _]. auto.
Qed.

Lemma keys_transfer st set x :
  good st → good set → member x st → Hash st x ∈ hash set ↔ member x set.
Proof.
  intros [Hw Hf Hi] [Hw' Hf' Hi'] Hx.
  assert (Hash st x = Hash set x) as -> by (unfold Hash; by rewrite Hf, Hf').
  rewrite <- (Exists_member U set x) by (rewrite ?Hf'; auto).
  unfold Exists. by rewrite bool_decide_eq_true.
Qed.

Lemma member_Difference st set y :
  good st → good set → member y (Difference st set) ↔ member y st ∧ ¬ member y set.
Proof.
  intros Hs Hs'. unfold Difference.
  erewrite foldl_ext_fun
    by (intros d k; instantiate (1 := λ d k, match (if bool_decide (k ∉ hash set) then Some (stored st k) else None)
                                        with Some x => Insert1 d x | None => d end); simpl;
        by case_bool_decide; case_bool_decide).
  pose proof Hs as [Hw Hf Hi].
  assert (Hg : ∀ k x, k ∈ elements (hash st) →
                 (if bool_decide (k ∉ hash set) then Some (stored st k) else None) = Some x → U x).
  { intros k x Hk%elem_of_elements. destruct (bool_decide _); [|done]. intros [= <-]. by apply Hi, stored_member. }
  rewrite (member_foldl U) by auto using empty_wf, inside_empty.
  split.
  - intros [Hm|(k & Hk & Hy)]; [by apply member_empty in Hm|].
    case_bool_decide as Hn; [|done]. injection Hy as <-.
    apply elem_of_elements in Hk. destruct (stored_member st k Hw Hk) as [Hm Hh]. split; [done|].
    rewrite <- (keys_transfer st set) by done. by rewrite Hh.
  - intros [Hm Hn]. right. exists (Hash st y). split; [by apply elem_of_elements, member_hash|].
    rewrite bool_decide_eq_true_2 by (by rewrite keys_transfer).
    f_equal. unfold stored. rewrite member_key in Hm by done. by rewrite Hm.
Qed.

Lemma member_Intersection st set y :
  good st → good set → member y (Intersection st set) ↔ member y st ∧ member y set.
Proof.
  intros Hs Hs'. unfold Intersection.
  erewrite foldl_ext_fun
    by (intros d k; instantiate (1 := λ d k, match (if bool_decide (k ∈ hash set) then Some (stored set k) else None)
                                        with Some x => Insert1 d x | None => d end); simpl;
        by case_bool_decide).
  pose proof Hs as [Hw Hf Hi]. pose proof Hs' as [Hw' Hf' Hi'].
  assert (Hg : ∀ k x, k ∈ elements (hash st) →
                 (if bool_decide (k ∈ hash set) then Some (stored set k) else None) = Some x → U x).
  { intros k x _. case_bool_decide; [|done]. intros [= <-]. by apply Hi', stored_member. }
  rewrite (member_foldl U) by auto using empty_wf, inside_empty.
  split.
  - intros [Hm|(k & Hk & Hy)]; [by apply member_empty in Hm|].
    case_bool_decide as Hn; [|done]. injection Hy as <-.
    destruct (stored_member set k Hw' Hn) as [Hm Hh]. split; [|done].
    apply (keys_transfer set st); [done..|]. rewrite Hh. by apply elem_of_elements.
  - intros [Hm Hn]. right. exists (Hash st y). split; [by apply elem_of_elements, member_hash|].
    rewrite bool_decide_eq_true_2 by (by apply keys_transfer).
    f_equal. unfold stored. assert (Hash st y = Hash set y) as -> by (unfold Hash; by rewrite Hf, Hf').
    rewrite member_key in Hn by done. by rewrite Hn.
Qed.

Lemma member_fold_all d st y :
  good d → good st →
  member y (foldl (λ d k, Insert1 d (stored st k)) d (elements (hash st))) ↔ member y d ∨ member y st.
Proof.
  intros [Hw Hf Hi] [Hw' Hf' Hi'].
  rewrite (member_foldl U (λ k, Some (stored st k))).
  - split; [intros [?|(k & Hk & [= <-])]; [by left|right]|intros [?|Hm]; [by left|right]].
    + by apply stored_member, elem_of_elements.
    + exists (Hash st y). split; [by apply elem_of_elements, member_hash|]. f_equal.
      unfold stored. rewrite member_key in Hm by done. by rewrite Hm.
  - by rewrite Hf.
  - done.
  - done.
  - intros k x Hk [= <-]. apply Hi', stored_member; [done|]. by apply elem_of_elements.
Qed.

Lemma good_empty : good empty_set.
Proof. split; auto using empty_wf, inside_empty. Qed.

Lemma good_of_member st (P : T → Prop) :
  set_wf st → funcHash st = None → (∀ y, member y st ↔ P y) → (∀ y, P y → U y) → good st.
Proof. intros Hw Hf Hm HP. split; [done..|]. intros x Hx. by apply HP, Hm. Qed.

Lemma foldl_funcHash {A} (f : GoSet T → A → GoSet T) l st :
  (∀ st x, funcHash (f st x) = funcHash st) → funcHash (foldl f st l) = funcHash st.
Proof. intros Hf. revert st. induction l as [|a l IH]; intros st; simpl; [done|]. by rewrite IH, Hf. Qed.

Lemma member_Union st set y :
  good st → good set → member y (Union st set) ↔ member y st ∨ member y set.
Proof.
  intros Hs Hs'. unfold Union.
  pose proof (member_fold_all empty_set st) as Hm.
  assert (good (foldl (λ d k, Insert1 d (stored st k)) empty_set (elements (hash st)))).
  { apply (good_of_member _ (λ y, member y empty_set ∨ member y st)).
    - apply foldl_wf; auto using Insert1_wf, empty_wf.
    - apply foldl_funcHash. intros; apply Insert1_funcHash.
    - intros z. by apply Hm; [apply good_empty|].
    - intros z [Hz|Hz]; [by apply member_empty in Hz|by apply (good_inside _ Hs)]. }
  rewrite member_fold_all, Hm by auto using good_empty.
  split; [|tauto]. intros [[Hz|?]|?]; auto. by apply member_empty in Hz.
Qed.

Lemma SubsetOf_spec st set :
  good st → good set → SubsetOf st set = true ↔ ∀ x, member x st → member x set.
Proof.
  intros Hs Hs'. pose proof Hs as [Hw Hf Hi]. pose proof Hs' as [Hw' Hf' Hi'].
  assert (Hkeys : (∀ k, k ∈ hash st → k ∈ hash set) ↔ ∀ x, member x st → member x set).
  { split.
    - intros Hk x Hx. apply (keys_transfer st set); [done..|]. by apply Hk, member_hash.
    - intros Hx k Hk. destruct (stored_member st k Hw Hk) as [Hm <-]. apply keys_transfer; auto. }
  unfold SubsetOf. destruct (Len set <? Len st) eqn:E.
  - split; [done|]. rewrite <- Hkeys. intros Hsub.
    assert (hash st ⊆ hash set) as Hle%subseteq_size by set_solver.
    unfold Len in E. bool_hyps. lia.
  - rewrite <- Hkeys, forallb_forall. split.
    + intros Hall k Hk. specialize (Hall k). rewrite bool_decide_eq_true in Hall.
      apply Hall, list_elem_of_In, elem_of_elements. done.
    + intros Hall k Hk%list_elem_of_In%elem_of_elements. apply bool_decide_eq_true. auto.
Qed.

(** C40: [types.Set] implements finite-set algebra.  For sets over elements on which the
    default hash has no collision: [Exists] decides membership, [Insert], [Remove],
    [Union], [Intersection] and [Difference] are the set operations, [SubsetOf] decides
    inclusion, [Len] counts the distinct elements that [Array] returns, and
    [ProperSubsetOf] is inclusion with a smaller count. *)
Theorem set_refines_finite_sets st set x y :
  good st → good set → U x →
  (Exists st x = true ↔ member x st)
  ∧ (member y (Insert st [x]) ↔ y = x ∨ member y st)
  ∧ (member y (Remove st x) ↔ member y st ∧ y ≠ x)
  ∧ (member y (Union st set) ↔ member y st ∨ member y set)
  ∧ (member y (Intersection st set) ↔ member y st ∧ member y set)
  ∧ (member y (Difference st set) ↔ member y st ∧ ¬ member y set)
  ∧ (SubsetOf st set = true ↔ ∀ z, member z st → member z set)
  ∧ (ProperSubsetOf st set = true ↔ (∀ z, member z st → member z set) ∧ Len st < Len set)
  ∧ NoDup (Array st) ∧ Len st = Z.of_nat (length (Array st))
  ∧ (∀ z, z ∈ Array st ↔ member z st).
Proof.
  intros Hs Hs' Hx. pose proof Hs as [Hw Hf Hi].
  assert (collision_free U (funcHash st)) by (by rewrite Hf).
  split_and!.
  - by apply Exists_member with (U := U).
  - rewrite (member_Insert U) by (auto; set_solver). set_solver.
  - by apply member_Remove with (U := U).
  - by apply member_Union.
  - by apply member_Intersection.
  - by apply member_Difference.
  - by apply SubsetOf_spec.
  - unfold ProperSubsetOf. by rewrite andb_true_iff, SubsetOf_spec, Z.ltb_lt by done.
  - by apply NoDup_Array.
  - by apply Len_Array.
  - intros. apply member_Array.
Qed.

End Refinement.

(** ** A concrete hash without collisions, for evaluating sets *)
Definition encode_hash {T} `{Countable T} (z : T) : GoHash T :=
  {| method_hash _ := None; hashstructure x := Some (Zpos (encode x)); zero_value := z |}.

Lemma encode_hash_cf {T} `{Countable T} (z : T) U :
  @collision_free T (encode_hash z) U None.
Proof.
  intros x y _ _ Heq. unfold hash_key, fmt_d in Heq. simpl in Heq.
  apply (inj (pretty (A := Z))) in Heq. apply (inj encode). congruence.
Qed.

Lemma NewSet_good {T} `{GoHash T} (U : T → Prop) l :
  collision_free U None → (∀ x, x ∈ l → U x) → good U (NewSet l).
Proof.
  intros Hcf Hl. split; [apply NewSet_wf|apply Insert_funcHash|].
  intros x Hx. apply Hl. by apply (member_NewSet U) in Hx.
Qed.

Lemma set_refines_finite_sets_witness :
  let h := encode_hash "" in
  (∀ z : string, member z (NewSet ["a"; "b"]) → member z (NewSet ["b"; "a"; "c"])) ↔
  SubsetOf (NewSet ["a"; "b"]) (NewSet ["b"; "a"; "c"]) = true.
Proof.
  intros h.
  pose proof (set_refines_finite_sets (λ _, True) (encode_hash_cf "" _) (NewSet ["a"; "b"])
                (NewSet ["b"; "a"; "c"]) "a" "a"
                (NewSet_good _ _ (encode_hash_cf "" _) (λ _ _, I))
                (NewSet_good _ _ (encode_hash_cf "" _) (λ _ _, I)) I) as (_ & _ & _ & _ & _ & _ & Hs & _).
  symmetry. exact Hs.
Defined.
