(* ===== verification/DataTypes.v ===== *)
(** * types/data_types.go and the typecast tree of types/type_schema.go

    OLake's column types, their translation to Iceberg and Parquet, and the
    lowest-common-ancestor search that decides the type of a column in which
    several types were observed. *)

From S2P Require Import Prelude GoString GoSet.

(** [type DataType string] *)
Abbreviation DataType := string (only parsing).
Definition Null : DataType := "null".
Definition Int32 : DataType := "integer_small".
Definition Int64 : DataType := "integer".
Definition Float32 : DataType := "number_small".
Definition Float64 : DataType := "number".
Definition String_ : DataType := "string".
Definition Bool : DataType := "boolean".
Definition Object : DataType := "object".
Definition Array_ : DataType := "array".
Definition Unknown : DataType := "unknown".
Definition Timestamp : DataType := "timestamp".
Definition TimestampMilli : DataType := "timestamp_milli".
Definition TimestampMicro : DataType := "timestamp_micro".
Definition TimestampNano : DataType := "timestamp_nano".

Definition TypeWeights : list (DataType * Z) :=
  [(Bool, 0); (Int32, 1); (Int64, 2); (Float64, 3); (Float32, 4); (String_, 5);
   (TimestampNano, 9); (TimestampMicro, 8); (TimestampMilli, 7); (Timestamp, 6)].

Definition weight (t : DataType) : option Z :=
  snd <$> lookup_first (λ p, String.eqb p.1 t) TypeWeights.

(** constants of constants/constants.go that name the columns OLake adds *)
Definition OlakeID : string := "_olake_id".
Definition OlakeTimestamp : string := "_olake_timestamp".
Definition OpType : string := "_op_type".
Definition CdcTimestamp : string := "_cdc_timestamp".
Definition StringifiedData : string := "data".

Definition RawSchema : list (string * DataType) :=
  [(StringifiedData, String_); (CdcTimestamp, Timestamp); (OlakeTimestamp, Timestamp);
   (OpType, String_); (OlakeID, String_)].

(** ** Destination types *)
Definition is_timestamp (d : DataType) : bool :=
  String.eqb d Timestamp || String.eqb d TimestampMilli || String.eqb d TimestampMicro || String.eqb d TimestampNano.

Definition ToIceberg (d : DataType) : string :=
  if String.eqb d Bool then "boolean"
  else if String.eqb d Int32 then "int"
  else if String.eqb d Int64 then "long"
  else if String.eqb d Float32 then "float"
  else if String.eqb d Float64 then "double"
  else if is_timestamp d then "timestamptz"
  else "string".

Definition IcebergTypeToDatatype (d : string) : DataType :=
  if String.eqb d "boolean" then Bool
  else if String.eqb d "int" then Int32
  else if String.eqb d "long" then Int64
  else if String.eqb d "float" then Float32
  else if String.eqb d "double" then Float64
  else if String.eqb d "timestamptz" then TimestampMicro
  else String_.

(** An Iceberg schema field: (key, type). *)
Definition GetIcebergRawSchema : list (string * string) :=
  (λ kt, (kt.1, ToIceberg kt.2)) <$> RawSchema.

(** The parquet-go nodes the schema uses. *)
Inductive parquet_node :=
| PInt32 | PFloat | PInt64 | PDouble | PString | PBoolean | PTimestampMicros | PByteArray | PJSON
| POptional (n : parquet_node).

Definition ToNewParquet (d : DataType) : parquet_node :=
  POptional
    (if String.eqb d Int32 then PInt32
     else if String.eqb d Float32 then PFloat
     else if String.eqb d Int64 then PInt64
     else if String.eqb d Float64 then PDouble
     else if String.eqb d String_ then PString
     else if String.eqb d Bool then PBoolean
     else if is_timestamp d then PTimestampMicros
     else if String.eqb d Object || String.eqb d Array_ then PString
     else PByteArray).

(** ** The typecast tree *)
Inductive typeNode := TNode (t : DataType) (left right : option typeNode).

Definition leaf (t : DataType) : typeNode := TNode t None None.

Definition typecastTree : typeNode :=
  TNode String_
    (Some (TNode Float64
       (Some (TNode Int64 (Some (TNode Int32 (Some (leaf Bool)) None)) None))
       (Some (leaf Float32))))
    (Some (TNode TimestampNano
       (Some (TNode TimestampMicro (Some (TNode TimestampMilli (Some (leaf Timestamp)) None)) None))
       None)).

Fixpoint lca_node (node : typeNode) (t1 t2 : DataType) : DataType :=
  let '(TNode t l r) := node in
  match weight t with
  | None => Unknown
  | Some rootW =>
      match weight t1, weight t2 with
      | Some wt1, Some wt2 =>
          if (rootW <? wt1) && (rootW <? wt2) then
            match r with Some n => lca_node n t1 t2 | None => Unknown end
          else if (wt1 <? rootW) && (wt2 <? rootW) then
            match l with Some n => lca_node n t1 t2 | None => Unknown end
          else t
      | _, _ => t
      end
  end.

Definition lowestCommonAncestor (root : option typeNode) (t1 t2 : DataType) : DataType :=
  match root with Some n => lca_node n t1 t2 | None => Unknown end.

Definition GetCommonAncestorType (t1 t2 : DataType) : DataType := lowestCommonAncestor (Some typecastTree) t1 t2.

(** The fold of [Property.DataType] over the array of a type set: drop the first
    [Null], then the common ancestor of what is left. *)
Fixpoint remove_first (x : string) (l : list string) : list string :=
  match l with
  | [] => []
  | y :: l' => if String.eqb y x then l' else y :: remove_first x l'
  end.

Definition resolve_types (types : list DataType) : DataType :=
  match remove_first Null types with
  | [] => Null
  | t :: ts => foldl GetCommonAncestorType t ts
  end.

(** ** Algebra of the common ancestor *)
Notation "a ⊔ₜ b" := (GetCommonAncestorType a b) (at level 50, left associativity) : olake_scope.

Lemma weight_cases t :
  weight t = None ∨ t ∈ TypeWeights.*1.
Proof.
  unfold weight. destruct (lookup_first _ _) as [[t' w]|] eqn:E; [right|by left].
  apply lookup_first_Some in E as [Hin Heq]. simpl in Heq. bool_hyps. subst t'.
  apply list_elem_of_fmap. by exists (t, w).
Qed.

Lemma lca_unweighted t1 t2 : weight t1 = None ∨ weight t2 = None → t1 ⊔ₜ t2 = String_.
Proof.
  intros Hw. unfold GetCommonAncestorType, lowestCommonAncestor. cbn -[weight].
  assert (weight String_ = Some 5) as -> by done.
  destruct Hw as [-> | ->]; [done|]. by destruct (weight t1).
Qed.

Definition weighted_types : list DataType := TypeWeights.*1.

Definition forall2b (f : string → string → bool) : bool :=
  forallb (λ a, forallb (f a) weighted_types) weighted_types.

Lemma forall2b_spec f : forall2b f = true → ∀ a b, a ∈ weighted_types → b ∈ weighted_types → f a b = true.
Proof.
  unfold forall2b. rewrite forallb_forall. intros H a b Ha Hb.
  apply list_elem_of_In, H in Ha. rewrite forallb_forall in Ha. by apply Ha, list_elem_of_In.
Qed.

Lemma lca_string_l t : String_ ⊔ₜ t = String_.
Proof.
  destruct (weight_cases t) as [H|H]; [by apply lca_unweighted; right|].
  assert (Hf : forall2b (λ a b, String.eqb (String_ ⊔ₜ b) String_) = true) by (vm_compute; reflexivity).
  apply String.eqb_eq. apply (forall2b_spec _ Hf t t H H).
Qed.

Lemma lca_comm t1 t2 : t1 ⊔ₜ t2 = t2 ⊔ₜ t1.
Proof.
  destruct (weight_cases t1) as [H1|H1]; [rewrite !lca_unweighted; auto|].
  destruct (weight_cases t2) as [H2|H2]; [rewrite !lca_unweighted; auto|].
  assert (Hf : forall2b (λ a b, String.eqb (a ⊔ₜ b) (b ⊔ₜ a)) = true) by (vm_compute; reflexivity).
  apply String.eqb_eq. by apply (forall2b_spec _ Hf).
Qed.

Lemma lca_string_r t : t ⊔ₜ String_ = String_.
Proof. rewrite lca_comm. apply lca_string_l. Qed.

Lemma lca_idemp t : t ∈ weighted_types → t ⊔ₜ t = t.
Proof.
  intros H. assert (Hf : forall2b (λ a b, String.eqb (a ⊔ₜ a) a) = true) by (vm_compute; reflexivity).
  apply String.eqb_eq. apply (forall2b_spec _ Hf t t H H).
Qed.

Lemma lca_assoc t1 t2 t3 : t1 ⊔ₜ (t2 ⊔ₜ t3) = t1 ⊔ₜ t2 ⊔ₜ t3.
Proof.
  destruct (weight_cases t1) as [H1|H1].
  { by rewrite (lca_unweighted t1 t2), lca_string_l, lca_unweighted by auto. }
  destruct (weight_cases t2) as [H2|H2].
  { by rewrite (lca_unweighted t2 t3), (lca_unweighted t1 t2), lca_string_l, lca_string_r by auto. }
  destruct (weight_cases t3) as [H3|H3].
  { by rewrite (lca_unweighted t2 t3), lca_string_r, lca_unweighted by auto. }
  assert (Hf : forallb (λ a, forall2b (λ b c, String.eqb (a ⊔ₜ (b ⊔ₜ c)) (a ⊔ₜ b ⊔ₜ c))) weighted_types = true)
    by (vm_compute; reflexivity).
  rewrite forallb_forall in Hf. apply list_elem_of_In, Hf in H1.
  apply String.eqb_eq. by apply (forall2b_spec _ H1).
Qed.

#[export] Instance lca_Comm : Comm (=) GetCommonAncestorType := lca_comm.
#[export] Instance lca_Assoc : Assoc (=) GetCommonAncestorType := lca_assoc.

Lemma foldl_lca_acc l a b : foldl GetCommonAncestorType (a ⊔ₜ b) l = a ⊔ₜ foldl GetCommonAncestorType b l.
Proof.
  revert a b. induction l as [|c l IH]; intros a b; simpl; [done|].
  by rewrite <- lca_assoc, IH.
Qed.

(** The fold over a non-empty array does not depend on the order. *)
Definition join_all (l : list DataType) : DataType :=
  match l with [] => Null | t :: ts => foldl GetCommonAncestorType t ts end.

Lemma join_all_cons a b l : join_all (a :: b :: l) = a ⊔ₜ join_all (b :: l).
Proof. simpl. apply foldl_lca_acc. Qed.

Lemma join_all_perm l l' : l ≡ₚ l' → join_all l = join_all l'.
Proof.
  induction 1 as [|x l l' Hp IH|x y l|l1 l2 l3 H1 IH1 H2 IH2]; [done| | |congruence].
  - destruct l as [|a l], l' as [|b l']; [done| | |].
    + by apply Permutation_nil_cons in Hp.
    + symmetry in Hp. by apply Permutation_nil_cons in Hp.
    + by rewrite !join_all_cons, IH.
  - destruct l as [|a l]; [simpl; apply lca_comm|].
    rewrite !join_all_cons, !lca_assoc. by rewrite (lca_comm x y).
Qed.

Lemma remove_first_filter x l : NoDup l → remove_first x l = filter (λ y, y ≠ x) l.
Proof.
  induction 1 as [|y l Hy Hl IH]; [done|]. cbn [remove_first].
  destruct (String.eqb_spec y x) as [->|Hne].
  - rewrite filter_cons_False by (intros Hn; by apply Hn). symmetry. apply filter_all.
    apply Forall_forall. intros z Hz ->. done.
  - by rewrite filter_cons_True, IH by done.
Qed.

Lemma resolve_types_join l : NoDup l → resolve_types l = join_all (filter (λ y, y ≠ Null) l).
Proof. intros Hl. unfold resolve_types. by rewrite remove_first_filter. Qed.

(** ** Ancestors *)
Fixpoint in_tree (t : DataType) (n : typeNode) : bool :=
  let '(TNode t' l r) := n in
  String.eqb t t' || match l with Some n => in_tree t n | None => false end
  || match r with Some n => in_tree t n | None => false end.

(** [ancestor a b]: [b] lies in a subtree of the typecast tree rooted at [a]. *)
Fixpoint ancestor_in (n : typeNode) (a b : DataType) : bool :=
  let '(TNode t l r) := n in
  String.eqb a t && in_tree b n
  || match l with Some n => ancestor_in n a b | None => false end
  || match r with Some n => ancestor_in n a b | None => false end.
Definition ancestor (a b : DataType) : bool := ancestor_in typecastTree a b.

(** [a ⊔ₜ b] is an ancestor of both types and every common ancestor is above it. *)
Lemma lca_least a b c : a ∈ weighted_types → b ∈ weighted_types → c ∈ weighted_types →
  ancestor (a ⊔ₜ b) a = true ∧ ancestor (a ⊔ₜ b) b = true
  ∧ (ancestor c a = true → ancestor c b = true → ancestor c (a ⊔ₜ b) = true).
Proof.
  intros Ha Hb Hc.
  assert (Hf : forallb (λ c, forall2b (λ a b, ancestor (a ⊔ₜ b) a && ancestor (a ⊔ₜ b) b
             && (negb (ancestor c a && ancestor c b) || ancestor c (a ⊔ₜ b)))) weighted_types = true)
    by (vm_compute; reflexivity).
  rewrite forallb_forall in Hf. apply list_elem_of_In, Hf in Hc.
  pose proof (forall2b_spec _ Hc a b Ha Hb) as H. cbv beta in H. bool_hyps. split_and!; [done..|].
  intros Hca Hcb. rewrite Hca, Hcb in *. done.
Qed.

(** The type of a column is well defined.  Whatever order the type set is walked in
    (Go map iteration is unordered), [Property.DataType] computes the same type; a
    single type is returned as it is, with or without Null; and for the types of the
    typecast tree the result is their least common ancestor there. *)
Theorem column_type_order_independent (l l' : list DataType) :
  NoDup l → l ≡ₚ l' →
  resolve_types l = resolve_types l'
  ∧ (∀ t, t ≠ Null → resolve_types [t] = t ∧ resolve_types [t; Null] = t ∧ resolve_types [Null; t] = t)
  ∧ (∀ a b c, a ∈ weighted_types → b ∈ weighted_types → c ∈ weighted_types → a ≠ b →
       let r := resolve_types [a; b] in
       ancestor r a = true ∧ ancestor r b = true
       ∧ (ancestor c a = true → ancestor c b = true → ancestor c r = true)).
Proof.
  intros Hnd Hp. split_and!.
  - rewrite !resolve_types_join by (by rewrite <- ?Hp). apply join_all_perm. by rewrite Hp.
  - intros t Ht. unfold resolve_types. cbn [remove_first].
    assert (String.eqb t Null = false) as -> by (by apply String.eqb_neq). done.
  - intros a b c Ha Hb Hc Hab. simpl.
    assert (∀ x, x ∈ weighted_types → x ≠ Null) as Hnn.
    { intros x Hx ->. assert (Null ∉ weighted_types) by by_decide. done. }
    rewrite resolve_types_join
      by (apply NoDup_cons; split; [by rewrite list_elem_of_singleton|apply NoDup_singleton]).
    rewrite !filter_cons_True by auto. cbn. by apply lca_least.
Qed.

Lemma column_type_order_independent_witness :
  resolve_types [Int32; Null; Float32] = Float64 ∧ resolve_types [Float32; Int32; Null] = Float64.
Proof.
  assert (NoDup [Int32; Null; Float32]) as Hn by by_decide.
  assert ([Int32; Null; Float32] ≡ₚ [Float32; Int32; Null]) as Hp by by_decide.
  destruct (column_type_order_independent _ _ Hn Hp) as [Heq _].
  rewrite <- Heq. split; reflexivity.
Defined.

(** Iceberg type names round-trip through OLake's types: every name [ToIceberg]
    produces is mapped back to a type with the same Iceberg name, so a schema read back
    from the catalog is not seen as evolved; the round trip on OLake types is the
    identity except that every timestamp precision becomes microseconds and every type
    without an Iceberg counterpart becomes string. *)
Theorem iceberg_type_roundtrip (d : DataType) :
  ToIceberg (IcebergTypeToDatatype (ToIceberg d)) = ToIceberg d
  ∧ IcebergTypeToDatatype (ToIceberg d) =
      (if is_timestamp d then TimestampMicro
       else if contains [Bool; Int32; Int64; Float32; Float64] d then d else String_).
Proof.
  unfold ToIceberg.
  destruct (String.eqb_spec d Bool) as [->|]; [done|].
  destruct (String.eqb_spec d Int32) as [->|]; [done|].
  destruct (String.eqb_spec d Int64) as [->|]; [done|].
  destruct (String.eqb_spec d Float32) as [->|]; [done|].
  destruct (String.eqb_spec d Float64) as [->|]; [done|].
  assert (contains [Bool; Int32; Int64; Float32; Float64] d = false) as -> by (apply contains_false; set_solver).
  destruct (is_timestamp d); done.
Qed.
