(* ===== verification/QueryEngine.v ===== *)
(** * types/query_engine.go and types/delete_mode.go

    Which delete formats OLake can write, which of them each query engine reads,
    and the choice of a format every target engine can read. *)

From S2P Require Import Prelude GoString.

Abbreviation UpdateType := string (only parsing).
Definition UpdateTypeEquality : UpdateType := "eq".
Definition UpdateTypePosition : UpdateType := "pos".
Definition UpdateTypeDeletionVector : UpdateType := "dv".

Abbreviation DestinationType := string (only parsing).
Definition Parquet : DestinationType := "PARQUET".
Definition Iceberg : DestinationType := "ICEBERG".

Abbreviation QueryEngine := string (only parsing).

Record QueryEngineSpec := { Engine : QueryEngine; Label : string; Supports : list UpdateType }.

Definition writableUpdateTypes : list UpdateType :=
  [UpdateTypeEquality; UpdateTypePosition; UpdateTypeDeletionVector].

Definition queryEngines : list QueryEngineSpec :=
  [ {| Engine := "spark"; Label := "Apache Spark"; Supports := [UpdateTypeEquality; UpdateTypePosition; UpdateTypeDeletionVector] |};
    {| Engine := "flink"; Label := "Apache Flink"; Supports := [UpdateTypeEquality; UpdateTypePosition; UpdateTypeDeletionVector] |};
    {| Engine := "trino"; Label := "Trino"; Supports := [UpdateTypeEquality; UpdateTypePosition; UpdateTypeDeletionVector] |};
    {| Engine := "presto"; Label := "Presto"; Supports := [UpdateTypeEquality; UpdateTypePosition] |};
    {| Engine := "starrocks"; Label := "StarRocks"; Supports := [UpdateTypeEquality; UpdateTypePosition] |};
    {| Engine := "hive"; Label := "Apache Hive"; Supports := [UpdateTypeEquality; UpdateTypePosition] |};
    {| Engine := "duckdb"; Label := "DuckDB"; Supports := [UpdateTypeEquality; UpdateTypePosition; UpdateTypeDeletionVector] |};
    {| Engine := "athena"; Label := "AWS Athena"; Supports := [UpdateTypeEquality; UpdateTypePosition] |};
    {| Engine := "snowflake"; Label := "Snowflake"; Supports := [UpdateTypePosition; UpdateTypeDeletionVector] |};
    {| Engine := "bigquery"; Label := "Google BigQuery"; Supports := [UpdateTypeEquality; UpdateTypePosition] |};
    {| Engine := "databricks"; Label := "Databricks"; Supports := [UpdateTypeDeletionVector] |};
    {| Engine := "dremio"; Label := "Dremio"; Supports := [UpdateTypePosition] |};
    {| Engine := "clickhouse"; Label := "ClickHouse"; Supports := [UpdateTypeEquality; UpdateTypePosition; UpdateTypeDeletionVector] |} ].

(** [QueryEngineCatalog] *)
Definition QueryEngineCatalog : list QueryEngineSpec * list UpdateType := (queryEngines, writableUpdateTypes).

Definition lookupEngine (engine : QueryEngine) : option QueryEngineSpec :=
  lookup_first (λ spec, String.eqb (Engine spec) engine) queryEngines.

Definition engineNames : list string := Engine <$> queryEngines.

Definition parse_one (engines : list QueryEngine) (value : string) : result (list QueryEngine) :=
  let engine := ToLower (TrimSpace value) in
  if String.eqb engine "" then Ok engines
  else match lookupEngine engine with
       | None => Err "unknown query engine"
       | Some _ => if contains engines engine then Ok engines else Ok (engines ++ [engine])
       end.

Definition ParseQueryEngines (values : list string) : result (list QueryEngine) := foldM parse_one [] values.

Definition readableByAll (engines : list QueryEngine) (updateType : UpdateType) : bool :=
  forallb (λ engine, match lookupEngine engine with
                     | Some spec => contains (Supports spec) updateType
                     | None => false
                     end) engines.

Definition AvailableUpdateTypes (engines : list QueryEngine) : list UpdateType :=
  filter (λ u, readableByAll engines u = true) writableUpdateTypes.

Definition PreferredUpdateType (available : list UpdateType) : UpdateType :=
  match available with [] => "" | u :: _ => u end.

(** ** delete_mode.go *)
Definition NeedsTableIndex (m : UpdateType) (destinationType : DestinationType) : bool :=
  String.eqb destinationType Iceberg
  && (String.eqb m UpdateTypePosition || String.eqb m UpdateTypeDeletionVector).

Definition Validate_UpdateType (m : UpdateType) : result unit :=
  if contains writableUpdateTypes m then Ok tt else Err "invalid update mode".

Definition ValidateAgainst (m : UpdateType) (available : list UpdateType) : result unit :=
  _ ← Validate_UpdateType m;
  if bool_decide (available ≠ []) && negb (contains available m)
  then Err "update mode is not readable by the target query engines"
  else Ok tt.

(** ** Theorems *)
Definition reads (engine : QueryEngine) (u : UpdateType) : Prop :=
  ∃ spec, lookupEngine engine = Some spec ∧ u ∈ Supports spec.

Lemma readableByAll_spec engines u : readableByAll engines u = true ↔ ∀ e, e ∈ engines → reads e u.
Proof.
  unfold readableByAll, reads. rewrite forallb_forall. setoid_rewrite <- list_elem_of_In.
  split; intros H e He; specialize (H e He).
  - destruct (lookupEngine e) as [spec|]; [|done]. exists spec. by rewrite contains_true in H.
  - destruct H as (spec & -> & Hu). by apply contains_true.
Qed.

Lemma AvailableUpdateTypes_elem engines u :
  u ∈ AvailableUpdateTypes engines ↔ u ∈ writableUpdateTypes ∧ ∀ e, e ∈ engines → reads e u.
Proof. unfold AvailableUpdateTypes. rewrite list_elem_of_filter, readableByAll_spec. tauto. Qed.

(** [e] is a normalised non-blank value of [values]. *)
Definition names (values : list string) (e : QueryEngine) : Prop :=
  e ≠ "" ∧ ∃ v, v ∈ values ∧ e = ToLower (TrimSpace v).

Lemma names_cons v values e : names (v :: values) e ↔ (e ≠ "" ∧ e = ToLower (TrimSpace v)) ∨ names values e.
Proof.
  unfold names. split.
  - intros (Hne & w & [->|Hw]%elem_of_cons & He); [by left|right]. eauto.
  - intros [[Hne He]|(Hne & w & Hw & He)]; (split; [done|]); [exists v|exists w]; (split; [|done]); set_solver.
Qed.

Lemma parse_one_spec acc v acc' :
  NoDup acc → (∀ e, e ∈ acc → is_Some (lookupEngine e)) → parse_one acc v = Ok acc' →
  NoDup acc' ∧ (∀ e, e ∈ acc' → is_Some (lookupEngine e))
  ∧ (∀ e, e ∈ acc' ↔ e ∈ acc ∨ (e ≠ "" ∧ e = ToLower (TrimSpace v))).
Proof.
  intros Hnd Hk. unfold parse_one.
  destruct (String.eqb_spec (ToLower (TrimSpace v)) "") as [Hb|Hb].
  { intros [= <-]. split_and!; [done..|]. intros e. split; [by left|]. intros [?|[Hne ->]]; done. }
  destruct (lookupEngine _) as [spec|] eqn:El; [|done].
  destruct (contains acc _) eqn:Ec; intros [= <-].
  - rewrite contains_true in Ec. split_and!; [done..|]. intros e. split; [by left|]. by intros [?|[_ ->]].
  - rewrite contains_false in Ec. split_and!.
    + apply NoDup_app. split_and!; [done| |apply NoDup_singleton]. intros x Hx ->%list_elem_of_singleton. done.
    + intros e [He| ->%list_elem_of_singleton]%elem_of_app; eauto.
    + intros e. rewrite elem_of_app, list_elem_of_singleton. split; [|tauto].
      intros [?| ->]; [by left|by right].
Qed.

Lemma ParseQueryEngines_step values acc out :
  NoDup acc → (∀ e, e ∈ acc → is_Some (lookupEngine e)) → foldM parse_one acc values = Ok out →
  NoDup out ∧ (∀ e, e ∈ out → is_Some (lookupEngine e)) ∧ (∀ e, e ∈ out ↔ e ∈ acc ∨ names values e).
Proof.
  revert acc. induction values as [|v values IH]; intros acc Hnd Hk; cbn [foldM].
  { intros [= <-]. split_and!; [done..|]. intros e. split; [by left|].
    intros [?|(_ & w & Hw & _)]; [done|]. by apply elem_of_nil in Hw. }
  destruct (parse_one acc v) as [acc'| |] eqn:E; [|done..]. intros H.
  destruct (parse_one_spec _ _ _ Hnd Hk E) as (Hnd' & Hk' & Ha).
  destruct (IH _ Hnd' Hk' H) as (? & ? & Ho). split_and!; [done..|].
  intros e. rewrite Ho, Ha, names_cons. tauto.
Qed.

(** The offered delete formats are exactly the writable ones that every target engine
    reads, in cheapest-first order; more engines never widen the choice; the default is
    the first of them; and accepted engine names are known, without duplicates. *)
Theorem available_update_types_sound engines engines' values parsed :
  (∀ u, u ∈ AvailableUpdateTypes engines ↔ u ∈ writableUpdateTypes ∧ ∀ e, e ∈ engines → reads e u)
  ∧ sublist (AvailableUpdateTypes engines) writableUpdateTypes
  ∧ AvailableUpdateTypes [] = writableUpdateTypes
  ∧ (engines ⊆ engines' → AvailableUpdateTypes engines' ⊆ AvailableUpdateTypes engines)
  ∧ (AvailableUpdateTypes engines ≠ [] → PreferredUpdateType (AvailableUpdateTypes engines) ∈ AvailableUpdateTypes engines)
  ∧ (ParseQueryEngines values = Ok parsed →
       NoDup parsed ∧ (∀ e, e ∈ parsed → e ∈ engineNames)
       ∧ ∀ e, e ∈ parsed ↔ names values e).
Proof.
  split_and!.
  - apply AvailableUpdateTypes_elem.
  - apply sublist_filter.
  - reflexivity.
  - intros Hsub u. rewrite !AvailableUpdateTypes_elem. set_solver.
  - destruct (AvailableUpdateTypes engines); set_solver.
  - intros Hp. destruct (ParseQueryEngines_step values [] parsed) as (Hnd & Hk & Ho); [constructor| |done|].
    { intros e He. by apply elem_of_nil in He. }
    split_and!; [done| |].
    + intros e He. destruct (Hk e He) as [spec Hs]. unfold lookupEngine in Hs.
      apply lookup_first_Some in Hs as [Hin Heq]. bool_hyps. subst e.
      unfold engineNames. by apply list_elem_of_fmap_2.
    + intros e. rewrite Ho. split; [|by right]. intros [He|?]; [|done]. by apply elem_of_nil in He.
Qed.

Lemma available_update_types_sound_witness :
  ParseQueryEngines [" Spark"; "TRINO"; "spark "] = Ok ["spark"; "trino"]
  ∧ AvailableUpdateTypes ["presto"; "snowflake"] = [UpdateTypePosition]
  ∧ "trino" ∈ engineNames.
Proof.
  split; [vm_compute; reflexivity|]. split; [vm_compute; reflexivity|].
  assert (ParseQueryEngines [" Spark"; "TRINO"; "spark "] = Ok ["spark"; "trino"]) as Hp by (vm_compute; reflexivity).
  destruct (available_update_types_sound [] [] [" Spark"; "TRINO"; "spark "] ["spark"; "trino"]) as (_ & _ & _ & _ & _ & Hparse).
  destruct (Hparse Hp) as (_ & Hin & _). apply Hin. by_decide.
Defined.
