(* ===== verification/Value.v ===== *)
(** * Go values of interface type, and utils/typeutils: compare.go, reformat.go, datatype.go

    [any] lists the dynamic types the type switches of typeutils distinguish.
    Machine integers carry their kind; floats are IEEE values ([spec_float]).
    What the sources take from the platform and from the parts of the Go standard
    library that are not written out here is gathered in the class [GoEnv]:
    [strconv.ParseFloat], the [%v] rendering of floats, times and pointers,
    [time.Parse], the local time zone, and the float-to-integer conversions that the
    Go specification leaves to the implementation. *)

From S2P Require Import Prelude GoString GoSet DataTypes.
From Stdlib Require Export SpecFloat.

(** ** Kinds and values *)
Inductive ikind := KInt | KInt8 | KInt16 | KInt32 | KInt64 | KUint | KUint8 | KUint16 | KUint32 | KUint64.

Definition width (k : ikind) : Z :=
  match k with
  | KInt8 | KUint8 => 8 | KInt16 | KUint16 => 16 | KInt32 | KUint32 => 32
  | KInt | KUint | KInt64 | KUint64 => 64
  end.
Definition signed (k : ikind) : bool :=
  match k with KInt | KInt8 | KInt16 | KInt32 | KInt64 => true | _ => false end.

Definition int_range (k : ikind) (z : Z) : Prop :=
  if signed k then - 2 ^ (width k - 1) ≤ z < 2 ^ (width k - 1) else 0 ≤ z < 2 ^ width k.

#[export] Instance ikind_eq_dec : EqDecision ikind.
Proof. unfold EqDecision, Decision. decide equality. Defined.

(** [time.Time]: seconds since 1970, nanoseconds within the second, zone offset. *)
Record gotime := mkTime { t_unix : Z; t_nsec : Z; t_zone : Z }.

#[export] Instance gotime_eq_dec : EqDecision gotime.
Proof. unfold EqDecision, Decision. decide equality; apply Z.eq_dec. Defined.

Inductive ptrkind := PtrAny | PtrBool | PtrInt | PtrInt32 | PtrInt64 | PtrFloat32 | PtrFloat64
                   | PtrString | PtrTime | PtrNullTime | PtrOther.

(** [reflect.Kind]s of the remaining dynamic types. *)
Inductive rkind := RSlice | RArray | RMap | RStruct | ROther.

Inductive any :=
| ANil
| ABool (b : bool)
| AInt (k : ikind) (z : Z)
| AFloat32 (f : spec_float)
| AFloat64 (f : spec_float)
| AString (s : string)
| ABytes (s : string)                    (* []byte *)
| AInt8s (l : list Z)                    (* []int8 *)
| ATime (t : gotime)
| ANumber (s : string)                   (* json.Number *)
| AArray (l : list any)                  (* []any *)
| AMap (m : list (string * any))         (* map[string]any, sorted by key *)
| APtr (k : ptrkind) (v : option any)    (* nil pointer: None *)
| ANullTime (valid : bool) (t : gotime)  (* sql.NullTime *)
| ADateTime (ms : Z)                     (* primitive.DateTime *)
| AObjectID (hex : string)               (* primitive.ObjectID *)
| ATimeT (t : gotime)                    (* typeutils.Time *)
| AOther (k : rkind) (repr : string).    (* any other type, with its %v rendering *)

Definition is_nil (v : any) : bool := match v with ANil => true | _ => false end.

(** [Time.UTC] *)
Definition UTC (t : gotime) : gotime := mkTime (t_unix t) (t_nsec t) 0.

Class GoEnv := {
  parse_float : Z → string → option spec_float;
  fmt_float : Z → spec_float → string;
  fmt_time : gotime → string;
  fmt_pointer : any → string;
  time_parse : string → string → option gotime;
  local_offset : Z → Z;
  f2i_undefined : bool → Z → spec_float → Z;
  LoadedStateVersion : Z
}.

(** ** Floats *)
Definition sf64 (z : Z) : spec_float := binary_normalize 53 1024 z 0 false.
Definition sf32 (z : Z) : spec_float := binary_normalize 24 128 z 0 false.
Definition to_sf32 (f : spec_float) : spec_float :=
  match f with
  | S754_finite s m e => binary_normalize 24 128 (if s then Zneg m else Zpos m) e s
  | _ => f
  end.

(** Truncation towards zero; [None] for infinities and NaN. *)
Definition sf_trunc (f : spec_float) : option Z :=
  match f with
  | S754_zero _ => Some 0
  | S754_finite s m e =>
      let a := if 0 <=? e then Zpos m * 2 ^ e else Z.quot (Zpos m) (2 ^ (- e)) in
      Some (if s then - a else a)
  | _ => None
  end.

Section Values.
Context `{GoEnv}.

(** Go's conversion of a float to a w-bit integer: the truncated value, or some w-bit integer when it
    does not fit. *)
Definition f2i (sg : bool) (w : Z) (f : spec_float) : Z :=
  let undefined := if sg then wrap_s w (f2i_undefined sg w f) else wrap_u w (f2i_undefined sg w f) in
  match sf_trunc f with
  | Some z =>
      if sg then if in_range (- 2 ^ (w - 1)) (2 ^ (w - 1) - 1) z then z else undefined
      else if in_range 0 (2 ^ w - 1) z then z else undefined
  | None => undefined
  end.

(** ** Civil calendar (proleptic Gregorian, as [time.Time] uses) *)
Definition days_from_civil (y m d : Z) : Z :=
  let y' := if m <=? 2 then y - 1 else y in
  let era := y' / 400 in
  let yoe := y' - era * 400 in
  let doy := (153 * ((m + 9) mod 12) + 2) / 5 + d - 1 in
  era * 146097 + (yoe * 365 + yoe / 4 - yoe / 100 + doy) - 719468.

Definition civil_from_days (z : Z) : Z * Z * Z :=
  let z := z + 719468 in
  let era := z / 146097 in
  let doe := z - era * 146097 in
  let yoe := (doe - doe / 1460 + doe / 36524 - doe / 146096) / 365 in
  let doy := doe - (365 * yoe + yoe / 4 - yoe / 100) in
  let mp := (5 * doy + 2) / 153 in
  let d := doy - (153 * mp + 2) / 5 + 1 in
  let m := if mp <? 10 then mp + 3 else mp - 9 in
  (yoe + era * 400 + (if m <=? 2 then 1 else 0), m, d).

Definition local_secs (t : gotime) : Z := t_unix t + t_zone t.
Definition Year (t : gotime) : Z := (civil_from_days (local_secs t / 86400)).1.1.

(** [t.AddDate(years, 0, 0)]: same month, day and clock, normalised. *)
Definition AddYears (t : gotime) (years : Z) : gotime :=
  let '(y, m, d) := civil_from_days (local_secs t / 86400) in
  mkTime (days_from_civil (y + years) m d * 86400 + local_secs t mod 86400 - t_zone t) (t_nsec t) (t_zone t).

Definition zero_time : gotime := mkTime (-62135596800) 0 0.
Definition epoch : gotime := mkTime 0 0 0.
Definition Unix (sec : Z) : gotime := mkTime sec 0 (local_offset sec).
Definition IsZero (t : gotime) : bool := (t_unix t =? t_unix zero_time) && (t_nsec t =? 0).
Definition time_before (a b : gotime) : bool :=
  (t_unix a <? t_unix b) || (t_unix a =? t_unix b) && (t_nsec a <? t_nsec b).
Definition time_after (a b : gotime) : bool := time_before b a.
(** In int64 arithmetic. *)
Definition UnixMicro (t : gotime) : Z := wrap_s 64 (t_unix t * 1000000 + t_nsec t / 1000).

(** typeutils/time.go *)
Definition Time_Compare (ct u : gotime) : Z :=
  if time_before ct u then -1 else if time_after ct u then 1 else 0.

(** ** [fmt.Sprintf("%v", v)] *)
Fixpoint fmt_v (v : any) : string :=
  match v with
  | ANil => "<nil>"
  | ABool b => if b then "true" else "false"
  | AInt _ z => fmt_d z
  | AFloat32 f => fmt_float 32 f
  | AFloat64 f => fmt_float 64 f
  | AString s | ANumber s => s
  | ABytes s => "[" +:+ Join " " (fmt_d <$> bytes_of s) +:+ "]"
  | AInt8s l => "[" +:+ Join " " (fmt_d <$> l) +:+ "]"
  | ATime t | ATimeT t => fmt_time t
  | AArray l => "[" +:+ Join " " (fmt_v <$> l) +:+ "]"
  | AMap m => "map[" +:+ Join " " ((λ kv, kv.1 +:+ ":" +:+ fmt_v kv.2) <$> m) +:+ "]"
  | APtr _ None => "<nil>"
  | APtr _ (Some _) | ANullTime _ _ => fmt_pointer v
  | ADateTime ms => fmt_d ms
  | AObjectID hex => "ObjectID(" +:+ String (ascii_of 34) (hex +:+ String (ascii_of 34) ")")
  | AOther _ repr => repr
  end.

(** ** [strconv.ParseInt(s, 10, bits)] and [strconv.ParseUint] *)
Definition digit (a : ascii) : option Z :=
  let b := byte_of a in if in_range 48 57 b then Some (b - 48) else None.

Fixpoint digits (acc : Z) (s : string) : option Z :=
  match s with
  | EmptyString => Some acc
  | String a s' => match digit a with Some d => digits (acc * 10 + d) s' | None => None end
  end.

Definition unsigned_digits (s : string) : option Z :=
  match s with EmptyString => None | _ => digits 0 s end.

Definition signed_digits (s : string) : option Z :=
  match s with
  | String "-" s' => Z.opp <$> unsigned_digits s'
  | String "+" s' => unsigned_digits s'
  | _ => unsigned_digits s
  end.

Definition ParseInt (bits : Z) (s : string) : option Z :=
  match signed_digits s with
  | None => None
  | Some z => if in_range (- 2 ^ (bits - 1)) (2 ^ (bits - 1) - 1) z then Some z else None
  end.

Definition ParseUint (bits : Z) (s : string) : option Z :=
  match unsigned_digits s with
  | None => None
  | Some n => if in_range 0 (2 ^ bits - 1) n then Some n else None
  end.

(** ** reformat.go *)
Definition ErrNullValue : string := "null value".

Definition DateTimeFormats : list string :=
  [ "2006-01-02"; "2006-01-02 15:04:05"; "2006-01-02 15:04:05 -07:00"; "2006-01-02 15:04:05-07:00";
    "2006-01-02 15:04:05 -0700 MST"; "2006-01-02-15.04.05.000000"; "2006-01-02T15:04:05";
    "2006-01-02T15:04:05.000000"; "2006-01-02T15:04:05.999999999Z07:00"; "2006-01-02T15:04:05+0000";
    "2020-08-17T05:50:22.895Z"; "2006-01-02 15:04:05.999999-07"; "2006-01-02 15:04:05.999999+00";
    "2006-01-02T15:04:05.000000000Z" ].

Fixpoint str_take (n : nat) (s : string) : string :=
  match n, s with
  | S n', String a s' => String a (str_take n' s')
  | _, _ => EmptyString
  end.

Definition startsWithDatePattern (value : string) : bool :=
  if (String.length value <? 10)%nat then false
  else
    let parts := Split "-" (str_take 10 value) in
    bool_decide (length parts = 3%nat)
    && forallb (λ part, (1 <=? String.length part)%nat && (String.length part <=? 4)%nat
                        && forallb (in_range 48 57) (bytes_of part)) parts.

Fixpoint first_layout (layouts : list string) (value : string) : option gotime :=
  match layouts with
  | [] => None
  | l :: ls => match time_parse l value with Some t => Some t | None => first_layout ls value end
  end.

Definition parseStringTimestamp (value : string) (isTimestampInDB : bool) : result gotime :=
  if negb (startsWithDatePattern value) then Err "string does not start with date pattern (YYYY-MM-DD)"
  else match first_layout DateTimeFormats value with
       | Some tv => Ok tv
       | None =>
           if negb isTimestampInDB && negb (LoadedStateVersion =? 0)
           then Err "failed to parse datetime from available formats"
           else Ok epoch
       end.

(** The year clamp applied to every successfully parsed time. *)
Definition clamp_year (parsed : gotime) : gotime :=
  if Year parsed <? 1 then epoch
  else if 9999 <? Year parsed then AddYears parsed (- (Year parsed - 9999))
  else parsed.

Fixpoint ReformatDate (v : any) (isTimestampInDB : bool) : result gotime :=
  let parsed :=
    match v with
    | ABytes s => parseStringTimestamp s isTimestampInDB
    | AInt8s l => parseStringTimestamp (string_of (wrap_u 8 <$> l)) isTimestampInDB
    | AInt KInt64 z => Ok (Unix z)
    | APtr PtrInt64 (Some (AInt _ z)) => Ok (Unix z)
    | APtr PtrInt64 _ => Err "null time passed"
    | ATime t => Ok t
    | APtr PtrTime (Some (ATime t)) => Ok t
    | APtr PtrTime _ => Err "null time passed"
    | ANullTime valid t => if valid then Ok t else Err "invalid null time"
    | APtr PtrNullTime (Some (ANullTime valid t)) => if valid then Ok t else Err "invalid null time"
    | APtr PtrNullTime _ => Err "null time passed"
    | ANil => Ok zero_time
    | AString s => parseStringTimestamp s isTimestampInDB
    | APtr PtrString (Some (AString s)) =>
        if String.eqb s "" then Err "empty string passed" else parseStringTimestamp s isTimestampInDB
    | APtr PtrString _ => Err "empty string passed"
    | ADateTime ms => Ok (mkTime (ms / 1000) (ms mod 1000 * 1000000) (local_offset (ms / 1000)))
    | APtr PtrAny (Some w) => ReformatDate w isTimestampInDB
    | APtr PtrAny None => Panic "nil pointer dereference"
    | _ => Err "unhandled type: unable to parse into time"
    end in
  match parsed with
  | Ok t => Ok (clamp_year t)
  | Err e => Err e
  | Panic m => Panic m
  end.

Definition true_words : list string := ["1"; "t"; "T"; "true"; "TRUE"; "True"; "YES"; "Yes"; "yes"].
Definition false_words : list string := ["0"; "f"; "F"; "false"; "FALSE"; "False"; "NO"; "No"; "no"].

Definition ReformatBool (v : any) : result bool :=
  match v with
  | ABool b => Ok b
  | AString s =>
      if contains true_words s then Ok true
      else if contains false_words s then Ok false
      else Err "found to be boolean, but value is not boolean"
  | AInt k z =>
      if signed k then
        if z =? 1 then Ok true else if z =? 0 then Ok false
        else Err "found to be boolean, but value is not boolean"
      else Err "found to be boolean, but value is not boolean"
  | _ => Err "found to be boolean, but value is not boolean"
  end.

Fixpoint ReformatInt64 (v : any) : result Z :=
  match v with
  | ANumber s => match ParseInt 64 s with Some z => Ok z | None => Err "invalid syntax" end
  | AFloat32 f | AFloat64 f => Ok (f2i true 64 f)
  | AInt _ z => Ok (wrap_s 64 z)
  | ABool b => Ok (if b then 1 else 0)
  | AString s => match ParseInt 64 s with Some z => Ok z | None => Err "failed to change string to int64" end
  | APtr PtrAny (Some w) => ReformatInt64 w
  | APtr PtrAny None => Panic "nil pointer dereference"
  | ABytes s =>
      if 5 <? LoadedStateVersion then
        match ParseInt 64 s with
        | Some z => Ok z
        | None => match ParseUint 64 s with
                  | Some u => Ok (wrap_s 64 u)
                  | None => Err "failed to change to int64"
                  end
        end
      else Err "failed to change to int64"
  | _ => Err "failed to change to int64"
  end.

Fixpoint ReformatInt32 (v : any) : result Z :=
  match v with
  | AFloat32 f | AFloat64 f => Ok (f2i true 32 f)
  | AInt _ z => Ok (wrap_s 32 z)
  | ABool b => Ok (if b then 1 else 0)
  | AString s => match ParseInt 32 s with Some z => Ok z | None => Err "failed to change string to int32" end
  | ANumber s => match ParseInt 64 s with Some z => Ok (wrap_s 32 z) | None => Err "invalid syntax" end
  | ABytes s =>
      match bytes_of s with
      | [b] => Ok b
      | _ => Err "unsupported []uint8 of length"
      end
  | APtr PtrAny (Some w) => ReformatInt32 w
  | APtr PtrAny None => Panic "nil pointer dereference"
  | _ => Err "failed to change to int32"
  end.

Definition ReformatFloat64 (v : any) : result spec_float :=
  match v with
  | ANumber s | ABytes s | AString s =>
      match parse_float 64 s with Some f => Ok f | None => Err "failed to change to float64" end
  | AFloat32 f | AFloat64 f => Ok f
  | AInt _ z => Ok (sf64 z)
  | ABool b => Ok (if b then sf64 1 else sf64 0)
  | _ => Err "failed to change to float64"
  end.

Definition ReformatFloat32 (v : any) : result spec_float :=
  match v with
  | ANumber s =>
      match parse_float 64 s with Some f => Ok (to_sf32 f) | None => Err "failed to change to float32" end
  | ABytes s | AString s =>
      match parse_float 32 s with Some f => Ok (to_sf32 f) | None => Err "failed to change to float32" end
  | AFloat32 f => Ok f
  | AFloat64 f => Ok (to_sf32 f)
  | AInt _ z => Ok (sf32 z)
  | ABool b => Ok (if b then sf32 1 else sf32 0)
  | _ => Err "failed to change to float32"
  end.

Definition ReformatValue (dataType : DataType) (v : any) : result any :=
  match v with
  | ANil => Ok ANil
  | _ =>
      if String.eqb dataType Null then Err ErrNullValue
      else if String.eqb dataType Bool then ABool <$> ReformatBool v
      else if String.eqb dataType Int64 then AInt KInt64 <$> ReformatInt64 v
      else if String.eqb dataType Int32 then AInt KInt32 <$> ReformatInt32 v
      else if is_timestamp dataType then ATime <$> ReformatDate v true
      else if String.eqb dataType String_ then
        Ok (AString (match v with ABytes s => s | _ => fmt_v v end))
      else if String.eqb dataType Float32 then AFloat32 <$> ReformatFloat32 v
      else if String.eqb dataType Float64 then AFloat64 <$> ReformatFloat64 v
      else if String.eqb dataType Array_ then
        Ok (match v with AArray l => AArray l | _ => AArray [v] end)
      else Ok v
  end.

Definition ParseFilterValue (dataType : DataType) (v : any) : result any :=
  if is_timestamp dataType then ATime <$> ReformatDate v false else ReformatValue dataType v.

(** ** datatype.go *)
Definition detectTimestampPrecision (t : gotime) : DataType :=
  let nanos := t_nsec t in
  if nanos =? 0 then Timestamp
  else if Z.rem nanos 1000000 =? 0 then TimestampMilli
  else if Z.rem nanos 1000 =? 0 then TimestampMicro
  else TimestampNano.

Definition type_of_string (s : string) : DataType :=
  match ReformatDate (AString s) false with Ok t => detectTimestampPrecision t | _ => String_ end.

(** [TypeFromValue], with its reflective fallback [typeFromValueReflect]. *)
Fixpoint TypeFromValue (v : any) : DataType :=
  match v with
  | ANil => Null
  | ABool _ => Bool
  | AInt k _ => match k with KInt64 | KUint64 => Int64 | _ => Int32 end
  | AFloat32 _ => Float32
  | AFloat64 _ => Float64
  | AString s => type_of_string s
  | ABytes _ => String_
  | ATime t => detectTimestampPrecision t
  | AArray _ => Array_
  | AMap _ => Object
  | APtr _ None => Null
  | APtr PtrBool _ => Bool
  | APtr PtrInt _ | APtr PtrInt32 _ => Int32
  | APtr PtrInt64 _ => Int64
  | APtr PtrFloat32 _ => Float32
  | APtr PtrFloat64 _ => Float64
  | APtr PtrString (Some (AString s)) => type_of_string s
  | APtr PtrTime (Some (ATime t)) => detectTimestampPrecision t
  | APtr _ (Some w) => TypeFromValue w
  | ANumber s => match ParseInt 64 s with Some _ => Int64 | None => Float64 end
  | AInt8s _ => Array_
  | ANullTime _ _ => Unknown
  | ADateTime _ => Int64
  | AObjectID _ => Array_
  | ATimeT _ => Unknown
  | AOther RSlice _ | AOther RArray _ => Array_
  | AOther RMap _ => Object
  | AOther _ _ => Unknown
  end.

Definition MaxDate (v1 v2 : gotime) : gotime := if time_after v1 v2 then v1 else v2.

Definition time_eqb (a b : gotime) : bool := bool_decide (a = b).

Definition MaximumOnDataType (typ : DataType) (a b : any) : result any :=
  if String.eqb typ Timestamp then
    adate ← ReformatDate a true;
    bdate ← ReformatDate b true;
    Ok (if time_eqb (MaxDate adate bdate) adate then a else b)
  else if String.eqb typ Int64 then
    aint ← ReformatInt64 a;
    bint ← ReformatInt64 b;
    Ok (if bint <? aint then a else b)
  else Err "comparison not available for data type".

Definition ExtractAndMapColumnType (columnType : string) (typeMapping : gmap string DataType) : DataType :=
  let baseType := ToLower (TrimSpace (default "" (head (Split "(" columnType)))) in
  default "" (typeMapping !! baseType).

(** ** compare.go *)
Definition strings_Compare (a b : string) : Z :=
  match String.compare a b with Lt => -1 | Eq => 0 | Gt => 1 end.

Definition cmp_Z (a b : Z) : Z := if a <? b then -1 else if b <? a then 1 else 0.
Definition cmp_float (a b : spec_float) : Z := if SFltb a b then -1 else if SFltb b a then 1 else 0.

(** [reflect.ValueOf(b).Convert(...)]: numeric kinds convert, everything else panics. *)
Definition convert_int (sg : bool) (b : any) : result Z :=
  match b with
  | AInt _ z => Ok (if sg then wrap_s 64 z else wrap_u 64 z)
  | ADateTime z => Ok (if sg then wrap_s 64 z else wrap_u 64 z)
  | AFloat32 f | AFloat64 f => Ok (f2i sg 64 f)
  | _ => Panic "reflect.Value.Convert"
  end.
Definition convert_float (b : any) : result spec_float :=
  match b with
  | AInt _ z | ADateTime z => Ok (sf64 z)
  | AFloat32 f | AFloat64 f => Ok f
  | _ => Panic "reflect.Value.Convert"
  end.

(** [Compare] of json.Numbers calls itself once on two int64 or two float64 values. *)
Definition Compare (a b : any) : result Z :=
  match a, b with
  | ANil, ANil => Ok 0
  | ANil, _ => Ok (-1)
  | _, ANil => Ok 1
  | AInt k _, _ =>
      x ← convert_int (signed k) a; y ← convert_int (signed k) b; Ok (cmp_Z x y)
  | AFloat32 _, _ | AFloat64 _, _ =>
      x ← convert_float a; y ← convert_float b; Ok (cmp_float x y)
  | ATime x, ATime y => Ok (if time_before x y then -1 else if time_after x y then 1 else 0)
  | ATime _, _ => Panic "interface conversion"
  | ABool x, ABool y => Ok (if negb x && y then -1 else if x && negb y then 1 else 0)
  | ABool _, _ => Panic "interface conversion"
  | ANumber s, _ =>
      match ReformatInt64 a, ReformatInt64 b with
      | Ok x, Ok y => Ok (cmp_Z x y)
      | Panic m, _ => Panic m
      | Ok _, Panic m => Panic m
      | _, _ =>
          match ReformatFloat64 a, ReformatFloat64 b with
          | Ok x, Ok y => Ok (cmp_float x y)
          | _, _ => Ok (strings_Compare s (fmt_v b))
          end
      end
  | ATimeT x, ATimeT y => Ok (Time_Compare x y)
  | _, _ => Ok (strings_Compare (fmt_v a) (fmt_v b))
  end.

(** [ReformatTimeValue], [FormatCursorValue] keep strings and bytes as they are. *)
Definition ReformatTimeValue (fmt_clock : gotime → string) (value : any) : string :=
  match value with
  | ATime t => fmt_clock t
  | ABytes s | AString s => s
  | _ => fmt_v value
  end.

End Values.
