(* ===== verification/ValueFacts.v ===== *)
(** * Theorems about typeutils: comparison order, integer conversions, year bounds *)

From S2P Require Import Prelude GoString GoSet DataTypes Value.

Section Facts.
Context `{GoEnv}.

(** ** Ordering *)
Lemma cmp_Z_range a b : cmp_Z a b = -1 ∨ cmp_Z a b = 0 ∨ cmp_Z a b = 1.
Proof. unfold cmp_Z. case_ifs; auto. Qed.
Lemma cmp_Z_anti a b : cmp_Z b a = - cmp_Z a b.
Proof. unfold cmp_Z. case_ifs; lia. Qed.
Lemma cmp_Z_le a b : cmp_Z a b ≤ 0 ↔ a ≤ b.
Proof. unfold cmp_Z. case_ifs; lia. Qed.
Lemma cmp_Z_0 a b : cmp_Z a b = 0 ↔ a = b.
Proof. unfold cmp_Z. case_ifs; lia. Qed.

Lemma string_compare_anti s t : String.compare t s = CompOpp (String.compare s t).
Proof. apply String.compare_antisym. Qed.

Lemma string_compare_trans s t u : String.compare s t ≠ Gt → String.compare t u ≠ Gt → String.compare s u ≠ Gt.
Proof.
  revert t u. induction s as [|a s IH]; intros t u; simpl; [by destruct u|].
  destruct t as [|b t]; [done|]. simpl. destruct u as [|c u].
  { intros _ Hn. simpl in Hn. done. }
  simpl. unfold Ascii.compare.
  destruct (N.compare_spec (N_of_ascii a) (N_of_ascii b)) as [E1|E1|E1];
  destruct (N.compare_spec (N_of_ascii b) (N_of_ascii c)) as [E2|E2|E2];
  destruct (N.compare_spec (N_of_ascii a) (N_of_ascii c)) as [E3|E3|E3]; try done; try lia; apply IH.
Qed.

Lemma string_compare_eq s t : String.compare s t = Eq → s = t.
Proof. apply String.compare_eq_iff. Qed.

(** The lexicographic instant of a time, as one integer. *)
Definition instant (t : gotime) : Z := t_unix t * 1000000000 + t_nsec t.
Definition time_ok (t : gotime) : Prop := 0 ≤ t_nsec t < 1000000000.

Lemma time_cmp x y : time_ok x → time_ok y →
  (if time_before x y then -1 else if time_after x y then 1 else 0) = cmp_Z (instant x) (instant y).
Proof.
  unfold time_ok, time_after, time_before, cmp_Z, instant. intros Hx Hy.
  repeat match goal with |- context [if ?b then _ else _] => destruct b eqn:?; simpl end; try done; lia.
Qed.

(** Two values of one comparable family: signed integers, unsigned integers, times,
    booleans, strings. *)
Inductive same_family : any → any → Prop :=
| sf_signed k k' x y : signed k = true → signed k' = true → int_range k x → int_range k' y →
    same_family (AInt k x) (AInt k' y)
| sf_unsigned k k' x y : signed k = false → signed k' = false → int_range k x → int_range k' y →
    same_family (AInt k x) (AInt k' y)
| sf_time x y : time_ok x → time_ok y → same_family (ATime x) (ATime y)
| sf_bool x y : same_family (ABool x) (ABool y)
| sf_string s t : same_family (AString s) (AString t).

Lemma int_range_signed64 k z : signed k = true → int_range k z → wrap_s 64 z = z.
Proof.
  unfold int_range. intros ->. intros Hz. apply wrap_s_id; [lia|].
  destruct k; cbn [width] in Hz; lia.
Qed.
Lemma int_range_unsigned64 k z : signed k = false → int_range k z → wrap_u 64 z = z.
Proof.
  unfold int_range. intros ->. intros Hz. apply wrap_u_id.
  destruct k; cbn [width] in Hz; lia.
Qed.

(** On a family, [Compare] is the comparison of integer ranks, or of strings. *)
Definition rank (v : any) : Z :=
  match v with
  | AInt _ z => z
  | ATime t => instant t
  | ABool b => if b then 1 else 0
  | _ => 0
  end.

Lemma Compare_family a b : same_family a b →
  Compare a b = Ok (match a, b with
                    | AString s, AString t => strings_Compare s t
                    | _, _ => cmp_Z (rank a) (rank b)
                    end).
Proof.
  destruct 1 as [k k' x y Hk Hk' Hx Hy|k k' x y Hk Hk' Hx Hy|x y Hx Hy|x y|s t]; cbn -[cmp_Z wrap_s wrap_u].
  - rewrite Hk. cbn -[cmp_Z wrap_s wrap_u]. by rewrite (int_range_signed64 k), (int_range_signed64 k').
  - rewrite Hk. cbn -[cmp_Z wrap_s wrap_u]. by rewrite (int_range_unsigned64 k), (int_range_unsigned64 k').
  - by rewrite time_cmp.
  - by destruct x, y.
  - done.
Qed.

Lemma same_family_sym a b : same_family a b → same_family b a.
Proof. destruct 1; [eapply sf_signed|eapply sf_unsigned|eapply sf_time|eapply sf_bool|eapply sf_string]; done. Qed.

Lemma family_cases a b : same_family a b →
  (∃ s t, a = AString s ∧ b = AString t) ∨ (∀ s, a ≠ AString s) ∧ (∀ s, b ≠ AString s).
Proof. destruct 1; eauto. Qed.

Lemma Compare_rank a b : same_family a b → (∀ s, a ≠ AString s) → Compare a b = Ok (cmp_Z (rank a) (rank b)).
Proof. intros Hab Hn. rewrite Compare_family by done. destruct a; try done. by destruct (Hn s). Qed.

(** [typeutils.Compare] is a total order on each family of comparable values (signed
    integers of any width, unsigned integers of any width, times, booleans, strings): it
    returns -1, 0 or 1 without panicking, swapping the arguments negates it, and it is
    transitive; on integers it decides the numeric order across widths. *)
Theorem compare_total_order a b c :
  same_family a b → same_family b c → same_family a c →
  ∃ x, Compare a b = Ok x ∧ (x = -1 ∨ x = 0 ∨ x = 1)
       ∧ Compare b a = Ok (- x) ∧ Compare a a = Ok 0
       ∧ (∀ k k' n m, a = AInt k n → b = AInt k' m → (x ≤ 0 ↔ n ≤ m) ∧ (x = 0 ↔ n = m))
       ∧ ∀ y z, Compare b c = Ok y → Compare a c = Ok z → x ≤ 0 → y ≤ 0 → z ≤ 0.
Proof.
  intros Hab Hbc Hac.
  assert (Haa : same_family a a) by (destruct Hab; by constructor).
  pose proof (same_family_sym _ _ Hab) as Hba.
  destruct (family_cases a b Hab) as [(s & t & -> & ->)|[Ha Hb]].
  - assert (∃ u, c = AString u) as [u ->] by (inversion Hbc; eauto).
    rewrite !Compare_family by done. eexists. split; [done|]. unfold strings_Compare. split_and!.
    + destruct (String.compare s t); auto.
    + rewrite (string_compare_anti s t). by destruct (String.compare s t).
    + assert (String.compare s s = Eq) as -> by (pose proof (string_compare_anti s s); by destruct (String.compare s s)). done.
    + done.
    + intros y z [= <-] [= <-] Hx Hy. pose proof (string_compare_trans s t u) as Htr.
      destruct (String.compare s t), (String.compare t u), (String.compare s u); try done; exfalso; by apply Htr.
  - assert (Hc : ∀ s, c ≠ AString s) by (intros s ->; inversion Hbc; simplify_eq; naive_solver).
    rewrite !Compare_rank by done. eexists. split; [done|]. split_and!.
    + apply cmp_Z_range.
    + by rewrite cmp_Z_anti.
    + f_equal. by apply cmp_Z_0.
    + intros k k' n m -> ->. by rewrite cmp_Z_le, cmp_Z_0.
    + intros y z [= <-] [= <-]. rewrite !cmp_Z_le. apply Z.le_trans.
Qed.

(** ** Integer conversions *)
Definition int_value (v : any) : option Z :=
  match v with
  | AInt _ z => Some z
  | ABool b => Some (if b then 1 else 0)
  | AString s | ANumber s => ParseInt 64 s
  | _ => None
  end.

Lemma ParseInt_Some bits s z :
  ParseInt bits s = Some z ↔ signed_digits s = Some z ∧ - 2 ^ (bits - 1) ≤ z < 2 ^ (bits - 1).
Proof.
  unfold ParseInt, in_range. destruct (signed_digits s) as [n|]; [|naive_solver].
  destruct (_ && _) eqn:E; bool_hyps.
  - split; [intros [= <-]; split; [done|lia]|naive_solver].
  - apply andb_false_iff in E. split; [done|]. intros [[= <-] Hr]. lia.
Qed.

(** The integer casts keep every value that fits the target and never leave its
    range.  For integers, booleans, decimal strings and json.Numbers, [ReformatInt64]
    and [ReformatInt32] return the value itself when it fits; a decimal string that does
    not fit 32 bits is an error, but an integer or a json.Number that does not fit is
    silently reduced modulo 2^32. *)
Theorem integer_casts_keep_values v z :
  int_value v = Some z →
  (- 2 ^ 63 ≤ z < 2 ^ 63 → ReformatInt64 v = Ok z)
  ∧ (- 2 ^ 31 ≤ z < 2 ^ 31 → ReformatInt32 v = Ok z)
  ∧ (¬ (- 2 ^ 31 ≤ z < 2 ^ 31) →
       match v with
       | AString _ => ∃ e, ReformatInt32 v = Err e
       | _ => ReformatInt32 v = Ok (wrap_s 32 z) ∧ wrap_s 32 z ≠ z
       end).
Proof.
  destruct v; simpl; intros Hv; simplify_eq.
  - destruct b; (split_and!; [done|done|lia]).
  - split_and!.
    + intros. f_equal. apply wrap_s_id; lia.
    + intros. f_equal. apply wrap_s_id; lia.
    + intros Hn. split; [done|]. intros Heq. pose proof (wrap_s_range 32 z). lia.
  - rewrite Hv. split_and!; [done| |].
    + intros. assert (ParseInt 32 s = Some z) as -> by (apply ParseInt_Some; apply ParseInt_Some in Hv; naive_solver).
      done.
    + intros Hn. destruct (ParseInt 32 s) as [z'|] eqn:E; [|eauto].
      apply ParseInt_Some in E as [E Hr]. apply ParseInt_Some in Hv as [Hv _]. simplify_eq. by destruct Hn.
  - rewrite Hv. split_and!; [done| |].
    + intros. f_equal. apply wrap_s_id; lia.
    + intros Hn. split; [done|]. intros Heq. pose proof (wrap_s_range 32 z). lia.
Qed.

(** ** Calendar facts *)
Lemma doy_bound doe : 0 ≤ doe < 146097 →
  let yoe := (doe - doe / 1460 + doe / 36524 - doe / 146096) / 365 in
  0 ≤ doe - (365 * yoe + yoe / 4 - yoe / 100) ≤ 365.
Proof. intros H0 yoe. subst yoe. Z.to_euclidean_division_equations. lia. Qed.

Lemma month_day_bound doy : 0 ≤ doy ≤ 365 →
  let mp := (5 * doy + 2) / 153 in
  1 ≤ (if mp <? 10 then mp + 3 else mp - 9) ≤ 12 ∧ 1 ≤ doy - (153 * mp + 2) / 5 + 1 ≤ 31.
Proof.
  intros H0 mp. subst mp. destruct (Z.ltb_spec ((5 * doy + 2) / 153) 10);
    Z.to_euclidean_division_equations; lia.
Qed.

(** Month and day of every date lie in 1..12 and 1..31. *)
Lemma civil_shape z : let '(_, m, d) := civil_from_days z in 1 ≤ m ≤ 12 ∧ 1 ≤ d ≤ 31.
Proof.
  unfold civil_from_days. cbv zeta. apply month_day_bound, doy_bound.
  pose proof (Z_div_mod_eq_full (z + 719468) 146097). pose proof (Z.mod_pos_bound (z + 719468) 146097). lia.
Qed.

Definition year_9999_ok (m d : Z) : bool := (civil_from_days (days_from_civil 9999 m d)).1.1 =? 9999.

Lemma year_9999_all : forallb (λ m, forallb (year_9999_ok m) (seqZ 1 31)) (seqZ 1 12) = true.
Proof. vm_compute. reflexivity. Qed.

Lemma year_9999_ok_spec m d : year_9999_ok m d = true → (civil_from_days (days_from_civil 9999 m d)).1.1 = 9999.
Proof. unfold year_9999_ok. generalize (civil_from_days (days_from_civil 9999 m d)). intros p. apply Z.eqb_eq. Qed.

Lemma year_9999 m d : 1 ≤ m ≤ 12 → 1 ≤ d ≤ 31 → (civil_from_days (days_from_civil 9999 m d)).1.1 = 9999.
Proof.
  intros Hm Hd. apply year_9999_ok_spec. revert d Hd. 
  assert (Hall : forallb (year_9999_ok m) (seqZ 1 31) = true).
  { apply (proj1 (forallb_forall _ _) year_9999_all m), list_elem_of_In, elem_of_seqZ. lia. }
  intros d Hd. revert Hall. generalize (year_9999_ok m). intros f Hall.
  apply (proj1 (forallb_forall _ _) Hall d), list_elem_of_In, elem_of_seqZ. lia.
Qed.

Lemma local_day_AddYears t k :
  local_secs (AddYears t k) / 86400
  = let '(y, m, d) := civil_from_days (local_secs t / 86400) in days_from_civil (y + k) m d.
Proof.
  unfold AddYears. destruct (civil_from_days (local_secs t / 86400)) as [[y m] d].
  unfold local_secs at 1. cbn [t_unix t_zone].
  replace (days_from_civil (y + k) m d * 86400 + local_secs t mod 86400 - t_zone t + t_zone t)
    with (local_secs t mod 86400 + days_from_civil (y + k) m d * 86400) by lia.
  rewrite (Z.div_add _ _ 86400) by lia.
  by rewrite (Z.div_small (local_secs t mod 86400)) by (apply Z.mod_pos_bound; lia).
Qed.

Lemma Year_AddYears t : Year (AddYears t (9999 - Year t)) = 9999.
Proof.
  unfold Year at 1. rewrite local_day_AddYears. unfold Year.
  pose proof (civil_shape (local_secs t / 86400)) as Hs.
  generalize dependent (civil_from_days (local_secs t / 86400)). intros [[y m] d] Hs. cbn [fst].
  replace (y + (9999 - y)) with 9999 by lia. destruct Hs as [Hm Hd]. exact (year_9999 m d Hm Hd).
Qed.

Lemma ok_inj {A} (a b : A) : Ok a = Ok b → a = b.
Proof. by intros [= ->]. Qed.

#[local] Opaque clamp_year parseStringTimestamp.
Lemma ReformatDate_clamped v b t : ReformatDate v b = Ok t → ∃ p, t = clamp_year p.
Proof.
  assert (Hr : ∀ r : result gotime,
    match r with Ok p => Ok (clamp_year p) | Err e => Err e | Panic m => Panic m end = Ok t → ∃ p, t = clamp_year p).
  { intros [p| |] [= <-]. by exists p. }
  destruct v; simpl; intros Hok;
    lazymatch type of Hok with
    | Err _ = _ => discriminate Hok
    | Ok (clamp_year ?p) = _ => exists p; exact (eq_sym (ok_inj _ _ Hok))
    | _ => exact (Hr _ Hok)
    end.
Qed.
#[local] Transparent clamp_year parseStringTimestamp.

(** Every time [ReformatDate] accepts lands in a year the destinations support: 1 to
    9999, whatever the input value and its type (years below 1 become the epoch, years
    above 9999 are moved to 9999). *)
Theorem reformat_date_year_bounds v isTimestampInDB t :
  ReformatDate v isTimestampInDB = Ok t → 1 ≤ Year t ≤ 9999.
Proof.
  intros [p ->]%ReformatDate_clamped. unfold clamp_year.
  case_ifs; bool_hyps; [vm_compute; split; discriminate| |lia].
  replace (- (Year p - 9999)) with (9999 - Year p) by lia. rewrite Year_AddYears. lia.
Qed.

End Facts.

(** ** Witnesses, in an environment whose external parsers reject everything *)
#[local] Instance bare_env : GoEnv := {|
  parse_float := λ _ _, None; fmt_float := λ _ _, "0"; fmt_time := λ _, ""; fmt_pointer := λ _, "";
  time_parse := λ _ _, None; local_offset := λ _, 0; f2i_undefined := λ _ _ _, 0; LoadedStateVersion := 5 |}.

Lemma compare_total_order_witness :
  ∃ x, Compare (AInt KInt64 3) (AInt KInt32 5) = Ok x ∧ x ≤ 0.
Proof.
  destruct (compare_total_order (AInt KInt64 3) (AInt KInt32 5) (AInt KInt8 7)) as (x & Hx & _ & _ & _ & Hi & _).
  - apply sf_signed; by_decide.
  - apply sf_signed; by_decide.
  - apply sf_signed; by_decide.
  - exists x. split; [exact Hx|]. apply (Hi KInt64 KInt32 3 5); done.
Defined.

Lemma integer_casts_keep_values_witness :
  ReformatInt32 (AString "-17") = Ok (-17) ∧ ReformatInt32 (AInt KUint32 4294967295) = Ok (-1).
Proof.
  split.
  - apply (integer_casts_keep_values (AString "-17") (-17)); [reflexivity|lia].
  - destruct (integer_casts_keep_values (AInt KUint32 4294967295) 4294967295) as (_ & _ & Hw); [reflexivity|].
    destruct Hw as [Hw _]; [lia|]. exact Hw.
Defined.

Lemma reformat_date_year_bounds_witness :
  1 ≤ Year (clamp_year (mkTime 400000000000 0 0)) ≤ 9999.
Proof. apply (reformat_date_year_bounds (ATime (mkTime 400000000000 0 0)) true). reflexivity. Defined.
