(* ===== verification/Schema.v ===== *)
(** * types/type_schema.go: the discovered schema of a stream

    A schema is a concurrent map from column name to [Property]; the type of a
    column is resolved on demand from the set of types seen for it.  Iterating the
    map visits the entries in an unspecified order, an argument of the model
    ([GoRange]); what does not depend on it is stated for every order. *)

From S2P Require Import Prelude GoString GoSet DataTypes.

(** The order in which [sync.Map.Range] and [for k, v := range m] visit a map. *)
Class GoRange := {
  range : ∀ {A : Type}, gmap string A → list (string * A);
  range_perm : ∀ {A : Type} (m : gmap string A), range m ≡ₚ map_to_list m
}.

Lemma elem_of_range `{GoRange} {A} (m : gmap string A) k v : (k, v) ∈ range m ↔ m !! k = Some v.
Proof. rewrite (range_perm m). apply elem_of_map_to_list. Qed.

Lemma range_NoDup_keys `{GoRange} {A} (m : gmap string A) : NoDup (range m).*1.
Proof. rewrite (range_perm m). apply NoDup_fst_map_to_list. Qed.

(** One admissible order, for evaluation. *)
Definition sorted_range : GoRange := {| range A m := map_to_list m; range_perm A m := Permutation_refl _ |}.

Record Property := mkProperty {
  Type_ : GoSet DataType;
  DestinationColumnName : string;
  OlakeColumn : bool
}.
Abbreviation TypeSchema := (gmap string Property) (only parsing).

(** What [ToParquet] and [ToIceberg] ask of [StreamInterface]. *)
Record StreamNaming := { IsSelected : string → bool; ResolveName : string → string }.

Section Schema.
Context `{GoHash string} `{GoRange}.
Implicit Types (t : TypeSchema) (p : Property) (column : string).

Definition Nullable p : bool := (ArrayContains (Array (Type_ p)) (λ elem, String.eqb elem Null)).2.
Definition Property_DataType p : DataType := resolve_types (Array (Type_ p)).

Definition NewTypeSchema : TypeSchema := ∅.

Definition ColumnNames t : list string := (range t).*1.

(** One iteration of [Override]: the incoming property is mutated in place when the
    column it replaces was nullable, so the caller's map changes as well. *)
Definition override_one (s : TypeSchema * gmap string Property) (kv : string * Property)
    : TypeSchema * gmap string Property :=
  let '(t, fields) := s in
  let '(key, value) := kv in
  let value' := match t !! key with
                | Some stored => if Nullable stored
                                 then mkProperty (Insert (Type_ value) [Null]) (DestinationColumnName value) (OlakeColumn value)
                                 else value
                | None => value
                end in
  (<[key := value']> (delete key t), <[key := value']> fields).

Definition Override t (fields : gmap string Property) : TypeSchema * gmap string Property :=
  foldl override_one (t, fields) (range fields).

(** [found] is overwritten at every visited entry. *)
Definition HasDestinationColumnName t : bool :=
  foldl (λ _ kv, negb (String.eqb (DestinationColumnName kv.2) "")) false (range t).

Definition GetType t column : result DataType :=
  let column := Ternary (HasDestinationColumnName t) column (Reformat column) in
  match t !! column with
  | None => Err "column missing from type schema"
  | Some p => Ok (Property_DataType p)
  end.

Definition AddTypes t column (isOlakeColumn : bool) (types : list DataType) : TypeSchema :=
  match t !! column with
  | None => <[column := mkProperty (NewSet types) (Reformat column) isOlakeColumn]> t
  | Some p => <[column := mkProperty (Insert (Type_ p) types) (DestinationColumnName p) (OlakeColumn p)]> t
  end.

Definition GetProperty t column : bool * option Property :=
  match t !! column with None => (false, None) | Some p => (true, Some p) end.

Definition default_group : gmap string parquet_node :=
  list_to_map [(OlakeID, PString); (OlakeTimestamp, PTimestampMicros); (OpType, PString);
               (CdcTimestamp, POptional PTimestampMicros)].

Definition ToParquet t (defaultColumns : bool) (stream : StreamNaming) : gmap string parquet_node :=
  let group := foldl (λ g kv,
      let '(colName, prop) := kv in
      let outName := ResolveName stream colName in
      if negb (IsSelected stream outName) || defaultColumns && negb (OlakeColumn prop) then g
      else <[outName := ToNewParquet (Property_DataType prop)]> g) default_group (range t) in
  if defaultColumns then <[StringifiedData := PJSON]> group else group.

(** One emitted column, as its key and Iceberg type. *)
Definition iceberg_field (defaultColumns : bool) (stream : StreamNaming) (includeSet : GoSet string)
    (kv : string * Property) : option (string * string) :=
  let '(colName, prop) := kv in
  let outName := ResolveName stream colName in
  if negb (OlakeColumn prop) && (negb (IsSelected stream outName) || defaultColumns && negb (Exists includeSet colName))
  then None
  else Some (outName, ToIceberg (Property_DataType prop)).

Definition SchemaToIceberg t (defaultColumns : bool) (stream : StreamNaming) (includeColumns : list string)
    : list (string * string) :=
  let fields := omap (iceberg_field defaultColumns stream (NewSet includeColumns)) (range t) in
  if defaultColumns then fields ++ [(StringifiedData, "string")] else fields.

(** JSON round trip of the map, on decoded values: [MarshalJSON] copies the entries into
    a plain map and [UnmarshalJSON] stores every entry of one. *)
Definition schema_marshal t : gmap string Property := list_to_map (range t).
Definition schema_unmarshal t (properties : gmap string Property) : TypeSchema :=
  foldl (λ t kv, <[kv.1 := kv.2]> t) t (range properties).

(** ** Schema discovery *)
Definition add_all t (adds : list (string * bool * list DataType)) : TypeSchema :=
  foldl (λ t a, AddTypes t a.1.1 a.1.2 a.2) t adds.

(** The types added for [column], in order. *)
Definition added (adds : list (string * bool * list DataType)) column : list DataType :=
  concat (snd <$> filter (λ a, a.1.1 = column) adds).

Definition schema_good (U : DataType → Prop) t : Prop := ∀ c p, t !! c = Some p → good U (Type_ p).

Lemma Insert_good (U : DataType → Prop) st l :
  collision_free U None → good U st → (∀ x, x ∈ l → U x) → good U (Insert st l).
Proof.
  intros Hcf [Hw Hf Hi] Hl. split; [by apply Insert_wf|by rewrite Insert_funcHash|].
  intros x. rewrite (member_Insert U) by (rewrite ?Hf; done). naive_solver.
Qed.

Lemma AddTypes_good U t column b types :
  collision_free U None → (∀ x, x ∈ types → U x) → schema_good U t → schema_good U (AddTypes t column b types).
Proof.
  intros Hcf Hl Ht c p. unfold AddTypes. destruct (t !! column) as [q|] eqn:E.
  - intros [[<- <-]|[? ?]]%lookup_insert_Some; [|by eapply Ht]. apply Insert_good; eauto.
  - intros [[<- <-]|[? ?]]%lookup_insert_Some; [|by eapply Ht]. by apply NewSet_good.
Qed.

Lemma AddTypes_other t column b types c : c ≠ column → AddTypes t column b types !! c = t !! c.
Proof. intros Hne. unfold AddTypes. destruct (t !! column); by rewrite lookup_insert_ne. Qed.

(** What a sequence of additions leaves for a column. *)
Lemma add_all_lookup U t adds c :
  collision_free U None → (∀ a x, a ∈ adds → x ∈ a.2 → U x) → schema_good U t →
  match add_all t adds !! c with
  | None => t !! c = None ∧ filter (λ a, a.1.1 = c) adds = []
  | Some p =>
      good U (Type_ p)
      ∧ (∀ d, member d (Type_ p) ↔ (∃ q, t !! c = Some q ∧ member d (Type_ q)) ∨ d ∈ added adds c)
      ∧ (∀ q, t !! c = Some q → DestinationColumnName p = DestinationColumnName q ∧ OlakeColumn p = OlakeColumn q)
      ∧ (t !! c = None → DestinationColumnName p = Reformat c
          ∧ Some (OlakeColumn p) = (λ a, a.1.2) <$> head (filter (λ a, a.1.1 = c) adds))
  end.
Proof.
  intros Hcf. revert t. induction adds as [|a adds IH]; intros t Hl Ht; cbn [add_all foldl].
  { unfold added. rewrite filter_nil. cbn [fmap list_fmap concat head].
    destruct (t !! c) as [p|] eqn:E; [|done]. split_and!; [by eapply Ht| |naive_solver|done].
    intros d. rewrite elem_of_nil. naive_solver. }
  assert (Ha : ∀ x, x ∈ a.2 → U x) by (intros x Hx; eapply Hl; eauto; left).
  assert (Hl' : ∀ b x, b ∈ adds → x ∈ b.2 → U x) by (intros b x Hb Hx; eapply Hl; eauto; by right).
  specialize (IH (AddTypes t a.1.1 a.1.2 a.2) Hl' (AddTypes_good _ _ _ _ _ Hcf Ha Ht)).
  fold (add_all (AddTypes t a.1.1 a.1.2 a.2) adds) in *.
  unfold added. rewrite filter_cons. destruct (decide (a.1.1 = c)) as [Hc|Hc].
  2:{ rewrite AddTypes_other in IH by done. exact IH. }
  unfold AddTypes in IH. cbn [fmap list_fmap concat head].
  destruct (add_all _ adds !! c) as [p|] eqn:Ep; cbn [snd];
    [|destruct IH as [IH _]; rewrite Hc in IH; destruct (t !! c); by rewrite lookup_insert in IH; case_decide].
  destruct IH as (Hg & Hm & Hq & _). rewrite Hc in Hm, Hq. split_and!; [done|..].
  - intros d. rewrite Hm, elem_of_app. fold (added adds c). destruct (t !! c) as [q|] eqn:E; simplify_map_eq.
    + destruct (Ht _ _ E) as [Hw Hf Hi]. split.
      * intros [(q' & [= <-] & Hd)|?]; [|tauto]. simpl in Hd. rewrite (member_Insert U) in Hd by (rewrite ?Hf; done). naive_solver.
      * intros [(q' & [= <-] & Hd)|[?|?]]; [left|left|by right]; eexists; (split; [done|]); simpl;
          rewrite (member_Insert U) by (rewrite ?Hf; done); tauto.
    + split.
      * intros [(q' & [= <-] & Hd)|?]; [|tauto]. simpl in Hd. rewrite (member_NewSet U) in Hd by done. tauto.
      * intros [(q' & ? & _)|[?|?]]; [done|left|by right]. eexists. split; [done|]. simpl. by rewrite (member_NewSet U).
  - intros q Eq. rewrite Eq in Hq. simplify_map_eq. by destruct (Hq _ eq_refl).
  - intros Eq. rewrite Eq in Hq. simplify_map_eq. destruct (Hq _ eq_refl) as [-> ->]. done.
Qed.

Lemma Nullable_member p : Nullable p = true ↔ member Null (Type_ p).
Proof.
  unfold Nullable. rewrite <- member_Array. pose proof (ArrayContains_spec (Array (Type_ p)) (λ e, String.eqb e Null)) as Ha.
  destruct (lookup_first _ _) as [x|].
  - destruct Ha as (i & -> & Hi & Hx & _). apply String.eqb_eq in Hx as ->. split; [|done].
    intros _. by eapply list_elem_of_lookup_2.
  - destruct Ha as [-> Hn]. split; [done|]. intros Hin%Hn. by rewrite String.eqb_refl in Hin.
Qed.

(** The resolved type depends only on the members of the set. *)
Lemma DataType_members U p l :
  good U (Type_ p) → NoDup l → (∀ d, member d (Type_ p) ↔ d ∈ l) → Property_DataType p = resolve_types l.
Proof.
  intros [Hw _ _] Hl Hm. unfold Property_DataType.
  assert (NoDup (Array (Type_ p))) as Hn by (by apply NoDup_Array).
  rewrite !resolve_types_join by done. apply join_all_perm.
  assert (Array (Type_ p) ≡ₚ l) as ->; [|done].
  apply NoDup_Permutation; [done..|]. intros d. by rewrite member_Array.
Qed.

Lemma elem_of_added adds c d : d ∈ added adds c ↔ ∃ b ts, (c, b, ts) ∈ adds ∧ d ∈ ts.
Proof.
  unfold added. rewrite list_elem_of_In, in_concat. setoid_rewrite <- list_elem_of_In. split.
  - intros (ts & ([[c' b] ts'] & -> & [Hc Hin]%list_elem_of_filter)%list_elem_of_fmap & Hd). simpl in Hc. subst c'. eauto.
  - intros (b & ts & Hin & Hd). exists ts. split; [|done]. apply list_elem_of_fmap. exists (c, b, ts).
    split; [done|]. by apply list_elem_of_filter.
Qed.

(** From the empty schema, a column's set holds exactly the types added for it. *)
Lemma add_all_empty U adds c :
  collision_free U None → (∀ a x, a ∈ adds → x ∈ a.2 → U x) →
  match add_all NewTypeSchema adds !! c with
  | None => ∀ b ts, (c, b, ts) ∉ adds
  | Some p => (∃ b ts, (c, b, ts) ∈ adds) ∧ good U (Type_ p) ∧ (∀ d, member d (Type_ p) ↔ d ∈ added adds c)
              ∧ DestinationColumnName p = Reformat c
  end.
Proof.
  intros Hcf HU. assert (Hempty : schema_good U NewTypeSchema) by (intros ? ?; unfold NewTypeSchema; by rewrite lookup_empty).
  pose proof (add_all_lookup U NewTypeSchema adds c Hcf HU Hempty) as Hspec.
  assert (Hn : NewTypeSchema !! c = None) by apply lookup_empty.
  destruct (add_all NewTypeSchema adds !! c) as [p|].
  - destruct Hspec as (Hg & Hm & _ & Hnone). destruct (Hnone Hn) as [Hname Hfirst]. split_and!; [|done| |done].
    + destruct (filter (λ a, a.1.1 = c) adds) as [|[[c' b] ts] l] eqn:Ef; [done|].
      assert ((c', b, ts) ∈ filter (λ a, a.1.1 = c) adds) as [Hc Hin]%list_elem_of_filter by (rewrite Ef; left).
      simpl in Hc. subst c'. eauto.
    + intros d. rewrite Hm. split; [|by right]. intros [(q & Hq & _)|?]; [congruence|done].
  - destruct Hspec as [_ Hf]. intros b ts Hin.
    assert ((c, b, ts) ∈ filter (λ a, a.1.1 = c) adds) as Hx by (by apply list_elem_of_filter).
    rewrite Hf in Hx. by apply elem_of_nil in Hx.
Qed.

(** Schema discovery does not depend on the order in which records are sampled.
    After any sequence of [AddTypes] calls on an empty schema, a column is present
    exactly when some call named it; its type is the common ancestor of all the types
    added for it, its nullability says whether Null was among them, its destination
    name is the reformatted column name; and any reordering of the calls gives the same
    columns with the same types and nullability. *)
Theorem discovery_order_independent (adds adds' : list (string * bool * list DataType)) c :
  collision_free (λ d, ∃ a, a ∈ adds ∧ d ∈ a.2) None → adds ≡ₚ adds' →
  let t := add_all NewTypeSchema adds in
  let t' := add_all NewTypeSchema adds' in
  (is_Some (t !! c) ↔ ∃ b ts, (c, b, ts) ∈ adds)
  ∧ (∀ p, t !! c = Some p →
       Property_DataType p = resolve_types (remove_dups (added adds c))
       ∧ (Nullable p = true ↔ Null ∈ added adds c)
       ∧ DestinationColumnName p = Reformat c
       ∧ ∃ p', t' !! c = Some p' ∧ Property_DataType p' = Property_DataType p ∧ Nullable p' = Nullable p).
Proof.
  intros Hcf Hp t t'. set (U := λ d, ∃ a, a ∈ adds ∧ d ∈ a.2) in *.
  pose proof (add_all_empty U adds c Hcf ltac:(unfold U; eauto)) as Hspec.
  pose proof (add_all_empty U adds' c Hcf ltac:(intros a x Ha ?; exists a; by rewrite Hp)) as Hspec'.
  fold t in Hspec. fold t' in Hspec'.
  assert (Hadded : ∀ d, d ∈ added adds' c ↔ d ∈ added adds c) by (intros d; rewrite !elem_of_added; by setoid_rewrite Hp).
  destruct (t !! c) as [p|].
  2:{ split; [|done]. split; [by intros [? ?]|]. intros (b & ts & Hin). by apply Hspec in Hin. }
  destruct Hspec as (Hex & Hg & Hm & Hname). split; [by split|]. intros p' [= <-].
  assert (Hdt : ∀ q, good U (Type_ q) → (∀ d, member d (Type_ q) ↔ d ∈ added adds c) →
            Property_DataType q = resolve_types (remove_dups (added adds c))).
  { intros q Hq Hmq. eapply DataType_members; [done|apply NoDup_remove_dups|]. intros d. by rewrite elem_of_remove_dups, Hmq. }
  split_and!; [by apply Hdt|by rewrite Nullable_member, Hm|done|].
  destruct (t' !! c) as [q|].
  - destruct Hspec' as (_ & Hg' & Hm' & _). exists q. split_and!; [done| |].
    + rewrite !Hdt; [done..|]. intros d. by rewrite Hm', Hadded.
    + apply eq_bool_prop_intro. by rewrite !Is_true_true, !Nullable_member, Hm, Hm', Hadded.
  - destruct Hex as (b & ts & Hin). rewrite Hp in Hin. by apply Hspec' in Hin.
Qed.

End Schema.

Lemma discovery_order_independent_witness :
  let h := encode_hash "" in
  let adds := [("Age", false, [Int32]); ("n", false, [String_]); ("Age", false, [Float64; Null])] in
  ∃ p, add_all NewTypeSchema adds !! "Age" = Some p ∧ Property_DataType p = Float64 ∧ DestinationColumnName p = "age".
Proof.
  intros h adds.
  destruct (discovery_order_independent adds adds "Age" (encode_hash_cf "" _) (Permutation_refl _)) as [[_ Hs] Hp].
  destruct Hs as [p Hs']; [exists false, [Int32]; by_decide|].
  exists p. split; [exact Hs'|]. destruct (Hp p Hs') as (Hd & _ & Hn & _). split; [|exact Hn].
  rewrite Hd. vm_compute. reflexivity.
Defined.

(** Visiting the entries in the opposite order is as admissible; the flag that
    [GetType] consults may then differ. *)
Definition reversed_range : GoRange.
Proof. refine {| range A m := reverse (map_to_list m) |}. intros A m. apply reverse_Permutation. Defined.

Definition mixed_schema : TypeSchema :=
  list_to_map [("a", mkProperty (mkGoSet ∅ ∅ None) "a" false); ("b", mkProperty (mkGoSet ∅ ∅ None) "" false)].

Lemma destination_flag_depends_on_order :
  @HasDestinationColumnName sorted_range mixed_schema ≠ @HasDestinationColumnName reversed_range mixed_schema.
Proof. vm_compute. discriminate. Qed.
