(* ===== verification/Stream.v ===== *)
(** * types/stream.go and types/stream_configured.go

    The source stream as discovered, the user's configuration of it, and what the
    rest of the engine derives from the two: which columns are emitted and under
    which name, the cursor, the filter, the delete format. *)

From S2P Require Import Prelude GoString GoSet DataTypes QueryEngine Value Schema.

Abbreviation SyncMode := string (only parsing).
Definition FULLREFRESH : SyncMode := "full_refresh".
Definition INCREMENTAL : SyncMode := "incremental".
Definition CDC : SyncMode := "cdc".
Definition STRICTCDC : SyncMode := "strict_cdc".

Record DefaultProperties := mkDefaultProperties {
  dp_Normalization : bool;
  dp_AppendMode : bool;
  dp_UpdateType : UpdateType
}.

Record Stream := mkStream {
  s_Name : string;
  s_Namespace : string;
  s_Schema : gmap string Property;
  s_SupportedSyncModes : GoSet SyncMode;
  s_AvailableUpdateTypes : list UpdateType;
  s_SourceDefinedPrimaryKey : GoSet string;
  s_AvailableCursorFields : GoSet string;
  s_AdditionalProperties : string;
  s_CursorField : string;
  s_SyncMode : SyncMode;
  s_DestinationDatabase : string;
  s_DestinationTable : string;
  s_DefaultStreamProperties : option DefaultProperties
}.

Record FilterCondition := mkCondition { Column : string; Operator : string; CondValue : any }.
(** [Conditions] is a slice that may be nil. *)
Record FilterConfig := mkFilter { LogicalOperator : string; Conditions : option (list FilterCondition) }.

Record SelectedColumns := mkSelected { Columns : list string; SyncNewColumns : bool }.

Record StreamMetadata := mkMetadata {
  ChunkColumn : string;
  PartitionRegex : string;
  StreamName : string;
  AppendMode : bool;
  Normalization : bool;
  m_UpdateType : string;
  UseSourceColumnNames : bool;
  m_Filter : string;
  m_FilterConfig : option FilterConfig;
  m_SelectedColumns : option SelectedColumns;
  DedupKeys : option (list string)
}.

Record ConfiguredStream := mkConfigured { Metadata : StreamMetadata; StreamOf : Stream }.

(** Field assignments of the sources. *)
Definition set_SupportedSyncModes (v : GoSet SyncMode) (s : Stream) : Stream :=
  mkStream (s_Name s) (s_Namespace s) (s_Schema s) v (s_AvailableUpdateTypes s) (s_SourceDefinedPrimaryKey s)
    (s_AvailableCursorFields s) (s_AdditionalProperties s) (s_CursorField s) (s_SyncMode s)
    (s_DestinationDatabase s) (s_DestinationTable s) (s_DefaultStreamProperties s).
Definition set_PrimaryKey (v : GoSet string) (s : Stream) : Stream :=
  mkStream (s_Name s) (s_Namespace s) (s_Schema s) (s_SupportedSyncModes s) (s_AvailableUpdateTypes s) v
    (s_AvailableCursorFields s) (s_AdditionalProperties s) (s_CursorField s) (s_SyncMode s)
    (s_DestinationDatabase s) (s_DestinationTable s) (s_DefaultStreamProperties s).
Definition set_CursorFields (v : GoSet string) (s : Stream) : Stream :=
  mkStream (s_Name s) (s_Namespace s) (s_Schema s) (s_SupportedSyncModes s) (s_AvailableUpdateTypes s)
    (s_SourceDefinedPrimaryKey s) v (s_AdditionalProperties s) (s_CursorField s) (s_SyncMode s)
    (s_DestinationDatabase s) (s_DestinationTable s) (s_DefaultStreamProperties s).
Definition set_Schema (v : gmap string Property) (s : Stream) : Stream :=
  mkStream (s_Name s) (s_Namespace s) v (s_SupportedSyncModes s) (s_AvailableUpdateTypes s)
    (s_SourceDefinedPrimaryKey s) (s_AvailableCursorFields s) (s_AdditionalProperties s) (s_CursorField s)
    (s_SyncMode s) (s_DestinationDatabase s) (s_DestinationTable s) (s_DefaultStreamProperties s).
Definition set_SyncMode (v : SyncMode) (s : Stream) : Stream :=
  mkStream (s_Name s) (s_Namespace s) (s_Schema s) (s_SupportedSyncModes s) (s_AvailableUpdateTypes s)
    (s_SourceDefinedPrimaryKey s) (s_AvailableCursorFields s) (s_AdditionalProperties s) (s_CursorField s) v
    (s_DestinationDatabase s) (s_DestinationTable s) (s_DefaultStreamProperties s).
Definition set_CursorField (v : string) (s : Stream) : Stream :=
  mkStream (s_Name s) (s_Namespace s) (s_Schema s) (s_SupportedSyncModes s) (s_AvailableUpdateTypes s)
    (s_SourceDefinedPrimaryKey s) (s_AvailableCursorFields s) (s_AdditionalProperties s) v (s_SyncMode s)
    (s_DestinationDatabase s) (s_DestinationTable s) (s_DefaultStreamProperties s).
Definition set_Destination (db table : string) (s : Stream) : Stream :=
  mkStream (s_Name s) (s_Namespace s) (s_Schema s) (s_SupportedSyncModes s) (s_AvailableUpdateTypes s)
    (s_SourceDefinedPrimaryKey s) (s_AvailableCursorFields s) (s_AdditionalProperties s) (s_CursorField s)
    (s_SyncMode s) db table (s_DefaultStreamProperties s).
Definition set_Defaults (v : option DefaultProperties) (s : Stream) : Stream :=
  mkStream (s_Name s) (s_Namespace s) (s_Schema s) (s_SupportedSyncModes s) (s_AvailableUpdateTypes s)
    (s_SourceDefinedPrimaryKey s) (s_AvailableCursorFields s) (s_AdditionalProperties s) (s_CursorField s)
    (s_SyncMode s) (s_DestinationDatabase s) (s_DestinationTable s) v.
Definition set_AvailableUpdateTypes (v : list UpdateType) (s : Stream) : Stream :=
  mkStream (s_Name s) (s_Namespace s) (s_Schema s) (s_SupportedSyncModes s) v
    (s_SourceDefinedPrimaryKey s) (s_AvailableCursorFields s) (s_AdditionalProperties s) (s_CursorField s)
    (s_SyncMode s) (s_DestinationDatabase s) (s_DestinationTable s) (s_DefaultStreamProperties s).
Definition set_m_UpdateType (v : string) (m : StreamMetadata) : StreamMetadata :=
  mkMetadata (ChunkColumn m) (PartitionRegex m) (StreamName m) (AppendMode m) (Normalization m) v
    (UseSourceColumnNames m) (m_Filter m) (m_FilterConfig m) (m_SelectedColumns m) (DedupKeys m).
Definition set_m_SelectedColumns (v : option SelectedColumns) (m : StreamMetadata) : StreamMetadata :=
  mkMetadata (ChunkColumn m) (PartitionRegex m) (StreamName m) (AppendMode m) (Normalization m) (m_UpdateType m)
    (UseSourceColumnNames m) (m_Filter m) (m_FilterConfig m) v (DedupKeys m).

(** ** The legacy filter expression

    The regular expression is anchored at both ends, so a match is a parse of the
    whole text.  Matching follows the leftmost-first rule: [P A] lists the ways to
    match a prefix, most preferred first, each with what is left.  Every character
    the pattern stops at is ASCII, so bytes and characters give the same parses. *)
Definition P (A : Type) : Type := string → list (A * string).

Definition p_ret {A} (a : A) : P A := λ s, [(a, s)].
Definition p_bind {A B} (p : P A) (f : A → P B) : P B := λ s, p s ≫= λ r, f r.1 r.2.
Definition p_alt {A} (p q : P A) : P A := λ s, p s ++ q s.
Definition p_fail {A} : P A := λ _, [].
Notation "x <-- p ;; q" := (p_bind p (λ x, q)) (at level 100, p at next level, right associativity) : olake_scope.
Notation "p <||> q" := (p_alt p q) (at level 85, right associativity) : olake_scope.

(** A greedy [c*]: longest first. *)
Fixpoint p_many (c : ascii → bool) (s : string) : list (string * string) :=
  match s with
  | EmptyString => [("", "")]
  | String a s' => if c a then ((λ r, (String a r.1, r.2)) <$> p_many c s') ++ [("", s)] else [("", s)]
  end.
Definition p_many1 (c : ascii → bool) : P string := λ s,
  match s with
  | EmptyString => []
  | String a s' => if c a then (λ r, (String a r.1, r.2)) <$> p_many c s' else []
  end.
Definition p_lit (l : string) : P string := λ s, if HasPrefix s l then [(l, TrimPrefix s l)] else [].
Definition p_opt (l : string) : P string := p_lit l <||> p_ret "".

Definition is_digit (a : ascii) : bool := in_range 48 57 (byte_of a).
Definition is_word (a : ascii) : bool :=
  in_range 97 122 (byte_of a) || in_range 65 90 (byte_of a) || is_digit a || (byte_of a =? 95).
Definition is_blank (a : ascii) : bool :=
  let b := byte_of a in (b =? 9) || (b =? 10) || (b =? 12) || (b =? 13) || (b =? 32).
Definition quote : string := String (ascii_of 34) "".
Definition not_quote (a : ascii) : bool := negb (byte_of a =? 34).

Definition p_space : P string := p_many is_blank.
(** Groups 1 and 2 (or 6 and 7): the quoted or the bare column name. *)
Definition p_column : P (string * string) :=
  (_ <-- p_lit quote;; c <-- p_many not_quote;; _ <-- p_lit quote;; p_ret (c, ""))
  <||> (w <-- p_many1 is_word;; p_ret ("", w)).
Definition p_operator : P string :=
  p_lit ">=" <||> p_lit "<=" <||> p_lit "!=" <||> p_lit ">" <||> p_lit "<" <||> p_lit "=".
Definition p_value : P string :=
  (q <-- p_lit quote;; v <-- p_many not_quote;; q' <-- p_lit quote;; p_ret (q +:+ v +:+ q'))
  <||> (m <-- p_opt "-";; i <-- p_many1 is_digit;; d <-- p_lit ".";; f <-- p_many1 is_digit;; p_ret (m +:+ i +:+ d +:+ f))
  <||> (m <-- p_opt "-";; i <-- p_many1 is_digit;; p_ret (m +:+ i))
  <||> (d <-- p_lit ".";; f <-- p_many1 is_digit;; p_ret (d +:+ f))
  <||> p_many1 is_word.
Definition p_condition : P (string * string * string * string) :=
  c <-- p_column;; _ <-- p_space;; o <-- p_operator;; _ <-- p_space;; v <-- p_value;; p_ret (c.1, c.2, o, v).
(** [(?i:w)] on an ASCII word. *)
Fixpoint p_fold (w : string) : P string := λ s,
  match w with
  | EmptyString => [("", s)]
  | String a w' =>
      match s with
      | EmptyString => []
      | String b s' => if byte_of a =? lower_rune (byte_of b)
                       then (λ r, (String b r.1, r.2)) <$> p_fold w' s' else []
      end
  end.
Definition p_end : P unit := λ s, if String.eqb s "" then [(tt, s)] else [].
Definition no_tail : string * (string * string * string * string) := ("", ("", "", "", "")).
Definition FilterRegex : P ((string * string * string * string) * (string * (string * string * string * string))) :=
  c1 <-- p_condition;;
  _ <-- p_space;;
  tail <-- ((l <-- (p_fold "and" <||> p_fold "or");; _ <-- p_space;; c2 <-- p_condition;; p_ret (l, c2)) <||> p_ret no_tail);;
  _ <-- p_space;; _ <-- p_end;;
  p_ret (c1, tail).

Definition condition_of (c : string * string * string * string) : FilterCondition :=
  let '(q, w, o, v) := c in mkCondition (ExtractColumnName [q; w]) o (AString v).

(** ** stream.go *)
Section Streams.
Context `{GoHash string} `{GoRange}.

Definition NewStream (prefix name namespace : string) (sourceDatabase : option string) : Stream :=
  let '(db, table) := GenerateDestinationDetails prefix namespace name sourceDatabase in
  mkStream name namespace NewTypeSchema (NewSet []) [] (NewSet []) (NewSet []) "" "" "" db table None.

Definition Stream_ID (s : Stream) : string := StreamIdentifier (s_Name s) (s_Namespace s).
Definition WithSyncMode (s : Stream) (modes : list SyncMode) : Stream :=
  set_SupportedSyncModes (foldl (λ st m, Insert st [m]) (s_SupportedSyncModes s) modes) s.
Definition WithPrimaryKey (s : Stream) (keys : list string) : Stream :=
  set_PrimaryKey (foldl (λ st k, Insert st [k]) (s_SourceDefinedPrimaryKey s) keys) s.
Definition WithCursorField (s : Stream) (columns : list string) : Stream :=
  set_CursorFields (foldl (λ st c, Insert st [c]) (s_AvailableCursorFields s) columns) s.
Definition WithSchema (s : Stream) (schema : gmap string Property) : Stream := set_Schema schema s.
Definition UpsertField (s : Stream) (column : string) (typ : DataType) (nullable isOlakeColumn : bool) : Stream :=
  let types := [typ] ++ (if nullable then [Null] else []) in
  set_Schema (AddTypes (s_Schema s) column isOlakeColumn types) s.
Definition Wrap (s : Stream) : ConfiguredStream :=
  mkConfigured (mkMetadata "" "" "" false false "" false "" None None None) s.
Definition StreamsToMap (streams : list Stream) : gmap string Stream :=
  foldl (λ m s, <[Stream_ID s := s]> m) ∅ streams.

(** ** stream_configured.go *)
Implicit Types (s : ConfiguredStream).
Definition ID s : string := Stream_ID (StreamOf s).
Definition Name s : string := s_Name (StreamOf s).
Definition Namespace s : string := s_Namespace (StreamOf s).
Definition GetSyncMode s : SyncMode := s_SyncMode (StreamOf s).

Definition GetUnSelectedColumnsSet s (columns : list string) : GoSet string :=
  match columns with
  | [] => NewSet []
  | _ =>
      let selected := NewSet columns in
      foldl (λ u kv, if Exists selected kv.1 then u else Insert1 u kv.1) (NewSet []) (range (s_Schema (StreamOf s)))
  end.

Definition RetainSelectedColumns s (data : gmap string any) : gmap string any :=
  match m_SelectedColumns (Metadata s) with
  | None => data
  | Some sel =>
      match Columns sel with
      | [] => data
      | cols =>
          if SyncNewColumns sel
          then Range (λ d col, delete col d) data (GetUnSelectedColumnsSet s cols)
          else foldl (λ d kv, if Exists (NewSet cols) kv.1 then d else delete kv.1 d) data (range data)
      end
  end.

Definition ResolveColumnName s (key : string) : string :=
  if UseSourceColumnNames (Metadata s) then key else Reformat key.

Definition reformatColumns s (columnsSet : GoSet string) : GoSet string :=
  foldl (λ out col, Insert1 out (ResolveColumnName s col)) (NewSet []) (Array columnsSet).

Definition IsSelectedColumn s (col : string) : bool :=
  match m_SelectedColumns (Metadata s) with
  | None => true
  | Some sel =>
      match Columns sel with
      | [] => true
      | cols =>
          if SyncNewColumns sel
          then negb (Exists (reformatColumns s (GetUnSelectedColumnsSet s cols)) col)
          else Exists (reformatColumns s (NewSet cols)) col
      end
  end.

Definition naming s : StreamNaming := {| IsSelected := IsSelectedColumn s; ResolveName := ResolveColumnName s |}.

Definition GetDestinationDatabase s (icebergDB : option string) : string :=
  if negb (String.eqb (s_DestinationDatabase (StreamOf s)) "") then Reformat (s_DestinationDatabase (StreamOf s))
  else match icebergDB with
       | Some db => if negb (String.eqb db "") then db else s_Namespace (StreamOf s)
       | None => s_Namespace (StreamOf s)
       end.
Definition GetDestinationTable s : string :=
  Ternary (String.eqb (s_DestinationTable (StreamOf s)) "") (s_Name (StreamOf s)) (s_DestinationTable (StreamOf s)).
Definition GetPartitionRegex s : string := PartitionRegex (Metadata s).

(** Primary and secondary cursor; [Split] returns at least one field. *)
Definition Cursor s : string * string :=
  match Split ":" (s_CursorField (StreamOf s)) with
  | [] => ("", "")
  | [primary] => (primary, "")
  | primary :: secondary :: _ => (primary, secondary)
  end.

Definition conditions_list (fc : FilterConfig) : list FilterCondition := default [] (Conditions fc).

(** The second half of [GetFilter]: the legacy string filter. *)
Definition legacy_filter s : result (FilterConfig * bool) :=
  let filter := TrimSpace (m_Filter (Metadata s)) in
  if String.eqb filter "" then Ok (mkFilter "" None, true)
  else match FilterRegex filter with
       | [] => Err "invalid filter format"
       | ((c1, (logicalOp, c2)), _) :: _ =>
           let conditions := [condition_of c1] ++ (if String.eqb logicalOp "" then [] else [condition_of c2]) in
           Ok (mkFilter logicalOp (Some conditions), true)
       end.

Definition GetFilter s : result (FilterConfig * bool) :=
  match m_FilterConfig (Metadata s) with
  | Some fc =>
      if Normalization (Metadata s) && (0 <? Z.of_nat (length (conditions_list fc)))
      then Ok (mkFilter (Reformat (LogicalOperator fc)) (Conditions fc), false)
      else legacy_filter s
  | None => legacy_filter s
  end.

Definition Validate s (source : Stream) : result unit :=
  if negb (Exists (s_SupportedSyncModes source) (s_SyncMode (StreamOf s))) then Err "invalid sync mode"
  else
    _ ← (if String.eqb (s_SyncMode (StreamOf s)) INCREMENTAL then
           let '(primaryCursor, secondaryCursor) := Cursor s in
           if negb (Exists (s_AvailableCursorFields source) primaryCursor) then Err "invalid cursor field"
           else if negb (String.eqb secondaryCursor "") && negb (Exists (s_AvailableCursorFields source) secondaryCursor)
           then Err "invalid secondary cursor field"
           else Ok tt
         else Ok tt);
    if ProperSubsetOf (s_SourceDefinedPrimaryKey source) (s_SourceDefinedPrimaryKey (StreamOf s))
    then Err "differnce found with primary keys" else Ok tt.

Definition ResolveUpsertOp s : bool :=
  negb (AppendMode (Metadata s)) && (0 <? Z.of_nat (length (default [] (DedupKeys (Metadata s))))).

Definition GetUpdateType s : UpdateType :=
  if ResolveUpsertOp s then UpdateTypePosition
  else if String.eqb (m_UpdateType (Metadata s)) "" then UpdateTypeEquality
  else m_UpdateType (Metadata s).

Definition ValidateUpdateType s : result unit :=
  if AppendMode (Metadata s) then Ok tt
  else
    let available := s_AvailableUpdateTypes (StreamOf s) in
    if String.eqb (m_UpdateType (Metadata s)) "" && (0 <? Z.of_nat (length available))
    then Err "update mode not set"
    else ValidateAgainst (GetUpdateType s) available.

End Streams.
