(* ===== verification/StreamFacts.v ===== *)
(** * Theorems about configured streams: column projection, filters, validation *)

From S2P Require Import Prelude GoString GoSet DataTypes QueryEngine Value Schema Stream.

Section Projection.
Context `{GoHash string} `{GoRange} (U : string → Prop) (s : ConfiguredStream).
Abbreviation schema := (s_Schema (StreamOf s)).

(** The column selection the user asked for. *)
Definition keeps_column (k : string) : bool :=
  match m_SelectedColumns (Metadata s) with
  | None => true
  | Some sel =>
      match Columns sel with
      | [] => true
      | cols => if SyncNewColumns sel
                then negb (bool_decide (is_Some (schema !! k)) && negb (contains cols k))
                else contains cols k
      end
  end.

(** The columns whose hashes the selection compares: configured ones, known ones, and
    their destination names. *)
Record universe : Prop := {
  u_cf : collision_free U None;
  u_schema : ∀ k, is_Some (schema !! k) → U k ∧ U (ResolveColumnName s k);
  u_cols : ∀ sel k, m_SelectedColumns (Metadata s) = Some sel → k ∈ Columns sel → U k ∧ U (ResolveColumnName s k)
}.

Lemma member_skip_fold (keep : string → bool) l st y :
  collision_free U (funcHash st) → set_wf st → inside U st → (∀ kv : string * Property, kv ∈ l → U kv.1) →
  member y (foldl (λ u kv, if keep kv.1 then u else Insert1 u kv.1) st l)
  ↔ member y st ∨ (keep y = false ∧ y ∈ l.*1).
Proof.
  intros Hcf Hwf Hin Hl.
  rewrite (foldl_ext_fun _ (λ u kv, match (if keep kv.1 then None else Some kv.1) with Some x => Insert1 u x | None => u end))
    by (intros ? [? ?]; simpl; by destruct (keep _)).
  rewrite (member_foldl U (λ kv : string * Property, if keep kv.1 then None else Some kv.1)) by first [done | intros [k v] x Hk; simpl;
    destruct (keep k); [done|]; intros [= <-]; exact (Hl _ Hk)].
  apply or_iff_compat_l. rewrite list_elem_of_fmap. split.
  - intros ([k v] & Hk & Hy). simpl in Hy. destruct (keep k) eqn:E; [done|]. simplify_eq. split; [done|]. by exists (y, v).
  - intros [Hf ([k v] & -> & Hk)]. exists (k, v). split; [done|]. simpl in *. by rewrite Hf.
Qed.

Lemma elem_of_range_keys (k : string) : k ∈ (range schema).*1 ↔ is_Some (schema !! k).
Proof.
  rewrite list_elem_of_fmap. split.
  - intros ([k' v] & -> & Hk%elem_of_range). by exists v.
  - intros [v Hv]. exists (k, v). split; [done|]. by apply elem_of_range.
Qed.

Lemma member_unselected sel k :
  universe → m_SelectedColumns (Metadata s) = Some sel → Columns sel ≠ [] →
  member k (GetUnSelectedColumnsSet s (Columns sel)) ↔ is_Some (schema !! k) ∧ k ∉ Columns sel.
Proof.
  intros [Hcf Hs Hc] Hsel Hne. unfold GetUnSelectedColumnsSet.
  destruct (Columns sel) as [|c cols] eqn:Ecols; [done|]. rewrite <- Ecols in *. clear Hne.
  rewrite member_skip_fold; [|done|apply NewSet_wf|apply inside_empty|].
  2:{ intros [k' v] Hk%elem_of_range. apply Hs. by exists v. }
  rewrite elem_of_range_keys. split.
  - intros [Hm|[He Hk]]; [by apply member_empty in Hm|]. split; [done|]. intros Hin.
    assert (Exists (NewSet (Columns sel)) k = true) as Ht.
    { apply (Exists_NewSet U); [done|intros; by eapply Hc|by eapply Hc|done]. }
    congruence.
  - intros [Hk Hn]. right. split; [|done]. apply not_true_iff_false.
    rewrite (Exists_NewSet U); [done..| |]; [intros; by eapply Hc|by apply Hs].
Qed.

Lemma unselected_good sel :
  universe → m_SelectedColumns (Metadata s) = Some sel → Columns sel ≠ [] →
  set_wf (GetUnSelectedColumnsSet s (Columns sel)).
Proof.
  intros _ _ _. unfold GetUnSelectedColumnsSet. destruct (Columns sel) as [|c cols] eqn:E; [apply NewSet_wf|].
  apply foldl_wf; [|apply NewSet_wf]. intros st [k v] Hw. case_match; [done|by apply Insert1_wf].
Qed.

Lemma lookup_delete_fold {A} (f : A → option string) (l : list A) (data : gmap string any) k :
  foldl (λ d a, match f a with Some c => delete c d | None => d end) data l !! k
  = if existsb (λ a, bool_decide (f a = Some k)) l then None else data !! k.
Proof.
  revert data. induction l as [|a l IH]; intros data; simpl; [done|].
  rewrite IH. destruct (existsb _ l); [by rewrite orb_true_r|]. rewrite orb_false_r.
  destruct (f a) as [c|]; [|done]. destruct (decide (c = k)) as [->|Hck].
  - rewrite lookup_delete_eq. by rewrite bool_decide_eq_true_2.
  - rewrite lookup_delete_ne by done. rewrite bool_decide_eq_false_2 by congruence. done.
Qed.

Lemma existsb_iff {A} (f : A → bool) l (P : Prop) :
  ((∃ a, a ∈ l ∧ f a = true) ↔ P) → existsb f l = true ↔ P.
Proof. intros <-. rewrite existsb_exists. by setoid_rewrite <- list_elem_of_In. Qed.

(** What [RetainSelectedColumns] leaves in a record. *)
Lemma retained_lookup (data : gmap string any) k :
  universe → (∀ c, is_Some (data !! c) → U c) →
  RetainSelectedColumns s data !! k = if keeps_column k then data !! k else None.
Proof.
  intros Hu Hd. unfold RetainSelectedColumns, keeps_column.
  destruct (m_SelectedColumns (Metadata s)) as [sel|] eqn:Hsel; [|done].
  destruct (Columns sel) as [|c cols] eqn:Ecols; [done|]. rewrite <- Ecols in *.
  assert (Columns sel ≠ []) as Hne by (by rewrite Ecols). clear Ecols.
  destruct (SyncNewColumns sel).
  - unfold Range. rewrite (lookup_delete_fold Some).
    assert (existsb (λ a, bool_decide (Some a = Some k)) (Array (GetUnSelectedColumnsSet s (Columns sel)))
            = bool_decide (is_Some (schema !! k)) && negb (contains (Columns sel) k)) as ->; [|by destruct (_ && _)].
    apply eq_bool_prop_intro. rewrite !Is_true_true. apply existsb_iff.
    rewrite andb_true_iff, negb_true_iff, contains_false, bool_decide_eq_true, <- (member_unselected sel k Hu Hsel Hne), <- member_Array.
    split.
    + intros (a & Ha & Hk). bool_hyps. by simplify_eq.
    + intros Hk. exists k. by rewrite bool_decide_eq_true_2.
  - rewrite (foldl_ext_fun _ (λ d kv, match (if Exists (NewSet (Columns sel)) kv.1 then None else Some kv.1) with Some c => delete c d | None => d end))
      by (intros ? [? ?]; simpl; by destruct (Exists _ _)).
    rewrite (lookup_delete_fold (λ kv : string * any, if Exists (NewSet (Columns sel)) kv.1 then None else Some kv.1)).
    destruct (data !! k) as [v|] eqn:Ek; [|by destruct (existsb _ _), (contains _ _)].
    destruct Hu as [Hcf _ Hc].
    assert (contains (Columns sel) k = Exists (NewSet (Columns sel)) k) as ->.
    { apply eq_bool_prop_intro. rewrite !Is_true_true, contains_true. symmetry.
      apply (Exists_NewSet U); [done|intros; by eapply Hc|by apply Hd]. }
    destruct (Exists (NewSet (Columns sel)) k) eqn:Ex.
    + destruct (existsb _ _) eqn:Ee; [|done]. apply existsb_exists in Ee as ([k' v'] & _ & Hk).
      simpl in Hk. destruct (Exists _ k') eqn:Ex'; bool_hyps; simplify_eq. congruence.
    + rewrite (proj2 (existsb_exists _ _)); [done|]. exists (k, v). split; [by apply list_elem_of_In, elem_of_range|].
      simpl. by rewrite Ex, bool_decide_eq_true_2.
Qed.

Lemma member_reformat st c :
  collision_free U None → (∀ k, member k st → U (ResolveColumnName s k)) →
  member c (reformatColumns s st) ↔ ∃ k, member k st ∧ ResolveColumnName s k = c.
Proof.
  intros Hcf Hst. unfold reformatColumns.
  rewrite (member_foldl U (λ col, Some (ResolveColumnName s col)) (Array st) (NewSet [])).
  - setoid_rewrite member_Array. split.
    + intros [Hm|(k & Hk & [= <-])]; [by apply member_empty in Hm|eauto].
    + intros (k & Hk & <-). right. eauto.
  - done.
  - apply NewSet_wf.
  - apply inside_empty.
  - intros k x Hk%member_Array [= <-]. auto.
Qed.

Lemma Exists_reformat st c :
  collision_free U None → (∀ k, member k st → U (ResolveColumnName s k)) → U c →
  Exists (reformatColumns s st) c = true ↔ ∃ k, member k st ∧ ResolveColumnName s k = c.
Proof.
  intros Hcf Hst Hc. rewrite <- member_reformat by done.
  assert (funcHash (reformatColumns s st) = None) as Hf by (apply foldl_funcHash; intros; by rewrite Insert1_funcHash).
  apply (Exists_member U); [by rewrite Hf| | |done].
  - unfold reformatColumns. apply foldl_wf; [intros; by apply Insert1_wf|apply NewSet_wf].
  - intros x (k & Hk & <-)%member_reformat; auto.
Qed.

(** [k'] does not share its destination name with another known or configured column. *)
Definition name_distinct (k : string) : Prop :=
  ∀ k', (is_Some (schema !! k') ∨ ∃ sel, m_SelectedColumns (Metadata s) = Some sel ∧ k' ∈ Columns sel) →
    ResolveColumnName s k' = ResolveColumnName s k → k' = k.

Lemma selected_keeps k :
  universe → U (ResolveColumnName s k) → name_distinct k →
  IsSelectedColumn s (ResolveColumnName s k) = keeps_column k.
Proof.
  intros Hu Hk Hd. unfold IsSelectedColumn, keeps_column.
  destruct (m_SelectedColumns (Metadata s)) as [sel|] eqn:Hsel; [|done].
  destruct (Columns sel) as [|c cols] eqn:Ecols; [done|]. rewrite <- Ecols in *.
  assert (Columns sel ≠ []) as Hne by (by rewrite Ecols). clear Ecols. pose proof Hu as [Hcf Hs Hc].
  destruct (SyncNewColumns sel).
  - f_equal. apply eq_bool_prop_intro. rewrite !Is_true_true, andb_true_iff, negb_true_iff, contains_false, bool_decide_eq_true.
    assert (Hm := λ k, member_unselected sel k Hu Hsel Hne).
    rewrite Exists_reformat; [|done|intros k' [? _]%Hm; by apply Hs|done]. setoid_rewrite Hm. split.
    + intros (k' & [Hin Hn] & Heq). assert (k' = k) as -> by (apply Hd; [by left|done]). done.
    + intros Hin. by exists k.
  - apply eq_bool_prop_intro. rewrite !Is_true_true, contains_true.
    assert (Hm : ∀ k, member k (NewSet (Columns sel)) ↔ k ∈ Columns sel).
    { intros k'. apply (member_NewSet U); [done|]. intros; by eapply Hc. }
    rewrite Exists_reformat; [|done|intros k' ?%Hm; by eapply Hc|done]. setoid_rewrite Hm. split.
    + intros (k' & Hin & Heq). assert (k' = k) as -> by (apply Hd; [right; by exists sel|done]). done.
    + intros Hin. by exists k.
Qed.


End Projection.

Definition demo_stream (sel : list string) (sync_new : bool) : ConfiguredStream :=
  let p := mkProperty (mkGoSet ∅ ∅ None) "" false in
  mkConfigured
    (mkMetadata "" "" "users" false true "" false "" None (Some (mkSelected sel sync_new)) None)
    (mkStream "users" "public" (list_to_map [("Id", p); ("Name", p); ("Secret", p)])
       (mkGoSet ∅ ∅ None) [] (mkGoSet ∅ ∅ None) (mkGoSet ∅ ∅ None) "" "" CDC "" "" None).


(** ** The legacy filter text parses back to what it says *)
Definition all_chars (c : ascii → bool) (w : string) : bool := forallb c (String.list_ascii_of_string w).
Definition stops (c : ascii → bool) (s : string) : bool :=
  match s with EmptyString => true | String a _ => negb (c a) end.

(** [first p s a r]: the preferred match of [p] at the start of [s] yields [a] and leaves [r]. *)
Definition first {A} (p : P A) (s : string) (a : A) (r : string) : Prop := head (p s) = Some (a, r).

Lemma first_ret {A} (a : A) s : first (p_ret a) s a s.
Proof. done. Qed.
Lemma first_bind {A B} (p : P A) (f : A → P B) s a r b r' :
  first p s a r → first (f a) r b r' → first (p_bind p f) s b r'.
Proof.
  unfold first, p_bind. destruct (p s) as [|[a' s'] l]; [done|]. simpl. intros [= -> ->].
  by destruct (f a r) as [|[b' s''] l']; [done|].
Qed.
Lemma first_alt_l {A} (p q : P A) s a r : first p s a r → first (p <||> q) s a r.
Proof. unfold first, p_alt. by destruct (p s). Qed.
Lemma first_alt_r {A} (p q : P A) s a r : p s = [] → first q s a r → first (p <||> q) s a r.
Proof. unfold first, p_alt. by intros ->. Qed.
Lemma bind_nil {A B} (p : P A) (f : A → P B) s : p s = [] → p_bind p f s = [].
Proof. unfold p_bind. by intros ->. Qed.
Lemma bind_one {A B} (p : P A) (f : A → P B) s a r : p s = [(a, r)] → f a r = [] → p_bind p f s = [].
Proof. unfold p_bind. intros -> Hf. cbn. by rewrite Hf. Qed.
Lemma lit_nil l s : HasPrefix s l = false → p_lit l s = [].
Proof. unfold p_lit. by intros ->. Qed.
Lemma first_many c w s : all_chars c w = true → stops c s = true → first (p_many c) (w +:+ s) w s.
Proof.
  unfold first. induction w as [|a w IH]; simpl; intros Hw Hs.
  - destruct s as [|b s]; [done|]. simpl in *. apply negb_true_iff in Hs. by rewrite Hs.
  - unfold all_chars in *. simpl in Hw. apply andb_true_iff in Hw as [-> Hw]. specialize (IH Hw Hs).
    destruct (p_many c (w +:+ s)) as [|[w' s'] l]; [done|]. simpl in *. by simplify_eq.
Qed.
Lemma first_many1 c w s : w ≠ "" → all_chars c w = true → stops c s = true → first (p_many1 c) (w +:+ s) w s.
Proof.
  destruct w as [|a w]; [done|]. intros _ Hw Hs. unfold all_chars in Hw. simpl in Hw.
  apply andb_true_iff in Hw as [Ha Hw]. pose proof (first_many c w s Hw Hs) as Hm. unfold first in *. simpl. rewrite Ha.
  destruct (p_many c (w +:+ s)) as [|[w' s'] l]; [done|]. simpl in *. by simplify_eq.
Qed.
Lemma first_lit l s : first (p_lit l) (l +:+ s) l s.
Proof.
  unfold first, p_lit. assert (HasPrefix (l +:+ s) l = true) as -> by (apply HasPrefix_spec; by exists s).
  by rewrite TrimPrefix_app.
Qed.
#[local] Hint Resolve first_ret first_alt_l first_many first_many1 first_lit : olake.

Definition operators : list string := [">="; "<="; "!="; ">"; "<"; "="].

Lemma first_operator o s : o ∈ operators → first p_operator (o +:+ " " +:+ s) o (" " +:+ s).
Proof.
  intros Ho. repeat (apply elem_of_cons in Ho as [->|Ho]; [reflexivity|]). by apply elem_of_nil in Ho.
Qed.

(** A condition as the user writes it: a quoted or bare column, an operator, a quoted
    value or a bare word. *)
Record written := mkWritten { w_quoted : bool; w_column : string; w_operator : string; w_vquoted : bool; w_value : string }.

Definition quoted (b : bool) (t : string) : string := if b then quote +:+ t +:+ quote else t.

Definition starts_alpha (w : string) : bool :=
  match w with EmptyString => false | String a _ => is_word a && negb (is_digit a) end.

Definition written_ok (c : written) : Prop :=
  w_column c ≠ "" ∧ all_chars (if w_quoted c then not_quote else is_word) (w_column c) = true
  ∧ w_operator c ∈ operators
  ∧ (if w_vquoted c then all_chars not_quote (w_value c) = true
     else starts_alpha (w_value c) = true ∧ all_chars is_word (w_value c) = true).

Definition print_condition (c : written) : string :=
  quoted (w_quoted c) (w_column c) +:+ " " +:+ w_operator c +:+ " " +:+ quoted (w_vquoted c) (w_value c).

Definition groups (c : written) : string * string * string * string :=
  (if w_quoted c then w_column c else "", if w_quoted c then "" else w_column c, w_operator c,
   quoted (w_vquoted c) (w_value c)).

Lemma app_assoc_s (a b c : string) : (a +:+ b) +:+ c = a +:+ b +:+ c.
Proof.
  induction a as [|x a IH]; [done|]. change (String x ((a +:+ b) +:+ c) = String x (a +:+ b +:+ c)). by rewrite IH.
Qed.

Lemma word_not_quote_head w s : starts_alpha w = true ∨ (w ≠ "" ∧ all_chars is_word w = true) →
  HasPrefix (w +:+ s) quote = false.
Proof.
  destruct w as [|a w]; [intros [?|[? _]]; done|]. intros Hw. assert (is_word a = true) as Ha.
  { destruct Hw as [Hw|[_ Hw]]; unfold all_chars in Hw; simpl in Hw; by apply andb_true_iff in Hw as [? _]. }
  change (Ascii.eqb a (ascii_of 34) && HasPrefix (w +:+ s) "" = false). destruct (Ascii.eqb_spec a (ascii_of 34)) as [->|]; [by vm_compute in Ha|done].
Qed.

Lemma first_column c s : written_ok c →
  first p_column (quoted (w_quoted c) (w_column c) +:+ " " +:+ s) ((groups c).1.1.1, (groups c).1.1.2) (" " +:+ s).
Proof.
  intros (Hne & Hall & _). unfold p_column, quoted, groups. cbn [fst snd]. destruct (w_quoted c).
  - apply first_alt_l. rewrite !app_assoc_s. eapply first_bind; [apply first_lit|].
    eapply first_bind; [apply first_many; [done|reflexivity]|]. eapply first_bind; [apply first_lit|]. done.
  - apply first_alt_r.
    + apply bind_nil, lit_nil, word_not_quote_head. auto.
    + eapply first_bind; [apply first_many1; [done..|reflexivity]|]. done.
Qed.

(** A bare word that does not start with a digit is no number. *)
Lemma number_fails w s : starts_alpha w = true →
  p_opt "-" (w +:+ s) = [("", w +:+ s)] ∧ p_many1 is_digit (w +:+ s) = [] ∧ p_lit "." (w +:+ s) = [].
Proof.
  destruct w as [|a w]; [done|]. cbn [starts_alpha]. intros [Hw Hd]%andb_true_iff. apply negb_true_iff in Hd.
  assert (HasPrefix (String a w +:+ s) "-" = false) as Hm.
  { change (Ascii.eqb a "-" && HasPrefix (w +:+ s) "" = false). destruct (Ascii.eqb_spec a "-") as [->|]; [by vm_compute in Hw|done]. }
  assert (HasPrefix (String a w +:+ s) "." = false) as Hp.
  { change (Ascii.eqb a "." && HasPrefix (w +:+ s) "" = false). destruct (Ascii.eqb_spec a ".") as [->|]; [by vm_compute in Hw|done]. }
  split_and!.
  - unfold p_opt, p_alt, p_lit. by rewrite Hm.
  - change (p_many1 is_digit (String a (w +:+ s)) = []). unfold p_many1. by rewrite Hd.
  - unfold p_lit. by rewrite Hp.
Qed.

Lemma first_value c s : written_ok c → stops is_word s = true →
  first p_value (quoted (w_vquoted c) (w_value c) +:+ s) (quoted (w_vquoted c) (w_value c)) s.
Proof.
  intros (_ & _ & _ & Hv) Hs. unfold p_value, quoted. destruct (w_vquoted c).
  - apply first_alt_l. rewrite !app_assoc_s. eapply first_bind; [apply first_lit|].
    eapply first_bind; [apply first_many; [done|reflexivity]|]. eapply first_bind; [apply first_lit|]. done.
  - destruct Hv as [Ha Hw]. destruct (number_fails (w_value c) s Ha) as (Hm & Hd & Hp).
    assert (w_value c ≠ "") as Hne by (by destruct (w_value c)).
    repeat apply first_alt_r; [..|by apply first_many1].
    + apply bind_nil, lit_nil, word_not_quote_head. auto.
    + eapply bind_one; [done|]. by apply bind_nil.
    + eapply bind_one; [done|]. by apply bind_nil.
    + by apply bind_nil.
Qed.

Lemma first_space s : stops is_blank s = true → first p_space (" " +:+ s) " " s.
Proof. intros Hs. by apply (first_many is_blank " "). Qed.

Lemma quoted_not_blank b t s : (b = false → starts_alpha t = true ∨ (t ≠ "" ∧ all_chars is_word t = true)) →
  stops is_blank (quoted b t +:+ s) = true.
Proof.
  destruct b; [done|]. intros Ht. destruct t as [|a t]; [by destruct Ht as [|[? _]]|].
  assert (is_word a = true) as Ha.
  { destruct (Ht eq_refl) as [Hw|[_ Hw]]; unfold all_chars in Hw; simpl in Hw; by apply andb_true_iff in Hw as [? _]. }
  change (negb (is_blank a) = true). unfold is_word, is_digit, is_blank, in_range in *. lia.
Qed.

Lemma operator_not_blank o s : o ∈ operators → stops is_blank (o +:+ s) = true.
Proof. intros Ho. repeat (apply elem_of_cons in Ho as [->|Ho]; [reflexivity|]). by apply elem_of_nil in Ho. Qed.

Lemma first_condition c s : written_ok c → stops is_word s = true →
  first p_condition (print_condition c +:+ s) (groups c) s.
Proof.
  intros Hok Hs. pose proof Hok as (Hne & Hall & Hop & Hv). unfold p_condition, print_condition. rewrite !app_assoc_s.
  eapply first_bind; [by apply first_column|].
  eapply first_bind; [apply first_space; by apply operator_not_blank|].
  eapply first_bind; [by apply first_operator|].
  eapply first_bind; [apply first_space, quoted_not_blank; intros Hq; rewrite Hq in Hv; left; tauto|].
  eapply first_bind; [by apply first_value|]. done.
Qed.

Definition logical_words : list string := ["and"; "or"; "AND"; "OR"; "And"; "Or"].

Definition filter_text (c : written) (tail : option (string * written)) : string :=
  print_condition c +:+ match tail with Some (l, c2) => " " +:+ l +:+ " " +:+ print_condition c2 | None => "" end.

Definition tail_ok (tail : option (string * written)) : Prop :=
  match tail with Some (l, c2) => l ∈ logical_words ∧ written_ok c2 | None => True end.

Lemma first_logical l s : l ∈ logical_words →
  first (p_fold "and" <||> p_fold "or") (l +:+ " " +:+ s) l (" " +:+ s) ∧ stops is_blank (l +:+ " " +:+ s) = true.
Proof.
  intros Hl. repeat (apply elem_of_cons in Hl as [->|Hl]; [split; reflexivity|]). by apply elem_of_nil in Hl.
Qed.

Lemma append_nil_r (t : string) : t +:+ "" = t.
Proof. induction t as [|x t IH]; [done|]. change (String x (t +:+ "") = String x t). by rewrite IH. Qed.

Lemma first_done : first p_space "" "" "".
Proof. done. Qed.

Lemma first_regex c tail : written_ok c → tail_ok tail →
  first FilterRegex (filter_text c tail)
    (groups c, match tail with Some (l, c2) => (l, groups c2) | None => no_tail end) "".
Proof.
  intros Hc Ht. unfold FilterRegex, filter_text. destruct tail as [[l c2]|]; simpl in Ht.
  - destruct Ht as [Hl Hc2]. destruct (first_logical l (print_condition c2) Hl) as [Hlog Hblank].
    eapply first_bind; [by apply first_condition|].
    eapply first_bind; [by apply first_space|].
    eapply first_bind.
    { apply first_alt_l. eapply first_bind; [exact Hlog|].
      eapply first_bind.
      { apply first_space. unfold print_condition. apply quoted_not_blank. intros Hq.
        destruct Hc2 as (? & Hall & _). rewrite Hq in Hall. auto. }
      eapply first_bind; [|apply first_ret]. rewrite <- (append_nil_r (print_condition c2)). by apply first_condition. }
    eapply first_bind; [apply first_done|]. done.
  - eapply first_bind; [by apply first_condition|].
    eapply first_bind; [apply first_done|].
    eapply first_bind; [apply first_alt_r; [reflexivity|apply first_ret]|].
    eapply first_bind; [apply first_done|]. done.
Qed.

(** The condition a written one denotes; a quoted value keeps its quotes. *)
Definition denotes (c : written) : FilterCondition :=
  mkCondition (w_column c) (w_operator c) (AString (quoted (w_vquoted c) (w_value c))).

Lemma condition_of_groups c : written_ok c → condition_of (groups c) = denotes c.
Proof.
  intros (Hne & _). unfold condition_of, groups, denotes. f_equal.
  destruct (w_quoted c); cbn [ExtractColumnName]; [by apply String.eqb_neq in Hne as ->|].
  by apply String.eqb_neq in Hne as ->.
Qed.

(** Legacy filters are understood as written.  One condition, or two joined by
    and/or in any of the usual spellings, with bare or quoted columns (quotes allow any
    other character), any of the six operators and quoted values or bare words, parses
    to exactly those conditions and that operator, and is flagged as legacy; a
    structured filter on a normalised stream takes precedence. *)
Theorem legacy_filter_roundtrip s c tail :
  written_ok c → tail_ok tail → TrimSpace (m_Filter (Metadata s)) = filter_text c tail →
  m_FilterConfig (Metadata s) = None ∨ Normalization (Metadata s) = false →
  GetFilter s = Ok (mkFilter (match tail with Some (l, _) => l | None => "" end)
                      (Some (denotes c :: match tail with Some (_, c2) => [denotes c2] | None => [] end)), true).
Proof.
  intros Hc Ht Htext Hnew.
  assert (GetFilter s = legacy_filter s) as ->.
  { unfold GetFilter. destruct Hnew as [-> | ->]; [done|]. by destruct (m_FilterConfig _). }
  unfold legacy_filter. rewrite Htext. pose proof (first_regex c tail Hc Ht) as Hf. unfold first in Hf.
  assert (filter_text c tail ≠ "") as Hne by (intros He; by rewrite He in Hf).
  apply String.eqb_neq in Hne as ->. destruct (FilterRegex (filter_text c tail)) as [|[[g1 [l g2]] r] rest]; [done|].
  cbn [head] in Hf.
  assert (g1 = groups c ∧ (l, g2) = match tail with Some (l, c2) => (l, groups c2) | None => no_tail end) as [-> Hl] by (by simplify_eq).
  rewrite condition_of_groups by done.
  unfold no_tail in Hl. destruct tail as [[l' c2]|]; simplify_eq; [|done]. destruct Ht as [Hw Hc2]. rewrite condition_of_groups by done.
  do 6 (apply elem_of_cons in Hw as [->|Hw]; [done|]). by apply elem_of_nil in Hw.
Qed.

Lemma legacy_filter_roundtrip_witness :
  let c1 := mkWritten true "user-name" "!=" true "New York" in
  let c2 := mkWritten false "status" "=" false "active" in
  let md := mkMetadata "" "" "users" false true "" false (filter_text c1 (Some ("AND", c2)) +:+ " ") None None None in
  GetFilter (mkConfigured md (StreamOf (demo_stream [] true)))
  = Ok (mkFilter "AND" (Some [denotes c1; denotes c2]), true).
Proof.
  intros c1 c2 md. apply (legacy_filter_roundtrip (mkConfigured md _) c1 (Some ("AND", c2))).
  - repeat split; try (vm_compute; reflexivity); [discriminate|by_decide].
  - split; [by_decide|]. repeat split; try (vm_compute; reflexivity); [discriminate|by_decide].
  - vm_compute. reflexivity.
  - left. reflexivity.
Defined.
