(* ===== verification/Catalog.v ===== *)
(** * types/catalog.go: building, merging and comparing catalogs *)

From S2P Require Import Prelude GoString GoSet DataTypes QueryEngine Value Schema Stream.

Record Catalog := mkCatalog {
  SelectedStreams : option (gmap string (list StreamMetadata));   (* None: absent in the file *)
  Streams : list ConfiguredStream
}.

Abbreviation DriverType := string (only parsing).
Definition MongoDB : DriverType := "mongodb".
Definition Postgres : DriverType := "postgres".
Definition MySQL : DriverType := "mysql".
Definition Oracle : DriverType := "oracle".
Definition DB2 : DriverType := "db2".
Definition S3 : DriverType := "s3".
Definition Kafka : DriverType := "kafka".
Definition MSSQL : DriverType := "mssql".
Definition DefaultAppendModeDrivers : list DriverType := [S3; Kafka].
Definition RelationalDrivers : list DriverType := [Postgres; MySQL; Oracle; DB2; MSSQL].
Definition ParallelCDCDrivers : list DriverType := [MongoDB; MSSQL].

Definition IsDriverRelational (driver : string) : bool :=
  (ArrayContains RelationalDrivers (λ src, String.eqb src driver)).2.
Definition IsDriverAppendOnly (driver : string) : bool :=
  (ArrayContains DefaultAppendModeDrivers (λ src, String.eqb src driver)).2.

(** [reflect.DeepEqual] on the values a decoded filter can hold. *)
Fixpoint any_equal (a b : any) {struct a} : bool :=
  match a, b with
  | ANil, ANil => true
  | ABool x, ABool y => Bool.eqb x y
  | AInt k x, AInt k' y => bool_decide (k = k') && (x =? y)
  | AFloat32 x, AFloat32 y | AFloat64 x, AFloat64 y => SFeqb x y
  | AString x, AString y | ABytes x, ABytes y | ANumber x, ANumber y | AObjectID x, AObjectID y => String.eqb x y
  | AInt8s x, AInt8s y => bool_decide (x = y)
  | ATime x, ATime y | ATimeT x, ATimeT y => bool_decide (x = y)
  | ADateTime x, ADateTime y => x =? y
  | AArray l, AArray k =>
      (fix go (l k : list any) {struct l} : bool :=
         match l, k with
         | [], [] => true
         | x :: l, y :: k => any_equal x y && go l k
         | _, _ => false
         end) l k
  | AMap l, AMap k =>
      (fix go (l k : list (string * any)) {struct l} : bool :=
         match l, k with
         | [], [] => true
         | (n, x) :: l, (m, y) :: k => String.eqb n m && any_equal x y && go l k
         | _, _ => false
         end) l k
  | _, _ => false
  end.

Definition condition_equal (a b : FilterCondition) : bool :=
  String.eqb (Column a) (Column b) && String.eqb (Operator a) (Operator b) && any_equal (CondValue a) (CondValue b).
Fixpoint list_equal {A} (eqb : A → A → bool) (l k : list A) : bool :=
  match l, k with
  | [], [] => true
  | x :: l, y :: k => eqb x y && list_equal eqb l k
  | _, _ => false
  end.
(** A nil and an empty slice are not deeply equal. *)
Definition slice_equal {A} (eqb : A → A → bool) (l k : option (list A)) : bool :=
  match l, k with Some l, Some k => list_equal eqb l k | None, None => true | _, _ => false end.
Definition filter_equal (a b : option FilterConfig) : bool :=
  match a, b with
  | Some a, Some b => String.eqb (LogicalOperator a) (LogicalOperator b) && slice_equal condition_equal (Conditions a) (Conditions b)
  | None, None => true
  | _, _ => false
  end.

Section Catalogs.
Context `{GoHash string} `{GoRange}.

(** [m[k] = append(m[k], v)] *)
Definition append_at {A} (k : string) (v : A) (m : gmap string (list A)) : gmap string (list A) :=
  <[k := default [] (m !! k) ++ [v]]> m.

(** ** GetWrappedCatalog *)
Definition default_update_type (driver : string) (available : list UpdateType) : UpdateType :=
  if String.eqb driver Kafka && contains available UpdateTypePosition then UpdateTypePosition
  else PreferredUpdateType available.

Definition wrap_stream (available : list UpdateType) (updateType : UpdateType) (stream : Stream) : Stream :=
  let stream := set_AvailableUpdateTypes available stream in
  match s_DefaultStreamProperties stream with
  | Some p => set_Defaults (Some (mkDefaultProperties (dp_Normalization p) (dp_AppendMode p) updateType)) stream
  | None => stream
  end.

Definition wrap_metadata (driver : string) (updateType : UpdateType) (stream : Stream) : StreamMetadata :=
  mkMetadata "" "" (s_Name stream) (IsDriverAppendOnly driver) (IsDriverRelational driver) updateType false "" None
    (Some (mkSelected (ColumnNames (s_Schema stream)) true)) None.

Definition GetWrappedCatalog (streams : list Stream) (driver : string) (engines : list QueryEngine) : Catalog :=
  let available := AvailableUpdateTypes engines in
  let updateType := default_update_type driver available in
  foldl (λ c stream,
      let stream := wrap_stream available updateType stream in
      mkCatalog
        (append_at (s_Namespace stream) (wrap_metadata driver updateType stream) <$> SelectedStreams c)
        (Streams c ++ [Wrap stream]))
    (mkCatalog (Some ∅) []) streams.

(** ** mergeCatalogs *)
Definition createStreamMap (streams : list ConfiguredStream) : gmap string ConfiguredStream :=
  foldl (λ m s, <[ID s := s]> m) ∅ streams.

Definition mergeUpdateType (metadata : StreamMetadata) (engines : list QueryEngine) : StreamMetadata :=
  let metadata := if String.eqb (m_UpdateType metadata) "" then set_m_UpdateType UpdateTypeEquality metadata else metadata in
  match engines with
  | [] => metadata
  | _ => if contains (AvailableUpdateTypes engines) (m_UpdateType metadata) then metadata else set_m_UpdateType "" metadata
  end.

Definition merged_columns (sel : SelectedColumns) (oldStream newStream : Stream) : list string :=
  let previouslySelectedSet := NewSet (Columns sel) in
  let oldSchemaCols := NewSet (ColumnNames (s_Schema oldStream)) in
  omap (λ kv : string * Property,
      if OlakeColumn kv.2 || Exists previouslySelectedSet kv.1 || SyncNewColumns sel && negb (Exists oldSchemaCols kv.1)
      then Some kv.1 else None) (range (s_Schema newStream)).

Definition MergeSelectedColumns (metadata : StreamMetadata) (oldStream newStream : Stream) : StreamMetadata :=
  let columns :=
    match m_SelectedColumns metadata with
    | None => ColumnNames (s_Schema newStream)
    | Some sel => match Columns sel with [] => ColumnNames (s_Schema newStream) | _ => merged_columns sel oldStream newStream end
    end in
  let syncNewColumns := match m_SelectedColumns metadata with Some sel => SyncNewColumns sel | None => true end in
  set_m_SelectedColumns (Some (mkSelected columns syncNewColumns)) metadata.

Definition selected_id (namespace name : string) : string := namespace +:+ "." +:+ name.

Definition merge_selected (oldStreams newStreams : gmap string ConfiguredStream) (engines : list QueryEngine)
    (namespace : string) (acc : gmap string (list StreamMetadata)) (metadata : StreamMetadata)
    : result (gmap string (list StreamMetadata)) :=
  match newStreams !! selected_id namespace (StreamName metadata) with
  | None => Ok acc
  | Some newStream =>
      match oldStreams !! selected_id namespace (StreamName metadata) with
      | None => Panic "nil pointer dereference"
      | Some oldStream =>
          let metadata := MergeSelectedColumns metadata (StreamOf oldStream) (StreamOf newStream) in
          Ok (append_at namespace (mergeUpdateType metadata engines) acc)
      end
  end.

Definition getDestDBPrefix (streams : list ConfiguredStream) : bool * string :=
  let field0 s := hd "" (Split ":" (s_DestinationDatabase (StreamOf s))) in
  match streams with
  | [] => (false, "")
  | s0 :: _ =>
      if forallb (λ s, String.eqb (field0 s) (field0 s0)) streams
      then (bool_decide (length (Split ":" (s_DestinationDatabase (StreamOf s0))) = 1%nat), field0 s0)
      else (false, "")
  end.

Definition merge_stream (old : list ConfiguredStream) (newStream : ConfiguredStream) : ConfiguredStream :=
  let n := StreamOf newStream in
  match createStreamMap old !! ID newStream with
  | Some oldStream =>
      let o := StreamOf oldStream in
      let n := set_SyncMode (s_SyncMode o) n in
      let n := if String.eqb (s_CursorField o) "" then n else set_CursorField (s_CursorField o) n in
      let n := set_Destination (s_DestinationDatabase o) (s_DestinationTable o) n in
      mkConfigured (Metadata newStream) (set_PrimaryKey (s_SourceDefinedPrimaryKey o) n)
  | None =>
      let '(constantValue, prefix) := getDestDBPrefix old in
      let db := if constantValue then match old with o :: _ => s_DestinationDatabase (StreamOf o) | [] => "" end
                else if negb (String.eqb prefix "") then prefix +:+ ":" +:+ Reformat (s_Namespace n)
                else s_DestinationDatabase n in
      mkConfigured (Metadata newStream) (set_Destination db (s_DestinationTable n) n)
  end.

Definition mergeCatalogs (oldCatalog : option Catalog) (newCatalog : Catalog) (engines : list QueryEngine) : result Catalog :=
  match oldCatalog with
  | None => Ok newCatalog
  | Some old =>
      let oldStreams := createStreamMap (Streams old) in
      selected ← match SelectedStreams old with
                 | None => Ok (SelectedStreams newCatalog)
                 | Some sel =>
                     let newStreams := createStreamMap (Streams newCatalog) in
                     Some <$> foldM (λ acc kv, foldM (merge_selected oldStreams newStreams engines kv.1) acc kv.2) ∅ (range sel)
                 end;
      Ok (mkCatalog selected (merge_stream (Streams old) <$> Streams newCatalog))
  end.

(** protocol/discover.go: the engines a discover run must satisfy. *)
Definition resolveTargetQueryEngines (values : list string) : result (list QueryEngine) :=
  engines ← ParseQueryEngines values;
  if (0 <? Z.of_nat (length engines)) && (Z.of_nat (length (AvailableUpdateTypes engines)) =? 0)
  then Err "no delete format is readable by all of the selected query engines" else Ok engines.

(** ** GetStreamsDelta *)
Definition effective_update_type (m : StreamMetadata) : UpdateType :=
  Ternary (String.eqb (m_UpdateType m) "") UpdateTypeEquality (m_UpdateType m).

Definition isDifferent (oldMetadata newMetadata : StreamMetadata) (oldStream newStream : Stream) : bool :=
  let cursorDelta := Ternary (String.eqb (s_SyncMode newStream) INCREMENTAL)
                       (negb (String.eqb (s_CursorField oldStream) (s_CursorField newStream))) false in
  let oldUpdateType := effective_update_type oldMetadata in
  let newUpdateType := effective_update_type newMetadata in
  let dvDelta := String.eqb oldUpdateType UpdateTypeDeletionVector && negb (String.eqb newUpdateType UpdateTypeDeletionVector)
                 || String.eqb oldUpdateType UpdateTypePosition && String.eqb newUpdateType UpdateTypeDeletionVector in
  negb (Bool.eqb (Normalization oldMetadata) (Normalization newMetadata))
  || negb (String.eqb (PartitionRegex oldMetadata) (PartitionRegex newMetadata))
  || negb (String.eqb (m_Filter oldMetadata) (m_Filter newMetadata))
  || negb (Bool.eqb (UseSourceColumnNames oldMetadata) (UseSourceColumnNames newMetadata))
  || negb (filter_equal (m_FilterConfig oldMetadata) (m_FilterConfig newMetadata))
  || negb (Bool.eqb (AppendMode oldMetadata) (AppendMode newMetadata))
  || negb (slice_equal String.eqb (DedupKeys oldMetadata) (DedupKeys newMetadata))
  || negb (String.eqb (s_SyncMode oldStream) (s_SyncMode newStream))
  || negb (String.eqb (s_DestinationDatabase oldStream) (s_DestinationDatabase newStream))
  || negb (String.eqb (s_DestinationTable oldStream) (s_DestinationTable newStream))
  || cursorDelta
  || dvDelta.

Definition selected_entries (c : Catalog) : list (string * StreamMetadata) :=
  kv ← range (default ∅ (SelectedStreams c)); (λ m, (kv.1, m)) <$> kv.2.

Definition oldSelectedMap (c : Catalog) : gmap string StreamMetadata :=
  foldl (λ acc nm, <[selected_id nm.1 (StreamName nm.2) := nm.2]> acc) ∅ (selected_entries c).

(** The entry a selected stream of the new catalog contributes, if any. *)
Definition delta_entry (oldStreams newStreams : Catalog) (nm : string * StreamMetadata)
    : option (ConfiguredStream * StreamMetadata) :=
  let '(namespace, newMetadata) := nm in
  let streamID := selected_id namespace (StreamName newMetadata) in
  match createStreamMap (Streams newStreams) !! streamID with
  | None => None
  | Some newStream =>
      match oldSelectedMap oldStreams !! streamID, createStreamMap (Streams oldStreams) !! streamID with
      | Some oldMetadata, Some oldStream =>
          if isDifferent oldMetadata newMetadata (StreamOf oldStream) (StreamOf newStream)
          then Some (Wrap (set_Destination (s_DestinationDatabase (StreamOf oldStream))
                             (s_DestinationTable (StreamOf oldStream)) (StreamOf newStream)), newMetadata)
          else None
      | _, _ => Some (newStream, newMetadata)
      end
  end.

Definition delta_step (oldStreams newStreams : Catalog) (diff : Catalog) (nm : string * StreamMetadata) : Catalog :=
  match delta_entry oldStreams newStreams nm with
  | None => diff
  | Some (stream, metadata) =>
      mkCatalog (append_at nm.1 metadata <$> SelectedStreams diff) (Streams diff ++ [stream])
  end.

Definition GetStreamsDelta (oldStreams newStreams : Catalog) : Catalog :=
  foldl (delta_step oldStreams newStreams) (mkCatalog (Some ∅) []) (selected_entries newStreams).

End Catalogs.
