(* ===== verification/CatalogFacts.v ===== *)
(** * Theorems about catalogs: merging keeps the user's choices, deltas are exact *)

From S2P Require Import Prelude GoString GoSet DataTypes QueryEngine Value Schema Stream StreamFacts Catalog.

Section Facts.
Context `{GoHash string} `{GoRange}.

(** ** Merging column selections *)
Lemma elem_of_ColumnNames (t : gmap string Property) c : c ∈ ColumnNames t ↔ is_Some (t !! c).
Proof.
  unfold ColumnNames. rewrite list_elem_of_fmap. split.
  - intros ([k p] & -> & Hin%elem_of_range). by exists p.
  - intros [p Hp]. exists (c, p). split; [done|]. by apply elem_of_range.
Qed.

Lemma merged_columns_elem U sel old new c :
  collision_free U None → (∀ x, x ∈ Columns sel ∨ is_Some (s_Schema old !! x) ∨ is_Some (s_Schema new !! x) → U x) →
  c ∈ merged_columns sel old new ↔
  ∃ p, s_Schema new !! c = Some p
       ∧ (OlakeColumn p = true ∨ c ∈ Columns sel ∨ (SyncNewColumns sel = true ∧ s_Schema old !! c = None)).
Proof.
  intros Hcf HU. unfold merged_columns. rewrite list_elem_of_omap.
  assert (Hc : is_Some (s_Schema new !! c) → Exists (NewSet (Columns sel)) c = true ↔ c ∈ Columns sel).
  { intros Hn. apply (Exists_NewSet U); auto. }
  assert (Ho : is_Some (s_Schema new !! c) → Exists (NewSet (ColumnNames (s_Schema old))) c = true ↔ is_Some (s_Schema old !! c)).
  { intros Hn. rewrite (Exists_NewSet U); auto using elem_of_ColumnNames. intros x ?%elem_of_ColumnNames. auto. }
  assert (Hiff : ∀ p, s_Schema new !! c = Some p →
    OlakeColumn p || Exists (NewSet (Columns sel)) c || SyncNewColumns sel && negb (Exists (NewSet (ColumnNames (s_Schema old))) c) = true
    ↔ (OlakeColumn p = true ∨ c ∈ Columns sel ∨ (SyncNewColumns sel = true ∧ s_Schema old !! c = None))).
  { intros p Hp. assert (is_Some (s_Schema new !! c)) as Hn by (by exists p).
    rewrite !orb_true_iff, andb_true_iff, negb_true_iff, (Hc Hn), <- not_true_iff_false, (Ho Hn), <- eq_None_not_Some. tauto. }
  split.
  - intros ([k p] & Hin%elem_of_range & Hk). simpl in Hk. destruct (_ || _) eqn:E; [|done]. simplify_eq.
    exists p. split; [done|]. by apply Hiff.
  - intros (p & Hp & Hok). exists (c, p). split; [by apply elem_of_range|]. simpl. by rewrite (proj2 (Hiff p Hp) Hok).
Qed.

(** Re-discovery respects the user's column selection.  With a previous non-empty
    selection, the merged one holds exactly the columns of the new schema that were
    selected before, are OLake's own, or (with sync_new_columns) did not exist in the
    old schema: nothing deselected comes back, and nothing outside the new schema
    survives.  Without a previous selection every column of the new schema is selected.
    The sync_new_columns flag and the rest of the metadata are kept. *)
Theorem merged_selection_exact U metadata old new c :
  collision_free U None →
  (∀ x, (∃ sel, m_SelectedColumns metadata = Some sel ∧ x ∈ Columns sel) ∨ is_Some (s_Schema old !! x) ∨ is_Some (s_Schema new !! x) → U x) →
  ∃ sel', m_SelectedColumns (MergeSelectedColumns metadata old new) = Some sel'
  ∧ SyncNewColumns sel' = match m_SelectedColumns metadata with Some sel => SyncNewColumns sel | None => true end
  ∧ set_m_SelectedColumns (m_SelectedColumns metadata) (MergeSelectedColumns metadata old new) = metadata
  ∧ match m_SelectedColumns metadata with
    | Some (mkSelected ((_ :: _) as cols) sync) =>
        c ∈ Columns sel' ↔ ∃ p, s_Schema new !! c = Some p
                            ∧ (OlakeColumn p = true ∨ c ∈ cols ∨ (sync = true ∧ s_Schema old !! c = None))
    | _ => c ∈ Columns sel' ↔ is_Some (s_Schema new !! c)
    end.
Proof.
  intros Hcf HU. eexists. split; [reflexivity|]. split; [done|]. split; [by destruct metadata|].
  destruct (m_SelectedColumns metadata) as [[[|c0 cols] sync]|]; cbn [Columns].
  - apply elem_of_ColumnNames.
  - apply (merged_columns_elem U (mkSelected (c0 :: cols) sync) old new c); [done|]. naive_solver.
  - apply elem_of_ColumnNames.
Qed.

(** ** Merging catalogs *)
Section Merge.
Context (oldStreams newStreams : gmap string ConfiguredStream) (engines : list QueryEngine).

(** The merged metadata of a selected stream that still exists. *)
Definition merged_entry (ns : string) (md : StreamMetadata) : option StreamMetadata :=
  n ← newStreams !! selected_id ns (StreamName md);
  o ← oldStreams !! selected_id ns (StreamName md);
  Some (mergeUpdateType (MergeSelectedColumns md (StreamOf o) (StreamOf n)) engines).

Definition mergeable (ns : string) (md : StreamMetadata) : Prop :=
  is_Some (newStreams !! selected_id ns (StreamName md)) → is_Some (oldStreams !! selected_id ns (StreamName md)).

#[local] Instance mergeable_dec ns md : Decision (mergeable ns md).
Proof. unfold mergeable. apply _. Defined.

Abbreviation at_ns acc ns := (default [] (acc !! ns)).

Lemma append_at_same {A} k (v : A) m : default [] (append_at k v m !! k) = default [] (m !! k) ++ [v].
Proof. unfold append_at. by rewrite lookup_insert_eq. Qed.
Lemma append_at_ne {A} k k' (v : A) m : k ≠ k' → append_at k v m !! k' = m !! k'.
Proof. intros. unfold append_at. by rewrite lookup_insert_ne. Qed.

Lemma merge_ns ns l acc :
  (Forall (mergeable ns) l →
     ∃ acc', foldM (merge_selected oldStreams newStreams engines ns) acc l = Ok acc'
     ∧ at_ns acc' ns = at_ns acc ns ++ omap (merged_entry ns) l ∧ ∀ k, k ≠ ns → acc' !! k = acc !! k)
  ∧ (¬ Forall (mergeable ns) l → ¬ ∃ acc', foldM (merge_selected oldStreams newStreams engines ns) acc l = Ok acc').
Proof.
  revert acc. induction l as [|md l IH]; intros acc; cbn [foldM omap list_omap].
  { split; [|by intros []]. intros _. exists acc. by rewrite app_nil_r. }
  rewrite Forall_cons. unfold merge_selected at 1 3, merged_entry at 1, mergeable at 1 3.
  destruct (newStreams !! _) as [n|] eqn:En; simpl.
  2:{ destruct (IH acc) as [IH1 IH2]. split; [intros [_ Hf]; by apply IH1|].
      intros Hn. apply IH2. intros Hf. apply Hn. split; [by intros [? ?]|done]. }
  destruct (oldStreams !! _) as [o|] eqn:Eo; simpl.
  - destruct (IH (append_at ns (mergeUpdateType (MergeSelectedColumns md (StreamOf o) (StreamOf n)) engines) acc)) as [IH1 IH2].
    split.
    + intros [_ Hf]. destruct (IH1 Hf) as (acc' & Hok & Hat & Hne). exists acc'. split_and!; [done| |].
      * by rewrite Hat, append_at_same, <- app_assoc.
      * intros k Hk. by rewrite (Hne k Hk), append_at_ne.
    + intros Hn. apply IH2. intros Hf. apply Hn. split; [by eexists|done].
  - split; [|by intros _ [? ?]]. intros [Hm _]. destruct Hm as [? ?]; [by eexists|done].
Qed.

Abbreviation merge_all acc l :=
  (foldM (λ acc kv, foldM (merge_selected oldStreams newStreams engines kv.1) acc kv.2) acc l).

Lemma merge_namespaces (l : list (string * list StreamMetadata)) acc :
  NoDup l.*1 →
  (Forall (λ kv, Forall (mergeable kv.1) kv.2) l →
     ∃ acc', merge_all acc l = Ok acc'
     ∧ (∀ ns mds, (ns, mds) ∈ l → at_ns acc' ns = at_ns acc ns ++ omap (merged_entry ns) mds)
     ∧ ∀ ns, ns ∉ l.*1 → acc' !! ns = acc !! ns)
  ∧ (¬ Forall (λ kv, Forall (mergeable kv.1) kv.2) l → ¬ ∃ acc', merge_all acc l = Ok acc').
Proof.
  revert acc. induction l as [|[ns mds] l IH]; intros acc Hnd; cbn [foldM fst snd].
  { split; [|by intros []]. intros _. exists acc. split_and!; [done| |done]. intros ? ? Hin. by apply elem_of_nil in Hin. }
  cbn [fmap list_fmap fst] in Hnd. apply NoDup_cons in Hnd as [Hfresh Hnd]. rewrite Forall_cons. cbn [fst snd].
  destruct (merge_ns ns mds acc) as [H1 H2]. split.
  - intros [Hm Hl]. destruct (H1 Hm) as (acc1 & -> & Hat & Hne).
    destruct (IH acc1 Hnd) as [IH1 _]. destruct (IH1 Hl) as (acc' & Hok & Hin & Hout). exists acc'. split_and!; [done| |].
    + intros ns' mds' [[= -> ->]|Hx]%elem_of_cons; [by rewrite Hout|].
      rewrite (Hin _ _ Hx), Hne; [done|]. intros ->. apply Hfresh. apply list_elem_of_fmap. by exists (ns, mds').
    + intros ns' Hn. apply not_elem_of_cons in Hn as [Hn1 Hn2]. by rewrite Hout, Hne.
  - intros Hn [acc' Hok].
    destruct (foldM (merge_selected oldStreams newStreams engines ns) acc mds) as [acc1| |] eqn:E1; [|done..].
    destruct (IH acc1 Hnd) as [_ IH2]. apply IH2; [|by eexists]. intros Hl. apply Hn. split; [|done].
    apply dec_stable. intros Hm. apply (H2 Hm). by eexists.
Qed.
End Merge.

Abbreviation at_ns acc ns := (default [] (acc !! ns)).

(** The merge of a selection has no outcome but success and the nil dereference. *)
Lemma merge_fails oldMap newMap engines l acc :
  match foldM (λ acc kv, foldM (merge_selected oldMap newMap engines kv.1) acc kv.2) acc l with
  | Ok _ => True | Err _ => False | Panic p => p = "nil pointer dereference" end.
Proof.
  revert acc. induction l as [|[ns mds] l IH]; intros acc; cbn [foldM fst snd]; [done|].
  assert (Hns : ∀ acc, match foldM (merge_selected oldMap newMap engines ns) acc mds with
    | Ok _ => True | Err _ => False | Panic p => p = "nil pointer dereference" end).
  { induction mds as [|md mds IHm]; intros acc'; cbn [foldM]; [done|]. unfold merge_selected at 1.
    destruct (newMap !! _); [|apply IHm]. destruct (oldMap !! _); [apply IHm|done]. }
  specialize (Hns acc). destruct (foldM _ acc mds); [apply IH|done..].
Qed.

Lemma selection_mergeable oldMap newMap (sel : gmap string (list StreamMetadata)) :
  Forall (λ kv, Forall (mergeable oldMap newMap kv.1) kv.2) (range sel)
  ↔ ∀ ns mds md, sel !! ns = Some mds → md ∈ mds → mergeable oldMap newMap ns md.
Proof.
  rewrite Forall_forall. split.
  - intros Hf ns mds md Hs Hm. apply elem_of_range in Hs. specialize (Hf _ Hs). rewrite Forall_forall in Hf. by apply Hf.
  - intros Hf [ns mds] Hs%elem_of_range. apply Forall_forall. intros md. by apply Hf.
Qed.

Lemma merge_stream_ID old n : ID (merge_stream old n) = ID n.
Proof.
  unfold merge_stream. destruct (createStreamMap old !! ID n); [|by destruct (getDestDBPrefix old)].
  unfold ID, Stream_ID. simpl. by destruct (String.eqb _ _).
Qed.

(** What the merge of a discovered stream [n] with the stream [o] of the same id in the old
    catalog gives: the sync mode, cursor, destination and primary key configured before,
    everything else as discovered. *)
Record merged_known (n o m : Stream) : Prop := {
  mk_mode : s_SyncMode m = s_SyncMode o;
  mk_cursor : s_CursorField m = if String.eqb (s_CursorField o) "" then s_CursorField n else s_CursorField o;
  mk_database : s_DestinationDatabase m = s_DestinationDatabase o;
  mk_table : s_DestinationTable m = s_DestinationTable o;
  mk_key : s_SourceDefinedPrimaryKey m = s_SourceDefinedPrimaryKey o;
  mk_name : s_Name m = s_Name n;
  mk_namespace : s_Namespace m = s_Namespace n;
  mk_schema : s_Schema m = s_Schema n;
  mk_modes : s_SupportedSyncModes m = s_SupportedSyncModes n;
  mk_updates : s_AvailableUpdateTypes m = s_AvailableUpdateTypes n;
  mk_cursors : s_AvailableCursorFields m = s_AvailableCursorFields n;
  mk_additional : s_AdditionalProperties m = s_AdditionalProperties n;
  mk_defaults : s_DefaultStreamProperties m = s_DefaultStreamProperties n
}.

(** The part of a destination database before the first colon. *)
Definition database_prefix (s : ConfiguredStream) : string := hd "" (Split ":" (s_DestinationDatabase (StreamOf s))).

(** What the merge gives for a stream the old catalog did not have: the discovered stream,
    but in the database all old streams share, or with the prefix they share. *)
Definition merged_new (old : list ConfiguredStream) (n m : Stream) : Prop :=
  ∃ db, m = set_Destination db (s_DestinationTable n) n
  ∧ match old with
    | [] => db = s_DestinationDatabase n
    | o :: _ =>
        ((∃ o', o' ∈ old ∧ database_prefix o' ≠ database_prefix o) → db = s_DestinationDatabase n)
        ∧ ((∀ o', o' ∈ old → database_prefix o' = database_prefix o) →
           if bool_decide (length (Split ":" (s_DestinationDatabase (StreamOf o))) = 1%nat) then db = s_DestinationDatabase (StreamOf o)
           else if String.eqb (database_prefix o) "" then db = s_DestinationDatabase n
           else db = database_prefix o +:+ ":" +:+ Reformat (s_Namespace n))
    end.

Lemma merge_stream_known old n o :
  createStreamMap old !! ID n = Some o → merged_known (StreamOf n) (StreamOf o) (StreamOf (merge_stream old n)).
Proof. intros Ho. unfold merge_stream. rewrite Ho. destruct (String.eqb (s_CursorField (StreamOf o)) "") eqn:E; by split; cbn; rewrite ?E. Qed.

Lemma merge_stream_new old n :
  createStreamMap old !! ID n = None → merged_new old (StreamOf n) (StreamOf (merge_stream old n)).
Proof.
  intros Ho. unfold merge_stream, merged_new. rewrite Ho. unfold getDestDBPrefix.
  destruct old as [|o old]; [cbn; by eexists|]. fold (database_prefix o).
  change (λ s, String.eqb _ (database_prefix o)) with (λ s, String.eqb (database_prefix s) (database_prefix o)).
  destruct (forallb _ (o :: old)) eqn:Ef; cbn beta iota; cbn [StreamOf].
  - eexists. split; [reflexivity|].
    assert (Hall : ∀ o', o' ∈ o :: old → database_prefix o' = database_prefix o).
    { intros o' Hin. rewrite forallb_forall in Ef. apply String.eqb_eq, Ef. by apply list_elem_of_In. }
    split; [intros (o' & Hin & Hne); by destruct Hne; apply Hall|]. intros _. case_bool_decide; [done|].
    by destruct (String.eqb (database_prefix o) "").
  - eexists. split; [reflexivity|]. split; [by rewrite String.eqb_refl|]. intros Hall.
    rewrite (proj2 (forallb_forall _ _)) in Ef; [done|]. intros o' Hin. apply String.eqb_eq, Hall. by apply list_elem_of_In.
Qed.

(** C27: what merging a fresh discovery into an older catalog gives.  Without an older
    catalog it is the discovery.  With one, the merge panics exactly when some selected
    stream that still exists is missing from the older list of streams (a nil
    dereference).  Otherwise the streams are the discovered ones, in order: a stream the
    older catalog has keeps the sync mode, cursor (if one was set), destination and
    primary key configured there and takes everything else from the discovery, a new
    stream is as discovered except that it goes to the database, or takes the database
    prefix, that all old streams share.  If the older catalog has a selection, the result
    selects per namespace, in order, those of its streams that still exist, each with its
    columns and delete format merged, and no other; if it has none, the selection is that
    of the discovery. *)
Theorem merge_keeps_configuration old new engines :
  let oldMap := createStreamMap (Streams old) in
  let newMap := createStreamMap (Streams new) in
  mergeCatalogs None new engines = Ok new
  ∧ ((∃ merged, mergeCatalogs (Some old) new engines = Ok merged)
     ↔ ∀ sel ns mds md, SelectedStreams old = Some sel → sel !! ns = Some mds → md ∈ mds → mergeable oldMap newMap ns md)
  ∧ ((¬ ∃ merged, mergeCatalogs (Some old) new engines = Ok merged) →
     mergeCatalogs (Some old) new engines = Panic "nil pointer dereference")
  ∧ ∀ merged, mergeCatalogs (Some old) new engines = Ok merged →
      match SelectedStreams old with
      | None => SelectedStreams merged = SelectedStreams new
      | Some sel => ∃ sel', SelectedStreams merged = Some sel'
         ∧ ∀ ns, at_ns sel' ns = omap (merged_entry oldMap newMap engines ns) (at_ns sel ns)
      end
      ∧ Forall2 (λ n m, ID m = ID n ∧ Metadata m = Metadata n
           ∧ match oldMap !! ID n with
             | Some o => merged_known (StreamOf n) (StreamOf o) (StreamOf m)
             | None => merged_new (Streams old) (StreamOf n) (StreamOf m)
             end) (Streams new) (Streams merged).
Proof.
  intros oldMap newMap. split; [done|].
  assert (Hstreams : ∀ sel, Forall2 (λ n m, ID m = ID n ∧ Metadata m = Metadata n
           ∧ match oldMap !! ID n with
             | Some o => merged_known (StreamOf n) (StreamOf o) (StreamOf m)
             | None => merged_new (Streams old) (StreamOf n) (StreamOf m)
             end) (Streams new) (Streams (mkCatalog sel (merge_stream (Streams old) <$> Streams new)))).
  { intros sel. cbn [Streams]. apply Forall2_fmap_r, Forall_Forall2_diag, Forall_forall. intros n _.
    split; [apply merge_stream_ID|]. split.
    - unfold merge_stream. destruct (_ !! ID n); [done|]. by destruct (getDestDBPrefix _).
    - destruct (oldMap !! ID n) eqn:Eo; [by apply merge_stream_known|by apply merge_stream_new]. }
  unfold mergeCatalogs. fold oldMap newMap. destruct (SelectedStreams old) as [sel|]; cbn.
  2:{ split_and!; [by split; [|by eexists]|intros []; by eexists|]. intros merged [= <-]. by split. }
  destruct (merge_namespaces oldMap newMap engines (range sel) ∅ (range_NoDup_keys sel)) as [H1 H2].
  pose proof (selection_mergeable oldMap newMap sel) as Hall.
  assert (Hall' : Forall (λ kv, Forall (mergeable oldMap newMap kv.1) kv.2) (range sel)
    ↔ ∀ sel0 ns mds md, Some sel = Some sel0 → sel0 !! ns = Some mds → md ∈ mds → mergeable oldMap newMap ns md).
  { rewrite Hall. split; [by intros Hf ? ? ? ? [= <-]; apply Hf|]. intros Hf ? ? ?. by apply Hf. }
  rewrite <- Hall'. pose proof (merge_fails oldMap newMap engines (range sel) ∅) as Hfail.
  destruct (foldM _ ∅ (range sel)) as [acc| |] eqn:E; cbn.
  - assert (Hf : Forall (λ kv, Forall (mergeable oldMap newMap kv.1) kv.2) (range sel)).
    { apply dec_stable. intros Hn. apply (H2 Hn). by eexists. }
    split_and!; [by split; [|by eexists]|intros []; by eexists|]. intros merged [= <-].
    destruct (H1 Hf) as (acc' & [= <-] & Hin & Hout). split; [|apply Hstreams].
    exists acc. split; [done|]. intros ns. destruct (sel !! ns) as [mds|] eqn:Es.
    + rewrite (Hin ns mds) by (by apply elem_of_range). by rewrite lookup_empty.
    + rewrite Hout; [by rewrite lookup_empty|]. intros ([k v] & -> & Hk%elem_of_range)%list_elem_of_fmap. simpl in Es. congruence.
  - done.
  - subst. split_and!; [|done..]. split; [by intros []|]. intros Hf.
    destruct (H1 Hf) as (? & ? & _). done.
Qed.

(** ** Delete formats *)
Lemma mergeUpdateType_cases md engines :
  m_UpdateType (mergeUpdateType md engines) = "" ∨
  (m_UpdateType (mergeUpdateType md engines) = effective_update_type md
   ∧ (engines = [] ∨ effective_update_type md ∈ AvailableUpdateTypes engines)).
Proof.
  unfold mergeUpdateType, effective_update_type, Ternary.
  destruct (String.eqb (m_UpdateType md) ""); destruct engines as [|e es]; simpl; auto; destruct (contains _ _) eqn:E; auto;
    right; (split; [done|]); right; by apply contains_true in E.
Qed.

(** C29: a stream that passes validation never writes a delete format some target engine
    cannot read.  For engines accepted by discover, and a stream whose available formats
    were computed from them (whether freshly discovered or merged into an older catalog),
    validation of a stream that writes deletes implies every target engine reads the
    format actually used; merging never keeps an unreadable choice; and the default
    format of a fresh catalog is readable. *)
Theorem validated_delete_format_readable values engines s driver md :
  resolveTargetQueryEngines values = Ok engines → engines ≠ [] →
  s_AvailableUpdateTypes (StreamOf s) = AvailableUpdateTypes engines →
  (AppendMode (Metadata s) = false → ValidateUpdateType s = Ok tt →
     GetUpdateType s ∈ writableUpdateTypes ∧ ∀ e, e ∈ engines → reads e (GetUpdateType s))
  ∧ (m_UpdateType (mergeUpdateType md engines) ≠ "" → ∀ e, e ∈ engines → reads e (m_UpdateType (mergeUpdateType md engines)))
  ∧ (∀ e, e ∈ engines → reads e (default_update_type driver (AvailableUpdateTypes engines))).
Proof.
  intros Hr Hne Hav. assert (AvailableUpdateTypes engines ≠ []) as Hnon.
  { unfold resolveTargetQueryEngines in Hr. destruct (ParseQueryEngines values) as [es| |]; [|done..]. simpl in Hr.
    destruct (_ && _) eqn:E; [done|]. simplify_eq. intros Hnil. rewrite Hnil in E. destruct engines; [done|].
    simpl in E. lia. }
  split_and!.
  - intros Happ. unfold ValidateUpdateType. rewrite Happ, Hav. destruct (String.eqb _ "" && _); [done|].
    unfold ValidateAgainst, Validate_UpdateType. destruct (contains writableUpdateTypes (GetUpdateType s)) eqn:Ew; [|done].
    simpl. rewrite bool_decide_eq_true_2 by done. destruct (contains (AvailableUpdateTypes engines) _) eqn:Ea; [|done].
    intros _. by apply contains_true, AvailableUpdateTypes_elem in Ea.
  - intros Hn e He. destruct (mergeUpdateType_cases md engines) as [|[-> [->|Ha]]]; [done..|].
    apply AvailableUpdateTypes_elem in Ha as [_ Ha]. auto.
  - intros e He. unfold default_update_type. destruct (String.eqb driver Kafka && _) eqn:E.
    + apply andb_true_iff in E as [_ E%contains_true%AvailableUpdateTypes_elem]. by apply E.
    + destruct (AvailableUpdateTypes engines) as [|u us] eqn:Ea; [done|]. simpl.
      assert (u ∈ AvailableUpdateTypes engines) as Hu by (rewrite Ea; left). apply AvailableUpdateTypes_elem in Hu as [_ Hu]. auto.
Qed.

(** ** Deltas *)
Lemma delta_fold old new l diff sel :
  SelectedStreams diff = Some sel →
  Streams (foldl (delta_step old new) diff l) = Streams diff ++ (omap (delta_entry old new) l).*1
  ∧ ∃ sel', SelectedStreams (foldl (delta_step old new) diff l) = Some sel'
      ∧ ∀ ns, at_ns sel' ns = at_ns sel ns ++ (omap (delta_entry old new) (filter (λ nm, nm.1 = ns) l)).*2.
Proof.
  revert diff sel. induction l as [|[ns md] l IH]; intros diff sel Hsel; cbn [foldl].
  { rewrite app_nil_r. split; [done|]. exists sel. split; [done|]. intros ns. by rewrite app_nil_r. }
  destruct (delta_entry old new (ns, md)) as [[st md']|] eqn:E.
  - assert (delta_step old new diff (ns, md) = mkCatalog (Some (append_at ns md' sel)) (Streams diff ++ [st])) as ->
      by (unfold delta_step; rewrite E; cbn [fst]; by rewrite Hsel).
    destruct (IH (mkCatalog (Some (append_at ns md' sel)) (Streams diff ++ [st])) (append_at ns md' sel) eq_refl) as (H1 & sel' & H2 & H3).
    split; [rewrite H1; cbn [omap list_omap Streams]; rewrite E; cbn [fmap list_fmap fst]; by rewrite <- app_assoc|].
    exists sel'. split; [done|]. intros k. rewrite H3, filter_cons. cbn [fst]. case_decide as Hk.
    + subst k. rewrite append_at_same. cbn [omap list_omap]. rewrite E. cbn [fmap list_fmap snd]. by rewrite <- app_assoc.
    + by rewrite append_at_ne by congruence.
  - assert (delta_step old new diff (ns, md) = diff) as -> by (unfold delta_step; by rewrite E).
    destruct (IH diff sel Hsel) as (H1 & sel' & H2 & H3). split; [rewrite H1; cbn [omap list_omap]; by rewrite E|].
    exists sel'. split; [done|]. intros k. rewrite H3, filter_cons. cbn [fst]. case_decide; [|done]. cbn [omap list_omap]. by rewrite E.
Qed.

Lemma strings_equal (l k : option (list string)) : slice_equal String.eqb l k = true ↔ l = k.
Proof.
  assert (Hl : ∀ l k, list_equal String.eqb l k = true ↔ l = k).
  { clear. induction l as [|x l IH]; intros [|y k]; simpl; [done..|].
    rewrite andb_true_iff, String.eqb_eq, IH. naive_solver. }
  destruct l, k; simpl; rewrite ?Hl; naive_solver.
Qed.

(** What must agree for the destination table to be kept. *)
Record same_configuration (om m : StreamMetadata) (o n : Stream) : Prop := {
  sc_normalization : Normalization om = Normalization m;
  sc_partition : PartitionRegex om = PartitionRegex m;
  sc_filter : m_Filter om = m_Filter m;
  sc_names : UseSourceColumnNames om = UseSourceColumnNames m;
  sc_filter_config : filter_equal (m_FilterConfig om) (m_FilterConfig m) = true;
  sc_append : AppendMode om = AppendMode m;
  sc_dedup : DedupKeys om = DedupKeys m;
  sc_mode : s_SyncMode o = s_SyncMode n;
  sc_database : s_DestinationDatabase o = s_DestinationDatabase n;
  sc_table : s_DestinationTable o = s_DestinationTable n;
  sc_cursor : s_SyncMode n = INCREMENTAL → s_CursorField o = s_CursorField n;
  sc_leaves_dv : effective_update_type om = UpdateTypeDeletionVector → effective_update_type m = UpdateTypeDeletionVector;
  sc_pos_to_dv : effective_update_type om = UpdateTypePosition → effective_update_type m ≠ UpdateTypeDeletionVector
}.

Lemma isDifferent_false om m o n : isDifferent om m o n = false ↔ same_configuration om m o n.
Proof.
  unfold isDifferent. cbv zeta. rewrite !orb_false_iff, !negb_false_iff, !andb_false_iff, !negb_false_iff, !Bool.eqb_true_iff, !String.eqb_eq, strings_equal.
  rewrite !String.eqb_neq. unfold Ternary at 1. split.
  - intros (((((((((((? & ?) & ?) & ?) & ?) & ?) & ?) & ?) & ?) & ?) & Hc) & [Hd1 Hd2]). split; try done.
    + intros Hi. rewrite Hi in Hc. simpl in Hc. apply negb_false_iff, String.eqb_eq in Hc. done.
    + intros Hd. by destruct Hd1.
    + intros Hd. by destruct Hd2.
  - intros []. split_and!; try done.
    + destruct (String.eqb_spec (s_SyncMode n) INCREMENTAL); [|done]. rewrite sc_cursor0 by done. by rewrite String.eqb_refl.
    + destruct (decide (effective_update_type om = UpdateTypeDeletionVector)); auto.
    + destruct (decide (effective_update_type om = UpdateTypePosition)); auto.
Qed.

Abbreviation entry_id nm := (selected_id nm.1 (StreamName nm.2)).

Lemma oldSelectedMap_unique c nm :
  NoDup ((λ nm, entry_id nm) <$> selected_entries c) → nm ∈ selected_entries c → oldSelectedMap c !! entry_id nm = Some nm.2.
Proof.
  unfold oldSelectedMap. generalize (selected_entries c). intros l.
  assert (Hfold : ∀ (acc : gmap string StreamMetadata), NoDup ((λ nm, entry_id nm) <$> l) →
    (∀ nm, nm ∈ l → foldl (λ acc nm, <[entry_id nm := nm.2]> acc) acc l !! entry_id nm = Some nm.2)
    ∧ ∀ k, k ∉ ((λ nm, entry_id nm) <$> l) → foldl (λ acc nm, <[entry_id nm := nm.2]> acc) acc l !! k = acc !! k).
  { induction l as [|x l IH]; intros acc; [intros _; split; [|done]; intros ? Hin; by apply elem_of_nil in Hin|].
    intros [Hx Hnd]%NoDup_cons. cbn [foldl]. destruct (IH (<[entry_id x := x.2]> acc) Hnd) as [IH1 IH2]. split.
    - intros nm' [->|Hin]%elem_of_cons; [|by apply IH1]. rewrite IH2 by done. by rewrite lookup_insert_eq.
    - intros k Hk. cbn [fmap list_fmap] in Hk. apply not_elem_of_cons in Hk as [Hk1 Hk2]. rewrite IH2 by done. by rewrite lookup_insert_ne. }
  intros Hnd Hin. by apply Hfold.
Qed.

Lemma filter_all_false {A} (P : A → Prop) `{∀ x, Decision (P x)} {B} (f : A → option B) l :
  (∀ x, x ∈ l → f x = None) → omap f (filter P l) = [].
Proof.
  induction l as [|x l IH]; intros Hf; [done|]. rewrite filter_cons. case_decide.
  - simpl. rewrite Hf by left. apply IH. intros; apply Hf; by right.
  - apply IH. intros; apply Hf; by right.
Qed.

(** What a selected entry of the new catalog contributes to the comparison. *)
Inductive delta_spec (old new : Catalog) (nm : string * StreamMetadata) : option (ConfiguredStream * StreamMetadata) → Prop :=
| delta_unknown :
    createStreamMap (Streams new) !! entry_id nm = None → delta_spec old new nm None
| delta_new n :
    createStreamMap (Streams new) !! entry_id nm = Some n →
    oldSelectedMap old !! entry_id nm = None ∨ createStreamMap (Streams old) !! entry_id nm = None →
    delta_spec old new nm (Some (n, nm.2))
| delta_same n om o :
    createStreamMap (Streams new) !! entry_id nm = Some n →
    oldSelectedMap old !! entry_id nm = Some om → createStreamMap (Streams old) !! entry_id nm = Some o →
    same_configuration om nm.2 (StreamOf o) (StreamOf n) → delta_spec old new nm None
| delta_changed n om o :
    createStreamMap (Streams new) !! entry_id nm = Some n →
    oldSelectedMap old !! entry_id nm = Some om → createStreamMap (Streams old) !! entry_id nm = Some o →
    ¬ same_configuration om nm.2 (StreamOf o) (StreamOf n) →
    delta_spec old new nm
      (Some (Wrap (set_Destination (s_DestinationDatabase (StreamOf o)) (s_DestinationTable (StreamOf o)) (StreamOf n)), nm.2)).

Lemma delta_entry_spec old new nm : delta_spec old new nm (delta_entry old new nm).
Proof.
  destruct nm as [ns md]. unfold delta_entry.
  destruct (createStreamMap (Streams new) !! _) as [n|] eqn:En; [|by apply delta_unknown].
  destruct (oldSelectedMap old !! _) as [om|] eqn:Em; [|apply (delta_new old new (ns, md)); auto].
  destruct (createStreamMap (Streams old) !! _) as [o|] eqn:Eo; [|apply (delta_new old new (ns, md)); auto].
  destruct (isDifferent om md (StreamOf o) (StreamOf n)) eqn:E.
  - apply (delta_changed old new (ns, md) n om o En Em Eo). intros Hs%isDifferent_false. cbn [snd] in Hs. congruence.
  - apply (delta_same old new (ns, md) n om o En Em Eo). by apply isDifferent_false.
Qed.

Lemma delta_entry_self c nm :
  NoDup ((λ nm, entry_id nm) <$> selected_entries c) → nm ∈ selected_entries c →
  filter_equal (m_FilterConfig nm.2) (m_FilterConfig nm.2) = true → delta_entry c c nm = None.
Proof.
  intros Hnd Hin Hrefl. destruct nm as [ns md]. unfold delta_entry. destruct (createStreamMap (Streams c) !! _) as [n|] eqn:En; [|done].
  pose proof (oldSelectedMap_unique c (ns, md) Hnd Hin) as Hold. cbn [fst snd] in Hold. rewrite Hold.
  rewrite (proj2 (isDifferent_false _ _ _ _)); [done|]. split; try done. by intros ->.
Qed.

(** C28: the catalog comparison reports exactly the selected streams whose table can no
    longer be kept or that are new.  There is one outcome per selected entry of the new
    catalog: nothing for an entry without stream in the new catalog; the stream itself
    when the old catalog did not select it or does not list it; nothing when all settings
    that shape the table agree with the old ones (the delete-format transitions that keep
    the table included); and otherwise the stream, pointing at its old destination.  The
    result lists the reported streams and, per namespace, the reported selections, in the
    order of the entries.  Comparing a catalog with itself reports nothing when no stream
    is selected twice and every filter equals itself. *)
Theorem streams_delta_exact old new :
  (∃ outcomes sel, Forall2 (delta_spec old new) (selected_entries new) outcomes
     ∧ Streams (GetStreamsDelta old new) = (omap id outcomes).*1
     ∧ SelectedStreams (GetStreamsDelta old new) = Some sel
     ∧ ∀ ns, at_ns sel ns = omap (λ '(nm, out), if decide (nm.1 = ns) then snd <$> out else None) (zip (selected_entries new) outcomes))
  ∧ (NoDup ((λ nm, entry_id nm) <$> selected_entries new) →
     (∀ nm, nm ∈ selected_entries new → filter_equal (m_FilterConfig nm.2) (m_FilterConfig nm.2) = true) →
     Streams (GetStreamsDelta new new) = [] ∧ ∃ sel, SelectedStreams (GetStreamsDelta new new) = Some sel ∧ ∀ ns, at_ns sel ns = []).
Proof.
  split.
  - destruct (delta_fold old new (selected_entries new) (mkCatalog (Some ∅) []) ∅ eq_refl) as [H1 (sel & H2 & H3)].
    exists (delta_entry old new <$> selected_entries new), sel. split_and!; [| |done|].
    + apply Forall2_fmap_r, Forall_Forall2_diag, Forall_forall. intros nm _. apply delta_entry_spec.
    + unfold GetStreamsDelta. rewrite H1. cbn [Streams app]. f_equal. clear.
      induction (selected_entries new) as [|nm l IH]; [done|]. cbn.
      destruct (delta_entry old new nm); cbn; [exact (f_equal _ IH)|exact IH].
    + intros ns. rewrite H3, lookup_empty. cbn [default app]. clear.
      induction (selected_entries new) as [|nm l IH]; [done|]. rewrite filter_cons. cbn.
      destruct (decide (nm.1 = ns)); cbn.
      all: destruct (delta_entry old new nm) as [[]|]; cbn; first [exact (f_equal _ IH) | exact IH].
  - intros Hnd Hrefl.
    assert (Hnone : ∀ nm, nm ∈ selected_entries new → delta_entry new new nm = None) by (intros; apply delta_entry_self; auto).
    destruct (delta_fold new new (selected_entries new) (mkCatalog (Some ∅) []) ∅ eq_refl) as [H1 (sel & H2 & H3)].
    split.
    + unfold GetStreamsDelta. rewrite H1. rewrite <- (filter_all (λ _, True) (selected_entries new)) by (by apply Forall_true).
      by rewrite filter_all_false.
    + exists sel. split; [done|]. intros ns. rewrite H3, filter_all_false by done. by rewrite lookup_empty.
Qed.

End Facts.

(** ** Witnesses *)
Section Witnesses.
#[local] Instance w_hash : GoHash string := encode_hash "".
#[local] Instance w_range : GoRange := sorted_range.

Definition old_users : ConfiguredStream := demo_stream ["Id"; "Name"] true.
Definition new_users : ConfiguredStream :=
  mkConfigured (Metadata old_users)
    (set_Schema (<["Email" := mkProperty (mkGoSet ∅ ∅ None) "" false]> (s_Schema (StreamOf old_users)))
       (set_AvailableUpdateTypes ["pos"] (StreamOf old_users))).
Definition old_catalog : Catalog := mkCatalog (Some {["public" := [Metadata old_users]]}) [old_users].
Definition new_catalog : Catalog := mkCatalog (Some ∅) [new_users].

Lemma merged_selection_exact_witness :
  ∃ sel', m_SelectedColumns (MergeSelectedColumns (Metadata old_users) (StreamOf old_users) (StreamOf new_users)) = Some sel'
  ∧ "Email" ∈ Columns sel' ∧ "Secret" ∉ Columns sel'.
Proof.
  destruct (merged_selection_exact (λ _, True) (Metadata old_users) (StreamOf old_users) (StreamOf new_users) "Email")
    as (sel & Hsel & _ & _ & Hin); [apply encode_hash_cf|done|].
  destruct (merged_selection_exact (λ _, True) (Metadata old_users) (StreamOf old_users) (StreamOf new_users) "Secret")
    as (sel2 & Hsel2 & _ & _ & Hin2); [apply encode_hash_cf|done|].
  exists sel. split; [done|]. simplify_eq. split.
  - apply Hin. eexists. split; [reflexivity|]. right. right. split; reflexivity.
  - intros (p & Hp & [Ho|[Hc|[_ Hn]]])%Hin2.
    + vm_compute in Hp. injection Hp as <-. discriminate.
    + revert Hc. by_decide.
    + vm_compute in Hn. discriminate.
Defined.

Lemma merge_keeps_configuration_witness :
  ∃ merged, mergeCatalogs (Some old_catalog) new_catalog ["dremio"] = Ok merged
  ∧ ∀ n m, Streams new_catalog = [n] → Streams merged = [m] → merged_known (StreamOf n) (StreamOf old_users) (StreamOf m).
Proof.
  destruct (merge_keeps_configuration old_catalog new_catalog ["dremio"]) as (_ & Hok & _ & Hm).
  destruct (proj2 Hok) as [merged Hmerged].
  - intros sel ns mds md [= <-] Hs Hin _. apply lookup_singleton_Some in Hs as [<- <-].
    apply list_elem_of_singleton in Hin as ->. exists old_users. vm_compute. reflexivity.
  - exists merged. split; [exact Hmerged|]. intros n m Hn Hs. destruct (Hm merged Hmerged) as [_ H2]. rewrite Hn, Hs in H2.
    inversion_clear H2 as [|? ? ? ? (_ & _ & Hk) _]. injection Hn as <-. exact Hk.
Defined.

Lemma validated_delete_format_readable_witness :
  reads "dremio" (default_update_type MySQL (AvailableUpdateTypes ["dremio"])).
Proof.
  apply (validated_delete_format_readable ["Dremio "] ["dremio"] new_users MySQL (Metadata new_users)).
  - vm_compute. reflexivity.
  - discriminate.
  - vm_compute. reflexivity.
  - constructor.
Defined.

Lemma streams_delta_exact_witness : Streams (GetStreamsDelta old_catalog old_catalog) = [].
Proof.
  destruct (streams_delta_exact old_catalog old_catalog) as (_ & Hself). apply Hself.
  - vm_compute. repeat constructor. by intros ?%elem_of_nil.
  - intros nm Hin. vm_compute in Hin. apply list_elem_of_singleton in Hin as ->. reflexivity.
Defined.
End Witnesses.
