(* ===== verification/State.v ===== *)
(** * types/state.go: the resumable state of a sync

    The state lists, per stream, a map of cursor values and the set of chunks not yet
    backfilled, and the shared CDC position with the streams it covers.  Every change
    is followed by [LogState], which rewrites the state file; the file is modelled by
    its decoded content ([persisted]). *)

From S2P Require Import Prelude GoString GoSet DataTypes Value Schema Stream.

Record Chunk := mkChunk { Min : any; Max : any }.

(** A value of [StreamState.State]: a cursor or a chunk set. *)
Inductive state_value := SVal (v : any) | SChunks (c : GoSet Chunk).

Abbreviation StateType := string (only parsing).
Definition GlobalType : StateType := "GLOBAL".
Definition StreamType : StateType := "STREAM".
Definition MixedType : StateType := "MIXED".
Definition ChunksKey : string := "chunks".

Record StreamState := mkStreamState {
  HoldsValue : bool;
  ss_Stream : string;
  ss_Namespace : string;
  ss_SyncMode : string;
  ss_State : gmap string state_value
}.

(** [Streams] of the global state may be nil. *)
Record GlobalState := mkGlobal { g_State : any; g_Streams : option (GoSet string) }.

(** go-json: a value written to a file and read back into an [any].  Numbers come back
    as float64, whatever they were. *)
Class JsonCodec := {
  json_any : any → any;
  json_nil : json_any ANil = ANil;
  json_bool b : json_any (ABool b) = ABool b;
  json_string s : utf8_valid s → json_any (AString s) = AString s;
  json_int k z : json_any (AInt k z) = AFloat64 (sf64 z);
  json_decoded v : json_any (json_any v) = json_any v
}.

Record State := mkState {
  st_Type : StateType;
  st_Version : Z;
  st_Global : option GlobalState;
  st_Streams : list StreamState
}.

Section Ops.
Context `{GoHash string} `{GoHash Chunk} `{GoRange} `{JsonCodec}.
Implicit Types (s : State) (stream : ConfiguredStream).

Definition initStreamState stream : StreamState := mkStreamState false (Name stream) (Namespace stream) "" ∅.

Definition isZero s : bool :=
  match st_Global s with None => bool_decide (st_Streams s = []) | Some _ => false end.

Definition is_stream stream (elem : StreamState) : bool :=
  String.eqb (ss_Namespace elem) (Namespace stream) && String.eqb (ss_Stream elem) (Name stream).

Definition find_stream s stream : option StreamState := lookup_first (is_stream stream) (st_Streams s).

Definition set_streams s (l : list StreamState) : State := mkState (st_Type s) (st_Version s) (st_Global s) l.

Definition with_map (f : gmap string state_value → gmap string state_value) (e : StreamState) : StreamState :=
  mkStreamState (HoldsValue e) (ss_Stream e) (ss_Namespace e) (ss_SyncMode e) (f (ss_State e)).

(** [State.Store(key, v)] followed by [HoldsValue.Store(true)]. *)
Definition store (key : string) (v : state_value) (e : StreamState) : StreamState :=
  mkStreamState true (ss_Stream e) (ss_Namespace e) (ss_SyncMode e) (<[key := v]> (ss_State e)).

(** Store into the stream's entry, appending a fresh one when there is none. *)
Definition upsert s stream (key : string) (v : state_value) : State :=
  match update_first (is_stream stream) (store key v) (st_Streams s) with
  | Some l => set_streams s l
  | None => set_streams s (st_Streams s ++ [store key v (initStreamState stream)])
  end.

Definition SetType s (typ : StateType) : State := mkState typ (st_Version s) (st_Global s) (st_Streams s).
Definition ResetStreams s : State := set_streams s [].

Definition ResetCursor s stream : State :=
  let '(primaryCursor, secondaryCursor) := Cursor stream in
  match update_first (is_stream stream) (with_map (λ m, delete secondaryCursor (delete primaryCursor m))) (st_Streams s) with
  | Some l => set_streams s l
  | None => s
  end.

Definition GetChunks s stream : option (GoSet Chunk) :=
  match find_stream s stream with
  | Some e => match ss_State e !! ChunksKey with Some (SChunks c) => Some c | _ => None end
  | None => None
  end.

Definition HasCompletedBackfill s stream : bool :=
  if String.eqb (st_Type s) GlobalType then
    match st_Global s with
    | Some g => match g_Streams g with Some streams => Exists streams (ID stream) | None => false end
    | None => false
    end
  else match GetChunks s stream with Some chunks => Len chunks =? 0 | None => false end.

Definition SetGlobal s (state : any) (streams : list string) : State :=
  let g :=
    match st_Global s with
    | None => mkGlobal state (Some (NewSet streams))
    | Some g =>
        mkGlobal (match state with ANil => g_State g | _ => state end)
          (match streams with
           | [] => g_Streams g
           | _ => match g_Streams g with None => Some (NewSet streams) | Some st => Some (Insert st streams) end
           end)
    end in
  mkState (st_Type s) (st_Version s) (Some g) (st_Streams s).

(** [Load] of a missing key reads as nil. *)
Definition GetCursor s stream (key : string) : option state_value :=
  if String.eqb key "" then None
  else match find_stream s stream with Some e => ss_State e !! key | None => None end.

(** [GetCursor] as the value it returns; a chunk set under a cursor key is no value the
    casts accept. *)
Definition cursor_value s stream (key : string) : any :=
  match GetCursor s stream key with
  | Some (SVal v) => v
  | Some (SChunks _) => AOther RStruct ""
  | None => ANil
  end.

Definition SetCursor s stream (key : string) (value : any) : State :=
  if String.eqb key "" then s else upsert s stream key (SVal value).

Definition SetChunks s stream (chunks : GoSet Chunk) : State :=
  if String.eqb (GetSyncMode stream) FULLREFRESH then s else upsert s stream ChunksKey (SChunks chunks).

(** Returns the number of chunks left, -1 when the stream has no chunk set.  A value of
    another type under the key makes the failed cast nil, and [Remove] dereferences it. *)
Definition RemoveChunk s stream (chunk : Chunk) : result (State * Z) :=
  match find_stream s stream with
  | None => Ok (s, -1)
  | Some e =>
      match ss_State e !! ChunksKey with
      | None => Ok (s, -1)
      | Some (SVal _) => Panic "nil pointer dereference"
      | Some (SChunks c) =>
          let c' := Remove c chunk in
          match update_first (is_stream stream) (with_map <[ChunksKey := SChunks c']>) (st_Streams s) with
          | Some l => Ok (set_streams s l, Len c')
          | None => Ok (s, -1)
          end
      end
  end.

(** ** The state file *)
Inductive persisted_value := PVal (v : any) | PArray (l : list Chunk).
Record persisted_stream := mkPersisted {
  p_Stream : string; p_Namespace : string; p_SyncMode : string; p_State : gmap string persisted_value
}.
Record persisted := mkFile {
  p_Type : StateType; p_Version : Z; p_Global : option (any * option (list string)); p_Streams : list persisted_stream
}.

Definition marshal_value (v : state_value) : persisted_value :=
  match v with SVal v => PVal v | SChunks c => PArray (MarshalArray c) end.
Definition marshal_stream (e : StreamState) : persisted_stream :=
  mkPersisted (ss_Stream e) (ss_Namespace e) (ss_SyncMode e) (marshal_value <$> ss_State e).

(** [State.MarshalJSON]: streams that hold no value are left out. *)
Definition marshal s : persisted :=
  mkFile (st_Type s) (st_Version s)
    ((λ g, (g_State g, MarshalArray <$> g_Streams g)) <$> st_Global s)
    (marshal_stream <$> filter (λ e, HoldsValue e = true) (st_Streams s)).

(** [LogState]: an empty state leaves the file as it is. *)
Definition LogState s (file : option persisted) : option persisted :=
  if isZero s then file else Some (marshal s).

(** [StreamState.UnmarshalJSON]: a decoded array under the chunk key is encoded and
    decoded again, and becomes a set. *)
Definition json_chunk (c : Chunk) : Chunk := mkChunk (json_any (json_any (Min c))) (json_any (json_any (Max c))).
Definition unmarshal_value (key : string) (v : persisted_value) : state_value :=
  match v with
  | PVal v => SVal (json_any v)
  | PArray l => if String.eqb key ChunksKey then SChunks (NewSet (json_chunk <$> l)) else SVal (AOther RSlice "")
  end.
Definition unmarshal_stream (p : persisted_stream) : StreamState :=
  mkStreamState (negb (bool_decide (p_State p = ∅))) (p_Stream p) (p_Namespace p) (p_SyncMode p)
    (map_imap (λ k v, Some (unmarshal_value k v)) (p_State p)).
Definition unmarshal (f : persisted) : State :=
  mkState (p_Type f) (p_Version f)
    ((λ g, mkGlobal (json_any g.1) (UnmarshalArray <$> g.2)) <$> p_Global f)
    (unmarshal_stream <$> p_Streams f).

(** ** Invariant: one entry per stream, and a chunk key holds a chunk set *)
Definition stream_key (e : StreamState) : string * string := (ss_Namespace e, ss_Stream e).
Definition chunks_typed (e : StreamState) : Prop := ∀ v, ss_State e !! ChunksKey ≠ Some (SVal v).
Definition state_wf s : Prop := NoDup (stream_key <$> st_Streams s) ∧ Forall chunks_typed (st_Streams s).
End Ops.
