(* ===== verification/StateFacts.v ===== *)
(** * Theorems about the sync state: invariant, cursors, chunk life cycle, reloading *)

From S2P Require Import Prelude GoString GoSet DataTypes Value Schema Stream StreamFacts State.

Section Facts.
Context {HS : GoHash string} {HC : GoHash Chunk} {HJ : JsonCodec}.
Implicit Types (s : State) (a b stream : ConfiguredStream).

Definition same_stream a b : Prop := Namespace a = Namespace b ∧ Name a = Name b.
#[export] Instance same_stream_dec a b : Decision (same_stream a b).
Proof. unfold same_stream. apply _. Defined.

Lemma is_stream_true a e : is_stream a e = true ↔ stream_key e = (Namespace a, Name a).
Proof.
  unfold is_stream, stream_key. rewrite andb_true_iff, !String.eqb_eq. split; [intros [-> ->]; done|]. by intros [= -> ->].
Qed.

Lemma is_stream_store a key v e : is_stream a (store key v e) = is_stream a e.
Proof. done. Qed.
Lemma is_stream_with_map a f e : is_stream a (with_map f e) = is_stream a e.
Proof. done. Qed.
Lemma is_stream_init a b : is_stream a (initStreamState b) = true ↔ same_stream a b.
Proof. rewrite is_stream_true. unfold stream_key, same_stream. simpl. split; [by intros [= -> ->]|by intros [-> ->]]. Qed.

Lemma other_stream a b : ¬ same_stream a b → ∀ e, is_stream a e = true → is_stream b e = false.
Proof.
  intros Hne e Ha. apply not_true_iff_false. rewrite is_stream_true in *. intros Hb. apply Hne. rewrite Ha in Hb. by simplify_eq.
Qed.

(** Updating the entry of a stream in place: what is read back. *)
Lemma find_update s stream f l e b :
  (∀ a e, is_stream a (f e) = is_stream a e) →
  update_first (is_stream stream) f (st_Streams s) = Some l → find_stream s stream = Some e →
  find_stream (set_streams s l) b = if decide (same_stream stream b) then Some (f e) else find_stream s b.
Proof.
  intros Hf Hl He. unfold find_stream in *. simpl. case_decide as Hd.
  - assert (Heq : ∀ k, lookup_first (is_stream b) k = lookup_first (is_stream stream) k).
    { destruct Hd as [Hn Hm]. intros k. induction k as [|x k IH]; simpl; [done|]. unfold is_stream at 1 3. rewrite Hn, Hm, IH. done. }
    rewrite Heq. eapply update_first_lookup; [|done|done]. intros x Hx. by rewrite Hf.
  - eapply update_first_other; [| |done].
    + by apply other_stream.
    + intros x Hx. rewrite Hf. eapply other_stream; eauto.
Qed.

Lemma find_upsert s stream key v b :
  find_stream (upsert s stream key v) b
  = if decide (same_stream stream b) then Some (store key v (default (initStreamState stream) (find_stream s stream)))
    else find_stream s b.
Proof.
  unfold upsert. destruct (update_first (is_stream stream) (store key v) (st_Streams s)) as [l|] eqn:E.
  - destruct (find_stream s stream) as [e|] eqn:Ee.
    + erewrite find_update; eauto using is_stream_store.
    + apply (update_first_None _ (store key v)) in Ee. congruence.
  - apply update_first_None in E. change (find_stream s stream = None) in E. rewrite E. simpl.
    unfold find_stream in *. simpl. rewrite lookup_first_app. cbn [lookup_first]. rewrite is_stream_store.
    destruct (is_stream b (initStreamState stream)) eqn:Eb.
    + apply is_stream_init in Eb. assert (same_stream stream b) as Hs by (destruct Eb; by split). case_decide; [|done].
      destruct Hs as [Hn Hm]. assert (lookup_first (is_stream b) (st_Streams s) = None) as ->; [|done].
      apply lookup_first_None. intros x Hx. rewrite lookup_first_None in E. specialize (E x Hx).
      unfold is_stream in *. by rewrite <- Hn, <- Hm.
    + case_decide as Hd; [|by destruct (lookup_first (is_stream b) (st_Streams s))].
      assert (is_stream b (initStreamState stream) = true) by (apply is_stream_init; destruct Hd; by split). congruence.
Qed.

(** ** Invariant *)
Inductive operation :=
| OSetCursor (a : ConfiguredStream) (key : string) (v : any)
| OResetCursor (a : ConfiguredStream)
| OSetChunks (a : ConfiguredStream) (c : GoSet Chunk)
| ORemoveChunk (a : ConfiguredStream) (c : Chunk)
| OSetGlobal (v : any) (streams : list string)
| OSetType (typ : StateType)
| OResetStreams.

Definition apply_op s (o : operation) : result State :=
  match o with
  | OSetCursor a key v => Ok (SetCursor s a key v)
  | OResetCursor a => Ok (ResetCursor s a)
  | OSetChunks a c => Ok (SetChunks s a c)
  | ORemoveChunk a c => fst <$> RemoveChunk s a c
  | OSetGlobal v streams => Ok (SetGlobal s v streams)
  | OSetType typ => Ok (SetType s typ)
  | OResetStreams => Ok (ResetStreams s)
  end.

(** A cursor column called "chunks" would overwrite the chunk set. *)
Definition op_ok (o : operation) : Prop :=
  match o with OSetCursor _ key _ => key ≠ ChunksKey | _ => True end.

Lemma update_first_split {T} (p : T → bool) f l l' :
  update_first p f l = Some l' → ∃ l1 x l2, l = l1 ++ x :: l2 ∧ l' = l1 ++ f x :: l2 ∧ p x = true ∧ Forall (λ y, p y = false) l1.
Proof.
  revert l'. induction l as [|y l IH]; intros l'; simpl; [done|]. destruct (p y) eqn:E.
  - intros [= <-]. exists [], y, l. done.
  - intros (k & Hk & ->)%fmap_Some. destruct (IH k Hk) as (l1 & x & l2 & -> & -> & Hx & Hl). exists (y :: l1), x, l2.
    split_and!; [done..|]. by constructor.
Qed.

Lemma update_wf s stream f l :
  (∀ e, stream_key (f e) = stream_key e) → (∀ e, chunks_typed e → chunks_typed (f e)) →
  update_first (is_stream stream) f (st_Streams s) = Some l → state_wf s → state_wf (set_streams s l).
Proof.
  intros Hk Hc Hu [Hnd Hty]. apply update_first_split in Hu as (l1 & x & l2 & Hl & -> & _). unfold state_wf in *. simpl.
  rewrite Hl in *. rewrite fmap_app, fmap_cons in *. rewrite Hk. split; [done|].
  apply Forall_app in Hty as [? [? ?]%Forall_cons]. apply Forall_app. split; [done|]. constructor; auto.
Qed.

Lemma upsert_wf s stream key v :
  (∀ e, chunks_typed e → chunks_typed (store key v e)) → state_wf s → state_wf (upsert s stream key v).
Proof.
  intros Hc Hwf. unfold upsert. destruct (update_first _ _ _) as [l|] eqn:E.
  - exact (update_wf s stream (store key v) l (λ _, eq_refl) Hc E Hwf).
  - apply update_first_None in E. destruct Hwf as [Hnd Hty]. split; simpl.
    + rewrite fmap_app. apply NoDup_app. split_and!; [done| |apply NoDup_singleton].
      intros k Hk ->%list_elem_of_singleton. apply list_elem_of_fmap in Hk as (e & Hk & He).
      rewrite lookup_first_None in E. specialize (E e He). apply not_true_iff_false in E. apply E, is_stream_true. by rewrite <- Hk.
    + apply Forall_app. split; [done|]. constructor; [|constructor]. apply Hc. intros w. simpl. by rewrite lookup_empty.
Qed.

Lemma store_typed key v e : (key ≠ ChunksKey ∨ ∃ c, v = SChunks c) → chunks_typed e → chunks_typed (store key v e).
Proof.
  intros Hk He w. simpl. intros [[-> ->]|[_ Hl]]%lookup_insert_Some; [naive_solver|by eapply He].
Qed.

(** C30: the state invariant.  Every sequence of state changes from a well-formed state
    (at most one entry per stream, a chunk set under the chunk key) runs without
    panicking and ends in a well-formed state, as long as no cursor column is called
    "chunks". *)
Theorem state_invariant s ops :
  state_wf s → Forall op_ok ops → ∃ s', foldM apply_op s ops = Ok s' ∧ state_wf s'.
Proof.
  intros Hwf Hok. revert s Hwf. induction Hok as [|o ops Ho Hok IH]; intros s Hwf; cbn [foldM]; [eauto|].
  assert (∃ s', apply_op s o = Ok s' ∧ state_wf s') as (s' & -> & Hwf'); [|by apply IH].
  destruct o as [a key v|a|a c|a c|v streams|typ|]; simpl in *.
  - eexists. split; [done|]. unfold SetCursor. destruct (String.eqb key ""); [done|]. apply upsert_wf; [|done].
    intros e. apply store_typed. by left.
  - eexists. split; [done|]. unfold ResetCursor. destruct (Cursor a) as [c1 c2]. destruct (update_first _ _ _) as [l|] eqn:E; [|done].
    eapply update_wf; [| |done|done]; [done|]. intros e He w. simpl. intros Hl. apply lookup_delete_Some in Hl as [_ Hl].
    apply lookup_delete_Some in Hl as [_ Hl]. by eapply He.
  - eexists. split; [done|]. unfold SetChunks. destruct (String.eqb _ _); [done|]. apply upsert_wf; [|done].
    intros e. apply store_typed. right. by eexists.
  - unfold RemoveChunk. destruct (find_stream s a) as [e|] eqn:Ef; [|simpl; by eexists].
    destruct (ss_State e !! ChunksKey) as [[v|c']|] eqn:Ec; [|destruct (update_first _ _ _) as [l|] eqn:E|]; simpl.
    + exfalso. apply lookup_first_Some in Ef as [He _]. destruct Hwf as [_ Hty]. rewrite Forall_forall in Hty. by apply (Hty e He v).
    + eexists. split; [done|]. eapply update_wf; [| |done|done]; [done|]. intros x Hx w. simpl. by rewrite lookup_insert_eq.
    + by eexists.
    + by eexists.
  - by eexists.
  - by eexists.
  - eexists. split; [done|]. split; [constructor|constructor].
Qed.

(** ** Cursors *)
Lemma find_ResetCursor s a b :
  find_stream (ResetCursor s a) b
  = if decide (same_stream a b)
    then with_map (λ m, delete (Cursor a).2 (delete (Cursor a).1 m)) <$> find_stream s a else find_stream s b.
Proof.
  unfold ResetCursor. destruct (Cursor a) as [p q]. cbn [fst snd].
  destruct (find_stream s a) as [e|] eqn:Ee.
  - destruct (update_first _ _ _) as [l|] eqn:E.
    + erewrite find_update; [done|intros; apply is_stream_with_map|done|done].
    + apply update_first_None in E. unfold find_stream in Ee. congruence.
  - pose proof Ee as Hn. apply (update_first_None _ (with_map (λ m, delete q (delete p m)))) in Ee. rewrite Ee.
    case_decide as Hd; [|done]. simpl. destruct Hd as [H1 H2]. unfold find_stream in *.
    rewrite lookup_first_None in *. intros x Hx. specialize (Hn x Hx). unfold is_stream in *. by rewrite <- H1, <- H2.
Qed.

(** Cursors behave as a store per stream and key.  [SetCursor] makes the value
    readable under that stream and key and changes no other stream or key (nor any
    chunk set); [ResetCursor] forgets exactly the primary and secondary cursor of its
    stream. *)
Theorem cursor_store_laws s a b key key' v :
  key ≠ "" →
  GetCursor (SetCursor s a key v) a key = Some (SVal v)
  ∧ (¬ same_stream a b ∨ key' ≠ key → GetCursor (SetCursor s a key v) b key' = GetCursor s b key')
  ∧ (key ≠ ChunksKey → GetChunks (SetCursor s a key v) b = GetChunks s b)
  ∧ GetCursor (ResetCursor s a) a (Cursor a).1 = None ∧ GetCursor (ResetCursor s a) a (Cursor a).2 = None
  ∧ (¬ same_stream a b ∨ (key' ≠ (Cursor a).1 ∧ key' ≠ (Cursor a).2) → GetCursor (ResetCursor s a) b key' = GetCursor s b key').
Proof.
  intros Hk. apply String.eqb_neq in Hk. unfold GetCursor, GetChunks, SetCursor. rewrite !Hk.
  assert (Hself : same_stream a a) by done.
  assert (Hsame : same_stream a b → find_stream s b = find_stream s a).
  { intros [H1 H2]. unfold find_stream. generalize (st_Streams s). intros l. induction l as [|x l IH]; simpl; [done|].
    unfold is_stream at 1 3. by rewrite H1, H2, IH. }
  split_and!.
  - rewrite find_upsert. case_decide; [|done]. simpl. by rewrite lookup_insert_eq.
  - intros Hne. destruct (String.eqb key' ""); [done|]. rewrite find_upsert. case_decide as Hd; [|done].
    destruct Hne as [|Hne]; [done|]. simpl. rewrite lookup_insert_ne by done. rewrite (Hsame Hd).
    destruct (find_stream s a); simpl; [done|]. by rewrite lookup_empty.
  - intros Hc. rewrite find_upsert. case_decide as Hd; [|done]. simpl. rewrite lookup_insert_ne by done. rewrite (Hsame Hd).
    destruct (find_stream s a); simpl; [done|]. by rewrite lookup_empty.
  - destruct (String.eqb (Cursor a).1 ""); [done|]. rewrite find_ResetCursor. case_decide; [|done].
    destruct (find_stream s a) as [e|]; cbn [fmap option_fmap option_map with_map ss_State]; [|done].
    destruct (decide ((Cursor a).2 = (Cursor a).1)) as [->|Hne]; [by rewrite lookup_delete_eq|].
    by rewrite lookup_delete_ne, lookup_delete_eq.
  - destruct (String.eqb (Cursor a).2 ""); [done|]. rewrite find_ResetCursor. case_decide; [|done].
    destruct (find_stream s a) as [e|]; cbn [fmap option_fmap option_map with_map ss_State]; [|done]. by rewrite lookup_delete_eq.
  - intros Hne. destruct (String.eqb key' ""); [done|]. rewrite find_ResetCursor. case_decide as Hd; [|done].
    destruct Hne as [|[Hn1 Hn2]]; [done|]. rewrite (Hsame Hd). destruct (find_stream s a) as [e|]; cbn [fmap option_fmap option_map with_map ss_State]; [|done].
    by rewrite !lookup_delete_ne.
Qed.

(** ** Chunks *)
Lemma RemoveChunk_spec s a c chunks :
  GetChunks s a = Some chunks →
  ∃ s', RemoveChunk s a c = Ok (s', Len (Remove chunks c)) ∧ GetChunks s' a = Some (Remove chunks c)
  ∧ (st_Type s', st_Global s') = (st_Type s, st_Global s) ∧ ∀ b, ¬ same_stream a b → find_stream s' b = find_stream s b.
Proof.
  unfold GetChunks, RemoveChunk. destruct (find_stream s a) as [e|] eqn:Ee; [|done].
  destruct (ss_State e !! ChunksKey) as [[v|c']|]; [done| |done]. intros [= ->].
  destruct (update_first _ _ _) as [l|] eqn:E.
  2:{ apply update_first_None in E. unfold find_stream in Ee. congruence. }
  exists (set_streams s l).
  assert (Hf := λ b, find_update s a _ l e b (λ a e, is_stream_with_map a _ e) E Ee).
  split_and!; [done| |done|].
  - rewrite Hf. case_decide as Hd; [|by destruct Hd]. simpl. by rewrite lookup_insert_eq.
  - intros b Hb. rewrite Hf. by case_decide.
Qed.

Lemma Len_zero chunks : set_wf chunks → Len chunks = 0 ↔ ∀ c : Chunk, ¬ member c chunks.
Proof.
  intros Hw. rewrite Len_Array by done. split.
  - intros Hl c Hc%member_Array. destruct (Array chunks); [by apply elem_of_nil in Hc|simpl in Hl; lia].
  - intros Hn. destruct (Array chunks) as [|c l] eqn:E; [done|]. destruct (Hn c). apply member_Array. rewrite E. left.
Qed.

(** On elements the hash separates, membership in a list is decided by the hashes. *)
Lemma elem_of_hashed (U : Chunk → Prop) c (l : list Chunk) : collision_free U None → (∀ x, x ∈ l → U x) → U c → c ∈ l ∨ c ∉ l.
Proof.
  intros Hcf Hl Hc. induction l as [|x l IH]; [right; apply not_elem_of_nil|].
  destruct IH as [?|?]; [intros; apply Hl; by right|left; by right|].
  destruct (decide (hash_key None c = hash_key None x)) as [He|He].
  - left. rewrite (Hcf c x); [left|done|apply Hl; left|done].
  - right. apply not_elem_of_cons. split; [congruence|done].
Qed.

Definition remove_all s a (l : list Chunk) : result State := foldM (λ s c, fst <$> RemoveChunk s a c) s l.

Lemma remove_all_spec U a l s chunks :
  collision_free U None → good U chunks → (∀ c, c ∈ l → U c) → GetChunks s a = Some chunks →
  ∃ s' left, remove_all s a l = Ok s' ∧ GetChunks s' a = Some left ∧ good U left
  ∧ (∀ c, member c left ↔ member c chunks ∧ c ∉ l)
  ∧ (st_Type s', st_Global s') = (st_Type s, st_Global s) ∧ ∀ b, ¬ same_stream a b → find_stream s' b = find_stream s b.
Proof.
  intros Hcf. revert s chunks. induction l as [|c l IH]; intros s chunks Hg Hl Hs.
  { exists s, chunks. split_and!; try done. intros c. split; [|naive_solver]. intros Hc. split; [done|]. apply not_elem_of_nil. }
  destruct (RemoveChunk_spec s a c chunks Hs) as (s1 & Hrem & Hs1 & Ht & Ho). unfold remove_all. cbn [foldM]. rewrite Hrem.
  cbn [fmap result_fmap fst]. assert (U c) as Hc by (apply Hl; left).
  destruct (IH s1 (Remove chunks c)) as (s' & left & Hok & Hs' & Hg' & Hm & Ht' & Ho'); [by apply Remove_good|intros; apply Hl; by right|done|].
  exists s', left. split_and!; [done..| |by rewrite Ht'|].
  - intros x. rewrite Hm, (member_Remove U), not_elem_of_cons; [tauto|..]; destruct Hg as [Hw Hf Hi]; rewrite ?Hf; done.
  - intros b Hb. by rewrite Ho', Ho.
Qed.

(** C25: the chunk life cycle.  Once the chunks of a stream that is not a full refresh are
    recorded, removing the chunks of any list (in any order, repetitions allowed) never
    fails, leaves exactly the chunks not in the list, and touches no other stream; each
    removal reports the number of chunks left.  Unless the state is global, the backfill
    counts as complete exactly when every recorded chunk was removed, and not before
    chunks are recorded; under a global state, where completion is a matter of the shared
    position, recording and removing chunks changes no stream's completion. *)
Theorem chunk_lifecycle U s a chunks l :
  collision_free U None → good U chunks → (∀ c, c ∈ l → U c) → GetSyncMode a ≠ FULLREFRESH →
  ∃ s' left, remove_all (SetChunks s a chunks) a l = Ok s' ∧ GetChunks s' a = Some left
  ∧ (∀ c, member c left ↔ member c chunks ∧ c ∉ l)
  ∧ (∀ c, U c → ∃ s2, RemoveChunk s' a c = Ok (s2, Len (Remove left c)))
  ∧ (st_Type s ≠ GlobalType → HasCompletedBackfill s' a = true ↔ ∀ c, member c chunks → c ∈ l)
  ∧ (st_Type s ≠ GlobalType → find_stream s a = None → HasCompletedBackfill s a = false)
  ∧ (st_Type s = GlobalType → ∀ b, HasCompletedBackfill s' b = HasCompletedBackfill s b)
  ∧ (∀ b, ¬ same_stream a b → find_stream s' b = find_stream s b).
Proof.
  intros Hcf Hg Hl Hmode. apply String.eqb_neq in Hmode.
  assert (Hs : GetChunks (SetChunks s a chunks) a = Some chunks
    ∧ (st_Type (SetChunks s a chunks), st_Global (SetChunks s a chunks)) = (st_Type s, st_Global s)
    ∧ ∀ b, ¬ same_stream a b → find_stream (SetChunks s a chunks) b = find_stream s b).
  { unfold SetChunks. rewrite Hmode. split_and!.
    - unfold GetChunks. rewrite find_upsert. case_decide as Hd; [|by destruct Hd]. simpl. by rewrite lookup_insert_eq.
    - unfold upsert. by destruct (update_first _ _ _).
    - intros b Hb. rewrite find_upsert. by case_decide. }
  destruct Hs as (Hs & Hst & Hso).
  destruct (remove_all_spec U a l _ chunks Hcf Hg Hl Hs) as (s' & left & Hok & Hs' & Hg' & Hm & Ht & Ho).
  rewrite Hst in Ht. injection Ht as Ht HG. exists s', left. split_and!; try done.
  - intros c _. destruct (RemoveChunk_spec s' a c left Hs') as (s2 & Hr & _). eauto.
  - intros Hty. unfold HasCompletedBackfill. rewrite Ht. apply String.eqb_neq in Hty as ->. rewrite Hs', Z.eqb_eq, Len_zero by apply Hg'.
    setoid_rewrite Hm. split; [|naive_solver]. intros Hn c Hc.
    destruct (elem_of_hashed U c l) as [?|?]; [done|done|by apply Hg|done|naive_solver].
  - intros Hty Hnone. unfold HasCompletedBackfill, GetChunks. apply String.eqb_neq in Hty as ->. by rewrite Hnone.
  - intros Hty b. unfold HasCompletedBackfill. by rewrite Ht, HG, Hty.
  - intros b Hb. by rewrite Ho, Hso.
Qed.

(** ** Global position *)
Definition set_globals s (l : list (any * list string)) : State := foldl (λ s p, SetGlobal s p.1 p.2) s l.

Lemma set_globals_spec (U : string → Prop) s l g st :
  collision_free U None → (∀ p x, p ∈ l → x ∈ p.2 → U x) →
  st_Global s = Some g → g_Streams g = Some st → good U st →
  ∃ g' st', st_Global (set_globals s l) = Some g' ∧ g_Streams g' = Some st' ∧ good U st'
  ∧ st_Type (set_globals s l) = st_Type s
  ∧ ∀ x, member x st' ↔ member x st ∨ ∃ p, p ∈ l ∧ x ∈ p.2.
Proof.
  intros Hcf. revert s g st. induction l as [|[v xs] l IH]; intros s g st Hl Hg Hst Hgood.
  { exists g, st. split_and!; try done. intros x. split; [by left|]. intros [?|(p & Hp & _)]; [done|]. by apply elem_of_nil in Hp. }
  assert (Hins : good U (Insert st xs) ∧ ∀ x, member x (Insert st xs) ↔ member x st ∨ x ∈ xs).
  { assert (∀ x, x ∈ xs → U x) as Hxs by (intros x Hx; apply (Hl (v, xs)); [left|done]).
    split; [by apply Insert_good|]. intros x. destruct Hgood as [Hw Hf Hi]. by rewrite (member_Insert U) by (rewrite ?Hf; done). }
  destruct Hins as [Hgi Hmi]. unfold set_globals. cbn [foldl]. fold (set_globals (SetGlobal s v xs) l).
  assert (Hstep : ∃ g1, st_Global (SetGlobal s v xs) = Some g1 ∧ g_Streams g1 = Some (Insert st xs)).
  { unfold SetGlobal. rewrite Hg. eexists. split; [done|]. simpl. rewrite Hst. by destruct xs. }
  destruct Hstep as (g1 & Hg1 & Hst1).
  destruct (IH (SetGlobal s v xs) g1 (Insert st xs)) as (g' & st' & ? & ? & ? & Ht & Hm); [|done|done|done|].
  { intros p x Hp. apply Hl. by right. }
  exists g', st'. split_and!; [done..|]. intros x. rewrite Hm, Hmi. split.
  - intros [[?|?]|(p & Hp & Hx)]; [by left|right; exists (v, xs); split; [left|done]|right; exists p; split; [by right|done]].
  - intros [?|(p & [->|Hp]%elem_of_cons & Hx)]; [tauto|simpl in Hx; tauto|right; eauto].
Qed.

(** Completion under a shared CDC position.  For a driver with global state, a
    stream's backfill counts as complete exactly when one of the recorded positions
    named it; recording a position never forgets a stream. *)
Theorem global_completion_tracks U s v xs l a :
  collision_free U None → (∀ x, x ∈ xs → U x) → (∀ p x, p ∈ l → x ∈ p.2 → U x) → U (ID a) →
  st_Type s = GlobalType → st_Global s = None →
  HasCompletedBackfill s a = false
  ∧ (HasCompletedBackfill (set_globals s ((v, xs) :: l)) a = true ↔ ID a ∈ xs ∨ ∃ p, p ∈ l ∧ ID a ∈ p.2).
Proof.
  intros Hcf Hxs Hl Ha Ht Hg. split; [unfold HasCompletedBackfill; by rewrite Ht, Hg|].
  destruct (set_globals_spec U (SetGlobal s v xs) l (mkGlobal v (Some (NewSet xs))) (NewSet xs)) as (g' & st' & Hg' & Hs' & Hgood & Hty & Hm).
  - done.
  - done.
  - unfold SetGlobal. by rewrite Hg.
  - done.
  - by apply NewSet_good.
  - unfold HasCompletedBackfill. change (set_globals s ((v, xs) :: l)) with (set_globals (SetGlobal s v xs) l).
    rewrite Hty, Hg', Hs'. change (st_Type (SetGlobal s v xs)) with (st_Type s). rewrite Ht, String.eqb_refl.
    destruct Hgood as [Hw Hf Hi].
    rewrite (Exists_member U) by (rewrite ?Hf; done). by rewrite Hm, (member_NewSet U).
Qed.

(** ** Reloading *)
Definition entry_ok (U : Chunk → Prop) (e : StreamState) : Prop :=
  ∀ k v, ss_State e !! k = Some v → if decide (k = ChunksKey) then ∃ c, v = SChunks c ∧ good U c else ∃ w, v = SVal w.

Lemma lookup_first_filter {T} (p q : T → bool) l x :
  lookup_first p l = Some x → q x = true → (∀ y, y ∈ l → p y = true → y = x) →
  lookup_first p (filter (λ y, q y = true) l) = Some x.
Proof.
  induction l as [|y l IH]; simpl; [done|]. intros Hx Hq Hu. rewrite filter_cons. destruct (p y) eqn:Ep.
  - simplify_eq. case_decide; [|done]. simpl. by rewrite Ep.
  - assert (lookup_first p (filter (λ y, q y = true) l) = Some x) as Hl.
    { apply IH; [done..|]. intros z Hz. apply Hu. by right. }
    case_decide; [|done]. simpl. by rewrite Ep.
Qed.

Lemma lookup_first_fmap {T S} (p : S → bool) (f : T → S) l :
  lookup_first p (f <$> l) = f <$> lookup_first (λ x, p (f x)) l.
Proof. induction l as [|x l IH]; simpl; [done|]. by destruct (p (f x)). Qed.

Lemma find_reload s a e :
  state_wf s → find_stream s a = Some e → HoldsValue e = true →
  find_stream (unmarshal (marshal s)) a = Some (unmarshal_stream (marshal_stream e)).
Proof.
  intros [Hnd _] He Hh. unfold find_stream, unmarshal, marshal in *. cbn [st_Streams p_Streams].
  rewrite !lookup_first_fmap.
  change (λ x, is_stream a (unmarshal_stream (marshal_stream x))) with (is_stream a).
  rewrite (lookup_first_filter (is_stream a) HoldsValue (st_Streams s) e); [done..|].
  intros y Hy Hp. apply lookup_first_Some in He as [Hin Hpe]. rewrite is_stream_true in *.
  apply list_elem_of_lookup in Hy as [i Hi]. apply list_elem_of_lookup in Hin as [j Hj].
  assert (i = j) as ->.
  { apply (NoDup_lookup (stream_key <$> st_Streams s) i j (Namespace a, Name a)); [done|..];
      rewrite list_lookup_fmap; [rewrite Hi|rewrite Hj]; simpl; by f_equal. }
  congruence.
Qed.

Lemma reload_map e k :
  ss_State (unmarshal_stream (marshal_stream e)) !! k = (λ v, unmarshal_value k (marshal_value v)) <$> ss_State e !! k.
Proof. simpl. rewrite map_lookup_imap, lookup_fmap. by destruct (ss_State e !! k). Qed.

Lemma marshal_wf s : state_wf s → state_wf (unmarshal (marshal s)).
Proof.
  intros [Hnd Hty]. unfold state_wf, unmarshal, marshal. cbn [st_Streams p_Streams]. split.
  - rewrite <- !list_fmap_compose. change (stream_key ∘ unmarshal_stream ∘ marshal_stream) with stream_key.
    eapply sublist_NoDup; [done|]. apply fmap_sublist, sublist_filter.
  - rewrite Forall_forall in *. intros x (p & -> & (e & -> & [_ He]%list_elem_of_filter)%list_elem_of_fmap)%list_elem_of_fmap v.
    rewrite reload_map. destruct (ss_State e !! ChunksKey) as [[y|y]|] eqn:Ex; cbn; [|done..]. by destruct (Hty e He y).
Qed.

Lemma LogState_nonempty s a e file : find_stream s a = Some e → LogState s file = Some (marshal s).
Proof.
  intros He. unfold LogState. assert (isZero s = false) as ->; [|done]. unfold isZero. destruct (st_Global s); [done|].
  apply bool_decide_eq_false. intros Hn. unfold find_stream in He. by rewrite Hn in He.
Qed.

Definition json_value (v : state_value) : state_value := match v with SVal v => SVal (json_any v) | SChunks c => SChunks c end.

Lemma reload_set U c :
  collision_free U None → (∀ x, U x → U (json_chunk x)) → good U c →
  good U (NewSet (json_chunk <$> MarshalArray c)) ∧ ∀ x, member x (NewSet (json_chunk <$> MarshalArray c)) ↔ ∃ y, member y c ∧ x = json_chunk y.
Proof.
  intros Hcf Hj Hg.
  assert (HA : ∀ x, x ∈ json_chunk <$> MarshalArray c → U x).
  { intros x (y & -> & Hy)%list_elem_of_fmap. apply member_Array in Hy. by apply Hj, Hg. }
  split; [by apply NewSet_good|]. intros x. rewrite (member_NewSet U) by done. rewrite list_elem_of_fmap.
  setoid_rewrite member_Array. naive_solver.
Qed.

Lemma reload_chunks U s a e :
  collision_free U None → (∀ x, U x → U (json_chunk x)) → state_wf s → find_stream s a = Some e → HoldsValue e = true → entry_ok U e →
  match GetChunks s a, GetChunks (unmarshal (marshal s)) a with
  | Some c, Some c' => good U c ∧ good U c' ∧ ∀ x, member x c' ↔ ∃ y, member y c ∧ x = json_chunk y
  | None, None => True
  | _, _ => False
  end.
Proof.
  intros Hcf Hj Hwf He Hh Hok. unfold GetChunks. rewrite He, (find_reload s a e Hwf He Hh), reload_map.
  destruct (ss_State e !! ChunksKey) as [v|] eqn:Ev; [|done].
  destruct (Hok ChunksKey v Ev) as (c & -> & Hg). split; [done|by apply reload_set].
Qed.

Lemma reload_global V s a :
  collision_free V None → V (ID a) → (∀ g st, st_Global s = Some g → g_Streams g = Some st → good V st) →
  st_Type s = GlobalType → HasCompletedBackfill (unmarshal (marshal s)) a = HasCompletedBackfill s a.
Proof.
  intros Hcf Ha Hg Hty. unfold HasCompletedBackfill. change (st_Type (unmarshal (marshal s))) with (st_Type s). rewrite Hty, String.eqb_refl.
  cbn [unmarshal marshal st_Global p_Global]. destruct (st_Global s) as [g|]; [|done]. cbn. destruct (g_Streams g) as [st|] eqn:Est; [|done]. cbn.
  specialize (Hg g st eq_refl Est). apply eq_bool_prop_intro. rewrite !Is_true_true. change (UnmarshalArray (MarshalArray st)) with (NewSet (Array st)).
  assert (∀ x, x ∈ Array st → V x) by (intros x Hx%member_Array; by apply Hg).
  rewrite (Exists_NewSet V) by done. destruct Hg as [Hw Hf Hi]. rewrite (Exists_member V) by (rewrite ?Hf; done). apply member_Array.
Qed.

(** C26: reloading the state file resumes where the sync stopped.  Whenever a stream recorded
    anything, the file written after a change holds the whole state, and reading it back
    gives the same type and version, the shared position and the stream's cursors and
    chunks as the values JSON makes of them (text as it was, integers as float64), and
    the same answer to whether the stream's backfill is complete, with chunk-wise
    completion as with a shared position.  (The hashes of the chunks and of their JSON
    images, and of the stream ids, do not collide.) *)
Theorem reload_resumes U V s a e file :
  collision_free U None → (∀ x, U x → U (json_chunk x)) →
  state_wf s → find_stream s a = Some e → HoldsValue e = true → entry_ok U e →
  collision_free V None → V (ID a) → (∀ g st, st_Global s = Some g → g_Streams g = Some st → good V st) →
  ∃ f, LogState s file = Some f
  ∧ st_Type (unmarshal f) = st_Type s ∧ st_Version (unmarshal f) = st_Version s
  ∧ g_State <$> st_Global (unmarshal f) = json_any ∘ g_State <$> st_Global s
  ∧ (∀ key, key ≠ ChunksKey → GetCursor (unmarshal f) a key = json_value <$> GetCursor s a key)
  ∧ match GetChunks s a, GetChunks (unmarshal f) a with
    | Some c, Some c' => ∀ x, member x c' ↔ ∃ y, member y c ∧ x = json_chunk y
    | None, None => True
    | _, _ => False
    end
  ∧ HasCompletedBackfill (unmarshal f) a = HasCompletedBackfill s a.
Proof.
  intros Hcf Hj Hwf He Hh Hok HcV HaV HgV. exists (marshal s). pose proof (find_reload s a e Hwf He Hh) as Hr.
  pose proof (reload_map e) as Hmap. pose proof (reload_chunks U s a e Hcf Hj Hwf He Hh Hok) as Hchunks.
  split_and!.
  - by eapply LogState_nonempty.
  - done.
  - done.
  - cbn. by destruct (st_Global s).
  - intros key Hk. unfold GetCursor. rewrite He, Hr, Hmap. destruct (String.eqb key ""); [done|].
    destruct (ss_State e !! key) as [v|] eqn:Ev; [|done]. specialize (Hok key v Ev). case_decide; [done|].
    by destruct Hok as [w ->].
  - destruct (GetChunks s a), (GetChunks (unmarshal (marshal s)) a); naive_solver.
  - destruct (decide (st_Type s = GlobalType)) as [Hty|Hty]; [by apply (reload_global V)|].
    unfold HasCompletedBackfill. change (st_Type (unmarshal (marshal s))) with (st_Type s).
    apply String.eqb_neq in Hty as ->.
    destruct (GetChunks s a) as [c|], (GetChunks (unmarshal (marshal s)) a) as [c'|]; [|done..].
    destruct Hchunks as (Hg & Hg' & Hm). apply eq_bool_prop_intro. rewrite !Is_true_true, !Z.eqb_eq.
    rewrite !Len_zero by first [apply Hg | apply Hg']. setoid_rewrite Hm. naive_solver.
Qed.

End Facts.

(** ** Witnesses *)
Section Witnesses.
#[local] Instance ws_hash : GoHash string := encode_hash "".
(** A structural hash that separates the two chunks below. *)
#[local] Instance ws_chunk_hash : GoHash Chunk := {|
  method_hash _ := None;
  hashstructure c := match Min c with AString s => Some (Z.of_nat (String.length s)) | _ => None end;
  zero_value := mkChunk ANil ANil |}.
(** JSON on scalars; compound values are not needed here. *)
Definition scalar_json (v : any) : any :=
  match v with AInt _ z => AFloat64 (sf64 z) | _ => v end.
#[local] Instance ws_json : JsonCodec.
Proof. refine {| json_any := scalar_json |}; [done..|]. by intros []. Defined.
Definition chunk1 : Chunk := mkChunk (AString "") (AString "m").
Definition chunk2 : Chunk := mkChunk (AString "m") ANil.
Definition two_chunks (c : Chunk) : Prop := c = chunk1 ∨ c = chunk2.
Definition empty_state (typ : StateType) : State := mkState typ 5 None [].
Definition users : ConfiguredStream := demo_stream [] true.

Lemma two_chunks_cf : collision_free two_chunks None.
Proof. intros x y [->| ->] [->| ->]; vm_compute; congruence. Qed.

Lemma two_chunks_fixed c : two_chunks c → json_chunk c = c.
Proof. by intros [->| ->]. Qed.
Lemma two_chunks_json c : two_chunks c → two_chunks (json_chunk c).
Proof. intros Hc. by rewrite two_chunks_fixed. Qed.

Lemma both_good : good two_chunks (NewSet [chunk1; chunk2]).
Proof.
  apply NewSet_good; [apply two_chunks_cf|]. intros x [->|[->|Hx]%elem_of_cons]%elem_of_cons; [by left|by right|].
  by apply elem_of_nil in Hx.
Qed.

Lemma state_invariant_witness :
  ∃ s', foldM apply_op (empty_state StreamType)
          [OSetCursor users "id" (AInt KInt64 7); OSetChunks users (NewSet [chunk1]); ORemoveChunk users chunk1] = Ok s'
        ∧ state_wf s'.
Proof.
  apply state_invariant.
  - split; [constructor|constructor].
  - repeat constructor. discriminate.
Defined.

Lemma cursor_store_laws_witness :
  GetCursor (SetCursor (empty_state StreamType) users "id" (AInt KInt64 7)) users "id" = Some (SVal (AInt KInt64 7)).
Proof. apply (cursor_store_laws (empty_state StreamType) users users "id" "id" (AInt KInt64 7)). discriminate. Defined.

Lemma chunk_lifecycle_witness :
  ∃ s', remove_all (SetChunks (empty_state StreamType) users (NewSet [chunk1; chunk2])) users [chunk2; chunk1] = Ok s'
        ∧ HasCompletedBackfill s' users = true.
Proof.
  destruct (chunk_lifecycle two_chunks (empty_state StreamType) users (NewSet [chunk1; chunk2]) [chunk2; chunk1])
    as (s' & left & Hok & _ & _ & _ & Hdone & _).
  - exact two_chunks_cf.
  - exact both_good.
  - intros c Hc. rewrite !elem_of_cons in Hc. destruct Hc as [->|[->|Hc]]; [by right|by left|by apply elem_of_nil in Hc].
  - discriminate.
  - exists s'. split; [exact Hok|]. apply Hdone; [discriminate|]. intros c Hc. apply (good_inside _ _ both_good) in Hc as [-> | ->].
    + right. left.
    + left.
Defined.

Lemma global_completion_tracks_witness :
  HasCompletedBackfill (set_globals (empty_state GlobalType) [(AString "0/16B", ["public.users"])]) users = true.
Proof.
  apply (global_completion_tracks (λ _, True) (empty_state GlobalType) (AString "0/16B") ["public.users"] [] users);
    try done; [apply encode_hash_cf|]. left. vm_compute. left.
Defined.

Lemma reload_resumes_witness :
  let s := SetCursor (SetChunks (empty_state StreamType) users (NewSet [chunk1; chunk2])) users "id" (AString "k7") in
  ∃ f, LogState s None = Some f ∧ GetCursor (unmarshal f) users "id" = Some (SVal (AString "k7")).
Proof.
  intros s.
  assert (He : find_stream s users = Some (store "id" (SVal (AString "k7"))
            (store ChunksKey (SChunks (NewSet [chunk1; chunk2])) (initStreamState users)))) by (vm_compute; reflexivity).
  assert (Hwf : state_wf s).
  { apply upsert_wf; [intros e; apply store_typed; by left|]. apply upsert_wf; [|by split; constructor].
    intros e. apply store_typed. right. by eexists. }
  destruct (reload_resumes two_chunks (λ _, True) s users _ None two_chunks_cf two_chunks_json Hwf He) as (f & Hf & _ & _ & _ & Hcur & _).
  - reflexivity.
  - intros k v Hk. cbn [store ss_State initStreamState] in Hk.
    apply lookup_insert_Some in Hk as [[<- <-]|[_ [[<- <-]|[_ Hl]]%lookup_insert_Some]].
    + by eexists.
    + eexists. split; [reflexivity|exact both_good].
    + by rewrite lookup_empty in Hl.
  - apply encode_hash_cf.
  - exact I.
  - discriminate.
  - exists f. split; [exact Hf|]. rewrite Hcur by discriminate. reflexivity.
Defined.
End Witnesses.
