(* ===== verification/TwoPC.v ===== *)
(** * destination/parquet/parquet_2pc.go: two-phase commit of Parquet files on S3

    Files are staged under [_olake_2pc/], a finish object marks the commit point, then
    the staged files are copied to the table path, the table metadata is updated and
    the staging area is removed.  A crash, or an S3 error that outlasts its retries,
    may happen before any write; the next writer recovers.

    The object store is a map from key to decoded object.  [M A] runs a routine on a
    store with a budget of writes: [None] never runs out, [Some n] is interrupted when
    write n+1 is attempted.  The order in which concurrent workers issue their writes
    is an argument ([Sched]), so every subset of them can be the one that happened. *)

From S2P Require Import Prelude GoString Value.

(** ** path.Join and strings.Trim *)
Definition clean_step (rooted : bool) (out : list string) (seg : string) : list string :=
  if String.eqb seg "" || String.eqb seg "." then out
  else if String.eqb seg ".." then
    match out with
    | last :: rest => if String.eqb last ".." then seg :: out else rest
    | [] => if rooted then [] else [seg]
    end
  else seg :: out.
Definition path_Clean (p : string) : string :=
  let rooted := HasPrefix p "/" in
  let body := Join "/" (reverse (foldl (clean_step rooted) [] (Split "/" p))) in
  if rooted then "/" +:+ body else if String.eqb body "" then "." else body.
Definition path_Join (elems : list string) : string :=
  match filter (λ e, e ≠ "") elems with
  | [] => ""
  | es => path_Clean (Join "/" es)
  end.
Definition TrimLeft (c : ascii) (s : string) : string := string_of (drop_while (λ b, b =? byte_of c) (bytes_of s)).
Definition TrimBoth (c : ascii) (s : string) : string :=
  string_of (reverse (drop_while (λ b, b =? byte_of c) (reverse (drop_while (λ b, b =? byte_of c) (bytes_of s))))).

(** ** Metadata *)

(** A state string, by what the JSON decoder makes of it: an object, or anything else. *)
Inductive state_json := SObject (fields : gmap string string) | SText (s : string).

Record MetadataState := mkMeta {
  ms_ID : option string;
  ms_State : option state_json;
  FullRefreshCommittedIDs : list string;
  DedupInserts : option bool
}.
#[export] Instance state_json_eq : EqDecision state_json.
Proof. solve_decision. Defined.
#[export] Instance MetadataState_eq : EqDecision MetadataState.
Proof. solve_decision. Defined.
Definition no_metadata : MetadataState := mkMeta None None [] None.

Definition SetDedupInserts (ms : option MetadataState) (dedupInserts : option bool) : option MetadataState :=
  match ms, dedupInserts with
  | Some m, Some d => Some (mkMeta (ms_ID m) (ms_State m) (FullRefreshCommittedIDs m) (Some d))
  | _, _ => ms
  end.

Definition mergeState (current next : option state_json) : option state_json :=
  match current, next with
  | Some (SObject c), Some (SObject n) => Some (SObject (n ∪ c))
  | _, _ => next
  end.

Definition mergeStreamMetadataState (current next : MetadataState) : MetadataState :=
  mkMeta (match ms_ID next with Some i => Some i | None => ms_ID current end)
    (match ms_State next with Some _ => mergeState (ms_State current) (ms_State next) | None => ms_State current end)
    (FullRefreshCommittedIDs current)
    (match DedupInserts next with Some d => Some d | None => DedupInserts current end).

Definition add_committed (threadID : string) (m : MetadataState) : MetadataState :=
  mkMeta (ms_ID m) (ms_State m)
    (if contains (FullRefreshCommittedIDs m) threadID then FullRefreshCommittedIDs m else FullRefreshCommittedIDs m ++ [threadID])
    (Some true).

(** A finish state that marshals to [null] or, all its fields being left out when empty,
    to [{}] carries no checkpoint. *)
Definition parseFinishState (state : option MetadataState) : option MetadataState :=
  match state with
  | Some (mkMeta None None [] None) => None
  | _ => state
  end.

(** ** The object store *)
Inductive object :=
| OData (bytes : string)
| OFinish (state : option MetadataState)   (* None: a finish file without state *)
| OThread (threadID : string)
| OMeta (state : MetadataState).
Abbreviation bucket := (gmap string object) (only parsing).

Inductive outcome (A : Type) :=
| Done (a : A) (s : bucket) (budget : option nat)
| Interrupted (s : bucket)
| Failed (e : string) (s : bucket).
Arguments Done {A} _ _ _.
Arguments Interrupted {A} _.
Arguments Failed {A} _ _.

Definition M (A : Type) : Type := bucket → option nat → outcome A.
Definition ret {A} (a : A) : M A := λ s b, Done a s b.
Definition bind {A B} (m : M A) (f : A → M B) : M B := λ s b,
  match m s b with Done a s' b' => f a s' b' | Interrupted s' => Interrupted s' | Failed e s' => Failed e s' end.
Definition fail {A} (e : string) : M A := λ s _, Failed e s.
Definition gets {A} (f : bucket → A) : M A := λ s b, Done (f s) s b.
Definition write (f : bucket → bucket) : M unit := λ s b,
  match b with
  | None => Done tt (f s) None
  | Some O => Interrupted s
  | Some (S n) => Done tt (f s) (Some n)
  end.
Notation "x <~ m ; k" := (bind m (λ x, k)) (at level 100, m at next level, right associativity) : olake_scope.
Notation "m ;~ k" := (bind m (λ _, k)) (at level 100, right associativity) : olake_scope.

Fixpoint each {A} (l : list A) (f : A → M unit) : M unit :=
  match l with [] => ret tt | x :: l' => f x ;~ each l' f end.

(** The order in which [utils.Concurrent] workers get to write. *)
Class Sched := { sched : ∀ {A : Type}, list A → list A; sched_perm : ∀ {A : Type} (l : list A), sched l ≡ₚ l }.

(** What the writer knows: [p.config.Prefix], [p.basePath], and [sha256] in hex. *)
Class Table := { Prefix : string; basePath : string; sha256_hex : string → string }.

Definition parquet2PCDir : string := "_olake_2pc".
Definition parquet2PCFinishFile : string := "finish.json".
Definition parquet2PCMetadataFile : string := "metadata.json".

Section Ops.
Context `{Table} `{Sched}.

Definition s3ObjectKey (relativePath : string) : string :=
  let prefix := TrimBoth "/" Prefix in
  if String.eqb prefix "" then relativePath else path_Join [prefix; relativePath].
Definition stagingRootPrefix : string := s3ObjectKey (path_Join [basePath; parquet2PCDir]) +:+ "/".
Definition hashThreadID (threadID : string) : string := sha256_hex threadID.
Definition backfillStagingPrefix (threadID : string) : string := stagingRootPrefix +:+ hashThreadID threadID +:+ "/".
Definition currentStagingPrefix (backfill : bool) (threadID : string) : string :=
  if backfill then backfillStagingPrefix threadID else stagingRootPrefix.
Definition stagingObjectKey (backfill : bool) (threadID relativePath : string) : string :=
  currentStagingPrefix backfill threadID +:+ TrimLeft "/" relativePath.
Definition sharedFinishObjectKey : string := stagingRootPrefix +:+ parquet2PCFinishFile.
Definition backfillFinishObjectKey (threadID : string) : string := backfillStagingPrefix threadID +:+ parquet2PCFinishFile.
Definition metadataObjectKey : string := s3ObjectKey (path_Join [basePath; parquet2PCMetadataFile]).

(** *** Requests *)
Definition string_leb (a b : string) : bool := match String.compare a b with Gt => false | _ => true end.
Definition string_le (a b : string) : Prop := string_leb a b = true.
#[export] Instance string_le_dec a b : Decision (string_le a b).
Proof. unfold string_le. apply _. Defined.
Definition listS3Keys (prefix : string) : M (list string) :=
  gets (λ s, merge_sort string_le (filter (λ k, HasPrefix k prefix = true) (map_to_list s).*1)).
Definition writeS3Object (key : string) (o : object) : M unit := write <[key := o]>.
Definition deleteS3Object (key : string) : M unit := write (delete key).
Definition readS3Object (key : string) : M (option object) := gets (λ s, s !! key).
Definition copyS3Object (sourceKey destinationKey : string) : M unit :=
  o <~ readS3Object sourceKey;
  match o with
  | Some o => writeS3Object destinationKey o
  | None => fail "NoSuchKey"
  end.

(** *** Metadata object *)
Definition readMetadata : M (option MetadataState) :=
  o <~ readS3Object metadataObjectKey;
  match o with
  | None => ret None
  | Some (OMeta m) => ret (Some m)
  | Some _ => fail "failed to unmarshal parquet 2pc metadata"
  end.
Definition writeMetadata (state : MetadataState) : M unit := writeS3Object metadataObjectKey (OMeta state).
Definition commitBackfillMetadata (threadID : string) : M unit :=
  state <~ readMetadata;
  writeMetadata (add_committed threadID (default no_metadata state)).
Definition commitStreamMetadata (finishedState : MetadataState) : M unit :=
  state <~ readMetadata;
  writeMetadata (mergeStreamMetadataState (default no_metadata state) finishedState).

(** *** Promotion and removal *)
Definition finalKey (stagingPrefix key : string) : string :=
  s3ObjectKey (path_Join [basePath; TrimPrefix key stagingPrefix]).

Definition promote_one (stagingPrefix key : string) : M unit :=
  let relativePath := TrimPrefix key stagingPrefix in
  if String.eqb relativePath "" || String.eqb relativePath parquet2PCFinishFile then ret tt
  else copyS3Object key (finalKey stagingPrefix key) ;~ deleteS3Object key.
Definition promoteS3Staging (stagingPrefix : string) : M unit :=
  keys <~ listS3Keys stagingPrefix;
  each keys (promote_one stagingPrefix).

Definition deleteStagingPrefix (prefix : string) : M unit :=
  keys <~ listS3Keys prefix;
  match keys with
  | [] => ret tt
  | _ =>
      let finishKey := prefix +:+ parquet2PCFinishFile in
      let hasFinish := contains keys finishKey in
      let dataKeys := filter (λ k, k ≠ finishKey) keys in
      each (sched dataKeys) deleteS3Object ;~
      (if hasFinish then deleteS3Object finishKey else ret tt)
  end.

Definition finalizeBackfillStaging (prefix threadID : string) : M unit :=
  promoteS3Staging prefix ;~ commitBackfillMetadata threadID ;~ deleteStagingPrefix prefix.
Definition finalizeStreamStaging (prefix : string) (state : MetadataState) : M unit :=
  promoteS3Staging prefix ;~ commitStreamMetadata state ;~ deleteStagingPrefix prefix.

(** *** Recovery *)
Record parquet2PCStagingEntry := mkEntry { e_prefix : string; e_finished : bool }.

Definition entry_step (entries : list parquet2PCStagingEntry) (key : string) : list parquet2PCStagingEntry :=
  match Cut "/" (TrimPrefix key stagingRootPrefix) with
  | None => entries
  | Some (threadHash, stagedPath) =>
      let entryPrefix := stagingRootPrefix +:+ threadHash +:+ "/" in
      let entries := match entries with
                     | e :: _ => if String.eqb (e_prefix e) entryPrefix then entries else mkEntry entryPrefix false :: entries
                     | [] => [mkEntry entryPrefix false]
                     end in
      if String.eqb stagedPath parquet2PCFinishFile
      then match entries with e :: es => mkEntry (e_prefix e) true :: es | [] => [] end
      else entries
  end.
Definition listBackfillStagingEntries : M (list parquet2PCStagingEntry) :=
  keys <~ listS3Keys stagingRootPrefix;
  ret (reverse (foldl entry_step [] keys)).

Definition readBackfillFinish (key : string) : M string :=
  o <~ readS3Object key;
  match o with
  | Some (OThread t) => if String.eqb t "" then fail "parquet 2pc backfill thread ID is missing from finish state" else ret t
  | Some _ => fail "failed to unmarshal parquet 2pc backfill finish state"
  | None => fail "NoSuchKey"
  end.

Definition recoverBackfillStaging : M unit :=
  entries <~ listBackfillStagingEntries;
  each entries (λ entry,
    if negb (e_finished entry) then deleteStagingPrefix (e_prefix entry)
    else threadID <~ readBackfillFinish (e_prefix entry +:+ parquet2PCFinishFile);
         finalizeBackfillStaging (e_prefix entry) threadID).

Definition recoverSharedStaging : M unit :=
  keys <~ listS3Keys stagingRootPrefix;
  match keys with
  | [] => ret tt
  | _ =>
      if negb (contains keys sharedFinishObjectKey) then deleteStagingPrefix stagingRootPrefix
      else o <~ readS3Object sharedFinishObjectKey;
           match o with
           | Some (OFinish data) =>
               match parseFinishState data with
               | Some finishedState => finalizeStreamStaging stagingRootPrefix finishedState
               | None => fail "parquet 2pc metadata state is missing from shared staging"
               end
           | Some _ => fail "failed to unmarshal parquet 2pc finish state"
           | None => fail "NoSuchKey"
           end
  end.

Definition recoverStaging (backfill : bool) : M unit :=
  if backfill then recoverBackfillStaging else recoverSharedStaging.
Definition load2PCState (backfill : bool) : M (option MetadataState) :=
  recoverStaging backfill ;~ readMetadata.

(** *** parquet.go: [Close] on an S3 destination

    [dataFiles] are the closed local files, by relative path; [finalMetadataState] is
    nil or the state handed in by the abstract layer. *)
Definition uploadPqFiles (backfill : bool) (threadID : string) (dataFiles : list (string * string)) : M unit :=
  each (sched dataFiles) (λ f, writeS3Object (stagingObjectKey backfill threadID f.1) (OData f.2)).

Definition writeFinish (backfill : bool) (threadID : string) (o : object) : M unit :=
  writeS3Object (if backfill then backfillFinishObjectKey threadID else sharedFinishObjectKey) o.

Definition Close (backfill : bool) (threadID : string) (dataFiles : list (string * string))
    (finalMetadataState : option MetadataState) : M unit :=
  match backfill, dataFiles, parseFinishState finalMetadataState with
  | false, [], _ => ret tt
  | false, _, None => fail "cannot commit parquet CDC or incremental files without metadata state"
  | false, _, Some state =>
      recoverStaging false ;~
      uploadPqFiles false threadID dataFiles ;~
      writeFinish false threadID (OFinish (Some state)) ;~
      finalizeStreamStaging (currentStagingPrefix false threadID) state
  | true, _, _ =>
      recoverStaging true ;~
      uploadPqFiles true threadID dataFiles ;~
      writeFinish true threadID (OThread threadID) ;~
      finalizeBackfillStaging (currentStagingPrefix true threadID) threadID
  end.
End Ops.
