(* ===== verification/TwoPCFacts.v ===== *)
(** * Crash safety of the Parquet two-phase commit

    [triple I P m Q]: run from a store in [P], the routine [m] never fails, ends in
    [Q] when it is not interrupted, leaves a store in [I] when it is, and is only
    interrupted if its budget was finite. *)

From S2P Require Import Prelude GoString Value TwoPC.

(** ** A crash Hoare logic *)
Definition triple (I P : bucket → Prop) {A} (m : M A) (Q : A → bucket → Prop) : Prop :=
  ∀ s b, P s → match m s b with
               | Done a s' b' => Q a s' ∧ (b = None → b' = None)
               | Interrupted s' => I s' ∧ b ≠ None
               | Failed _ _ => False
               end.

Section Logic.
Context {I : bucket → Prop}.

Lemma t_ret {A} (a : A) P (Q : A → bucket → Prop) : (∀ s, P s → Q a s) → triple I P (ret a) Q.
Proof. intros HQ s b Hs. simpl. auto. Qed.
Lemma t_gets {A} (f : bucket → A) P Q : (∀ s, P s → Q (f s) s) → triple I P (gets f) Q.
Proof. intros HQ s b Hs. simpl. auto. Qed.
Lemma t_bind {A B} (m : M A) (f : A → M B) P R Q :
  triple I P m R → (∀ a, triple I (R a) (f a) Q) → triple I P (bind m f) Q.
Proof.
  intros Hm Hf s b Hs. unfold bind. specialize (Hm s b Hs). destruct (m s b) as [a s' b'|s'|e s']; [|done..].
  destruct Hm as [HR Hb]. specialize (Hf a s' b' HR). destruct (f a s' b') as [a' s'' b''|s''|e s'']; [|..|done].
  - destruct Hf as [? Hf]. split; [done|]. auto.
  - destruct Hf as [? Hf]. split; [done|]. intros ->. by apply Hf, Hb.
Qed.
Lemma t_write f P (Q : unit → bucket → Prop) :
  (∀ s, P s → I s) → (∀ s, P s → Q tt (f s)) → triple I P (write f) Q.
Proof. intros HI HQ s [[|n]|] Hs; simpl; split; auto; done. Qed.
Lemma t_each {A} (f : A → M unit) (Inv : list A → bucket → Prop) l :
  (∀ x l, triple I (Inv (x :: l)) (f x) (λ _, Inv l)) → triple I (Inv l) (each l f) (λ _, Inv []).
Proof.
  intros Hf. induction l as [|x l IH]; simpl; [by apply t_ret|]. eapply t_bind; [apply Hf|]. done.
Qed.
Lemma t_conseq {A} (m : M A) (P P' : bucket → Prop) (Q Q' : A → bucket → Prop) :
  triple I P' m Q' → (∀ s, P s → P' s) → (∀ a s, Q' a s → Q a s) → triple I P m Q.
Proof.
  intros Hm HP HQ s b Hs. specialize (Hm s b (HP s Hs)). destruct (m s b); [|done..]. destruct Hm; auto.
Qed.
(** A precondition that cannot hold. *)
Lemma t_false {A} (m : M A) P Q : (∀ s, ¬ P s) → triple I P m Q.
Proof. intros HP s b Hs. by apply HP in Hs. Qed.
Lemma t_pure {A} (m : M A) (φ : Prop) P Q : (φ → triple I P m Q) → triple I (λ s, φ ∧ P s) m Q.
Proof. intros Hm s b [Hφ Hs]. by apply Hm. Qed.
End Logic.

Lemma t_weaken {A} (m : M A) (I I' P : bucket → Prop) Q :
  triple I P m Q → (∀ s, I s → I' s) → triple I' P m Q.
Proof. intros Hm HI s b Hs. specialize (Hm s b Hs). destruct (m s b); [done| |done]. destruct Hm; auto. Qed.

(** ** Listing *)
Definition list_keys (prefix : string) (s : bucket) : list string :=
  merge_sort string_le (filter (λ k, HasPrefix k prefix = true) (map_to_list s).*1).

Lemma list_keys_perm prefix (s : bucket) :
  list_keys prefix s ≡ₚ filter (λ k, HasPrefix k prefix = true) (map_to_list s).*1.
Proof. apply merge_sort_Permutation. Qed.

Lemma elem_of_list_keys prefix (s : bucket) k : k ∈ list_keys prefix s ↔ HasPrefix k prefix = true ∧ is_Some (s !! k).
Proof.
  rewrite (list_keys_perm prefix s), list_elem_of_filter, list_elem_of_fmap. apply and_iff_compat_l. split.
  - intros ([k' o] & -> & Hin%elem_of_map_to_list). by exists o.
  - intros [o Ho]. exists (k, o). split; [done|]. by apply elem_of_map_to_list.
Qed.

Lemma NoDup_list_keys prefix (s : bucket) : NoDup (list_keys prefix s).
Proof. rewrite (list_keys_perm prefix s). apply NoDup_filter, NoDup_fst_map_to_list. Qed.

(** ** Rolling a staging area forward *)
Section Staging.
Context `{Table} `{Sched}.
Context (R : string).
Abbreviation F := (R +:+ parquet2PCFinishFile).
Abbreviation K := metadataObjectKey.
Abbreviation final := (finalKey R).
Abbreviation inR k := (HasPrefix k R = true).

Definition meta_of (s : bucket) : MetadataState :=
  match s !! K with Some (OMeta m) => m | _ => no_metadata end.
Definition meta_ok (s : bucket) : Prop := match s !! K with Some (OMeta _) | None => True | _ => False end.

Definition staged (s : bucket) (k : string) : Prop := inR k ∧ k ≠ F ∧ k ≠ R ∧ is_Some (s !! k).

(** Staged files go to distinct keys outside the staging area and off the metadata. *)
Record layout (s : bucket) : Prop := {
  l_out : ∀ k, staged s k → HasPrefix (final k) R = false ∧ final k ≠ K;
  l_inj : ∀ k k', staged s k → staged s k' → final k = final k' → k = k';
  l_meta : meta_ok s
}.

(** [t] is [s] with its staged files promoted, its metadata updated by [mu] and its
    staging area removed. *)
Record rolled (mu : MetadataState → MetadataState) (s t : bucket) : Prop := {
  r_clean : ∀ k, inR k → t !! k = None;
  r_meta : t !! K = Some (OMeta (mu (meta_of s)));
  r_files : ∀ k, staged s k → t !! final k = s !! k;
  r_rest : ∀ k, HasPrefix k R = false → k ≠ K → (∀ k', staged s k' → final k' ≠ k) → t !! k = s !! k
}.

Context (HK : HasPrefix K R = false).
Context (mu : MetadataState → MetadataState) (mu_idemp : ∀ m, mu (mu m) = mu m) (fo : object).

Lemma HasPrefix_self p t : HasPrefix (p +:+ t) p = true.
Proof. apply HasPrefix_spec. by exists t. Qed.
Lemma F_inR : inR F.
Proof. apply HasPrefix_self. Qed.
Lemma inR_ne k k' : inR k → HasPrefix k' R = false → k ≠ k'.
Proof. clear HK. congruence. Qed.

Lemma relative_cases k : inR k →
  (String.eqb (TrimPrefix k R) "" || String.eqb (TrimPrefix k R) parquet2PCFinishFile = true ↔ k = R ∨ k = F).
Proof.
  intros [rel ->]%HasPrefix_spec. rewrite TrimPrefix_app, orb_true_iff, !String.eqb_eq.
  assert (Hinj : ∀ a b, R +:+ a = R +:+ b ↔ a = b).
  { intros a b. split; [|by intros ->]. intros He. rewrite <- (TrimPrefix_app R a), He. apply TrimPrefix_app. }
  assert (R = R +:+ "") as HR.
  { clear. induction R as [|x r IH]; [done|]. change (String x r = String x (r +:+ "")). by rewrite <- IH. }
  rewrite Hinj. split; (intros [He|He]; [left|by right]); [by rewrite He, <- HR|]. rewrite HR in He at 2. by apply Hinj.
Qed.

Definition core (t s : bucket) : Prop := layout s ∧ s !! F = Some fo ∧ rolled mu s t.
Definition pending (t s : bucket) : Prop := core t s ∨ s = t.

(** Copying a staged file to its final key changes nothing logically. *)
Lemma core_copy t s x o : staged s x → s !! x = Some o → core t s → core t (<[final x := o]> s).
Proof.
  intros Hx Ho ([Hout Hinj Hm] & HF & [Hc Hk Hf Hr]). destruct (Hout x Hx) as [HxR HxK].
  assert (Hlook : ∀ k, inR k → <[final x := o]> s !! k = s !! k).
  { intros k Hk'. apply lookup_insert_ne. intros Heq. rewrite Heq in HxR. congruence. }
  assert (Hst : ∀ k, staged (<[final x := o]> s) k ↔ staged s k).
  { intros k. unfold staged. split; intros (Hk' & ? & ? & ?); (split_and!; [done..|]); by rewrite ?Hlook in *. }
  assert (HKl : <[final x := o]> s !! K = s !! K) by (by apply lookup_insert_ne).
  split_and!.
  - split.
    + intros k ?%Hst. by apply Hout.
    + intros k k' ?%Hst ?%Hst. by apply Hinj.
    + unfold meta_ok. by rewrite HKl.
  - rewrite Hlook; [done|apply F_inR].
  - split; [done| | |].
    + unfold meta_of. by rewrite HKl.
    + intros k Hsk%Hst. rewrite Hlook by apply Hsk. by apply Hf.
    + intros k H1 H2 H3. assert (Hne : ∀ k', staged s k' → final k' ≠ k) by (intros k' ?%Hst; by apply H3).
      rewrite lookup_insert_ne by (by apply Hne). by apply Hr.
Qed.

(** Deleting a staged file that was copied changes nothing logically. *)
Lemma core_delete t s x : inR x → x ≠ F → (staged s x → s !! final x = s !! x) → core t s → core t (delete x s).
Proof.
  intros HxR HxF Hcopied ([Hout Hinj Hm] & HF & [Hc Hk Hf Hr]).
  assert (Hst : ∀ k, staged (delete x s) k ↔ staged s k ∧ k ≠ x).
  { intros k. unfold staged. rewrite lookup_delete_is_Some. naive_solver. }
  assert (HKl : delete x s !! K = s !! K) by (apply lookup_delete_ne; by apply inR_ne).
  split_and!.
  - split.
    + intros k [? _]%Hst. by apply Hout.
    + intros k k' [? _]%Hst [? _]%Hst. by apply Hinj.
    + unfold meta_ok. by rewrite HKl.
  - by rewrite lookup_delete_ne.
  - split; [done| | |].
    + unfold meta_of. by rewrite HKl.
    + intros k [Hsk Hne]%Hst. rewrite lookup_delete_ne by done. by apply Hf.
    + intros k H1 H2 H3. rewrite lookup_delete_ne by (by apply inR_ne).
      destruct (decide (k = final x ∧ inR x ∧ x ≠ F ∧ x ≠ R ∧ is_Some (s !! x))) as [[-> Hsx]|Hn].
      * rewrite Hcopied by done. by apply Hf.
      * apply Hr; [done..|]. intros k' Hk' He. apply (H3 k'); [|done]. apply Hst. split; [done|].
        intros ->. apply Hn. split; [done|]. destruct Hk' as (? & ? & ? & ?). split_and!; done.
Qed.

Lemma t_list (I P : bucket → Prop) prefix : triple I P (listS3Keys prefix) (λ keys s, keys = list_keys prefix s ∧ P s).
Proof. apply t_gets. done. Qed.

Definition promote_inv t (l : list string) (s : bucket) : Prop :=
  core t s ∧ NoDup l ∧ (∀ k, k ∈ l → inR k ∧ is_Some (s !! k)) ∧ (∀ k, staged s k → k ∈ l).

Lemma t_promote_one t x l : triple (pending t) (promote_inv t (x :: l)) (promote_one R x) (λ _, promote_inv t l).
Proof.
  unfold promote_one. destruct (_ || _) eqn:E.
  - apply t_ret. intros s (Hc & [_ Hnd]%NoDup_cons & Hl & Hs). destruct (Hl x) as [Hx _]; [left|].
    apply relative_cases in E; [|done]. split_and!; [done..| |].
    + intros k Hk. apply Hl. by right.
    + intros k Hk. pose proof (Hs k Hk) as [->|?]%elem_of_cons; [|done]. destruct Hk as (_ & ? & ? & _). by destruct E.
  - unfold copyS3Object, deleteS3Object, writeS3Object, readS3Object.
    apply t_bind with (λ _ s, promote_inv t (x :: l) s ∧ staged s x ∧ s !! final x = s !! x).
    + apply t_bind with (λ o s, promote_inv t (x :: l) s ∧ staged s x ∧ o = s !! x).
      { apply t_gets. intros s (Hc & Hnd & Hl & Hs). split_and!; [by split_and!| |done]. destruct (Hl x) as [Hx Hex]; [left|].
        assert (¬ (x = R ∨ x = F)) as Hne by (rewrite <- relative_cases by done; by rewrite E).
        unfold staged. naive_solver. }
      intros [o|]; [|apply t_false; intros s (_ & (_ & _ & _ & [? ?]) & ?); congruence].
      apply t_write; [by intros s ((Hc & _) & _); left|].
      intros s ((Hc & Hnd & Hl & Hs) & Hx & Ho). pose proof Hc as ([Hout _ _] & _). destruct (Hout x Hx) as [HxR _].
      assert (Hlook : ∀ k, inR k → <[final x := o]> s !! k = s !! k)
        by (intros k Hk; apply lookup_insert_ne; intros Heq; rewrite Heq in HxR; congruence).
      assert (Hst : ∀ k, staged (<[final x := o]> s) k ↔ staged s k).
      { intros k. unfold staged. split; intros (Hk' & ? & ? & ?); (split_and!; [done..|]); by rewrite ?Hlook in *. }
      split_and!.
      * split_and!; [by apply core_copy|done| |].
        -- intros k Hk. destruct (Hl k Hk). split; [done|]. by rewrite Hlook.
        -- intros k ?%Hst. by apply Hs.
      * by apply Hst.
      * rewrite lookup_insert_eq, Hlook by apply Hx. done.
    + intros _. apply t_write; [by intros s ((Hc & _) & _); left|].
      intros s ((Hc & [Hx Hnd]%NoDup_cons & Hl & Hs) & Hsx & Heq). destruct Hsx as (HxR & HxF & HxN & Hex). split_and!.
      * by apply core_delete.
      * done.
      * intros k Hk. destruct (Hl k) as [? ?]; [by right|]. split; [done|].
        rewrite lookup_delete_ne; [done|]. intros ->. done.
      * intros k (HkR & HkF & HkN & [Hne Hk]%lookup_delete_is_Some).
        assert (k ∈ x :: l) as Hin by (by apply Hs). by apply elem_of_cons in Hin as [->|?].
Qed.

Lemma t_promote t : triple (pending t) (core t) (promoteS3Staging R) (λ _ s, core t s ∧ ∀ k, ¬ staged s k).
Proof.
  unfold promoteS3Staging. eapply t_bind; [apply t_list|]. intros keys. eapply t_conseq.
  - apply (t_each _ (promote_inv t)). intros x l. apply t_promote_one.
  - intros s [-> Hc]. split_and!; [done|apply NoDup_list_keys|intros k; by rewrite elem_of_list_keys|].
    intros k (? & _ & _ & ?). by apply elem_of_list_keys.
  - intros _ s (Hc & _ & _ & Hs). split; [done|]. intros k Hk%Hs. by apply elem_of_nil in Hk.
Qed.

Definition commit_meta : M unit := state <~ readMetadata; writeMetadata (mu (default no_metadata state)).

Lemma t_commit t :
  triple (pending t) (λ s, core t s ∧ ∀ k, ¬ staged s k) commit_meta
    (λ _ s, core t s ∧ (∀ k, ¬ staged s k) ∧ s !! K = t !! K).
Proof.
  unfold commit_meta, readMetadata, readS3Object, writeMetadata, writeS3Object.
  apply t_bind with (λ st s, core t s ∧ (∀ k, ¬ staged s k) ∧ default no_metadata st = meta_of s).
  - apply t_bind with (λ o s, core t s ∧ (∀ k, ¬ staged s k) ∧ o = s !! K); [apply t_gets; naive_solver|].
    intros [[d|f|th|m]|]; try (apply t_false; intros s (([_ _ Hm] & _) & _ & Ho); unfold meta_ok in Hm; by rewrite <- Ho in Hm).
    + apply t_ret. intros s (Hc & Hs & Ho). split_and!; [done..|]. unfold meta_of. by rewrite <- Ho.
    + apply t_ret. intros s (Hc & Hs & Ho). split_and!; [done..|]. unfold meta_of. by rewrite <- Ho.
  - intros st. apply t_write; [by intros s (Hc & _); left|]. intros s (([Hout Hinj Hm] & HF & [Hcl Hmeta Hf Hr]) & Hs & Hst).
    set (s' := <[K := OMeta (mu (default no_metadata st))]> s).
    assert (Hlook : ∀ k, k ≠ K → s' !! k = s !! k) by (intros k Hk; by apply lookup_insert_ne).
    assert (HsK : s' !! K = Some (OMeta (mu (meta_of s)))) by (unfold s'; by rewrite lookup_insert_eq, Hst).
    assert (Hst' : ∀ k, ¬ staged s' k).
    { intros k (HkR & ? & ? & Hex). apply (Hs k). split_and!; [done..|]. rewrite <- Hlook; [done|]. by apply inR_ne. }
    split_and!; [split_and!|done|by rewrite HsK, Hmeta].
    + split; [by intros k ?%Hst'|by intros k k' ?%Hst'|]. unfold meta_ok. by rewrite HsK.
    + rewrite Hlook; [done|]. apply inR_ne; [apply F_inR|done].
    + split; [done| |by intros k ?%Hst'|].
      * rewrite Hmeta. unfold meta_of at 2. rewrite HsK. by rewrite mu_idemp.
      * intros k H1 H2 _. rewrite Hlook by done. apply Hr; [done..|]. by intros k' ?%Hs.
Qed.

Definition delete_inv t (l : list string) (s : bucket) : Prop :=
  core t s ∧ (∀ k, ¬ staged s k) ∧ s !! K = t !! K
  ∧ (∀ k, k ∈ l → inR k ∧ k ≠ F) ∧ (∀ k, inR k → k ≠ F → is_Some (s !! k) → k ∈ l).

Lemma t_delete_one t x l : triple (pending t) (delete_inv t (x :: l)) (deleteS3Object x) (λ _, delete_inv t l).
Proof.
  apply t_write; [by intros s (Hc & _); left|]. intros s (Hc & Hs & HsK & Hl & Hall).
  destruct (Hl x) as [HxR HxF]; [left|]. split_and!.
  - apply core_delete; [done..| |done]. by intros ?%Hs.
  - intros k (? & ? & ? & [_ ?]%lookup_delete_is_Some). by apply (Hs k).
  - rewrite lookup_delete_ne; [done|]. by apply inR_ne.
  - intros k Hk. apply Hl. by right.
  - intros k HkR HkF [Hne Hex]%lookup_delete_is_Some.
    assert (k ∈ x :: l) as Hin by auto. by apply elem_of_cons in Hin as [->|?].
Qed.

Lemma t_delete_all t :
  triple (pending t) (λ s, core t s ∧ (∀ k, ¬ staged s k) ∧ s !! K = t !! K) (deleteStagingPrefix R) (λ _ s, s = t).
Proof.
  unfold deleteStagingPrefix. eapply t_bind; [apply t_list|]. intros keys.
  destruct keys as [|k0 keys']; [|set (keys := k0 :: keys')].
  { apply t_false. intros s (Hk & (_ & HF & _) & _). assert (F ∈ list_keys R s) as Hin.
    { apply elem_of_list_keys. split; [apply F_inR|by eexists]. }
    rewrite <- Hk in Hin. by apply elem_of_nil in Hin. }
  apply t_bind with (λ _ s, contains keys F = true ∧ delete_inv t [] s).
  - apply t_conseq with (λ s, contains keys F = true ∧ delete_inv t (sched (filter (λ k, k ≠ F) keys)) s)
      (λ _ s, contains keys F = true ∧ delete_inv t [] s).
    + apply t_pure. intros Hfin. eapply t_conseq; [apply (t_each _ (delete_inv t)); intros; apply t_delete_one|done|by intros].
    + intros s (Hk & Hc & Hs & HsK).
      assert (Helem : ∀ k, k ∈ keys ↔ inR k ∧ is_Some (s !! k)) by (intros k; rewrite Hk; apply elem_of_list_keys).
      split; [apply contains_true, Helem; split; [apply F_inR|]; destruct Hc as (_ & -> & _); by eexists|].
      split_and!; [done..| |]; intros k; rewrite (sched_perm (filter (λ k, k ≠ F) keys)), list_elem_of_filter, Helem; tauto.
    + done.
  - intros _. apply t_pure. intros ->. apply t_write; [by intros s (Hc & _); left|].
    intros s ((_ & HF & [Hcl Hmeta Hf Hr]) & Hs & HsK & _ & Hall). apply map_eq. intros k.
    destruct (decide (k = F)) as [->|HkF]; [rewrite lookup_delete_eq; by rewrite Hcl by apply F_inR|].
    rewrite lookup_delete_ne by done. destruct (HasPrefix k R) eqn:HkR.
    + rewrite Hcl by done. apply eq_None_not_Some. intros Hex. apply (Hall k HkR HkF) in Hex. by apply elem_of_nil in Hex.
    + destruct (decide (k = K)) as [->|HkK]; [done|]. symmetry. apply Hr; [done..|]. by intros k' ?%Hs.
Qed.

(** Finalising a finished staging area completes the roll-forward; interrupted anywhere,
    what is left still rolls forward to the same store. *)
Lemma t_finalize t :
  triple (pending t) (core t) (promoteS3Staging R ;~ commit_meta ;~ deleteStagingPrefix R) (λ _ s, s = t).
Proof.
  eapply t_bind; [apply t_promote|]. intros []. eapply t_bind; [apply t_commit|]. intros []. apply t_delete_all.
Qed.

(** ** Rolling an unfinished staging area back *)
Definition clean (v : bucket) : Prop := ∀ k, inR k → v !! k = None.
Definition unfinished (v s : bucket) : Prop := s !! F = None ∧ ∀ k, HasPrefix k R = false → s !! k = v !! k.

Lemma t_discard v : clean v → triple (unfinished v) (unfinished v) (deleteStagingPrefix R) (λ _ s, s = v).
Proof.
  intros Hv. unfold deleteStagingPrefix. eapply t_bind; [apply t_list|]. intros keys.
  assert (Heq : ∀ s, unfinished v s → (∀ k, inR k → s !! k = None) → s = v).
  { intros s [_ Ho] Hn. apply map_eq. intros k. destruct (HasPrefix k R) eqn:E; [by rewrite Hn, Hv|by apply Ho]. }
  destruct keys as [|k0 keys']; [|set (keys := k0 :: keys')].
  { apply t_ret. intros s [Hk Hu]. apply Heq; [done|]. intros k HkR. apply eq_None_not_Some. intros Hex.
    assert (k ∈ list_keys R s) as Hin by (by apply elem_of_list_keys). rewrite <- Hk in Hin. by apply elem_of_nil in Hin. }
  set (Inv := λ (l : list string) (s : bucket), unfinished v s ∧ (∀ k, k ∈ l → inR k) ∧ (∀ k, inR k → is_Some (s !! k) → k ∈ l)).
  apply t_bind with (λ _ s, contains keys F = false ∧ Inv [] s).
  - apply t_conseq with (λ s, contains keys F = false ∧ Inv (sched (filter (λ k, k ≠ F) keys)) s)
      (λ _ s, contains keys F = false ∧ Inv [] s).
    + apply t_pure. intros Hfin. eapply t_conseq; [apply (t_each _ Inv)|done|by intros]. intros x l.
      apply t_write; [by intros s [? _]|]. intros s ([HF Ho] & Hl & Hall). assert (HxR : inR x) by (apply Hl; left). split_and!.
      * split; [by apply lookup_delete_None; right|]. intros k Hk. rewrite lookup_delete_ne; [by apply Ho|]. by apply inR_ne.
      * intros k Hk. apply Hl. by right.
      * intros k HkR [Hne Hex]%lookup_delete_is_Some. assert (k ∈ x :: l) as Hin by auto.
        by apply elem_of_cons in Hin as [->|?].
    + intros s [Hk Hu]. assert (Helem : ∀ k, k ∈ keys ↔ inR k ∧ is_Some (s !! k)) by (intros k; rewrite Hk; apply elem_of_list_keys).
      pose proof Hu as [HF _]. assert (HFn : F ∉ keys) by (intros [_ [? ?]]%Helem; congruence).
      split; [by apply contains_false|]. split_and!; [done| |];
        intros k; rewrite (sched_perm (filter (λ k, k ≠ F) keys)), list_elem_of_filter, Helem; [tauto|].
      intros HkR Hex. split_and!; [|done..]. intros ->. destruct Hex. congruence.
    + done.
  - intros _. apply t_pure. intros ->. apply t_ret. intros s (Hu & _ & Hall). apply Heq; [done|].
    intros k HkR. apply eq_None_not_Some. intros Hex%Hall; [|done]. by apply elem_of_nil in Hex.
Qed.
End Staging.

(** ** Shared staging: CDC and incremental commits *)
Lemma mergeStreamMetadataState_idemp m next :
  mergeStreamMetadataState (mergeStreamMetadataState m next) next = mergeStreamMetadataState m next.
Proof.
  unfold mergeStreamMetadataState. f_equal; cbn [ms_ID ms_State FullRefreshCommittedIDs DedupInserts].
  - by destruct (ms_ID next).
  - destruct (ms_State next) as [[n|n]|], (ms_State m) as [[c|c]|]; simpl; try done; do 2 f_equal.
    + by rewrite map_union_assoc, map_union_idemp.
    + by rewrite map_union_idemp.
    + by rewrite map_union_idemp.
  - by destruct (DedupInserts next).
Qed.

Section Shared.
Context `{Table} `{Sched}.
Abbreviation R := stagingRootPrefix.
Abbreviation F := sharedFinishObjectKey.
Abbreviation K := metadataObjectKey.
Context (HK : HasPrefix K R = false).

(** A finished staging area with checkpoint [ms], which rolls forward to [t]. *)
Definition committed_to (ms : MetadataState) (t s : bucket) : Prop :=
  core R (λ m, mergeStreamMetadataState m ms) (OFinish (Some ms)) t s.

Lemma t_recover_unfinished v :
  clean R v → triple (unfinished R v) (unfinished R v) recoverSharedStaging (λ _ s, s = v).
Proof.
  intros Hv. unfold recoverSharedStaging. eapply t_bind; [apply t_list|]. intros keys.
  destruct keys as [|k0 keys']; [|set (keys := k0 :: keys')].
  - apply t_ret. intros s [Hk [_ Ho]]. apply map_eq. intros k. destruct (HasPrefix k R) eqn:E; [|by apply Ho].
    rewrite Hv by done. apply eq_None_not_Some. intros Hex. assert (k ∈ list_keys R s) as Hin by (by apply elem_of_list_keys).
    rewrite <- Hk in Hin. by apply elem_of_nil in Hin.
  - destruct (contains keys F) eqn:E; simpl.
    + apply t_false. intros s [Hk [HF _]]. rewrite contains_true, Hk, elem_of_list_keys in E. destruct E as [_ [o Ho]].
      unfold sharedFinishObjectKey in Ho. congruence.
    + eapply t_conseq; [by apply t_discard|by intros s [_ ?]|done].
Qed.

Lemma parseFinishState_kept ms : ms ≠ no_metadata → parseFinishState (Some ms) = Some ms.
Proof. by destruct ms as [[] [] [] []]. Qed.

Lemma t_recover_committed ms t : ms ≠ no_metadata →
  triple (λ s, committed_to ms t s ∨ s = t) (committed_to ms t) recoverSharedStaging (λ _ s, s = t).
Proof.
  intros Hms. unfold recoverSharedStaging. eapply t_bind; [apply t_list|]. intros keys.
  assert (Hin : ∀ s, committed_to ms t s → F ∈ list_keys R s).
  { intros s (_ & HF & _). apply elem_of_list_keys. split; [apply F_inR|by eexists]. }
  destruct keys as [|k0 keys']; [|set (keys := k0 :: keys')].
  { apply t_false. intros s [Hk Hc]. apply Hin in Hc. rewrite <- Hk in Hc. by apply elem_of_nil in Hc. }
  destruct (contains keys F) eqn:E; simpl.
  2:{ apply t_false. intros s [Hk Hc]. apply contains_false in E. apply E. rewrite Hk. by apply Hin. }
  apply t_bind with (λ o s, o = Some (OFinish (Some ms)) ∧ committed_to ms t s).
  { apply t_gets. intros s [_ Hc]. split; [by destruct Hc as (_ & ? & _)|done]. }
  intros o. apply t_pure. intros ->. rewrite (parseFinishState_kept ms Hms). apply (t_finalize R HK _ (λ m, mergeStreamMetadataState_idemp m ms)).
Qed.

(** The store after a series of recoveries, each interrupted or not. *)
Definition after_crashes (s : bucket) (budgets : list nat) : bucket :=
  foldl (λ s n, match recoverSharedStaging s (Some n) with Done _ s' _ | Interrupted s' | Failed _ s' => s' end) s budgets.

(** [settles s w]: however often recovery is interrupted, it ends in [w]. *)
Definition settles (s w : bucket) : Prop :=
  ∀ budgets, recoverSharedStaging (after_crashes s budgets) None = Done tt w None.

Lemma triple_settles (I : bucket → Prop) s w :
  I s → (∀ s, I s → triple I (λ x, x = s) recoverSharedStaging (λ _ x, x = w)) → I w → settles s w.
Proof.
  intros Hs Ht Hw budgets. revert s Hs. induction budgets as [|n budgets IH]; intros s Hs; simpl.
  - specialize (Ht s Hs s None eq_refl). destruct (recoverSharedStaging s None) as [[] s' b'|s'|e s']; [| |done].
    + destruct Ht as [-> Hb]. by rewrite Hb.
    + by destruct Ht.
  - apply IH. specialize (Ht s Hs s (Some n) eq_refl).
    destruct (recoverSharedStaging s (Some n)) as [[] s' b'|s'|e s']; [| |done]; by destruct Ht as [? _]; subst.
Qed.

Lemma clean_unfinished v : clean R v → unfinished R v v.
Proof. intros Hv. split; [apply Hv, F_inR|done]. Qed.

Lemma settles_unfinished v s : clean R v → unfinished R v s → settles s v.
Proof.
  intros Hv Hs. apply (triple_settles (unfinished R v)); [done| |by apply clean_unfinished].
  intros x Hx. eapply t_conseq; [by apply t_recover_unfinished|by intros ? ->|done].
Qed.

Lemma committed_clean ms t s : committed_to ms t s → clean R t.
Proof. intros (_ & _ & [Hc _ _ _]). done. Qed.

Lemma settles_committed ms t s : ms ≠ no_metadata → clean R t → committed_to ms t s ∨ s = t → settles s t.
Proof.
  intros Hms Ht Hs. apply (triple_settles (λ s, committed_to ms t s ∨ s = t)); [done| |by right].
  intros x [Hx| ->].
  - eapply t_conseq; [by apply (t_recover_committed ms)|by intros ? ->|done].
  - intros y b ->. pose proof (t_recover_unfinished t Ht t b (clean_unfinished t Ht)) as Hr.
    destruct (recoverSharedStaging t b) as [a s' b'|s'|e s'] eqn:Er; [done| |done].
    unfold recoverSharedStaging, bind, listS3Keys, gets in Er.
    change (merge_sort string_le (filter (λ k, HasPrefix k R = true) (map_to_list t).*1)) with (list_keys R t) in Er.
    destruct (list_keys R t) as [|k l] eqn:El; [done|].
    assert (k ∈ list_keys R t) as Hk by (rewrite El; left). apply elem_of_list_keys in Hk as [HkR [o Ho]].
    by rewrite Ht in Ho.
Qed.

(** *** Committing *)
Section Commit.
Context (threadID : string) (files : list (string * string)) (ms : MetadataState) (v : bucket).
Abbreviation skey f := (stagingObjectKey false threadID f.1).
Abbreviation dest f := (finalKey R (skey f)).

(** Files have distinct names, none called finish.json, and land outside the staging
    area and off the metadata object. *)
Record files_ok : Prop := {
  fo_name : ∀ f, f ∈ files → skey f ≠ F ∧ skey f ≠ R;
  fo_dest : ∀ f, f ∈ files → HasPrefix (dest f) R = false ∧ dest f ≠ K;
  fo_inj : ∀ f g, f ∈ files → g ∈ files → dest f = dest g → f = g;
  fo_nodup : NoDup files
}.

(** The table after the commit: the files at their keys, the checkpoint merged. *)
Definition after_commit : bucket :=
  <[K := OMeta (mergeStreamMetadataState (meta_of v) ms)]>
    (list_to_map ((λ f, (dest f, OData f.2)) <$> files) ∪ v).

Context (Hfiles : files_ok) (Hv : clean R v) (Hmeta : meta_ok v).

Lemma skey_inR (f : string * string) : HasPrefix (skey f) R = true.
Proof. apply HasPrefix_self. Qed.

Lemma dest_map k o :
  (list_to_map ((λ f, (dest f, OData f.2)) <$> files) : bucket) !! k = Some o ↔ ∃ f, f ∈ files ∧ k = dest f ∧ o = OData f.2.
Proof.
  destruct Hfiles as [_ _ Hinj Hnd]. rewrite <- elem_of_list_to_map.
  - rewrite list_elem_of_fmap. split; [intros (f & [= -> ->] & Hf); eauto|]. intros (f & Hf & -> & ->). eauto.
  - rewrite <- list_fmap_compose. apply NoDup_fmap_2_strong; [|done]. intros f g Hf Hg He. by apply Hinj.
Qed.

Lemma after_commit_file f : f ∈ files → after_commit !! dest f = Some (OData f.2).
Proof.
  intros Hf. unfold after_commit. rewrite lookup_insert_ne by (intros Heq; by destruct (fo_dest Hfiles f Hf)).
  apply lookup_union_Some_l, dest_map. eauto.
Qed.
Lemma after_commit_other k : k ≠ K → (∀ f, f ∈ files → k ≠ dest f) → after_commit !! k = v !! k.
Proof.
  intros Hk Hn. unfold after_commit. rewrite lookup_insert_ne by done. apply lookup_union_r.
  apply eq_None_not_Some. intros [o (f & Hf & -> & _)%dest_map]. by apply (Hn f Hf).
Qed.
Lemma after_commit_clean : clean R after_commit.
Proof.
  intros k Hk. rewrite after_commit_other; [by apply Hv|by apply (inR_ne R)|].
  intros f Hf. destruct (fo_dest Hfiles f Hf). by apply (inR_ne R).
Qed.

Definition uploaded (rem : list (string * string)) (s : bucket) : Prop :=
  unfinished R v s ∧ (∀ f, f ∈ rem → f ∈ files)
  ∧ (∀ f, f ∈ files → f ∈ rem ∨ s !! skey f = Some (OData f.2))
  ∧ (∀ k, HasPrefix k R = true → is_Some (s !! k) → ∃ f, f ∈ files ∧ k = skey f).

Lemma t_upload : triple (unfinished R v) (λ s, s = v) (uploadPqFiles false threadID files) (λ _, uploaded []).
Proof.
  unfold uploadPqFiles. eapply t_conseq.
  - apply (t_each _ uploaded). intros x l. apply t_write; [by intros s [? _]|]. intros s ([HF Ho] & Hrem & Hdone & Hin).
    assert (Hx : x ∈ files) by (apply Hrem; left). destruct (fo_name Hfiles x Hx) as [HxF _]. split_and!.
    + split; [by rewrite lookup_insert_ne|]. intros k Hk. rewrite lookup_insert_ne; [by apply Ho|].
      apply (inR_ne R); [apply skey_inR|done].
    + intros f Hf. apply Hrem. by right.
    + intros f Hf. destruct (Hdone f Hf) as [[->|?]%elem_of_cons|Hs]; [right; by rewrite lookup_insert_eq|by left|].
      right. destruct (decide (skey x = skey f)) as [He|He]; [|by rewrite lookup_insert_ne].
      assert (x = f) as -> by (apply (fo_inj Hfiles); [done..|by rewrite He]). by rewrite lookup_insert_eq.
    + intros k HkR. destruct (decide (skey x = k)) as [<-|He]; [by eauto|]. rewrite lookup_insert_ne by done. by apply Hin.
  - intros s ->. split_and!; [by apply clean_unfinished|..].
    + intros f. by rewrite (sched_perm files).
    + intros f Hf. left. by rewrite (sched_perm files).
    + intros k Hk [o Ho]. by rewrite Hv in Ho.
  - done.
Qed.

(** Writing the finish object is the commit point. *)
Lemma finish_commits s : uploaded [] s → committed_to ms after_commit (<[F := OFinish (Some ms)]> s).
Proof.
  intros ([HF Ho] & _ & Hdone & Hin). set (s' := <[F := OFinish (Some ms)]> s).
  assert (HFR : HasPrefix F R = true) by apply F_inR.
  assert (Hout : ∀ k, HasPrefix k R = false → s' !! k = v !! k).
  { intros k Hk. unfold s'. rewrite lookup_insert_ne; [by apply Ho|]. by apply (inR_ne R). }
  assert (Hst : ∀ k, staged R s' k ↔ ∃ f, f ∈ files ∧ k = skey f).
  { intros k. split.
    - intros (HkR & HkF & _ & Hex). unfold s' in Hex. rewrite lookup_insert_ne in Hex; [by apply Hin|]. intros Heq. by apply HkF.
    - intros (f & Hf & ->). destruct (fo_name Hfiles f Hf) as [HfF HfR]. split_and!; [apply skey_inR|done|done|].
      unfold s'. rewrite lookup_insert_ne by done. destruct (Hdone f Hf) as [Hn|Hs]; [by apply elem_of_nil in Hn|]. by eexists. }
  assert (Hval : ∀ f, f ∈ files → s' !! skey f = Some (OData f.2)).
  { intros f Hf. destruct (fo_name Hfiles f Hf) as [HfF _]. unfold s'. rewrite lookup_insert_ne by done.
    destruct (Hdone f Hf) as [Hn|Hs]; [by apply elem_of_nil in Hn|done]. }
  split_and!.
  - split.
    + intros k (f & Hf & ->)%Hst. by apply (fo_dest Hfiles).
    + intros k k' (f & Hf & ->)%Hst (g & Hg & ->)%Hst He. by rewrite (fo_inj Hfiles f g).
    + unfold meta_ok. rewrite Hout by done. exact Hmeta.
  - by apply lookup_insert_eq.
  - split.
    + apply after_commit_clean.
    + unfold after_commit. rewrite lookup_insert_eq. unfold meta_of. by rewrite Hout.
    + intros k (f & Hf & ->)%Hst. rewrite Hval by done. by apply after_commit_file.
    + intros k HkR HkK Hn. rewrite Hout by done. apply after_commit_other; [done|]. intros f Hf ->. apply (Hn (skey f)); [|done].
      apply Hst. eauto.
Qed.

Lemma t_close :
  files ≠ [] → ms ≠ no_metadata →
  triple (λ s, unfinished R v s ∨ committed_to ms after_commit s ∨ s = after_commit) (unfinished R v)
    (Close false threadID files (Some ms)) (λ _ s, s = after_commit).
Proof.
  intros Hne Hms. unfold Close. rewrite (parseFinishState_kept ms Hms). destruct files as [|f0 fs] eqn:Ef; [done|]. rewrite <- Ef in *.
  assert (HI : ∀ s, unfinished R v s → unfinished R v s ∨ committed_to ms after_commit s ∨ s = after_commit) by auto.
  eapply t_bind; [eapply t_weaken; [by apply t_recover_unfinished|done]|]. intros []. 
  eapply t_bind; [eapply t_weaken; [apply t_upload|done]|]. intros [].
  apply t_bind with (λ _, committed_to ms after_commit).
  - apply t_write; [intros s [? _]; auto|]. apply finish_commits.
  - intros []. eapply t_weaken; [|intros s Hs; right; exact Hs].
    apply (t_finalize R HK _ (λ m, mergeStreamMetadataState_idemp m ms)).
Qed.
End Commit.

(** C1: committing Parquet files to S3 is atomic across crashes.  Take a table [v]
    without staging leftovers, a store that differs from it only by an unfinished
    staging area, and files with distinct names.  Committing them with a checkpoint
    either completes, and then the store is exactly the table with the files at their
    final keys and the checkpoint merged into the metadata; or it is interrupted at any
    write, and then, however often recovery is itself interrupted, recovery ends in the
    old table or in the fully committed one, and nothing else.  It fails exactly when the
    checkpoint is empty, before it touches the store, and without interruption it
    completes otherwise. *)
Theorem parquet_commit_atomic threadID files ms v s b :
  files_ok threadID files → files ≠ [] → clean R v → meta_ok v → unfinished R v s →
  match Close false threadID files (Some ms) s b with
  | Done _ s' _ => ms ≠ no_metadata ∧ s' = after_commit threadID files ms v
  | Interrupted s' => ms ≠ no_metadata ∧ b ≠ None ∧ (settles s' v ∨ settles s' (after_commit threadID files ms v))
  | Failed e s' => ms = no_metadata ∧ s' = s ∧ e = "cannot commit parquet CDC or incremental files without metadata state"
  end.
Proof.
  intros Hf Hne Hv Hm Hs. destruct (decide (ms = no_metadata)) as [->|Hms]; [by destruct files|].
  pose proof (t_close threadID files ms v Hf Hv Hm Hne Hms s b Hs) as Ht.
  destruct (Close false threadID files (Some ms) s b) as [a s' b'|s'|e s']; [by destruct Ht| |done].
  destruct Ht as [[Hu|Hc] Hb]; (split_and!; [done..|]).
  - left. by apply settles_unfinished.
  - right. eapply settles_committed; [exact Hms|by apply after_commit_clean|exact Hc].
Qed.

End Shared.

(** ** Backfill staging: one chunk per thread *)
Lemma add_committed_idemp t m : add_committed t (add_committed t m) = add_committed t m.
Proof.
  unfold add_committed. f_equal. cbn [FullRefreshCommittedIDs]. destruct (contains (FullRefreshCommittedIDs m) t) eqn:E; [by rewrite E|].
  assert (contains (FullRefreshCommittedIDs m ++ [t]) t = true) as ->; [|done]. apply contains_true, elem_of_app. right. left.
Qed.

Lemma add_committed_NoDup t m :
  NoDup (FullRefreshCommittedIDs m) → NoDup (FullRefreshCommittedIDs (add_committed t m)) ∧ t ∈ FullRefreshCommittedIDs (add_committed t m).
Proof.
  intros Hnd. unfold add_committed. cbn [FullRefreshCommittedIDs]. destruct (contains _ t) eqn:E.
  - apply contains_true in E. done.
  - apply contains_false in E. split; [|apply elem_of_app; right; left]. apply NoDup_app. split_and!; [done| |apply NoDup_singleton].
    intros x Hx ->%list_elem_of_singleton. done.
Qed.

Section Backfill.
Context `{Table} `{Sched} (threadID : string).
Abbreviation RB := (backfillStagingPrefix threadID).

(** A chunk whose finish object is written: its roll-forward leads to [t]. *)
Definition chunk_committed (t s : bucket) : Prop := core RB (add_committed threadID) (OThread threadID) t s.

(** C11: a backfill chunk is committed exactly once.  Once its finish object exists,
    finalising the chunk (in the writer or in any later recovery) ends in one and the
    same store: every staged file at its final key, the staging area gone, and the
    chunk's thread recorded once among the committed ones with the earlier ones kept.
    Interrupted at any write it can be run again, with the same result, and it never
    fails. *)
Theorem backfill_chunk_exactly_once s t b :
  HasPrefix metadataObjectKey RB = false → chunk_committed t s → NoDup (FullRefreshCommittedIDs (meta_of s)) →
  match finalizeBackfillStaging RB threadID s b with
  | Done _ s' _ => s' = t
  | Interrupted s' => b ≠ None ∧ (s' = t ∨ chunk_committed t s')
  | Failed _ _ => False
  end
  ∧ (∃ b', finalizeBackfillStaging RB threadID s None = Done tt t b')
  ∧ (∀ k, staged RB s k → t !! finalKey RB k = s !! k)
  ∧ ∃ m, t !! metadataObjectKey = Some (OMeta m) ∧ threadID ∈ FullRefreshCommittedIDs m
      ∧ NoDup (FullRefreshCommittedIDs m) ∧ ∀ x, x ∈ FullRefreshCommittedIDs (meta_of s) → x ∈ FullRefreshCommittedIDs m.
Proof.
  intros HK Hc Hnd. assert (Ht := t_finalize RB HK _ (add_committed_idemp threadID) (OThread threadID) t).
  change (promoteS3Staging RB ;~ commit_meta _ ;~ deleteStagingPrefix RB) with (finalizeBackfillStaging RB threadID) in Ht.
  pose proof Hc as (_ & _ & [_ Hm Hf _]). split_and!.
  - specialize (Ht s b Hc). destruct (finalizeBackfillStaging RB threadID s b) as [a s' b'|s'|e s']; [by destruct Ht| |done].
    destruct Ht as [[Hp|Hp] Hb]; (split; [done|]); [by right|by left].
  - specialize (Ht s None Hc). destruct (finalizeBackfillStaging RB threadID s None) as [[] s' b'|s'|e s']; [|by destruct Ht|done].
    destruct Ht as [-> _]. eauto.
  - done.
  - eexists. split; [exact Hm|]. destruct (add_committed_NoDup threadID (meta_of s) Hnd) as [Hn Hin]. split_and!; [done..|].
    intros x Hx. unfold add_committed. cbn [FullRefreshCommittedIDs]. destruct (contains _ _); [done|]. apply elem_of_app. by left.
Qed.
End Backfill.

(** ** Witnesses *)
Section Witnesses.
#[local] Instance w_table : Table := {| Prefix := "/lake/"; basePath := "db/users"; sha256_hex t := "h" +:+ t |}.
#[local] Instance w_sched : Sched := {| sched A l := l; sched_perm A l := Permutation_refl _ |}.
Definition w_files : list (string * string) := [("a.parquet", "A"); ("year=2024/b.parquet", "B")].
Definition w_checkpoint : MetadataState := mkMeta (Some "cdc") (Some (SText "0/16B")) [] (Some false).
Definition w_crashed : bucket := {[ "lake/db/users/_olake_2pc/stale.parquet" := OData "X" ]}.

Lemma w_files_ok : files_ok "t" w_files.
Proof.
  split.
  - intros f Hf. unfold w_files in Hf. rewrite !elem_of_cons in Hf.
    destruct Hf as [->|[->|Hf]]; [split; vm_compute; discriminate..|by apply elem_of_nil in Hf].
  - intros f Hf. unfold w_files in Hf. rewrite !elem_of_cons in Hf.
    destruct Hf as [->|[->|Hf]]; [split; [vm_compute; reflexivity|vm_compute; discriminate]..|by apply elem_of_nil in Hf].
  - intros f g Hf Hg. unfold w_files in *. rewrite !elem_of_cons in *.
    destruct Hf as [->|[->|Hf]]; [..|by apply elem_of_nil in Hf];
      (destruct Hg as [->|[->|Hg]]; [..|by apply elem_of_nil in Hg]);
      intros He; lazymatch goal with |- ?a = ?a => reflexivity | _ => vm_compute in He; discriminate He end.
  - by_decide.
Qed.

Lemma parquet_commit_atomic_witness :
  Close false "t" w_files (Some w_checkpoint) w_crashed None
  = Done tt (after_commit "t" w_files w_checkpoint ∅) None.
Proof.
  assert (Hun : unfinished stagingRootPrefix ∅ w_crashed).
  { split; [vm_compute; reflexivity|]. intros k Hk. unfold w_crashed. rewrite lookup_empty. apply lookup_singleton_ne.
    intros <-. vm_compute in Hk. discriminate. }
  pose proof (parquet_commit_atomic (eq_refl _) "t" w_files w_checkpoint ∅ w_crashed None w_files_ok) as Hc.
  specialize (Hc ltac:(discriminate) ltac:(intros k _; apply lookup_empty) I Hun).
  destruct (Close false "t" w_files (Some w_checkpoint) w_crashed None) as [[] s' b'|s'|e s'] eqn:E.
  - destruct Hc as [_ ->]. f_equal. vm_compute in E. congruence.
  - destruct Hc as (_ & Hb & _). by destruct Hb.
  - by destruct Hc as [Hc _].
Defined.

Definition w_chunk : bucket := list_to_map
  [("lake/db/users/_olake_2pc/h7/p.parquet", OData "P"); ("lake/db/users/_olake_2pc/h7/finish.json", OThread "7")].
Definition w_chunk_done : bucket := list_to_map
  [("lake/db/users/p.parquet", OData "P"); ("lake/db/users/metadata.json", OMeta (mkMeta None None ["7"] (Some true)))].

Lemma w_chunk_staged k : staged (backfillStagingPrefix "7") w_chunk k → k = "lake/db/users/_olake_2pc/h7/p.parquet".
Proof.
  intros (_ & HkF & _ & [o Ho]). apply elem_of_list_to_map_2 in Ho. rewrite !elem_of_cons in Ho.
  destruct Ho as [[= -> _]|[[= -> _]|Ho]]; [done| |by apply elem_of_nil in Ho]. destruct HkF. vm_compute. reflexivity.
Qed.

Lemma backfill_chunk_exactly_once_witness :
  ∃ b', finalizeBackfillStaging (backfillStagingPrefix "7") "7" w_chunk None = Done tt w_chunk_done b'.
Proof.
  apply (backfill_chunk_exactly_once "7" w_chunk w_chunk_done None).
  - vm_compute. reflexivity.
  - split_and!.
    + split.
      * intros k ->%w_chunk_staged. split; [vm_compute; reflexivity|vm_compute; discriminate].
      * by intros k k' ->%w_chunk_staged ->%w_chunk_staged.
      * exact I.
    + vm_compute. reflexivity.
    + split.
      * intros k Hk. apply eq_None_not_Some. intros [o Ho%elem_of_list_to_map_2]. rewrite !elem_of_cons in Ho.
        destruct Ho as [[= -> _]|[[= -> _]|Ho]]; [vm_compute in Hk; discriminate..|by apply elem_of_nil in Ho].
      * vm_compute. reflexivity.
      * intros k ->%w_chunk_staged. vm_compute. reflexivity.
      * intros k HkR HkK Hn. transitivity (None (A := object)).
        -- apply eq_None_not_Some. intros [o Ho%elem_of_list_to_map_2]. rewrite !elem_of_cons in Ho.
           destruct Ho as [[= -> _]|[[= -> _]|Ho]]; [|by destruct HkK|by apply elem_of_nil in Ho].
           apply (Hn "lake/db/users/_olake_2pc/h7/p.parquet"); [|vm_compute; reflexivity].
           split_and!; [vm_compute; reflexivity|vm_compute; discriminate|vm_compute; discriminate|by eexists].
        -- symmetry. apply eq_None_not_Some. intros [o Ho%elem_of_list_to_map_2]. rewrite !elem_of_cons in Ho.
           destruct Ho as [[= -> _]|[[= -> _]|Ho]]; [vm_compute in HkR; discriminate..|by apply elem_of_nil in Ho].
  - constructor.
Defined.
End Witnesses.
