(* ===== verification/Fields.v ===== *)
(** * utils/typeutils: fields.go, resolver.go, flatten.go, filter.go

    Schema evolution of a writer ([Fields]), sampling ([Resolve]), flattening of
    records and the record filter. *)

From S2P Require Import Prelude GoString GoSet DataTypes Value Schema Stream.

(** ** fields.go *)
Record Field := mkField {
  dataType : option DataType;          (* the cached type; nil after a new occurrence *)
  isNull : bool;
  typeOccurrence : gset DataType
}.
Abbreviation Fields := (gmap string Field) (only parsing).
Abbreviation Record_ := (gmap string any) (only parsing).

Definition NewField (t : DataType) : Field := mkField (Some t) false {[t]}.

(** [getType] without its caching: [None] is the fatal "can't be empty". *)
Definition field_type (f : Field) : option DataType :=
  match dataType f with
  | Some t => Some t
  | None => match elements (typeOccurrence f) with
            | [] => None
            | t :: ts => Some (foldl GetCommonAncestorType t ts)
            end
  end.
(** [getType] caches its result in the field. *)
Definition getType (f : Field) : result (DataType * Field) :=
  match field_type f with
  | Some t => Ok (t, mkField (Some t) (isNull f) (typeOccurrence f))
  | None => Panic "Field typeOccurrence can't be empty"
  end.
Definition Field_Types (f : Field) : list DataType := elements (typeOccurrence f).
Definition setNullable (f : Field) : Field := mkField (dataType f) true (typeOccurrence f).
Definition isNullable (f : Field) : bool := isNull f || bool_decide (Null ∈ typeOccurrence f).

Definition merge_type (f : Field) (t : DataType) : Field :=
  if bool_decide (t ∈ typeOccurrence f) then f else mkField None (isNull f) ({[t]} ∪ typeOccurrence f).
Definition Field_Merge (f anotherField : Field) : Field := foldl merge_type f (elements (typeOccurrence anotherField)).

Section Fields.
Context `{GoEnv} `{GoHash string} `{GoRange}.

Definition Fields_Merge (f other : Fields) : Fields :=
  foldl (λ f kv, match f !! kv.1 with
                 | Some current => <[kv.1 := Field_Merge current kv.2]> f
                 | None => <[kv.1 := kv.2]> f
                 end) f (range other).

Definition Fields_Clone (f : Fields) : Fields := (λ p, mkField (dataType p) false (typeOccurrence p)) <$> f.

Definition OverrideTypes (f other : Fields) : Fields :=
  foldl (λ f kv, match f !! kv.1 with
                 | Some current => <[kv.1 := mkField (dataType kv.2) (isNull current) (typeOccurrence kv.2)]> f
                 | None => f
                 end) f (range other).

Definition Fields_Add (f other : Fields) : Fields :=
  foldl (λ f kv, match f !! kv.1 with Some _ => f | None => <[kv.1 := kv.2]> f end) f (range other).

(** The state of the loop in [Process]: the fields, the two flags, the mutations. *)
Definition process_one (st : Fields * bool * bool * Fields) (kv : string * any) : result (Fields * bool * bool * Fields) :=
  let '(f, changeDetected, typeChangeDetected, mutations) := st in
  let '(key, value) := kv in
  let detectedType := TypeFromValue value in
  match f !! key with
  | Some val =>
      '(currentType, val) ← getType val;
      let f := <[key := val]> f in
      if negb (String.eqb detectedType Null) && negb (String.eqb currentType detectedType) then
        '(updatedType, val) ← getType (Field_Merge val (NewField detectedType));
        let f := <[key := val]> f in
        if String.eqb updatedType currentType then Ok (f, changeDetected, typeChangeDetected, mutations)
        else Ok (f, changeDetected, true, <[key := NewField detectedType]> mutations)
      else Ok (f, changeDetected, typeChangeDetected, mutations)
  | None => Ok (f, true, typeChangeDetected, <[key := NewField detectedType]> mutations)
  end.

Definition Process (f : Fields) (record : Record_) : result (bool * bool * Fields * Fields) :=
  '(f, changeDetected, typeChangeDetected, mutations) ← foldM process_one (f, false, false, ∅) (range record);
  Ok (changeDetected, typeChangeDetected, mutations, Fields_Merge f mutations).

Definition ToProperties (f : Fields) : gmap string Property :=
  (λ p, mkProperty (NewSet (Field_Types p)) "" false) <$> f.

Definition FromSchema (f : Fields) (schema : gmap string Property) (resolve : string → string) : Fields :=
  foldl (λ f kv, <[Ternary (negb (String.eqb (DestinationColumnName kv.2) "")) (resolve kv.1) kv.1 := NewField (Property_DataType kv.2)]> f)
    f (range schema).

(** ** resolver.go *)
Definition resolve_object (allfields : Fields) (object : Record_) : Fields :=
  let fields := (λ v, NewField (TypeFromValue v)) <$> object in
  let allfields := map_imap (λ k f, Some (match object !! k with Some _ => f | None => setNullable f end)) allfields in
  Fields_Merge allfields fields.

(** [*field.dataType] is a nil dereference once two types were merged. *)
Definition Resolve (stream : Stream) (objects : list Record_) : result Stream :=
  foldM (λ s kv, match dataType kv.2 with
                 | Some t => Ok (UpsertField s kv.1 t (isNullable kv.2) false)
                 | None => Panic "nil pointer dereference"
                 end) stream (range (foldl resolve_object ∅ objects)).

(** ** flatten.go *)
Section Flatten.
Context (json_marshal : any → option string) (resolveColumnName : string → string).

(** [resolveKey] with the batch cache threaded through. *)
Definition resolveKey (cache : gmap string string) (key : string) : string * gmap string string :=
  match cache !! key with
  | Some k => (k, cache)
  | None => let resolved := resolveColumnName key in (resolved, <[key := resolved]> cache)
  end.

(** Nil values are omitted ([omitNilValues] is always true). *)
Definition flatten_value (v : any) : result any :=
  match v with
  | ABool _ | AInt _ _ | AFloat32 _ | AFloat64 _ | AString _ | ATime _ | ANumber _ => Ok v
  | ABytes s => Ok (AString s)
  | _ => match json_marshal v with Some b => Ok (AString b) | None => Err "json: unsupported" end
  end.

Definition flatten (st : gmap string string * Record_) (kv : string * any) : result (gmap string string * Record_) :=
  let '(cache, destination) := st in
  let '(key, value) := kv in
  match value with
  | ANil => Ok (cache, destination)
  | _ =>
      let '(outKey, cache) := resolveKey cache key in
      v ← flatten_value value;
      Ok (cache, <[outKey := v]> destination)
  end.

Definition Flatten (cache : gmap string string) (data : Record_) : result (gmap string string * Record_) :=
  foldM flatten (cache, ∅) (range data).
End Flatten.

(** ** filter.go *)
Record RawRecord := mkRaw { Data : Record_; OlakeColumns : Record_ }.
Record parsedCondition := mkParsed { pc_column : string; pc_operator : string; pc_value : any }.

(** The schema is an [any]: the two types the destinations hand in, or another type, by its name. *)
Inductive filter_schema := ParquetSchema (f : Fields) | IcebergSchema (m : gmap string string) | OtherSchema (type : string).

Definition missing_column (column : string) : string := "filter column [" +:+ column +:+ "] missing from schema".

Definition getFilterColumnDataType (column : string) (schema : filter_schema) : result DataType :=
  match schema with
  | ParquetSchema s => match s !! column with
                       | Some field => fst <$> getType field
                       | None => Err (missing_column column)
                       end
  | IcebergSchema s => match s !! column with
                       | Some t => Ok (IcebergTypeToDatatype t)
                       | None => Err (missing_column column)
                       end
  | OtherSchema t => Err ("unsupported schema type for filtering: " +:+ t)
  end.

Definition evaluate (recordVal filterVal : any) (operator : string) : result bool :=
  if is_nil recordVal || is_nil filterVal then
    let eq := is_nil recordVal && is_nil filterVal in
    Ok (String.eqb operator "=" && eq || String.eqb operator "!=" && negb eq)
  else
    cmp ← Compare recordVal filterVal;
    Ok (String.eqb operator "=" && (cmp =? 0) || String.eqb operator "!=" && negb (cmp =? 0)
        || String.eqb operator ">" && (0 <? cmp) || String.eqb operator ">=" && (0 <=? cmp)
        || String.eqb operator "<" && (cmp <? 0) || String.eqb operator "<=" && (cmp <=? 0)).

Fixpoint matches_loop (record : RawRecord) (conditions : list parsedCondition) (isOr : bool) : result bool :=
  match conditions with
  | [] => Ok (negb isOr)
  | c :: cs =>
      b ← evaluate (default ANil (Data record !! pc_column c)) (pc_value c) (pc_operator c);
      if Bool.eqb b isOr then Ok isOr else matches_loop record cs isOr
  end.
Definition matches (record : RawRecord) (conditions : list parsedCondition) (logicalOp : string) : result bool :=
  matches_loop record conditions (EqualFoldWord (TrimSpace logicalOp) "OR").

Definition parse_condition (schema : filter_schema) (resolve : string → string) (cond : FilterCondition) : result parsedCondition :=
  let column := resolve (Column cond) in
  dt ← getFilterColumnDataType column schema;
  match ParseFilterValue dt (CondValue cond) with
  | Ok v => Ok (mkParsed column (Operator cond) v)
  | Err e => if String.eqb e ErrNullValue then Ok (mkParsed column (Operator cond) ANil)
             else Err ("failed to parse filter value for column [" +:+ column +:+ "]: " +:+ e)
  | Panic m => Panic m
  end.

Fixpoint mapM_result {A B} (f : A → result B) (l : list A) : result (list B) :=
  match l with [] => Ok [] | x :: l' => y ← f x; ys ← mapM_result f l'; Ok (y :: ys) end.

(** [utils.Concurrent]: every element has its own task and [Wait] returns the error of a task
    that failed.  The tasks of the filter return no error and only write their own slot
    of [keep], so their order does not matter; comparing values of kinds that do not
    convert into each other panics. *)
Definition Concurrent {A B} (array : list A) (execute : A → result B) : result (list B) := mapM_result execute array.

Definition is_delete (r : RawRecord) : bool :=
  match OlakeColumns r !! OpType with Some (AString op) => String.eqb op "d" | _ => false end.

Definition FilterRecords (records : list RawRecord) (filter : FilterConfig) (isLegacy : bool) (schema : filter_schema)
    (resolve : string → string) (keepDeletesThroughFilter : bool) : result (list RawRecord) :=
  if bool_decide (conditions_list filter = []) || isLegacy then Ok records
  else
    let passes r := keepDeletesThroughFilter && is_delete r in
    keep ← (if forallb passes records then Ok (replicate (length records) true)
            else conditions ← mapM_result (parse_condition schema resolve) (conditions_list filter);
                 Concurrent records (λ r, if passes r then Ok true else matches r conditions (LogicalOperator filter)));
    Ok (omap (λ rk : RawRecord * bool, if rk.2 then Some rk.1 else None) (zip records keep)).
End Fields.
