(* ===== verification/FieldsFacts.v ===== *)
(** * Theorems about schema evolution, flattening and filtering *)

From S2P Require Import Prelude GoString GoSet DataTypes Value ValueFacts Schema Stream Fields.

(** ** Fields *)
Definition joined (f : Field) : DataType := join_all (elements (typeOccurrence f)).
Definition field_wf (f : Field) : Prop :=
  typeOccurrence f ≠ ∅ ∧ ∀ t, dataType f = Some t → t = joined f.
Definition fields_wf (f : gmap string Field) : Prop := map_Forall (λ _ fd, field_wf fd) f.

Lemma elements_nonempty (X : gset DataType) : X ≠ ∅ → ∃ t ts, elements X = t :: ts.
Proof. intros HX. destruct (elements X) as [|t ts] eqn:E; [|eauto]. by apply elements_empty_inv, leibniz_equiv in E. Qed.

Lemma field_type_wf f : field_wf f → field_type f = Some (joined f).
Proof.
  intros [Hne Hc]. unfold field_type, joined. destruct (dataType f) as [t|]; [by rewrite (Hc t)|].
  destruct (elements_nonempty _ Hne) as (t & ts & ->). done.
Qed.

Lemma getType_wf f : field_wf f → ∃ f', getType f = Ok (joined f, f') ∧ field_wf f' ∧ joined f' = joined f
  ∧ typeOccurrence f' = typeOccurrence f.
Proof.
  intros Hf. unfold getType. rewrite field_type_wf by done. eexists. split; [done|]. split_and!; [|done..].
  split; [apply Hf|]. simpl. by intros t [= <-].
Qed.

Lemma NewField_wf t : field_wf (NewField t) ∧ joined (NewField t) = t.
Proof.
  unfold field_wf, joined, NewField. simpl. rewrite elements_singleton. split; [split; [set_solver|]|done]. by intros ? [= <-].
Qed.

Lemma Field_Merge_New f t : Field_Merge f (NewField t) = merge_type f t.
Proof. unfold Field_Merge, NewField. simpl. by rewrite elements_singleton. Qed.

(** Adding a type already seen, other than the resolved one, does not move the join. *)
Lemma join_absorbs l d : NoDup l → d ∈ l → join_all l ≠ d → join_all l ⊔ₜ d = join_all l.
Proof.
  intros Hnd Hd Hne. apply list_elem_of_split in Hd as (l1 & l2 & ->).
  assert (Hp : l1 ++ d :: l2 ≡ₚ d :: l1 ++ l2) by (by rewrite Permutation_middle).
  rewrite (join_all_perm _ _ Hp) in *. destruct (l1 ++ l2) as [|x l] eqn:E; [done|].
  rewrite join_all_cons. destruct (decide (d ∈ weighted_types)) as [Hw|Hw].
  - by rewrite lca_comm, lca_assoc, lca_idemp.
  - assert (weight d = None) as Hn.
    { by destruct (weight_cases d). }
    rewrite !(lca_unweighted d) by auto. by rewrite lca_string_l.
Qed.

Lemma merge_type_spec f d : field_wf f → joined f ≠ d →
  field_wf (merge_type f d) ∧ joined (merge_type f d) = joined f ⊔ₜ d ∧ d ∈ typeOccurrence (merge_type f d).
Proof.
  intros Hf Hne. unfold merge_type. case_bool_decide as Hin.
  - split_and!; [done| |done]. symmetry. apply join_absorbs; [apply NoDup_elements|by apply elem_of_elements|done].
  - split_and!; [|unfold joined; simpl|simpl; set_solver].
    + split; [simpl; set_solver|done].
    + assert (elements ({[d]} ∪ typeOccurrence f) ≡ₚ d :: elements (typeOccurrence f)) as Hp by (by apply elements_union_singleton).
      rewrite (join_all_perm _ _ Hp). destruct Hf as [Hne' _]. destruct (elements_nonempty _ Hne') as (t & ts & ->).
      rewrite join_all_cons. apply lca_comm.
Qed.

(** Folding an update over the entries of a map touches each key once. *)
Lemma foldl_range_upd `{GoRange} {A B} (g : option A → B → A) (f : gmap string A) (other : gmap string B) k :
  foldl (λ f kv, <[kv.1 := g (f !! kv.1) kv.2]> f) f (range other) !! k
  = match other !! k with Some b => Some (g (f !! k) b) | None => f !! k end.
Proof.
  assert (Hgen : ∀ (l : list (string * B)) (f : gmap string A), NoDup l.*1 →
    foldl (λ f kv, <[kv.1 := g (f !! kv.1) kv.2]> f) f l !! k
    = match (list_to_map l : gmap string B) !! k with Some b => Some (g (f !! k) b) | None => f !! k end).
  { clear f other. induction l as [|[k' b] l IH]; intros f; [done|]. cbn [foldl fst snd fmap list_fmap].
    intros [Hk Hnd]%NoDup_cons. rewrite IH by done. cbn [list_to_map foldr uncurry]. destruct (decide (k' = k)) as [->|Hne].
    - rewrite lookup_insert_eq. rewrite (not_elem_of_list_to_map_1 l k) by done. by rewrite !lookup_insert_eq.
    - by rewrite !lookup_insert_ne by done. }
  rewrite Hgen by apply range_NoDup_keys. destruct (other !! k) as [b|] eqn:E.
  - apply elem_of_range in E. apply elem_of_list_to_map in E; [by rewrite E|apply range_NoDup_keys].
  - rewrite (not_elem_of_list_to_map_1 (range other) k); [done|].
    intros ([k' b] & -> & Hin%elem_of_range)%list_elem_of_fmap. simpl in E. congruence.
Qed.

Section FieldsFacts.
Context `{GoEnv} `{GoRange}.

Lemma Fields_Merge_lookup (f other : gmap string Field) k :
  Fields_Merge f other !! k
  = match f !! k, other !! k with
    | Some a, Some b => Some (Field_Merge a b)
    | None, o => o
    | a, None => a
    end.
Proof.
  unfold Fields_Merge.
  rewrite (foldl_ext_fun _ (λ f kv, <[kv.1 := (λ o b, match o with Some a => Field_Merge a b | None => b end) (f !! kv.1) kv.2]> f)).
  - rewrite (foldl_range_upd (λ o b, match o with Some a => Field_Merge a b | None => b end)). by destruct (f !! k), (other !! k).
  - intros g [k' b]. simpl. by destruct (g !! k').
Qed.

(** What one record does to the type of a column. *)
Definition evolved (o : option Field) (d : DataType) : DataType :=
  match o with
  | Some fd => if bool_decide (d = Null) then joined fd else if bool_decide (joined fd = d) then joined fd else joined fd ⊔ₜ d
  | None => d
  end.

Definition widens (f : gmap string Field) (k : string) (v : any) : bool :=
  match f !! k with Some fd => negb (bool_decide (evolved (Some fd) (TypeFromValue v) = joined fd)) | None => false end.
Definition is_new (f : gmap string Field) (k : string) : bool := match f !! k with Some _ => false | None => true end.

(** One iteration on a key that was not processed yet. *)
Lemma process_one_spec f c t m k v : fields_wf f →
  ∃ f' m', process_one (f, c, t, m) (k, v) = Ok (f', c || is_new f k, t || widens f k v, m') ∧ fields_wf f'
  ∧ (∀ k', k' ≠ k → f' !! k' = f !! k' ∧ m' !! k' = m !! k')
  ∧ match f !! k with
    | None => f' !! k = None ∧ m' !! k = Some (NewField (TypeFromValue v))
    | Some fd => ∃ fd', f' !! k = Some fd' ∧ joined fd' = evolved (Some fd) (TypeFromValue v)
        ∧ (m' !! k = m !! k ∨ (m' !! k = Some (NewField (TypeFromValue v)) ∧ TypeFromValue v ∈ typeOccurrence fd'))
    end.
Proof.
  intros Hwf. unfold process_one, is_new, widens. set (d := TypeFromValue v). destruct (f !! k) as [fd|] eqn:Ek.
  2:{ exists f, (<[k := NewField d]> m). rewrite orb_true_r, orb_false_r. split_and!; try done; [|by rewrite lookup_insert_eq].
      intros k' Hk. by rewrite lookup_insert_ne. }
  rewrite orb_false_r. destruct (getType_wf fd (Hwf _ _ Ek)) as (fd1 & -> & Hwf1 & Hj1 & Ho1). simpl.
  unfold evolved. destruct (decide (d = Null)) as [Hn|Hn]; [|destruct (decide (joined fd = d)) as [Hd|Hd]].
  - rewrite (bool_decide_eq_true_2 _ Hn), Hn. simpl. rewrite bool_decide_eq_true_2 by done. rewrite orb_false_r.
    exists (<[k := fd1]> f), m. split_and!; [done|by apply map_Forall_insert_2| |].
    + intros k' Hk. by rewrite lookup_insert_ne.
    + exists fd1. rewrite lookup_insert_eq. auto.
  - rewrite (bool_decide_eq_false_2 _ Hn), (bool_decide_eq_true_2 _ Hd), Hd, String.eqb_refl, andb_false_r. simpl.
    rewrite bool_decide_eq_true_2 by done. rewrite orb_false_r.
    exists (<[k := fd1]> f), m. split_and!; [done|by apply map_Forall_insert_2| |].
    + intros k' Hk. by rewrite lookup_insert_ne.
    + exists fd1. rewrite lookup_insert_eq, Hj1. auto.
  - rewrite (bool_decide_eq_false_2 _ Hn), (bool_decide_eq_false_2 _ Hd).
    apply String.eqb_neq in Hn as Hn'. apply String.eqb_neq in Hd as Hd'. rewrite Hn', Hd'. simpl.
    rewrite Field_Merge_New. destruct (merge_type_spec fd1 d Hwf1 ltac:(by rewrite Hj1)) as (Hwf2 & Hj2 & Hin).
    destruct (getType_wf _ Hwf2) as (fd2 & -> & Hwf3 & Hj3 & Ho3). simpl. rewrite Hj2, Hj1.
    destruct (String.eqb_spec (joined fd ⊔ₜ d) (joined fd)) as [Heq|Hneq].
    + rewrite bool_decide_eq_true_2 by done. rewrite orb_false_r. eexists _, m. split; [done|]. split_and!.
      * by apply map_Forall_insert_2, map_Forall_insert_2.
      * intros k' Hk. by rewrite !lookup_insert_ne.
      * exists fd2. rewrite lookup_insert_eq. split_and!; [done|by rewrite Hj3, Hj2, Hj1|by left].
    + rewrite bool_decide_eq_false_2 by done. rewrite orb_true_r. eexists _, _. split; [done|]. split_and!.
      * by apply map_Forall_insert_2, map_Forall_insert_2.
      * intros k' Hk. by rewrite !lookup_insert_ne.
      * exists fd2. rewrite !lookup_insert_eq. split_and!; [done|by rewrite Hj3, Hj2, Hj1|right]. by rewrite Ho3.
Qed.

Lemma process_fold f c t m l : fields_wf f → NoDup (fst <$> l) →
  ∃ f' m', foldM process_one (f, c, t, m) l
           = Ok (f', c || existsb (λ kv, is_new f kv.1) l, t || existsb (λ kv, widens f kv.1 kv.2) l, m') ∧ fields_wf f'
  ∧ (∀ k', k' ∉ (fst <$> l) → f' !! k' = f !! k' ∧ m' !! k' = m !! k')
  ∧ ∀ k v, (k, v) ∈ l → match f !! k with
    | None => f' !! k = None ∧ m' !! k = Some (NewField (TypeFromValue v))
    | Some fd => ∃ fd', f' !! k = Some fd' ∧ joined fd' = evolved (Some fd) (TypeFromValue v)
        ∧ (m' !! k = m !! k ∨ (m' !! k = Some (NewField (TypeFromValue v)) ∧ TypeFromValue v ∈ typeOccurrence fd'))
    end.
Proof.
  revert f c t m. induction l as [|[k v] l IH]; intros f c t m Hwf Hnd.
  { exists f, m. cbn [foldM existsb]. rewrite !orb_false_r. split_and!; try done. intros k v Hin. by apply elem_of_nil in Hin. }
  cbn [fmap list_fmap fst] in Hnd. apply NoDup_cons in Hnd as [Hk Hnd]. cbn [foldM existsb fst snd].
  destruct (process_one_spec f c t m k v Hwf) as (f1 & m1 & -> & Hwf1 & Ho & Hs).
  destruct (IH f1 (c || is_new f k) (t || widens f k v) m1 Hwf1 Hnd) as (f' & m' & -> & Hwf' & Ho' & Hs').
  assert (Hsame : ∀ k', k' ∈ (fst <$> l) → f1 !! k' = f !! k' ∧ m1 !! k' = m !! k') by (intros k' Hin; apply Ho; by intros ->).
  exists f', m'. split; [|split_and!; [done|..]].
  - assert (existsb (λ kv, is_new f1 kv.1) l = existsb (λ kv, is_new f kv.1) l
      ∧ existsb (λ kv, widens f1 kv.1 kv.2) l = existsb (λ kv, widens f kv.1 kv.2) l) as [-> ->]; [|by rewrite !orb_assoc].
    clear -Hsame. induction l as [|[k' v'] l IHl]; [done|]. destruct IHl as [IH1 IH2].
    { intros k'' Hin. apply Hsame. by right. }
    destruct (Hsame k') as [He _]; [left|]. cbn [existsb fst snd]. unfold is_new at 1 3, widens at 1 3. by rewrite He, IH1, IH2.
  - intros k' Hn. cbn [fmap list_fmap fst] in Hn. apply not_elem_of_cons in Hn as [Hn1 Hn2].
    destruct (Ho' k' Hn2) as [-> ->]. by apply Ho.
  - intros k' v' [[= -> ->]|Hin]%elem_of_cons.
    + destruct (Ho' k Hk) as [Hf Hm]. rewrite Hf, Hm. exact Hs.
    + assert (k' ∈ (fst <$> l)) as Hin' by (apply list_elem_of_fmap; by exists (k', v')).
      destruct (Hsame k' Hin') as [Hf Hm]. specialize (Hs' k' v' Hin). by rewrite Hf, Hm in Hs'.
Qed.

(** C32: schema evolution only widens.  Processing a record never fails; a column new to
    the writer gets the type of its value; an existing column with a non-null value of
    another type moves to the common ancestor of the two (never to a narrower type) and
    otherwise stays; columns absent from the record stay.  The first flag says whether a
    new column appeared, the second whether some existing column changed its type. *)
Theorem schema_evolution_widens f record :
  fields_wf f →
  ∃ chg tchg mutations f', Process f record = Ok (chg, tchg, mutations, f') ∧ fields_wf f'
  ∧ (∀ k, record !! k = None → f' !! k = f !! k)
  ∧ (∀ k v, record !! k = Some v → ∃ fd', f' !! k = Some fd' ∧ joined fd' = evolved (f !! k) (TypeFromValue v))
  ∧ (chg = true ↔ ∃ k v, record !! k = Some v ∧ f !! k = None)
  ∧ (tchg = true ↔ ∃ k v fd fd', record !! k = Some v ∧ f !! k = Some fd ∧ f' !! k = Some fd' ∧ joined fd' ≠ joined fd).
Proof.
  intros Hwf. unfold Process.
  destruct (process_fold f false false ∅ (range record) Hwf (range_NoDup_keys record)) as (f1 & m1 & -> & Hwf1 & Ho & Hs). simpl.
  assert (Hkeys : ∀ k, k ∈ (fst <$> range record) ↔ is_Some (record !! k)).
  { intros k. rewrite list_elem_of_fmap. split; [intros ([k' v] & -> & Hin%elem_of_range); by exists v|].
    intros [v Hv]. exists (k, v). split; [done|]. by apply elem_of_range. }
  assert (Hnone : ∀ k, record !! k = None → Fields_Merge f1 m1 !! k = f !! k).
  { intros k Hk. destruct (Ho k) as [Hf Hm]; [rewrite Hkeys, Hk; by intros []|]. rewrite Fields_Merge_lookup, Hf, Hm, lookup_empty.
    by destruct (f !! k). }
  assert (Hsome : ∀ k v, record !! k = Some v → ∃ fd', Fields_Merge f1 m1 !! k = Some fd'
      ∧ joined fd' = evolved (f !! k) (TypeFromValue v) ∧ field_wf fd').
  { intros k v Hv. apply elem_of_range in Hv. specialize (Hs k v Hv). rewrite Fields_Merge_lookup. destruct (f !! k) as [fd|].
    - destruct Hs as (fd' & Hf' & Hj & Hm). rewrite Hf'. pose proof (Hwf1 _ _ Hf') as Hw. rewrite lookup_empty in Hm.
      destruct Hm as [-> | [-> Hin]]; exists fd'; (split_and!; [|done..]); [done|].
      rewrite Field_Merge_New. unfold merge_type. by rewrite bool_decide_eq_true_2.
    - destruct Hs as [-> ->]. eexists. split; [done|]. destruct (NewField_wf (TypeFromValue v)). split; done. }
  eexists _, _, _, _. split; [done|]. split_and!.
  - intros k fd Hk. destruct (record !! k) as [v|] eqn:Ev.
    + destruct (Hsome k v Ev) as (fd' & Hf' & _ & Hw). by simplify_eq.
    + rewrite Hnone in Hk by done. by eapply Hwf.
  - done.
  - intros k v Hv. destruct (Hsome k v Hv) as (fd' & ? & ? & _). eauto.
  - rewrite existsb_exists. setoid_rewrite <- list_elem_of_In. unfold is_new. split.
    + intros ([k v] & Hin%elem_of_range & Hn). simpl in Hn. exists k, v. by destruct (f !! k).
    + intros (k & v & Hv & Hn). exists (k, v). split; [by apply elem_of_range|]. simpl. by rewrite Hn.
  - rewrite existsb_exists. setoid_rewrite <- list_elem_of_In. unfold widens. split.
    + intros ([k v] & Hin%elem_of_range & Hn). simpl in Hn. destruct (f !! k) as [fd|] eqn:Ek; [|done]. bool_hyps.
      destruct (Hsome k v Hin) as (fd' & Hf' & Hj & _). exists k, v, fd, fd'. rewrite Ek in Hj. by rewrite Hj.
    + intros (k & v & fd & fd' & Hv & Hk & Hf' & Hne). exists (k, v). split; [by apply elem_of_range|]. cbn [fst snd]. rewrite Hk.
      destruct (Hsome k v Hv) as (fd'' & Hf'' & Hj & _). simplify_eq. rewrite Hk in Hj.
      apply negb_true_iff, bool_decide_eq_false. by rewrite <- Hj.
Qed.

(** ** Flattening *)
Section Flatten.
Context (json_marshal : any → option string) (resolve : string → string).

Definition cache_ok (cache : gmap string string) : Prop := ∀ k x, cache !! k = Some x → x = resolve k.

Lemma resolveKey_ok cache k : cache_ok cache →
  (resolveKey resolve cache k).1 = resolve k ∧ cache_ok (resolveKey resolve cache k).2.
Proof.
  intros Hc. unfold resolveKey. destruct (cache !! k) as [x|] eqn:E; simpl; [split; [by apply Hc|done]|].
  split; [done|]. intros k' x [[<- <-]|[_ ?]]%lookup_insert_Some; [done|by apply Hc].
Qed.

Lemma flatten_fold l cache dest :
  cache_ok cache → (∀ k v, (k, v) ∈ l → v ≠ ANil → is_ok (flatten_value json_marshal v) = true) →
  NoDup (resolve <$> l.*1) → (∀ k, k ∈ l.*1 → dest !! resolve k = None) →
  ∃ cache' out, foldM (flatten json_marshal resolve) (cache, dest) l = Ok (cache', out) ∧ cache_ok cache'
  ∧ (∀ k v, (k, v) ∈ l → out !! resolve k = match v with ANil => None | _ => match flatten_value json_marshal v with Ok w => Some w | _ => None end end)
  ∧ (∀ x, x ∉ (resolve <$> l.*1) → out !! x = dest !! x).
Proof.
  revert cache dest. induction l as [|[k v] l IH]; intros cache dest Hc Hv Hnd Hd.
  { exists cache, dest. split_and!; try done. intros ? ? Hin. by apply elem_of_nil in Hin. }
  cbn [fmap list_fmap fst] in Hnd. apply NoDup_cons in Hnd as [Hk Hnd]. cbn [foldM].
  assert (Hstep : ∃ c1 d1, flatten json_marshal resolve (cache, dest) (k, v) = Ok (c1, d1) ∧ cache_ok c1
    ∧ d1 !! resolve k = match v with ANil => None | _ => match flatten_value json_marshal v with Ok w => Some w | _ => None end end
    ∧ ∀ x, x ≠ resolve k → d1 !! x = dest !! x).
  { destruct (resolveKey_ok cache k Hc) as [Hr Hc']. unfold flatten.
    destruct (decide (is_nil v = true)) as [Hn|Hn].
    - destruct v; try done. exists cache, dest. split_and!; try done. apply Hd. left.
    - assert (is_ok (flatten_value json_marshal v) = true) as Hok by (apply (Hv k v); [left|by intros ->]).
      destruct (resolveKey resolve cache k) as [ok c1]. simpl in Hr, Hc'. subst ok.
      destruct (flatten_value json_marshal v) as [w| |] eqn:Ew; try done.
      exists c1, (<[resolve k := w]> dest).
      split_and!; [by destruct v|done|rewrite lookup_insert_eq; by destruct v|]. intros x Hx. by rewrite lookup_insert_ne. }
  destruct Hstep as (c1 & d1 & -> & Hc1 & Hd1 & Hother).
  assert (Hfresh : ∀ k', k' ∈ l.*1 → resolve k' ≠ resolve k).
  { intros k' Hin He. apply Hk. apply list_elem_of_fmap. by exists k'. }
  destruct (IH c1 d1) as (cache' & out & -> & Hc' & Hin & Hout); [done| |done| |].
  { intros k' v' Hin. apply (Hv k' v'). by right. }
  { intros k' Hin. rewrite Hother by (by apply Hfresh). apply Hd. by right. }
  exists cache', out. split_and!; [done|done| |].
  - intros k' v' [[= -> ->]|Hx]%elem_of_cons; [|by apply Hin]. by rewrite Hout.
  - intros x Hx. cbn [fmap list_fmap fst] in Hx. apply not_elem_of_cons in Hx as [Hx1 Hx2]. rewrite Hout by done. by apply Hother.
Qed.

(** Flattening a record renames each column once and loses only nulls.  When the
    resolved names of the record's columns are distinct and every value can be
    rendered, flattening succeeds whatever the batch cache holds (as long as it was
    filled by the resolver); the output has, under the resolved name of each non-null
    column, its scalar unchanged, bytes as text and anything else as JSON text, and no
    other column; the cache stays consistent. *)
Theorem flatten_spec cache (data : gmap string any) :
  cache_ok cache → (∀ k v, data !! k = Some v → v ≠ ANil → is_ok (flatten_value json_marshal v) = true) →
  (∀ k k', is_Some (data !! k) → is_Some (data !! k') → resolve k = resolve k' → k = k') →
  ∃ cache' out, Flatten json_marshal resolve cache data = Ok (cache', out) ∧ cache_ok cache'
  ∧ (∀ k v, data !! k = Some v → v ≠ ANil → Ok <$> out !! resolve k = Some (flatten_value json_marshal v))
  ∧ (∀ x, is_Some (out !! x) → ∃ k v, data !! k = Some v ∧ v ≠ ANil ∧ x = resolve k).
Proof.
  intros Hc Hv Hinj. unfold Flatten.
  destruct (flatten_fold (range data) cache ∅) as (cache' & out & -> & Hc' & Hin & Hout).
  - done.
  - intros k v Hk%elem_of_range. by apply (Hv k).
  - apply NoDup_fmap_2_strong; [|apply range_NoDup_keys].
    intros k k' ([? v] & -> & Hk%elem_of_range)%list_elem_of_fmap ([? v'] & -> & Hk'%elem_of_range)%list_elem_of_fmap.
    apply Hinj; by eexists.
  - intros; apply lookup_empty.
  - exists cache', out. split_and!; [done|done| |].
    + intros k v Hk Hne. pose proof (Hv k v Hk Hne) as Hok. apply elem_of_range in Hk. rewrite (Hin k v Hk).
      destruct (flatten_value json_marshal v) as [w| |]; try done. by destruct v.
    + intros x [w Hw]. destruct (decide (x ∈ (resolve <$> (range data).*1))) as [Hx|Hx]; [|by rewrite Hout, lookup_empty in Hw].
      apply list_elem_of_fmap in Hx as (k & -> & Hk). apply list_elem_of_fmap in Hk as ([k' v] & -> & Hk). simpl in *.
      rewrite (Hin k' v Hk) in Hw. apply elem_of_range in Hk. exists k', v. split_and!; [done| |done]. by intros ->.
Qed.
End Flatten.

(** ** Filtering *)
(** The outcomes of a comparison on which an operator holds. *)
Definition operator_signs : list (string * list comparison) :=
  [("=", [Eq]); ("!=", [Lt; Gt]); (">", [Gt]); (">=", [Gt; Eq]); ("<", [Lt]); ("<=", [Lt; Eq])].

(** The order of two values of one family: by number, instant or truth value, or as strings. *)
Definition family_order (v w : any) : comparison :=
  match v, w with AString s, AString t => String.compare s t | _, _ => rank v ?= rank w end.

(** The meaning of a condition: a null equals only a null and is ordered with nothing; other values
    are compared. *)
Definition condition_true (v w : any) (operator : string) : Prop :=
  if is_nil v || is_nil w then operator = "=" ∧ is_nil v = is_nil w ∨ operator = "!=" ∧ is_nil v ≠ is_nil w
  else ∃ c signs, Compare v w = Ok c ∧ (operator, signs) ∈ operator_signs ∧ (c ?= 0) ∈ signs.

Definition comparable (v w : any) : Prop := is_nil v = true ∨ is_nil w = true ∨ is_ok (Compare v w) = true.
Definition record_value (r : RawRecord) (c : parsedCondition) : any := default ANil (Data r !! pc_column c).
Definition record_matches (r : RawRecord) (conds : list parsedCondition) (isOr : bool) : Prop :=
  if isOr then ∃ c, c ∈ conds ∧ condition_true (record_value r c) (pc_value c) (pc_operator c)
  else ∀ c, c ∈ conds → condition_true (record_value r c) (pc_value c) (pc_operator c).

(** The type of a destination column. *)
Definition column_type (schema : filter_schema) (column : string) (dt : DataType) : Prop :=
  match schema with
  | ParquetSchema s => ∃ fd fd', s !! column = Some fd ∧ getType fd = Ok (dt, fd')
  | IcebergSchema s => ∃ t, s !! column = Some t ∧ dt = IcebergTypeToDatatype t
  | OtherSchema _ => False
  end.
Definition column_missing (schema : filter_schema) (column : string) : Prop :=
  match schema with ParquetSchema s => s !! column = None | IcebergSchema s => s !! column = None | OtherSchema _ => False end.

(** A condition as the workers get it: its column resolved, its value at the type of the column. *)
Definition condition_parsed (schema : filter_schema) (resolve : string → string) (c : FilterCondition) (p : parsedCondition) : Prop :=
  pc_column p = resolve (Column c) ∧ pc_operator p = Operator c
  ∧ ∃ dt, column_type schema (resolve (Column c)) dt
      ∧ (ParseFilterValue dt (CondValue c) = Ok (pc_value p)
         ∨ ParseFilterValue dt (CondValue c) = Err ErrNullValue ∧ pc_value p = ANil).

Lemma evaluate_spec v w operator : comparable v w →
  ∃ b, evaluate v w operator = Ok b ∧ (b = true ↔ condition_true v w operator).
Proof.
  unfold comparable, evaluate, condition_true. intros Hc. destruct (is_nil v || is_nil w) eqn:En.
  - eexists. split; [done|]. destruct (is_nil v), (is_nil w); try done; cbn [andb negb];
      rewrite !orb_true_iff, !andb_true_iff, !String.eqb_eq; naive_solver.
  - apply orb_false_iff in En as [Ev Ew]. rewrite Ev, Ew in Hc. destruct Hc as [|[|Hc]]; [done..|].
    destruct (Compare v w) as [c| |]; [|done..]. eexists. split; [done|].
    rewrite !orb_true_iff, !andb_true_iff, negb_true_iff, !String.eqb_eq.
    rewrite Z.eqb_eq, Z.eqb_neq, !Z.ltb_lt, !Z.leb_le. unfold operator_signs. split.
    + intros [[[[[[-> Hs]|[-> Hs]]|[-> Hs]]|[-> Hs]]|[-> Hs]]|[-> Hs]];
        (eexists c, _; split; [done|]; split; [rewrite !elem_of_cons; naive_solver|]);
        rewrite !elem_of_cons, elem_of_nil; destruct (Z.compare_spec c 0); naive_solver lia.
    + intros (c' & signs & [= <-] & Hop & Hs). rewrite !elem_of_cons, elem_of_nil in Hop.
      destruct Hop as [[= -> ->]|[[= -> ->]|[[= -> ->]|[[= -> ->]|[[= -> ->]|[[= -> ->]|[]]]]]]];
        rewrite !elem_of_cons, elem_of_nil in Hs; destruct (Z.compare_spec c 0); naive_solver lia.
Qed.

Lemma matches_spec r conds operator : (∀ c, c ∈ conds → comparable (record_value r c) (pc_value c)) →
  ∃ b, matches r conds operator = Ok b
  ∧ (b = true ↔ record_matches r conds (EqualFoldWord (TrimSpace operator) "OR")).
Proof.
  unfold matches. generalize (EqualFoldWord (TrimSpace operator) "OR"). intros isOr.
  induction conds as [|c cs IH]; intros Hc; cbn [matches_loop].
  { exists (negb isOr). split; [done|]. unfold record_matches. destruct isOr; cbn; [|split; [|done]; intros _ c Hin; by apply elem_of_nil in Hin].
    split; [done|]. intros (c & Hin & _). by apply elem_of_nil in Hin. }
  destruct (evaluate_spec (record_value r c) (pc_value c) (pc_operator c)) as (b & Hb & Hbt); [apply Hc; left|].
  unfold record_value in Hb at 1. rewrite Hb. cbn. destruct IH as (b' & Hb' & Hbt'); [intros; apply Hc; by right|].
  unfold record_matches in *. destruct b, isOr; cbn; try rewrite Hb'; eexists; (split; [done|]).
  - split; [|done]. intros _. exists c. split; [left|]. by apply Hbt.
  - rewrite Hbt'. split; [|by intros Ht c' Hin; apply Ht; right].
    intros Ht c' [->|Hin]%elem_of_cons; [by apply Hbt|by apply Ht].
  - rewrite Hbt'. split; [intros (c' & Hin & Ht); exists c'; split; [by right|done]|].
    intros (c' & [->|Hin]%elem_of_cons & Ht); [by apply Hbt in Ht|by exists c'].
  - split; [done|]. intros Ht. apply Hbt, Ht. left.
Qed.

Lemma parse_condition_spec schema resolve c p : parse_condition schema resolve c = Ok p ↔ condition_parsed schema resolve c p.
Proof.
  unfold parse_condition, condition_parsed, getFilterColumnDataType, column_type.
  assert (Hv : ∀ dt, (match ParseFilterValue dt (CondValue c) with
      | Ok v => Ok (mkParsed (resolve (Column c)) (Operator c) v)
      | Err e => if String.eqb e ErrNullValue then Ok (mkParsed (resolve (Column c)) (Operator c) ANil)
                 else Err ("failed to parse filter value for column [" +:+ resolve (Column c) +:+ "]: " +:+ e)
      | Panic m => Panic m end) = Ok p
    ↔ pc_column p = resolve (Column c) ∧ pc_operator p = Operator c
      ∧ (ParseFilterValue dt (CondValue c) = Ok (pc_value p) ∨ ParseFilterValue dt (CondValue c) = Err ErrNullValue ∧ pc_value p = ANil)).
  { intros dt. destruct p as [pc po pv]. cbn [pc_column pc_operator pc_value]. destruct (ParseFilterValue dt (CondValue c)) as [v|e|m]; [|destruct (String.eqb_spec e ErrNullValue)|]; naive_solver. }
  destruct schema as [s|s|t]; [| |naive_solver].
  - destruct (s !! resolve (Column c)) as [fd|]; [|naive_solver]. destruct (getType fd) as [[dt fd']| |] eqn:Eg; cbn.
    + rewrite Hv. split; [naive_solver|]. intros (? & ? & dt' & (fd0 & fd1 & [= <-] & Hg) & ?). rewrite Eg in Hg. naive_solver.
    + split; [done|]. intros (_ & _ & dt' & (fd0 & fd1 & [= <-] & Hg) & _). by rewrite Eg in Hg.
    + split; [done|]. intros (_ & _ & dt' & (fd0 & fd1 & [= <-] & Hg) & _). by rewrite Eg in Hg.
  - destruct (s !! resolve (Column c)) as [t|]; cbn; [|naive_solver]. rewrite Hv. naive_solver.
Qed.

Lemma mapM_result_Forall2 {A B} (f : A → result B) l k : mapM_result f l = Ok k ↔ Forall2 (λ x y, f x = Ok y) l k.
Proof.
  revert k. induction l as [|x l IH]; intros k; cbn [mapM_result].
  { split; [by intros [= <-]|]. by intros ->%Forall2_nil_inv_l. }
  split.
  - destruct (f x) as [y| |] eqn:E; [|done..]. cbn. destruct (mapM_result f l) as [ys| |]; [|done..]. intros [= <-].
    constructor; [done|]. by apply IH.
  - intros (y & ys & Hy & Hys & ->)%Forall2_cons_inv_l. rewrite Hy. cbn. by rewrite (proj2 (IH ys)).
Qed.

(** The first element that fails decides the failure of the whole. *)
Lemma mapM_result_first_failure {A B} (f : A → result B) pre x post r :
  (∀ y, y ∈ pre → is_ok (f y) = true) → f x = r → is_ok r = false →
  mapM_result f (pre ++ x :: post) = match r with Ok _ => Ok [] | Err e => Err e | Panic m => Panic m end.
Proof.
  intros Hpre Hx Hr. induction pre as [|y pre IH]; cbn.
  - rewrite Hx. by destruct r.
  - assert (Hy : is_ok (f y) = true) by (apply Hpre; left). destruct (f y); [|done..]. cbn.
    rewrite IH by (intros; apply Hpre; by right). by destruct r.
Qed.

Lemma omap_zip_filter {A} (l : list A) ks (P : A → Prop) `{∀ x, Decision (P x)} :
  Forall2 (λ x k, k = true ↔ P x) l ks → omap (λ rk : A * bool, if rk.2 then Some rk.1 else None) (zip l ks) = filter P l.
Proof.
  induction 1 as [|x k l ks Hk _ IH]; [done|]. rewrite filter_cons. cbn [zip_with omap list_omap fst snd].
  destruct k; case_decide; try (by rewrite <- IH); naive_solver.
Qed.

#[local] Instance condition_true_dec v w operator : Decision (condition_true v w operator).
Proof.
  unfold condition_true. destruct (is_nil v || is_nil w); [apply _|]. destruct (Compare v w) as [c| |].
  2,3: right; by intros (? & ? & ? & _).
  destruct (decide (List.Exists (λ os, os.1 = operator ∧ (c ?= 0) ∈ os.2) operator_signs)) as [He|He].
  - left. apply Exists_exists in He as ([o signs] & Hin & <- & Hs). by exists c, signs.
  - right. intros (c' & signs & [= <-] & Hin & Hs). apply He, Exists_exists. by exists (operator, signs).
Defined.
#[export] Instance record_matches_dec r conds isOr : Decision (record_matches r conds isOr).
Proof.
  unfold record_matches. destruct isOr.
  - destruct (decide (List.Exists (λ c, condition_true (record_value r c) (pc_value c) (pc_operator c)) conds)) as [He|He].
    + left. by apply Exists_exists in He.
    + right. by rewrite <- Exists_exists.
  - destruct (decide (Forall (λ c, condition_true (record_value r c) (pc_value c) (pc_operator c)) conds)) as [He|He].
    + left. by apply Forall_forall.
    + right. by rewrite <- Forall_forall.
Defined.

Lemma family_order_compare v w : same_family v w → is_nil v = false ∧ is_nil w = false ∧ ∃ c, Compare v w = Ok c ∧ (c ?= 0) = family_order v w.
Proof.
  intros Hf. rewrite Compare_family by done.
  assert (Hz : ∀ x y, (cmp_Z x y ?= 0) = (x ?= y)).
  { intros x y. unfold cmp_Z. destruct (Z.compare_spec x y) as [->|Hl|Hl].
    - by rewrite Z.ltb_irrefl.
    - by rewrite (proj2 (Z.ltb_lt x y)).
    - rewrite (proj2 (Z.ltb_ge x y)) by lia. by rewrite (proj2 (Z.ltb_lt y x)). }
  destruct Hf; (split; [done|]; split; [done|]); eexists; (split; [reflexivity|]); unfold family_order; try apply Hz.
  unfold strings_Compare. by destruct (String.compare s t).
Qed.

(** C39: the record filter keeps, in order, the records the conditions select.  Without
    conditions, or for a legacy filter (pushed down to the source), all records pass.
    Otherwise deletes pass when they are kept; if there is nothing else to filter, all
    records pass whatever the conditions; and else the conditions are parsed in order,
    each at the type of its resolved column (a value of a column of the null type is a
    null).  If they all parse and every needed comparison is defined, exactly the records
    for which one condition (OR) or every condition (any other operator) is true are
    kept, where = and != treat null as a value equal only to itself, the order operators are false on
    nulls, and on two values of one family (signed or unsigned integers, times, booleans,
    strings) the six operators are those of the order of the values.  If the first
    condition that does not parse names a column missing from the schema, or has a value
    that is not of its column's type, the filter fails with an error naming the column. *)
Theorem record_filter_semantics records flt legacy schema resolve keepDel :
  let passes r := keepDel && is_delete r in
  let isOr := EqualFoldWord (TrimSpace (LogicalOperator flt)) "OR" in
  let filtered := FilterRecords records flt legacy schema resolve keepDel in
  (conditions_list flt = [] ∨ legacy = true ∨ (∀ r, r ∈ records → passes r = true) → filtered = Ok records)
  ∧ (conditions_list flt ≠ [] → legacy = false → (∃ r, r ∈ records ∧ passes r = false) →
     (∀ conds, Forall2 (condition_parsed schema resolve) (conditions_list flt) conds →
        (∀ r c, r ∈ records → passes r = false → c ∈ conds → comparable (record_value r c) (pc_value c)) →
        filtered = Ok (filter (λ r, passes r = true ∨ record_matches r conds isOr) records))
     ∧ (∀ pre c post, conditions_list flt = pre ++ c :: post →
          (∀ c', c' ∈ pre → ∃ p, condition_parsed schema resolve c' p) →
          let column := resolve (Column c) in
          (column_missing schema column → filtered = Err ("filter column [" +:+ column +:+ "] missing from schema"))
          ∧ (∀ dt e, column_type schema column dt → ParseFilterValue dt (CondValue c) = Err e → e ≠ ErrNullValue →
             filtered = Err ("failed to parse filter value for column [" +:+ column +:+ "]: " +:+ e))))
  ∧ (∀ v w, same_family v w → comparable v w ∧ ∀ operator,
       condition_true v w operator ↔ ∃ signs, (operator, signs) ∈ operator_signs ∧ family_order v w ∈ signs).
Proof.
  intros passes isOr filtered. split_and!.
  - unfold filtered, FilterRecords. intros [->|[->|Hp]]; [done|by rewrite orb_true_r|]. destruct (_ || legacy); [done|].
    fold passes. rewrite (proj2 (forallb_forall passes records)) by (intros; apply Hp; by apply list_elem_of_In). cbn.
    f_equal. clear. induction records as [|r l IH]; [done|]. cbn. by f_equal.
  - intros Hne Hleg (r0 & Hr0 & Hp0).
    assert (Heq : filtered = conditions ← mapM_result (parse_condition schema resolve) (conditions_list flt);
        keep ← Concurrent records (λ r, if passes r then Ok true else matches r conditions (LogicalOperator flt));
        Ok (omap (λ rk : RawRecord * bool, if rk.2 then Some rk.1 else None) (zip records keep))).
    { unfold filtered, FilterRecords. rewrite bool_decide_eq_false_2, Hleg by done. cbn [orb]. fold passes.
      destruct (forallb passes records) eqn:E.
      { rewrite forallb_forall in E. apply list_elem_of_In in Hr0. by rewrite (E r0 Hr0) in Hp0. }
      by destruct (mapM_result _ _). }
    rewrite Heq. split.
    + intros conds Hconds Hcomp.
      rewrite (proj2 (mapM_result_Forall2 _ _ conds)) by (eapply Forall2_impl; [exact Hconds|]; intros; by apply parse_condition_spec).
      cbn. assert (∃ keep, mapM_result (λ r, if passes r then Ok true else matches r conds (LogicalOperator flt)) records = Ok keep
        ∧ Forall2 (λ r k, k = true ↔ passes r = true ∨ record_matches r conds isOr) records keep) as (keep & Hk & Hks).
      { clear Heq Hr0 r0 Hp0. induction records as [|r l IH]; cbn [mapM_result]; [by exists []|].
        destruct IH as (keep & Hk & Hks); [intros; eapply Hcomp; [by right|done..]|].
        assert (∃ b, (if passes r then Ok true else matches r conds (LogicalOperator flt)) = Ok b
          ∧ (b = true ↔ passes r = true ∨ record_matches r conds isOr)) as (b & Hb & Hbt).
        { destruct (passes r) eqn:Er; [exists true; naive_solver|].
          destruct (matches_spec r conds (LogicalOperator flt)) as (b & Hb & Hbt); [intros; apply Hcomp; [left|done..]|].
          exists b. split; [done|]. rewrite Hbt. naive_solver. }
        rewrite Hb. cbn. rewrite Hk. cbn. exists (b :: keep). split; [done|]. by constructor. }
      unfold Concurrent. rewrite Hk. cbn. by rewrite (omap_zip_filter _ _ _ Hks).
    + intros pre c post Hc Hpre column. rewrite Hc. split.
      * intros Hm. rewrite (mapM_result_first_failure _ pre c post (Err (missing_column column))); [done| | |done].
        -- intros y Hy. destruct (Hpre y Hy) as [p Hp%parse_condition_spec]. by rewrite Hp.
        -- unfold parse_condition. fold column. destruct schema; cbn in Hm |- *; try done; by rewrite Hm.
      * intros dt e Hdt He Hn.
        rewrite (mapM_result_first_failure _ pre c post (Err ("failed to parse filter value for column [" +:+ column +:+ "]: " +:+ e))); [done| | |done].
        -- intros y Hy. destruct (Hpre y Hy) as [p Hp%parse_condition_spec]. by rewrite Hp.
        -- unfold parse_condition. fold column.
           assert (getFilterColumnDataType column schema = Ok dt) as ->.
           { destruct schema; cbn in *; [destruct Hdt as (? & ? & -> & ->)|destruct Hdt as (? & -> & ->)|]; done. }
           cbn. rewrite He. by rewrite (proj2 (String.eqb_neq e ErrNullValue)).
  - intros v w Hf. destruct (family_order_compare v w Hf) as (Hv & Hw & c & Hc & Ho). split.
    { right. right. by rewrite Hc. }
    intros operator. unfold condition_true. rewrite Hv, Hw. cbn [orb]. rewrite Hc, <- Ho. naive_solver.
Qed.
End FieldsFacts.

(** Merging two types leaves no cached type, which [Resolve] dereferences. *)
Lemma resolve_mixed_types_panics `{GoEnv} :
  let h := encode_hash "" in let o := sorted_range in
  Resolve (NewStream "" "t" "ns" None) [{["a" := ABool true]}; {["a" := AInt KInt64 1]}] = Panic "nil pointer dereference".
Proof. vm_compute. reflexivity. Qed.

(** ** Witnesses *)
Section Witnesses.
#[local] Instance wf_env : GoEnv := {|
  parse_float := λ _ _, None; fmt_float := λ _ _, "0"; fmt_time := λ _, ""; fmt_pointer := λ _, "";
  time_parse := λ _ _, None; local_offset := λ _, 0; f2i_undefined := λ _ _ _, 0; LoadedStateVersion := 5 |}.
#[local] Instance wf_hash : GoHash string := encode_hash "".
#[local] Instance wf_range : GoRange := sorted_range.

Definition w_fields : gmap string Field := {["n" := NewField Int32]}.
Definition w_record : gmap string any := list_to_map [("n", AInt KInt64 5); ("flag", ABool true)].

Lemma schema_evolution_widens_witness :
  ∃ chg tchg mutations f', Process w_fields w_record = Ok (chg, tchg, mutations, f')
  ∧ ∃ fd, f' !! "n" = Some fd ∧ joined fd = Int64.
Proof.
  destruct (schema_evolution_widens w_fields w_record) as (chg & tchg & mutations & f' & Hp & _ & _ & Hs & _).
  - apply map_Forall_singleton, NewField_wf.
  - exists chg, tchg, mutations, f'. split; [exact Hp|].
    destruct (Hs "n" (AInt KInt64 5)) as (fd & Hfd & Hj); [reflexivity|]. exists fd. split; [exact Hfd|].
    rewrite Hj. vm_compute. reflexivity.
Defined.

Lemma flatten_spec_witness :
  ∃ cache' out, Flatten (λ _, Some "{}") Reformat ∅ (list_to_map [("User Id", AInt KInt64 5); ("Gone", ANil)]) = Ok (cache', out)
  ∧ out !! "user_id" = Some (AInt KInt64 5).
Proof.
  destruct (flatten_spec (λ _, Some "{}") Reformat ∅ (list_to_map [("User Id", AInt KInt64 5); ("Gone", ANil)]))
    as (cache' & out & Hf & _ & Hin & _).
  - intros k x Hk. by rewrite lookup_empty in Hk.
  - intros k v _ Hne. by destruct v.
  - intros k k' [v Hv%elem_of_list_to_map_2] [v' Hv'%elem_of_list_to_map_2]. rewrite !elem_of_cons in Hv, Hv'.
    destruct Hv as [[= -> _]|[[= -> _]|Hv]]; [| |by apply elem_of_nil in Hv];
      (destruct Hv' as [[= -> _]|[[= -> _]|Hv']]; [| |by apply elem_of_nil in Hv']);
      intros He; first [reflexivity | vm_compute in He; discriminate He].
  - exists cache', out. split; [exact Hf|]. specialize (Hin "User Id" (AInt KInt64 5) eq_refl ltac:(discriminate)).
    change (Reformat "User Id") with "user_id" in Hin. destruct (out !! "user_id"); simpl in Hin; congruence.
Defined.

Definition w_raw (n : Z) : RawRecord := mkRaw {["n" := AInt KInt32 n]} ∅.

Lemma record_filter_semantics_witness :
  FilterRecords [w_raw 3; w_raw 9] (mkFilter "and" (Some [mkCondition "n" ">" (AInt KInt64 5)])) false
    (ParquetSchema w_fields) (λ c, c) false = Ok [w_raw 9]
  ∧ FilterRecords [w_raw 3] (mkFilter "or" (Some [mkCondition "n" "<" (AInt KInt64 5); mkCondition "m" ">" (AInt KInt64 5)])) false
    (ParquetSchema w_fields) (λ c, c) false = Err "filter column [m] missing from schema".
Proof.
  assert (Hp : ∀ op, condition_parsed (ParquetSchema w_fields) (λ c, c) (mkCondition "n" op (AInt KInt64 5)) (mkParsed "n" op (AInt KInt32 5))).
  { intros op. split; [reflexivity|]. split; [reflexivity|]. exists Int32. split; [|left; vm_compute; reflexivity].
    eexists _, _. split; [reflexivity|]. vm_compute. reflexivity. }
  split.
  - destruct (record_filter_semantics [w_raw 3; w_raw 9] (mkFilter "and" (Some [mkCondition "n" ">" (AInt KInt64 5)])) false
      (ParquetSchema w_fields) (λ c, c) false) as (_ & Hsel & _).
    destruct Hsel as [Hsel _]; [discriminate|reflexivity|exists (w_raw 3); split; [left|reflexivity]|].
    rewrite (Hsel [mkParsed "n" ">" (AInt KInt32 5)]).
    + vm_compute. reflexivity.
    + constructor; [apply Hp|constructor].
    + intros r c Hr _ Hc. apply list_elem_of_singleton in Hc as ->. rewrite !elem_of_cons in Hr. right. right.
      destruct Hr as [->|[->|Hr]]; [reflexivity|reflexivity|by apply elem_of_nil in Hr].
  - destruct (record_filter_semantics [w_raw 3]
      (mkFilter "or" (Some [mkCondition "n" "<" (AInt KInt64 5); mkCondition "m" ">" (AInt KInt64 5)])) false
      (ParquetSchema w_fields) (λ c, c) false) as (_ & Herr & _).
    destruct Herr as [_ Herr]; [discriminate|reflexivity|exists (w_raw 3); split; [left|reflexivity]|].
    apply (Herr [mkCondition "n" "<" (AInt KInt64 5)] (mkCondition "m" ">" (AInt KInt64 5)) []).
    + reflexivity.
    + intros c' ->%list_elem_of_singleton. eexists. apply Hp.
    + reflexivity.
Defined.
End Witnesses.
