(* ===== verification/IndexDB.v ===== *)
(** * pkg/indexdb/pebble.go and types/stream_index_interface.go

    The stream index maps a record key to the data file and row that hold it, so that
    updates can be written as positional deletes.  It lives in a key-value store with
    atomic batches (Pebble, not part of the sources): the class [KVStore] states what
    the index relies on, reads that see the committed batches and commits that succeed.
    An I/O error of the store, which each routine returns as its own error, is not
    modelled; corrupt entries are. *)

From S2P Require Import Prelude GoString Schema.

Abbreviation bytes := (list Z) (only parsing).

(** ** The key-value store *)
Fixpoint lex_ltb (a b : bytes) : bool :=
  match a, b with
  | _, [] => false
  | [], _ :: _ => true
  | x :: a', y :: b' => (x <? y) || (x =? y) && lex_ltb a' b'
  end.

Inductive batch_op := BSet (k v : bytes) | BDeleteRange (lo : bytes) (hi : option bytes).

(** What a batch makes of one key: the last operation that covers it wins. *)
Definition op_effect (k : bytes) (cur : option bytes) (op : batch_op) : option bytes :=
  match op with
  | BSet k' v => if bool_decide (k' = k) then Some v else cur
  | BDeleteRange lo hi =>
      if negb (lex_ltb k lo) && match hi with Some hi => lex_ltb k hi | None => true end then None else cur
  end.

Class KVStore := {
  kv : Type;
  kv_get : kv → bytes → option bytes;
  kv_commit : kv → list batch_op → kv;
  kv_get_commit : ∀ db ops k, kv_get (kv_commit db ops) k = foldl (op_effect k) (kv_get db k) ops
}.

(** ** encoding/binary *)
Fixpoint append_uvarint (fuel : nat) (v : Z) : bytes :=
  match fuel with
  | O => []
  | S fuel' => if v <? 128 then [v] else (v mod 128 + 128) :: append_uvarint fuel' (v / 128)
  end.
(** A 64-bit value takes at most ten bytes. *)
Definition AppendUvarint (buf : bytes) (v : Z) : bytes := buf ++ append_uvarint 10 v.

(** Value and number of bytes read; 0 or a negative count is an error. *)
Fixpoint uvarint_loop (buf : bytes) (i : Z) (x s : Z) : Z * Z :=
  match buf with
  | [] => (0, 0)
  | b :: buf' =>
      if i =? 10 then (0, - (i + 1))
      else if b <? 128 then
        if (i =? 9) && (1 <? b) then (0, - (i + 1)) else (Z.lor x (Z.shiftl b s), i + 1)
      else uvarint_loop buf' (i + 1) (Z.lor x (Z.shiftl (Z.land b 127) s)) (s + 7)
  end.
Definition Uvarint (buf : bytes) : Z * Z := uvarint_loop buf 0 0 0.

Definition AppendVarint (buf : bytes) (x : Z) : bytes :=
  AppendUvarint buf (if x <? 0 then wrap_u 64 (Z.lnot (wrap_u 64 (2 * x))) else wrap_u 64 (2 * x)).
Definition Varint (buf : bytes) : Z * Z :=
  let '(ux, n) := Uvarint buf in
  let x := ux / 2 in
  (if Z.odd ux then Z.lnot x else x, n).

Fixpoint be_bytes (n : nat) (v : Z) : bytes :=
  match n with O => [] | S n' => be_bytes n' (v / 256) ++ [v mod 256] end.
Definition be64 (value : Z) : bytes := be_bytes 8 value.
Definition BigEndianUint64 (l : bytes) : Z := foldl (λ acc b, acc * 256 + b) 0 l.

(** ** Keys and values *)
Definition prefixRow : Z := 1.
Definition prefixIDToFilePath : Z := 2.
Definition prefixFileByPath : Z := 3.
Definition prefixMeta : Z := 4.
Definition formatVersion : Z := 1.
Definition metaSnapshot : bytes := bytes_of "snapshot".
Definition metaNextFileID : bytes := bytes_of "next_file_id".
Definition metaFormatVersion : bytes := bytes_of "format_version".

Definition rowKey (id : string) : bytes := prefixRow :: bytes_of id.
Definition fileByIDKey (id : Z) : bytes := prefixIDToFilePath :: be64 id.
Definition fileByPathKey (path : string) : bytes := prefixFileByPath :: bytes_of path.
Definition metaKey (name : bytes) : bytes := prefixMeta :: name.

Definition encodeRow (fileID position : Z) : bytes := AppendUvarint (AppendUvarint [] fileID) position.
Definition decodeRow (value : bytes) : result (Z * Z) :=
  let '(fileID, read) := Uvarint value in
  if read <=? 0 then Err "unreadable file id"
  else
    let '(raw, readPosition) := Uvarint (drop (Z.to_nat read) value) in
    if readPosition <=? 0 then Err "unreadable position"
    else if MaxInt64 <? raw then Err "position out of range"
    else Ok (fileID, raw).

Fixpoint increment_last (rev_prefix : bytes) : option bytes :=
  match rev_prefix with
  | [] => None
  | b :: rest => if b =? 255 then increment_last rest else Some (reverse ((b + 1) :: rest))
  end.
Definition prefixEnd (prefix : bytes) : option bytes := increment_last (reverse prefix).

Record RowLocation := mkLocation { FilePath : string; Position : Z }.

Section Index.
Context `{KVStore} `{GoRange}.

Record pebbleIndex := mkIndex {
  db : kv;
  pathToID : gmap string Z;
  idToPath : gmap Z string;
  nextFileID : Z
}.

Definition setCounter (name : bytes) (value : Z) : batch_op := BSet (metaKey name) (AppendUvarint [] value).

Definition readMetaKey (d : kv) (name : bytes) : result Z :=
  match kv_get d (metaKey name) with
  | None => Ok 0
  | Some value => let '(counter, read) := Uvarint value in
                  if read <=? 0 then Err "corrupt stream index counter" else Ok counter
  end.

Definition Truncate (i : pebbleIndex) : pebbleIndex :=
  let clear p := BDeleteRange [p] (prefixEnd [p]) in
  mkIndex
    (kv_commit (db i) [clear prefixRow; clear prefixIDToFilePath; clear prefixFileByPath; clear prefixMeta;
                       setCounter metaFormatVersion formatVersion])
    ∅ ∅ 0.

Definition checkFormatVersion (i : pebbleIndex) : result pebbleIndex :=
  stored ← readMetaKey (db i) metaFormatVersion;
  if stored =? formatVersion then Ok i else Ok (Truncate i).

Definition openIndex (d : kv) : result pebbleIndex :=
  i ← checkFormatVersion (mkIndex d ∅ ∅ 0);
  next ← readMetaKey (db i) metaNextFileID;
  Ok (mkIndex (db i) (pathToID i) (idToPath i) next).

Definition readFileID (d : kv) (path : string) : result (Z * bool) :=
  match kv_get d (fileByPathKey path) with
  | None => Ok (0, false)
  | Some value => if Z.of_nat (length value) =? 8 then Ok (BigEndianUint64 value, true) else Err "corrupt file id"
  end.

Definition cache_file (i : pebbleIndex) (path : string) (id : Z) : pebbleIndex :=
  mkIndex (db i) (<[path := id]> (pathToID i)) (<[id := path]> (idToPath i)) (nextFileID i).

Definition fileID (i : pebbleIndex) (path : string) : result (Z * pebbleIndex) :=
  match pathToID i !! path with
  | Some id => Ok (id, i)
  | None =>
      '(id, found) ← readFileID (db i) path;
      if found : bool then Ok (id, cache_file i path id)
      else
        let id := nextFileID i in
        let next := wrap_u 64 (id + 1) in
        let d := kv_commit (db i) [BSet (fileByIDKey id) (bytes_of path); BSet (fileByPathKey path) (be64 id);
                                   setCounter metaNextFileID next] in
        Ok (id, cache_file (mkIndex d (pathToID i) (idToPath i) next) path id)
  end.

Definition readFilePath (d : kv) (id : Z) : result string :=
  match kv_get d (fileByIDKey id) with
  | None => Err "failed to resolve indexed file id"
  | Some value => Ok (string_of value)
  end.

Definition filePath (i : pebbleIndex) (id : Z) : result (string * pebbleIndex) :=
  match idToPath i !! id with
  | Some path => Ok (path, i)
  | None => path ← readFilePath (db i) id; Ok (path, cache_file i path id)
  end.

Definition Lookup (i : pebbleIndex) (key : string) : result (option RowLocation * pebbleIndex) :=
  match kv_get (db i) (rowKey key) with
  | None => Ok (None, i)
  | Some value =>
      match decodeRow value with
      | Ok (id, position) => '(path, i) ← filePath i id; Ok (Some (mkLocation path position), i)
      | Err _ => Err "corrupt stream index entry"
      | Panic m => Panic m
      end
  end.

(** Interning the file is committed at once; the row is staged. *)
Definition stageChange (st : pebbleIndex * list batch_op) (kl : string * RowLocation) : result (pebbleIndex * list batch_op) :=
  let '(i, pending) := st in
  let '(key, loc) := kl in
  if Position loc <? 0 then Err "stream index position must not be negative"
  else '(id, i) ← fileID i (FilePath loc);
       Ok (i, pending ++ [BSet (rowKey key) (encodeRow id (Position loc))]).

(** The batch is the pending changes of one writer thread, visited in map order. *)
Definition Commit (i : pebbleIndex) (batch : option (gmap string RowLocation)) (snapshotID : option Z) : result pebbleIndex :=
  '(i, pending) ← match batch with
                  | Some changes => foldM stageChange (i, []) (range changes)
                  | None => Ok (i, [])
                  end;
  let pending := pending ++ match snapshotID with
                            | Some s => [BSet (metaKey metaSnapshot) (AppendVarint [] s)]
                            | None => []
                            end in
  match pending with
  | [] => Ok i
  | _ => Ok (mkIndex (kv_commit (db i) pending) (pathToID i) (idToPath i) (nextFileID i))
  end.

Definition LastCommittedSnapshot (i : pebbleIndex) : result Z :=
  match kv_get (db i) (metaKey metaSnapshot) with
  | None => Ok 0
  | Some value => let '(snapshotID, read) := Varint value in
                  if read <=? 0 then Err "corrupt indexed snapshot" else Ok snapshotID
  end.

(** ** stream_index_interface.go: a writer thread's pending changes over the index *)
Record StreamIndexThread := mkThread { changes : gmap string RowLocation }.
Definition NewStreamIndexThread : StreamIndexThread := mkThread ∅.
Definition Put (b : StreamIndexThread) (key : string) (loc : RowLocation) : StreamIndexThread :=
  mkThread (<[key := loc]> (changes b)).
Definition ThreadLookup (b : StreamIndexThread) (i : pebbleIndex) (key : string) : result (option RowLocation * pebbleIndex) :=
  match changes b !! key with
  | Some loc => Ok (Some loc, i)
  | None => Lookup i key
  end.
End Index.

(** One implementation of the interface, for evaluation. *)
Definition map_store : KVStore.
Proof.
  refine {| kv := gmap (list Z) (list Z); kv_get d k := d !! k;
            kv_commit d ops := foldl (λ d op,
              match op with
              | BSet k v => <[k := v]> d
              | BDeleteRange lo hi =>
                  filter (λ kv, negb (lex_ltb kv.1 lo) && match hi with Some hi => lex_ltb kv.1 hi | None => true end = false) d
              end) d ops |}.
  intros d ops k. revert d. induction ops as [|op ops IH]; intros d; simpl; [done|]. rewrite IH. f_equal.
  destruct op as [k' v|lo hi]; simpl.
  - case_bool_decide as E; [subst; by rewrite lookup_insert_eq|by rewrite lookup_insert_ne].
  - rewrite map_lookup_filter. destruct (d !! k) as [w|]; simpl; [|by destruct (_ && _)]. case_guard as G; simpl; rewrite ?G; [done|].
    by apply not_false_iff_true in G as ->.
Defined.
