(* ===== verification/IndexDBFacts.v ===== *)
(** * Theorems about the stream index: encodings round-trip, the index refines a map *)

From S2P Require Import Prelude GoString Schema IndexDB.

(** ** Encodings *)
Lemma split7 v : 0 ≤ v → Z.lor (v mod 128) (Z.shiftl (v / 128) 7) = v.
Proof.
  intros Hv. apply Z.bits_inj'. intros n Hn. rewrite Z.lor_spec. change 128 with (2 ^ 7). destruct (Z_lt_le_dec n 7).
  - rewrite Z.mod_pow2_bits_low, Z.shiftl_spec_low by lia. by rewrite orb_false_r.
  - rewrite Z.mod_pow2_bits_high, Z.shiftl_spec, Z.div_pow2_bits by lia. simpl. f_equal. lia.
Qed.

Lemma land127 v : 0 ≤ v < 128 → Z.land (v + 128) 127 = v.
Proof. intros Hv. change 127 with (Z.ones 7). rewrite Z.land_ones by lia. change (2 ^ 7) with 128. rewrite Z.add_mod, Z.mod_same, Z.add_0_r, Z.mod_mod, Z.mod_small; lia. Qed.

Lemma uvarint_loop_append fuel v rest i x :
  Z.of_nat fuel = 10 - i → 0 ≤ i → (0 < fuel)%nat → 0 ≤ v < 2 ^ (64 - 7 * i) →
  uvarint_loop (append_uvarint fuel v ++ rest) i x (7 * i)
  = (Z.lor x (Z.shiftl v (7 * i)), i + Z.of_nat (length (append_uvarint fuel v))).
Proof.
  revert v i x. induction fuel as [|fuel IH]; intros v i x Hf Hi Hpos Hv; [lia|]. cbn [append_uvarint].
  destruct (Z.ltb_spec v 128) as [Hlt|Hge].
  - cbn [app uvarint_loop length]. destruct (Z.eqb_spec i 10) as [|_]; [lia|]. rewrite (proj2 (Z.ltb_lt v 128)) by lia.
    assert ((i =? 9) && (1 <? v) = false) as ->; [|f_equal; lia].
    destruct (Z.eqb_spec i 9) as [->|]; [|done]. change (2 ^ (64 - 7 * 9)) with 2 in Hv. simpl. lia.
  - assert (i < 9) as Hi9.
    { destruct (Z_lt_le_dec i 9); [done|]. assert (i = 9) as -> by lia. change (2 ^ (64 - 7 * 9)) with 2 in Hv. lia. }
    cbn [app uvarint_loop length]. destruct (Z.eqb_spec i 10) as [|_]; [lia|].
    pose proof (Z.mod_pos_bound v 128 ltac:(lia)) as Hm. rewrite (proj2 (Z.ltb_ge (v mod 128 + 128) 128)) by lia.
    rewrite land127 by lia. replace (7 * i + 7) with (7 * (i + 1)) by lia. rewrite IH; [|lia|lia|lia|].
    + f_equal; [|lia]. rewrite <- Z.lor_assoc. f_equal. replace (7 * (i + 1)) with (7 + 7 * i) by lia.
      rewrite <- Z.shiftl_shiftl, <- Z.shiftl_lor by lia. f_equal. apply split7. lia.
    + split; [apply Z.div_pos; lia|]. apply Z.div_lt_upper_bound; [lia|]. change 128 with (2 ^ 7). rewrite <- Z.pow_add_r by lia.
      replace (7 + (64 - 7 * (i + 1))) with (64 - 7 * i) by lia. lia.
Qed.

Lemma append_uvarint_length v : (1 ≤ length (append_uvarint 10 v))%nat.
Proof. cbn [append_uvarint]. destruct (v <? 128); simpl; lia. Qed.

Lemma Uvarint_append v rest : 0 ≤ v < 2 ^ 64 →
  Uvarint (append_uvarint 10 v ++ rest) = (v, Z.of_nat (length (append_uvarint 10 v))).
Proof.
  intros Hv. unfold Uvarint. change 0 with (7 * 0) at 3. rewrite uvarint_loop_append by (simpl; lia).
  by rewrite Z.lor_0_l, Z.shiftl_0_r, Z.add_0_l.
Qed.

Lemma Uvarint_append' v : 0 ≤ v < 2 ^ 64 → Uvarint (AppendUvarint [] v) = (v, Z.of_nat (length (append_uvarint 10 v))).
Proof.
  intros Hv. change (AppendUvarint [] v) with (append_uvarint 10 v).
  rewrite <- (app_nil_r (append_uvarint 10 v)) at 1. by apply Uvarint_append.
Qed.

#[local] Opaque append_uvarint.
Lemma row_roundtrip id pos : 0 ≤ id < 2 ^ 64 → 0 ≤ pos ≤ MaxInt64 → decodeRow (encodeRow id pos) = Ok (id, pos).
Proof.
  intros Hid Hpos. unfold decodeRow, encodeRow, AppendUvarint. cbn [app]. rewrite Uvarint_append by done.
  pose proof (append_uvarint_length id). destruct (Z.leb_spec (Z.of_nat (length (append_uvarint 10 id))) 0); [lia|].
  rewrite Nat2Z.id, drop_app_length. rewrite <- (app_nil_r (append_uvarint 10 pos)), Uvarint_append by (unfold MaxInt64 in *; lia).
  pose proof (append_uvarint_length pos). destruct (Z.leb_spec (Z.of_nat (length (append_uvarint 10 pos))) 0); [lia|].
  by destruct (Z.ltb_spec MaxInt64 pos); [lia|].
Qed.

Lemma be_bytes_value n v acc :
  0 ≤ v → foldl (λ acc b, acc * 256 + b) acc (be_bytes n v) = acc * 256 ^ Z.of_nat n + v mod 256 ^ Z.of_nat n.
Proof.
  revert v acc. induction n as [|n IH]; intros v acc Hv; cbn [be_bytes].
  - simpl. rewrite Z.mod_1_r. lia.
  - rewrite foldl_app. cbn [foldl]. rewrite IH by (apply Z.div_pos; lia). rewrite Nat2Z.inj_succ, Z.pow_succ_r by lia.
    rewrite Z.rem_mul_r by lia. lia.
Qed.
Lemma be64_roundtrip v : 0 ≤ v < 2 ^ 64 → BigEndianUint64 (be64 v) = v.
Proof.
  intros Hv. unfold BigEndianUint64, be64. rewrite be_bytes_value by lia. change (256 ^ Z.of_nat 8) with (2 ^ 64).
  rewrite Z.mod_small by lia. lia.
Qed.
Lemma be_bytes_length n v : length (be_bytes n v) = n.
Proof. revert v. induction n as [|n IH]; intros v; simpl; [done|]. rewrite length_app, IH. simpl. lia. Qed.

Lemma varint_roundtrip x : - 2 ^ 63 ≤ x < 2 ^ 63 →
  ∃ n, Varint (AppendVarint [] x) = (x, n) ∧ 0 < n.
Proof.
  intros Hx. unfold AppendVarint. set (u := if x <? 0 then _ else _).
  assert (Hu : u = if x <? 0 then - 2 * x - 1 else 2 * x).
  { unfold u, wrap_u. destruct (Z.ltb_spec x 0).
    - replace ((2 * x) mod 2 ^ 64) with (2 * x + 2 ^ 64).
      + unfold Z.lnot. replace (Z.pred (- (2 * x + 2 ^ 64))) with (- 2 * x - 1 + (-1) * 2 ^ 64) by lia.
        rewrite Z.mod_add by lia. apply Z.mod_small. lia.
      + replace (2 * x) with (2 * x + 2 ^ 64 + (-1) * 2 ^ 64) at 2 by lia. rewrite Z.mod_add by lia. symmetry. apply Z.mod_small. lia.
    - apply Z.mod_small. lia. }
  assert (Hr : 0 ≤ u < 2 ^ 64) by (rewrite Hu; destruct (Z.ltb_spec x 0); lia).
  exists (Z.of_nat (length (append_uvarint 10 u))). split; [|pose proof (append_uvarint_length u); lia].
  unfold Varint. rewrite Uvarint_append' by done. f_equal. clear Hr. clearbody u. subst u. destruct (Z.ltb_spec x 0).
  - replace (-2 * x - 1) with (1 + 2 * (- x - 1)) by lia. rewrite Z.odd_add_mul_2. cbn [Z.odd].
    assert ((1 + 2 * (- x - 1)) / 2 = - x - 1) as -> by (Z.to_euclidean_division_equations; lia). unfold Z.lnot. lia.
  - rewrite Z.odd_mul. simpl. rewrite Z.mul_comm, Z.div_mul; lia.
Qed.

#[local] Opaque be_bytes.
Section Refinement.
Context `{KVStore} `{GoRange}.

(** ** What the store holds for an abstract index [m] at snapshot [snap] *)
Record holds (i : pebbleIndex) (m : gmap string RowLocation) (snap : Z) (files : gmap Z string) : Prop := {
  h_next : 0 ≤ nextFileID i < 2 ^ 64;
  h_ids : ∀ id p, files !! id = Some p → 0 ≤ id < nextFileID i;
  h_inj : ∀ a b p, files !! a = Some p → files !! b = Some p → a = b;
  h_by_id : ∀ id, 0 ≤ id < 2 ^ 64 → kv_get (db i) (fileByIDKey id) = bytes_of <$> files !! id;
  h_by_path : ∀ p v, kv_get (db i) (fileByPathKey p) = Some v ↔ ∃ id, files !! id = Some p ∧ v = be64 id;
  h_counter : readMetaKey (db i) metaNextFileID = Ok (nextFileID i);
  h_version : readMetaKey (db i) metaFormatVersion = Ok formatVersion;
  h_snapshot : LastCommittedSnapshot i = Ok snap;
  h_rows : ∀ k v, kv_get (db i) (rowKey k) = Some v ↔
             ∃ loc id, m !! k = Some loc ∧ files !! id = Some (FilePath loc) ∧ v = encodeRow id (Position loc);
  h_locs : ∀ k loc, m !! k = Some loc → 0 ≤ Position loc ≤ MaxInt64 ∧ ∃ id, files !! id = Some (FilePath loc);
  h_pathToID : ∀ p id, pathToID i !! p = Some id → files !! id = Some p;
  h_idToPath : ∀ id p, idToPath i !! id = Some p → files !! id = Some p
}.

(** [represents i m snap]: the index answers as the map [m] does. *)
Definition represents (i : pebbleIndex) (m : gmap string RowLocation) (snap : Z) : Prop := ∃ files, holds i m snap files.

Lemma be64_inj a b : 0 ≤ a < 2 ^ 64 → 0 ≤ b < 2 ^ 64 → be64 a = be64 b → a = b.
Proof. intros Ha Hb He. rewrite <- (be64_roundtrip a), <- (be64_roundtrip b) by done. by rewrite He. Qed.
Lemma bytes_of_inj a b : bytes_of a = bytes_of b → a = b.
Proof. intros He. by rewrite <- (string_of_bytes_of a), He, string_of_bytes_of. Qed.

Lemma fileByIDKey_inj a b : 0 ≤ a < 2 ^ 64 → 0 ≤ b < 2 ^ 64 → fileByIDKey a = fileByIDKey b → a = b.
Proof. intros Ha Hb He. apply be64_inj; [done..|]. unfold fileByIDKey in He. congruence. Qed.
Lemma fileByPathKey_inj a b : fileByPathKey a = fileByPathKey b → a = b.
Proof. unfold fileByPathKey. intros He. apply bytes_of_inj. congruence. Qed.
Lemma rowKey_inj a b : rowKey a = rowKey b → a = b.
Proof. unfold rowKey. intros He. apply bytes_of_inj. congruence. Qed.

(** Reading after a batch: operations on keys of other tables drop out. *)
Ltac eval_batch :=
  rewrite kv_get_commit; unfold setCounter; cbn [foldl op_effect];
  repeat match goal with
  | |- context [bool_decide (?a = ?b)] =>
      rewrite (bool_decide_eq_false_2 (a = b)) by (let E := fresh in intros E; discriminate E)
  end.

(** Adding a file to a cache the store agrees with. *)
Lemma holds_cache i m snap files p id : holds i m snap files → files !! id = Some p → holds (cache_file i p id) m snap files.
Proof.
  intros [] Hf. split; try done.
  - intros p' id'. simpl. intros [[<- <-]|[_ Hl]]%lookup_insert_Some; eauto.
  - intros id' p'. simpl. intros [[<- <-]|[_ Hl]]%lookup_insert_Some; eauto.
Qed.

(** Interning a path. *)
Lemma fileID_spec i m snap files p :
  holds i m snap files → nextFileID i < 2 ^ 64 - 1 →
  ∃ id i' files', fileID i p = Ok (id, i') ∧ holds i' m snap files' ∧ files ⊆ files' ∧ files' !! id = Some p
  ∧ nextFileID i ≤ nextFileID i' ≤ nextFileID i + 1.
Proof.
  intros Hh Hn. pose proof Hh as []. unfold fileID. destruct (pathToID i !! p) as [id|] eqn:Ep.
  { exists id, i, files. split_and!; try done; [by apply h_pathToID0|lia]. }
  unfold readFileID. destruct (kv_get (db i) (fileByPathKey p)) as [v|] eqn:Ev.
  - apply h_by_path0 in Ev as (id & Hf & ->). assert ((Z.of_nat (length (be64 id)) =? 8) = true) as -> by (unfold be64; by rewrite be_bytes_length). cbn [mbind result_bind].
    rewrite be64_roundtrip by (apply h_ids0 in Hf; lia).
    exists id, (cache_file i p id), files. split_and!; try done; [by apply holds_cache|simpl; lia].
  - simpl. set (id := nextFileID i). set (next := wrap_u 64 (id + 1)).
    assert (Hnext : next = id + 1) by (apply wrap_u_id; unfold id; lia).
    assert (Hfresh : files !! id = None).
    { destruct (files !! id) as [q|] eqn:E; [|done]. apply h_ids0 in E. unfold id in E. lia. }
    assert (Hnop : ∀ id', files !! id' ≠ Some p) by (intros id' Hid; assert (is_Some (kv_get (db i) (fileByPathKey p))) as [? ?]
      by (eexists; apply h_by_path0; eauto); congruence).
    exists id. eexists _, (<[id := p]> files). split; [done|]. split_and!.
    + apply holds_cache; [|by rewrite lookup_insert_eq]. split; cbn [db nextFileID pathToID idToPath].
      * lia.
      * intros id' q [[<- <-]|[_ Hl]]%lookup_insert_Some; [lia|]. apply h_ids0 in Hl. unfold id in *. lia.
      * intros a b q [[<- <-]|[Ha Hl]]%lookup_insert_Some [[<- Hq]|[Hb Hl']]%lookup_insert_Some; subst; try done; [by apply Hnop in Hl'|by apply Hnop in Hl|eauto].
      * intros id' Hid'. eval_batch.
        destruct (decide (id = id')) as [->|Hne].
        -- rewrite lookup_insert_eq. rewrite (bool_decide_eq_true_2 (fileByIDKey id' = fileByIDKey id')) by done. done.
        -- rewrite lookup_insert_ne by done. rewrite bool_decide_eq_false_2; [by apply h_by_id0|].
           intros He. apply Hne. apply fileByIDKey_inj; [unfold id; lia|lia|done].
      * intros q v. eval_batch.
        destruct (decide (p = q)) as [->|Hne].
        -- rewrite bool_decide_eq_true_2 by done. split.
           ++ intros [= <-]. exists id. by rewrite lookup_insert_eq.
           ++ intros (id' & [[<- _]|[_ Hl]]%lookup_insert_Some & ->); [done|]. by apply Hnop in Hl.
        -- rewrite bool_decide_eq_false_2 by (intros He%fileByPathKey_inj; done). rewrite h_by_path0. split.
           ++ intros (id' & Hl & ->). exists id'. rewrite lookup_insert_ne; [done|]. intros <-. congruence.
           ++ intros (id' & [[<- Hq]|[_ Hl]]%lookup_insert_Some & ->); [congruence|eauto].
      * unfold readMetaKey. eval_batch. rewrite bool_decide_eq_true_2 by done. rewrite Uvarint_append' by lia.
        pose proof (append_uvarint_length next). destruct (Z.leb_spec (Z.of_nat (length (append_uvarint 10 next))) 0); [lia|done].
      * unfold readMetaKey. eval_batch. exact h_version0.
      * unfold LastCommittedSnapshot. cbn [db]. eval_batch. exact h_snapshot0.
      * intros k v. eval_batch. rewrite h_rows0. split.
        -- intros (loc & id' & Hm & Hl & ->). exists loc, id'. split_and!; [done| |done]. rewrite lookup_insert_ne; [done|]. intros <-. congruence.
        -- intros (loc & id' & Hm & [[<- Hq]|[_ Hl]]%lookup_insert_Some & ->); [|eauto].
           destruct (h_locs0 _ _ Hm) as (_ & id'' & Hl). rewrite <- Hq in Hl. by apply Hnop in Hl.
      * intros k loc Hm. destruct (h_locs0 k loc Hm) as (? & id' & Hl). split; [done|]. exists id'.
        rewrite lookup_insert_ne; [done|]. intros <-. congruence.
      * intros q id' Hl%h_pathToID0. rewrite lookup_insert_ne; [done|]. intros <-. congruence.
      * intros id' q Hl%h_idToPath0. rewrite lookup_insert_ne; [done|]. intros <-. congruence.
    + by apply insert_subseteq.
    + by rewrite lookup_insert_eq.
    + simpl. lia.
    + simpl. lia.
Qed.

Lemma Lookup_counter i k loc i' : Lookup i k = Ok (loc, i') → nextFileID i' = nextFileID i.
Proof.
  unfold Lookup. destruct (kv_get _ _) as [v|]; [|by intros [= _ <-]].
  destruct (decodeRow v) as [[id pos]|?|?]; [|done..]. intros Hb. apply bind_Ok in Hb as ([p i1] & Hp & [= _ <-]).
  unfold filePath in Hp. destruct (idToPath i !! id); [by injection Hp as _ <-|].
  apply bind_Ok in Hp as (q & _ & [= _ <-]). done.
Qed.
Lemma Lookup_spec i m snap files k :
  holds i m snap files → ∃ i', Lookup i k = Ok (m !! k, i') ∧ holds i' m snap files.
Proof.
  intros Hh. pose proof Hh as []. unfold Lookup. destruct (kv_get (db i) (rowKey k)) as [v|] eqn:Ev.
  - apply h_rows0 in Ev as (loc & id & Hm & Hf & ->). destruct (h_locs0 _ _ Hm) as [Hpos _]. pose proof (h_ids0 _ _ Hf) as Hid.
    rewrite row_roundtrip by lia. rewrite Hm. unfold filePath. destruct (idToPath i !! id) as [p|] eqn:Ep.
    + apply h_idToPath0 in Ep. exists i. split; [|done]. simpl. do 3 f_equal. destruct loc. simpl in *. congruence.
    + unfold readFilePath. rewrite h_by_id0, Hf by lia. cbn [fmap option_fmap option_map mbind result_bind].
      rewrite string_of_bytes_of. eexists. split; [by destruct loc|]. by apply holds_cache.
  - assert (m !! k = None) as ->; [|by exists i]. destruct (m !! k) as [loc|] eqn:Em; [|done].
    destruct (h_locs0 _ _ Em) as (_ & id & Hf). assert (kv_get (db i) (rowKey k) = Some (encodeRow id (Position loc))) by (apply h_rows0; eauto).
    congruence.
Qed.

(** Staging a list of changes with distinct keys: files are interned, rows are pending. *)
Definition staged_rows (l : list (string * RowLocation)) (files : gmap Z string) (pending : list batch_op) : Prop :=
  Forall2 (λ kl op, ∃ id, files !! id = Some (FilePath kl.2) ∧ op = BSet (rowKey kl.1) (encodeRow id (Position kl.2))) l pending.

Lemma stage_spec i m snap files l pending0 l0 :
  holds i m snap files → (∀ k loc, (k, loc) ∈ l → 0 ≤ Position loc) → nextFileID i + Z.of_nat (length l) < 2 ^ 64 →
  staged_rows l0 files pending0 →
  ∃ i' files' pending, foldM stageChange (i, pending0) l = Ok (i', pending) ∧ holds i' m snap files' ∧ files ⊆ files'
  ∧ nextFileID i' ≤ nextFileID i + Z.of_nat (length l) ∧ staged_rows (l0 ++ l) files' pending.
Proof.
  revert i files pending0 l0. induction l as [|[k loc] l IH]; intros i files pending0 l0 Hh Hpos Hn Hst; cbn [foldM].
  { exists i, files, pending0. rewrite app_nil_r. split_and!; try done. lia. }
  cbn [length] in Hn. unfold stageChange at 1. assert (0 ≤ Position loc) by (apply (Hpos k loc); left).
  destruct (Z.ltb_spec (Position loc) 0); [lia|].
  destruct (fileID_spec i m snap files (FilePath loc) Hh ltac:(lia)) as (id & i1 & files1 & -> & Hh1 & Hsub & Hf & Hnx).
  cbn [mbind result_bind].
  destruct (IH i1 files1 (pending0 ++ [BSet (rowKey k) (encodeRow id (Position loc))]) (l0 ++ [(k, loc)])) as (i' & files' & pending & Hok & Hh' & Hsub' & Hnx' & Hst').
  - done.
  - intros k' loc' Hin. apply (Hpos k'). by right.
  - lia.
  - apply Forall2_app.
    + eapply Forall2_impl; [done|]. intros [k' loc'] op (id' & Hf' & ->). exists id'. split; [|done]. by eapply lookup_weaken.
    + constructor; [|constructor]. exists id. done.
  - exists i', files', pending. rewrite <- app_assoc in Hst'. split_and!; [done..| |cbn [length]; lia|done]. by trans files1.
Qed.

(** A batch of rows only changes the row table. *)
Lemma rows_other l files pending k cur :
  staged_rows l files pending → (∀ key, rowKey key ≠ k) → foldl (op_effect k) cur pending = cur.
Proof.
  intros Hst Hk. induction Hst as [|[key loc] op l pending (id & _ & ->) Hst IH]; [done|]. cbn [foldl op_effect].
  by rewrite bool_decide_eq_false_2.
Qed.
Lemma rows_lookup l files pending key cur :
  staged_rows l files pending → NoDup l.*1 →
  match (list_to_map l : gmap string RowLocation) !! key with
  | Some loc => ∃ id, files !! id = Some (FilePath loc) ∧ foldl (op_effect (rowKey key)) cur pending = Some (encodeRow id (Position loc))
  | None => foldl (op_effect (rowKey key)) cur pending = cur
  end.
Proof.
  intros Hst. revert cur. induction Hst as [|[k loc] op l pending (id & Hf & ->) Hst IH]; intros cur Hnd; [done|].
  cbn [fmap list_fmap fst] in Hnd. apply NoDup_cons in Hnd as [Hk Hnd]. cbn [foldl op_effect list_to_map foldr uncurry].
  cbn [fst snd] in *. destruct (decide (k = key)) as [->|Hne].
  - rewrite lookup_insert_eq, bool_decide_eq_true_2 by done. exists id. split; [done|].
    specialize (IH (Some (encodeRow id (Position loc))) Hnd). by rewrite (not_elem_of_list_to_map_1 l key) in IH.
  - rewrite lookup_insert_ne by done. rewrite bool_decide_eq_false_2 by (intros He%rowKey_inj; done). by apply IH.
Qed.

Definition valid_changes (changes : gmap string RowLocation) : Prop :=
  ∀ k loc, changes !! k = Some loc → 0 ≤ Position loc ≤ MaxInt64.

Lemma list_to_map_range (changes : gmap string RowLocation) : (list_to_map (range changes) : gmap string RowLocation) = changes.
Proof.
  transitivity (list_to_map (map_to_list changes) : gmap string RowLocation); [|apply list_to_map_to_list].
  apply list_to_map_proper; [apply range_NoDup_keys|apply range_perm].
Qed.

Lemma lookup_over (changes m : gmap string RowLocation) k :
  (changes ∪ m) !! k = match changes !! k with Some l => Some l | None => m !! k end.
Proof. rewrite lookup_union. by destruct (changes !! k), (m !! k). Qed.

(** Applying the staged rows and the optional snapshot to the store. *)
Lemma commit_rows i m snap files changes pending s :
  holds i m snap files → valid_changes changes → staged_rows (range changes) files pending →
  (∀ x, s = Some x → - 2 ^ 63 ≤ x < 2 ^ 63) →
  holds (mkIndex (kv_commit (db i) (pending ++ match s with Some x => [BSet (metaKey metaSnapshot) (AppendVarint [] x)] | None => [] end))
           (pathToID i) (idToPath i) (nextFileID i)) (changes ∪ m) (default snap s) files.
Proof.
  intros [] Hval Hst Hs. set (tail := match s with Some x => _ | None => _ end).
  assert (Hrow : ∀ key, kv_get (kv_commit (db i) (pending ++ tail)) (rowKey key) = foldl (op_effect (rowKey key)) (kv_get (db i) (rowKey key)) pending).
  { intros key. rewrite kv_get_commit, foldl_app. unfold tail. destruct s; [|done]. cbn [foldl op_effect].
    rewrite bool_decide_eq_false_2; [done|]. intros E. discriminate E. }
  assert (Hother : ∀ k, (∀ key, rowKey key ≠ k) → k ≠ metaKey metaSnapshot → kv_get (kv_commit (db i) (pending ++ tail)) k = kv_get (db i) k).
  { intros k Hk Hne. rewrite kv_get_commit, foldl_app, (rows_other _ _ _ _ _ Hst Hk). unfold tail. destruct s; [|done]. cbn [foldl op_effect].
    by rewrite bool_decide_eq_false_2 by congruence. }
  pose proof (λ key cur, rows_lookup _ _ _ key cur Hst (range_NoDup_keys changes)) as Hl. rewrite list_to_map_range in Hl.
  split; cbn [db nextFileID pathToID idToPath]; try done.
  - intros id Hid. rewrite Hother; [by apply h_by_id0|intros key E; discriminate E|intros E; discriminate E].
  - intros p v. rewrite Hother; [by apply h_by_path0|intros key E; discriminate E|intros E; discriminate E].
  - unfold readMetaKey. rewrite Hother; [done|intros key E; discriminate E|intros E; discriminate E].
  - unfold readMetaKey. rewrite Hother; [done|intros key E; discriminate E|intros E; discriminate E].
  - unfold LastCommittedSnapshot in *. cbn [db]. rewrite kv_get_commit, foldl_app, (rows_other _ _ _ _ _ Hst) by (intros key E; discriminate E).
    unfold tail. destruct s as [x|]; [|done]. cbn [foldl op_effect]. rewrite bool_decide_eq_true_2 by done. simpl.
    destruct (varint_roundtrip x (Hs x eq_refl)) as (n & -> & Hn). destruct (Z.leb_spec n 0); [lia|done].
  - intros key v. rewrite Hrow, lookup_over. specialize (Hl key (kv_get (db i) (rowKey key))).
    destruct (changes !! key) as [loc|] eqn:Ec; [|by rewrite Hl, h_rows0].
    destruct Hl as (id & Hf & ->). split; [intros [= <-]; by exists loc, id|].
    intros (loc' & id' & [= <-] & Hf' & ->). by rewrite (h_inj0 id id' (FilePath loc)).
  - intros key loc. rewrite lookup_over. destruct (changes !! key) as [loc'|] eqn:Ec; [|by apply h_locs0].
    intros [= ->]. split; [by apply (Hval key)|]. specialize (Hl key None). rewrite Ec in Hl. destruct Hl as (id & Hf & _). eauto.
Qed.

Lemma Commit_spec i m snap files changes s :
  holds i m snap files → valid_changes changes → nextFileID i + Z.of_nat (size changes) < 2 ^ 64 →
  (∀ x, s = Some x → - 2 ^ 63 ≤ x < 2 ^ 63) →
  ∃ i' files', Commit i (Some changes) s = Ok i' ∧ holds i' (changes ∪ m) (default snap s) files'
  ∧ nextFileID i' ≤ nextFileID i + Z.of_nat (size changes).
Proof.
  intros Hh Hval Hn Hs. unfold Commit.
  assert (Hlen : length (range changes) = size changes) by (rewrite (range_perm changes); apply length_map_to_list).
  destruct (stage_spec i m snap files (range changes) [] []) as (i1 & files1 & pending & -> & Hh1 & _ & Hnx & Hst).
  - done.
  - intros k loc Hin%elem_of_range. by apply (Hval k).
  - by rewrite Hlen.
  - constructor.
  - cbn [mbind result_bind app] in *. pose proof (commit_rows i1 m snap files1 changes pending s Hh1 Hval Hst Hs) as Hc.
    rewrite Hlen in Hnx. destruct (pending ++ _) as [|op ops] eqn:Ep; [|eauto 10].
    exists i1, files1. split_and!; [done| |done]. destruct pending; [|done]. destruct s; [done|]. inversion Hst as [Hr|].
    assert (changes = ∅) as -> by (by rewrite <- (list_to_map_range changes), <- Hr). by rewrite map_empty_union.
Qed.

Lemma clear_effect k p cur : 0 ≤ p < 255 → op_effect k cur (BDeleteRange [p] (prefixEnd [p])) = match k with x :: _ => if x =? p then None else cur | [] => cur end.
Proof.
  intros Hp. unfold prefixEnd. cbn [reverse rev_append increment_last op_effect]. destruct (Z.eqb_spec p 255); [lia|].
  destruct k as [|x k]; [done|]. cbn [reverse rev_append lex_ltb].
  assert (lex_ltb k [] = false) as -> by (by destruct k). rewrite !andb_false_r, !orb_false_r.
  destruct (Z.eqb_spec x p) as [->|Hne].
  - assert (p <? p = false) as -> by lia. assert (p <? p + 1 = true) as -> by lia. done.
  - destruct (negb (x <? p) && (x <? p + 1)) eqn:E; [lia|done].
Qed.

Lemma Truncate_spec i : holds (Truncate i) ∅ 0 ∅.
Proof.
  assert (Hget : ∀ k, kv_get (db (Truncate i)) k = if bool_decide (metaKey metaFormatVersion = k) then Some (AppendUvarint [] formatVersion)
    else match k with x :: _ => if (x =? 1) || (x =? 2) || (x =? 3) || (x =? 4) then None else kv_get (db i) k | [] => kv_get (db i) k end).
  { intros k. unfold Truncate. cbn [db]. rewrite kv_get_commit. unfold setCounter. cbn [foldl]. rewrite !clear_effect by (vm_compute; split; congruence).
    unfold op_effect. case_bool_decide; [done|]. destruct k as [|x k]; [done|].
    unfold prefixRow, prefixIDToFilePath, prefixFileByPath, prefixMeta.
    destruct (x =? 4), (x =? 3), (x =? 2), (x =? 1); done. }
  split.
  - vm_compute. split; congruence.
  - intros id p Hl. by rewrite lookup_empty in Hl.
  - intros x y p Hl. by rewrite lookup_empty in Hl.
  - intros id _. rewrite Hget. rewrite bool_decide_eq_false_2 by (intros E; discriminate E). by rewrite lookup_empty.
  - intros p v. rewrite Hget. rewrite bool_decide_eq_false_2 by (intros E; discriminate E). simpl. split; [done|]. intros (id & Hid & _).
    by rewrite lookup_empty in Hid.
  - unfold readMetaKey. rewrite Hget. rewrite bool_decide_eq_false_2 by (intros E; discriminate E). done.
  - unfold readMetaKey. rewrite Hget. rewrite bool_decide_eq_true_2 by done. rewrite Uvarint_append' by (vm_compute; split; congruence).
    pose proof (append_uvarint_length formatVersion). destruct (Z.leb_spec (Z.of_nat (length (append_uvarint 10 formatVersion))) 0); [lia|done].
  - unfold LastCommittedSnapshot. rewrite Hget. rewrite bool_decide_eq_false_2 by (intros E; discriminate E). done.
  - intros k v. rewrite Hget. rewrite bool_decide_eq_false_2 by (intros E; discriminate E). simpl. split; [done|]. intros (loc & id & Hm & _).
    by rewrite lookup_empty in Hm.
  - intros k loc Hl. by rewrite lookup_empty in Hl.
  - intros p id Hl. simpl in Hl. by rewrite lookup_empty in Hl.
  - intros id p Hl. simpl in Hl. by rewrite lookup_empty in Hl.
Qed.

Lemma open_spec i m snap files : holds i m snap files → ∃ i', openIndex (db i) = Ok i' ∧ holds i' m snap files.
Proof.
  intros []. unfold openIndex, checkFormatVersion. cbn [db]. rewrite h_version0. cbn [mbind result_bind]. rewrite Z.eqb_refl.
  cbn [mbind result_bind db]. rewrite h_counter0. cbn [mbind result_bind]. eexists. split; [done|]. by split.
Qed.

(** C18: the stream index is a crash-safe map from record key to row location.  An index
    that represents a map answers every lookup with the map's entry; committing a
    thread's changes with a snapshot id makes it represent the map overwritten by the
    changes, at that snapshot, atomically; a thread sees its own changes first;
    truncation represents the empty map; reopening the store, without the in-memory
    caches, represents the same map; and a store of another format version reopens as
    empty. *)
Theorem index_refines_map i m snap changes s key :
  represents i m snap → valid_changes changes → nextFileID i + Z.of_nat (size changes) < 2 ^ 64 →
  (∀ x, s = Some x → - 2 ^ 63 ≤ x < 2 ^ 63) →
  (∃ i', Lookup i key = Ok (m !! key, i') ∧ represents i' m snap)
  ∧ LastCommittedSnapshot i = Ok snap
  ∧ (∃ i', Commit i (Some changes) s = Ok i' ∧ represents i' (changes ∪ m) (default snap s))
  ∧ (∃ i', openIndex (db i) = Ok i' ∧ represents i' m snap)
  ∧ represents (Truncate i) ∅ 0
  ∧ (∀ loc, ThreadLookup (Put (mkThread changes) key loc) i key = Ok (Some loc, i))
  ∧ (∀ d v, readMetaKey d metaFormatVersion = Ok v → v ≠ formatVersion → ∃ i', openIndex d = Ok i' ∧ represents i' ∅ 0).
Proof.
  intros [files Hh] Hval Hn Hs. split_and!.
  - destruct (Lookup_spec i m snap files key Hh) as (i' & ? & ?). exists i'. split; [done|]. by exists files.
  - by apply Hh.
  - destruct (Commit_spec i m snap files changes s Hh Hval Hn Hs) as (i' & files' & ? & ? & _). exists i'. split; [done|]. by exists files'.
  - destruct (open_spec i m snap files Hh) as (i' & ? & ?). exists i'. split; [done|]. by exists files.
  - exists ∅. apply Truncate_spec.
  - intros loc. unfold ThreadLookup, Put. cbn [IndexDB.changes]. by rewrite lookup_insert_eq.
  - intros d v Hv Hne. unfold openIndex, checkFormatVersion. cbn [db]. rewrite Hv. cbn [mbind result_bind].
    apply Z.eqb_neq in Hne as ->. cbn [mbind result_bind]. pose proof (Truncate_spec (mkIndex d ∅ ∅ 0)) as Ht.
    rewrite (h_counter _ _ _ _ Ht). cbn [mbind result_bind]. eexists. split; [done|]. exists ∅. by destruct (Truncate (mkIndex d ∅ ∅ 0)).
Qed.
End Refinement.

(** Row entries survive encoding.  Every file id and every non-negative 64-bit
    position decode to themselves after encoding, whatever follows a varint is left for
    the next read, signed snapshot ids and big-endian file ids round-trip as well, and a
    position with the sign bit set is reported as corrupt instead of wrapping. *)
Theorem index_encoding_roundtrip id pos snap rest :
  0 ≤ id < 2 ^ 64 → 0 ≤ pos < 2 ^ 64 → - 2 ^ 63 ≤ snap < 2 ^ 63 →
  decodeRow (encodeRow id pos) = (if pos <=? MaxInt64 then Ok (id, pos) else Err "position out of range")
  ∧ (Uvarint (AppendUvarint [] id ++ rest)).1 = id
  ∧ (Varint (AppendVarint [] snap)).1 = snap
  ∧ BigEndianUint64 (be64 id) = id ∧ length (be64 id) = 8%nat.
Proof.
  intros Hid Hpos Hsnap. split_and!.
  - destruct (Z.leb_spec pos MaxInt64); [apply row_roundtrip; lia|].
    unfold decodeRow, encodeRow, AppendUvarint. cbn [app]. rewrite Uvarint_append by done.
    pose proof (append_uvarint_length id). destruct (Z.leb_spec (Z.of_nat (length (append_uvarint 10 id))) 0); [lia|].
    rewrite Nat2Z.id, drop_app_length. rewrite <- (app_nil_r (append_uvarint 10 pos)), Uvarint_append by lia.
    pose proof (append_uvarint_length pos). destruct (Z.leb_spec (Z.of_nat (length (append_uvarint 10 pos))) 0); [lia|].
    by destruct (Z.ltb_spec MaxInt64 pos); [|lia].
  - change (AppendUvarint [] id) with (append_uvarint 10 id). by rewrite Uvarint_append.
  - destruct (varint_roundtrip snap Hsnap) as (n & -> & _). done.
  - by apply be64_roundtrip.
  - apply be_bytes_length.
Qed.

Lemma index_encoding_roundtrip_witness : decodeRow (encodeRow 300 12345678901) = Ok (300, 12345678901).
Proof. apply (index_encoding_roundtrip 300 12345678901 0 []); lia. Defined.

(** ** Witness: a fresh store in memory *)
Section Witness.
#[local] Instance w_store : KVStore := map_store.
#[local] Instance w_order : GoRange := sorted_range.
Definition empty_store : kv := (∅ : gmap (list Z) (list Z)).

Lemma index_refines_map_witness :
  ∃ i', Commit (Truncate (mkIndex empty_store ∅ ∅ 0)) (Some {["k" := mkLocation "f.parquet" 7]}) (Some 42) = Ok i'
  ∧ represents i' ({["k" := mkLocation "f.parquet" 7]} ∪ ∅) 42.
Proof.
  destruct (index_refines_map (Truncate (mkIndex empty_store ∅ ∅ 0)) ∅ 0 {["k" := mkLocation "f.parquet" 7]} (Some 42) "k")
    as (_ & _ & Hc & _).
  - exists ∅. apply Truncate_spec.
  - intros k loc [<- <-]%lookup_singleton_Some. split; vm_compute; congruence.
  - rewrite map_size_singleton. vm_compute. reflexivity.
  - intros x [= <-]. lia.
  - exact Hc.
Defined.
End Witness.
