(* ===== verification/Protocol.v ===== *)
(** * protocol/sync.go, protocol/clear.go, ClearState of drivers/abstract/abstract.go

    The state-changing part of the two commands: [classifyStreams] decides which
    configured streams take part in a run and along which path; a sync keeps the state of
    the streams that resume and clears that of full refreshes; clear-destination clears
    every selected stream and keeps the rest. *)

From S2P Require Import Prelude GoString GoSet DataTypes QueryEngine Value Schema Stream Catalog State.

Record StreamMix := mkMix {
  mix_FullRefresh : Z; mix_Incremental : Z; mix_CDC : Z; mix_StrictCDC : Z;
  mix_Selected : Z; mix_Normalized : Z; mix_Partitioned : Z; mix_StreamWithPosUpdateType : Z
}.

Record StreamClassification := mkClassification {
  cl_SelectedStreams : list ConfiguredStream;
  cl_CDCStreams : list ConfiguredStream;
  cl_IncrementalStreams : list ConfiguredStream;
  cl_FullLoadStreams : list ConfiguredStream;
  cl_NewStreamsState : list StreamState;
  cl_Mix : StreamMix
}.

(** The zero value of the metadata struct, read from a map without the key. *)
Definition zero_metadata : StreamMetadata := mkMetadata "" "" "" false false "" false "" None None None.

Section Protocol.
Context `{GoHash string} `{GoHash Chunk} `{GoRange} `{GoEnv}.
Implicit Types (s : State) (elem : ConfiguredStream).

(** ** classifyStreams: the checks of one stream

    A check that returns an error logs a warning and skips the stream. *)
Definition warn_skip {A} (r : result A) : result bool :=
  match r with Ok _ => Ok true | Err _ => Ok false | Panic m => Panic m end.

Definition condition_valid elem (cond : FilterCondition) : result bool :=
  if String.eqb (Column cond) "" then Ok false
  else match GetType (s_Schema (StreamOf elem)) (Column cond) with
       | Ok dataType =>
           if String.eqb dataType Null then Ok false else warn_skip (ParseFilterValue dataType (CondValue cond))
       | Err _ => Ok false
       | Panic m => Panic m
       end.

Fixpoint conditions_valid elem (conditions : list FilterCondition) : result bool :=
  match conditions with
  | [] => Ok true
  | cond :: rest => ok ← condition_valid elem cond; if (ok : bool) then conditions_valid elem rest else Ok false
  end.

Definition filter_valid elem : result bool :=
  match GetFilter elem with
  | Ok (filter, isLegacy) =>
      if isLegacy then Ok true
      else if 2 <? Z.of_nat (length (conditions_list filter)) then Ok false
      else conditions_valid elem (conditions_list filter)
  | Err _ => Ok false
  | Panic m => Panic m
  end.

(** [streams] is nil when schema discovery was skipped. *)
Definition source_valid elem (streams : option (list Stream)) : result bool :=
  match streams with
  | None => Ok true
  | Some l => match StreamsToMap l !! ID elem with None => Ok false | Some source => warn_skip (Validate elem source) end
  end.

Definition stream_valid elem (streams : option (list Stream)) : result bool :=
  ok ← source_valid elem streams;
  if negb ok then Ok false
  else ok ← warn_skip (ValidateUpdateType elem); if negb ok then Ok false else filter_valid elem.

(** ** classifyStreams: recording a valid stream *)
Definition b2z (b : bool) : Z := if b then 1 else 0.

Definition is_cdc elem : bool :=
  String.eqb (s_SyncMode (StreamOf elem)) CDC || String.eqb (s_SyncMode (StreamOf elem)) STRICTCDC.
Definition is_incremental elem : bool := String.eqb (s_SyncMode (StreamOf elem)) INCREMENTAL.

Definition count_stream (m : StreamMix) elem : StreamMix :=
  let mode := s_SyncMode (StreamOf elem) in
  let strict := String.eqb mode STRICTCDC in
  mkMix (mix_FullRefresh m + b2z (negb (is_cdc elem) && negb (is_incremental elem)))
    (mix_Incremental m + b2z (is_incremental elem))
    (mix_CDC m + b2z (is_cdc elem && negb strict)) (mix_StrictCDC m + b2z (is_cdc elem && strict))
    (mix_Selected m + 1)
    (mix_Normalized m + b2z (Normalization (Metadata elem)))
    (mix_Partitioned m + b2z (negb (String.eqb (PartitionRegex (Metadata elem)) "")))
    (mix_StreamWithPosUpdateType m + b2z (String.eqb (GetUpdateType elem) UpdateTypePosition)).

Definition record_stream (stateStreamMap : gmap string StreamState) (cl : StreamClassification) elem : StreamClassification :=
  let selected := cl_SelectedStreams cl ++ [elem] in
  let mix := count_stream (cl_Mix cl) elem in
  let newState := match stateStreamMap !! ID elem with Some e => cl_NewStreamsState cl ++ [e] | None => cl_NewStreamsState cl end in
  if is_cdc elem then
    mkClassification selected (cl_CDCStreams cl ++ [elem]) (cl_IncrementalStreams cl) (cl_FullLoadStreams cl) newState mix
  else if is_incremental elem then
    mkClassification selected (cl_CDCStreams cl) (cl_IncrementalStreams cl ++ [elem]) (cl_FullLoadStreams cl) newState mix
  else
    mkClassification selected (cl_CDCStreams cl) (cl_IncrementalStreams cl) (cl_FullLoadStreams cl ++ [elem])
      (cl_NewStreamsState cl) mix.

(** The closure passed to [ArrayContains], which always returns false and so visits
    every stream.  The metadata of the selection replaces the stream's own. *)
Definition classify_one (catalog : Catalog) (streams : option (list Stream)) (stateStreamMap : gmap string StreamState)
    (cl : StreamClassification) elem : result StreamClassification :=
  let sMetadata := oldSelectedMap catalog !! ID elem in
  if negb (bool_decide (SelectedStreams catalog = None) || bool_decide (is_Some sMetadata)) then Ok cl
  else
    let elem := mkConfigured (default zero_metadata sMetadata) (StreamOf elem) in
    ok ← stream_valid elem streams;
    Ok (if (ok : bool) then record_stream stateStreamMap cl elem else cl).

Definition dotted (e : StreamState) : string := selected_id (ss_Namespace e) (ss_Stream e).

Definition stateStreamMap s : gmap string StreamState :=
  foldl (λ acc e, <[dotted e := e]> acc) ∅ (st_Streams s).

Definition no_streams : StreamClassification := mkClassification [] [] [] [] [] (mkMix 0 0 0 0 0 0 0 0).

(** Returns the classification and the state, whose stream list is replaced when the
    source was discovered. *)
Definition classifyStreams (catalog : Catalog) (streams : option (list Stream)) s : result (StreamClassification * State) :=
  cl ← foldM (classify_one catalog streams (stateStreamMap s)) no_streams (Streams catalog);
  let s := match streams with Some _ => set_streams s (cl_NewStreamsState cl) | None => s end in
  match cl_SelectedStreams cl with
  | [] => Err "no valid streams found in catalog"
  | _ => Ok (cl, s)
  end.

(** ** ClearState *)
Definition clear_entry (dropStreams : list string) (e : StreamState) : StreamState :=
  if contains dropStreams (dotted e)
  then mkStreamState false (ss_Stream e) (ss_Namespace e) (ss_SyncMode e) ∅ else e.

Definition ClearState s (streams : list ConfiguredStream) : State :=
  let dropStreams := ID <$> streams in
  let global := match st_Global s with
    | Some g => Some (mkGlobal (g_State g) ((λ set, foldl Remove set dropStreams) <$> g_Streams g))
    | None => None
    end in
  mkState (st_Type s) (st_Version s) global (clear_entry dropStreams <$> st_Streams s).

(** ** The state side of the commands: sync up to the destination drop, and
    clear-destination; both return the streams whose tables are dropped. *)
Definition sync_prepare (catalog : Catalog) (streams : option (list Stream)) s
    : result (StreamClassification * State * list ConfiguredStream) :=
  '(cl, s) ← classifyStreams catalog streams s;
  let s := match streams with None => set_streams s (cl_NewStreamsState cl) | Some _ => s end in
  let dropStreams := cl_FullLoadStreams cl in
  Ok (cl, match dropStreams with [] => s | _ => ClearState s dropStreams end, dropStreams).

(** [DropStreams] is what the destination answers to the request to drop the tables: an
    error leaves the state file as it was. *)
Definition clear_destination (DropStreams : list ConfiguredStream → option string) (catalog : Catalog) s (file : option persisted)
    : result (State * option persisted * list ConfiguredStream) :=
  match classifyStreams catalog None s with
  | Err e => Err ("failed to get selected streams for clearing: " +:+ e)
  | Panic m => Panic m
  | Ok (cl, s) =>
      let dropStreams := cl_IncrementalStreams cl ++ cl_FullLoadStreams cl ++ cl_CDCStreams cl in
      match dropStreams with
      | [] => Ok (s, file, [])
      | _ =>
          let newState := ClearState s dropStreams in
          match DropStreams dropStreams with
          | Some e => Err ("failed to clear destination: " +:+ e)
          | None => Ok (newState, LogState newState file, dropStreams)
          end
      end
  end.

End Protocol.
