(* ===== verification/ProtocolFacts.v ===== *)
(** * Theorems about stream classification and the state kept or cleared by the commands *)

From S2P Require Import Prelude GoString GoSet DataTypes QueryEngine Value ValueFacts Schema Stream StreamFacts Catalog State StateFacts Protocol.

Section Facts.
Context `{GoHash string} `{GoHash Chunk} `{GoRange} `{GoEnv}.
Implicit Types (s : State) (elem : ConfiguredStream) (catalog : Catalog).

(** ** No panic on decoded filters *)

(** JSON decoding yields no pointers. *)
Definition plain (v : any) : Prop := match v with APtr _ _ => False | _ => True end.

Definition no_panic {A} (r : result A) : Prop := match r with Panic _ => False | _ => True end.

Lemma no_panic_fmap {A B} (f : A → B) (r : result A) : no_panic r → no_panic (f <$> r).
Proof. by destruct r. Qed.

Lemma skip_ok {A} (r : result A) : no_panic r → ∃ b, warn_skip r = Ok b.
Proof. destruct r; naive_solver. Qed.

Lemma ParseFilterValue_no_panic dataType v : plain v → no_panic (ParseFilterValue dataType v).
Proof.
  intros Hv. unfold ParseFilterValue, ReformatValue.
  assert (∀ b, no_panic (ReformatDate v b)) as Hd.
  { intros b. destruct v; try done; simpl; unfold parseStringTimestamp; repeat case_match; done. }
  case_match; [by apply no_panic_fmap|].
  destruct v eqn:Ev; try done; repeat (case_match; simplify_eq/=; try done);
    try (apply no_panic_fmap; first [by apply Hd | simpl; repeat (case_match; simplify_eq/=; try done)]).
Qed.

Definition plain_filter elem : Prop :=
  ∀ fc c, m_FilterConfig (Metadata elem) = Some fc → c ∈ conditions_list fc → plain (CondValue c).

Lemma GetFilter_cases elem flt :
  GetFilter elem = Ok (flt, false) → ∃ fc, m_FilterConfig (Metadata elem) = Some fc ∧ Conditions flt = Conditions fc.
Proof.
  unfold GetFilter. assert (∀ r, legacy_filter elem = Ok r → r.2 = true) as Hl.
  { unfold legacy_filter. intros r. repeat case_match; simplify_eq/=; intros; by simplify_eq. }
  destruct (m_FilterConfig (Metadata elem)) as [fc|]; [|by intros ?%Hl].
  case_match; [|by intros ?%Hl]. intros [= <-]. by exists fc.
Qed.

Lemma condition_valid_ok elem c : plain (CondValue c) → ∃ b, condition_valid elem c = Ok b.
Proof.
  intros Hc. unfold condition_valid, GetType. repeat (case_match; simplify_eq/=; eauto).
  by apply skip_ok, ParseFilterValue_no_panic.
Qed.

Lemma conditions_valid_ok elem l : (∀ c, c ∈ l → plain (CondValue c)) → ∃ b, conditions_valid elem l = Ok b.
Proof.
  induction l as [|c l IH]; intros Hl; cbn [conditions_valid]; [by eexists|].
  destruct (condition_valid_ok elem c) as ([] & ->); [apply Hl; by left| |by eexists].
  cbn. apply IH. intros x Hx. apply Hl. by right.
Qed.

Lemma Validate_no_panic elem source : no_panic (Validate elem source).
Proof. unfold Validate. repeat (case_match; try done). Qed.

Lemma ValidateUpdateType_no_panic elem : no_panic (ValidateUpdateType elem).
Proof. unfold ValidateUpdateType, ValidateAgainst, Validate_UpdateType. repeat (case_match; simplify_eq/=; try done). Qed.

Lemma GetFilter_no_panic elem : no_panic (GetFilter elem).
Proof. unfold GetFilter, legacy_filter. repeat (case_match; simplify_eq/=; try done). Qed.

Lemma filter_valid_ok elem : plain_filter elem → ∃ b, filter_valid elem = Ok b.
Proof.
  intros Hp. unfold filter_valid. pose proof (GetFilter_no_panic elem) as Hn.
  destruct (GetFilter elem) as [[flt []]| |] eqn:E; [by eexists| |by eexists|done].
  destruct (GetFilter_cases _ _ E) as (fc & Hfc & Hc). case_match; [by eexists|]. apply conditions_valid_ok.
  intros c. unfold conditions_list. rewrite Hc. exact (Hp fc c Hfc).
Qed.

Lemma source_valid_ok elem streams : ∃ b, source_valid elem streams = Ok b.
Proof. unfold source_valid. repeat case_match; eauto. apply skip_ok, Validate_no_panic. Qed.

Lemma stream_valid_ok elem streams : plain_filter elem → ∃ b, stream_valid elem streams = Ok b.
Proof.
  intros Hp. unfold stream_valid. destruct (source_valid_ok elem streams) as ([] & ->); [|by eexists].
  destruct (skip_ok (ValidateUpdateType elem)) as ([] & ->); [apply ValidateUpdateType_no_panic| |by eexists].
  by apply filter_valid_ok.
Qed.

(** ** Which streams take part *)

(** The stream as it takes part in the run, with the metadata of its selection. *)
Definition selected_as catalog elem : ConfiguredStream :=
  mkConfigured (default zero_metadata (oldSelectedMap catalog !! ID elem)) (StreamOf elem).

Definition in_selection catalog elem : bool :=
  bool_decide (SelectedStreams catalog = None) || bool_decide (is_Some (oldSelectedMap catalog !! ID elem)).

Definition chosen catalog (streams : option (list Stream)) elem : option ConfiguredStream :=
  if in_selection catalog elem then
    match stream_valid (selected_as catalog elem) streams with Ok true => Some (selected_as catalog elem) | _ => None end
  else None.

Lemma oldSelectedMap_sound catalog k md : oldSelectedMap catalog !! k = Some md → ∃ nm, nm ∈ selected_entries catalog ∧ nm.2 = md.
Proof.
  unfold oldSelectedMap. generalize (selected_entries catalog). intros l.
  assert (∀ acc : gmap string StreamMetadata, (∀ k md, acc !! k = Some md → ∃ nm, nm ∈ l ∧ nm.2 = md) →
    ∀ l', l' ⊆ l → foldl (λ acc nm, <[selected_id nm.1 (StreamName nm.2) := nm.2]> acc) acc l' !! k = Some md →
    ∃ nm, nm ∈ l ∧ nm.2 = md) as Hgen.
  { intros acc Hacc l'. revert acc Hacc. induction l' as [|nm l' IH]; intros acc Hacc Hsub; simpl; [apply Hacc|].
    apply IH; [|set_solver]. intros k' md' [[_ <-]|[_ ?]]%lookup_insert_Some; [|eauto]. exists nm. split; [set_solver|done]. }
  apply Hgen; [|done]. intros k' md'. by rewrite lookup_empty.
Qed.

Definition plain_catalog catalog : Prop :=
  ∀ nm fc c, nm ∈ selected_entries catalog → m_FilterConfig nm.2 = Some fc → c ∈ conditions_list fc → plain (CondValue c).

Lemma plain_selected catalog elem : plain_catalog catalog → plain_filter (selected_as catalog elem).
Proof.
  intros Hp fc c. unfold selected_as. cbn [Metadata].
  destruct (oldSelectedMap catalog !! ID elem) as [md|] eqn:E; [|done]. cbn [default].
  destruct (oldSelectedMap_sound _ _ _ E) as (nm & Hnm & <-). by apply Hp.
Qed.

Lemma classify_fold catalog streams m l cl :
  plain_catalog catalog →
  foldM (classify_one catalog streams m) cl l = Ok (foldl (record_stream m) cl (omap (chosen catalog streams) l)).
Proof.
  intros Hp. revert cl. induction l as [|e l IH]; intros cl; [done|].
  cbn [foldM].
  change (omap (chosen catalog streams) (e :: l)) with (match chosen catalog streams e with Some y => y :: omap (chosen catalog streams) l | None => omap (chosen catalog streams) l end).
  unfold chosen at 1, classify_one at 1. fold (selected_as catalog e) (in_selection catalog e).
  destruct (in_selection catalog e); cbn [negb]; [|apply IH].
  destruct (stream_valid_ok _ streams (plain_selected catalog e Hp)) as ([] & ->); apply IH.
Qed.

(** ** The classification of a list of chosen streams *)
Definition resumes elem : bool := is_cdc elem || is_incremental elem.

Definition pick (p : ConfiguredStream → bool) (l : list ConfiguredStream) : list ConfiguredStream := filter (λ e, p e = true) l.

Definition total (p : ConfiguredStream → bool) (l : list ConfiguredStream) : Z := Z.of_nat (length (pick p l)).

Lemma pick_snoc p l e : pick p (l ++ [e]) = pick p l ++ (if p e then [e] else []).
Proof. unfold pick. rewrite filter_app. f_equal. destruct (p e) eqn:E; by rewrite ?filter_cons_True, ?filter_cons_False by (by rewrite E). Qed.

Lemma total_snoc p l e : total p (l ++ [e]) = total p l + b2z (p e).
Proof. unfold total. rewrite pick_snoc, length_app. destruct (p e); simpl; lia. Qed.

Definition mix_of (l : list ConfiguredStream) : StreamMix :=
  mkMix (total (λ e, negb (is_cdc e) && negb (is_incremental e)) l) (total is_incremental l)
    (total (λ e, is_cdc e && negb (String.eqb (s_SyncMode (StreamOf e)) STRICTCDC)) l)
    (total (λ e, is_cdc e && String.eqb (s_SyncMode (StreamOf e)) STRICTCDC) l)
    (Z.of_nat (length l)) (total (λ e, Normalization (Metadata e)) l)
    (total (λ e, negb (String.eqb (PartitionRegex (Metadata e)) "")) l)
    (total (λ e, String.eqb (GetUpdateType e) UpdateTypePosition) l).

Lemma modes_disjoint e : is_cdc e = true → is_incremental e = false.
Proof.
  unfold is_cdc, is_incremental. rewrite orb_true_iff, !String.eqb_eq. by intros [-> | ->].
Qed.

Definition classification_of (m : gmap string StreamState) (l : list ConfiguredStream) : StreamClassification :=
  mkClassification l (pick is_cdc l) (pick is_incremental l) (pick (λ e, negb (resumes e)) l)
    (omap (λ e, m !! ID e) (pick resumes l)) (mix_of l).

Lemma count_stream_mix l e : count_stream (mix_of l) e = mix_of (l ++ [e]).
Proof. unfold count_stream, mix_of. cbn. f_equal; rewrite ?total_snoc; try done. rewrite length_app. simpl. lia. Qed.

Lemma record_stream_snoc m l e : record_stream m (classification_of m l) e = classification_of m (l ++ [e]).
Proof.
  unfold record_stream, classification_of. cbn [cl_SelectedStreams cl_CDCStreams cl_IncrementalStreams cl_FullLoadStreams cl_NewStreamsState cl_Mix].
  rewrite count_stream_mix, !pick_snoc, omap_app. unfold resumes.
  destruct (is_cdc e) eqn:Ec; [rewrite (modes_disjoint e Ec)|destruct (is_incremental e) eqn:Ei]; cbn [orb negb]; rewrite ?app_nil_r;
    f_equal; cbn; by destruct (m !! ID e); rewrite ?app_nil_r.
Qed.

Lemma record_streams m l : foldl (record_stream m) no_streams l = classification_of m l.
Proof.
  change no_streams with (classification_of m []). change l with ([] ++ l) at 2. generalize (@nil ConfiguredStream).
  induction l as [|e l IH]; intros k; simpl; [by rewrite app_nil_r|]. rewrite record_stream_snoc, IH. by rewrite <- app_assoc.
Qed.

(** ** What a stream must satisfy to take part *)
Definition condition_ok elem (c : FilterCondition) : Prop :=
  Column c ≠ "" ∧ ∃ dataType v, GetType (s_Schema (StreamOf elem)) (Column c) = Ok dataType ∧ dataType ≠ Null
                              ∧ ParseFilterValue dataType (CondValue c) = Ok v.

Definition admissible (streams : option (list Stream)) elem : Prop :=
  (∀ l, streams = Some l → ∃ source, StreamsToMap l !! ID elem = Some source ∧ Validate elem source = Ok tt)
  ∧ ValidateUpdateType elem = Ok tt
  ∧ ∃ flt legacy, GetFilter elem = Ok (flt, legacy)
      ∧ (legacy = false → Z.of_nat (length (conditions_list flt)) ≤ 2 ∧ ∀ c, c ∈ conditions_list flt → condition_ok elem c).

Lemma warn_skip_true {A} (r : result A) : warn_skip r = Ok true ↔ ∃ a, r = Ok a.
Proof. destruct r; simpl; naive_solver. Qed.

Lemma condition_valid_true elem c : condition_valid elem c = Ok true ↔ condition_ok elem c.
Proof.
  unfold condition_valid, condition_ok. destruct (String.eqb (Column c) "") eqn:E; bool_hyps; [naive_solver|].
  destruct (GetType (s_Schema (StreamOf elem)) (Column c)) as [d| |]; [|naive_solver..].
  destruct (String.eqb d Null) eqn:En; bool_hyps; [naive_solver|]. rewrite warn_skip_true. naive_solver.
Qed.

Lemma conditions_valid_true elem l : conditions_valid elem l = Ok true ↔ ∀ c, c ∈ l → condition_ok elem c.
Proof.
  induction l as [|c l IH]; cbn [conditions_valid]; [split; [by intros _ c ?%elem_of_nil|done]|].
  rewrite bind_Ok. setoid_rewrite elem_of_cons. split.
  - intros ([] & Hc & Hl); [|done]. apply condition_valid_true in Hc. rewrite IH in Hl. naive_solver.
  - intros Hall. exists true. rewrite condition_valid_true, IH. auto.
Qed.

Lemma filter_valid_true elem :
  filter_valid elem = Ok true ↔ ∃ flt legacy, GetFilter elem = Ok (flt, legacy)
    ∧ (legacy = false → Z.of_nat (length (conditions_list flt)) ≤ 2 ∧ ∀ c, c ∈ conditions_list flt → condition_ok elem c).
Proof.
  unfold filter_valid. destruct (GetFilter elem) as [[flt []]| |]; [naive_solver| |naive_solver..].
  destruct (2 <? Z.of_nat (length (conditions_list flt))) eqn:E; bool_hyps.
  - split; [done|]. intros (? & ? & [= <- <-] & Hc). destruct (Hc eq_refl). lia.
  - rewrite conditions_valid_true. split; [intros; exists flt, false; auto|]. intros (? & ? & [= <- <-] & Hc). by apply Hc.
Qed.

Lemma source_valid_true elem streams :
  source_valid elem streams = Ok true
  ↔ ∀ l, streams = Some l → ∃ source, StreamsToMap l !! ID elem = Some source ∧ Validate elem source = Ok tt.
Proof.
  unfold source_valid. destruct streams as [l|]; [|naive_solver].
  destruct (StreamsToMap l !! ID elem) as [source|] eqn:E; [|split; [done|intros Hs; destruct (Hs l eq_refl); naive_solver]].
  rewrite warn_skip_true. split; [|intros Hs; destruct (Hs l eq_refl); naive_solver]. intros [[] Hv] l' [= <-]. eauto.
Qed.

Lemma stream_valid_true elem streams : stream_valid elem streams = Ok true ↔ admissible streams elem.
Proof.
  unfold stream_valid, admissible. rewrite <- source_valid_true, <- filter_valid_true.
  destruct (source_valid_ok elem streams) as ([] & ->); cbn [mbind result_bind negb]; [|naive_solver].
  destruct (ValidateUpdateType elem) as [[]| |]; cbn [warn_skip mbind result_bind negb]; naive_solver.
Qed.

Lemma chosen_spec catalog streams elem e :
  chosen catalog streams elem = Some e ↔ in_selection catalog elem = true ∧ e = selected_as catalog elem ∧ admissible streams e.
Proof.
  unfold chosen. destruct (in_selection catalog elem); [|naive_solver].
  pose proof (stream_valid_true (selected_as catalog elem) streams) as Hv.
  destruct (stream_valid (selected_as catalog elem) streams) as [[]| |]; naive_solver.
Qed.

Lemma pick_split l : pick is_cdc l ++ pick is_incremental l ++ pick (λ e, negb (resumes e)) l ≡ₚ l.
Proof.
  induction l as [|e l IH]; [done|]. unfold pick in *. rewrite !filter_cons. unfold resumes in *.
  destruct (is_cdc e) eqn:Ec; [rewrite (modes_disjoint e Ec)|destruct (is_incremental e) eqn:Ei]; cbn [orb negb];
    repeat (case_decide; try done); (etrans; [|apply perm_skip, IH]).
  - done.
  - symmetry. apply Permutation_middle.
  - rewrite !app_assoc. symmetry. apply Permutation_middle.
Qed.

Lemma mix_adds_up l :
  mix_FullRefresh (mix_of l) + mix_Incremental (mix_of l) + mix_CDC (mix_of l) + mix_StrictCDC (mix_of l) = mix_Selected (mix_of l).
Proof.
  cbn. induction l as [|e l IH] using rev_ind; [done|]. rewrite !total_snoc, length_app.
  destruct (is_cdc e) eqn:Ec; [rewrite (modes_disjoint e Ec)|destruct (is_incremental e) eqn:Ei];
    destruct (String.eqb _ STRICTCDC); cbn [andb negb b2z length] in *; lia.
Qed.

(** Every run works on exactly the streams it should.  Classification never fails
    on a decoded catalog unless no stream qualifies; the streams of the run are, in
    catalog order, those selected by the user (all, without a selection) that exist in
    the discovered source with a valid sync mode, cursor and key, have a readable delete
    format and a well-typed filter of at most two conditions; each is on exactly one of
    the CDC, incremental and full-load paths, and the telemetry counters count them; the
    state entries carried over are those of the streams that resume. *)
Theorem classification_exact catalog streams s :
  plain_catalog catalog →
  let sel := omap (chosen catalog streams) (Streams catalog) in
  (∀ elem e, chosen catalog streams elem = Some e ↔ in_selection catalog elem = true ∧ e = selected_as catalog elem ∧ admissible streams e)
  ∧ match classifyStreams catalog streams s with
    | Ok (cl, s') =>
        sel ≠ [] ∧ cl_SelectedStreams cl = sel
        ∧ cl_CDCStreams cl = pick is_cdc sel ∧ cl_IncrementalStreams cl = pick is_incremental sel
        ∧ cl_FullLoadStreams cl = pick (λ e, negb (resumes e)) sel
        ∧ cl_CDCStreams cl ++ cl_IncrementalStreams cl ++ cl_FullLoadStreams cl ≡ₚ sel
        ∧ cl_NewStreamsState cl = omap (λ e, stateStreamMap s !! ID e) (pick resumes sel)
        ∧ cl_Mix cl = mix_of sel
        ∧ mix_FullRefresh (cl_Mix cl) + mix_Incremental (cl_Mix cl) + mix_CDC (cl_Mix cl) + mix_StrictCDC (cl_Mix cl) = mix_Selected (cl_Mix cl)
        ∧ s' = match streams with Some _ => set_streams s (cl_NewStreamsState cl) | None => s end
    | Err _ => sel = []
    | Panic _ => False
    end.
Proof.
  intros Hp sel. split; [intros; apply chosen_spec|]. unfold classifyStreams. rewrite classify_fold by done. fold sel.
  rewrite record_streams. cbn [mbind result_bind]. change (cl_SelectedStreams (classification_of _ sel)) with sel.
  destruct sel as [|e l]; [done|]. split_and!; try done; [apply pick_split|apply mix_adds_up].
Qed.

(** ** The state kept by a sync *)
Definition namespaced elem : Prop := Namespace elem ≠ "".

Lemma ID_dotted elem : namespaced elem → ID elem = selected_id (Namespace elem) (Name elem).
Proof. unfold namespaced, ID, Stream_ID, StreamIdentifier, Namespace. by intros ->%String.eqb_neq. Qed.

Lemma dotted_is_stream elem e : namespaced elem → is_stream elem e = true → dotted e = ID elem.
Proof. intros Hn He. apply is_stream_true in He. rewrite ID_dotted by done. unfold dotted. injection He as -> ->. done. Qed.

(** Streams of the state are told apart by the dotted identifier (no dots inside
    namespaces, say). *)
Definition dotted_unique s : Prop := NoDup (dotted <$> st_Streams s).

Lemma stateStreamMap_lookup s k e : dotted_unique s → stateStreamMap s !! k = Some e ↔ e ∈ st_Streams s ∧ dotted e = k.
Proof.
  unfold dotted_unique, stateStreamMap. generalize (st_Streams s). intros l.
  induction l as [|x l IH] using rev_ind; intros Hnd; cbn.
  - rewrite lookup_empty. split; [done|]. by intros [?%elem_of_nil _].
  - rewrite foldl_snoc, lookup_insert_Some. rewrite fmap_app in Hnd. apply NoDup_app in Hnd as (Hl & Hx & _). rewrite IH by done.
    rewrite elem_of_app, list_elem_of_singleton. split; [naive_solver|]. intros [[He|<-] Hk]; [right|by left].
    split; [|done]. intros Heq. apply (Hx (dotted e)); [apply list_elem_of_fmap; eauto|]. subst k. rewrite <- Heq. cbn. set_solver.
Qed.

Lemma find_stream_Some s a e : find_stream s a = Some e → e ∈ st_Streams s ∧ is_stream a e = true.
Proof. apply lookup_first_Some. Qed.

Lemma lookup_first_same {T} (p : T → bool) (l k : list T) :
  (∀ x y, x ∈ l → y ∈ l → p x = true → p y = true → x = y) → (∀ x, x ∈ k → x ∈ l) →
  (∀ x, x ∈ l → p x = true → x ∈ k) → lookup_first p k = lookup_first p l.
Proof.
  intros Hu Hk Hl. destruct (lookup_first p l) as [x|] eqn:El; [apply lookup_first_Some in El as [Hx Hp]|].
  - destruct (lookup_first p k) as [y|] eqn:Ek; [apply lookup_first_Some in Ek as [Hy Hq]; f_equal; auto|].
    rewrite lookup_first_None in Ek. rewrite (Ek x) in Hp by auto. done.
  - rewrite lookup_first_None in *. auto.
Qed.

Definition carried s (l : list ConfiguredStream) : list StreamState := omap (λ e, stateStreamMap s !! ID e) l.

Lemma carried_spec s l x : dotted_unique s → x ∈ carried s l ↔ x ∈ st_Streams s ∧ ∃ e, e ∈ l ∧ ID e = dotted x.
Proof.
  intros Hu. unfold carried. rewrite list_elem_of_omap. setoid_rewrite stateStreamMap_lookup; [|done]. naive_solver.
Qed.

Lemma same_dotted s x y : dotted_unique s → x ∈ st_Streams s → y ∈ st_Streams s → dotted x = dotted y → x = y.
Proof.
  intros Hu Hx Hy Hd. assert (stateStreamMap s !! dotted x = Some x ∧ stateStreamMap s !! dotted x = Some y) as [? ?]; [|congruence].
  by rewrite !stateStreamMap_lookup.
Qed.

Lemma find_carried s l a :
  dotted_unique s → namespaced a →
  find_stream (set_streams s (carried s l)) a = if bool_decide (ID a ∈ ID <$> l) then find_stream s a else None.
Proof.
  intros Hu Hn. unfold find_stream. cbn [st_Streams set_streams]. case_bool_decide as Hin.
  - apply list_elem_of_fmap in Hin as (e & He & Hel). apply lookup_first_same.
    + intros x y Hx Hy Hpx Hpy. apply (same_dotted s); [done..|]. by rewrite !(dotted_is_stream a) by done.
    + intros x [Hx _]%carried_spec; done.
    + intros x Hx Hp. apply carried_spec; [done|]. split; [done|]. exists e. by rewrite (dotted_is_stream a x).
  - apply lookup_first_None. intros x (Hx & e & He & Hd)%carried_spec; [|done]. apply not_true_iff_false. intros Hp. apply Hin.
    apply list_elem_of_fmap. exists e. by rewrite Hd, (dotted_is_stream a x).
Qed.

(** ** Clearing *)
Definition cleared (e : StreamState) : StreamState := mkStreamState false (ss_Stream e) (ss_Namespace e) (ss_SyncMode e) ∅.

Lemma lookup_first_ext {T} (p q : T → bool) l : (∀ x, p x = q x) → lookup_first p l = lookup_first q l.
Proof. intros Hpq. induction l as [|x l IH]; cbn; [done|]. rewrite Hpq. by destruct (q x). Qed.

Lemma find_ClearState s drop a :
  namespaced a → find_stream (ClearState s drop) a = (if bool_decide (ID a ∈ ID <$> drop) then cleared <$> find_stream s a else find_stream s a).
Proof.
  intros Hn. unfold find_stream. cbn [st_Streams ClearState].
  rewrite lookup_first_fmap. erewrite (lookup_first_ext (λ x, is_stream a (clear_entry (ID <$> drop) x)) (is_stream a)).
  2: { intros x. unfold clear_entry, is_stream. by case_match. }
  destruct (lookup_first (is_stream a) (st_Streams s)) as [e|] eqn:E; [|by case_bool_decide]. cbn.
  apply lookup_first_Some in E as [_ He]. unfold clear_entry, contains. rewrite (dotted_is_stream a e) by done.
  by case_bool_decide.
Qed.

Definition global_good (U : string → Prop) s : Prop :=
  ∀ g st, st_Global s = Some g → g_Streams g = Some st → good U st.

Lemma Exists_good U (st : GoSet string) x : collision_free U None → good U st → U x → Exists st x = true ↔ member x st.
Proof. intros Hcf [Hw Hf Hi] Hx. apply (Exists_member U); [by rewrite Hf|done..]. Qed.

Lemma Exists_Removes U (l : list string) (st : GoSet string) x :
  collision_free U None → good U st → (∀ y, y ∈ l → U y) → U x →
  Exists (foldl Remove st l) x = true ↔ Exists st x = true ∧ x ∉ l.
Proof.
  intros Hcf. revert st. induction l as [|y l IH]; intros st Hg Hl Hx; cbn [foldl]; [rewrite elem_of_nil; tauto|].
  assert (U y) as Hy by (apply Hl; left). pose proof (Remove_good U Hcf st y Hg Hy) as Hg'.
  rewrite IH by (first [done|intros z Hz; apply Hl; by right]).
  rewrite !(Exists_good U) by done. destruct Hg as [Hw Hf Hi].
  rewrite (member_Remove U) by (first [by rewrite Hf|done]). rewrite not_elem_of_cons. tauto.
Qed.

Lemma completed_ClearState U s drop a :
  collision_free U None → global_good U s → (∀ e, e ∈ drop → U (ID e)) → U (ID a) → namespaced a →
  HasCompletedBackfill (ClearState s drop) a = true ↔ HasCompletedBackfill s a = true ∧ ID a ∉ ID <$> drop.
Proof.
  intros Hcf Hg Hdrop Ha Hn. unfold HasCompletedBackfill. cbn [st_Type ClearState st_Global].
  destruct (String.eqb (st_Type s) GlobalType).
  - destruct (st_Global s) as [[gs [st|]]|] eqn:E; cbn; [|naive_solver..].
    apply (Exists_Removes U); [done|by eapply Hg| |done]. by intros y (e & -> & He)%list_elem_of_fmap; apply Hdrop.
  - unfold GetChunks. rewrite find_ClearState by done. case_bool_decide as Hin; [|tauto].
    destruct (find_stream s a) as [e|]; cbn; [rewrite lookup_empty|]; naive_solver.
Qed.

Lemma sync_prepare_state catalog streams s cl s' drop :
  plain_catalog catalog → sync_prepare catalog streams s = Ok (cl, s', drop) →
  let sel := omap (chosen catalog streams) (Streams catalog) in
  cl = classification_of (stateStreamMap s) sel ∧ drop = pick (λ e, negb (resumes e)) sel
  ∧ s' = match drop with [] => id | _ => λ s, ClearState s drop end (set_streams s (carried s (pick resumes sel))).
Proof.
  intros Hp. unfold sync_prepare, classifyStreams. rewrite classify_fold, record_streams by done.
  set (sel := omap (chosen catalog streams) (Streams catalog)). cbn [mbind result_bind].
  change (cl_SelectedStreams (classification_of _ sel)) with sel. destruct sel as [|e l]; [done|]. cbn [mbind result_bind].
  change (cl_FullLoadStreams (classification_of _ ?l)) with (pick (λ e, negb (resumes e)) l).
  intros [= <- <- <-]. split_and!; [done..|]. by destruct streams; destruct (pick _ _).
Qed.

Lemma selected_ids catalog streams l :
  NoDup (ID <$> l) → NoDup (ID <$> omap (chosen catalog streams) l) ∧ ∀ x, x ∈ ID <$> omap (chosen catalog streams) l → x ∈ ID <$> l.
Proof.
  induction l as [|e l IH]; [done|]. rewrite fmap_cons, NoDup_cons. intros [He Hl]. destruct (IH Hl) as [IHn IHs].
  change (omap (chosen catalog streams) (e :: l)) with (match chosen catalog streams e with Some y => y :: omap (chosen catalog streams) l | None => omap (chosen catalog streams) l end).
  destruct (chosen catalog streams e) as [y|] eqn:Ey; [|split; [done|set_solver]].
  apply chosen_spec in Ey as (_ & -> & _). rewrite fmap_cons. change (ID (selected_as catalog e)) with (ID e). rewrite NoDup_cons. set_solver.
Qed.

Lemma pick_disjoint p l x :
  NoDup (ID <$> l) → x ∈ ID <$> pick p l → x ∉ ID <$> pick (λ e, negb (p e)) l.
Proof.
  intros Hnd (e & -> & He)%list_elem_of_fmap (e' & Heq & He')%list_elem_of_fmap. unfold pick in *.
  apply list_elem_of_filter in He as [Hp He], He' as [Hq He']. assert (e = e') as <-; [|by rewrite Hp in Hq].
  revert Hnd He He' Heq. induction l as [|y l IH]; [by intros _ ?%elem_of_nil|]. rewrite fmap_cons, NoDup_cons, !elem_of_cons.
  intros [Hy Hl] [->|He] [->|He'] Heq; [done| | |by apply IH].
  - destruct Hy. rewrite Heq. apply list_elem_of_fmap. eauto.
  - destruct Hy. rewrite <- Heq. apply list_elem_of_fmap. eauto.
Qed.

Lemma resumed_ids l x : x ∈ ID <$> pick is_cdc l ++ pick is_incremental l ↔ x ∈ ID <$> pick resumes l.
Proof.
  rewrite fmap_app, elem_of_app, !list_elem_of_fmap. unfold pick, resumes. split.
  - intros [(e & -> & [He Hl]%list_elem_of_filter)|(e & -> & [He Hl]%list_elem_of_filter)]; exists e; split; auto;
      apply list_elem_of_filter; rewrite He, ?orb_true_r; auto.
  - intros (e & -> & [[He|He]%orb_true_iff Hl]%list_elem_of_filter); [left|right]; exists e; split; auto; by apply list_elem_of_filter.
Qed.

(** C20: which streams a sync resumes.  When the run starts, every CDC or incremental stream
    taking part keeps its cursors and pending chunks, and every other stream (full refresh,
    deselected or invalid) has none; the tables dropped are those of the full refreshes.
    With a shared CDC position the mark of a completed backfill is taken only from the full
    refreshes: every other stream keeps it, deselected ones included. *)
Theorem sync_resumes_selected U catalog streams s cl s' drop a key :
  plain_catalog catalog → dotted_unique s → NoDup (ID <$> Streams catalog) → namespaced a →
  collision_free U None → global_good U s → (∀ e, e ∈ Streams catalog → U (ID e)) → U (ID a) →
  sync_prepare catalog streams s = Ok (cl, s', drop) →
  let resumed := cl_CDCStreams cl ++ cl_IncrementalStreams cl in
  (ID a ∈ ID <$> resumed → GetCursor s' a key = GetCursor s a key ∧ GetChunks s' a = GetChunks s a)
  ∧ (ID a ∉ ID <$> resumed → GetCursor s' a key = None ∧ GetChunks s' a = None)
  ∧ drop = cl_FullLoadStreams cl
  ∧ (st_Type s = GlobalType → HasCompletedBackfill s' a = true ↔ HasCompletedBackfill s a = true ∧ ID a ∉ ID <$> drop).
Proof.
  intros Hp Hu Hnd Hn Hcf Hg HU Ha Hsync. destruct (sync_prepare_state _ _ _ _ _ _ Hp Hsync) as (-> & Hdrop & Hs').
  set (sel := omap (chosen catalog streams) (Streams catalog)) in *. destruct (selected_ids catalog streams _ Hnd) as [Hndsel Hsub].
  fold sel in Hndsel, Hsub.
  pose proof (resumed_ids sel (ID a)) as Hres.
  assert (find_stream s' a = if bool_decide (ID a ∈ ID <$> pick resumes sel) then find_stream s a else None) as Hfind.
  { assert (find_stream s' a = find_stream (set_streams s (carried s (pick resumes sel))) a ∨ ID a ∈ ID <$> drop) as Hor.
    { rewrite Hs'. destruct drop as [|d ds]; [by left|]. rewrite find_ClearState by done. case_bool_decide; auto. }
    rewrite <- find_carried by done. destruct Hor as [Hor|Hin]; [done|].
    assert (find_stream (set_streams s (carried s (pick resumes sel))) a = None) as Hnone.
    { rewrite find_carried by done. case_bool_decide as Hr; [|done]. exfalso. by apply (pick_disjoint _ _ _ Hndsel Hr); rewrite <- Hdrop. }
    rewrite Hs'. destruct drop as [|d ds]; [done|]. rewrite find_ClearState, Hnone by done. by case_bool_decide. }
  cbn [classification_of cl_CDCStreams cl_IncrementalStreams cl_FullLoadStreams]. unfold GetCursor, GetChunks.
  rewrite Hfind. split_and!; [|
    |done|].
  - intros Hin. apply Hres in Hin. by rewrite bool_decide_eq_true_2.
  - rewrite Hres. intros Hin. rewrite bool_decide_eq_false_2 by done. split; [by destruct (String.eqb key "")|done].
  - intros Ht. rewrite Hs'. set (s0 := set_streams s (carried s (pick resumes sel))).
    assert (HasCompletedBackfill s0 a = HasCompletedBackfill s a) as <- by (unfold HasCompletedBackfill; cbn [st_Type s0 set_streams]; by rewrite Ht).
    destruct drop as [|d ds]; [cbn; set_solver|]. apply (completed_ClearState U); [done..| |done|done].
    intros e He. rewrite Hdrop in He. unfold pick in He. apply list_elem_of_filter in He as [_ He].
    assert (ID e ∈ ID <$> Streams catalog) as (e' & -> & ?)%list_elem_of_fmap by (apply Hsub, list_elem_of_fmap; eauto). auto.
Qed.

Lemma clear_destination_state DropStreams catalog s file s' file' drop :
  plain_catalog catalog → clear_destination DropStreams catalog s file = Ok (s', file', drop) →
  drop ≡ₚ omap (chosen catalog None) (Streams catalog) ∧ DropStreams drop = None ∧ s' = ClearState s drop ∧ file' = LogState s' file.
Proof.
  intros Hp. unfold clear_destination, classifyStreams. rewrite classify_fold, record_streams by done.
  set (sel := omap (chosen catalog None) (Streams catalog)). cbn [mbind result_bind].
  change (cl_SelectedStreams (classification_of _ sel)) with sel. destruct sel as [|e l]; [done|].
  cbn [mbind result_bind classification_of cl_CDCStreams cl_IncrementalStreams cl_FullLoadStreams].
  pose proof (pick_split (e :: l)) as Hperm. rewrite Permutation_app_comm, <- app_assoc in Hperm.
  destruct (pick is_incremental (e :: l) ++ pick (λ e, negb (resumes e)) (e :: l) ++ pick is_cdc (e :: l)) eqn:E.
  - by apply Permutation_nil_cons in Hperm.
  - destruct (DropStreams _) eqn:Ed; [done|]. by intros [= <- <- <-].
Qed.
Lemma ClearState_zero s drop : isZero (ClearState s drop) = isZero s.
Proof. unfold isZero. cbn. destruct (st_Global s); [done|]. by destruct (st_Streams s). Qed.

(** C21: clear-destination resets exactly the selected streams.  The tables dropped are
    those of the valid selected streams, and the destination accepted to drop them;
    afterwards such a stream has no cursor, no pending chunk and no completed backfill,
    neither in memory nor in the state file, which is rewritten unless the state was
    empty before; and every other stream keeps its state. *)
Theorem clear_resets_selected U DropStreams catalog s file s' file' drop a key :
  plain_catalog catalog → namespaced a → collision_free U None → global_good U s →
  (∀ e, e ∈ Streams catalog → U (ID e)) → U (ID a) →
  clear_destination DropStreams catalog s file = Ok (s', file', drop) →
  (drop ≡ₚ omap (chosen catalog None) (Streams catalog) ∧ DropStreams drop = None)
  ∧ file' = (if isZero s then file else Some (marshal s'))
  ∧ (ID a ∈ ID <$> drop →
       GetCursor s' a key = None ∧ GetChunks s' a = None ∧ HasCompletedBackfill s' a = false
       ∧ ∀ p, p ∈ p_Streams (marshal s') → (p_Namespace p, p_Stream p) ≠ (Namespace a, Name a))
  ∧ (ID a ∉ ID <$> drop → find_stream s' a = find_stream s a ∧ HasCompletedBackfill s' a = HasCompletedBackfill s a).
Proof.
  intros Hp Hn Hcf Hg HU Ha Hclear. destruct (clear_destination_state _ _ _ _ _ _ _ Hp Hclear) as (Hperm & Hok & -> & ->). split; [done|].
  split; [unfold LogState; by rewrite ClearState_zero|].
  assert (∀ e, e ∈ drop → U (ID e)) as Hdrop.
  { intros e. rewrite Hperm. intros (x & Hx & (_ & -> & _)%chosen_spec)%list_elem_of_omap. exact (HU x Hx). }
  pose proof (completed_ClearState U s drop a Hcf Hg Hdrop Ha Hn) as Hc. pose proof (find_ClearState s drop a Hn) as Hf.
  split; intros Hin.
  - rewrite bool_decide_eq_true_2 in Hf by done. unfold GetCursor, GetChunks. rewrite Hf. split_and!.
    + destruct (String.eqb key ""); [done|]. destruct (find_stream s a); cbn; by rewrite ?lookup_empty.
    + destruct (find_stream s a); cbn; by rewrite ?lookup_empty.
    + apply not_true_iff_false. tauto.
    + intros p (e & -> & [Hh He]%list_elem_of_filter)%list_elem_of_fmap Heq. cbn [st_Streams ClearState] in He.
      apply list_elem_of_fmap in He as (e0 & -> & _). unfold clear_entry in *. destruct (contains _ (dotted e0)) eqn:Ec; [done|].
      apply not_true_iff_false in Ec. apply Ec. unfold contains. apply bool_decide_eq_true.
      rewrite (dotted_is_stream a e0 Hn); [done|]. by apply is_stream_true.
  - rewrite bool_decide_eq_false_2 in Hf by done. split; [done|]. apply eq_true_iff_eq. tauto.
Qed.
End Facts.

(** ** Witnesses: a CDC stream and a full-refresh stream, both with recorded state *)
Section Witnesses.
#[local] Instance wp_hash : GoHash string := encode_hash "".
#[local] Instance wp_chunk_hash : GoHash Chunk := ws_chunk_hash.
#[local] Instance wp_range : GoRange := sorted_range.
#[local] Instance wp_env : GoEnv := bare_env.

Definition orders : ConfiguredStream :=
  mkConfigured (Metadata users)
    (mkStream "orders" "public" ∅ (mkGoSet ∅ ∅ None) [] (mkGoSet ∅ ∅ None) (mkGoSet ∅ ∅ None) "" "" FULLREFRESH "" "" None).
Definition meta_for (name : string) : StreamMetadata := mkMetadata "" "" name false true "" false "" None None None.
Definition run_catalog : Catalog := mkCatalog (Some {["public" := [meta_for "users"; meta_for "orders"]]}) [users; orders].
Definition saved_state : State :=
  mkState StreamType 5 None
    [mkStreamState true "users" "public" "cdc" {["id" := SVal (AInt KInt64 7)]};
     mkStreamState true "orders" "public" "full_refresh" {["id" := SVal (AInt KInt64 9)]}].

Lemma run_catalog_plain : plain_catalog run_catalog.
Proof.
  intros nm fc c. assert (selected_entries run_catalog = [("public", meta_for "users"); ("public", meta_for "orders")]) as -> by (vm_compute; reflexivity).
  rewrite !elem_of_cons. intros Hin.
  destruct Hin as [->|[->|Hin]]; [done..|by apply elem_of_nil in Hin].
Qed.

Lemma classification_exact_witness :
  match classifyStreams run_catalog None saved_state with
  | Ok (cl, _) => ID <$> cl_CDCStreams cl = ["public.users"] ∧ ID <$> cl_FullLoadStreams cl = ["public.orders"]
  | _ => False
  end.
Proof.
  pose proof (classification_exact run_catalog None saved_state run_catalog_plain) as [_ Hc].
  destruct (classifyStreams run_catalog None saved_state) as [[cl s']| |] eqn:E.
  - destruct Hc as (_ & _ & Hcdc & _ & Hfull & _). rewrite Hcdc, Hfull. vm_compute. split; reflexivity.
  - vm_compute in Hc. discriminate.
  - exact Hc.
Defined.

Lemma sync_resumes_selected_witness :
  match sync_prepare run_catalog None saved_state with
  | Ok (_, s', _) => GetCursor s' users "id" = Some (SVal (AInt KInt64 7)) ∧ GetCursor s' orders "id" = None
  | _ => False
  end.
Proof.
  destruct (sync_prepare run_catalog None saved_state) as [[[cl s'] drop]| |] eqn:E; [|vm_compute in E; discriminate..].
  assert (dotted_unique saved_state) as Hu by (unfold dotted_unique; by_decide).
  assert (NoDup (ID <$> Streams run_catalog)) as Hnd by (by_decide).
  pose proof (λ a Hn, sync_resumes_selected (λ _, True) run_catalog None saved_state cl s' drop a "id" run_catalog_plain Hu Hnd Hn
                (encode_hash_cf "" (λ _, True)) (λ g st (Hg : None = Some g), ltac:(discriminate)) (λ _ _, I) I E) as Hsync.
  assert (cl_CDCStreams cl ++ cl_IncrementalStreams cl = [mkConfigured (meta_for "users") (StreamOf users)]) as Hcl
    by (vm_compute in E; injection E as <- _ _; reflexivity).
  split.
  - destruct (Hsync users ltac:(discriminate)) as [Hyes _]. rewrite Hcl in Hyes. apply Hyes. left.
  - destruct (Hsync orders ltac:(discriminate)) as (_ & Hno & _). rewrite Hcl in Hno. apply Hno. by_decide.
Defined.

Lemma clear_resets_selected_witness :
  match clear_destination (λ _, None) run_catalog saved_state None with
  | Ok (s', _, _) => GetCursor s' users "id" = None ∧ HasCompletedBackfill s' orders = false
  | _ => False
  end.
Proof.
  destruct (clear_destination (λ _, None) run_catalog saved_state None) as [[[s' file'] drop]| |] eqn:E; [|vm_compute in E; discriminate..].
  pose proof (λ a Hn, clear_resets_selected (λ _, True) (λ _, None) run_catalog saved_state None s' file' drop a "id" run_catalog_plain Hn
                (encode_hash_cf "" (λ _, True)) (λ g st (Hg : None = Some g), ltac:(discriminate)) (λ _ _, I) I E) as Hclear.
  assert (ID <$> drop = ["public.orders"; "public.users"]) as Hd by (vm_compute in E; injection E as _ _ <-; reflexivity).
  split.
  - destruct (Hclear users ltac:(discriminate)) as (_ & _ & Hin & _). rewrite Hd in Hin. apply Hin. right. left.
  - destruct (Hclear orders ltac:(discriminate)) as (_ & _ & Hin & _). rewrite Hd in Hin. apply Hin. left.
Defined.
End Witnesses.
