(* ===== verification/Writers.v ===== *)
(** * destination/writers.go: writer threads, batching and the sync statistics

    A reader pushes records into a writer thread; full buffers are handed to an error
    group with a single slot, so that one flush runs while the next buffer fills; [Close]
    flushes the rest and commits.  The statistics are shared by all threads of the pool
    and updated live, so a thread that does not commit takes its contribution back.

    The destination (interface.go) is the class [Writer].  A call may be made with a
    cancelled context ([done]).  The counters are 64-bit atomics. *)

From S2P Require Import Prelude GoString GoSet DataTypes QueryEngine Value Schema Stream TwoPC Fields.

Definition MaxDestinationBatchBytes : Z := 1073741824.

(** [atomic.Int64.Add] *)
Definition atomic_add (a delta : Z) : Z := wrap_s 64 (a + delta).

Record Options := mkOptions {
  o_Backfill : bool; o_ThreadID : string; o_ApplyFilter : bool; o_KeepDeletesThroughFilter : bool
}.
Abbreviation ThreadOptions := (Options → Options) (only parsing).
Definition WithBackfill (backfill : bool) : ThreadOptions := λ o,
  mkOptions backfill (o_ThreadID o) (o_ApplyFilter o) (o_KeepDeletesThroughFilter o).
Definition WithThreadID (threadID : string) : ThreadOptions := λ o,
  mkOptions (o_Backfill o) threadID (o_ApplyFilter o) (o_KeepDeletesThroughFilter o).
Definition WithApplyFilter (applyFilter : bool) : ThreadOptions := λ o,
  mkOptions (o_Backfill o) (o_ThreadID o) applyFilter (o_KeepDeletesThroughFilter o).
Definition WithKeepDeletesThroughFilter (keep : bool) : ThreadOptions := λ o,
  mkOptions (o_Backfill o) (o_ThreadID o) (o_ApplyFilter o) keep.

(** The destination writer: each call may change the writer, whatever it returns. *)
Class Writer := {
  writer : Type;
  wschema : Type;
  Setup : ConfiguredStream → option wschema → Options → result (option wschema * option MetadataState * writer);
  FlattenAndCleanData : bool → writer → list RawRecord → writer * result (bool * list RawRecord * option wschema);
  EvolveSchema : bool → writer → option wschema → option wschema → writer * result (option wschema);
  WriteRecords : bool → writer → list RawRecord → writer * result unit;
  CloseWriter : bool → writer → option MetadataState → writer * result unit
}.

Record Stats := mkStats {
  TotalRecordsToSync : Z; ReadCount : Z; RecordsFiltered : Z; ThreadCount : Z; BytesRead : Z
}.

Section Pool.
Context `{Writer}.

(** [writerSchema]: the schema shared by the threads of a stream, under a mutex. *)
Record writerSchema := mkArtifact { mu_locked : bool; art_schema : option wschema }.

Record WriterPool := mkPool { stats : Stats; artifacts : gmap string writerSchema; pool_batchSize : Z }.

(** The error group of a thread has one slot: [tasks] lists the buffers handed to it, the
    one being flushed first; [groupErr] is its first error, which cancels its context. *)
Record WriterThread := mkThreadW {
  buffer : list RawRecord;
  threadID : string;
  streamID : string;
  batchSize : Z;
  tasks : list (list RawRecord);
  groupErr : option string;
  recordsPushed : Z;
  recordsFiltered : Z;
  bytesPushed : Z;
  bufferBytes : Z;
  wt_writer : writer
}.

Implicit Types (p : WriterPool) (wt : WriterThread).

Definition set_stats (st : Stats) p : WriterPool := mkPool st (artifacts p) (pool_batchSize p).
Definition set_artifact (id : string) (a : writerSchema) p : WriterPool :=
  mkPool (stats p) (<[id := a]> (artifacts p)) (pool_batchSize p).

Definition add_stats (read filtered threads bytes : Z) (st : Stats) : Stats :=
  mkStats (TotalRecordsToSync st) (atomic_add (ReadCount st) read) (atomic_add (RecordsFiltered st) filtered)
    (atomic_add (ThreadCount st) threads) (atomic_add (BytesRead st) bytes).

Definition AddRecordsToSyncStats (count : Z) p : WriterPool :=
  let st := stats p in
  set_stats (mkStats (atomic_add (TotalRecordsToSync st) count) (ReadCount st) (RecordsFiltered st) (ThreadCount st) (BytesRead st)) p.

Definition set_writer (w : writer) wt : WriterThread :=
  mkThreadW (buffer wt) (threadID wt) (streamID wt) (batchSize wt) (tasks wt) (groupErr wt)
    (recordsPushed wt) (recordsFiltered wt) (bytesPushed wt) (bufferBytes wt) w.
Definition set_tasks (l : list (list RawRecord)) wt : WriterThread :=
  mkThreadW (buffer wt) (threadID wt) (streamID wt) (batchSize wt) l (groupErr wt)
    (recordsPushed wt) (recordsFiltered wt) (bytesPushed wt) (bufferBytes wt) (wt_writer wt).
Definition set_groupErr (e : option string) wt : WriterThread :=
  mkThreadW (buffer wt) (threadID wt) (streamID wt) (batchSize wt) (tasks wt) e
    (recordsPushed wt) (recordsFiltered wt) (bytesPushed wt) (bufferBytes wt) (wt_writer wt).
Definition set_buffer (l : list RawRecord) (bytes : Z) wt : WriterThread :=
  mkThreadW l (threadID wt) (streamID wt) (batchSize wt) (tasks wt) (groupErr wt)
    (recordsPushed wt) (recordsFiltered wt) (bytesPushed wt) bytes (wt_writer wt).
Definition count_push (bytes : Z) wt : WriterThread :=
  mkThreadW (buffer wt) (threadID wt) (streamID wt) (batchSize wt) (tasks wt) (groupErr wt)
    (atomic_add (recordsPushed wt) 1) (recordsFiltered wt) (atomic_add (bytesPushed wt) bytes) (bufferBytes wt) (wt_writer wt).
Definition count_filtered (n : Z) wt : WriterThread :=
  mkThreadW (buffer wt) (threadID wt) (streamID wt) (batchSize wt) (tasks wt) (groupErr wt)
    (recordsPushed wt) (atomic_add (recordsFiltered wt) n) (bytesPushed wt) (bufferBytes wt) (wt_writer wt).

(** The number of records a sync reports (protocol/sync.go). *)
Definition readRecordsCount (st : Stats) : Z := Z.max 0 (wrap_s 64 (ReadCount st - RecordsFiltered st)).

(** ** NewWriter: the thread count is raised before anything can fail.  [Setup] stands for
    the writer's initialisation and set-up; it runs under the stream's mutex. *)
Definition NewWriter p (stream : ConfiguredStream) (options : list ThreadOptions)
    : option (WriterPool * result (WriterThread * option MetadataState)) :=
  let p := set_stats (add_stats 0 0 1 0 (stats p)) p in
  let opts := foldl (λ o one, one o) (mkOptions false "" false false) options in
  match artifacts p !! ID stream with
  | None => Some (p, Err "failed to get stream artifacts for stream")
  | Some (mkArtifact true _) => None
  | Some (mkArtifact false schema) =>
      match Setup stream schema opts with
      | Ok (threadSchema, prevStreamState, w) =>
          let p := match schema with
                   | None => set_artifact (ID stream) (mkArtifact false threadSchema) p
                   | Some _ => p
                   end in
          Some (p, Ok (mkThreadW [] (o_ThreadID opts) (ID stream) (pool_batchSize p) [] None 0 0 0 0 w, prevStreamState))
      | Err e => Some (p, Err "failed to setup writer thread")
      | Panic m => Some (p, Panic m)
      end
  end.

(** ** flush: a panic below is recovered into an error; one inside [EvolveSchema] leaves
    the stream's mutex locked.  [None]: blocked on that mutex. *)
Definition flush_write (done : bool) p wt (buf : list RawRecord) : WriterPool * WriterThread * option string :=
  let '(w, r) := WriteRecords done (wt_writer wt) buf in
  (p, set_writer w wt, match r with Ok _ => None | Err _ => Some "failed to write records" | Panic _ => Some "panic recovered in flush" end).

Definition flush (done : bool) p wt (buf : list RawRecord) : option (WriterPool * WriterThread * option string) :=
  match buf with
  | [] => Some (p, wt, None)
  | _ =>
      let '(w, r) := FlattenAndCleanData done (wt_writer wt) buf in
      let wt := set_writer w wt in
      match r with
      | Ok (evolution, cleaned, threadSchema) =>
          let filtered := Z.of_nat (length buf) - Z.of_nat (length cleaned) in
          let p := set_stats (add_stats 0 filtered 0 0 (stats p)) p in
          let wt := count_filtered filtered wt in
          if evolution then
            match artifacts p !! streamID wt with
            | Some (mkArtifact false schema) =>
                let '(w, r) := EvolveSchema done (wt_writer wt) schema threadSchema in
                let wt := set_writer w wt in
                match r with
                | Ok newSchema =>
                    let schema := match newSchema with Some _ => newSchema | None => schema end in
                    Some (flush_write done (set_artifact (streamID wt) (mkArtifact false schema) p) wt cleaned)
                | Err e => Some (p, wt, Some "failed to evolve schema")
                | Panic m => Some (set_artifact (streamID wt) (mkArtifact true schema) p, wt, Some "panic recovered in flush")
                end
            | _ => None
            end
          else Some (flush_write done p wt cleaned)
      | Err e => Some (p, wt, Some "failed to flatten and clean data")
      | Panic m => Some (p, wt, Some "panic recovered in flush")
      end
  end.

(** ** The error group *)
Definition first_error (old new : option string) : option string := match old with Some _ => old | None => new end.
Definition is_err (e : option string) : bool := match e with Some _ => true | None => false end.

(** One task of the group, with the group's context. *)
Definition run_task (done : bool) p wt : option (WriterPool * WriterThread) :=
  match tasks wt with
  | [] => Some (p, wt)
  | buf :: rest =>
      match flush (done || is_err (groupErr wt)) p (set_tasks rest wt) buf with
      | Some (p, wt, err) => Some (p, set_groupErr (first_error (groupErr wt) err) wt)
      | None => None
      end
  end.

(** [group.Block]: wait for all tasks.  A task never adds tasks. *)
Fixpoint drain (fuel : nat) (done : bool) p wt : option (WriterPool * WriterThread) :=
  match fuel with
  | O => Some (p, wt)
  | S fuel => match run_task done p wt with Some (p, wt) => drain fuel done p wt | None => None end
  end.
Definition Block (done : bool) p wt : option (WriterPool * WriterThread * option string) :=
  match drain (length (tasks wt)) done p wt with
  | Some (p, wt) => Some (p, wt, groupErr wt)
  | None => None
  end.

(** ** Push *)
Definition full wt : bool :=
  (batchSize wt <=? Z.of_nat (length (buffer wt))) || (MaxDestinationBatchBytes <=? bufferBytes wt).

(** The buffer handed over is a copy, so refilling the buffer does not touch it. *)
Definition push_record p wt (record : RawRecord) (sourceBytes : Z) : WriterPool * WriterThread :=
  let p := set_stats (add_stats 1 0 0 sourceBytes (stats p)) p in
  let wt := count_push sourceBytes wt in
  let wt := set_buffer (buffer wt ++ [record]) (wrap_s 64 (bufferBytes wt + sourceBytes)) wt in
  if full wt then (p, set_tasks (tasks wt ++ [buffer wt]) (set_buffer [] 0 wt)) else (p, wt).

Definition Push (done : bool) p wt (record : RawRecord) (sourceBytes : Z) : option (WriterPool * WriterThread * result unit) :=
  if done then Some (p, wt, Err "context canceled")
  else match groupErr wt with
       | Some _ =>
           match Block false p wt with
           | Some (p, wt, err) => Some (p, wt, Err (default "" err))
           | None => None
           end
       | None => let '(p, wt) := push_record p wt record sourceBytes in Some (p, wt, Ok tt)
       end.

(** ** Close *)
Definition rollbackStats p wt : WriterPool :=
  set_stats (add_stats (- recordsPushed wt) (- recordsFiltered wt) 0 (- bytesPushed wt) (stats p)) p.

Definition close_aborted p wt (finalMetadataState : option MetadataState) : option (WriterPool * WriterThread * result unit) :=
  match Block true p wt with
  | None => None
  | Some (p, wt, _) =>
      let p := rollbackStats p wt in
      let '(w, r) := CloseWriter true (wt_writer wt) finalMetadataState in
      Some (p, set_writer w wt, match r with Ok _ => Ok tt | Err e => Err "failed to close writer" | Panic m => Panic m end)
  end.

(** The deferred part of a normal close: the writer commits unless its context was
    cancelled by a flush error, and the statistics are rolled back on any error. *)
Definition close_commit p wt (err : option string) (finalMetadataState : option MetadataState) : option (WriterPool * WriterThread * result unit) :=
  match artifacts p !! streamID wt with
  | Some (mkArtifact false _) =>
      let '(w, r) := CloseWriter (is_err err) (wt_writer wt) finalMetadataState in
      let wt := set_writer w wt in
      match r with
      | Panic m => Some (set_stats (add_stats 0 0 (-1) 0 (stats p)) p, wt, Panic m)
      | _ =>
          let err := match r, err with
            | Ok _, _ => err
            | Err e, None => Some e
            | Err e, Some e' => Some (e +:+ ": flush error: " +:+ e')
            | Panic m, _ => Some m
            end in
          let p := if is_err err then rollbackStats p wt else p in
          Some (set_stats (add_stats 0 0 (-1) 0 (stats p)) p, wt, match err with Some e => Err e | None => Ok tt end)
      end
  | _ => None
  end.

Definition Close (done : bool) p wt (finalMetadataState : option MetadataState) : option (WriterPool * WriterThread * result unit) :=
  if done then close_aborted p wt finalMetadataState
  else match Block false p (set_tasks (tasks wt ++ [buffer wt]) wt) with
       | None => None
       | Some (p, wt, err) =>
           close_commit p wt (match err with Some _ => Some "failed to flush data while closing" | None => None end) finalMetadataState
       end.

End Pool.
