(* ===== verification/WritersFacts.v ===== *)
(** * Theorems about writer threads: what reaches the destination, and the statistics *)

From S2P Require Import Prelude GoString GoSet DataTypes QueryEngine Value Schema Stream TwoPC Fields Writers.

(** ** Counters modulo 2^64 *)
Definition cong (a b : Z) : Prop := ∃ k, a = b + k * 2 ^ 64.
Infix "≡₆₄" := cong (at level 70).

#[export] Instance cong_equiv : Equivalence cong.
Proof.
  split; [intros a; exists 0; lia|intros a b [k ->]; exists (-k); lia|intros a b c [k ->] [j ->]; exists (k + j); lia].
Qed.
#[export] Instance cong_add : Proper (cong ==> cong ==> cong) Z.add.
Proof. intros a b [k ->] c d [j ->]. exists (k + j). lia. Qed.
#[export] Instance cong_sub : Proper (cong ==> cong ==> cong) Z.sub.
Proof. intros a b [k ->] c d [j ->]. exists (k - j). lia. Qed.
#[export] Instance cong_opp : Proper (cong ==> cong) Z.opp.
Proof. intros a b [k ->]. exists (- k). lia. Qed.

Lemma wrap_cong a : wrap_s 64 a ≡₆₄ a.
Proof.
  unfold wrap_s. exists (- ((a + 2 ^ (64 - 1)) / 2 ^ 64)). pose proof (Z.div_mod (a + 2 ^ (64 - 1)) (2 ^ 64)). lia.
Qed.

Lemma atomic_add_cong a b : atomic_add a b ≡₆₄ a + b.
Proof. apply wrap_cong. Qed.

(** A counter in the 64-bit range is determined by its congruence class. *)
Lemma cong_wrap a b : a ≡₆₄ b → wrap_s 64 a = wrap_s 64 b.
Proof.
  intros [k ->]. unfold wrap_s. f_equal. replace (b + k * 2 ^ 64 + 2 ^ (64 - 1)) with (b + 2 ^ (64 - 1) + k * 2 ^ 64) by lia.
  apply Z_mod_plus_full.
Qed.

Definition sumZ (l : list Z) : Z := foldr Z.add 0 l.
Lemma sumZ_app l k : sumZ (l ++ k) = sumZ l + sumZ k.
Proof. induction l as [|x l IH]; cbn; [done|]. fold (sumZ (l ++ k)) (sumZ l). lia. Qed.
Lemma sumZ_cons x l : sumZ (x :: l) = x + sumZ l.
Proof. done. Qed.
Lemma sumZ_update {A} (f : A → Z) l i x y : l !! i = Some x → sumZ (f <$> <[i := y]> l) = sumZ (f <$> l) - f x + f y.
Proof.
  revert i. induction l as [|a l IH]; intros [|i] Hi; [done..| |].
  - injection Hi as ->. cbn [insert list_insert]. rewrite !fmap_cons, !sumZ_cons. lia.
  - change (<[S i := y]> (a :: l)) with (a :: <[i := y]> l). rewrite !fmap_cons, !sumZ_cons, (IH i Hi). lia.
Qed.

(** What a destination writer promises to its thread: setting up starts empty, cleaning
    and evolving write nothing, writing appends the batch. *)
Class WriterSpec `{Writer} := {
  received : writer → list RawRecord;
  cleans : list RawRecord → list RawRecord → Prop;
  setup_empty stream schema opts s m w : Setup stream schema opts = Ok (s, m, w) → received w = [];
  flatten_keeps done w buf w' r : FlattenAndCleanData done w buf = (w', r) → received w' = received w;
  flatten_cleans done w buf w' ev cleaned s : FlattenAndCleanData done w buf = (w', Ok (ev, cleaned, s)) → cleans buf cleaned;
  cleans_shrinks raw cleaned : cleans raw cleaned → (length cleaned ≤ length raw)%nat;
  evolve_keeps done w g s w' r : EvolveSchema done w g s = (w', r) → received w' = received w;
  write_appends done w buf w' : WriteRecords done w buf = (w', Ok tt) → received w' = received w ++ buf;
  close_keeps done w m w' r : CloseWriter done w m = (w', r) → received w' = received w
}.

Section Facts.
Context `{WriterSpec}.
Implicit Types (p : WriterPool) (wt : WriterThread).

(** ** Runs: any interleaving of the threads' steps *)
Inductive status := SOpen | SCommitted | SFailed | SAborted | SPanicked.

(** A thread with its history: the records pushed with their sizes, and the buffers
    handed to a flush so far. *)
Record entry := mkEntryW { e_thread : WriterThread; e_pushed : list (RawRecord * Z); e_flushed : list (list RawRecord); e_status : status }.

(** [w_lost] counts failed [NewWriter] calls. *)
Record world := mkWorld { w_pool : WriterPool; w_threads : list entry; w_lost : Z }.

Inductive event :=
| EvNew (stream : ConfiguredStream) (options : list (Options → Options))
| EvPush (i : nat) (done : bool) (record : RawRecord) (sourceBytes : Z)
| EvTask (i : nat) (done : bool)
| EvClose (i : nat) (done : bool) (m : option MetadataState).

Definition close_status (done : bool) (r : result unit) : status :=
  if done then SAborted else match r with Ok _ => SCommitted | Err _ => SFailed | Panic _ => SPanicked end.

(** [None]: the step is not enabled (closed thread, or a full group: [Push] then waits
    for the running task), or it waits for a mutex for ever. *)
Definition exec (w : world) (ev : event) : option world :=
  match ev with
  | EvNew stream options =>
      '(p, r) ← NewWriter (w_pool w) stream options;
      match r with
      | Ok (wt, _) => Some (mkWorld p (w_threads w ++ [mkEntryW wt [] [] SOpen]) (w_lost w))
      | _ => Some (mkWorld p (w_threads w) (w_lost w + 1))
      end
  | EvPush i done record sourceBytes =>
      e ← w_threads w !! i;
      match e_status e, tasks (e_thread e) with
      | SOpen, ([] | [_]) =>
          '(p, wt, r) ← Push done (w_pool w) (e_thread e) record sourceBytes;
          let e' := match r with
            | Ok _ => mkEntryW wt (e_pushed e ++ [(record, sourceBytes)]) (e_flushed e) SOpen
            | _ => if done then mkEntryW wt (e_pushed e) (e_flushed e) SOpen
                   else mkEntryW wt (e_pushed e) (e_flushed e ++ tasks (e_thread e)) SOpen
            end in
          Some (mkWorld p (<[i := e']> (w_threads w)) (w_lost w))
      | _, _ => None
      end
  | EvTask i done =>
      e ← w_threads w !! i;
      match e_status e, tasks (e_thread e) with
      | SOpen, buf :: _ =>
          '(p, wt) ← run_task done (w_pool w) (e_thread e);
          Some (mkWorld p (<[i := mkEntryW wt (e_pushed e) (e_flushed e ++ [buf]) SOpen]> (w_threads w)) (w_lost w))
      | _, _ => None
      end
  | EvClose i done m =>
      e ← w_threads w !! i;
      match e_status e with
      | SOpen =>
          '(p, wt, r) ← Close done (w_pool w) (e_thread e) m;
          let flushed := e_flushed e ++ tasks (e_thread e) ++ (if done then [] else [buffer (e_thread e)]) in
          Some (mkWorld p (<[i := mkEntryW wt (e_pushed e) flushed (close_status done r)]> (w_threads w)) (w_lost w))
      | _ => None
      end
  end.

Fixpoint run (w : world) (evs : list event) : option world :=
  match evs with [] => Some w | ev :: evs => w' ← exec w ev; run w' evs end.

(** ** Changes of the statistics *)
Definition normal (st : Stats) : Prop :=
  ∀ f, f ∈ [ReadCount; RecordsFiltered; ThreadCount; BytesRead] → wrap_s 64 (f st) = f st.
Record stats_delta (st st' : Stats) (read filtered threads bytes : Z) : Prop := {
  sd_read : ReadCount st' ≡₆₄ ReadCount st + read;
  sd_filtered : RecordsFiltered st' ≡₆₄ RecordsFiltered st + filtered;
  sd_threads : ThreadCount st' ≡₆₄ ThreadCount st + threads;
  sd_bytes : BytesRead st' ≡₆₄ BytesRead st + bytes;
  sd_normal : normal st → normal st'
}.

Lemma wrap_wrap a : wrap_s 64 (wrap_s 64 a) = wrap_s 64 a.
Proof. apply wrap_s_id; [lia|]. apply wrap_s_range. lia. Qed.

Lemma delta_refl st : stats_delta st st 0 0 0 0.
Proof. split; try (by rewrite Z.add_0_r); done. Qed.

Lemma delta_add st r f t b : stats_delta st (add_stats r f t b st) r f t b.
Proof.
  split; try apply atomic_add_cong. intros _ g. rewrite !elem_of_cons, elem_of_nil. intros [->|[->|[->|[->|[]]]]]; apply wrap_wrap.
Qed.

Lemma delta_trans st1 st2 st3 r f t b r' f' t' b' :
  stats_delta st1 st2 r f t b → stats_delta st2 st3 r' f' t' b' → stats_delta st1 st3 (r + r') (f + f') (t + t') (b + b').
Proof.
  intros [A B C D N] [A' B' C' D' N']. split; [rewrite A', A|rewrite B', B|rewrite C', C|rewrite D', D|auto]; by rewrite Z.add_assoc.
Qed.

Lemma delta_proper st st' r f t b r' f' t' b' :
  stats_delta st st' r f t b → r ≡₆₄ r' → f ≡₆₄ f' → t ≡₆₄ t' → b ≡₆₄ b' → stats_delta st st' r' f' t' b'.
Proof. intros [A B C D N] Hr Hf Ht Hb. split; [by rewrite A, Hr|by rewrite B, Hf|by rewrite C, Ht|by rewrite D, Hb|done]. Qed.

(** ** What a flush does to the thread and the pool *)
Definition cleaned_as (raw cleaned : list RawRecord) : Prop := (raw = [] ∧ cleaned = []) ∨ cleans raw cleaned.

Record same_thread wt wt' : Prop := {
  st_buffer : buffer wt' = buffer wt;
  st_batch : batchSize wt' = batchSize wt;
  st_tasks : tasks wt' = tasks wt;
  st_pushed : recordsPushed wt' = recordsPushed wt;
  st_bytes : bytesPushed wt' = bytesPushed wt;
  st_id : streamID wt' = streamID wt
}.

Lemma same_thread_refl wt : same_thread wt wt.
Proof. done. Qed.

Lemma same_thread_trans a b c : same_thread a b → same_thread b c → same_thread a c.
Proof. intros [] []. split; congruence. Qed.

Record flushed_as p wt (raw : list RawRecord) p' wt' (err : option string) (n : Z) : Prop := {
  fa_same : same_thread wt wt';
  fa_err : groupErr wt' = groupErr wt;
  fa_stats : stats_delta (stats p) (stats p') 0 n 0 0;
  fa_filtered : recordsFiltered wt' ≡₆₄ recordsFiltered wt + n;
  fa_ok : err = None → ∃ cleaned, cleaned_as raw cleaned
            ∧ received (wt_writer wt') = received (wt_writer wt) ++ cleaned
            ∧ n = Z.of_nat (length raw) - Z.of_nat (length cleaned)
}.

Lemma flush_write_spec done p wt buf p' wt' err :
  flush_write done p wt buf = (p', wt', err) →
  p' = p ∧ wt' = set_writer (wt_writer wt') wt ∧ (err = None → received (wt_writer wt') = received (wt_writer wt) ++ buf).
Proof.
  unfold flush_write. destruct (WriteRecords done (wt_writer wt) buf) as [w r] eqn:E. intros [= <- <- <-]. split_and!; [done..|].
  destruct r as [[]| |]; [|done..]. intros _. by apply write_appends in E.
Qed.

Lemma flush_spec done p wt raw p' wt' err : flush done p wt raw = Some (p', wt', err) → ∃ n, flushed_as p wt raw p' wt' err n.
Proof.
  unfold flush. destruct raw as [|x raw]; [intros [= <- <- <-]; exists 0; split; [done..|apply delta_refl|by rewrite Z.add_0_r|]|].
  { intros _. exists []. split_and!; [by left|by rewrite app_nil_r|done]. }
  set (buf := x :: raw). destruct (FlattenAndCleanData done (wt_writer wt) buf) as [w r] eqn:Ef. pose proof (flatten_keeps _ _ _ _ _ Ef) as Hk.
  destruct r as [[[ev cleaned] s]|e|m]; [|intros [= <- <- <-]; exists 0; split; [done..|apply delta_refl|by rewrite Z.add_0_r|done]..].
  pose proof (flatten_cleans _ _ _ _ _ _ _ Ef) as Hc. cbn [set_writer count_filtered set_stats stats artifacts streamID wt_writer].
  set (n := Z.of_nat (length buf) - Z.of_nat (length cleaned)).
  set (p1 := set_stats (add_stats 0 n 0 0 (stats p)) p). set (wt1 := count_filtered n (set_writer w wt)).
  assert (Hmain : ∀ w2 p2 err2, stats p2 = stats p1 → (err2 = None → received w2 = received w ++ cleaned) →
            flushed_as p wt buf p2 (set_writer w2 wt1) err2 n).
  { intros w2 p2 err2 Hs Hok. split; [done..|rewrite Hs; apply delta_add|apply atomic_add_cong|].
    intros He. exists cleaned. split_and!; [by right|cbn [wt_writer set_writer]; by rewrite (Hok He), Hk|done]. }
  intros Hfl. exists n. revert Hfl. destruct ev.
  - destruct (artifacts p !! streamID wt) as [[[] schema]|]; [done| |done].
    destruct (EvolveSchema done w schema s) as [w2 r2] eqn:Ee. pose proof (evolve_keeps _ _ _ _ _ _ Ee) as Hk2.
    destruct r2 as [new|e|m].
    + destruct (flush_write _ _ _ _) as [[p3 wt3] err3] eqn:Ew. intros [= <- <- <-].
      apply flush_write_spec in Ew as (-> & -> & Hw). cbn [wt_writer set_writer] in *. apply Hmain; [done|]. intros He. by rewrite Hw, Hk2.
    + intros [= <- <- <-]. by apply Hmain.
    + intros [= <- <- <-]. by apply Hmain.
  - destruct (flush_write _ _ _ _) as [[p3 wt3] err3] eqn:Ew. intros [= <- <- <-].
    apply flush_write_spec in Ew as (-> & -> & Hw). by apply Hmain.
Qed.

(** ** Invariant of a thread: [rest] is what was pushed but not handed over *)
Record thread_inv (pushed : list (RawRecord * Z)) (flushed : list (list RawRecord)) (rest : list RawRecord) wt : Prop := {
  ti_order : concat flushed ++ concat (tasks wt) ++ rest = pushed.*1;
  ti_pushed : recordsPushed wt ≡₆₄ Z.of_nat (length pushed);
  ti_bytes : bytesPushed wt ≡₆₄ sumZ pushed.*2;
  ti_batches : Forall (λ b, Z.of_nat (length b) ≤ Z.max 1 (batchSize wt)) (flushed ++ tasks wt);
  ti_rest : Z.of_nat (length rest) ≤ Z.max 1 (batchSize wt) - 1;
  ti_written : groupErr wt = None → ∃ cs, Forall2 cleaned_as flushed cs ∧ received (wt_writer wt) = concat cs
                 ∧ recordsFiltered wt ≡₆₄ Z.of_nat (length (concat flushed)) - Z.of_nat (length (concat cs))
}.

Lemma run_task_inv pushed flushed rest done p wt buf tl p' wt' :
  thread_inv pushed flushed rest wt → tasks wt = buf :: tl → run_task done p wt = Some (p', wt') →
  thread_inv pushed (flushed ++ [buf]) rest wt' ∧ tasks wt' = tl ∧ buffer wt' = buffer wt ∧ streamID wt' = streamID wt
  ∧ stats_delta (stats p) (stats p') 0 (recordsFiltered wt' - recordsFiltered wt) 0 0.
Proof.
  intros [Ho Hp Hb Hbt Hr Hw] Ht. unfold run_task. rewrite Ht.
  destruct (flush _ p (set_tasks tl wt) buf) as [[[p1 wt1] err]|] eqn:Ef; [|done]. intros [= <- <-].
  apply flush_spec in Ef as (n & [[Hbu Hba Hta Hpu Hby Hid] He Hs Hf Hok]). cbn [set_tasks buffer batchSize tasks recordsPushed bytesPushed groupErr recordsFiltered wt_writer streamID] in *.
  split_and!; [|done..|].
  - split; cbn [set_groupErr tasks recordsPushed bytesPushed batchSize groupErr wt_writer recordsFiltered].
    + rewrite Hta, concat_app, <- Ho, Ht. cbn [concat]. by rewrite app_nil_r, <- !app_assoc.
    + by rewrite Hpu.
    + by rewrite Hby.
    + rewrite Hta, Hba, <- app_assoc. by rewrite Ht in Hbt.
    + by rewrite Hba.
    + rewrite He. intros Herr. destruct (groupErr wt) as [|] eqn:Eg; [done|]. cbn in Herr.
      destruct (Hok Herr) as (cl & Hcl & Hrec & Hn). destruct (Hw eq_refl) as (cs & Hcs & Hrecv & Hfil).
      exists (cs ++ [cl]). split_and!; [by apply Forall2_app; [|constructor]|by rewrite Hrec, Hrecv, concat_app; cbn; rewrite app_nil_r|].
      rewrite !concat_app, !length_app. cbn [concat]. rewrite !app_nil_r, Hf, Hfil, Hn. exists 0. lia.
  - cbn. eapply delta_proper; [exact Hs|done| |done|done]. rewrite Hf. exists 0. lia.
Qed.

Lemma drain_inv k pushed flushed rest done p wt p' wt' :
  k = length (tasks wt) → thread_inv pushed flushed rest wt → drain k done p wt = Some (p', wt') →
  thread_inv pushed (flushed ++ tasks wt) rest wt' ∧ tasks wt' = [] ∧ buffer wt' = buffer wt ∧ streamID wt' = streamID wt
  ∧ stats_delta (stats p) (stats p') 0 (recordsFiltered wt' - recordsFiltered wt) 0 0.
Proof.
  revert flushed p wt. induction k as [|k IH]; intros flushed p wt Hk Hinv; cbn [drain].
  - intros [= <- <-]. destruct (tasks wt) eqn:Et; [|done]. rewrite app_nil_r. split_and!; [done..|].
    eapply delta_proper; [apply delta_refl|done| |done|done]. by rewrite Z.sub_diag.
  - destruct (tasks wt) as [|buf tl] eqn:Et; [done|]. destruct (run_task done p wt) as [[p1 wt1]|] eqn:Er; [|done]. intros Hd.
    destruct (run_task_inv _ _ _ _ _ _ _ _ _ _ Hinv Et Er) as (Hinv1 & Ht1 & Hb1 & Hi1 & Hs1).
    destruct (IH (flushed ++ [buf]) p1 wt1) as (Hinv2 & Ht2 & Hb2 & Hi2 & Hs2); [by rewrite Ht1; injection Hk|done..|].
    rewrite Ht1, <- app_assoc in Hinv2. split_and!; [done|done|congruence|congruence|].
    eapply delta_proper; [eapply delta_trans; [exact Hs1|exact Hs2]|done| |done|done]. exists 0. lia.
Qed.

Lemma Block_inv pushed flushed rest done p wt p' wt' err :
  thread_inv pushed flushed rest wt → Block done p wt = Some (p', wt', err) →
  thread_inv pushed (flushed ++ tasks wt) rest wt' ∧ tasks wt' = [] ∧ buffer wt' = buffer wt ∧ streamID wt' = streamID wt
  ∧ err = groupErr wt' ∧ stats_delta (stats p) (stats p') 0 (recordsFiltered wt' - recordsFiltered wt) 0 0.
Proof.
  intros Hinv. unfold Block. destruct (drain _ done p wt) as [[p1 wt1]|] eqn:Ed; [|done]. intros [= <- <- <-].
  destruct (drain_inv _ _ _ _ _ _ _ _ _ eq_refl Hinv Ed) as (? & ? & ? & ? & ?). done.
Qed.

Lemma push_inv pushed flushed p wt r n p' wt' :
  thread_inv pushed flushed (buffer wt) wt → push_record p wt r n = (p', wt') →
  thread_inv (pushed ++ [(r, n)]) flushed (buffer wt') wt' ∧ recordsFiltered wt' = recordsFiltered wt
  ∧ stats_delta (stats p) (stats p') (recordsPushed wt' - recordsPushed wt) 0 0 (bytesPushed wt' - bytesPushed wt).
Proof.
  intros [Ho Hp Hb Hbt Hr Hw] Hpush. unfold push_record in Hpush.
  set (wt1 := set_buffer (buffer (count_push n wt) ++ [r]) (wrap_s 64 (bufferBytes (count_push n wt) + n)) (count_push n wt)) in Hpush.
  assert (Hdelta : stats_delta (stats p) (stats (set_stats (add_stats 1 0 0 n (stats p)) p)) (recordsPushed wt1 - recordsPushed wt) 0 0 (bytesPushed wt1 - bytesPushed wt)).
  { eapply delta_proper; [apply delta_add|..]; [|done..|]; cbn; rewrite atomic_add_cong; exists 0; lia. }
  assert (Hp1 : recordsPushed wt1 ≡₆₄ Z.of_nat (length (pushed ++ [(r, n)]))) by (cbn; rewrite atomic_add_cong, Hp, length_app; exists 0; cbn; lia).
  assert (Hb1 : bytesPushed wt1 ≡₆₄ sumZ (pushed ++ [(r, n)]).*2) by (cbn; rewrite atomic_add_cong, Hb, fmap_app, sumZ_app; exists 0; cbn; lia).
  destruct (full wt1) eqn:Ef; injection Hpush as <- <-; (split_and!; [|done|done]).
  - split; cbn; [| done..| | |done].
    + rewrite concat_app, fmap_app, <- Ho. cbn. by rewrite !app_nil_r, !app_assoc.
    + rewrite app_assoc. apply Forall_app. split; [done|]. constructor; [|constructor]. rewrite length_app. cbn. lia.
    + lia.
  - split; [| done..| |done].
    + cbn. rewrite fmap_app, <- Ho. by rewrite !app_assoc.
    + unfold full in Ef. apply orb_false_iff in Ef as [Ef%Z.leb_gt _]. cbn in *. lia.
Qed.

(** ** Invariant of a run *)
Definition counts (s : status) : bool := match s with SOpen | SCommitted | SPanicked => true | _ => false end.
Definition held (s : status) : Z := match s with SOpen | SAborted => 1 | _ => 0 end.

Definition read_of (e : entry) : Z := if counts (e_status e) then recordsPushed (e_thread e) else 0.
Definition filtered_of (e : entry) : Z := if counts (e_status e) then recordsFiltered (e_thread e) else 0.
Definition bytes_of_entry (e : entry) : Z := if counts (e_status e) then bytesPushed (e_thread e) else 0.

Definition entry_inv (e : entry) : Prop :=
  match e_status e with
  | SOpen | SAborted => thread_inv (e_pushed e) (e_flushed e) (buffer (e_thread e)) (e_thread e)
  | SCommitted => thread_inv (e_pushed e) (e_flushed e) [] (e_thread e) ∧ tasks (e_thread e) = [] ∧ groupErr (e_thread e) = None
  | _ => thread_inv (e_pushed e) (e_flushed e) [] (e_thread e)
  end.

Definition zero_stats : Stats := mkStats 0 0 0 0 0.

Record world_inv (w : world) : Prop := {
  wi_entries : Forall entry_inv (w_threads w);
  wi_stats : stats_delta zero_stats (stats (w_pool w)) (sumZ (read_of <$> w_threads w)) (sumZ (filtered_of <$> w_threads w))
               (sumZ ((λ e, held (e_status e)) <$> w_threads w) + w_lost w) (sumZ (bytes_of_entry <$> w_threads w))
}.

Lemma world_update w i e e' p :
  world_inv w → w_threads w !! i = Some e → entry_inv e' →
  stats_delta (stats (w_pool w)) (stats p) (read_of e' - read_of e) (filtered_of e' - filtered_of e)
    (held (e_status e') - held (e_status e)) (bytes_of_entry e' - bytes_of_entry e) →
  world_inv (mkWorld p (<[i := e']> (w_threads w)) (w_lost w)).
Proof.
  intros [He Hs] Hi He' Hd. split; cbn [w_threads w_pool w_lost]; [by apply Forall_insert|].
  rewrite !(sumZ_update _ _ _ e) by done.
  eapply delta_proper; [eapply delta_trans; [exact Hs|exact Hd]|..]; exists 0; lia.
Qed.

Lemma exec_new w stream options w' : world_inv w → exec w (EvNew stream options) = Some w' → world_inv w'.
Proof.
  intros [He Hs]. cbn [exec]. unfold NewWriter. cbn [set_stats artifacts pool_batchSize].
  set (st1 := add_stats 0 0 1 0 (stats (w_pool w))).
  assert (Hone : ∀ p, stats p = st1 → world_inv (mkWorld p (w_threads w) (w_lost w + 1))).
  { intros p Hp. split; [done|]. cbn [w_pool w_threads w_lost]. rewrite Hp.
    eapply delta_proper; [eapply delta_trans; [exact Hs|apply delta_add]|..]; exists 0; lia. }
  assert (Hnew : ∀ p wt, stats p = st1 → tasks wt = [] → buffer wt = [] → recordsPushed wt = 0 → recordsFiltered wt = 0 → bytesPushed wt = 0 →
            received (wt_writer wt) = [] → world_inv (mkWorld p (w_threads w ++ [mkEntryW wt [] [] SOpen]) (w_lost w))).
  { intros p wt Hp Ht Hb Hr Hf Hby Hrec. split; cbn [w_pool w_threads w_lost].
    - apply Forall_app. split; [done|]. constructor; [|constructor]. unfold entry_inv. cbn. rewrite Hb.
      split; rewrite ?Ht, ?Hr, ?Hf, ?Hby; cbn; [done..|lia|]. intros _. exists []. by rewrite Hrec.
    - rewrite !fmap_app, !sumZ_app. cbn. rewrite Hr, Hf, Hby, Hp.
      eapply delta_proper; [eapply delta_trans; [exact Hs|apply delta_add]|..]; exists 0; lia. }
  destruct (artifacts (w_pool w) !! ID stream) as [[[] schema]|]; cbn; [done| |intros [= <-]; by apply Hone].
  destruct (Setup _ _ _) as [[[s m] wr]|e|msg] eqn:Es; cbn; [|intros [= <-]; by apply Hone..].
  intros [= <-]. apply setup_empty in Es. apply Hnew; [|done..]. by destruct schema.
Qed.

Lemma delta_open pushed pushed' flushed flushed' p wt p' wt' :
  stats_delta (stats p) (stats p') (recordsPushed wt' - recordsPushed wt) (recordsFiltered wt' - recordsFiltered wt) 0 (bytesPushed wt' - bytesPushed wt) →
  let e := mkEntryW wt pushed flushed SOpen in
  let e' := mkEntryW wt' pushed' flushed' SOpen in
  stats_delta (stats p) (stats p') (read_of e' - read_of e) (filtered_of e' - filtered_of e) (held (e_status e') - held (e_status e)) (bytes_of_entry e' - bytes_of_entry e).
Proof. done. Qed.

Lemma thread_inv_counts pushed flushed rest wt flushed' rest' wt' :
  thread_inv pushed flushed rest wt → thread_inv pushed flushed' rest' wt' →
  recordsPushed wt' - recordsPushed wt ≡₆₄ 0 ∧ bytesPushed wt' - bytesPushed wt ≡₆₄ 0.
Proof. intros [_ Hp Hb _ _ _] [_ Hp' Hb' _ _ _]. split; [rewrite Hp, Hp'|rewrite Hb, Hb']; exists 0; lia. Qed.

Lemma exec_push w i done r n w' : world_inv w → exec w (EvPush i done r n) = Some w' → world_inv w'.
Proof.
  intros Hw. cbn [exec]. destruct (w_threads w !! i) as [[wt pushed flushed []]|] eqn:Ei; cbn [mbind option_bind e_status e_thread e_pushed e_flushed];
    [|done..]. assert (entry_inv (mkEntryW wt pushed flushed SOpen)) as Hinv by (destruct Hw as [Hf _]; rewrite Forall_lookup in Hf; eauto).
  change (thread_inv pushed flushed (buffer wt) wt) in Hinv.
  destruct (match tasks wt with [] | [_] => true | _ => false end) eqn:Et; [|by destruct (tasks wt) as [|? []]].
  intros Hx. assert (∃ p' wt' res, Push done (w_pool w) wt r n = Some (p', wt', res) ∧
    w' = mkWorld p' (<[i := match res with
            | Ok _ => mkEntryW wt' (pushed ++ [(r, n)]) flushed SOpen
            | _ => if done then mkEntryW wt' pushed flushed SOpen else mkEntryW wt' pushed (flushed ++ tasks wt) SOpen
            end]> (w_threads w)) (w_lost w)) as (p' & wt' & res & Hp & ->).
  { destruct (tasks wt) as [|? []]; [| |done]; (destruct (Push done (w_pool w) wt r n) as [[[p' wt'] res]|]; [|done]); injection Hx as <-; eauto. }
  clear Hx Et. unfold Push in Hp. destruct done; [|destruct (groupErr wt) eqn:Eg].
  - injection Hp as <- <- <-. eapply world_update; [done..|]. apply delta_open. rewrite !Z.sub_diag. apply delta_refl.
  - destruct (Block false (w_pool w) wt) as [[[p1 wt1] err]|] eqn:Eb; [|done]. injection Hp as <- <- <-.
    destruct (Block_inv _ _ _ _ _ _ _ _ _ Hinv Eb) as (Hinv' & _ & Hbuf & _ & _ & Hd). rewrite <- Hbuf in Hinv'.
    destruct (thread_inv_counts _ _ _ _ _ _ _ Hinv Hinv') as [Hc1 Hc2]. eapply world_update; [done..|].
    apply delta_open. eapply delta_proper; [exact Hd|by rewrite Hc1|done..|by rewrite Hc2].
  - destruct (push_record (w_pool w) wt r n) as [p1 wt1] eqn:Epr. injection Hp as <- <- <-.
    destruct (push_inv _ _ _ _ _ _ _ _ Hinv Epr) as (Hinv' & Hfil & Hd). eapply world_update; [done..|].
    apply delta_open. rewrite Hfil, Z.sub_diag. exact Hd.
Qed.

Lemma exec_task w i done w' : world_inv w → exec w (EvTask i done) = Some w' → world_inv w'.
Proof.
  intros Hw. cbn [exec]. destruct (w_threads w !! i) as [[wt pushed flushed []]|] eqn:Ei; cbn [mbind option_bind e_status e_thread e_pushed e_flushed];
    [|done..]. assert (entry_inv (mkEntryW wt pushed flushed SOpen)) as Hinv by (destruct Hw as [Hf _]; rewrite Forall_lookup in Hf; eauto).
  change (thread_inv pushed flushed (buffer wt) wt) in Hinv. destruct (tasks wt) as [|buf tl] eqn:Et; [done|].
  destruct (run_task done (w_pool w) wt) as [[p' wt']|] eqn:Er; [|done]. intros [= <-].
  destruct (run_task_inv _ _ _ _ _ _ _ _ _ _ Hinv Et Er) as (Hinv' & _ & Hbuf & _ & Hd). rewrite <- Hbuf in Hinv'.
  destruct (thread_inv_counts _ _ _ _ _ _ _ Hinv Hinv') as [Hc1 Hc2]. eapply world_update; [done..|].
  apply delta_open. eapply delta_proper; [exact Hd|by rewrite Hc1|done..|by rewrite Hc2].
Qed.

Lemma thread_inv_set_writer pushed flushed rest wt w done m r :
  CloseWriter done (wt_writer wt) m = (w, r) → thread_inv pushed flushed rest wt → thread_inv pushed flushed rest (set_writer w wt).
Proof.
  intros Hc [Ho Hp Hb Hbt Hr Hw]. apply close_keeps in Hc. split; [done..|]. cbn. intros He. destruct (Hw He) as (cs & ? & Hrec & ?).
  exists cs. by rewrite Hc.
Qed.

Lemma thread_inv_handover pushed flushed wt :
  thread_inv pushed flushed (buffer wt) wt → thread_inv pushed flushed [] (set_tasks (tasks wt ++ [buffer wt]) wt).
Proof.
  intros [Ho Hp Hb Hbt Hr Hw]. split; [|done..| | |done]; cbn.
  - rewrite concat_app. cbn. by rewrite !app_nil_r.
  - rewrite app_assoc. apply Forall_app. split; [done|]. constructor; [|constructor]. lia.
  - lia.
Qed.

Lemma rollback_delta p wt : stats_delta (stats p) (stats (rollbackStats p wt)) (- recordsPushed wt) (- recordsFiltered wt) 0 (- bytesPushed wt).
Proof. apply delta_add. Qed.

Definition committed_ok wt (r : result unit) : Prop := match r with Ok _ => groupErr wt = None | _ => True end.

(** A closed thread: what it pushed is handed over, and its counts stay exactly when it
    committed (or panicked). *)
Lemma close_commit_inv pushed flushed p wt err m p' wt' r :
  thread_inv pushed flushed [] wt → tasks wt = [] → err = groupErr wt →
  close_commit p wt (match err with Some _ => Some "failed to flush data while closing" | None => None end) m = Some (p', wt', r) →
  let k := if counts (close_status false r) then 0 else -1 in
  thread_inv pushed flushed [] wt' ∧ tasks wt' = [] ∧ committed_ok wt' r ∧ recordsFiltered wt' = recordsFiltered wt
  ∧ stats_delta (stats p) (stats p') (k * recordsPushed wt) (k * recordsFiltered wt) (-1) (k * bytesPushed wt).
Proof.
  intros Hinv Ht He. unfold close_commit. destruct (artifacts p !! streamID wt) as [[[] schema]|]; [done| |done].
  destruct (CloseWriter _ (wt_writer wt) m) as [w rc] eqn:Ec. pose proof (thread_inv_set_writer _ _ _ _ _ _ _ _ Ec Hinv) as Hinv'.
  assert (Hkeep : stats_delta (stats p) (stats (set_stats (add_stats 0 0 (-1) 0 (stats p)) p)) (0 * recordsPushed wt) (0 * recordsFiltered wt) (-1) (0 * bytesPushed wt))
    by apply delta_add.
  assert (Hroll : ∀ q, q = rollbackStats p (set_writer w wt) → stats_delta (stats p) (stats (set_stats (add_stats 0 0 (-1) 0 (stats q)) q)) (-1 * recordsPushed wt) (-1 * recordsFiltered wt) (-1) (-1 * bytesPushed wt)).
  { intros q ->. eapply delta_proper; [eapply delta_trans; [apply rollback_delta|apply delta_add]|..]; exists 0; cbn; lia. }
  destruct rc as [u|e|msg]; destruct err as [e'|]; cbn [is_err]; intros [= <- <- <-]; cbn [close_status counts committed_ok];
    (split_and!; [exact Hinv'|exact Ht| |reflexivity|]);
    first [exact I|exact (eq_sym He)|exact Hkeep|exact (Hroll _ eq_refl)].
Qed.

Lemma exec_close w i done m w' : world_inv w → exec w (EvClose i done m) = Some w' → world_inv w'.
Proof.
  intros Hw. cbn [exec]. destruct (w_threads w !! i) as [[wt pushed flushed []]|] eqn:Ei; cbn [mbind option_bind e_status e_thread e_pushed e_flushed];
    [|done..]. assert (entry_inv (mkEntryW wt pushed flushed SOpen)) as Hinv by (destruct Hw as [Hf _]; rewrite Forall_lookup in Hf; eauto).
  change (thread_inv pushed flushed (buffer wt) wt) in Hinv.
  destruct (Close done (w_pool w) wt m) as [[[p' wt'] r]|] eqn:Ec; [|done]. intros [= <-]. unfold Close in Ec. destruct done.
  - unfold close_aborted in Ec. destruct (Block true (w_pool w) wt) as [[[p1 wt1] err]|] eqn:Eb; [|done].
    destruct (Block_inv _ _ _ _ _ _ _ _ _ Hinv Eb) as (Hinv1 & Ht1 & Hbuf & _ & _ & Hd). rewrite <- Hbuf in Hinv1.
    destruct (thread_inv_counts _ _ _ _ _ _ _ Hinv Hinv1) as [Hc1 Hc2].
    destruct (CloseWriter true (wt_writer wt1) m) as [wr rc] eqn:Ecw. injection Ec as <- <- <-. eapply world_update; [done..| |].
    + unfold entry_inv. cbn. rewrite app_nil_r. by eapply thread_inv_set_writer.
    + unfold read_of, filtered_of, bytes_of_entry. cbn [e_status counts held close_status e_thread].
      eapply delta_proper; [eapply delta_trans; [exact Hd|apply rollback_delta]|..]; [| | |].
      * transitivity (0 - (recordsPushed wt1 - recordsPushed wt) - recordsPushed wt); [exists 0; lia|]. rewrite Hc1. exists 0. lia.
      * exists 0. lia.
      * exists 0. lia.
      * transitivity (0 - (bytesPushed wt1 - bytesPushed wt) - bytesPushed wt); [exists 0; lia|]. rewrite Hc2. exists 0. lia.
  - destruct (Block false (w_pool w) (set_tasks (tasks wt ++ [buffer wt]) wt)) as [[[p1 wt1] err]|] eqn:Eb; [|done].
    destruct (Block_inv _ _ _ _ _ _ _ _ _ (thread_inv_handover _ _ _ Hinv) Eb) as (Hinv1 & Ht1 & _ & _ & Herr & Hd).
    cbn [tasks set_tasks recordsFiltered] in Hinv1, Hd. destruct (thread_inv_counts _ _ _ _ _ _ _ Hinv Hinv1) as [Hc1 Hc2].
    destruct (close_commit_inv _ _ _ _ _ _ _ _ _ Hinv1 Ht1 Herr Ec) as (Hinv2 & Ht2 & Hok & Hfil & Hd2).
    destruct (thread_inv_counts _ _ _ _ _ _ _ Hinv Hinv2) as [Hc3 Hc4]. eapply world_update; [done..| |].
    + unfold entry_inv. cbn. destruct r; cbn; done.
    + pose proof (delta_trans _ _ _ _ _ _ _ _ _ _ _ Hd Hd2) as Hdd.
      unfold read_of, filtered_of, bytes_of_entry. cbn [e_status e_thread].
      destruct r as [u|e|msg]; cbn [close_status counts held] in *; (eapply delta_proper; [exact Hdd|..]);
        rewrite ?Hfil, ?Hc3, ?Hc4; try (exists 0; lia).
      * transitivity (0 - (recordsPushed wt1 - recordsPushed wt) - recordsPushed wt); [exists 0; lia|]. rewrite Hc1. exists 0. lia.
      * transitivity (0 - (bytesPushed wt1 - bytesPushed wt) - bytesPushed wt); [exists 0; lia|]. rewrite Hc2. exists 0. lia.
Qed.

Lemma run_inv w evs w' : world_inv w → run w evs = Some w' → world_inv w'.
Proof.
  revert w. induction evs as [|ev evs IH]; intros w Hw; cbn [run]; [by intros [= <-]|].
  destruct (exec w ev) as [w1|] eqn:E; [|done]. apply IH.
  destruct ev; eauto using exec_new, exec_push, exec_task, exec_close.
Qed.

Lemma start_inv p : stats p = zero_stats → world_inv (mkWorld p [] 0).
Proof. intros Hp. split; [constructor|]. cbn. rewrite Hp. apply delta_refl. Qed.

(** ** What reaches the destination *)

(** C19: a committed writer thread delivers everything that was pushed.  In every
    interleaving of the threads of a pool, when a thread's close commits, the records its
    writer received are, in push order, the cleaned batches of a partition of exactly the
    pushed records into batches of at most the batch size; no flush failed. *)
Theorem committed_thread_delivers p evs w i e :
  stats p = zero_stats → run (mkWorld p [] 0) evs = Some w → w_threads w !! i = Some e → e_status e = SCommitted →
  ∃ raws cs, concat raws = (e_pushed e).*1 ∧ Forall2 cleaned_as raws cs ∧ received (wt_writer (e_thread e)) = concat cs
  ∧ Forall (λ b, Z.of_nat (length b) ≤ Z.max 1 (batchSize (e_thread e))) raws
  ∧ groupErr (e_thread e) = None ∧ tasks (e_thread e) = [].
Proof.
  intros Hp Hrun Hi Hs. destruct (run_inv _ _ _ (start_inv p Hp) Hrun) as [He _]. rewrite Forall_lookup in He. specialize (He i e Hi).
  unfold entry_inv in He. rewrite Hs in He. destruct He as ([Ho _ _ Hb _ Hw] & Ht & Hg). destruct (Hw Hg) as (cs & Hcs & Hrec & _).
  rewrite Ht in *. cbn in Ho. rewrite !app_nil_r in *. by exists (e_flushed e), cs.
Qed.

Lemma cong_sum {A} (f g : A → Z) l : (∀ x, x ∈ l → f x ≡₆₄ g x) → sumZ (f <$> l) ≡₆₄ sumZ (g <$> l).
Proof.
  induction l as [|x l IH]; intros Hl; [done|]. rewrite !fmap_cons, !sumZ_cons. rewrite (Hl x) by left. rewrite IH; [done|].
  intros y Hy. apply Hl. by right.
Qed.

Definition is_committed (e : entry) : bool := match e_status e with SCommitted => true | _ => false end.
Definition sum_over (q : entry → bool) (f : entry → Z) (l : list entry) : Z := sumZ ((λ e, if q e then f e else 0) <$> l).

Definition rows_read (e : entry) : Z := Z.of_nat (length (e_pushed e)).
Definition rows_received (e : entry) : Z := Z.of_nat (length (received (wt_writer (e_thread e)))).
Definition bytes_read (e : entry) : Z := sumZ (e_pushed e).*2.
Definition closed (e : entry) : Prop := e_status e ≠ SOpen ∧ e_status e ≠ SPanicked.

Lemma entry_counts e : entry_inv e → recordsPushed (e_thread e) ≡₆₄ rows_read e ∧ bytesPushed (e_thread e) ≡₆₄ bytes_read e.
Proof. unfold entry_inv. destruct (e_status e); [|intros [Hi _]; revert Hi|..]; by intros []. Qed.

Lemma cleaned_shrinks raws cs : Forall2 cleaned_as raws cs → (length (concat cs) ≤ length (concat raws))%nat.
Proof.
  induction 1 as [|r c raws cs Hc _ IH]; [done|]. cbn. rewrite !length_app.
  destruct Hc as [[-> ->]|Hc]; [done|]. apply cleans_shrinks in Hc. lia.
Qed.

Lemma committed_counts e : entry_inv e → is_committed e = true →
  recordsFiltered (e_thread e) ≡₆₄ rows_read e - rows_received e ∧ rows_received e ≤ rows_read e.
Proof.
  unfold entry_inv, is_committed, rows_read, rows_received. destruct (e_status e); try done. intros ([Ho _ _ _ _ Hw] & Ht & Hg) _.
  destruct (Hw Hg) as (cs & Hcs & -> & Hf). rewrite Ht in Ho. cbn in Ho. rewrite !app_nil_r in Ho. apply cleaned_shrinks in Hcs.
  rewrite Ho, length_fmap in *. split; [done|lia].
Qed.

Lemma sum_over_le q f g l : (∀ e, e ∈ l → q e = true → 0 ≤ f e ≤ g e) → 0 ≤ sum_over q f l ≤ sum_over q g l.
Proof.
  unfold sum_over. induction l as [|e l IH]; intros Hl; [done|]. rewrite !fmap_cons, !sumZ_cons.
  assert (0 ≤ sumZ ((λ e, if q e then f e else 0) <$> l) ≤ sumZ ((λ e, if q e then g e else 0) <$> l)) by (apply IH; intros; apply Hl; [by right|done]).
  destruct (q e) eqn:E; [|lia]. specialize (Hl e ltac:(left) E). lia.
Qed.

Lemma sum_over_sub q f g l : sum_over q (λ e, f e - g e) l = sum_over q f l - sum_over q g l.
Proof. unfold sum_over. induction l as [|e l IH]; [done|]. rewrite !fmap_cons, !sumZ_cons, IH. destruct (q e); lia. Qed.

Lemma normal_cong st f z : normal st → f ∈ [ReadCount; RecordsFiltered; ThreadCount; BytesRead] → f st ≡₆₄ z → f st = wrap_s 64 z.
Proof. intros Hn Hf Hz. rewrite <- (Hn f Hf). by apply cong_wrap. Qed.

Lemma sum_over_cong q f g l : (∀ e, e ∈ l → q e = true → f e ≡₆₄ g e) → sum_over q f l ≡₆₄ sum_over q g l.
Proof. intros Hl. apply cong_sum. intros e He. destruct (q e) eqn:E; [by apply Hl|done]. Qed.

Lemma sum_over_closed f l : Forall closed l → sum_over (λ e, counts (e_status e)) f l = sum_over is_committed f l.
Proof.
  unfold sum_over. induction 1 as [|e l He _ IH]; [done|]. rewrite !fmap_cons, !sumZ_cons, IH. f_equal. unfold is_committed.
  destruct He as [H1 H2]. by destruct (e_status e).
Qed.

(** C22: what the sync statistics count.  At any point of any interleaving, the records and
    bytes read are those pushed by the threads that are still open, have committed or have
    panicked (modulo 2^64): a failed, retried or aborted thread has taken its contribution
    back.  Once all threads are closed and none panicked, they are those of the committed
    threads, and the reported number of records is the number of rows received by the
    committed writers.  The thread count is that of the open threads plus every aborted
    thread and every writer that could not be set up, which are never taken off. *)
Theorem stats_count_committed p evs w :
  stats p = zero_stats → run (mkWorld p [] 0) evs = Some w →
  let st := stats (w_pool w) in
  ReadCount st = wrap_s 64 (sum_over (λ e, counts (e_status e)) rows_read (w_threads w))
  ∧ BytesRead st = wrap_s 64 (sum_over (λ e, counts (e_status e)) bytes_read (w_threads w))
  ∧ ThreadCount st = wrap_s 64 (sumZ ((λ e, held (e_status e)) <$> w_threads w) + w_lost w)
  ∧ (Forall closed (w_threads w) →
       ReadCount st = wrap_s 64 (sum_over is_committed rows_read (w_threads w))
       ∧ BytesRead st = wrap_s 64 (sum_over is_committed bytes_read (w_threads w))
       ∧ (sum_over is_committed rows_read (w_threads w) < 2 ^ 63 →
            readRecordsCount st = sum_over is_committed rows_received (w_threads w))).
Proof.
  intros Hp Hrun st. destruct (run_inv _ _ _ (start_inv p Hp) Hrun) as [He [Hr Hf Ht Hb Hn]]. fold st in Hr, Hf, Ht, Hb, Hn.
  assert (normal st) as Hnorm by (apply Hn; intros f; rewrite !elem_of_cons, elem_of_nil; by intros [->|[->|[->|[->|[]]]]]).
  rewrite Forall_forall in He. cbn [zero_stats ReadCount RecordsFiltered ThreadCount BytesRead] in Hr, Hf, Ht, Hb. rewrite Z.add_0_l in Hr, Hf, Ht, Hb.
  assert (Hread : ReadCount st = wrap_s 64 (sum_over (λ e, counts (e_status e)) rows_read (w_threads w))).
  { apply normal_cong; [done|left|]. rewrite Hr. apply sum_over_cong. intros e Hin _. by apply entry_counts, He. }
  assert (Hbytes : BytesRead st = wrap_s 64 (sum_over (λ e, counts (e_status e)) bytes_read (w_threads w))).
  { apply normal_cong; [done|right; right; right; left|]. rewrite Hb. apply sum_over_cong. intros e Hin _. by apply entry_counts, He. }
  split_and!; [done|done|apply normal_cong; [done|right; right; left|done]|]. intros Hcl.
  rewrite !sum_over_closed in Hread, Hbytes by done. split_and!; [done..|]. intros Hlt.
  assert (Hfil : RecordsFiltered st = wrap_s 64 (sum_over is_committed (λ e, rows_read e - rows_received e) (w_threads w))).
  { apply normal_cong; [done|right; left|]. rewrite Hf. change (sumZ (filtered_of <$> w_threads w)) with (sum_over (λ e, counts (e_status e)) (λ e, recordsFiltered (e_thread e)) (w_threads w)).
    rewrite sum_over_closed by done. apply sum_over_cong. intros e Hin Hc. apply committed_counts; [by apply He|done]. }
  assert (0 ≤ sum_over is_committed rows_received (w_threads w) ≤ sum_over is_committed rows_read (w_threads w)) as Hle.
  { apply sum_over_le. intros e Hin Hc. destruct (committed_counts e (He e Hin) Hc) as [_ Hshrink]. split; [apply Nat2Z.is_nonneg|exact Hshrink]. }
  rewrite sum_over_sub in Hfil. unfold readRecordsCount. rewrite Hread, Hfil.
  set (a := sum_over is_committed rows_read (w_threads w)) in *. set (b := sum_over is_committed rows_received (w_threads w)) in *.
  rewrite (wrap_s_id 64 a), (wrap_s_id 64 (a - b)), (wrap_s_id 64 (a - (a - b))) by (cbn; lia). lia.
Qed.

(** A panic while evolving the schema leaves the stream's mutex locked: every later close
    of a thread of that stream waits for ever. *)
Lemma evolve_panic_deadlocks done p wt buf w ev cleaned s schema w2 m p' wt' err :
  FlattenAndCleanData done (wt_writer wt) buf = (w, Ok (true, cleaned, s)) → buf ≠ [] →
  artifacts p !! streamID wt = Some (mkArtifact false schema) → EvolveSchema done w schema s = (w2, Panic m) →
  flush done p wt buf = Some (p', wt', err) → close_commit p' wt' ev None = None.
Proof.
  intros Hf Hne Ha Hev Hfl. unfold flush in Hfl. destruct buf as [|x buf]; [done|]. rewrite Hf in Hfl.
  cbn [set_writer count_filtered set_stats artifacts streamID wt_writer] in Hfl. rewrite Ha, Hev in Hfl.
  injection Hfl as <- <- <-. unfold close_commit. cbn [set_artifact artifacts streamID set_writer count_filtered]. by rewrite lookup_insert_eq.
Qed.
End Facts.

(** ** Witnesses: a destination that stores what it is given and drops empty records *)
Section Witnesses.
Definition nonempty (r : RawRecord) : bool := negb (bool_decide (Data r = ∅)).
#[local] Instance list_writer : Writer := {|
  writer := list RawRecord; wschema := unit;
  Setup _ _ _ := Ok (Some tt, None, []);
  FlattenAndCleanData _ w buf := (w, Ok (false, filter (λ r, nonempty r = true) buf, None));
  EvolveSchema _ w _ _ := (w, Ok None);
  WriteRecords _ w buf := (w ++ buf, Ok tt);
  CloseWriter done w _ := (w, if done then Err "context canceled" else Ok tt) |}.

#[local] Program Instance list_writer_spec : WriterSpec := {|
  received w := w; cleans raw cleaned := cleaned = filter (λ r, nonempty r = true) raw |}.
Solve All Obligations with (cbn; intros; simplify_eq; try done).
Next Obligation. cbn. intros raw cleaned ->. apply length_filter. Qed.

Definition row (n : Z) : RawRecord := mkRaw {["id" := AInt KInt64 n]} ∅.
Definition blank : RawRecord := mkRaw ∅ ∅.
Definition users_stream : ConfiguredStream :=
  mkConfigured (mkMetadata "" "" "users" false true "" false "" None None None)
    (mkStream "users" "public" ∅ (mkGoSet ∅ ∅ None) [] (mkGoSet ∅ ∅ None) (mkGoSet ∅ ∅ None) "" "" "cdc" "" "" None).
Definition start_pool : WriterPool := mkPool zero_stats {["public.users" := mkArtifact false None]} 2.

(** Two threads: one commits three rows (one dropped) in two batches, one is aborted. *)
Definition two_threads : list event :=
  [EvNew users_stream [WithThreadID "a"]; EvNew users_stream [WithThreadID "b"]; EvPush 0 false (row 1) 10; EvPush 1 false (row 7) 5;
   EvPush 0 false blank 10; EvTask 0 false; EvPush 0 false (row 2) 10; EvClose 1 true None; EvClose 0 false None].

Lemma list_cleaned raws cs : Forall2 cleaned_as raws cs → concat cs = filter (λ r, nonempty r = true) (concat raws).
Proof.
  induction 1 as [|r c rs cs' Hc _ IH]; [done|]. cbn [concat]. rewrite filter_app, IH. f_equal. by destruct Hc as [[-> ->]| ->].
Qed.

Lemma committed_thread_delivers_witness :
  match run (mkWorld start_pool [] 0) two_threads with
  | Some w => match w_threads w with
              | e :: _ => e_status e = SCommitted ∧ received (wt_writer (e_thread e)) = [row 1; row 2]
              | [] => False
              end
  | None => False
  end.
Proof.
  assert ((λ w, (λ e, (is_committed e, (e_pushed e).*1)) <$> w_threads w) <$> run (mkWorld start_pool [] 0) two_threads
          = Some [(true, [row 1; blank; row 2]); (false, [row 7])]) as Hview by (vm_compute; reflexivity).
  destruct (run (mkWorld start_pool [] 0) two_threads) as [w|] eqn:Er; [|discriminate]. cbn in Hview. injection Hview as Hview.
  destruct (w_threads w) as [|e l] eqn:El; [discriminate|]. cbn in Hview. injection Hview as Hc Hp _.
  assert (e_status e = SCommitted) as Hs by (clear -Hc; unfold is_committed in Hc; by destruct (e_status e)). split; [exact Hs|].
  destruct (committed_thread_delivers start_pool two_threads w 0 e eq_refl Er) as (raws & cs & Hraw & Hcs & -> & _); [by rewrite El|done|].
  rewrite (list_cleaned _ _ Hcs), Hraw, Hp. vm_compute. reflexivity.
Defined.

Definition totals (w : world) : Z * Z * Z * Z * bool :=
  (sum_over (λ e, counts (e_status e)) rows_read (w_threads w), sum_over is_committed rows_read (w_threads w),
   sum_over is_committed rows_received (w_threads w), sumZ ((λ e, held (e_status e)) <$> w_threads w) + w_lost w,
   forallb (λ e, match e_status e with SOpen | SPanicked => false | _ => true end) (w_threads w)).

Lemma stats_count_committed_witness :
  match run (mkWorld start_pool [] 0) two_threads with
  | Some w => readRecordsCount (stats (w_pool w)) = 2 ∧ ReadCount (stats (w_pool w)) = 3 ∧ ThreadCount (stats (w_pool w)) = 1
  | None => False
  end.
Proof.
  assert (totals <$> run (mkWorld start_pool [] 0) two_threads = Some (3, 3, 2, 1, true)) as Hview by (vm_compute; reflexivity).
  destruct (run (mkWorld start_pool [] 0) two_threads) as [w|] eqn:Er; [|discriminate].
  cbn [fmap option_fmap option_map] in Hview. apply (inj Some) in Hview. unfold totals in Hview.
  apply pair_equal_spec in Hview as [Hview Hcl]. apply pair_equal_spec in Hview as [Hview Hheld].
  apply pair_equal_spec in Hview as [Hview Hrec]. apply pair_equal_spec in Hview as [Hlive Hread].
  destruct (stats_count_committed start_pool two_threads w eq_refl Er) as (Hr & _ & Ht & Hclosed).
  rewrite Hlive in Hr. rewrite Hheld in Ht. split_and!; [|exact Hr|exact Ht].
  destruct Hclosed as (_ & _ & Hrows); [|rewrite Hread, Hrec in Hrows; by apply Hrows].
  rewrite forallb_forall in Hcl. apply Forall_forall. intros e He. apply list_elem_of_In, Hcl in He. clear -He.
  unfold closed. by destruct (e_status e).
Defined.
End Witnesses.
