(* ===== verification/Utils.v ===== *)
(** * utils/utils.go: record identity (GetKeysHash) and retry loops *)

From S2P Require Import Prelude GoString GoSet DataTypes Value ValueFacts Schema TwoPC.
From stdpp Require Import sorting.
#[local] Open Scope Z_scope.

(** ** Record identity

    [md5_hex] is the hexadecimal MD5 digest.  [GetKeysHash] and [GetHash] call each
    other; the fuel bounds the calls, and [None] means it ran out. *)
Section Hash.
Context `{GoEnv} `{GoRange} (md5_hex : string → string).
Implicit Types (m : gmap string any) (keys : list string).

(** A missing key reads as nil. *)
Definition value_at m (k : string) : any := default ANil (m !! k).

Fixpoint GetKeysHash (fuel : nat) m keys : option string :=
  match fuel with
  | O => None
  | S fuel =>
      match keys with
      | [] => GetKeysHash fuel m (range m).*1
      | [k] => match m !! k with
               | Some v => Some (fmt_v v)
               | None => Some (md5_hex (fmt_v (value_at m k) +:+ "|"))
               end
      | _ => Some (md5_hex (foldl (λ str k, str +:+ fmt_v (value_at m k) +:+ "|") "" (merge_sort string_le keys)))
      end
  end.

Definition GetHash (fuel : nat) m : option string := GetKeysHash fuel m (range m).*1.

(** *** Sorting makes the id independent of the order of the keys *)
Lemma string_leb_total a b : string_le a b ∨ string_le b a.
Proof. unfold string_le, string_leb. rewrite (string_compare_anti a b). destruct (String.compare a b); simpl; auto. Qed.

#[local] Instance string_le_trans : Transitive string_le.
Proof.
  intros a b c. unfold string_le, string_leb. pose proof (string_compare_trans a b c) as Ht.
  destruct (String.compare a b), (String.compare b c), (String.compare a c); try done; intros; exfalso; by apply Ht.
Qed.
#[local] Instance string_le_antisym : AntiSymm (=) string_le.
Proof.
  intros a b. unfold string_le, string_leb. rewrite (string_compare_anti a b).
  destruct (String.compare a b) eqn:E; simpl; try done. intros _ _. by apply string_compare_eq.
Qed.
#[local] Instance string_le_totalR : Total string_le.
Proof. intros a b. apply string_leb_total. Qed.

Lemma sort_perm keys keys' : keys ≡ₚ keys' → merge_sort string_le keys = merge_sort string_le keys'.
Proof.
  intros Hp. apply (StronglySorted_unique string_le); [apply (StronglySorted_merge_sort _)..|].
  by rewrite !merge_sort_Permutation.
Qed.

Lemma foldl_values_ext m m' l str :
  (∀ k, k ∈ l → value_at m k = value_at m' k) →
  foldl (λ str k, str +:+ fmt_v (value_at m k) +:+ "|") str l = foldl (λ str k, str +:+ fmt_v (value_at m' k) +:+ "|") str l.
Proof.
  revert str. induction l as [|k l IH]; intros str Hl; [done|]. cbn [foldl]. rewrite (Hl k) by left. apply IH. intros j Hj. apply Hl. by right.
Qed.

(** Two fuels suffice as soon as there is a key or a column. *)
Lemma GetKeysHash_defined m keys fuel :
  (keys ≠ [] ∨ m ≠ ∅) → (2 ≤ fuel)%nat → ∃ id, GetKeysHash fuel m keys = Some id ∧ GetKeysHash 2 m keys = Some id.
Proof.
  intros Hne Hfuel. destruct fuel as [|[|fuel]]; [lia..|].
  assert (Hone : ∀ n keys, keys ≠ [] → ∃ id, GetKeysHash (S n) m keys = Some id ∧ ∀ n', GetKeysHash (S n') m keys = Some id).
  { intros n [|k [|k' l]] Hk; [done|cbn; destruct (m !! k); eauto|cbn; eauto]. }
  destruct keys as [|k l]; [|destruct (Hone (S fuel) (k :: l)) as (id & -> & Hid); [done|]; eauto].
  destruct Hne as [?|Hm]; [done|]. cbn [GetKeysHash]. change (∃ id, GetKeysHash (S fuel) m (range m).*1 = Some id ∧ GetKeysHash 1 m (range m).*1 = Some id).
  destruct (Hone fuel (range m).*1) as (id & -> & Hid); [|eauto].
  intros Hr. apply fmap_nil_inv in Hr. apply Hm. apply map_empty. intros i. apply eq_None_not_Some. intros [v Hv%elem_of_range].
  rewrite Hr in Hv. by apply elem_of_nil in Hv.
Qed.

Lemma GetKeysHash_diverges fuel : GetKeysHash fuel ∅ [] = None.
Proof.
  induction fuel as [|fuel IH]; [done|]. cbn [GetKeysHash]. assert ((range (∅ : gmap string any)).*1 = []) as ->; [|done].
  assert (range (∅ : gmap string any) ≡ₚ []) as ->%Permutation_nil_r by (rewrite range_perm; by rewrite map_to_list_empty). done.
Qed.

Lemma GetKeysHash_perm fuel m keys keys' : keys ≡ₚ keys' → GetKeysHash fuel m keys = GetKeysHash fuel m keys'.
Proof.
  intros Hp. destruct fuel as [|fuel]; [done|]. destruct keys as [|k [|k2 l]].
  - by apply Permutation_nil_l in Hp as ->.
  - by apply Permutation_singleton_l in Hp as ->.
  - destruct keys' as [|j [|j2 l']]; [by apply Permutation_nil_r in Hp|by apply Permutation_singleton_r in Hp|].
    cbn [GetKeysHash]. by rewrite (sort_perm _ _ Hp).
Qed.

End Hash.

Section Identity.
Context `{GoEnv} (md5_hex : string → string).

Lemma range_perm_keys (r1 r2 : GoRange) (m : gmap string any) : (@range r1 _ m).*1 ≡ₚ (@range r2 _ m).*1.
Proof. apply fmap_Permutation. by rewrite (@range_perm r1), (@range_perm r2). Qed.

Lemma GetKeysHash_range (r1 r2 : GoRange) fuel m keys :
  @GetKeysHash _ r1 md5_hex fuel m keys = @GetKeysHash _ r2 md5_hex fuel m keys.
Proof.
  revert keys. induction fuel as [|fuel IH]; intros keys; [done|]. destruct keys as [|k [|k2 l]]; [|done..].
  cbn [GetKeysHash]. rewrite IH. apply GetKeysHash_perm, range_perm_keys.
Qed.

Lemma GetKeysHash_ext `{GoRange} fuel m m' keys :
  keys ≠ [] → (∀ k, k ∈ keys → m !! k = m' !! k) → GetKeysHash md5_hex fuel m keys = GetKeysHash md5_hex fuel m' keys.
Proof.
  intros Hne Hk. destruct fuel as [|fuel]; [done|]. destruct keys as [|k [|k2 l]]; [done| |]; cbn [GetKeysHash]; unfold value_at.
  - by rewrite (Hk k) by left.
  - do 2 f_equal. apply foldl_values_ext. intros j Hj. unfold value_at. rewrite Hk; [done|].
    by rewrite merge_sort_Permutation in Hj.
Qed.

(** C24: a record keeps its identity.  The id of a record depends only on the values of
    its key columns (on all columns when the stream has no key), not on the order in
    which the keys or the columns are enumerated, and it is computed as soon as there is
    a key or a column; for an empty record of a stream without keys the two functions
    call each other for ever. *)
Theorem record_id_stable (r1 r2 : GoRange) fuel (m m' : gmap string any) keys keys' :
  (keys ≠ [] ∨ m ≠ ∅) → keys ≡ₚ keys' → (∀ k, k ∈ keys ∨ keys = [] → m !! k = m' !! k) → (2 ≤ fuel)%nat →
  (∃ id, @GetKeysHash _ r1 md5_hex fuel m keys = Some id ∧ @GetKeysHash _ r2 md5_hex fuel m' keys' = Some id)
  ∧ ∀ n, @GetKeysHash _ r1 md5_hex n ∅ [] = None.
Proof.
  intros Hne Hp Hk Hf. split; [|apply GetKeysHash_diverges].
  destruct (@GetKeysHash_defined _ r1 md5_hex m keys fuel Hne Hf) as (id & Hid & _). exists id. split; [done|]. rewrite <- Hid.
  rewrite (GetKeysHash_range r2 r1). rewrite <- (@GetKeysHash_perm _ r1 md5_hex fuel m' keys keys' Hp).
  destruct keys as [|k l]; [|symmetry; apply GetKeysHash_ext; [done|auto]].
  assert (m = m') as -> by (apply map_eq; auto). done.
Qed.
End Identity.

(** ** Retry loops

    [f] passes the state of the caller and returns an error or none; [ctx] is the error of
    the context, if it is done.  The waiting times are not modelled. *)
Section Retry.
Context {S : Type} (ctx : S → option string) (f : S → S * option string).

Definition ErrNonRetryable : string := "failed with non retryable error".

Fixpoint retry_loop (retryable : string → bool) (attempts : nat) (s : S) : S * option string :=
  match attempts with
  | O => (s, None)
  | Datatypes.S rest =>
      match ctx s with
      | Some e => (s, Some e)
      | None =>
          let '(s', err) := f s in
          match err with
          | None => (s', None)
          | Some e =>
              if negb (retryable e) then (s', Some e)
              else match rest with O => (s', Some e) | _ => retry_loop retryable rest s' end
          end
      end
  end.

Definition RetryOnBackoff (attempts : Z) (s : S) : S * option string :=
  retry_loop (λ e, negb (StrContains e ErrNonRetryable)) (Z.to_nat (attempts + 1)) s.

Definition RetryWithSkip (maxRetries : Z) (shouldRetry : option (string → bool)) (s : S) : S * option string :=
  retry_loop (default (λ _, true) shouldRetry) (Z.to_nat (maxRetries + 1)) s.

Fixpoint after (k : nat) (s : S) : S := match k with O => s | Datatypes.S k => after k (f s).1 end.

(** The last of [k] calls, and why the loop stopped there. *)
Definition stops (retryable : string → bool) (n k : nat) (s : S) (err : option string) : Prop :=
  (∃ j, k = Datatypes.S j ∧ err = (f (after j s)).2
        ∧ (k = n ∨ match err with None => True | Some e => retryable e = false end))
  ∨ (∃ e, (k < n)%nat ∧ ctx (after k s) = Some e ∧ err = Some e).

Lemma retry_loop_spec retryable n s :
  n ≠ O →
  ∃ k err, retry_loop retryable n s = (after k s, err) ∧ (k ≤ n)%nat
  ∧ (∀ j, (j < k)%nat → ctx (after j s) = None)
  ∧ (∀ j, (Datatypes.S j < k)%nat → ∃ e, (f (after j s)).2 = Some e ∧ retryable e = true)
  ∧ stops retryable n k s err.
Proof.
  revert s. induction n as [|n IH]; intros s Hn; [done|]. cbn [retry_loop].
  destruct (ctx s) as [e|] eqn:Ec.
  { exists O, (Some e). split_and!; [done|lia|lia|lia|]. right. exists e. split_and!; [lia|done..]. }
  destruct (f s) as [s' err] eqn:Ef.
  assert (Hone : ∀ err', err = err' → (1%nat = Datatypes.S n ∨ match err with None => True | Some e => retryable e = false end) →
     ∃ k err'', (s', err') = (after k s, err'') ∧ (k ≤ Datatypes.S n)%nat ∧ (∀ j, (j < k)%nat → ctx (after j s) = None)
     ∧ (∀ j, (Datatypes.S j < k)%nat → ∃ e, (f (after j s)).2 = Some e ∧ retryable e = true) ∧ stops retryable (Datatypes.S n) k s err'').
  { intros err' <- Hst. exists 1%nat, err. cbn [after]. rewrite Ef. split_and!; [done|lia|intros [|j]; [done|lia]|lia|].
    left. exists O. cbn [after]. by rewrite Ef. }
  destruct err as [e|]; [|by apply Hone; [|right]].
  destruct (retryable e) eqn:Er; cbn [negb]; [|apply Hone; [done|by right]].
  destruct n as [|n]; [apply Hone; [done|by left]|].
  destruct (IH s') as (k & err & -> & Hk & Hctx & Hret & Hst); [done|]. exists (Datatypes.S k), err. cbn [after]. rewrite Ef. split_and!.
  - done.
  - lia.
  - intros [|j] Hj; cbn [after]; [done|]. rewrite Ef. apply Hctx. lia.
  - intros [|j] Hj; cbn [after]; rewrite Ef; [by exists e|]. apply Hret. lia.
  - destruct Hst as [(j & -> & Hj & Hwhy)|(e' & Hlt & Hc & ->)]; [left|right].
    + exists (Datatypes.S j). cbn [after]. rewrite Ef. split_and!; [done..|]. destruct Hwhy as [->|?]; [by left|by right].
    + exists e'. cbn [after]. rewrite Ef. split_and!; [lia|done..].
Qed.

(** The outcome of a retry loop after [k] calls. *)
Definition retries (retryable : string → bool) (attempts : Z) (s : S) (out : S * option string) : Prop :=
  ∃ k err, out = (after k s, err) ∧ (Z.of_nat k ≤ attempts + 1)%Z
  ∧ (∀ j, (j < k)%nat → ctx (after j s) = None)
  ∧ (∀ j, (Datatypes.S j < k)%nat → ∃ e, (f (after j s)).2 = Some e ∧ retryable e = true)
  ∧ stops retryable (Z.to_nat (attempts + 1)) k s err.

Lemma retry_loop_retries retryable attempts s :
  (0 ≤ attempts)%Z → retries retryable attempts s (retry_loop retryable (Z.to_nat (attempts + 1)) s).
Proof.
  intros Ha. destruct (retry_loop_spec retryable (Z.to_nat (attempts + 1)) s) as (k & err & ? & ? & ? & ? & ?); [lia|].
  exists k, err. split_and!; [done|lia|done..].
Qed.

End Retry.

(** ** Witnesses *)
Lemma record_id_stable_witness :
  ∃ id, @GetKeysHash bare_env sorted_range (λ s, s) 2 (<["b" := AInt KInt64 2]> {["a" := AInt KInt64 1]}) ["a"; "b"] = Some id
      ∧ @GetKeysHash bare_env reversed_range (λ s, s) 2 (<["b" := AInt KInt64 2]> {["a" := AInt KInt64 1]}) ["b"; "a"] = Some id.
Proof.
  apply (@record_id_stable bare_env (λ s, s) sorted_range reversed_range 2).
  - left. discriminate.
  - apply perm_swap.
  - reflexivity.
  - lia.
Defined.

(** Fails twice, then succeeds. *)
Definition third_time (n : Z) : Z * option string := (n + 1, if n <? 2 then Some "busy" else None).
