(* ===== verification/Backfill.v ===== *)
(** * drivers/abstract/backfill.go: the chunked full load of a stream

    Each pending chunk is read by its own writer thread; the thread commits in the
    destination under an id derived from the chunk, and only then is the chunk removed
    from the state, which is written to the state file.  An attempt can fail or the
    process can die at any point ([fault]); failed attempts are retried, and a new
    process continues from the state file. *)

From S2P Require Import Prelude GoString GoSet DataTypes QueryEngine Value Schema Stream Catalog State TwoPC Fields Writers Utils.

(** The destination as the reader sees it: opening a writer returns the metadata committed
    so far, closing one commits its records (with a checkpoint) atomically. *)
Class Sink := {
  sink : Type;
  open_writer : sink → ConfiguredStream → Options → option MetadataState;
  commit : sink → ConfiguredStream → Options → list RawRecord → option MetadataState → sink
}.

Definition FullRefreshPostReadFilterDrivers : list DriverType := [S3; Kafka].

(** [ulid] is the fresh identifier used without a hash. *)
Definition generateThreadID (ulid streamID hash : string) : string :=
  streamID +:+ "_" +:+ Ternary (negb (String.eqb hash "")) hash ulid.

(** What happens to one attempt: the writer cannot be created, reading or pushing fails,
    closing fails (before or after the commit took effect), the process dies (before or
    after the commit). *)
Inductive fault := NoFault | OpenFails | ReadFails | CloseFails (committed : bool) | Dies (committed : bool).

(** [Finished n]: the chunk is done, and this many are left. *)
Inductive outcome_of := Finished (chunksLeft : Z) | Failed_with (e : string) | Died.

Section Backfill.
Context `{GoHash string} `{GoHash Chunk} `{GoRange} `{GoEnv} `{JsonCodec} `{Sink}.
Context (md5_hex : string → string) (driver : DriverType).
Implicit Types (stream : ConfiguredStream) (chunk : Chunk).

(** The state, its file, the destination, and the completions signalled on the channel. *)
Record backfill_world := mkBackfill {
  b_state : State; b_file : option persisted; b_sink : sink; b_signals : list string
}.
Implicit Types (w : backfill_world).

Definition chunkThreadID stream chunk : string :=
  generateThreadID "" (ID stream) ("min[" +:+ fmt_v (Min chunk) +:+ "]-max[" +:+ fmt_v (Max chunk) +:+ "]").

Definition backfill_options stream chunk : Options :=
  foldl (λ o one, one o) (mkOptions false "" false false)
    [WithBackfill true; WithThreadID (chunkThreadID stream chunk);
     WithApplyFilter (contains FullRefreshPostReadFilterDrivers driver)].

(** The closure passed to [ChunkIterator]; the time is that of the call. *)
Definition backfill_record (now : gotime) stream (data : gmap string any) : option RawRecord :=
  olakeID ← GetKeysHash md5_hex 2 data (Array (s_SourceDefinedPrimaryKey (StreamOf stream)));
  let olakeColumns : gmap string any :=
    <[OlakeID := AString olakeID]> (<[OpType := AString "r"]> {[OlakeTimestamp := ATime now]}) in
  let olakeColumns := if String.eqb (GetSyncMode stream) CDC then <[CdcTimestamp := ATime (Unix 0)]> olakeColumns else olakeColumns in
  Some (mkRaw (RetainSelectedColumns stream data) olakeColumns).

(** [None]: the id of some record is not computable and the process dies. *)
Definition chunk_records (now : gotime) stream (data : list (gmap string any)) : option (list RawRecord) :=
  mapM (backfill_record now stream) data.

Definition set_sink (k : sink) w : backfill_world := mkBackfill (b_state w) (b_file w) k (b_signals w).

(** The deferred removal, once the writer is closed without error. *)
Definition finish_chunk stream (signal : bool) w chunk : backfill_world * outcome_of :=
  match RemoveChunk (b_state w) stream chunk with
  | Ok (s, chunksLeft) =>
      (mkBackfill s (LogState s (b_file w)) (b_sink w) (b_signals w ++ (if (chunksLeft =? 0) && signal then [ID stream] else [])), Finished chunksLeft)
  | _ => (w, Died)
  end.

(** [chunkProcessor]: [source] is what the driver reads for a chunk. *)
Definition chunkProcessor (source : Chunk → list (gmap string any)) stream (signal : bool) (now : gotime) w chunk (f : fault)
    : backfill_world * outcome_of :=
  let opts := backfill_options stream chunk in
  match f with
  | OpenFails => (w, Failed_with "failed to create new writer thread")
  | _ =>
      let skip := match open_writer (b_sink w) stream opts with
        | Some prev => contains (FullRefreshCommittedIDs prev) (o_ThreadID opts)
        | None => false
        end in
      match (if skip then Some [] else chunk_records now stream (source chunk)) with
      | None => (w, Died)
      | Some records =>
          let committed := set_sink (commit (b_sink w) stream opts records None) w in
          match f with
          | ReadFails => if skip then finish_chunk stream signal committed chunk else (w, Failed_with "failed to read chunk")
          | CloseFails took_effect => (if took_effect then committed else w, Failed_with "failed to close writer")
          | Dies took_effect => (if took_effect then committed else w, Died)
          | _ => finish_chunk stream signal committed chunk
          end
      end
  end.

(** The chunks to process: those of the state, or a fresh split recorded there. *)
Definition backfill_chunks (GetOrSplitChunks : result (GoSet Chunk)) stream (signal : bool) w : result (backfill_world * list Chunk) :=
  let pending := match GetChunks (b_state w) stream with Some c => if Len c =? 0 then None else Some c | None => None end in
  '(w, chunksSet) ← match pending with
    | Some c => Ok (w, c)
    | None =>
        c ← GetOrSplitChunks;
        let s := SetChunks (b_state w) stream c in
        let file := if String.eqb (GetSyncMode stream) FULLREFRESH then b_file w else LogState s (b_file w) in
        Ok (mkBackfill s file (b_sink w) (b_signals w), c)
    end;
  let chunks := Array chunksSet in
  Ok (match chunks with [] => mkBackfill (b_state w) (b_file w) (b_sink w) (b_signals w ++ (if signal then [ID stream] else [])) | _ => w end, chunks).

(** A new process reads the state file; without one it starts from the empty state. *)
Definition restart (empty : State) w : backfill_world :=
  mkBackfill (match b_file w with Some f => unmarshal f | None => empty end) (b_file w) (b_sink w) [].

(** ** A run of one process: every chunk in turn, each retried; [faults] lists the fate of
    the attempts, in order.  The chunks of a group are scheduled until one fails. *)
Record run_state := mkRun { r_world : backfill_world; r_faults : list (fault * gotime); r_dead : bool }.

Definition attempt source stream signal chunk (r : run_state) : run_state * option string :=
  let '(f, now, rest) := match r_faults r with [] => (NoFault, epoch, []) | (f, now) :: rest => (f, now, rest) end in
  match chunkProcessor source stream signal now (r_world r) chunk f with
  | (w, Finished _) => (mkRun w rest false, None)
  | (w, Failed_with e) => (mkRun w rest false, Some e)
  | (w, Died) => (mkRun w rest true, Some ErrNonRetryable)
  end.

Fixpoint process_chunks source stream signal (maxRetries : Z) (chunks : list Chunk) (r : run_state) : run_state * option string :=
  match chunks with
  | [] => (r, None)
  | chunk :: rest =>
      match RetryOnBackoff (λ _, None) (attempt source stream signal chunk) maxRetries r with
      | (r, None) => process_chunks source stream signal maxRetries rest r
      | (r, Some e) => (r, Some e)
      end
  end.

Definition Backfill `{Sched} source split stream signal maxRetries (r : run_state) : run_state * option string :=
  match backfill_chunks split stream signal (r_world r) with
  | Ok (w, chunks) => process_chunks source stream signal maxRetries (sched chunks) (mkRun w (r_faults r) (r_dead r))
  | _ => (r, Some "failed to get or split chunks")
  end.
End Backfill.
