(* ===== verification/BackfillFacts.v ===== *)
(** * Theorems about backfill: every chunk is loaded exactly once, across failures and
    restarts, and a run without further faults completes *)

From S2P Require Import Prelude GoString GoSet DataTypes QueryEngine Value ValueFacts Schema Stream StreamFacts Catalog State StateFacts TwoPC Fields Writers Utils Backfill.

(** What the destination promises: a commit appends the records to the stream's table
    and, for a backfill thread, records the thread's id; opening shows the recorded ids. *)
Class SinkSpec `{Sink} := {
  table : sink → string → list RawRecord;
  committed_ids : sink → string → list string;
  open_shows k stream opts :
    committed_ids k (ID stream) = match open_writer k stream opts with Some m => FullRefreshCommittedIDs m | None => [] end;
  commit_table k stream opts records m : table (commit k stream opts records m) (ID stream) ≡ₚ table k (ID stream) ++ records;
  commit_ids k stream opts records m x :
    o_Backfill opts = true → x ∈ committed_ids (commit k stream opts records m) (ID stream) ↔ x = o_ThreadID opts ∨ x ∈ committed_ids k (ID stream)
}.

Section Facts.
Context `{GoHash string} `{GoHash Chunk} `{GoRange} `{GoEnv} `{JsonCodec} `{SinkSpec}.
Context (md5_hex : string → string) (driver : DriverType).
Context (source : Chunk → list (gmap string any)) (stream : ConfiguredStream) (signal : bool).
Context (U : Chunk → Prop) (all : GoSet Chunk).
Hypothesis Hcf : collision_free U None.
(** The bounds of the chunks survive the state file (text does, integers do not). *)
Hypothesis Hjson : ∀ c, U c → json_chunk c = c.
Hypothesis Hall : good U all.
(** The ids of the chunks are distinct, and every record has an id. *)
Hypothesis Hids : ∀ c c', member c all → member c' all → chunkThreadID stream c = chunkThreadID stream c' → c = c'.
Definition readable (c : Chunk) : Prop := ∀ now, is_Some (chunk_records md5_hex now stream (source c)).
Hypothesis Hread : ∀ c, member c all → readable c.
Implicit Types (w : backfill_world) (c chunk : Chunk) (s : State).

Definition rows (d : Chunk * gotime) : list RawRecord := default [] (chunk_records md5_hex d.2 stream (source d.1)).
Notation attempt_ w now c f := (chunkProcessor md5_hex driver source stream signal now w c f) (only parsing).

(** ** The chunk set in the state and in its file *)
Definition holds_chunks s (cs : GoSet Chunk) : Prop :=
  state_wf s ∧ good U cs ∧ ∃ e, find_stream s stream = Some e ∧ HoldsValue e = true ∧ entry_ok U e ∧ ss_State e !! ChunksKey = Some (SChunks cs).

Lemma holds_GetChunks s cs : holds_chunks s cs → GetChunks s stream = Some cs.
Proof. intros (_ & _ & e & He & _ & _ & Hc). unfold GetChunks. by rewrite He, Hc. Qed.

Lemma holds_logged s cs file : holds_chunks s cs → LogState s file = Some (marshal s).
Proof.
  intros (_ & _ & e & He & _). by eapply LogState_nonempty.
Qed.

Lemma holds_remove s cs c :
  holds_chunks s cs → U c → ∃ s', RemoveChunk s stream c = Ok (s', Len (Remove cs c)) ∧ holds_chunks s' (Remove cs c).
Proof.
  intros (Hwf & Hg & e & He & Hh & Hok & Hc) Hu. unfold RemoveChunk. rewrite He, Hc.
  destruct (update_first _ _ _) as [l|] eqn:E.
  2:{ apply update_first_None in E. unfold find_stream in He. congruence. }
  exists (set_streams s l). split; [done|]. pose proof (Remove_good U Hcf _ _ Hg Hu) as Hg'. split_and!; [|done|].
  - eapply update_wf; [| |done|done]; [done|]. intros x Hx v. simpl. by rewrite lookup_insert_eq.
  - exists (with_map <[ChunksKey := SChunks (Remove cs c)]> e). split_and!.
    + erewrite find_update; [|intros; apply is_stream_with_map|done|done]. case_decide as Hd; [done|]. by destruct Hd.
    + done.
    + intros k v. simpl. intros [[<- <-]|[Hk Hl]]%lookup_insert_Some; case_decide; try done; [by exists (Remove cs c)|].
      specialize (Hok k v Hl). by case_decide.
    + simpl. by rewrite lookup_insert_eq.
Qed.

Lemma SetChunks_holds s cs :
  state_wf s → good U cs → GetSyncMode stream ≠ FULLREFRESH → (∀ e, find_stream s stream = Some e → entry_ok U e) →
  holds_chunks (SetChunks s stream cs) cs.
Proof.
  intros Hwf Hg Hm He. unfold SetChunks. apply String.eqb_neq in Hm as ->. split_and!; [|done|].
  - apply upsert_wf; [|done]. intros e. apply store_typed. right. by eexists.
  - eexists. rewrite find_upsert. case_decide as Hd; [|by destruct Hd]. split_and!; [done|done| |cbn; by rewrite lookup_insert_eq].
    intros k v. cbn. intros [[<- <-]|[Hk Hl]]%lookup_insert_Some; case_decide; try done; [by exists cs|].
    destruct (find_stream s stream) as [e|]; cbn in Hl; [|by rewrite lookup_empty in Hl]. specialize (He e eq_refl k v Hl). by case_decide.
Qed.

Lemma holds_reload s cs :
  holds_chunks s cs → ∃ cs', holds_chunks (unmarshal (marshal s)) cs' ∧ ∀ x, member x cs' ↔ member x cs.
Proof.
  intros (Hwf & Hg & e & He & Hh & Hok & Hc). pose proof (find_reload s stream e Hwf He Hh) as Hr.
  exists (NewSet (json_chunk <$> MarshalArray cs)).
  destruct (reload_set U cs Hcf) as [Hg' Hm]; [intros x Hx; by rewrite Hjson|done|].
  split; [|intros x; rewrite Hm; split; [intros (y & Hy & ->); rewrite Hjson; [done|by apply Hg]|intros Hx; exists x; split; [done|]; symmetry; by apply Hjson, Hg]].
  split_and!; [by apply marshal_wf|done|]. exists (unmarshal_stream (marshal_stream e)). split_and!; [done| | |].
  - cbn. apply negb_true_iff, bool_decide_eq_false. intros Hn.
    assert ((marshal_value <$> ss_State e) !! ChunksKey = None) as Hx by (by rewrite Hn). by rewrite lookup_fmap, Hc in Hx.
  - intros k v. rewrite reload_map. destruct (ss_State e !! k) as [v0|] eqn:Ek; [|done]. intros [= <-]. specialize (Hok k v0 Ek).
    case_decide as Hk; [|destruct Hok as [w ->]; by eexists]. destruct Hok as (c & -> & Hgc). subst k. rewrite Hc in Ek. injection Ek as <-.
    by exists (NewSet (json_chunk <$> MarshalArray cs)).
  - by rewrite reload_map, Hc.
Qed.

(** ** The invariant across attempts, failures and restarts *)
Section Run.
Context (T0 : list RawRecord) (empty : State).

Record binv w (D : list (Chunk * gotime)) (cs : GoSet Chunk) : Prop := {
  bi_once : NoDup D.*1;
  bi_known : ∀ c, c ∈ D.*1 → member c all;
  bi_table : table (b_sink w) (ID stream) ≡ₚ T0 ++ concat (rows <$> D);
  bi_ids : ∀ c, member c all → chunkThreadID stream c ∈ committed_ids (b_sink w) (ID stream) ↔ c ∈ D.*1;
  bi_state : holds_chunks (b_state w) cs;
  bi_file : ∃ s0 cs0, b_file w = Some (marshal s0) ∧ holds_chunks s0 cs0 ∧ ∀ x, member x cs0 ↔ member x cs;
  bi_pending : ∀ c, member c cs → member c all;
  bi_covered : ∀ c, member c all → member c cs ∨ c ∈ D.*1
}.

(** Chunks are compared by their hash; on known chunks that is equality. *)
Lemma done_dec c (D : list (Chunk * gotime)) : (∀ x, x ∈ D.*1 → member x all) → member c all → c ∈ D.*1 ∨ c ∉ D.*1.
Proof. intros HD Hc. apply (elem_of_hashed U); [done|intros x Hx; by apply Hall, HD|by apply Hall]. Qed.

(** A commit of a chunk by an attempt that did or did not skip. *)
Lemma commit_inv w D cs c now records (skip : bool) :
  binv w D cs → member c all →
  skip = (match open_writer (b_sink w) stream (backfill_options driver stream c) with
          | Some prev => contains (FullRefreshCommittedIDs prev) (chunkThreadID stream c) | None => false end) →
  (if skip then Some [] else chunk_records md5_hex now stream (source c)) = Some records →
  ∃ D', binv (set_sink (commit (b_sink w) stream (backfill_options driver stream c) records None) w) D' cs ∧ c ∈ D'.*1 ∧ (∀ x, x ∈ D.*1 → x ∈ D'.*1).
Proof.
  intros Hinv Hc Hskip Hrec. destruct Hinv as [Hnd Hk Ht Hi Hs Hf Hp Hcov].
  assert (skip = true ↔ c ∈ D.*1) as Hsk.
  { rewrite Hskip, <- (Hi c Hc), (open_shows (b_sink w) stream (backfill_options driver stream c)).
    destruct (open_writer _ _ _); [unfold contains; apply bool_decide_eq_true|]. split; [done|]. by intros ?%elem_of_nil. }
  destruct skip.
  - injection Hrec as <-. exists D. assert (c ∈ D.*1) as Hin by (by apply Hsk). split_and!; [|done|done]. split; cbn [b_sink b_state b_file set_sink]; [done|done| | |done|done|done|done].
    + rewrite commit_table, app_nil_r. done.
    + intros x Hx. rewrite commit_ids by done. change (o_ThreadID (backfill_options driver stream c)) with (chunkThreadID stream c).
      rewrite (Hi x Hx). split; [intros [Heq|?]; [by rewrite (Hids x c)|done]|by right].
  - assert (c ∉ D.*1) as Hnin by (intros Hin; apply Hsk in Hin; done). exists (D ++ [(c, now)]).
    split_and!; [|rewrite fmap_app; apply elem_of_app; right; left|intros x Hx; rewrite fmap_app; apply elem_of_app; by left].
    split; cbn [b_sink b_state b_file set_sink]; [| | | |done|done|done|].
    + rewrite fmap_app. apply NoDup_app. split_and!; [done| |apply NoDup_singleton]. by intros x Hx ->%list_elem_of_singleton.
    + intros x. rewrite fmap_app, elem_of_app. intros [?|Hx]; [auto|]. apply list_elem_of_singleton in Hx as ->. done.
    + rewrite commit_table, Ht, fmap_app, concat_app, <- app_assoc. do 2 f_equiv. cbn. rewrite app_nil_r. unfold rows. cbn. by rewrite Hrec.
    + intros x Hx. rewrite commit_ids by done. change (o_ThreadID (backfill_options driver stream c)) with (chunkThreadID stream c).
      rewrite (Hi x Hx), fmap_app, elem_of_app. cbn. rewrite list_elem_of_singleton. split; [intros [Heq|?]; [right; by apply Hids|by left]|].
      intros [?| ->]; [by right|by left].
    + intros x Hx. destruct (Hcov x Hx); [by left|right]. rewrite fmap_app. apply elem_of_app. by left.
Qed.

Lemma finish_inv w D cs c :
  binv w D cs → member c cs → c ∈ D.*1 →
  ∃ w', finish_chunk stream signal w c = (w', Finished (Len (Remove cs c))) ∧ binv w' D (Remove cs c)
  ∧ b_signals w' = b_signals w ++ (if (Len (Remove cs c) =? 0) && signal then [ID stream] else []).
Proof.
  intros Hinv Hc Hd. destruct Hinv as [Hnd Hk Ht Hi Hs Hf Hp Hcov]. assert (U c) as Hu by (destruct Hs as (_ & Hg & _); by apply Hg).
  destruct (holds_remove _ _ c Hs Hu) as (s' & Hr & Hs'). unfold finish_chunk. rewrite Hr. eexists. split; [done|]. split; [|done].
  assert (Hm : ∀ x, member x (Remove cs c) ↔ member x cs ∧ x ≠ c) by (destruct Hs as (_ & [Hw Hfh Hin] & _); intros x; apply (member_Remove U); [by rewrite Hfh|done..]).
  split; cbn; [done|done|done|done|done| | |].
  - exists s', (Remove cs c). split_and!; [by eapply holds_logged|done|done].
  - intros x Hx. apply Hp. by apply Hm in Hx as [? _].
  - intros x Hx. destruct (Hcov x Hx) as [Hx'|?]; [|by right]. destruct (done_dec x D Hk Hx) as [?|Hn]; [by right|left].
    apply Hm. split; [done|]. by intros ->.
Qed.

(** One attempt: it keeps the invariant; if it finishes, the chunk is loaded and removed. *)
Lemma attempt_inv w D cs now c f w' out :
  binv w D cs → member c cs → attempt_ w now c f = (w', out) →
  ∃ D', (∀ x, x ∈ D.*1 → x ∈ D'.*1) ∧
  match out with
  | Finished n => n = Len (Remove cs c) ∧ c ∈ D'.*1 ∧ binv w' D' (Remove cs c)
                  ∧ b_signals w' = b_signals w ++ (if (n =? 0) && signal then [ID stream] else [])
  | Failed_with e => binv w' D' cs ∧ b_signals w' = b_signals w ∧ StrContains e ErrNonRetryable = false ∧ f ≠ NoFault
  | Died => binv w' D' cs ∧ ∃ b, f = Dies b
  end.
Proof.
  intros Hinv Hc. pose proof (bi_pending _ _ _ Hinv c Hc) as Hca. unfold chunkProcessor.
  set (skip := match open_writer (b_sink w) stream (backfill_options driver stream c) with Some prev => _ | None => false end).
  destruct (if skip then Some [] else chunk_records md5_hex now stream (source c)) as [records|] eqn:Er.
  2:{ exfalso. destruct skip; [done|]. destruct (Hread c Hca now) as [x Hx]. congruence. }
  destruct (commit_inv w D cs c now records skip Hinv Hca eq_refl Er) as (D' & Hinv' & Hin & Hsub).
  assert (Hc' : member c cs) by done. destruct (finish_inv _ _ _ _ Hinv' Hc' Hin) as (w2 & Hfin & Hinv2 & Hsig).
  assert (Hfinish : (w2, Finished (Len (Remove cs c))) = (w', out) → ∃ D', (∀ x, x ∈ D.*1 → x ∈ D'.*1) ∧
    match out with
    | Finished n => n = Len (Remove cs c) ∧ c ∈ D'.*1 ∧ binv w' D' (Remove cs c) ∧ b_signals w' = b_signals w ++ (if (n =? 0) && signal then [ID stream] else [])
    | Failed_with e => binv w' D' cs ∧ b_signals w' = b_signals w ∧ StrContains e ErrNonRetryable = false ∧ f ≠ NoFault
    | Died => binv w' D' cs ∧ ∃ b, f = Dies b
    end) by (intros [= <- <-]; exists D'; auto).
  destruct f as [| | |b|b]; cbn [o_ThreadID].
  - rewrite Hfin. exact Hfinish.
  - intros [= <- <-]. exists D. split_and!; done.
  - destruct skip; [rewrite Hfin; exact Hfinish|]. intros [= <- <-]. exists D. split_and!; done.
  - intros [= <- <-]. destruct b; [exists D'|exists D]; split_and!; done.
  - intros [= <- <-]. destruct b; [exists D'|exists D]; split_and!; eauto.
Qed.

Lemma restart_inv w D cs : binv w D cs → ∃ cs', binv (restart empty w) D cs' ∧ ∀ x, member x cs' ↔ member x cs.
Proof.
  intros [Hnd Hk Ht Hi Hs (s0 & cs0 & Hf & Hs0 & Hm0) Hp Hcov]. destruct (holds_reload _ _ Hs0) as (cs' & Hs' & Hm').
  assert (∀ x, member x cs' ↔ member x cs) as Hm by (intros x; by rewrite Hm', Hm0).
  exists cs'. split; [|done]. split; cbn [restart b_sink b_state b_file]; [done|done|done|done| | | |].
  - by rewrite Hf.
  - exists s0, cs0. split_and!; [done..|]. intros x. by rewrite Hm.
  - intros c Hc. by apply Hp, Hm.
  - intros c Hc. destruct (Hcov c Hc); [left; by apply Hm|by right].
Qed.

(** The steps of any number of processes working on the stream: an attempt on a pending
    chunk, at any fault, and the death of a process followed by a new one. *)
Inductive bstep : backfill_world → backfill_world → Prop :=
| bstep_attempt w now c cs f w' out :
    GetChunks (b_state w) stream = Some cs → member c cs → attempt_ w now c f = (w', out) →
    bstep w (match out with Died => restart empty w' | _ => w' end)
| bstep_killed w : bstep w (restart empty w).

Lemma bstep_inv w w' D cs : binv w D cs → bstep w w' → ∃ D' cs', binv w' D' cs' ∧ ∀ x, x ∈ D.*1 → x ∈ D'.*1.
Proof.
  intros Hinv Hstep. destruct Hstep as [w now c cs' f w' out Hget Hc Ha|w].
  - rewrite (holds_GetChunks _ _ (bi_state _ _ _ Hinv)) in Hget. injection Hget as <-.
    destruct (attempt_inv _ _ _ _ _ _ _ _ Hinv Hc Ha) as (D' & Hsub & Hout). destruct out as [n|e|].
    + destruct Hout as (_ & _ & Hinv' & _). eauto.
    + destruct Hout as (Hinv' & _). eauto.
    + destruct Hout as (Hinv' & _). destruct (restart_inv _ _ _ Hinv') as (cs' & Hinv'' & _). eauto.
  - destruct (restart_inv _ _ _ Hinv) as (cs' & Hinv' & _). eauto.
Qed.

(** A stream whose chunks were just recorded, none of them loaded yet. *)
Record fresh_start w : Prop := {
  fs_state : holds_chunks (b_state w) all;
  fs_file : b_file w = Some (marshal (b_state w));
  fs_table : table (b_sink w) (ID stream) = T0;
  fs_ids : ∀ c, member c all → chunkThreadID stream c ∉ committed_ids (b_sink w) (ID stream)
}.

Lemma fresh_binv w : fresh_start w → binv w [] all.
Proof.
  intros [Hs Hf Ht Hi]. split; cbn; [constructor|by intros c ?%elem_of_nil|by rewrite Ht, app_nil_r| |done| |done|by left].
  - intros c Hc. split; [by intros ?%Hi|by intros ?%elem_of_nil].
  - by exists (b_state w), all.
Qed.

Lemma reachable_inv w w' : fresh_start w → rtc bstep w w' → ∃ D cs, binv w' D cs.
Proof.
  intros Hf Hr. assert (∃ D cs, binv w D cs) as Hi by (eauto using fresh_binv). clear Hf.
  induction Hr as [|w w1 w2 Hstep _ IH]; [done|]. destruct Hi as (D & cs & Hi). apply IH.
  destruct (bstep_inv _ _ _ _ Hi Hstep) as (D' & cs' & ? & _). eauto.
Qed.

(** C2: backfill loads every chunk exactly once, for chunks whose bounds the state file
    gives back unchanged.  Whatever attempts fail or die, before or after their commit, and
    however often the process is restarted from the state file: the table holds, besides
    what it held before, the records of pairwise different chunks of the stream, once each;
    every chunk is still pending or loaded; and once no chunk is pending, all are loaded.
    The hypotheses of the section: JSON does not change the bounds (true of text, not of
    integers: [integer_bound_loads_twice] below loads a chunk twice), the hashes and thread
    ids of the chunks are distinct, and the records of every chunk have an id. *)
Theorem backfill_exactly_once w w' :
  fresh_start w → rtc bstep w w' →
  ∃ D cs, NoDup D.*1 ∧ (∀ c, c ∈ D.*1 → member c all)
  ∧ table (b_sink w') (ID stream) ≡ₚ T0 ++ concat (rows <$> D)
  ∧ GetChunks (b_state w') stream = Some cs
  ∧ (∀ c, member c all → member c cs ∨ c ∈ D.*1)
  ∧ (Len cs = 0 → ∀ c, member c all ↔ c ∈ D.*1).
Proof.
  intros Hf Hr. destruct (reachable_inv _ _ Hf Hr) as (D & cs & [Hnd Hk Ht Hi Hs _ Hp Hcov]).
  exists D, cs. split_and!; [done..|by apply holds_GetChunks|done|]. intros Hz c. split; [|apply Hk]. intros Hc.
  destruct (Hcov c Hc) as [Hm|?]; [|done]. destruct Hs as (_ & Hg & _). by apply (proj1 (Len_zero cs (good_wf _ _ Hg)) Hz) in Hm.
Qed.

(** ** Completion *)
Definition survivable (f : fault) : bool := match f with Dies _ => false | _ => true end.
Notation attempt_of c := (attempt md5_hex driver source stream signal c) (only parsing).
Notation retryable := (λ e, negb (StrContains e ErrNonRetryable)) (only parsing).

Lemma attempts_succeed n (r : run_state) c D cs :
  binv (r_world r) D cs → member c cs → Forall (λ f, survivable f.1 = true) (r_faults r) → (length (r_faults r) < n)%nat →
  ∃ r' D', retry_loop (λ _, None) (attempt_of c) retryable n r = (r', None)
  ∧ binv (r_world r') D' (Remove cs c) ∧ Forall (λ f, survivable f.1 = true) (r_faults r') ∧ (length (r_faults r') ≤ length (r_faults r))%nat
  ∧ b_signals (r_world r') = b_signals (r_world r) ++ (if (Len (Remove cs c) =? 0) && signal then [ID stream] else []).
Proof.
  revert r D. induction n as [|n IH]; intros r D Hinv Hc Hf Hn; [lia|]. cbn [retry_loop]. unfold attempt at 1.
  destruct (r_faults r) as [|[f now] rest] eqn:Erf.
  - destruct (chunkProcessor _ _ _ _ _ epoch (r_world r) c NoFault) as [w' out] eqn:Ea.
    destruct (attempt_inv _ _ _ _ _ _ _ _ Hinv Hc Ea) as (D' & _ & Hout). destruct out as [k|e|].
    + destruct Hout as (-> & _ & Hinv' & Hsig). exists (mkRun w' [] false), D'. split_and!; [done|done|constructor|cbn; lia|done].
    + by destruct Hout as (_ & _ & _ & ?).
    + destruct Hout as (_ & b & ?). done.
  - apply Forall_cons in Hf as [Hf1 Hf]. cbn [fst] in Hf1. cbn [length] in Hn.
    destruct (chunkProcessor _ _ _ _ _ now (r_world r) c f) as [w' out] eqn:Ea.
    destruct (attempt_inv _ _ _ _ _ _ _ _ Hinv Hc Ea) as (D' & _ & Hout). destruct out as [k|e|].
    + destruct Hout as (-> & _ & Hinv' & Hsig). exists (mkRun w' rest false), D'. split_and!; [done|done|done|cbn; lia|done].
    + destruct Hout as (Hinv' & Hsig & Hret & _). rewrite Hret. cbn [negb]. destruct n as [|n]; [lia|].
      destruct (IH (mkRun w' rest false) D' Hinv' Hc Hf) as (r' & D2 & -> & Hinv2 & Hf2 & Hlen & Hsig2); [cbn; lia|].
      exists r', D2. cbn in Hlen, Hsig2. split_and!; [done|done|done|cbn; lia|]. by rewrite Hsig2, Hsig.
    + destruct Hout as (_ & b & ->). done.
Qed.

Lemma process_succeeds maxRetries l r D cs :
  binv (r_world r) D cs → NoDup l → (∀ c, c ∈ l ↔ member c cs) →
  Forall (λ f, survivable f.1 = true) (r_faults r) → Z.of_nat (length (r_faults r)) ≤ maxRetries →
  ∃ r' D' cs', process_chunks md5_hex driver source stream signal maxRetries l r = (r', None)
  ∧ binv (r_world r') D' cs' ∧ Len cs' = 0
  ∧ b_signals (r_world r') = b_signals (r_world r) ++ (if bool_decide (l ≠ []) && signal then [ID stream] else []).
Proof.
  revert r D cs. induction l as [|c l IH]; intros r D cs Hinv Hnd Hl Hf Hlen.
  - exists r, D, cs. split_and!; [done|done| |cbn; by rewrite app_nil_r]. destruct (bi_state _ _ _ Hinv) as (_ & Hg & _).
    apply (Len_zero cs (good_wf _ _ Hg)). intros c Hc. apply Hl in Hc. by apply elem_of_nil in Hc.
  - apply NoDup_cons in Hnd as [Hc Hnd]. cbn [process_chunks]. unfold RetryOnBackoff.
    assert (member c cs) as Hm by (apply Hl; left).
    destruct (attempts_succeed (Z.to_nat (maxRetries + 1)) r c D cs Hinv Hm Hf) as (r1 & D1 & -> & Hinv1 & Hf1 & Hlen1 & Hsig1); [lia|].
    assert (Hrm : ∀ x, member x (Remove cs c) ↔ member x cs ∧ x ≠ c).
    { destruct (bi_state _ _ _ Hinv) as (_ & [Hw Hfh Hin] & _). intros x. apply (member_Remove U); [by rewrite Hfh|done..|by apply Hin]. }
    destruct (IH r1 D1 (Remove cs c) Hinv1 Hnd) as (r' & D' & cs' & -> & Hinv' & Hz & Hsig); [|done|lia|].
    { intros x. rewrite Hrm, <- Hl, elem_of_cons. split; [intros Hx; split; [by right|by intros ->]|]. intros [[->|?] ?]; done. }
    exists r', D', cs'. split_and!; [done..|]. rewrite Hsig, Hsig1, <- app_assoc. f_equal.
    rewrite (bool_decide_eq_true_2 (c :: l ≠ [])) by done. destruct (bi_state _ _ _ Hinv1) as (_ & Hg1 & _). pose proof (Len_zero _ (good_wf _ _ Hg1)) as Hz1.
    destruct l as [|c2 l].
    + assert (Len (Remove cs c) = 0) as ->; [|cbn; by rewrite app_nil_r]. apply Hz1. intros x Hx. apply Hrm in Hx as [Hx Hne].
      apply Hl in Hx. by apply list_elem_of_singleton in Hx.
    + rewrite bool_decide_eq_true_2 by done. assert (Len (Remove cs c) ≠ 0) as Hne%Z.eqb_neq; [|by rewrite Hne].
      rewrite Hz1. intros Hno. apply (Hno c2). apply Hrm. split; [apply Hl; right; left|]. intros ->. apply Hc. left.
Qed.

(** C3: backfill completes, for chunks as in C2: their bounds are unchanged by JSON, their
    hashes and thread ids distinct, and their records readable.  From any point reached by
    failures and restarts with chunks still pending, a run whose attempts fail at most as
    often as retries are allowed (and does not die) returns without error, in whatever
    order the chunks are scheduled; then no chunk is pending, every chunk of the stream is
    loaded exactly once, and the completion is signalled exactly once. *)
Theorem backfill_completes `{Sched} split w w' cs faults maxRetries :
  fresh_start w → rtc bstep w w' → GetChunks (b_state w') stream = Some cs → Len cs ≠ 0 →
  Forall (λ f, survivable f.1 = true) faults → Z.of_nat (length faults) ≤ maxRetries →
  ∃ r D left, Backfill md5_hex driver source split stream signal maxRetries (mkRun w' faults false) = (r, None)
  ∧ GetChunks (b_state (r_world r)) stream = Some left ∧ Len left = 0
  ∧ NoDup D.*1 ∧ (∀ c, member c all ↔ c ∈ D.*1)
  ∧ table (b_sink (r_world r)) (ID stream) ≡ₚ T0 ++ concat (rows <$> D)
  ∧ b_signals (r_world r) = b_signals w' ++ (if signal then [ID stream] else []).
Proof.
  intros Hf Hr Hget Hlen Hsv Hmax. destruct (reachable_inv _ _ Hf Hr) as (D & cs0 & Hinv).
  rewrite (holds_GetChunks _ _ (bi_state _ _ _ Hinv)) in Hget. injection Hget as ->.
  unfold Backfill, backfill_chunks. cbn [r_world]. rewrite (holds_GetChunks _ _ (bi_state _ _ _ Hinv)).
  apply Z.eqb_neq in Hlen as Hlen'. rewrite Hlen'. cbn [mbind result_bind].
  destruct (bi_state _ _ _ Hinv) as (_ & Hg & _).
  assert (sched (Array cs) ≠ []) as Hne.
  { intros Hnil. apply Hlen. rewrite Len_Array by apply Hg. assert (Array cs ≡ₚ []) as ->%Permutation_nil_r; [|done]. by rewrite <- (sched_perm (Array cs)), Hnil. }
  destruct (process_succeeds maxRetries (sched (Array cs)) (mkRun w' faults false) D cs Hinv) as (r & D' & left & Hp & Hinv' & Hz & Hsig).
  - rewrite sched_perm. apply NoDup_Array, Hg.
  - intros c. rewrite sched_perm. apply member_Array.
  - done.
  - done.
  - assert (match Array cs with [] => mkBackfill (b_state w') (b_file w') (b_sink w') (b_signals w' ++ (if signal then [ID stream] else [])) | _ => w' end = w') as ->.
    { destruct (Array cs) eqn:Ea; [|done]. exfalso. apply Hne. pose proof (sched_perm (@nil Chunk)) as Hs. by apply Permutation_nil_r in Hs. }
    exists r, D', left. destruct Hinv' as [Hnd Hk Ht Hi Hs _ _ Hcov]. split_and!; [done|by apply holds_GetChunks|done|done| |done|].
    + intros c. split; [|apply Hk]. intros Hc. destruct (Hcov c Hc) as [Hm|?]; [|done]. destruct Hs as (_ & Hg' & _).
      by apply (proj1 (Len_zero left (good_wf _ _ Hg')) Hz) in Hm.
    + rewrite Hsig. cbn [r_world]. by rewrite bool_decide_eq_true_2.
Qed.
End Run.
End Facts.

(** ** Witnesses: a destination keeping a table and the committed ids per stream *)
Section Witnesses.
#[local] Instance wb_hash : GoHash string := ws_hash.
#[local] Instance wb_chunk_hash : GoHash Chunk := ws_chunk_hash.
#[local] Instance wb_json : JsonCodec := ws_json.
#[local] Instance wb_range : GoRange := sorted_range.
#[local] Instance wb_env : GoEnv := bare_env.
#[local] Instance wb_sched : Sched := {| sched A l := reverse l; sched_perm A l := reverse_Permutation l |}.

Definition stored_table (k : gmap string (list RawRecord * list string)) (id : string) : list RawRecord * list string := default ([], []) (k !! id).
#[local] Instance map_sink : Sink := {|
  sink := gmap string (list RawRecord * list string);
  open_writer k stream _ := Some (mkMeta None None (stored_table k (ID stream)).2 None);
  commit k stream opts records _ :=
    <[ID stream := ((stored_table k (ID stream)).1 ++ records,
                    if o_Backfill opts then o_ThreadID opts :: (stored_table k (ID stream)).2 else (stored_table k (ID stream)).2)]> k |}.
#[local] Instance map_sink_spec : SinkSpec.
Proof.
  refine {| table k id := (stored_table k id).1; committed_ids k id := (stored_table k id).2 |}.
  - done.
  - intros. unfold stored_table. cbn. by rewrite lookup_insert_eq.
  - intros k stream opts records m x Hb. cbn. unfold stored_table at 1. rewrite lookup_insert_eq, Hb. cbn. by rewrite elem_of_cons.
Defined.

Definition chunk_source (c : Chunk) : list (gmap string any) := [{["Id" := Min c]}; {["Id" := AString "last"]}].
Definition both : GoSet Chunk := NewSet [chunk1; chunk2].
Definition start_world : backfill_world :=
  let s := SetChunks (empty_state StreamType) users both in mkBackfill s (Some (marshal s)) ∅ [].


Lemma start_fresh : fresh_start users two_chunks both [] start_world.
Proof.
  split.
  - apply (SetChunks_holds users two_chunks); [split; constructor|apply both_good|discriminate|done].
  - done.
  - done.
  - intros c _. apply not_elem_of_nil.
Qed.

Lemma both_ids c c' : member c both → member c' both → chunkThreadID users c = chunkThreadID users c' → c = c'.
Proof.
  intros Hc Hc'. apply (good_inside _ _ both_good) in Hc, Hc'. destruct Hc as [-> | ->], Hc' as [-> | ->]; [done| | |done];
    (intros Heq; exfalso; revert Heq; vm_compute; discriminate).
Qed.

Lemma both_readable c : member c both → readable (λ s, s) chunk_source users c.
Proof. intros Hc now. apply (good_inside _ _ both_good) in Hc as [-> | ->]; eexists; reflexivity. Qed.

Definition first_process : backfill_world :=
  restart (empty_state StreamType) (chunkProcessor (λ s, s) MySQL chunk_source users true epoch start_world chunk1 (Dies true)).1.

Lemma first_process_reached : rtc (bstep (λ s, s) MySQL chunk_source users true (empty_state StreamType)) start_world first_process.
Proof.
  eapply rtc_l; [|apply rtc_refl].
  apply (bstep_attempt _ _ _ _ _ _ start_world epoch chunk1 both (Dies true) _ Died); [reflexivity| |reflexivity].
  apply (member_NewSet two_chunks); [apply two_chunks_cf| |left]. intros x Hx. rewrite !elem_of_cons in Hx.
  destruct Hx as [->|[->|Hx]]; [by left|by right|by apply elem_of_nil in Hx].
Qed.

(** The first process dies right after committing the first chunk. *)
Lemma backfill_exactly_once_witness :
  ∃ D cs, NoDup D.*1 ∧ table (b_sink first_process) "public.users" ≡ₚ concat (rows (λ s, s) chunk_source users <$> D)
        ∧ GetChunks (b_state first_process) users = Some cs ∧ (∀ c, member c both → member c cs ∨ c ∈ D.*1).
Proof.
  destruct (backfill_exactly_once (λ s, s) MySQL chunk_source users true two_chunks both two_chunks_cf two_chunks_fixed both_good both_ids both_readable
              [] (empty_state StreamType) start_world first_process start_fresh first_process_reached)
    as (D & cs & Hnd & _ & Ht & Hg & Hc & _).
  exists D, cs. split_and!; assumption.
Defined.

(** The second process survives two failed attempts. *)
Lemma backfill_completes_witness :
  ∃ r, Backfill (λ s, s) MySQL chunk_source (Err "unused") users true 3
         (mkRun first_process [(ReadFails, epoch); (CloseFails true, epoch)] false) = (r, None)
       ∧ b_signals (r_world r) = ["public.users"].
Proof.
  destruct (GetChunks (b_state first_process) users) as [cs|] eqn:Eg; [|vm_compute in Eg; discriminate].
  destruct (backfill_completes (λ s, s) MySQL chunk_source users true two_chunks both two_chunks_cf two_chunks_fixed both_good both_ids both_readable
              [] (empty_state StreamType) (Err "unused") start_world first_process cs
              [(ReadFails, epoch); (CloseFails true, epoch)] 3 start_fresh first_process_reached Eg)
    as (r & D & lft & Hb & _ & _ & _ & _ & _ & Hs).
  - assert (Len <$> GetChunks (b_state first_process) users = Some 2) as Hl by (vm_compute; reflexivity).
    rewrite Eg in Hl. injection Hl as ->. discriminate.
  - repeat constructor.
  - discriminate.
  - exists r. split; [exact Hb|exact Hs].
Defined.
End Witnesses.

(** ** Integer bounds do not survive the state file: the bound 1000000 comes back as a
    float64, which [%v] prints as 1e+06, so the reloaded chunk has another thread id, and
    a chunk committed by a process that died before removing it is loaded again. *)
Section IntegerBounds.
#[local] Instance ib_hash : GoHash string := ws_hash.
#[local] Instance ib_chunk_hash : GoHash Chunk := {| method_hash _ := None; hashstructure _ := Some 0; zero_value := mkChunk ANil ANil |}.
#[local] Instance ib_json : JsonCodec := ws_json.
#[local] Instance ib_range : GoRange := sorted_range.
#[local] Instance ib_env : GoEnv := {|
  parse_float := λ _ _, None; fmt_float := λ _ _, "1e+06"; fmt_time := λ _, ""; fmt_pointer := λ _, "";
  time_parse := λ _ _, None; local_offset := λ _, 0; f2i_undefined := λ _ _ _, 0; LoadedStateVersion := 5 |}.
#[local] Instance ib_sink : Sink := map_sink.

Definition int_chunk : Chunk := mkChunk (AInt KInt64 1000000) ANil.
Definition int_start : backfill_world :=
  let s := SetChunks (empty_state StreamType) users (NewSet [int_chunk]) in mkBackfill s (Some (marshal s)) ∅ [].
Definition int_process (w : backfill_world) (c : Chunk) (f : fault) : backfill_world * outcome_of :=
  chunkProcessor (λ s, s) MySQL chunk_source users true epoch w c f.
Definition int_restarted : backfill_world := restart (empty_state StreamType) (int_process int_start int_chunk (Dies true)).1.

Lemma integer_bound_loads_twice :
  Array <$> GetChunks (b_state int_restarted) users = Some [json_chunk int_chunk]
  ∧ length (stored_table (b_sink int_restarted) "public.users").1 = 2%nat
  ∧ length (stored_table (b_sink (int_process int_restarted (json_chunk int_chunk) NoFault).1) "public.users").1 = 4%nat.
Proof. vm_compute. done. Qed.
End IntegerBounds.
