(* ===== verification/Incremental.v ===== *)
(** * drivers/abstract/incremental.go: cursor-based incremental sync

    A stream first gets a backfill, bounded by the greatest cursor value at its start;
    afterwards each sync reads the rows beyond the cursor kept in the state, commits them
    together with the new cursor in the destination's metadata, and then stores the
    cursor in the state.  The writer's thread id is derived from the old cursor, so a
    process that died between the commit and the state file is recognised by its id. *)

From S2P Require Import Prelude GoString GoSet DataTypes QueryEngine Value Schema Stream Catalog State TwoPC Fields Writers Utils Backfill.

Definition DB2StateTimestampFormat : string := "2006-01-02 15:04:05.000000".
Definition DefaultStateTimestampFormat : string := "2006-01-02T15:04:05.000000000Z".
Definition CDCKeepDeletesThroughFilterDrivers : list DriverType := [Kafka].

(** Encoding one value of a metadata object; decoding gives the value back as JSON does. *)
Class JsonText `{JsonCodec} := {
  json_text : any → option string;
  json_of : string → any;
  json_of_text v t : json_text v = Some t → json_of t = json_any v
}.

(** [SetMetadataState] on a map: the state is an object, or some value has no encoding. *)
Definition SetMetadataState `{JsonText} (mtState : gmap string any) (threadID : string) : option MetadataState :=
  fields ← mapM (λ kv, t ← json_text kv.2; Some (kv.1, t)) (map_to_list mtState);
  Some (mkMeta (Some threadID) (Some (SObject (list_to_map fields))) [] None).

(** The fate of one attempt: creating the writer, reading or closing fails, or the process
    dies: before or after the commit, or between the two cursors' state writes. *)
Inductive crash_point := BeforeCommit | AfterCommit | AfterPrimary.
Inductive ifault := INone | IOpen | IRead | IClose (committed : bool) | IDies (at_ : crash_point).

Section Incremental.
Context `{GoHash string} `{GoHash Chunk} `{GoRange} `{GoEnv} `{JsonText} `{Sink}.
Context (md5_hex : string → string) (driver : DriverType) (time_format : string → gotime → string).
Implicit Types (stream : ConfiguredStream) (s : State) (w : backfill_world).

(** ** Cursor values *)
Definition FormatCursorValue (cursorValue : any) : any :=
  match cursorValue with
  | ATime t => AString (if contains [DB2] driver then time_format DB2StateTimestampFormat t
                        else time_format DefaultStateTimestampFormat (UTC t))
  | AObjectID hex => AString hex
  | _ => cursorValue
  end.

Definition ReformatCursorValue (cursorField : string) (cursorValue : any) stream : result any :=
  if String.eqb cursorField "" then Ok cursorValue
  else cursorColType ← GetType (s_Schema (StreamOf stream)) cursorField; ReformatValue cursorColType cursorValue.

Definition getIncrementCursorFromState (primaryCursorField secondaryCursorField : string) stream s : result (any * any) :=
  primaryCursorValue ← ReformatCursorValue primaryCursorField (cursor_value s stream primaryCursorField) stream;
  secondaryCursorValue ← ReformatCursorValue secondaryCursorField (cursor_value s stream secondaryCursorField) stream;
  Ok (primaryCursorValue, secondaryCursorValue).

Definition greater (a b : any) : result any := c ← Compare a b; Ok (if c =? 1 then a else b).

Definition getMaxIncrementCursorFromData (primaryCursor secondaryCursor : string) (maxPrimary maxSecondary : any)
    (data : gmap string any) : result (any * any) :=
  p ← greater (value_at data primaryCursor) maxPrimary;
  q ← (if String.eqb secondaryCursor "" then Ok ANil else greater (value_at data secondaryCursor) maxSecondary);
  Ok (p, q).

(** ** Before the backfill: [Some] state when the stream still needs one *)
Definition incremental_prologue (FetchMaxCursorValues : result (any * any)) stream s : result (option State) :=
  let '(primaryCursor, secondaryCursor) := Cursor stream in
  let set key := negb (is_nil (cursor_value s stream key)) in
  if HasCompletedBackfill s stream && (set primaryCursor && (String.eqb secondaryCursor "" || set secondaryCursor))
  then Ok None
  else if match GetChunks s stream with None => true | Some chunks => Len chunks =? 0 end then
    let s := ResetCursor s stream in
    '(maxPrimary, maxSecondary) ← FetchMaxCursorValues;
    let s := SetCursor s stream primaryCursor (FormatCursorValue maxPrimary) in
    Ok (Some (if String.eqb secondaryCursor "" then s else SetCursor s stream secondaryCursor (FormatCursorValue maxSecondary)))
  else Ok (Some s).

(** ** One attempt to read the changes *)
Definition incremental_record (now : gotime) stream (record : gmap string any) : option RawRecord :=
  olakeID ← GetKeysHash md5_hex 2 record (Array (s_SourceDefinedPrimaryKey (StreamOf stream)));
  Some (mkRaw (RetainSelectedColumns stream record)
          (<[OlakeID := AString olakeID]> (<[OpType := AString "u"]> {[OlakeTimestamp := ATime now]}))).

Definition incremental_options (threadID : string) : Options :=
  foldl (λ o one, one o) (mkOptions false "" false false) [WithThreadID threadID; WithApplyFilter true].

Definition incrementalThreadID stream (p q : any) : string :=
  generateThreadID "" (ID stream) (fmt_v p +:+ "_" +:+ fmt_v q).

(** The cursors of an earlier commit under the same id. *)
Definition recover_cursors (primaryCursor secondaryCursor : string) (q : any) (state : state_json) : result (any * any) :=
  match state with
  | SText _ => Err "failed to unmarshal previous metadata state"
  | SObject fields =>
      let at_key k := match fields !! k with Some t => json_of t | None => ANil end in
      let nil k := is_nil (at_key k) in
      if nil primaryCursor || (negb (String.eqb secondaryCursor "") && nil secondaryCursor)
      then Err "cursor value is nil in the metadata state"
      else Ok (at_key primaryCursor, if String.eqb secondaryCursor "" then q else at_key secondaryCursor)
  end.

(** What the attempt commits: the cursors reached and the records pushed.  [None]: a
    record has no id and the process does not return. *)
Definition read_changes (now : gotime) stream (prev : option MetadataState) (threadID : string) (p q : any)
    (records : list (gmap string any)) : option (result (any * any * list RawRecord)) :=
  let '(primaryCursor, secondaryCursor) := Cursor stream in
  let recovered := match prev with
    | Some (mkMeta (Some id) (Some state) _ _) => if String.eqb threadID id then Some state else None
    | _ => None
    end in
  match recovered with
  | Some state => Some ('(p, q) ← recover_cursors primaryCursor secondaryCursor q state; Ok (p, q, []))
  | None =>
      raws ← mapM (incremental_record now stream) records;
      Some ('(p, q) ← foldM (λ pq r, getMaxIncrementCursorFromData primaryCursor secondaryCursor pq.1 pq.2 r) (p, q) records;
            Ok (p, q, raws))
  end.

Definition logged s w : backfill_world := mkBackfill s (LogState s (b_file w)) (b_sink w) (b_signals w).

(** The deferred functions of a successful attempt: the cursors go to the metadata of the
    commit and then, one at a time, to the state. *)
Definition finish_incremental stream (threadID : string) (p q : any) (raws : list RawRecord) w (f : ifault) : backfill_world * outcome_of :=
  let '(primaryCursor, secondaryCursor) := Cursor stream in
  let mtState : gmap string any :=
    let m : gmap string any := {[primaryCursor := FormatCursorValue p]} in
    if String.eqb secondaryCursor "" then m else <[secondaryCursor := FormatCursorValue q]> m in
  match SetMetadataState mtState threadID with
  | None => (w, Failed_with "failed to set metadata state")
  | Some meta =>
      let committed := set_sink (commit (b_sink w) stream (incremental_options threadID) raws (Some meta)) w in
      let first := let s := SetCursor (b_state w) stream primaryCursor (FormatCursorValue p) in
        if String.eqb primaryCursor "" then committed else logged s committed in
      let second := let s := SetCursor (b_state first) stream secondaryCursor (FormatCursorValue q) in
        if String.eqb secondaryCursor "" then first else logged s first in
      match f with
      | IClose b => (if b then committed else w, Failed_with "failed to close writer")
      | IDies BeforeCommit => (w, Died)
      | IDies AfterCommit => (committed, Died)
      | IDies AfterPrimary => (first, Died)
      | _ => (second, Finished 0)
      end
  end.

(** [source] is what the driver reads for the cursors of the state. *)
Definition incremental_attempt (source : State → list (gmap string any)) stream (now : gotime) w (f : ifault) : backfill_world * outcome_of :=
  let '(primaryCursor, secondaryCursor) := Cursor stream in
  match getIncrementCursorFromState primaryCursor secondaryCursor stream (b_state w) with
  | Err e => (w, Failed_with "failed to get incremental cursor value from state")
  | Panic m => (w, Died)
  | Ok (p, q) =>
      match f with
      | IOpen => (w, Failed_with "failed to create new writer thread")
      | _ =>
          let threadID := incrementalThreadID stream p q in
          let prev := open_writer (b_sink w) stream (incremental_options threadID) in
          match read_changes now stream prev threadID p q (source (b_state w)) with
          | None => (w, Died)
          | Some (Ok (p, q, raws)) =>
              match f with
              | IRead => (w, Failed_with "failed to read changes")
              | _ => finish_incremental stream threadID p q raws w f
              end
          | Some (Err e) => (w, Failed_with e)
          | Some (Panic m) => (w, Failed_with "panic recovered")
          end
      end
  end.
End Incremental.

(** ** drivers/abstract/cdc.go: the record of a change *)
Section Changes.
Context `{GoHash string} `{GoRange} `{GoEnv}.
Context (md5_hex : string → string).

Record CDCChange := mkChange {
  ch_Stream : ConfiguredStream; ch_Timestamp : gotime; ch_Kind : string;
  ch_Data : gmap string any; ch_ExtraColumns : gmap string any
}.

Definition mapChangeKindToOperationType (kind : string) (dedupInserts : bool) (stream : ConfiguredStream) : string :=
  if String.eqb kind "delete" then "d"
  else if ResolveUpsertOp stream then "u"
  else if String.eqb kind "update" then "u"
  else if dedupInserts then "i" else "c".

(** A fresh writer overlaps the backfill until its metadata says otherwise. *)
Definition dedup_of (writerMeta : option MetadataState) : bool :=
  match writerMeta with Some m => default true (DedupInserts m) | None => true end.

(** The closure passed to [StreamChanges]; extra columns replace the computed ones. *)
Definition change_record (now : gotime) (dedupInserts : bool) (change : CDCChange) : option RawRecord :=
  let stream := ch_Stream change in
  olakeID ← GetKeysHash md5_hex 2 (ch_Data change) (Array (s_SourceDefinedPrimaryKey (StreamOf stream)));
  let olakeColumns : gmap string any :=
    <[OlakeID := AString olakeID]>
    (<[OpType := AString (mapChangeKindToOperationType (ch_Kind change) dedupInserts stream)]>
    (<[CdcTimestamp := ATime (ch_Timestamp change)]> {[OlakeTimestamp := ATime now]})) in
  Some (mkRaw (RetainSelectedColumns stream (ch_Data change)) (ch_ExtraColumns change ∪ olakeColumns)).
End Changes.
