(* ===== verification/IncrementalFacts.v ===== *)
(** * Theorems about incremental sync: rows beyond the cursor arrive exactly once, across
    failures, restarts and filtered batches *)

From S2P Require Import Prelude GoString GoSet DataTypes QueryEngine Value ValueFacts Schema Stream StreamFacts Catalog State StateFacts TwoPC Fields Writers Utils Backfill Incremental.

(** What the destination promises for threads that are no backfill: the rows its filter
    keeps are appended to the table together with the metadata; without any such row
    nothing is committed (both the Parquet and the Iceberg writer skip empty commits). *)
Class CursorSink `{Sink} (keep : gmap string any → bool) := {
  delivered : sink → string → list (gmap string any);
  metadata : sink → string → option MetadataState;
  open_metadata k stream opts : open_writer k stream opts = metadata k (ID stream);
  commit_delivers k stream opts raws m :
    o_Backfill opts = false →
    delivered (commit k stream opts raws m) (ID stream) ≡ₚ delivered k (ID stream) ++ filter (λ d, keep d = true) (Data <$> raws);
  commit_nothing k stream opts raws m :
    o_Backfill opts = false → filter (λ d, keep d = true) (Data <$> raws) = [] →
    metadata (commit k stream opts raws m) (ID stream) = metadata k (ID stream);
  commit_metadata k stream opts raws m key t f :
    o_Backfill opts = false → filter (λ d, keep d = true) (Data <$> raws) ≠ [] → ms_State m = Some (SObject f) → f !! key = Some t →
    ∃ m' f', metadata (commit k stream opts raws (Some m)) (ID stream) = Some m' ∧ ms_ID m' = ms_ID m
             ∧ ms_State m' = Some (SObject f') ∧ f' !! key = Some t
}.

Section Facts.
Context {HS : GoHash string} {HC : GoHash Chunk} {HR : GoRange} {HE : GoEnv} {HJ : JsonCodec} {HT : JsonText} {HK : Sink}.
Context (keep : gmap string any → bool) {HKS : CursorSink keep}.
Context (md5_hex : string → string) (driver : DriverType) (time_format : string → gotime → string).
Context (stream : ConfiguredStream) (primary : string) (typ : DataType).
Notation format := (FormatCursorValue driver time_format).

(** A stored cursor, in memory or read back from a file. *)
Definition reps (c u : any) : Prop := u = format c ∨ u = json_any (format c).

(** The values of the cursor column: totally ordered by [Compare], told apart by their
    printed form, and unharmed by the formatting and the casts of the state. *)
Record cursor_domain (D : any → Prop) (rank : any → Z) : Prop := {
  cd_order a b : D a → D b → Compare a b = Ok (Z.sgn (rank a - rank b));
  cd_inj a b : D a → D b → rank a = rank b → a = b;
  cd_printed a b : D a → D b → fmt_v a = fmt_v b → a = b;
  cd_read c u : D c → reps c u → ReformatValue typ u = Ok c;
  cd_set c u : D c → reps c u → is_nil u = false;
  cd_plain c : D c → format (json_any (format c)) = json_any (format c);
  cd_text c u : D c → reps c u → is_Some (json_text u)
}.

Context (D : any → Prop) (rank : any → Z).
Hypothesis HD : cursor_domain D rank.
Hypothesis Hcursor : Cursor stream = (primary, "").
Hypothesis Hprimary : primary ≠ "" ∧ primary ≠ ChunksKey.
Hypothesis Htype : GetType (s_Schema (StreamOf stream)) primary = Ok typ.

(** ** The rows beyond the first cursor, in order of arrival *)
Context (c_init : any) (rows : list (gmap string any)) (source : nat → State → list (gmap string any)).
Definition key (r : gmap string any) : any := value_at r primary.
Hypothesis Hinit : D c_init.
Hypothesis Hrows : ∀ r, r ∈ rows → D (key r) ∧ rank c_init < rank (key r) ∧ ∀ now, is_Some (incremental_record md5_hex now stream r).

(** Rows that arrive later have greater cursors. *)
Definition cut (n : nat) : Prop :=
  ∀ i j r r', rows !! i = Some r → rows !! j = Some r' → (i < n ≤ j)%nat → rank (key r) < rank (key r').

(** The driver's query: the visible rows strictly beyond the cursor of the state. *)
Hypothesis Hsource : ∀ n s c, D c → reps c (cursor_value s stream primary) →
  source n s ≡ₚ filter (λ r, rank c < rank (key r)) (take n rows).

Implicit Types (w : backfill_world) (s : State) (c : any) (l : list (gmap string any)).

(** [c] is the greatest cursor of [l], or the first one. *)
Record is_top (c0 : any) l c : Prop := {
  it_origin : c = c0 ∨ ∃ r, r ∈ l ∧ c = key r;
  it_first : rank c0 ≤ rank c;
  it_bound : ∀ r, r ∈ l → rank (key r) ≤ rank c
}.

Lemma is_top_unique c0 l l' c c' :
  D c0 → (∀ r, r ∈ l → D (key r)) → l ≡ₚ l' → is_top c0 l c → is_top c0 l' c' → c = c'.
Proof.
  intros H0 Hl Hp [Ho Hf Hb] [Ho' Hf' Hb']. assert (D c) by (destruct Ho as [->|(r & ? & ->)]; auto).
  assert (D c') by (destruct Ho' as [->|(r & Hr & ->)]; [done|]; apply Hl; by rewrite Hp).
  apply (cd_inj _ _ HD); [done..|].
  assert (rank c ≤ rank c') by (destruct Ho as [->|(r & Hr & ->)]; [done|]; apply Hb'; by rewrite <- Hp).
  assert (rank c' ≤ rank c) by (destruct Ho' as [->|(r & Hr & ->)]; [done|]; apply Hb; by rewrite Hp). lia.
Qed.

Lemma fold_top l c :
  D c → (∀ r, r ∈ l → D (key r)) →
  ∃ c', foldM (λ pq r, getMaxIncrementCursorFromData primary "" pq.1 pq.2 r) (c, ANil) l = Ok (c', ANil) ∧ is_top c l c'.
Proof.
  revert c. induction l as [|r l IH]; intros c Hc Hl.
  - exists c. split; [done|]. split; [by left|done|by intros r ?%elem_of_nil].
  - cbn [foldM]. unfold getMaxIncrementCursorFromData at 1, greater. cbn [fst snd].
    assert (Hr : D (key r)) by (apply Hl; left). change (value_at r primary) with (key r).
    rewrite (cd_order _ _ HD _ _ Hr Hc). cbn [mbind result_bind String.eqb].
    set (c1 := if Z.sgn (rank (key r) - rank c) =? 1 then key r else c).
    assert (H1 : D c1 ∧ rank c ≤ rank c1 ∧ rank (key r) ≤ rank c1 ∧ (c1 = c ∨ c1 = key r)).
    { unfold c1. destruct (Z.eqb_spec (Z.sgn (rank (key r) - rank c)) 1); split_and!; auto; lia. }
    destruct H1 as (HD1 & Hle & Hle' & Hor).
    destruct (IH c1 HD1) as (c' & Hf & [Ho Hfst Hb]); [intros x Hx; apply Hl; by right|].
    exists c'. split; [exact Hf|]. split.
    + destruct Ho as [->|(x & Hx & ->)]; [|right; exists x; split; [by right|done]].
      destruct Hor as [->| ->]; [by left|]. right. exists r. split; [left|done].
    + lia.
    + intros x [->|Hx]%elem_of_cons; [lia|auto].
Qed.

(** ** The window of rows an attempt reads *)
Lemma rows_take n r : r ∈ take n rows → r ∈ rows.
Proof. intros Hr. rewrite <- (take_drop n rows). apply elem_of_app. by left. Qed.

Lemma top_D k c : is_top c_init (take k rows) c → D c.
Proof. intros [[->|(r & Hr & ->)] _ _]; [done|]. by apply Hrows, (rows_take k). Qed.

Lemma window k n c :
  (k ≤ n)%nat → cut k → is_top c_init (take k rows) c →
  filter (λ r, rank c < rank (key r)) (take n rows) = drop k (take n rows).
Proof.
  intros Hkn Hcut Htop. assert (take n rows = take k rows ++ drop k (take n rows)) as Hsplit.
  { rewrite <- (take_drop k (take n rows)) at 1. by rewrite take_take, Nat.min_l. }
  rewrite Hsplit at 1. rewrite filter_app.
  assert (filter (λ r, rank c < rank (key r)) (take k rows) = []) as ->.
  { apply filter_none, Forall_forall. intros r Hr. pose proof (it_bound _ _ _ Htop r Hr). lia. }
  cbn. apply filter_all, Forall_forall. intros r' Hr'.
  apply list_elem_of_lookup in Hr' as [j Hj]. rewrite lookup_drop in Hj. apply lookup_take_Some in Hj as [Hj _].
  destruct (it_origin _ _ _ Htop) as [->|(r & Hr & ->)].
  - apply Hrows. by eapply list_elem_of_lookup_2.
  - apply list_elem_of_lookup in Hr as [i Hi]. apply lookup_take_Some in Hi as [Hi ?]. apply (Hcut i (k + j)%nat); [done..|lia].
Qed.

Lemma top_extend k n c c' :
  (k ≤ n)%nat → is_top c_init (take k rows) c → is_top c (drop k (take n rows)) c' → is_top c_init (take n rows) c'.
Proof.
  intros Hkn [Ho Hf Hb] [Ho' Hf' Hb'].
  assert (take n rows = take k rows ++ drop k (take n rows)) as Hsplit.
  { rewrite <- (take_drop k (take n rows)) at 1. by rewrite take_take, Nat.min_l. }
  split; [|lia|].
  - destruct Ho' as [->|(r & Hr & ->)].
    + destruct Ho as [->|(r & Hr & ->)]; [by left|]. right. exists r. split; [|done]. rewrite Hsplit. apply elem_of_app. by left.
    + right. exists r. split; [|done]. rewrite Hsplit. apply elem_of_app. by right.
  - intros r Hr. rewrite Hsplit in Hr. apply elem_of_app in Hr as [Hr|Hr]; [|auto]. specialize (Hb r Hr). lia.
Qed.

(** ** The cursor in the state *)
Definition holds_cursor s c : Prop :=
  state_wf s ∧ ∃ e u, find_stream s stream = Some e ∧ HoldsValue e = true ∧ ss_State e !! primary = Some (SVal u) ∧ reps c u.

Lemma holds_value s c : holds_cursor s c → reps c (cursor_value s stream primary).
Proof.
  intros (_ & e & u & He & _ & Hu & Hr). destruct Hprimary as [Hne _]. apply String.eqb_neq in Hne.
  unfold cursor_value, GetCursor. by rewrite Hne, He, Hu.
Qed.

Lemma holds_get s c : D c → holds_cursor s c → getIncrementCursorFromState primary "" stream s = Ok (c, ANil).
Proof.
  intros Hc Hs. destruct Hprimary as [Hne _]. apply String.eqb_neq in Hne.
  unfold getIncrementCursorFromState, ReformatCursorValue. rewrite Hne, Htype. cbn [mbind result_bind].
  rewrite (cd_read _ _ HD c _ Hc (holds_value _ _ Hs)). done.
Qed.

Lemma SetCursor_cursor s c u : state_wf s → reps c u → holds_cursor (SetCursor s stream primary u) c.
Proof.
  intros Hwf Hr. destruct Hprimary as [Hne Hch]. apply String.eqb_neq in Hne. unfold SetCursor. rewrite Hne. split.
  - apply upsert_wf; [|done]. intros e. apply store_typed. by left.
  - eexists. exists u. rewrite find_upsert. case_decide as Hd; [|by destruct Hd]. split_and!; [done|done|cbn; by rewrite lookup_insert_eq|done].
Qed.

Lemma reload_cursor s c : holds_cursor s c → holds_cursor (unmarshal (marshal s)) c.
Proof.
  intros (Hwf & e & u & He & Hh & Hu & Hr). split; [by apply marshal_wf|].
  exists (unmarshal_stream (marshal_stream e)), (json_any u). split_and!.
  - by apply find_reload.
  - cbn. apply negb_true_iff, bool_decide_eq_false. intros Hn.
    assert ((marshal_value <$> ss_State e) !! primary = None) as Hx by (by rewrite Hn). by rewrite lookup_fmap, Hu in Hx.
  - by rewrite reload_map, Hu.
  - right. destruct Hr as [->| ->]; [done|apply json_decoded].
Qed.

(** ** Attempts *)
Definition thr (c : any) : string := incrementalThreadID stream c ANil.
Definition projected l : list (gmap string any) := filter (λ d, keep d = true) (RetainSelectedColumns stream <$> l).
Notation attempt_ w n now f := (incremental_attempt md5_hex driver time_format (source n) stream now w f) (only parsing).

Lemma thr_inj a b : D a → D b → thr a = thr b → a = b.
Proof.
  intros Ha Hb Heq. apply (cd_printed _ _ HD); [done..|]. revert Heq. unfold thr, incrementalThreadID, generateThreadID, Ternary.
  assert (∀ v, negb (String.eqb (fmt_v v +:+ "_" +:+ fmt_v ANil) "") = true) as Hne.
  { intros v. destruct (fmt_v v) as [|x t] eqn:E; rewrite ?E; done. }
  rewrite !Hne. intros Heq%string_app_inv_l%string_app_inv_l. by apply string_app_inv_r in Heq.
Qed.

Lemma SetMetadataState_one v t id :
  json_text v = Some t → SetMetadataState {[primary := v]} id = Some (mkMeta (Some id) (Some (SObject {[primary := t]})) [] None).
Proof. intros Ht. unfold SetMetadataState. rewrite map_to_list_singleton. cbn. by rewrite Ht. Qed.

(** The worlds a successful attempt can leave: unchanged, committed, or finished. *)
Definition committed_ w (id : string) (u : any) (raws : list RawRecord) (t : string) : backfill_world :=
  set_sink (commit (b_sink w) stream (incremental_options id) raws (Some (mkMeta (Some id) (Some (SObject {[primary := t]})) [] None))) w.
Definition finished_ w id u raws t : backfill_world :=
  logged (SetCursor (b_state w) stream primary u) (committed_ w id u raws t).

Lemma finish_cases w id p q raws f w' out t :
  json_text (format p) = Some t →
  finish_incremental driver time_format stream id p q raws w f = (w', out) →
  (out ≠ Finished 0 ∧ f ≠ INone ∧ (w' = w ∨ w' = committed_ w id (format p) raws t))
  ∨ w' = finished_ w id (format p) raws t ∧ (f = INone → out = Finished 0).
Proof.
  intros Ht. destruct Hprimary as [Hne _]. apply String.eqb_neq in Hne. unfold finish_incremental. rewrite Hcursor. cbn [String.eqb].
  rewrite (SetMetadataState_one _ t), Hne by done. destruct f as [| | |b|[]]; intros [= <- <-]; [by right..| | | |by right].
  - left. split_and!; [done..|]. destruct b; [by right|by left].
  - left. split_and!; [done..|by left].
  - left. split_and!; [done..|by right].
Qed.

(** ** The invariant *)
Section Run.
Context (T0 : list (gmap string any)) (empty : State).

Definition fresh_id (m : option MetadataState) c : Prop := ∀ m' c', m = Some m' → D c' → rank c ≤ rank c' → ms_ID m' ≠ Some (thr c').
Definition recorded (m : option MetadataState) c0 c : Prop :=
  ∃ m' f t, m = Some m' ∧ ms_ID m' = Some (thr c0) ∧ ms_State m' = Some (SObject f) ∧ f !! primary = Some t ∧ json_of t = json_any (format c).
Notation meta w := (metadata (b_sink w) (ID stream)).

(** Either the state has the cursor of the destination, or it is one commit behind and
    the destination's metadata tells so. *)
Definition in_step w c : Prop := fresh_id (meta w) c.
Definition one_behind w cs c : Prop := rank cs < rank c ∧ recorded (meta w) cs c.

Record iinv w (n k : nat) c cs : Prop := {
  ii_cut : cut k;
  ii_visible : cut n;
  ii_le : (k ≤ n)%nat;
  ii_top : is_top c_init (take k rows) c;
  ii_table : delivered (b_sink w) (ID stream) ≡ₚ T0 ++ projected (take k rows);
  ii_cs : D cs;
  ii_state : holds_cursor (b_state w) cs;
  ii_file : ∃ s0, b_file w = Some (marshal s0) ∧ holds_cursor s0 cs;
  ii_step : cs = c ∧ in_step w c ∨ one_behind w cs c
}.

Lemma restart_iinv w n k c cs : iinv w n k c cs → iinv (restart empty w) n k c cs.
Proof.
  intros [Hc Hv Hle Ht Hd Hcs Hs (s0 & Hf & Hs0) Hst]. split; try done.
  - unfold restart. rewrite Hf. cbn. by apply reload_cursor.
  - by exists s0.
Qed.

Lemma arrive_iinv w n n' k c cs : iinv w n k c cs → (n ≤ n')%nat → cut n' → iinv w n' k c cs.
Proof. intros [Hc Hv Hle Ht Hd Hcs Hs Hf Hst] Hn Hcut. split; try done. lia. Qed.

Lemma behind_fresh w cs c : D cs → one_behind w cs c → in_step w c.
Proof.
  intros Hcs [Hlt (m & f & t & Hm & Hid & _)] m' c' Hm' Hc' Hle Heq. rewrite Hm in Hm'. injection Hm' as <-.
  rewrite Hid in Heq. injection Heq as Heq%thr_inj; [|done..]. subst. lia.
Qed.

Lemma fresh_mono m c c' : fresh_id m c → rank c ≤ rank c' → fresh_id m c'.
Proof. intros Hf Hle m' x Hm Hx Hr. apply Hf; [done..|lia]. Qed.

(** A finished attempt stores the cursor in the state and its file. *)
Lemma finished_iinv w n k c cs id u raws t k' c' :
  iinv w n k c cs → reps c' u → (k' ≤ n)%nat → cut k' → is_top c_init (take k' rows) c' →
  delivered (b_sink (committed_ w id u raws t)) (ID stream) ≡ₚ T0 ++ projected (take k' rows) →
  in_step (committed_ w id u raws t) c' →
  iinv (finished_ w id u raws t) n k' c' c'.
Proof.
  intros [Hc Hv Hle Ht Hd Hcs Hs _ _] Hr Hk' Hcut' Htop' Htab Hstep.
  assert (Hset : holds_cursor (SetCursor (b_state w) stream primary u) c') by (apply SetCursor_cursor; [apply Hs|done]).
  split; try done; [by eapply top_D| |by left]. exists (SetCursor (b_state w) stream primary u). split; [|done].
  destruct Hset as (_ & e & _ & He & _). cbn. by eapply LogState_nonempty.
Qed.

Lemma read_recovered now m cs c l :
  D c → recorded m cs c → read_changes md5_hex now stream m (thr cs) cs ANil l = Some (Ok (json_any (format c), ANil, [])).
Proof.
  intros Hc (m' & fs & t & -> & Hid & Hst & Hf & Ht). destruct m' as [id st ids dd]. cbn in Hid, Hst. subst id st.
  unfold read_changes. rewrite Hcursor, String.eqb_refl. unfold recover_cursors. rewrite Hf, Ht.
  rewrite (cd_set _ _ HD c); [done|done|by right].
Qed.

Lemma read_fresh now m c l :
  D c → fresh_id m c →
  read_changes md5_hex now stream m (thr c) c ANil l =
  (raws ← mapM (incremental_record md5_hex now stream) l;
   Some ('(p, q) ← foldM (λ pq r, getMaxIncrementCursorFromData primary "" pq.1 pq.2 r) (c, ANil) l; Ok (p, q, raws))).
Proof.
  intros Hc Hf. unfold read_changes. rewrite Hcursor. destruct m as [[[id|] [st|] ids dd]|]; try done.
  destruct (String.eqb (thr c) id) eqn:E; [|done]. apply String.eqb_eq in E. subst id. by destruct (Hf _ c eq_refl Hc (Z.le_refl _)).
Qed.

Lemma records_data now l raws : mapM (incremental_record md5_hex now stream) l = Some raws → Data <$> raws = RetainSelectedColumns stream <$> l.
Proof.
  intros Hm%mapM_Some. induction Hm as [|r raw l raws Hr _ IH]; [done|]. cbn. rewrite IH. f_equal.
  unfold incremental_record in Hr. destruct (GetKeysHash _ _ _ _); [|done]. by injection Hr as <-.
Qed.

Lemma records_readable now n s c : D c → reps c (cursor_value s stream primary) → is_Some (mapM (incremental_record md5_hex now stream) (source n s)).
Proof.
  intros Hc Hr. apply mapM_is_Some, Forall_forall. intros r Hin. rewrite (Hsource n s c Hc Hr) in Hin.
  apply list_elem_of_filter in Hin as [_ Hin]. by apply Hrows, (rows_take n).
Qed.

(** What an attempt in step reads: the records of the window and its top cursor. *)
Lemma read_window now w n k c :
  iinv w n k c c → in_step w c →
  ∃ raws c', read_changes md5_hex now stream (meta w) (thr c) c ANil (source n (b_state w)) = Some (Ok (c', ANil, raws))
  ∧ is_top c_init (take n rows) c' ∧ rank c ≤ rank c' ∧ (projected (drop k (take n rows)) ≠ [] → rank c < rank c')
  ∧ filter (λ d, keep d = true) (Data <$> raws) ≡ₚ projected (drop k (take n rows)).
Proof.
  intros [Hcut Hv Hle Htop Htab Hc Hs _ _] Hfresh. pose proof (holds_value _ _ Hs) as Hr. rewrite read_fresh by done.
  destruct (records_readable now n _ _ Hc Hr) as [raws Hraws]. rewrite Hraws. cbn [mbind option_bind].
  pose proof (Hsource n _ _ Hc Hr) as Hperm. rewrite (window k n c) in Hperm by done.
  assert (HDl : ∀ r, r ∈ source n (b_state w) → D (key r)).
  { intros r Hin. rewrite Hperm in Hin. apply Hrows, (rows_take n). rewrite <- (take_drop k (take n rows)). apply elem_of_app. by right. }
  destruct (fold_top (source n (b_state w)) c Hc HDl) as (c' & -> & Htop'). cbn [mbind result_bind].
  assert (Htop2 : is_top c (drop k (take n rows)) c').
  { destruct Htop' as [Ho Hf Hb]. split; [|done|]; [destruct Ho as [->|(r & Hr' & ->)]; [by left|right; exists r; by rewrite <- Hperm]|].
    intros r Hr'. apply Hb. by rewrite Hperm. }
  exists raws, c'. split_and!; [done|by eapply top_extend|apply Htop2| |].
  - intros Hne. destruct (drop k (take n rows)) as [|r l] eqn:El; [done|]. pose proof (it_bound _ _ _ Htop2 r ltac:(left)).
    assert (r ∈ filter (λ r, rank c < rank (key r)) (take n rows)) as [? _]%list_elem_of_filter; [|lia].
    rewrite (window k n c) by done. rewrite El. left.
  - rewrite (records_data _ _ _ Hraws). unfold projected. by rewrite Hperm.
Qed.

Lemma projected_split k n : (k ≤ n)%nat → projected (take n rows) = projected (take k rows) ++ projected (drop k (take n rows)).
Proof.
  intros Hle. unfold projected. rewrite <- filter_app, <- fmap_app. do 2 f_equal.
  rewrite <- (take_drop k (take n rows)) at 1. by rewrite take_take, Nat.min_l.
Qed.

(** The two kinds of attempt that get as far as closing the writer. *)
Lemma behind_attempt w n k c cs id t :
  iinv w n k c cs → one_behind w cs c → json_text (json_any (format c)) = Some t →
  iinv (committed_ w id (json_any (format c)) [] t) n k c cs ∧ iinv (finished_ w id (json_any (format c)) [] t) n k c c.
Proof.
  intros Hinv Hb Ht.
  assert (Hmeta : meta (committed_ w id (json_any (format c)) [] t) = meta w) by (by apply commit_nothing).
  assert (Htab : delivered (b_sink (committed_ w id (json_any (format c)) [] t)) (ID stream) ≡ₚ T0 ++ projected (take k rows)).
  { cbn. rewrite commit_delivers by done. cbn. rewrite app_nil_r. apply (ii_table _ _ _ _ _ Hinv). }
  split.
  - destruct Hinv. split; try done. right. by destruct Hb; split; [|rewrite Hmeta].
  - eapply finished_iinv; [done|by right|apply Hinv..|done|]. unfold in_step. rewrite Hmeta. eapply behind_fresh; [|done]. apply Hinv.
Qed.

Lemma in_step_attempt w n k c c' raws t :
  iinv w n k c c → in_step w c → json_text (format c') = Some t →
  is_top c_init (take n rows) c' → rank c ≤ rank c' → (projected (drop k (take n rows)) ≠ [] → rank c < rank c') →
  filter (λ d, keep d = true) (Data <$> raws) ≡ₚ projected (drop k (take n rows)) →
  (∃ k' c1, iinv (committed_ w (thr c) (format c') raws t) n k' c1 c ∧ (k ≤ k')%nat)
  ∧ iinv (finished_ w (thr c) (format c') raws t) n n c' c'.
Proof.
  intros Hinv Hstep Ht Htop' Hle Hlt Hraws. pose proof (ii_le _ _ _ _ _ Hinv) as Hkn. set (w1 := committed_ w (thr c) (format c') raws t).
  assert (Htab : delivered (b_sink w1) (ID stream) ≡ₚ T0 ++ projected (take n rows)).
  { cbn. rewrite commit_delivers by done. rewrite Hraws, (ii_table _ _ _ _ _ Hinv), (projected_split k n) by done. by rewrite app_assoc. }
  assert (Hor : projected (drop k (take n rows)) = [] ∧ meta w1 = meta w ∨ rank c < rank c' ∧ recorded (meta w1) c c').
  { destruct (projected (drop k (take n rows))) as [|d l] eqn:E.
    - left. split; [done|]. apply Permutation_nil_r in Hraws. by apply commit_nothing.
    - right. split; [by apply Hlt|].
      destruct (commit_metadata (b_sink w) stream (incremental_options (thr c)) raws
        (mkMeta (Some (thr c)) (Some (SObject {[primary := t]})) [] None) primary t {[primary := t]}) as (m' & f' & Hm & Hid & Hst & Hf).
      + done.
      + intros Hn. rewrite Hn in Hraws. by apply Permutation_nil_l in Hraws.
      + done.
      + by rewrite lookup_singleton_eq.
      + exists m', f', t. split_and!; [done|by rewrite Hid|done..|by apply json_of_text]. }
  split.
  - destruct Hor as [[Hnil Hm]|Hbehind].
    + exists k, c. split; [|done]. destruct Hinv. split; try done; [|left; split; [done|]; unfold in_step; by rewrite Hm].
      by rewrite Htab, (projected_split k n), Hnil, app_nil_r.
    + exists n, c'. split; [|done]. destruct Hinv. split; try done. by right.
  - eapply finished_iinv; [done|by left|done|apply Hinv|done|done|].
    destruct Hor as [[_ Hm]|Hbehind]; [|eapply behind_fresh; [apply Hinv|exact Hbehind]].
    unfold in_step. fold w1. rewrite Hm. by eapply fresh_mono.
Qed.

Lemma attempt_iinv w n k c cs now f w' out :
  iinv w n k c cs → attempt_ w n now f = (w', out) →
  ∃ k' c' cs', iinv w' n k' c' cs' ∧ (k ≤ k')%nat ∧ (f = INone → out = Finished 0)
  ∧ (out = Finished 0 → cs' = c' ∧ (in_step w cs → k' = n)).
Proof.
  intros Hinv. assert (Hc : D c) by (eapply top_D, Hinv). pose proof (ii_cs _ _ _ _ _ Hinv) as Hcs.
  unfold incremental_attempt. rewrite Hcursor, (holds_get _ cs Hcs (ii_state _ _ _ _ _ Hinv)), open_metadata.
  change (incrementalThreadID stream cs ANil) with (thr cs). intros Ha.
  assert (Hgoal : ∀ p raws t k1 c1 k2 c2, json_text (format p) = Some t →
    read_changes md5_hex now stream (meta w) (thr cs) cs ANil (source n (b_state w)) = Some (Ok (p, ANil, raws)) →
    iinv (committed_ w (thr cs) (format p) raws t) n k1 c1 cs → (k ≤ k1)%nat →
    iinv (finished_ w (thr cs) (format p) raws t) n k2 c2 c2 → (k ≤ k2)%nat → (in_step w cs → k2 = n) →
    ∃ k' c' cs', iinv w' n k' c' cs' ∧ (k ≤ k')%nat ∧ (f = INone → out = Finished 0) ∧ (out = Finished 0 → cs' = c' ∧ (in_step w cs → k' = n))).
  { intros p raws t k1 c1 k2 c2 Ht Hread Hcom Hk1 Hfin Hk2 Hn. rewrite Hread in Ha.
    destruct f as [| | |b|b]; try (injection Ha as <- <-; exists k, c, cs; split_and!; done);
      (destruct (finish_cases _ _ _ _ _ _ _ _ _ Ht Ha) as [(Ho & Hne & [->| ->])|[-> Ho]];
       [exists k, c, cs; split_and!; done|exists k1, c1, cs; split_and!; done|exists k2, c2, c2; split_and!; done]). }
  destruct (ii_step _ _ _ _ _ Hinv) as [[-> Hstep]|Hb].
  - destruct (read_window now w n k c Hinv Hstep) as (raws & c' & Hread & Htop & Hle & Hlt & Hraws).
    destruct (cd_text _ _ HD c' (format c')) as [t Ht]; [by eapply top_D|by left|].
    destruct (in_step_attempt w n k c c' raws t Hinv Hstep Ht Htop Hle Hlt Hraws) as [(k1 & c1 & Hcom & Hk1) Hfin].
    eapply Hgoal; [done..|apply Hinv|done].
  - destruct (cd_text _ _ HD c (json_any (format c)) Hc) as [t Ht]; [by right|]. pose proof (cd_plain _ _ HD c Hc) as Hp.
    destruct (behind_attempt w n k c cs (thr cs) t Hinv Hb Ht) as [Hcom Hfin]. rewrite <- Hp in Ht, Hcom, Hfin.
    eapply Hgoal; [done|apply read_recovered; [done|apply Hb]|done|done|done|done|].
    intros Hstep. destruct Hb as [_ (m & fs & t' & Hm & Hid & _)]. by destruct (Hstep m cs Hm Hcs (Z.le_refl _)).
Qed.

(** Steps of any number of processes: rows arrive, an attempt at any fault, a process dies
    and a new one starts from the state file. *)
Inductive istep : backfill_world * nat → backfill_world * nat → Prop :=
| istep_arrive w n n' : (n ≤ n')%nat → cut n' → istep (w, n) (w, n')
| istep_attempt w n now f w' out :
    attempt_ w n now f = (w', out) → istep (w, n) (match out with Died => restart empty w' | _ => w' end, n)
| istep_killed w n : istep (w, n) (restart empty w, n).

(** A stream whose first cursor is stored and whose destination has not used it yet. *)
Record fresh_cursor w : Prop := {
  fc_state : holds_cursor (b_state w) c_init;
  fc_file : b_file w = Some (marshal (b_state w));
  fc_table : delivered (b_sink w) (ID stream) = T0;
  fc_ids : fresh_id (meta w) c_init
}.

Lemma fresh_iinv w : fresh_cursor w → iinv w 0 0 c_init c_init.
Proof.
  intros [Hs Hf Ht Hi]. assert (cut 0) by (intros i j r r' _ _ ?; lia).
  split; [done..| |cbn; by rewrite Ht, app_nil_r|done|done|by exists (b_state w)|by left].
  split; [by left|done|by intros r ?%elem_of_nil].
Qed.

Lemma step_iinv w n k c cs wn' : iinv w n k c cs → istep (w, n) wn' → ∃ k' c' cs', iinv wn'.1 wn'.2 k' c' cs' ∧ (k ≤ k')%nat.
Proof.
  intros Hinv Hstep. inversion Hstep as [w1 n1 n' Hn Hcut|w1 n1 now f w' out Ha|w1 n1]; subst.
  - exists k, c, cs. split; [by eapply arrive_iinv|done].
  - destruct (attempt_iinv _ _ _ _ _ _ _ _ _ Hinv Ha) as (k' & c' & cs' & Hinv' & Hk & _). exists k', c', cs'. split; [|done].
    destruct out; [done..|]. by apply restart_iinv.
  - exists k, c, cs. split; [by apply restart_iinv|done].
Qed.

Lemma reachable_iinv w wn : fresh_cursor w → rtc istep (w, 0%nat) wn → ∃ k c cs, iinv wn.1 wn.2 k c cs.
Proof.
  intros Hf Hr. assert (∃ k c cs, iinv (w, 0%nat).1 (w, 0%nat).2 k c cs) as Hi by (eauto using fresh_iinv). clear Hf.
  induction Hr as [|[w0 n0] wn1 wn2 Hstep _ IH]; [done|]. destruct Hi as (k & c & cs & Hi). apply IH.
  destruct (step_iinv _ _ _ _ _ _ Hi Hstep) as (k' & c' & cs' & ? & _). eauto.
Qed.

(** C4: incremental sync delivers every row exactly once, for one cursor column whose values
    survive the state file and with rows arriving in cursor order.  Attempts fail or
    processes die at any point -- before or after the commit, before the state file is
    written -- and new processes start from the file.  Then the table always holds, besides
    what it held before, exactly the selected columns of a prefix of the arrived rows that
    pass the stream's filter, each once; and an attempt without fault finishes: at most two
    of them bring the table up to all rows that have arrived.  [cursor_domain] states what
    is asked of the values: totally ordered by [Compare], told apart by their text, and
    read back from the state, in memory or through JSON, as they were (text is; an int64
    beyond 2^53 is rounded by JSON and is not); [cut] that rows arriving later have greater
    cursors.  The column is not called "chunks". *)
Theorem incremental_exactly_once w w' n :
  fresh_cursor w → rtc istep (w, 0%nat) (w', n) →
  ∃ k, (k ≤ n)%nat ∧ delivered (b_sink w') (ID stream) ≡ₚ T0 ++ projected (take k rows)
  ∧ ∀ now now', ∃ w1 w2, attempt_ w' n now INone = (w1, Finished 0) ∧ attempt_ w1 n now' INone = (w2, Finished 0)
    ∧ delivered (b_sink w2) (ID stream) ≡ₚ T0 ++ projected (take n rows).
Proof.
  intros Hf Hr. destruct (reachable_iinv _ _ Hf Hr) as (k & c & cs & Hinv). cbn in Hinv. exists k. split_and!; [apply Hinv..|].
  intros now now'. destruct (attempt_ w' n now INone) as [w1 out1] eqn:E1.
  destruct (attempt_iinv _ _ _ _ _ _ _ _ _ Hinv E1) as (k1 & c1 & cs1 & Hinv1 & _ & Ho1 & Hd1). rewrite (Ho1 eq_refl) in *.
  destruct (Hd1 eq_refl) as [-> _]. exists w1. destruct (attempt_ w1 n now' INone) as [w2 out2] eqn:E2.
  destruct (attempt_iinv _ _ _ _ _ _ _ _ _ Hinv1 E2) as (k2 & c2 & cs2 & Hinv2 & _ & Ho2 & Hd2). rewrite (Ho2 eq_refl) in *.
  exists w2. split_and!; [done..|]. destruct (Hd2 eq_refl) as [_ Hn]. destruct (ii_step _ _ _ _ _ Hinv1) as [[_ Hst]|[Hlt _]]; [|lia].
  rewrite <- (Hn Hst). apply Hinv2.
Qed.
End Run.
End Facts.

(** ** Witness: a text cursor column; the first process dies right after its commit *)
Section Witness.
#[local] Instance wi_hash : GoHash string := ws_hash.
#[local] Instance wi_chunk_hash : GoHash Chunk := ws_chunk_hash.
#[local] Instance wi_range : GoRange := sorted_range.
#[local] Instance wi_env : GoEnv := bare_env.
#[local] Instance wi_json : JsonCodec := ws_json.
#[local] Instance wi_text : JsonText.
Proof. refine {| json_text v := match v with AString s => Some s | _ => None end; json_of s := AString s |}. intros v t0 Ht; destruct v; try discriminate Ht. by injection Ht as <-. Defined.

Definition table_of (k : gmap string (list (gmap string any) * option MetadataState)) (id : string) : list (gmap string any) * option MetadataState :=
  default ([], None) (k !! id).
#[local] Instance wi_sink : Sink := {|
  sink := gmap string (list (gmap string any) * option MetadataState);
  open_writer k stream _ := (table_of k (ID stream)).2;
  commit k stream _ raws m :=
    match raws with [] => k | _ => <[ID stream := ((table_of k (ID stream)).1 ++ (Data <$> raws), m)]> k end |}.
#[local] Instance wi_sink_spec : CursorSink (λ _, true).
Proof.
  refine {| delivered k id := (table_of k id).1; metadata k id := (table_of k id).2 |}; [done|..].
  - intros k stream opts raws m _. rewrite filter_all by (by apply Forall_forall). destruct raws as [|r raws]; [cbn; by rewrite app_nil_r|].
    cbn. unfold table_of at 1. by rewrite lookup_insert_eq.
  - intros k stream opts raws m _. rewrite filter_all by (by apply Forall_forall). by destruct raws.
  - intros k stream opts raws m key t f _ Hne Hs Hf. exists m, f. split_and!; [|done..]. destruct raws as [|r raws]; [done|].
    cbn. unfold table_of. by rewrite lookup_insert_eq.
Defined.

Definition events : ConfiguredStream :=
  let p := mkProperty (NewSet [String_]) "id" false in
  mkConfigured (mkMetadata "" "" "events" false true "" false "" None None None)
    (mkStream "events" "public" {["Id" := p]} (mkGoSet ∅ ∅ None) [] (mkGoSet ∅ ∅ None) (mkGoSet ∅ ∅ None) "" "Id" INCREMENTAL "" "" None).

Definition letters (v : any) : Prop := v = AString "a" ∨ v = AString "b".
Definition letter_rank (v : any) : Z := match v with AString s => if String.eqb s "b" then 2 else 1 | _ => 0 end.
Definition new_rows : list (gmap string any) := [{["Id" := AString "b"]}].
Definition beyond (n : nat) (s : State) : list (gmap string any) :=
  filter (λ r, letter_rank (cursor_value s events "Id") < letter_rank (key "Id" r)) (take n new_rows).
Notation no_format := (λ (_ : string) (_ : gotime), "") (only parsing).

Lemma letters_domain : cursor_domain MySQL no_format String_ letters letter_rank.
Proof.
  split.
  - by intros a b [->| ->] [->| ->].
  - by intros a b [->| ->] [->| ->].
  - by intros a b [->| ->] [->| ->].
  - by intros c u [->| ->] [->| ->].
  - by intros c u [->| ->] [->| ->].
  - by intros c [->| ->].
  - intros c u [->| ->] [->| ->]; by eexists.
Qed.

Definition event_start : backfill_world :=
  let s := SetCursor (empty_state StreamType) events "Id" (AString "a") in mkBackfill s (Some (marshal s)) ∅ [].
Definition event_died : backfill_world :=
  restart (empty_state StreamType) (incremental_attempt (λ s, s) MySQL no_format (beyond 1) events epoch event_start (IDies AfterCommit)).1.

Lemma event_reached : rtc (istep (λ s, s) MySQL no_format events "Id" letter_rank new_rows beyond (empty_state StreamType))
  (event_start, 0%nat) (event_died, 1%nat).
Proof.
  eapply rtc_l.
  { apply (istep_arrive _ _ _ _ _ _ _ _ _ event_start 0 1); [lia|]. intros [|i] [|j] r r' Hi Hj ?; [lia|done|done|done]. }
  eapply rtc_l; [|apply rtc_refl].
  apply (istep_attempt _ _ _ _ _ _ _ _ _ event_start 1 epoch (IDies AfterCommit)
    (incremental_attempt (λ s, s) MySQL no_format (beyond 1) events epoch event_start (IDies AfterCommit)).1 Died).
  assert (∀ {A B} (x : A * B) b, x.2 = b → x = (x.1, b)) as Hpair by (intros A B [x1 x2] x3 Hx; cbn in *; by rewrite Hx). apply Hpair. vm_compute. reflexivity.
Qed.

Lemma incremental_exactly_once_witness :
  delivered event_start.(b_sink) "public.events" = []
  ∧ ∃ w1 w2, incremental_attempt (λ s, s) MySQL no_format (beyond 1) events epoch event_died INone = (w1, Finished 0)
    ∧ incremental_attempt (λ s, s) MySQL no_format (beyond 1) events epoch w1 INone = (w2, Finished 0)
    ∧ delivered (b_sink w2) "public.events" ≡ₚ new_rows.
Proof.
  destruct (incremental_exactly_once (λ _, true) (λ s, s) MySQL no_format events "Id" String_ letters letter_rank letters_domain
    ltac:(reflexivity) ltac:(split; discriminate) ltac:(vm_compute; reflexivity) (AString "a") new_rows beyond ltac:(by left)
    ltac:(intros r Hr%list_elem_of_singleton; subst r; split_and!; [by right|reflexivity|intros now; by eexists])
    ltac:(intros n s c [->| ->] [Hc|Hc]; unfold beyond; rewrite Hc; reflexivity) [] (empty_state StreamType)
    event_start event_died 1) as (k & _ & _ & Hruns).
  - split; [|reflexivity|reflexivity|intros m' c' [=]].
    apply (SetCursor_cursor _ _ _ "Id"); [split; discriminate|split; constructor|by left].
  - exact event_reached.
  - split; [reflexivity|]. destruct (Hruns epoch epoch) as (w1 & w2 & Ha1 & Ha2 & Hd). exists w1, w2. split_and!; [exact Ha1|exact Ha2|].
    exact Hd.
Defined.
End Witness.
