(* ===== verification/Ranges.v ===== *)
(** * Ranges between consecutive boundaries

    A list of boundaries cuts an ordered key space into half-open ranges, the first and
    the last unbounded.  A key is given by the boundaries it lies below. *)

From S2P Require Import Prelude.
From stdpp Require Import sorting.
#[local] Open Scope Z_scope.

Section Ranges.
Context {K : Type}.
Implicit Types (k : K) (ks : list K) (lo : option K) (p : K → bool).

Fixpoint chain_from lo ks : list (option K * option K) :=
  match ks with
  | [] => [(lo, None)]
  | k :: ks => (lo, Some k) :: chain_from (Some k) ks
  end.
Definition chain ks : list (option K * option K) := chain_from None ks.

(** [p k]: the key lies below [k]. *)
Definition inside p (r : option K * option K) : bool :=
  match r.1 with Some k => negb (p k) | None => true end && match r.2 with Some k => p k | None => true end.

Definition rising p ks : Prop := Sorted (λ a b, p a = true → p b = true) ks.

Lemma rising_intro p (P : K → Prop) (R : relation K) ks :
  Forall P ks → Sorted R ks → (∀ a b, P a → P b → R a b → p a = true → p b = true) → rising p ks.
Proof.
  intros HP Hs HR. induction Hs as [|k ks Hs IH Hk]; [constructor|]. apply Forall_cons in HP as [Hk0 HP]. constructor; [by apply IH|].
  destruct Hk as [|k' ks Hk]; constructor. apply Forall_cons in HP as [? _]. eauto.
Qed.

Lemma chain_below p k ks i r : rising p (k :: ks) → p k = true → chain_from (Some k) ks !! i = Some r → inside p r = false.
Proof.
  revert k i. induction ks as [|k' ks IH]; intros k [|i] Hs Hp; cbn; intros Hr.
  - injection Hr as <-. unfold inside. cbn. by rewrite Hp.
  - done.
  - injection Hr as <-. unfold inside. cbn. by rewrite Hp.
  - apply Sorted_inv in Hs as [Hs Hk]. inversion Hk as [|? ? Hkk]; subst. eapply IH; eauto.
Qed.

Lemma chain_from_partition p lo ks :
  match lo with Some k => p k = false ∧ rising p (k :: ks) | None => rising p ks end →
  ∃ i r, chain_from lo ks !! i = Some r ∧ inside p r = true ∧ ∀ j r', chain_from lo ks !! j = Some r' → inside p r' = true → j = i.
Proof.
  revert lo. induction ks as [|k ks IH]; intros lo Hlo.
  - exists 0%nat, (lo, None). split_and!; [done| |intros [|j] r'; done]. unfold inside. cbn. destruct lo as [k|]; [|done].
    destruct Hlo as [-> _]. done.
  - assert (Hks : rising p (k :: ks)) by (destruct lo as [k0|]; [destruct Hlo as [_ Hs]; by apply Sorted_inv in Hs as [? _]|done]).
    destruct (p k) eqn:Ek.
    + exists 0%nat, (lo, Some k). split_and!; [done| |].
      * unfold inside. cbn. rewrite Ek. destruct lo as [k0|]; [|done]. by destruct Hlo as [-> _].
      * intros [|j] r' Hr Hin; [done|]. cbn in Hr. rewrite (chain_below p k ks j r') in Hin; done.
    + destruct (IH (Some k)) as (i & r & Hr & Hin & Hu); [done|]. exists (S i), r. split_and!; [done..|].
      intros [|j] r' Hr' Hin'; [|f_equal; by eapply Hu]. cbn in Hr'. injection Hr' as <-. unfold inside in Hin'. cbn in Hin'.
      rewrite Ek, andb_false_r in Hin'. done.
Qed.

Lemma chain_partition p ks :
  rising p ks → ∃ i r, chain ks !! i = Some r ∧ inside p r = true ∧ ∀ j r', chain ks !! j = Some r' → inside p r' = true → j = i.
Proof. intros Hs. by apply (chain_from_partition p None). Qed.

Lemma chain_from_bounds lo ks r :
  r ∈ chain_from lo ks → (r.1 = lo ∨ ∃ k, r.1 = Some k ∧ k ∈ ks) ∧ (r.2 = None ∨ ∃ k, r.2 = Some k ∧ k ∈ ks).
Proof.
  revert lo. induction ks as [|k ks IH]; intros lo; cbn.
  - intros ->%list_elem_of_singleton. split; by left.
  - intros [->|Hr]%elem_of_cons; [split; [by left|right; exists k; split; [done|left]]|].
    destruct (IH _ Hr) as [[->|(k1 & -> & ?)] Hu]; (split; [right; eexists; split; [done|]; first [left|by right]|]);
      (destruct Hu as [->|(k2 & -> & ?)]; [by left|right; eexists; split; [done|by right]]).
Qed.

Lemma chain_bounds ks r : r ∈ chain ks → ∀ k, r.1 = Some k ∨ r.2 = Some k → k ∈ ks.
Proof. intros Hr k. destruct (chain_from_bounds None ks r Hr) as [[->|(k1 & -> & ?)] [->|(k2 & -> & ?)]]; intros [?|?]; simplify_eq; done. Qed.

Lemma chain_range ks r : ks ≠ [] → r ∈ chain ks → r.1 ≠ None ∨ r.2 ≠ None.
Proof.
  destruct ks as [|k ks]; [done|]. intros _. unfold chain. cbn. intros [->|Hr]%elem_of_cons; [by right|]. left.
  clear -Hr. revert k Hr. induction ks as [|k' ks IH]; intros k; cbn; [by intros ->%list_elem_of_singleton|].
  intros [->|Hr]%elem_of_cons; [done|by eapply IH].
Qed.
End Ranges.
