(* ===== verification/Jdbc.v ===== *)
(** * pkg/jdbc/jdbc.go: the SQL the relational drivers send

    The functions that compute conditions and queries: identifier quoting, placeholders,
    chunk scans, chunk boundaries, stream filters and cursor conditions.  A run of white
    space in a query is written as one space.  Queries of the system catalogs, which are
    constant texts, are left out. *)

From S2P Require Import Prelude GoString GoSet DataTypes QueryEngine Value Schema Stream Catalog State.

Definition cat (l : list string) : string := foldr String.app "" l.
Definition dq : string := String (ascii_of 34) "".
Definition DriversRequiringIncrementalFormatter : list DriverType := [Oracle; DB2; MSSQL].

(** [strings.ReplaceAll] of one byte. *)
Fixpoint ReplaceByte (a : ascii) (by_ : string) (s : string) : string :=
  match s with
  | EmptyString => ""
  | String b s' => (if Ascii.eqb b a then by_ else String b "") +:+ ReplaceByte a by_ s'
  end.
Definition escape_quotes (s : string) : string := ReplaceByte (ascii_of 39) "''" s.

Fixpoint HasSuffixByte (a : ascii) (s : string) : bool :=
  match s with EmptyString => false | String b EmptyString => Ascii.eqb b a | String _ s' => HasSuffixByte a s' end.

(** [strings.EqualFold] against an ASCII word without i: the long s folds to s. *)
Definition EqualFold (s word : string) : bool :=
  String.eqb (string_of (concat ((λ r, encode_rune (if r =? 383 then 115 else lower_rune r)) <$> rune_list s))) (ToLower word).

(** [strings.ToUpper], as far as an ASCII word in the result shows. *)
Definition upper_rune (r : Z) : Z :=
  if in_range 97 122 r then r - 32 else if r =? 383 then 83 else if r =? 305 then 73 else r.
Definition ToUpper (s : string) : string := string_of (concat (encode_rune ∘ upper_rune <$> rune_list s)).

Section Jdbc.
Context `{GoHash string} `{GoHash Chunk} `{GoRange} `{GoEnv}.
(** [unicode.IsPrint] beyond ASCII; [strconv.FormatFloat(v, 'f', -1, 64)]; [time.Format]. *)
Context (is_print : Z → bool) (format_float : spec_float → string) (time_format : string → gotime → string).
Implicit Types (stream : ConfiguredStream) (driver : DriverType) (chunk : Chunk).

(** ** [fmt.Sprintf("%q", s)]: Go quoting *)
Definition hex_digit (d : Z) : Z := if d <? 10 then 48 + d else 87 + d.
Definition hex_digits (n : nat) (r : Z) : list Z := (λ i, hex_digit ((r / 16 ^ Z.of_nat i) mod 16)) <$> reverse (seq 0 n).

Definition quote_rune (rb : Z * list Z) : list Z :=
  let '(r, bs) := rb in
  if (r =? RuneError) && (Z.of_nat (length bs) =? 1) then [92; 120] ++ hex_digits 2 (default 0 (head bs))
  else if (r =? 34) || (r =? 92) then [92; r]
  else if in_range 32 126 r || (128 <=? r) && is_print r then bs
  else if r =? 7 then [92; 97] else if r =? 8 then [92; 98] else if r =? 12 then [92; 102]
  else if r =? 10 then [92; 110] else if r =? 13 then [92; 114] else if r =? 9 then [92; 116] else if r =? 11 then [92; 118]
  else if (r <? 32) || (r =? 127) then [92; 120] ++ hex_digits 2 r
  else if r <? 65536 then [92; 117] ++ hex_digits 4 r
  else [92; 85] ++ hex_digits 8 r.
Definition Quote (s : string) : string := dq +:+ string_of (concat (quote_rune <$> runes (bytes_of s))) +:+ dq.

(** ** Identifiers and placeholders *)
Definition QuoteIdentifier (identifier : string) driver : string :=
  if contains [MySQL] driver then "`" +:+ identifier +:+ "`"
  else if contains [Postgres; DB2; Oracle] driver then Quote identifier
  else if contains [MSSQL] driver then "[" +:+ identifier +:+ "]"
  else identifier.

Definition GetPlaceholder driver (i : Z) : string :=
  if contains [MySQL; DB2] driver then "?"
  else if contains [Postgres] driver then "$" +:+ fmt_d i
  else if contains [Oracle] driver then ":" +:+ fmt_d i
  else if contains [MSSQL] driver then "@p" +:+ fmt_d i
  else "?".

Definition QuoteTable (schema table : string) driver : string := QuoteIdentifier schema driver +:+ "." +:+ QuoteIdentifier table driver.
Definition QuoteColumns (columns : list string) driver : list string := (λ col, QuoteIdentifier col driver) <$> columns.
Definition quoted_table stream driver : string := QuoteTable (Namespace stream) (Name stream) driver.

(** [utils.ConvertToString] *)
Definition ConvertToString (value : any) : string := match value with ABytes s | AString s => s | _ => fmt_v value end.

(** ** Chunk conditions over several columns *)
Definition formatSQLLiteral (str : string) : string := "'" +:+ escape_quotes str +:+ "'".

Definition splitBoundaryValues (boundary : any) : list string :=
  match boundary with ANil => [] | _ => TrimSpace <$> Split "," (ConvertToString boundary) end.

Definition lower_op (ncols colIdx : nat) : string := if Nat.eqb (S colIdx) ncols then ">=" else ">".

(** One disjunct: the columns before [colIdx] equal their values. *)
Definition bound_group (quotedColumns values : list string) (isLower : bool) (colIdx : nat) : option string :=
  let prefix := zip_with (λ c v, c +:+ " = " +:+ formatSQLLiteral v) (take colIdx quotedColumns) values in
  let op := if isLower then lower_op (length quotedColumns) colIdx else "<" in
  let last := match quotedColumns !! colIdx, values !! colIdx with
    | Some c, Some v => [c +:+ " " +:+ op +:+ " " +:+ formatSQLLiteral v]
    | _, _ => []
    end in
  match prefix ++ last with [] => None | andConds => Some ("(" +:+ Join " AND " andConds +:+ ")") end.

Definition buildBound (quotedColumns values : list string) (isLower : bool) : string :=
  "(" +:+ Join " OR " (omap (bound_group quotedColumns values isLower) (seq 0 (length quotedColumns))) +:+ ")".

Definition and_filter (chunkCond extraFilter : string) : string :=
  if negb (String.eqb extraFilter "") && negb (String.eqb chunkCond "")
  then cat ["("; chunkCond; ") AND ("; extraFilter; ")"] else chunkCond.

Definition buildLexicographicChunkCondition (quotedColumns : list string) chunk (extraFilter : string) : string :=
  let lowerValues := splitBoundaryValues (Min chunk) in
  let upperValues := splitBoundaryValues (Max chunk) in
  let chunkCond := match is_nil (Min chunk), is_nil (Max chunk) with
    | false, false => cat ["("; buildBound quotedColumns lowerValues true; ") AND ("; buildBound quotedColumns upperValues false; ")"]
    | false, true => buildBound quotedColumns lowerValues true
    | true, false => buildBound quotedColumns upperValues false
    | true, true => ""
    end in
  and_filter chunkCond extraFilter.

Definition buildChunkConditionMySQL (filterColumns : list string) chunk extraFilter : string :=
  buildLexicographicChunkCondition (QuoteColumns filterColumns MySQL) chunk extraFilter.

(** ** Chunk scans *)
Definition MysqlChunkScanQuery stream (filterColumns : list string) chunk extraFilter : string :=
  cat ["SELECT * FROM "; quoted_table stream MySQL; " WHERE "; buildChunkConditionMySQL filterColumns chunk extraFilter].

Definition MSSQLChunkScanQuery stream (filterColumns : list string) chunk (filter : string) : string :=
  let quotedCols := QuoteColumns filterColumns MSSQL in
  let condition := buildLexicographicChunkCondition quotedCols chunk filter in
  let condition := if String.eqb condition "" then Ternary (negb (String.eqb filter "")) filter "1 = 1" else condition in
  cat ["SELECT * FROM "; quoted_table stream MSSQL; " WITH (READPAST) WHERE "; condition; " ORDER BY "; Join ", " quotedCols].

(** Range conditions on a single expression. *)
Definition range_condition (expr lower upper : string) (render : any → string) chunk : string :=
  match is_nil (Min chunk), is_nil (Max chunk) with
  | false, false => cat [expr; lower; render (Min chunk); " AND "; expr; upper; render (Max chunk)]
  | false, true => cat [expr; lower; render (Min chunk)]
  | true, false => cat [expr; upper; render (Max chunk)]
  | true, true => ""
  end.

Definition PostgresChunkScanQuery stream (filterColumn : string) chunk (filter : string) : string :=
  let chunkCond := range_condition (QuoteIdentifier filterColumn Postgres) " >= " " < " fmt_v chunk in
  cat ["SELECT * FROM "; quoted_table stream Postgres; " WHERE "; and_filter chunkCond filter].

Definition formatPhysLocValue (v : any) : string := match v with ANil => "NULL" | AString s => s | _ => fmt_v v end.
Definition MSSQLPhysLocChunkScanQuery stream chunk (filter : string) : string :=
  let chunkCond := match Min chunk, Max chunk with
    | ANil, ANil => "1 = 1" | _, _ => range_condition "%%physloc%%" " > " " <= " formatPhysLocValue chunk end in
  let chunkCond := if String.eqb filter "" then chunkCond else cat ["("; chunkCond; ") AND ("; filter; ")"] in
  cat ["SELECT * FROM "; quoted_table stream MSSQL; " WITH (READPAST) WHERE "; chunkCond].

Definition DB2RidChunkScanQuery stream chunk (filter : string) : string :=
  let quotedTable := quoted_table stream DB2 in
  let chunkCond := range_condition ("RID(" +:+ quotedTable +:+ ")") " >= " " < " fmt_v chunk in
  if String.eqb filter "" then cat ["SELECT * FROM "; quotedTable; " WHERE "; chunkCond]
  else cat ["SELECT * FROM "; quotedTable; " WHERE ("; chunkCond; ") AND ("; filter; ")"].

(** A bound that is not a string fails its type assertion. *)
Definition assert_string (v : any) : result string := match v with AString s => Ok s | _ => Panic "interface conversion" end.

Definition buildSQLTuple (v : any) : result string :=
  s ← assert_string v; Ok (Join ", " ((λ part, cat ["'"; TrimSpace part; "'"]) <$> Split "," s)).

Definition DB2PKChunkScanQuery stream (filterColumns : list string) chunk (extraFilter : string) : result string :=
  let columns := Join ", " (QuoteColumns filterColumns DB2) in
  let columns := if 1 <? Z.of_nat (length filterColumns) then cat ["("; columns; ")"] else columns in
  let quotedTable := quoted_table stream DB2 in
  chunkCond ← match is_nil (Min chunk), is_nil (Max chunk) with
    | false, false => lo ← buildSQLTuple (Min chunk); hi ← buildSQLTuple (Max chunk);
                      Ok (cat [columns; " >= ("; lo; ") AND "; columns; " < ("; hi; ")"])
    | false, true => lo ← buildSQLTuple (Min chunk); Ok (cat [columns; " >= ("; lo; ")"])
    | true, false => hi ← buildSQLTuple (Max chunk); Ok (cat [columns; " < ("; hi; ")"])
    | true, true => Ok ""
    end;
  Ok (cat ["SELECT * FROM "; quotedTable; " WHERE "; and_filter chunkCond extraFilter]).

Definition OracleChunkScanQuery stream chunk (filter : string) : result string :=
  let filterClause := if String.eqb filter "" then "" else cat [" AND ("; filter; ")"] in
  rowidCond ← match is_nil (Min chunk), is_nil (Max chunk) with
    | true, true => Err "invalid chunk: both min and max are nil"
    | true, false => hi ← assert_string (Max chunk); Ok (cat ["ROWID < '"; hi; "'"])
    | false, true => lo ← assert_string (Min chunk); Ok (cat ["ROWID >= '"; lo; "'"])
    | false, false => lo ← assert_string (Min chunk); hi ← assert_string (Max chunk);
                      Ok (cat ["ROWID >= '"; lo; "' AND ROWID < '"; hi; "'"])
    end;
  Ok (cat ["SELECT * FROM "; quoted_table stream Oracle; " WHERE "; rowidCond; " "; filterClause]).

(** [strconv.ParseUint(s, 10, 64)] whose error is ignored: 0 on a syntax error, the
    maximum when out of range. *)
Definition max_uint64 : Z := 18446744073709551615.
Definition all_digits (s : string) : bool := forallb (in_range 48 57) (bytes_of s).
Definition ParseUint (s : string) : Z :=
  if String.eqb s "" || negb (all_digits s) then 0
  else Z.min max_uint64 (foldl (λ n b, n * 10 + (b - 48)) 0 (bytes_of s)).

Definition MysqlLimitOffsetScanQuery stream chunk (filter : string) : result string :=
  let query := cat ["SELECT * FROM "; quoted_table stream MySQL] in
  let query := if String.eqb filter "" then query else cat [query; " WHERE "; filter] in
  match is_nil (Min chunk), is_nil (Max chunk) with
  | true, _ => hi ← assert_string (Max chunk); Ok (cat [query; " LIMIT "; fmt_d (ParseUint hi)])
  | false, false => lo ← assert_string (Min chunk); hi ← assert_string (Max chunk);
      Ok (cat [query; " LIMIT "; fmt_d (wrap_u 64 (ParseUint hi - ParseUint lo)); " OFFSET "; fmt_d (ParseUint lo)])
  | false, true => lo ← assert_string (Min chunk);
      Ok (cat [query; " LIMIT "; fmt_d max_uint64; " OFFSET "; fmt_d (ParseUint lo)])
  end.

(** ** Chunk boundaries: the next key after a given one *)

(** The rows lexicographically after the parameters: [param i j] is the placeholder of
    column [j] in disjunct [i]. *)
Definition after_group (quotedCols : list string) (param : nat → nat → string) (i : nat) : string :=
  let eqs := imap (λ j c, cat [c; " = "; param i j; " AND "]) (take i quotedCols) in
  cat ["("; cat eqs; match quotedCols !! i with Some c => cat [c; " > "; param i i] | None => "" end; ")"].
Definition after_condition (quotedCols : list string) (param : nat → nat → string) : string :=
  Join " OR " (after_group quotedCols param <$> seq 0 (length quotedCols)).

Definition NextChunkEndQuery stream (columns : list string) (chunkSize : Z) : string :=
  let quotedCols := QuoteColumns columns MySQL in
  cat ["SELECT CONCAT_WS(',', "; Join ", " quotedCols; ") AS key_str FROM (SELECT "; Join ", " quotedCols; " FROM "; quoted_table stream MySQL;
       " WHERE "; after_condition quotedCols (λ _ _, "?"); " ORDER BY "; Join ", " quotedCols;
       " LIMIT 1 OFFSET "; fmt_d chunkSize; ") AS subquery"].

Definition db2_concat (quotedCols : list string) : string := Join " || ',' || " quotedCols.

Definition DB2NextChunkEndQuery stream (columns : list string) (chunkSize : Z) : string :=
  let quotedCols := QuoteColumns columns DB2 in
  cat ["SELECT "; db2_concat quotedCols; " AS key_str FROM (SELECT "; Join ", " quotedCols; " FROM "; quoted_table stream DB2;
       " WHERE "; after_condition quotedCols (λ _ _, "?"); " ORDER BY "; Join ", " quotedCols;
       " OFFSET "; fmt_d chunkSize; " ROWS FETCH NEXT 1 ROWS ONLY) AS subquery"].

(** SQL Server numbers its parameters through all disjuncts. *)
Definition mssql_param (i j : nat) : string := "@p" +:+ fmt_d (Z.of_nat (i * (i + 1) / 2 + j + 1)).

Definition buildMSSQLConcat (quotedCols : list string) : string :=
  match quotedCols with
  | [col] => col
  | _ => cat ["CONCAT("; Join ", ',', " quotedCols; ")"]
  end.

Definition MSSQLNextChunkEndQuery stream (orderingColumns : list string) (chunkSize : Z) : string :=
  let quotedColumns := QuoteColumns orderingColumns MSSQL in
  cat ["WITH ordered AS (SELECT "; buildMSSQLConcat quotedColumns; " AS key_str, ROW_NUMBER() OVER (ORDER BY "; Join ", " quotedColumns;
       ") AS rn FROM "; quoted_table stream MSSQL; " WHERE "; after_condition quotedColumns mssql_param;
       ") SELECT key_str FROM ordered WHERE rn = "; fmt_d chunkSize].

Definition PostgresNextChunkEndQuery stream (filterColumn : string) (filterValue : any) : string :=
  let quotedColumn := QuoteIdentifier filterColumn Postgres in
  cat ["SELECT MAX("; quotedColumn; ") FROM (SELECT "; quotedColumn; " FROM "; quoted_table stream Postgres;
       " WHERE "; quotedColumn; " > "; fmt_v filterValue; " ORDER BY "; quotedColumn; " ASC LIMIT 10000) AS T"].

Definition MinMaxQuery stream (column : string) : string :=
  let quotedColumn := QuoteIdentifier column Postgres in
  cat ["SELECT MIN("; quotedColumn; ") AS min_value, MAX("; quotedColumn; ") AS max_value FROM "; quoted_table stream Postgres].

(** The first and the last key of a table, in the order of its key columns. *)
Definition min_max_query (concat_ : string) (quotedCols : list string) (head tail from quotedTable : string) : string :=
  let desc := (λ col, col +:+ " DESC") <$> quotedCols in
  cat ["SELECT (SELECT "; head; concat_; " FROM "; quotedTable; " ORDER BY "; Join ", " quotedCols; tail; ") AS min_value, (SELECT "; head; concat_;
       " FROM "; quotedTable; " ORDER BY "; Join ", " desc; tail; ") AS max_value"; from].
Definition MinMaxQueryMySQL stream (columns : list string) : string :=
  let quotedCols := QuoteColumns columns MySQL in
  min_max_query (cat ["CONCAT_WS(',', "; Join ", " quotedCols; ")"]) quotedCols "" " LIMIT 1" "" (quoted_table stream MySQL).
Definition MinMaxQueryMSSQL stream (columns : list string) : string :=
  let quotedCols := QuoteColumns columns MSSQL in
  min_max_query (buildMSSQLConcat quotedCols) quotedCols "TOP 1 " "" "" (quoted_table stream MSSQL).
Definition DB2MinMaxPKQuery stream (columns : list string) : string :=
  let quotedCols := QuoteColumns columns DB2 in
  min_max_query (db2_concat quotedCols) quotedCols "" " FETCH FIRST 1 ROWS ONLY" " FROM SYSIBM.SYSDUMMY1" (quoted_table stream DB2).

(** The keys at or after each candidate boundary. *)
Definition MySQLDistinctAlignedPKValuesWithCollationQuery stream (pkColumn : string) (bounds : list string)
    (columnCollationType minValPadded maxValPadded : string) : string * list string :=
  let quotedCol := QuoteIdentifier pkColumn MySQL in
  let quotedTable := quoted_table stream MySQL in
  let firstAtOrAfter := cat ["(SELECT "; quotedCol; " FROM "; quotedTable; " WHERE "; quotedCol; " >= ? ORDER BY "; quotedCol; " ASC LIMIT 1)"] in
  let unionParts := (λ _, cat ["SELECT "; firstAtOrAfter; " AS actual_pk"]) <$> bounds in
  (cat ["SELECT DISTINCT actual_pk COLLATE "; columnCollationType; " AS val FROM ("; Join " UNION ALL " unionParts; ") AS aligned WHERE actual_pk COLLATE ";
        columnCollationType; " >= ? AND actual_pk COLLATE "; columnCollationType; " <= ? ORDER BY val"],
   bounds ++ [minValPadded; maxValPadded]).

Definition MSSQLPhysLocNextChunkEndQuery stream (chunkSize : Z) : string :=
  cat ["WITH ordered AS ( SELECT %%physloc%% AS physloc, ROW_NUMBER() OVER (ORDER BY %%physloc%%) AS rn FROM "; quoted_table stream MSSQL;
       " WHERE %%physloc%% > @p1 ) SELECT physloc FROM ordered WHERE rn = "; fmt_d chunkSize].

Definition NextRowIDQuery stream (ROWID : string) (chunkSize : Z) : string :=
  cat ["SELECT MAX(ROWID),COUNT(*) AS row_count FROM(SELECT ROWID FROM "; Quote (Namespace stream); "."; Quote (Name stream);
       " WHERE ROWID >= '"; ROWID; "' ORDER BY ROWID FETCH FIRST "; fmt_d chunkSize; " ROWS ONLY)"].

(** ** Stream filters *)
Definition filter_driver (driver : string) : DriverType :=
  let d := ToLower driver in
  if contains [MySQL; Postgres; Oracle; MSSQL; DB2] d then d else Postgres.

Definition formatFilterBoolValue driver (value : bool) : string :=
  if contains [MSSQL] driver then Ternary value "1" "0" else Ternary value "TRUE" "FALSE".

Definition RFC3339 : string := "2006-01-02T15:04:05Z07:00".

Definition string_value driver (v : string) : string :=
  let plain := formatSQLLiteral v in
  let isISO8601 := StrContains v "T" && (StrContains v "Z" || StrContains v "+" || (StrContains v "-" && (19 <? Z.of_nat (String.length v)))) in
  if isISO8601 then
    match time_parse RFC3339 v with
    | Some t =>
        if contains [Oracle] driver then cat ["TO_TIMESTAMP('"; time_format "2006-01-02 15:04:05.000" (UTC t); "', 'YYYY-MM-DD HH24:MI:SS.FF')"]
        else if contains [DB2] driver then cat ["TIMESTAMP('"; time_format "2006-01-02 15:04:05.000000" (UTC t); "')"]
        else plain
    | None => plain
    end
  else plain.

(** A legacy value is a token of the filter text; a lone quote is sliced out of range. *)
Definition legacy_value driver (value : string) : result string :=
  if HasPrefix value dq && HasSuffixByte (ascii_of 34) value then
    if String.eqb value dq then Panic "slice bounds out of range"
    else Ok (formatSQLLiteral (String.substring 1 (String.length value - 2) value))
  else
    let booleanValue := EqualFold value "true" || EqualFold value "false" in
    if booleanValue then Ok (formatFilterBoolValue driver (EqualFold value "true"))
    else match parse_float 64 value with Some _ => Ok value | None => Ok (formatSQLLiteral value) end.

Definition typed_value driver (value : any) : string :=
  match value with
  | AString v => string_value driver v
  | ABool v => formatFilterBoolValue driver v
  | AInt KInt v | AInt KInt64 v => fmt_d v
  | AFloat64 v => format_float v
  | _ => formatSQLLiteral (fmt_v value)
  end.

Definition buildCondition driver (isLegacy : bool) (cond : FilterCondition) : result string :=
  let quotedColumn := QuoteIdentifier (Column cond) driver in
  let isNullKeyword := match CondValue cond with AString s => isLegacy && EqualFold (TrimSpace s) "null" | _ => false end in
  if is_nil (CondValue cond) || isNullKeyword then
    if String.eqb (Operator cond) "=" then Ok (quotedColumn +:+ " IS NULL")
    else if String.eqb (Operator cond) "!=" then Ok (quotedColumn +:+ " IS NOT NULL")
    else Err "operator not supported with NULL"
  else
    valueSQL ← (if isLegacy then legacy_value driver (match CondValue cond with AString s => s | v => fmt_v v end)
                else Ok (typed_value driver (CondValue cond)));
    Ok (cat [quotedColumn; " "; Operator cond; " "; valueSQL]).

Definition SQLFilter stream (driver thresholdFilter : string) : result string :=
  let driverType := filter_driver driver in
  '(filter, isLegacy) ← GetFilter stream;
  match conditions_list filter with
  | [] => Ok thresholdFilter
  | conditions =>
      formatted ← foldM (λ acc cond, c ← buildCondition driverType isLegacy cond; Ok (acc ++ [c])) [] conditions;
      let finalFilter := Join (cat [" "; LogicalOperator filter; " "]) formatted in
      Ok (if String.eqb thresholdFilter "" then finalFilter else cat ["("; thresholdFilter; ") AND ("; finalFilter; ")"])
  end.

(** ** Cursor conditions.  [db_type] is the column's type as the database reports it. *)
Definition IncrementalValueFormatter (db_type : string → result string) (cursorField argumentPlaceholder : string) (isBackfill : bool)
    (lastCursorValue : any) stream driver : result (string * any) :=
  let operator := Ternary isBackfill "<=" ">" in
  datatype ← GetType (s_Schema (StreamOf stream)) cursorField;
  let isTimestamp := StrContains datatype "timestamp" in
  formattedValue ← ReformatValue datatype lastCursorValue;
  let quotedCol := QuoteIdentifier cursorField driver in
  let plain := cat [quotedCol; " "; operator; " "; argumentPlaceholder] in
  if is_nil formattedValue then Ok (plain, ANil)
  else if contains [Oracle] driver then
    dbDatatype ← db_type cursorField;
    if isTimestamp && negb (StrContains dbDatatype "TIME ZONE")
    then Ok (cat [quotedCol; " "; operator; " CAST("; argumentPlaceholder; " AS TIMESTAMP)"], formattedValue)
    else Ok (plain, formattedValue)
  else if contains [DB2] driver then
    dbDatatype ← db_type cursorField;
    if isTimestamp && StrContains (ToUpper dbDatatype) "TIMESTAMP" then
      match formattedValue with
      | ATime t => Ok (cat [quotedCol; " "; operator; " TIMESTAMP_FORMAT("; argumentPlaceholder; ", 'YYYY-MM-DD HH24:MI:SS.FF6')"],
                       AString (time_format "2006-01-02 15:04:05.000000" t))
      | _ => Err "expected time.Time for DB2 timestamp"
      end
    else Ok (plain, formattedValue)
  else Ok (plain, formattedValue).

Definition cursor_condition (db_type : string → result string) (isBackfill : bool) stream driver (argumentPosition : Z) (cursorField : string)
    (cursorValue : any) : result (string * any) :=
  let placeholder := GetPlaceholder driver argumentPosition in
  if contains DriversRequiringIncrementalFormatter driver
  then IncrementalValueFormatter db_type cursorField placeholder isBackfill cursorValue stream driver
  else Ok (cat [QuoteIdentifier cursorField driver; Ternary isBackfill " <= " " > "; placeholder], cursorValue).

(** The condition and arguments of [BuildIncrementalQuery]. *)
Definition incremental_condition (db_type : string → result string) s stream driver : result (string * list any) :=
  let '(primaryCursor, secondaryCursor) := Cursor stream in
  let lastSecondary := cursor_value s stream secondaryCursor in
  '(cond, arg) ← cursor_condition db_type false stream driver 1 primaryCursor (cursor_value s stream primaryCursor);
  if negb (String.eqb secondaryCursor "") && negb (is_nil lastSecondary) then
    '(cond2, arg2) ← cursor_condition db_type false stream driver 2 secondaryCursor lastSecondary;
    Ok (cat [cond; " OR ("; QuoteIdentifier primaryCursor driver; " IS NULL AND "; cond2; ")"], [arg; arg2])
  else Ok (cond, [arg]).

Definition BuildIncrementalQuery (db_type : string → result string) s stream driver : result (string * list any) :=
  '(cond, args) ← incremental_condition db_type s stream driver;
  Ok (cat ["SELECT * FROM "; quoted_table stream driver; " WHERE ("; cond; ")"], args).

Definition ThresholdFilter (db_type : string → result string) s stream driver : result (string * list any) :=
  if negb (String.eqb (GetSyncMode stream) INCREMENTAL) then Ok ("", [])
  else
    let '(primaryCursor, secondaryCursor) := Cursor stream in
    '(cond, arg) ← cursor_condition db_type true stream driver 1 primaryCursor (cursor_value s stream primaryCursor);
    let thresholdFilter := cat ["("; QuoteIdentifier primaryCursor driver; " IS NULL OR "; cond; ")"] in
    if String.eqb secondaryCursor "" then Ok (thresholdFilter, [arg])
    else
      '(cond2, arg2) ← cursor_condition db_type true stream driver 2 secondaryCursor (cursor_value s stream secondaryCursor);
      Ok (cat [thresholdFilter; " AND ("; QuoteIdentifier secondaryCursor driver; " IS NULL OR "; cond2; ")"], [arg; arg2]).

(** [GetMaxCursorValues]: the query, and bytes read back as text. *)
Definition max_cursor_query stream driver : string :=
  let '(primaryCursor, secondaryCursor) := Cursor stream in
  if String.eqb secondaryCursor "" then cat ["SELECT MAX("; QuoteIdentifier primaryCursor driver; ") FROM "; quoted_table stream driver]
  else cat ["SELECT MAX("; QuoteIdentifier primaryCursor driver; "), MAX("; QuoteIdentifier secondaryCursor driver; ") FROM "; quoted_table stream driver].
Definition bytesConverter (value : any) : any := match value with ABytes v => AString v | v => v end.
Definition GetMaxCursorValues (query_row : string → result (any * any)) stream driver : result (any * any) :=
  '(p, q) ← query_row (max_cursor_query stream driver);
  Ok (bytesConverter p, if String.eqb (Cursor stream).2 "" then ANil else bytesConverter q).
End Jdbc.
