(* ===== verification/JdbcFacts.v ===== *)
(** * Theorems about the SQL conditions: chunk scans read disjoint ranges that cover the
    table, and backfill and incremental reads split it at the cursor

    The generated texts are shown to be the rendering of a condition in a small language
    whose meaning is SQL's three-valued logic. *)

From S2P Require Import Prelude GoString GoSet DataTypes QueryEngine Value ValueFacts Schema Stream StreamFacts Catalog State StateFacts TwoPC Fields Writers Utils Backfill Incremental IncrementalFacts Ranges Jdbc.

(** Equality of texts up to the grouping of their parts. *)
Ltac str_eq := apply (inj bytes_of); unfold cat; cbn [foldr]; rewrite ?bytes_of_app; cbn [bytes_of app];
  repeat first [progress rewrite <- ?app_assoc | progress rewrite ?app_nil_r | progress cbn [app]].

(** ** Conditions *)
Inductive cond :=
| Cmp (l op r : string)
| IsNull (l : string)
| Raw (text : string)
| Conj (cs : list cond)
| Disj (cs : list cond)
| Paren (c : cond).

Fixpoint render (c : cond) : string :=
  match c with
  | Cmp l op r => cat [l; " "; op; " "; r]
  | IsNull l => l +:+ " IS NULL"
  | Raw t => t
  | Conj cs => Join " AND " (map render cs)
  | Disj cs => Join " OR " (map render cs)
  | Paren c => cat ["("; render c; ")"]
  end.

(** Operands of AND and OR are comparisons or in parentheses, so that the text is parsed
    as the condition it renders. *)
Definition simple (c : cond) : bool := match c with Cmp _ _ _ | IsNull _ | Paren _ => true | _ => false end.
Fixpoint grouped (c : cond) : bool :=
  match c with
  | Conj cs | Disj cs => forallb simple cs && forallb grouped cs
  | Paren c => grouped c
  | _ => true
  end.

(** Three-valued logic; [None] is unknown. *)
Definition and3 (a b : option bool) : option bool :=
  match a, b with Some false, _ | _, Some false => Some false | Some true, Some true => Some true | _, _ => None end.
Definition or3 (a b : option bool) : option bool :=
  match a, b with Some true, _ | _, Some true => Some true | Some false, Some false => Some false | _, _ => None end.

Definition compare_op (op : string) (x y : Z) : option bool :=
  if String.eqb op "=" then Some (x =? y)
  else if String.eqb op "<" then Some (x <? y) else if String.eqb op "<=" then Some (x <=? y)
  else if String.eqb op ">" then Some (y <? x) else if String.eqb op ">=" then Some (y <=? x)
  else None.

(** [val] is the row: the rank of each column's value in the order of the column (its
    collation), none for NULL; [lit c r] the rank of the text [r] compared with column
    [c]; [raw] the truth of a user filter. *)
Section Semantics.
Context (val : string → option Z) (lit : string → string → option Z) (raw : string → option bool).
Fixpoint eval (c : cond) : option bool :=
  match c with
  | Cmp l op r => match val l, lit l r with Some x, Some y => compare_op op x y | _, _ => None end
  | IsNull l => Some (bool_decide (val l = None))
  | Raw t => raw t
  | Conj cs => foldr and3 (Some true) (map eval cs)
  | Disj cs => foldr or3 (Some false) (map eval cs)
  | Paren c => eval c
  end.

Lemma eval_conj cs bs : Forall2 (λ c b, eval c = Some b) cs bs → eval (Conj cs) = Some (forallb id bs).
Proof.
  cbn [eval]. induction 1 as [|c b cs bs Hc _ IH]; [done|]. cbn [map foldr forallb]. rewrite Hc, IH.
  unfold id. by destruct b, (forallb _ bs).
Qed.
Lemma eval_disj cs bs : Forall2 (λ c b, eval c = Some b) cs bs → eval (Disj cs) = Some (existsb id bs).
Proof.
  cbn [eval]. induction 1 as [|c b cs bs Hc _ IH]; [done|]. cbn [map foldr existsb]. rewrite Hc, IH.
  unfold id. by destruct b, (existsb _ bs).
Qed.
End Semantics.

(** ** Lexicographic bounds *)
Definition eq_conds (cols vals : list string) : list cond := zip_with (λ c v, Cmp c "=" (formatSQLLiteral v)) cols vals.

Definition bound_op (isLower : bool) (n i : nat) : string := if isLower then lower_op n i else "<".
Definition group_cond (cols vals : list string) (isLower : bool) (i : nat) : cond :=
  Paren (Conj (eq_conds (take i cols) vals
    ++ match cols !! i, vals !! i with Some c, Some v => [Cmp c (bound_op isLower (length cols) i) (formatSQLLiteral v)] | _, _ => [] end)).
Definition bound_cond (cols vals : list string) (isLower : bool) : cond :=
  Paren (Disj (group_cond cols vals isLower <$> seq 0 (length cols))).

Lemma render_eqs cols vals : map render (eq_conds cols vals) = zip_with (λ c v, c +:+ " = " +:+ formatSQLLiteral v) cols vals.
Proof.
  unfold eq_conds. revert vals. induction cols as [|c cols IH]; intros [|v vals]; [done..|]. cbn [zip_with map render]. rewrite IH. f_equal.
  by str_eq.
Qed.

Lemma group_render cols vals isLower i :
  length vals = length cols → (i < length cols)%nat →
  bound_group cols vals isLower i = Some (render (group_cond cols vals isLower i)).
Proof.
  intros Hl Hi. unfold bound_group, group_cond.
  destruct (lookup_lt_is_Some_2 cols i Hi) as [c Hc]. destruct (lookup_lt_is_Some_2 vals i) as [v Hv]; [lia|]. rewrite Hc, Hv.
  cbn [render]. rewrite map_app, render_eqs. cbn [map render]. set (p := zip_with _ _ _).
  change (if isLower then lower_op (length cols) i else "<") with (bound_op isLower (length cols) i).
  assert (∀ x : string, match p ++ [x] with [] => None | andConds => Some ("(" +:+ Join " AND " andConds +:+ ")") end
    = Some ("(" +:+ Join " AND " (p ++ [x]) +:+ ")")) as Hm by (intros x; by destruct p).
  rewrite Hm. f_equal. replace (cat [c; " "; bound_op isLower (length cols) i; " "; formatSQLLiteral v])
    with (c +:+ " " +:+ bound_op isLower (length cols) i +:+ " " +:+ formatSQLLiteral v) by (by str_eq). by str_eq.
Qed.

Lemma omap_some {A B} (f : A → option B) (g : A → B) (l : list A) : (∀ x, x ∈ l → f x = Some (g x)) → omap f l = g <$> l.
Proof.
  induction l as [|x l IH]; intros Hl; [done|]. cbn. rewrite (Hl x) by left. cbn. f_equal. apply IH. intros y Hy. apply Hl. by right.
Qed.

Lemma bound_render cols vals isLower : length vals = length cols → buildBound cols vals isLower = render (bound_cond cols vals isLower).
Proof.
  intros Hl. unfold buildBound, bound_cond. cbn [render].
  rewrite (omap_some _ (render ∘ group_cond cols vals isLower)).
  - rewrite list_fmap_compose. by str_eq.
  - intros i [_ Hi]%elem_of_seq. by apply group_render.
Qed.

Lemma bound_grouped cols vals isLower : grouped (bound_cond cols vals isLower) = true.
Proof.
  cbn [grouped bound_cond]. generalize (seq 0 (length cols)) as l. intros l. rewrite andb_true_iff, <- !Is_true_true, !forallb_True, !Forall_fmap.
  split; apply Forall_forall; intros i _; [done|]. cbn. rewrite Is_true_true, andb_true_iff, !forallb_app.
  assert (forallb simple (eq_conds (take i cols) vals) = true ∧ forallb grouped (eq_conds (take i cols) vals) = true) as [-> ->].
  { unfold eq_conds. generalize (take i cols) as cs. intros cs. clear. revert vals. induction cs as [|c cs IH]; intros [|v vals]; [done..|]. cbn. apply IH. }
  destruct (cols !! i), (vals !! i); done.
Qed.

(** *** What the bounds mean *)
Fixpoint lex_lt (xs zs : list Z) : bool :=
  match xs, zs with
  | x :: xs, z :: zs => (x <? z) || ((x =? z) && lex_lt xs zs)
  | _, _ => false
  end.

Fixpoint lex_bound (isLower : bool) (xs zs : list Z) : bool :=
  match xs, zs with
  | [x], [z] => if isLower then z <=? x else x <? z
  | x :: xs, z :: zs => (if isLower then z <? x else x <? z) || ((x =? z) && lex_bound isLower xs zs)
  | _, _ => false
  end.

Lemma lex_bound_cons isLower x x' xs z z' zs :
  lex_bound isLower (x :: x' :: xs) (z :: z' :: zs)
  = (if isLower then z <? x else x <? z) || ((x =? z) && lex_bound isLower (x' :: xs) (z' :: zs)).
Proof. reflexivity. Qed.

Lemma lex_upper xs zs : length xs = length zs → lex_bound false xs zs = lex_lt xs zs.
Proof.
  revert zs. induction xs as [|x xs IH]; intros [|z zs]; intros Hl; try done. injection Hl as Hl. cbn. rewrite <- IH by done.
  destruct xs as [|x' xs], zs as [|z' zs]; try done. cbn. by rewrite andb_false_r, orb_false_r.
Qed.
Lemma lex_lower xs zs : length xs = length zs → xs ≠ [] → lex_bound true xs zs = negb (lex_lt xs zs).
Proof.
  revert zs. induction xs as [|x xs IH]; intros [|z zs]; intros Hl Hne; try done. injection Hl as Hl.
  destruct xs as [|x' xs].
  - destruct zs; [|done]. cbn. rewrite andb_false_r, orb_false_r. by rewrite Z.leb_antisym.
  - destruct zs as [|z' zs]; [done|]. rewrite lex_bound_cons, IH by done. change (lex_lt (x :: x' :: xs) (z :: z' :: zs))
      with ((x <? z) || ((x =? z) && lex_lt (x' :: xs) (z' :: zs))). generalize (lex_lt (x' :: xs) (z' :: zs)) as b. intros b. destruct (Z.ltb_spec z x), (Z.ltb_spec x z), (Z.eqb_spec x z); try lia; by destruct b.
Qed.

Section Rows.
Context `{GoEnv} (val : string → option Z) (lit : string → string → option Z) (raw : string → option bool).
Notation truth := (eval val lit raw).

(** The ranks of a row's key columns, and of the literals of a boundary. *)
Definition row_key (cols : list string) (xs : list Z) : Prop := Forall2 (λ c x, val c = Some x) cols xs.
Definition bound_key (cols vals : list string) (zs : list Z) : Prop := Forall3 (λ c v z, lit c (formatSQLLiteral v) = Some z) cols vals zs.

Lemma group_zero c cols v vals isLower x z :
  val c = Some x → lit c (formatSQLLiteral v) = Some z →
  truth (group_cond (c :: cols) (v :: vals) isLower 0) = compare_op (bound_op isLower (S (length cols)) 0) x z.
Proof. intros Hx Hz. cbn. rewrite Hx, Hz. by destruct (compare_op _ _ _) as [[]|]. Qed.

Lemma group_succ c cols v vals isLower x z i :
  val c = Some x → lit c (formatSQLLiteral v) = Some z →
  truth (group_cond (c :: cols) (v :: vals) isLower (S i)) = and3 (Some (x =? z)) (truth (group_cond cols vals isLower i)).
Proof. intros Hx Hz. cbn. rewrite Hx, Hz. done. Qed.

Lemma or3_and3 b (es : list (option bool)) :
  foldr or3 (Some false) (map (and3 (Some b)) es) = and3 (Some b) (foldr or3 (Some false) es).
Proof. induction es as [|e es IH]; [by destruct b|]. cbn. rewrite IH. destruct b, e as [[]|], (foldr or3 (Some false) es) as [[]|]; done. Qed.

Lemma bound_truth cols vals xs zs isLower :
  row_key cols xs → bound_key cols vals zs → truth (bound_cond cols vals isLower) = Some (lex_bound isLower xs zs).
Proof.
  intros Hx Hz. revert xs Hx. induction Hz as [|c v z cols vals zs Hc Hz IH]; intros xs Hx; inversion Hx as [|? x ? xs' Hvx Hx' Heq1 Heq2]; subst; [done|].
  assert (Hmap : ∀ l, map truth (group_cond (c :: cols) (v :: vals) isLower <$> (S <$> l))
    = map (and3 (Some (x =? z))) (map truth (group_cond cols vals isLower <$> l))).
  { induction l as [|i l IHl]; [done|]. rewrite !fmap_cons. f_equal; [by apply group_succ|exact IHl]. }
  specialize (IH xs' Hx'). cbn [eval bound_cond] in IH |- *. cbn [length seq]. rewrite <- fmap_S_seq, fmap_cons. cbn [map foldr].
  rewrite (group_zero _ _ _ _ _ x z), Hmap, or3_and3, IH by done. unfold bound_op, lower_op, compare_op.
  pose proof (Forall2_length _ _ _ Hx') as Hl. pose proof (Forall3_length_lm _ _ _ _ Hz). pose proof (Forall3_length_lr _ _ _ _ Hz).
  destruct isLower; [destruct cols as [|c' cols]|]; cbn [length Nat.eqb] in *.
  - destruct xs' as [|? ?], zs as [|? ?]; try done. cbn. by destruct (z <=? x), (x =? z).
  - destruct xs' as [|x' xs'], zs as [|z' zs]; try done. rewrite lex_bound_cons.
    generalize (lex_bound true (x' :: xs') (z' :: zs)) as b. intros b. cbn. by destruct (z <? x), (x =? z), b.
  - destruct xs' as [|x' xs'], zs as [|z' zs]; try (cbn in *; lia); [cbn; by destruct (x <? z), (x =? z)|].
    rewrite lex_bound_cons. generalize (lex_bound false (x' :: xs') (z' :: zs)) as b. intros b. cbn. by destruct (x <? z), (x =? z), b.
Qed.

(** ** Chunk conditions *)
Definition chunk_cond (cols : list string) (chunk : Chunk) (filter : string) : cond :=
  let lower := bound_cond cols (splitBoundaryValues (Min chunk)) true in
  let upper := bound_cond cols (splitBoundaryValues (Max chunk)) false in
  let body := match is_nil (Min chunk), is_nil (Max chunk) with
    | false, false => Conj [Paren lower; Paren upper] | false, true => lower | _, _ => upper end in
  if String.eqb filter "" then body else Conj [Paren body; Paren (Raw filter)].

(** The key of a boundary, none for an open end. *)
Definition end_key (cols : list string) (b : any) (k : option (list Z)) : Prop :=
  if is_nil b then k = None else ∃ zs, k = Some zs ∧ bound_key cols (splitBoundaryValues b) zs.
Definition within (xs : list Z) (lo hi : option (list Z)) : bool := inside (lex_lt xs) (lo, hi).

Lemma end_key_length cols b k : end_key cols b k → is_nil b = false → length (splitBoundaryValues b) = length cols.
Proof. unfold end_key. intros Hk Hb. rewrite Hb in Hk. destruct Hk as (zs & _ & Hz). symmetry. by eapply Forall3_length_lm. Qed.

Lemma chunk_text cols chunk filter lo hi :
  end_key cols (Min chunk) lo → end_key cols (Max chunk) hi → lo ≠ None ∨ hi ≠ None →
  buildLexicographicChunkCondition cols chunk filter = render (chunk_cond cols chunk filter) ∧ grouped (chunk_cond cols chunk filter) = true.
Proof.
  intros Hlo Hhi Hne. unfold buildLexicographicChunkCondition, chunk_cond.
  pose proof (bound_grouped cols (splitBoundaryValues (Min chunk)) true) as Hg1.
  pose proof (bound_grouped cols (splitBoundaryValues (Max chunk)) false) as Hg2.
  assert (Hpaf : ∀ t body, render body = t → t ≠ "" → grouped body = true →
    and_filter t filter = render (if String.eqb filter "" then body else Conj [Paren body; Paren (Raw filter)])
    ∧ grouped (if String.eqb filter "" then body else Conj [Paren body; Paren (Raw filter)]) = true).
  { intros t body <- Ht Hg. unfold and_filter. apply String.eqb_neq in Ht. rewrite Ht. destruct (String.eqb filter ""); cbn [negb andb]; [done|].
    split; [|cbn; by rewrite Hg]. cbn [render map Join]. by str_eq. }
  assert (Hb : ∀ vals b, length vals = length cols → render (bound_cond cols vals b) = buildBound cols vals b ∧ buildBound cols vals b ≠ "").
  { intros vals b Hl. split; [by rewrite bound_render|done]. }
  destruct (is_nil (Min chunk)) eqn:E1, (is_nil (Max chunk)) eqn:E2.
  - unfold end_key in Hlo, Hhi. rewrite E1 in Hlo. rewrite E2 in Hhi. naive_solver.
  - destruct (Hb (splitBoundaryValues (Max chunk)) false) as [? ?]; [by eapply end_key_length|]. by apply Hpaf.
  - destruct (Hb (splitBoundaryValues (Min chunk)) true) as [? ?]; [by eapply end_key_length|]. by apply Hpaf.
  - destruct (Hb (splitBoundaryValues (Min chunk)) true) as [Ht1 ?]; [by eapply end_key_length|].
    destruct (Hb (splitBoundaryValues (Max chunk)) false) as [Ht2 ?]; [by eapply end_key_length|].
    apply Hpaf; [|done|cbn [grouped forallb simple andb]; by rewrite Hg1, Hg2]. cbn [render map Join]. rewrite Ht1, Ht2. by str_eq.
Qed.

Lemma end_truth cols b xs zs isLower :
  row_key cols xs → cols ≠ [] → bound_key cols (splitBoundaryValues b) zs →
  truth (bound_cond cols (splitBoundaryValues b) isLower) = Some (if isLower then negb (lex_lt xs zs) else lex_lt xs zs).
Proof.
  intros Hx Hne Hz. rewrite (bound_truth _ _ xs zs) by done. pose proof (Forall2_length _ _ _ Hx). pose proof (Forall3_length_lr _ _ _ _ Hz).
  destruct isLower; [rewrite lex_lower|rewrite lex_upper]; try done; [lia| |lia]. intros ->. destruct cols; done.
Qed.

Lemma chunk_truth cols chunk filter lo hi xs :
  row_key cols xs → cols ≠ [] → end_key cols (Min chunk) lo → end_key cols (Max chunk) hi → lo ≠ None ∨ hi ≠ None →
  truth (chunk_cond cols chunk filter) = and3 (Some (within xs lo hi)) (if String.eqb filter "" then Some true else raw filter).
Proof.
  intros Hx Hc Hlo Hhi Hne. unfold chunk_cond, within, inside, end_key in *. cbn [fst snd].
  assert (Hf : ∀ body b, truth body = Some b →
    truth (if String.eqb filter "" then body else Conj [Paren body; Paren (Raw filter)]) = and3 (Some b) (if String.eqb filter "" then Some true else raw filter)).
  { intros body b Hb. destruct (String.eqb filter ""); [by destruct b|]. cbn. rewrite Hb. by destruct b, (raw filter) as [[]|]. }
  destruct (is_nil (Min chunk)) eqn:E1, (is_nil (Max chunk)) eqn:E2.
  - naive_solver.
  - subst lo. destruct Hhi as (zs & -> & Hz). apply Hf. by rewrite (end_truth _ _ xs zs).
  - subst hi. destruct Hlo as (zs & -> & Hz). rewrite andb_true_r. apply Hf. by rewrite (end_truth _ _ xs zs).
  - destruct Hlo as (zs & -> & Hz), Hhi as (zs' & -> & Hz'). apply Hf.
    change (and3 (truth (bound_cond cols (splitBoundaryValues (Min chunk)) true))
      (and3 (truth (bound_cond cols (splitBoundaryValues (Max chunk)) false)) (Some true)) = Some (negb (lex_lt xs zs) && lex_lt xs zs')).
    rewrite (end_truth _ _ xs zs), (end_truth _ _ xs zs') by done. by destruct (lex_lt xs zs), (lex_lt xs zs').
Qed.

(** ** The chunks between consecutive boundaries *)
Lemma lex_lt_trans xs zs zs' :
  length zs = length zs' → lex_lt zs' zs = false → lex_lt xs zs = true → lex_lt xs zs' = true.
Proof.
  revert zs zs'. induction xs as [|x xs IH]; intros [|z zs] [|z' zs'] Hl; cbn; try done. injection Hl as Hl.
  destruct (Z.ltb_spec z' z), (Z.eqb_spec z' z), (Z.ltb_spec x z), (Z.eqb_spec x z), (Z.ltb_spec x z'), (Z.eqb_spec x z'); cbn; try done; try lia.
  by apply IH.
Qed.

Definition chunk_of (r : option (any * list Z) * option (any * list Z)) : Chunk :=
  mkChunk (from_option fst ANil r.1) (from_option fst ANil r.2).
Definition reads (cols : list string) (c : Chunk) : Prop := truth (chunk_cond cols c "") = Some true.

Lemma scans_partition cols (bs : list (any * list Z)) xs :
  row_key cols xs → cols ≠ [] → bs ≠ [] →
  Forall (λ b, is_nil b.1 = false ∧ bound_key cols (splitBoundaryValues b.1) b.2) bs →
  Sorted (λ b b', lex_lt b'.2 b.2 = false) bs →
  (∀ r filter, r ∈ chain bs →
     let c := chunk_of r in
     buildLexicographicChunkCondition cols c filter = render (chunk_cond cols c filter) ∧ grouped (chunk_cond cols c filter) = true
     ∧ (filter ≠ "" → truth (chunk_cond cols c filter) = and3 (truth (chunk_cond cols c "")) (raw filter)))
  ∧ ∃ i r, chain bs !! i = Some r ∧ reads cols (chunk_of r)
    ∧ ∀ j r', chain bs !! j = Some r' → reads cols (chunk_of r') → j = i.
Proof.
  intros Hx Hc Hne Hbs Hsort. rewrite Forall_forall in Hbs.
  assert (Hends : ∀ r, r ∈ chain bs → let lo := snd <$> r.1 in let hi := snd <$> r.2 in
    end_key cols (Min (chunk_of r)) lo ∧ end_key cols (Max (chunk_of r)) hi ∧ (lo ≠ None ∨ hi ≠ None)).
  { intros r Hr. pose proof (chain_bounds bs r Hr) as Hb. pose proof (chain_range bs r Hne Hr) as Hn. destruct r as [[lo|] [hi|]]; cbn in *;
      unfold end_key; cbn; split_and!; try done; try (destruct Hn; done);
      try (destruct (Hbs lo) as [-> ?]; [apply Hb; by left|]; by eexists);
      try (destruct (Hbs hi) as [-> ?]; [apply Hb; by right|]; by eexists); first [by left|by right]. }
  assert (Hreads : ∀ r, r ∈ chain bs → reads cols (chunk_of r) ↔ inside (λ b, lex_lt xs b.2) r = true).
  { intros r Hr. destruct (Hends r Hr) as (Hlo & Hhi & Hn). unfold reads. rewrite (chunk_truth cols _ _ _ _ xs Hx Hc Hlo Hhi Hn).
    unfold within, inside. destruct r as [[lo|] [hi|]]; cbn; (destruct (lex_lt xs _) || idtac); split; intros Hi; simplify_eq/=;
      try done; repeat (destruct (lex_lt xs _); cbn in *; try done). }
  split.
  - intros r filter Hr c. destruct (Hends r Hr) as (Hlo & Hhi & Hn). destruct (chunk_text cols c filter _ _ Hlo Hhi Hn) as [Ht Hg].
    split_and!; [done..|]. intros Hf%String.eqb_neq. rewrite !(chunk_truth cols c _ _ _ xs Hx Hc Hlo Hhi Hn), Hf. cbn.
    by destruct (within xs _ _), (raw filter) as [[]|].
  - destruct (chain_partition (λ b, lex_lt xs b.2) bs) as (i & r & Hr & Hi & Hu).
    + eapply rising_intro; [by apply Forall_forall, Hbs|exact Hsort|]. intros a b [_ Ha] [_ Hb] Hab. apply lex_lt_trans; [|done].
      pose proof (Forall3_length_lr _ _ _ _ Ha). pose proof (Forall3_length_lr _ _ _ _ Hb). lia.
    + exists i, r. assert (r ∈ chain bs) by (by eapply list_elem_of_lookup_2). split_and!; [done|by apply Hreads|].
      intros j r' Hr' Hrd. eapply Hu; [done|]. apply Hreads; [by eapply list_elem_of_lookup_2|done].
Qed.

(** C12: chunk scans partition the table.  Given boundaries in ascending order, the
    conditions MySQL and SQL Server scan the chunks with are, as texts, conditions whose
    meaning is three-valued: on a row whose key columns are not NULL, exactly one chunk's
    condition is true -- a filter only restricts it further. *)
Theorem chunk_scans_partition cols (bs : list (any * list Z)) xs :
  row_key cols xs → cols ≠ [] → bs ≠ [] →
  Forall (λ b, is_nil b.1 = false ∧ bound_key cols (splitBoundaryValues b.1) b.2) bs →
  Sorted (λ b b', lex_lt b'.2 b.2 = false) bs →
  (∀ r filter, r ∈ chain bs →
     let c := chunk_of r in
     buildLexicographicChunkCondition cols c filter = render (chunk_cond cols c filter) ∧ grouped (chunk_cond cols c filter) = true
     ∧ (filter ≠ "" → truth (chunk_cond cols c filter) = and3 (truth (chunk_cond cols c "")) (raw filter)))
  ∧ ∃ i r, chain bs !! i = Some r ∧ reads cols (chunk_of r)
    ∧ ∀ j r', chain bs !! j = Some r' → reads cols (chunk_of r') → j = i.
Proof. exact (scans_partition cols bs xs). Qed.
End Rows.

(** ** Cursor conditions *)
Section Cursors.
Context `{GoHash string} `{GoHash Chunk} `{GoRange} `{GoEnv}.
Context (is_print : Z → bool) (time_format : string → gotime → string) (db_type : string → result string).
Notation quoted := (QuoteIdentifier is_print).
Notation condition := (cursor_condition is_print time_format db_type).

Definition is_cond (q op : string) (r t : string) : Prop := t = render (Cmp q op r).

(** Both directions compare the column with the same expression and argument. *)
Lemma cursor_condition_sides stream driver n field v t a i a' :
  condition true stream driver n field v = Ok (t, a) → condition false stream driver n field v = Ok (i, a') →
  a = a' ∧ ∃ r, is_cond (quoted field driver) "<=" r t ∧ is_cond (quoted field driver) ">" r i.
Proof.
  unfold cursor_condition, is_cond, IncrementalValueFormatter, Ternary. set (q := quoted field driver). set (ph := GetPlaceholder driver n).
  assert (Hr : ∀ r t' i' : string, t' = cat [q; " "; "<="; " "; r] → i' = cat [q; " "; ">"; " "; r] →
    ∃ r, t' = render (Cmp q "<=" r) ∧ i' = render (Cmp q ">" r)) by (intros r ? ? -> ->; by exists r).
  destruct (contains DriversRequiringIncrementalFormatter driver).
  2:{ intros [= <- <-] [= <- <-]. split; [done|]. apply (Hr ph); by str_eq. }
  destruct (GetType _ _) as [ty| |]; [|done..]. cbn [mbind result_bind]. destruct (ReformatValue ty v) as [fv| |]; [|done..]. cbn [mbind result_bind].
  assert (Hplain : ∀ b t i, Ok (cat [q; " "; "<="; " "; ph], b) = Ok (t, a) → Ok (cat [q; " "; ">"; " "; ph], b) = Ok (i, a') →
    a = a' ∧ ∃ r, t = render (Cmp q "<=" r) ∧ i = render (Cmp q ">" r)).
  { intros b ? ? [= <- <-] [= <- <-]. split; [done|]. by apply (Hr ph). }
  destruct (is_nil fv); [by apply Hplain|].
  destruct (contains [Oracle] driver).
  { destruct (db_type field) as [dt| |]; [|done..]. cbn [mbind result_bind]. destruct (_ && _); [|by apply Hplain].
    intros [= <- <-] [= <- <-]. split; [done|]. apply (Hr ("CAST(" +:+ ph +:+ " AS TIMESTAMP)")); by str_eq. }
  destruct (contains [DB2] driver); [|by apply Hplain].
  destruct (db_type field) as [dt| |]; [|done..]. cbn [mbind result_bind]. destruct (_ && _); [|by apply Hplain].
  destruct fv; try done. intros [= <- <-] [= <- <-]. split; [done|].
  apply (Hr ("TIMESTAMP_FORMAT(" +:+ ph +:+ ", 'YYYY-MM-DD HH24:MI:SS.FF6')")); by str_eq.
Qed.

Definition threshold_cond (q r : string) : cond := Paren (Disj [IsNull q; Cmp q "<=" r]).
Definition beyond_cond (q r : string) : cond := Cmp q ">" r.

(** C13: backfill and incremental reads split the table at the cursor.  For a stream with
    one cursor, the filter of the backfill and the condition of the incremental query
    built from the same state take the same argument.  When the state has a cursor that is
    not null, a row satisfies, in SQL's three-valued logic, exactly one of them, rows
    without a cursor value falling to the backfill.  When it is null (no cursor recorded
    yet), the backfill reads exactly the rows without a cursor value, and the incremental
    query none: a row with a value is read by neither. *)
Theorem backfill_incremental_split s stream driver primary t args i args' :
  GetSyncMode stream = INCREMENTAL → Cursor stream = (primary, "") →
  ThresholdFilter is_print time_format db_type s stream driver = Ok (t, args) →
  incremental_condition is_print time_format db_type s stream driver = Ok (i, args') →
  args = args' ∧ ∃ r, let q := quoted primary driver in
  t = render (threshold_cond q r) ∧ i = render (beyond_cond q r) ∧ grouped (threshold_cond q r) = true
  ∧ ∀ val lit raw, let truth := eval val lit raw in
    (lit q r ≠ None → truth (threshold_cond q r) = Some true ↔ truth (beyond_cond q r) ≠ Some true)
    ∧ (lit q r = None → (truth (threshold_cond q r) = Some true ↔ val q = None) ∧ truth (beyond_cond q r) ≠ Some true).
Proof.
  intros Hm Hcur. unfold ThresholdFilter, incremental_condition. rewrite Hm, Hcur. cbn [String.eqb negb andb]. rewrite String.eqb_refl. cbn [negb].
  destruct (condition true stream driver 1 primary _) as [[ct a]| |] eqn:Et; [|done..]. cbn [mbind result_bind].
  destruct (condition false stream driver 1 primary _) as [[ci a']| |] eqn:Ei; [|done..]. cbn [mbind result_bind].
  destruct (cursor_condition_sides _ _ _ _ _ _ _ _ _ Et Ei) as [-> (r & -> & ->)]. intros [= <- <-] [= <- <-].
  split; [done|]. exists r. cbn zeta. split_and!; [|done|done|].
  - unfold threshold_cond. cbn [render map Join]. by str_eq.
  - intros val lit raw. cbn. destruct (val _) as [x|], (lit _ _) as [z|]; cbn; split; try done; intros _.
    + destruct (Z.leb_spec x z), (Z.ltb_spec z x); cbn; split; try done; try (intros Hn; by destruct Hn); exfalso; lia.
Qed.
End Cursors.

(** ** Witnesses *)
Section Witnesses.
#[local] Instance wj_hash : GoHash string := ws_hash.
#[local] Instance wj_chunk_hash : GoHash Chunk := ws_chunk_hash.
#[local] Instance wj_range : GoRange := sorted_range.
#[local] Instance wj_env : GoEnv := bare_env.

(** A row with key (15, 3), boundaries (10, 7) and (15, 4). *)
Definition pair_row (c : string) : option Z := if String.eqb c "`a`" then Some 15 else Some 3.
Definition number (c r : string) : option Z := signed_digits (String.substring 1 (String.length r - 2) r).
Definition pair_bounds : list (any * list Z) := [(AString "10,7", [10; 7]); (AString "15, 4", [15; 4])].

Lemma chunk_scans_partition_witness :
  ∃ i r, chain pair_bounds !! i = Some r
  ∧ reads pair_row number (λ _, None) ["`a`"; "`b`"] (chunk_of r)
  ∧ buildLexicographicChunkCondition ["`a`"; "`b`"] (chunk_of r) "" = render (chunk_cond ["`a`"; "`b`"] (chunk_of r) "").
Proof.
  destruct (chunk_scans_partition pair_row number (λ _, None) ["`a`"; "`b`"] pair_bounds [15; 3]) as (Ht & i & r & Hr & Hrd & _).
  - repeat constructor.
  - discriminate.
  - discriminate.
  - repeat constructor.
  - repeat constructor.
  - exists i, r. split_and!; [exact Hr|exact Hrd|]. apply Ht. by eapply list_elem_of_lookup_2.
Defined.

Lemma backfill_incremental_split_witness :
  ∃ t i args, ThresholdFilter (λ _, true) (λ _ _, "") (λ _, Err "") (SetCursor (empty_state StreamType) events "Id" (AString "a")) events MySQL = Ok (t, args)
  ∧ ∃ r, t = render (threshold_cond "`Id`" r) ∧ i = render (beyond_cond "`Id`" r).
Proof.
  destruct (backfill_incremental_split (λ _, true) (λ _ _, "") (λ _, Err "") (SetCursor (empty_state StreamType) events "Id" (AString "a")) events MySQL
    "Id" "(`Id` IS NULL OR `Id` <= ?)" [AString "a"] "`Id` > ?" [AString "a"]) as (_ & r & Ht & Hi & _).
  - reflexivity.
  - reflexivity.
  - vm_compute. reflexivity.
  - vm_compute. reflexivity.
  - exists "(`Id` IS NULL OR `Id` <= ?)", "`Id` > ?", [AString "a"]. split; [vm_compute; reflexivity|]. exists r. split; [exact Ht|exact Hi].
Defined.
End Witnesses.
