(* ===== verification/Chunking.v ===== *)
(** * Planning the chunks of a backfill: the common parts and drivers/mysql/internal/backfill.go

    The strategies [GetOrSplitChunks] chooses between; the planners themselves are in
    Planners.v.  The statistics and boundary keys the database reports are parameters.
    Loops take a fuel; [None] is a loop still running when it is spent.  Plans list the
    chunks in the order they are inserted. *)

From S2P Require Import Prelude GoString GoSet DataTypes QueryEngine Value Schema Stream Catalog State Ranges Jdbc.

(** ** Floats: [math.Ceil] and the 64-bit operations *)
Definition EffectiveParquetSize : Z := 256 * 1024 * 1024 * 8.
Definition f_div (a b : spec_float) : spec_float := SFdiv 53 1024 a b.
Definition f_add (a b : spec_float) : spec_float := SFadd 53 1024 a b.
Definition f_sub (a b : spec_float) : spec_float := SFsub 53 1024 a b.
Definition f_mul (a b : spec_float) : spec_float := SFmul 53 1024 a b.
Definition Ceil (f : spec_float) : spec_float :=
  match f with
  | S754_finite s m e =>
      if 0 <=? e then f else let z := if s then Z.neg m else Z.pos m in sf64 (- ((- z) / 2 ^ (- e)))
  | _ => f
  end.
(** [max] and [min]; [math.Max] agrees with [max] but on an infinity and NaN. *)
Definition f_max (a b : spec_float) : spec_float := match b with S754_nan => b | _ => if SFltb a b then b else a end.
Definition f_min (a b : spec_float) : spec_float := match b with S754_nan => b | _ => if SFltb b a then b else a end.

(** ** Answers of the database *)
Inductive query_err := NoRows | Failed (e : string).
Definition is_no_rows (err : option query_err) : bool := match err with Some NoRows => true | _ => false end.
(** A query for many rows: refused, broken off while rows are read, or complete. *)
Inductive rows (A : Type) := QueryFailed (e : string) | RowsFailed (e : string) | Rows (l : list A).
Arguments QueryFailed {A} e.
Arguments RowsFailed {A} e.
Arguments Rows {A} l.

Section Planning.
Context `{GoEnv}.
Implicit Types (chunkSize approxRowCount : Z).

Definition int64 (f : spec_float) : Z := f2i true 64 f.
Definition add64 (a b : Z) : Z := wrap_s 64 (a + b).
Definition ceil_div (a b : Z) : Z := int64 (Ceil (f_div (sf64 a) (sf64 b))).
Definition str (z : Z) : any := AString (fmt_d z).

(** The chunks between consecutive boundaries, with both open ends. *)
Definition chunks_between (bounds : list any) : list Chunk :=
  (λ r, mkChunk (default ANil r.1) (default ANil r.2)) <$> chain bounds.

(** ** MySQL *)
Record NumericChunkBounds := mkNumeric { ChunkStep : Z; MinBoundary : Z; MaxBoundary : Z }.

Definition mysqlTypeToDataTypes : list (string * DataType) :=
  [("tinyint", Int32); ("smallint", Int32); ("mediumint", Int32); ("int", Int32); ("integer", Int32); ("unsigned int", Int64);
   ("unsigned integer", Int64); ("unsigned smallint", Int32); ("unsigned tinyint", Int32); ("unsigned mediumint", Int32);
   ("unsigned bigint", Int64); ("bit", Int32); ("bigint", Int64);
   ("float", Float32); ("real", Float32); ("double", Float64); ("numeric", Float64); ("decimal", Float64);
   ("char", String_); ("varchar", String_); ("tinytext", String_); ("text", String_); ("mediumtext", String_); ("longtext", String_);
   ("binary", String_); ("varbinary", String_); ("tinyblob", String_); ("blob", String_); ("mediumblob", String_); ("longblob", String_);
   ("date", Timestamp); ("timestamp", Timestamp); ("datetime", Timestamp); ("year", Int64);
   ("time", String_); ("json", String_); ("enum", String_); ("set", String_);
   ("geometry", String_); ("point", String_); ("linestring", String_); ("polygon", String_); ("multipoint", String_);
   ("multilinestring", String_); ("multipolygon", String_); ("geometrycollection", String_)].
(** A missing key reads as the empty type. *)
Definition type_of (table : list (string * DataType)) (name : string) : DataType :=
  match lookup_first (λ kv, String.eqb kv.1 name) table with Some kv => kv.2 | None => "" end.

Definition DistributionLower : spec_float := S754_finite false 7205759403792794 (-57).   (* 0.05 *)
Definition DistributionUpper : spec_float := sf64 1000.

Definition isNumericAndEvenDistributed (minVal maxVal : any) approxRowCount chunkSize (dataType : string) : option NumericChunkBounds :=
  let destinationDataType := type_of mysqlTypeToDataTypes (ToLower dataType) in
  if negb (contains [Int32; Int64] destinationDataType) then None
  else match ReformatInt64 minVal, ReformatInt64 maxVal with
       | Ok minBoundary, Ok maxBoundary =>
           let distributionFactor := f_div (f_add (f_sub (sf64 maxBoundary) (sf64 minBoundary)) (sf64 1)) (sf64 approxRowCount) in
           if SFltb distributionFactor DistributionLower || SFltb DistributionUpper distributionFactor then None
           else Some (mkNumeric (int64 (Ceil (f_max (f_mul distributionFactor (sf64 chunkSize)) (sf64 1)))) minBoundary maxBoundary)
       | _, _ => None
       end.

Fixpoint int_loop (fuel : nat) (step last prev next : Z) : option (result (list Chunk)) :=
  match fuel with
  | O => None
  | S fuel =>
      if next <=? last then
        if next <=? prev then Some (Err "int64 arithmetic overflow")
        else match int_loop fuel step last next (add64 next step) with
             | Some (Ok l) => Some (Ok (mkChunk (str prev) (str next) :: l))
             | r => r
             end
      else Some (Ok [mkChunk (str prev) ANil])
  end.
Definition splitEvenlyForInt (fuel : nat) (bounds : NumericChunkBounds) : option (result (list Chunk)) :=
  let lo := MinBoundary bounds in
  match int_loop fuel (ChunkStep bounds) (MaxBoundary bounds) lo (add64 lo (ChunkStep bounds)) with
  | Some (Ok l) => Some (Ok (mkChunk ANil (str lo) :: l))
  | r => r
  end.

Fixpoint offset_loop (fuel : nat) approxRowCount chunkSize (lastChunk : Z) : option (list Chunk) :=
  match fuel with
  | O => None
  | S fuel =>
      if lastChunk <? approxRowCount
      then (λ l, mkChunk (str lastChunk) (str (add64 lastChunk chunkSize)) :: l) <$> offset_loop fuel approxRowCount chunkSize (add64 lastChunk chunkSize)
      else Some [mkChunk (str lastChunk) ANil]
  end.
Definition limitOffsetChunks (fuel : nat) approxRowCount chunkSize : option (list Chunk) :=
  (λ l, mkChunk ANil (str chunkSize) :: l) <$> offset_loop fuel approxRowCount chunkSize chunkSize.

(** [splitViaPrimaryKey] of MySQL, DB2 and SQL Server.  [next] is the boundary query: the
    value scanned and the error; [render] is the text a boundary is kept as. *)
Fixpoint key_loop (fuel : nat) (next : any → any * option query_err) (render : any → string) (currentVal : any) : option (result (list Chunk)) :=
  match fuel with
  | O => None
  | S fuel =>
      let '(nextValRaw, err) := next currentVal in
      if is_no_rows err || is_nil nextValRaw then Some (Ok [mkChunk (AString (render currentVal)) ANil])
      else match err with
           | Some e => Some (Err "failed to get next chunk end")
           | None =>
               match key_loop fuel next render nextValRaw with
               | Some (Ok l) => Some (Ok (mkChunk (AString (render currentVal)) (AString (render nextValRaw)) :: l))
               | r => r
               end
           end
  end.
Definition splitViaPrimaryKey (fuel : nat) (next : any → any * option query_err) (render : any → string) (minVal : any) : option (result (list Chunk)) :=
  if is_nil minVal then Some (Ok [])
  else match key_loop fuel next render minVal with
       | Some (Ok l) => Some (Ok (mkChunk ANil (AString (render minVal)) :: l))
       | r => r
       end.

(** The arguments of the boundary query: the parts of the key, once per disjunct. *)
Definition key_args (pkColumns : list string) (currentVal : any) : list string :=
  let columns := Split "," (ConvertToString currentVal) in
  concat ((λ columnIndex, take (S columnIndex) columns) <$> seq 0 (length pkColumns)).

(** *** String keys: bijective base-95 numbers *)
Definition charset : list Z := bytes_of "0123456789ABCDEFGHIJKLMNOPQRSTUVWXYZabcdefghijklmnopqrstuvwxyz[\]^_`{|}~!" ++ [34] ++ bytes_of "#$%&'()*+,-./:;<=>?@ ".
Definition charsetBase : Z := Z.of_nat (length charset).

Definition charToIndex (ch : Z) : option Z := (λ p, Z.of_nat p.1 + 1) <$> list_find (λ c, c = ch) charset.
Definition indexToChar (idx : Z) : Z := default 0 (charset !! Z.to_nat (idx - 1)).

Definition encodeCharsetStringToBigInt (s : string) : result Z :=
  foldM (λ v ch, match charToIndex ch with Some idx => Ok (v * charsetBase + idx) | None => Err "unsupported character" end) 0 (rune_list s).

(** Digits from the least significant; each step divides by more than 2. *)
Fixpoint decode_loop (fuel : nat) (x : Z) : list Z :=
  match fuel with
  | O => []
  | S fuel =>
      if 0 <? x then
        let rem := x mod charsetBase in
        let '(rem, x) := if rem =? 0 then (charsetBase, x - 1) else (rem, x) in
        indexToChar rem :: decode_loop fuel (x / charsetBase)
      else []
  end.
Definition decodeBigIntToCharsetString (n : Z) : string :=
  string_of (concat (encode_rune <$> reverse (decode_loop (S (Z.to_nat (Z.log2 n))) n))).

Definition padRightWithZeroes (s : string) (maxLength : Z) : string :=
  s +:+ string_of (replicate (Z.to_nat (maxLength - Z.of_nat (length (rune_list s)))) 48).

Record StringChunkBounds := mkStringBounds { MinPadded : string; MaxPadded : string; minEncoded : Z; maxEncoded : Z }.

Definition isStringSupportedPK (minVal maxVal : any) (dataMaxLength : option Z) (dataType : string) : option StringChunkBounds :=
  if negb (contains ["char"; "varchar"] dataType) then None
  else match dataMaxLength with
       | None => None
       | Some n =>
           let minValPadded := padRightWithZeroes (ConvertToString minVal) n in
           let maxValPadded := padRightWithZeroes (ConvertToString maxVal) n in
           match encodeCharsetStringToBigInt minValPadded, encodeCharsetStringToBigInt maxValPadded with
           | Ok a, Ok b => if b <=? a then None else Some (mkStringBounds minValPadded maxValPadded a b)
           | _, _ => None
           end
       end.

(** Candidate boundaries of one attempt. *)
Fixpoint candidates (n : nat) (step last current : Z) : list string :=
  match n with
  | O => []
  | S n => if current <? last then decodeBigIntToCharsetString current :: candidates n step last (current + step) else []
  end.

Definition condenseStrings (candidateBoundaries : list string) (expectedChunks : Z) : list string :=
  let num := Z.of_nat (length candidateBoundaries) in
  if num <=? expectedChunks then candidateBoundaries
  else if expectedChunks =? 1 then take 1 candidateBoundaries
  else omap (λ i, candidateBoundaries !! Z.to_nat ((Z.of_nat i * (num - 1) + (expectedChunks - 1) / 2) / (expectedChunks - 1)))
         (seq 0 (Z.to_nat expectedChunks)).

Definition MysqlChunkAcceptanceRatio : spec_float := S754_finite false 7205759403792794 (-53).   (* 0.8 *)

(** The adaptive attempts: [align] is the database's list of actual keys at or after the
    candidates.  Returns the best boundaries and the error of the last query. *)
Fixpoint string_attempts (fuel : nat) (align : list string → rows string) (bounds : StringChunkBounds) (expectedChunks step : Z)
    (shrink : Z) (best : list string) : result (list string * option string) :=
  match fuel with
  | O => Ok (best, None)
  | S fuel =>
      if 1000000 <? shrink then Ok (best, None)
      else
        let adjusted := (step + shrink) / (shrink + 1) in
        let cands := candidates (Z.to_nat (expectedChunks * (shrink + 1))) adjusted (maxEncoded bounds) (minEncoded bounds) in
        match align (cands ++ [MaxPadded bounds]) with
        | Rows range =>
            let best := if Z.of_nat (length best) <? Z.of_nat (length range) then range else best in
            if expectedChunks <=? Z.of_nat (length range) then Ok (best, None)
            else string_attempts fuel align bounds expectedChunks step (shrink * 2) best
        | QueryFailed e => Ok (best, Some ("distinct boundary query failed: " +:+ e))
        | RowsFailed e => Err e
        end
  end.

Definition splitEvenlyForString (align : list string → rows string) (bounds : StringChunkBounds) (approxTableSize : Z) : result (list Chunk) :=
  let expectedChunks := ceil_div approxTableSize EffectiveParquetSize in
  let expectedChunks := if expectedChunks <=? 0 then 1 else expectedChunks in
  let step := (maxEncoded bounds - minEncoded bounds + (expectedChunks - 1)) / expectedChunks in
  '(boundaries, err) ← string_attempts 21 align bounds expectedChunks step 1 [];
  if Z.of_nat (length boundaries) <? int64 (Ceil (f_mul MysqlChunkAcceptanceRatio (sf64 expectedChunks)))
  then Err (default "insufficient string chunk boundaries generated" err)
  else match condenseStrings boundaries expectedChunks with
       | [] => Panic "index out of range"
       | bs => Ok (chunks_between (AString <$> bs))
       end.
End Planning.
