(* ===== verification/Planners.v ===== *)
(** * Chunk planners of the relational drivers (drivers/{mysql,postgres,db2,oracle,mssql}/internal/backfill.go)

    [GetOrSplitChunks] and the query [ChunkIterator] reads a chunk with.  The answers of
    the database are records of parameters, given the text of the query where it is
    built; a planner returns the records it adds to the statistics and the chunks. *)

From S2P Require Import Prelude GoString GoSet DataTypes QueryEngine Value Schema Stream Catalog State TwoPC Ranges Jdbc Chunking.
From stdpp Require Import sorting.
#[local] Open Scope Z_scope.

(** A step that can fail before a loop runs. *)
Definition and_then {A B} (r : result A) (f : A → option (result B)) : option (result B) :=
  match r with Ok a => f a | Err e => Some (Err e) | Panic m => Some (Panic m) end.

(** [a == b] of two interfaces. *)
Definition iface_eq (a b : any) : result bool :=
  match a, b with
  | ABytes _, ABytes _ | AInt8s _, AInt8s _ | AArray _, AArray _ | AMap _, AMap _ => Panic "comparing uncomparable type"
  | _, _ => Ok (any_equal a b)
  end.

Section Planners.
Context `{GoHash string} `{GoHash Chunk} `{GoRange} `{GoEnv}.
Context (is_print : Z → bool) (format_float : spec_float → string) (time_format : string → gotime → string).
Context (db_type : string → result string).
Implicit Types (stream : ConfiguredStream) (chunk : Chunk).

Definition plan : Type := Z * option (result (list Chunk)).

(** The sorted primary key, or the configured chunk column. *)
Definition key_columns stream : list string :=
  let chunkColumn := ChunkColumn (Metadata stream) in
  if String.eqb chunkColumn "" then merge_sort string_le (Array (s_SourceDefinedPrimaryKey (StreamOf stream))) else [chunkColumn].

(** The filter of a chunk scan: the cursor threshold and the stream's filter. *)
Definition chunk_filter s stream (driver : DriverType) : result (string * list any) :=
  '(thresholdFilter, args) ← ThresholdFilter is_print time_format db_type s stream driver;
  filter ← SQLFilter is_print format_float time_format stream driver thresholdFilter;
  Ok (filter, args).

(** ** MySQL *)
Record MySQLDB := {
  my_stats : query_err + Z * any * Z;                       (* row count, average row size, table size *)
  my_has_rows : result bool;
  my_extremes : string → result (any * any);
  my_column : string → result (string * option Z * string); (* type, length, collation *)
  my_next : string → list string → any * option query_err;
  my_align : string → list string → rows string;
  my_begin : option string;
  my_commit : option string
}.

Definition WithIsolation {A} (begin_ commit : option string) (fn : option (result A)) : option (result A) :=
  match begin_, fn with
  | Some e, _ => Some (Err ("failed to begin transaction: " +:+ e))
  | None, Some (Ok a) => Some (match commit with Some e => Err e | None => Ok a end)
  | None, r => r
  end.

Definition mysql_plan (fuel : nat) (db : MySQLDB) stream (approxRowCount : Z) (avgRowSize : any) (approxTableSize : Z) : option (result (list Chunk)) :=
  and_then (ReformatFloat64 avgRowSize) (λ avgRowSizeFloat,
  let chunkSize := int64 (Ceil (f_div (sf64 EffectiveParquetSize) avgRowSizeFloat)) in
  let pkColumns := key_columns stream in
  and_then (match pkColumns with [] => Ok (ANil, ANil) | _ => my_extremes db (MinMaxQueryMySQL is_print stream pkColumns) end) (λ '(minVal, maxVal),
  let query := NextChunkEndQuery is_print stream pkColumns chunkSize in
  let via_key := WithIsolation (my_begin db) (my_commit db)
    (splitViaPrimaryKey fuel (λ v, my_next db query (key_args pkColumns v)) ConvertToString minVal) in
  match pkColumns with
  | [] => WithIsolation (my_begin db) (my_commit db) (Ok <$> limitOffsetChunks fuel approxRowCount chunkSize)
  | [pk] =>
      and_then (my_column db pk) (λ '(dataType, dataMaxLength, collation),
      match isNumericAndEvenDistributed minVal maxVal approxRowCount chunkSize dataType with
      | Some bounds => match splitEvenlyForInt fuel bounds with Some (Err _) => via_key | r => r end
      | None =>
          match isStringSupportedPK minVal maxVal dataMaxLength dataType with
          | Some bounds =>
              let align (cands : list string) := let '(q, args) := MySQLDistinctAlignedPKValuesWithCollationQuery is_print stream pk cands collation (MinPadded bounds) (MaxPadded bounds)
                in my_align db q args in
              match splitEvenlyForString align bounds approxTableSize with Err _ => via_key | r => Some r end
          | None => via_key
          end
      end)
  | _ => via_key
  end)).

Definition MySQL_GetOrSplitChunks (fuel : nat) (db : MySQLDB) stream : plan :=
  match my_stats db with
  | inl _ => (0, Some (Err "failed to fetch TableStats query"))
  | inr (approxRowCount, avgRowSize, approxTableSize) =>
      if approxRowCount =? 0 then (0, Some (hasRows ← my_has_rows db; if hasRows : bool then Err "stats not populated for table" else Ok []))
      else (approxRowCount, mysql_plan fuel db stream approxRowCount avgRowSize approxTableSize)
  end.

Definition MySQL_ChunkIterator s stream chunk : result (string * list any) :=
  '(filter, args) ← chunk_filter s stream MySQL;
  stmt ← match key_columns stream with
         | [] => MysqlLimitOffsetScanQuery is_print stream chunk filter
         | cols => Ok (MysqlChunkScanQuery is_print stream cols chunk filter)
         end;
  Ok (stmt, args).

(** ** Postgres *)
Record PgDB := {
  pg_row_count : result Z;
  pg_block_size : result Z;
  pg_partition_count : result Z;
  pg_relation_size : result (Z * Z);                        (* heap bytes, table bytes *)
  pg_partition_rows : result (list (string * Z * Z));       (* name, heap bytes, table bytes *)
  pg_min_max : string → result (any * any);
  pg_next : string → result any;
  pg_version : Z
}.

Definition bytesPerHeapPage (blockSize heapBytes tableBytes : Z) : spec_float :=
  if (heapBytes <=? 0) || (tableBytes <=? heapBytes) then sf64 blockSize
  else f_div (f_mul (sf64 blockSize) (sf64 tableBytes)) (sf64 heapBytes).

(** *** Sizers (ctid_sizer.go) *)
Definition tidRangeSizer (heapPageBytes effectivePageSize : spec_float) (scannedHeapBytes : Z) : spec_float :=
  Ceil (f_div (sf64 EffectiveParquetSize) effectivePageSize).
Definition seqScanSizer (heapPageBytes effectivePageSize : spec_float) (scannedHeapBytes : Z) : spec_float :=
  let heapOnly := f_div (sf64 EffectiveParquetSize) heapPageBytes in
  let capped := f_div (sf64 (Z.max EffectiveParquetSize scannedHeapBytes)) effectivePageSize in
  Ceil (f_min heapOnly capped).
Definition newCTIDSizer (version : Z) : spec_float → spec_float → Z → spec_float :=
  if 140000 <=? version then tidRangeSizer else seqScanSizer.

Definition uint32 (f : spec_float) : Z := f2i false 32 f.
Definition max_uint32 : Z := 4294967295.

(** Ranges of heap pages, and their rendering as ctid bounds. *)
Definition ctid (page : Z) : any := AString ("'(" +:+ fmt_d page +:+ ",0)'").
Definition ctid_chunk (r : Z * Z) : Chunk := mkChunk (ctid r.1) (ctid r.2).

Fixpoint ctid_loop (fuel : nat) (relPages batchSize start : Z) : option (list (Z * Z)) :=
  match fuel with
  | O => None
  | S fuel =>
      if start <? relPages then
        let next := wrap_u 32 (start + batchSize) in
        (λ l, (start, if relPages <=? next then max_uint32 else next) :: l) <$> ctid_loop fuel relPages batchSize next
      else Some []
  end.

(** Partitioned tables: the size of a chunk depends on where it starts. *)
Fixpoint partition_loop (fuel : nat) (pages : Z → Z) (maxPages start : Z) : option (list (Z * Z)) :=
  match fuel with
  | O => None
  | S fuel =>
      if start <? maxPages then
        let end_ := add64 start (pages start) in
        let end_ := if maxPages <=? end_ then max_uint32 else end_ in
        (λ l, (start, end_) :: l) <$> partition_loop fuel pages maxPages end_
      else Some []
  end.

Record PartitionPage := mkPartition { PartName : string; Pages : Z; HeapBytes : Z; TableBytes : Z }.

Definition f1_05 : spec_float := S754_finite false 4728779608739021 (-52).
(** [None]: division by a block size of 0. *)
Definition load_partition (blockSize : Z) (row : string * Z * Z) : option PartitionPage :=
  let '(name, heapBytes, tableBytes) := row in
  if blockSize =? 0 then None
  else Some (mkPartition name (Z.min (int64 (Ceil (f_mul f1_05 (sf64 (Z.quot heapBytes blockSize))))) max_uint32) heapBytes tableBytes).
Definition loadPartitionPages (db : PgDB) (blockSize : Z) : result (list PartitionPage * Z) :=
  rows ← pg_partition_rows db;
  match mapM (load_partition blockSize) rows with
  | None => Panic "integer divide by zero"
  | Some partitions => Ok (partitions, foldl (λ m p, Z.max m (Pages p)) 0 partitions)
  end.

Definition partitionPageBytes (partitions : list PartitionPage) (blockSize start : Z) : spec_float * spec_float :=
  foldl (λ '(heap, eff) p,
      if start <? Pages p then (f_add heap (sf64 blockSize), f_add eff (bytesPerHeapPage blockSize (HeapBytes p) (TableBytes p))) else (heap, eff))
    (S754_zero false, S754_zero false) partitions.

Definition rel_pages (blockSize heapBytes : Z) : Z :=
  let relPages := uint32 (Ceil (f_div (sf64 heapBytes) (sf64 blockSize))) in if relPages =? 0 then 1 else relPages.
Definition batch_pages (version blockSize heapBytes tableBytes : Z) : Z :=
  uint32 (newCTIDSizer version (sf64 blockSize) (bytesPerHeapPage blockSize heapBytes tableBytes) heapBytes).
Definition partition_pages (version : Z) (partitions : list PartitionPage) (blockSize start : Z) : Z :=
  let scannedHeapBytes := foldl (λ n p, add64 n (HeapBytes p)) 0 partitions in
  let '(heapPageBytes, effectivePageSize) := partitionPageBytes partitions blockSize start in
  int64 (newCTIDSizer version heapPageBytes effectivePageSize scannedHeapBytes).

Definition generateCTIDRanges (fuel : nat) (db : PgDB) : option (result (list (Z * Z))) :=
  and_then (pg_block_size db) (λ blockSize,
  and_then (pg_partition_count db) (λ partitionCount,
  if partitionCount =? 0 then
    and_then (pg_relation_size db) (λ '(heapBytes, tableBytes),
    Ok <$> ctid_loop fuel (rel_pages blockSize heapBytes) (batch_pages (pg_version db) blockSize heapBytes tableBytes) 0)
  else
    and_then (loadPartitionPages db blockSize) (λ '(partitions, maxPages),
    Ok <$> partition_loop fuel (partition_pages (pg_version db) partitions blockSize) maxPages 0))).

(** *** Chunk columns *)
Definition AddConstantToInterface (val : any) (increment : Z) : result any :=
  match val with
  | AInt KInt v => Ok (AInt KInt (add64 v increment))
  | AInt KInt64 v => Ok (AInt KInt64 (add64 v increment))
  | AFloat32 v => Ok (AFloat32 (SFadd 24 128 v (sf32 increment)))
  | AFloat64 v => Ok (AFloat64 (f_add v (sf64 increment)))
  | _ => Err "failed to add contant values to interface, unsupported type"
  end.

Fixpoint batch_loop (fuel : nat) (maxVal : any) (size : Z) (chunkStart chunkEnd : any) : option (result (list Chunk)) :=
  match fuel with
  | O => None
  | S fuel =>
      and_then (Compare chunkEnd maxVal) (λ c,
      if c <=? 0 then
        and_then (AddConstantToInterface chunkEnd size) (λ newChunkEnd,
        match batch_loop fuel maxVal size chunkEnd newChunkEnd with
        | Some (Ok l) => Some (Ok (mkChunk chunkStart chunkEnd :: l))
        | r => r
        end)
      else Some (Ok [mkChunk chunkStart ANil]))
  end.
Definition splitViaBatchSize (fuel : nat) (minVal maxVal : any) (dynamicChunkSize : Z) : option (result (list Chunk)) :=
  and_then (AddConstantToInterface minVal dynamicChunkSize) (batch_loop fuel maxVal dynamicChunkSize minVal).

Fixpoint splitViaNextQuery (fuel : nat) (nextChunkEnd : any → result any) (chunkStart : any) : option (result (list Chunk)) :=
  match fuel with
  | O => None
  | S fuel =>
      and_then (nextChunkEnd chunkStart) (λ chunkEnd,
      and_then (if is_nil chunkEnd then Ok true else iface_eq chunkEnd chunkStart) (λ stop,
      if stop : bool then Some (Ok [mkChunk chunkStart ANil])
      else match splitViaNextQuery fuel nextChunkEnd chunkEnd with
           | Some (Ok l) => Some (Ok (mkChunk chunkStart chunkEnd :: l))
           | r => r
           end))
  end.

Definition pg_splitTableIntoChunks (fuel : nat) (db : PgDB) stream : option (result (list Chunk)) :=
  let chunkColumn := ChunkColumn (Metadata stream) in
  if negb (String.eqb chunkColumn "") then
    and_then (pg_min_max db (MinMaxQuery is_print stream chunkColumn)) (λ '(minValue, maxValue),
    and_then (iface_eq minValue maxValue) (λ same,
    if same : bool then Some (Ok [mkChunk minValue ANil])
    else if negb (contains (Array (s_SourceDefinedPrimaryKey (StreamOf stream))) chunkColumn)
    then Some (Err "provided split column is not a primary key")
    else
      let chunkColType := match GetType (s_Schema (StreamOf stream)) chunkColumn with Ok t => t | _ => "" end in
      if contains [Int64; Float64] chunkColType then splitViaBatchSize fuel minValue maxValue 10000
      else splitViaNextQuery fuel (λ v, pg_next db (PostgresNextChunkEndQuery is_print stream chunkColumn v)) minValue))
  else
    match generateCTIDRanges fuel db with
    | Some (Ok l) => Some (Ok (ctid_chunk <$> l))
    | Some (Err e) => Some (Err e)
    | Some (Panic m) => Some (Panic m)
    | None => None
    end.

Definition Postgres_GetOrSplitChunks (fuel : nat) (db : PgDB) stream : plan :=
  match pg_row_count db with
  | Ok approxRowCount => (approxRowCount, pg_splitTableIntoChunks fuel db stream)
  | _ => (0, Some (Err "failed to get approx row count"))
  end.

Definition Postgres_ChunkIterator s stream chunk : result (string * list any) :=
  '(filter, args) ← chunk_filter s stream Postgres;
  let chunkColumn := ChunkColumn (Metadata stream) in
  let chunkColumn := Ternary (String.eqb chunkColumn "") "ctid" chunkColumn in
  Ok (PostgresChunkScanQuery is_print stream chunkColumn chunk filter, args).

(** ** DB2 *)
Record DB2DB := {
  db2_row_count : result Z;
  db2_has_rows : result bool;
  db2_avg_row_size : result any;
  db2_extremes : string → result (any * any);
  db2_next : string → list string → any * option query_err;
  db2_min_max_rid : result (Z * Z);
  db2_page_stats : result (Z * Z)                           (* page size, pages *)
}.

Definition at_least_one (z : Z) : Z := if z <=? 0 then 1 else z.

(** Ranges of row identifiers; the last ends after [maxRID]. *)
Fixpoint rid_loop (fuel : nat) (maxRID ridInterval start : Z) : option (list (Z * Z)) :=
  match fuel with
  | O => None
  | S fuel =>
      if start <=? maxRID then
        let end_ := add64 start ridInterval in
        (λ l, (start, if add64 maxRID 1 <? end_ then add64 maxRID 1 else end_) :: l) <$> rid_loop fuel maxRID ridInterval (add64 start ridInterval)
      else Some []
  end.
Definition ridInterval (minRID maxRID pageSize nPages : Z) : Z :=
  let pagesPerChunk := ceil_div EffectiveParquetSize pageSize in
  let numberOfChunks := at_least_one (ceil_div (at_least_one nPages) pagesPerChunk) in
  at_least_one (ceil_div (wrap_s 64 (maxRID - minRID)) numberOfChunks).
Definition rid_chunk (r : Z * Z) : Chunk := mkChunk (AInt KInt64 r.1) (AInt KInt64 r.2).
Definition splitViaRID (fuel : nat) (db : DB2DB) : option (result (list Chunk)) :=
  and_then (db2_min_max_rid db) (λ '(minRID, maxRID),
  and_then (db2_page_stats db) (λ '(pageSize, nPages),
  (λ l : list (Z * Z), Ok (rid_chunk <$> l)) <$> rid_loop fuel maxRID (ridInterval minRID maxRID pageSize nPages) minRID)).

Definition db2_splitViaPrimaryKey (fuel : nat) (db : DB2DB) stream : option (result (list Chunk)) :=
  and_then (avgRowSize ← db2_avg_row_size db; ReformatFloat64 avgRowSize) (λ avgRowSizeFloat,
  let chunkSize := int64 (Ceil (f_div (sf64 EffectiveParquetSize) avgRowSizeFloat)) in
  let pkColumns := key_columns stream in
  and_then (db2_extremes db (DB2MinMaxPKQuery is_print stream pkColumns)) (λ '(minVal, _),
  splitViaPrimaryKey fuel (λ v, db2_next db (DB2NextChunkEndQuery is_print stream pkColumns chunkSize) (key_args pkColumns v)) ConvertToString minVal)).

Definition DB2_GetOrSplitChunks (fuel : nat) (db : DB2DB) stream : plan :=
  match db2_row_count db with
  | Ok approxRowCount =>
      if (approxRowCount =? -1) || (approxRowCount =? 0)
      then (0, Some (hasRows ← db2_has_rows db; if hasRows : bool then Err "stats not populated for table" else Ok []))
      else (approxRowCount, match key_columns stream with [] => splitViaRID fuel db | _ => db2_splitViaPrimaryKey fuel db stream end)
  | _ => (0, Some (Err "failed to get approx row count"))
  end.

Definition DB2_ChunkIterator s stream chunk : result (string * list any) :=
  '(filter, args) ← chunk_filter s stream DB2;
  stmt ← match key_columns stream with
         | [] => Ok (DB2RidChunkScanQuery is_print stream chunk filter)
         | cols => DB2PKChunkScanQuery is_print stream cols chunk filter
         end;
  Ok (stmt, args).

(** ** Oracle *)
Record OracleDB := {
  o_stats : option (Z * option spec_float);                 (* row count, average row size; [Scan] may fail at either *)
  o_any_row : option query_err;
  o_block_size : option Z;
  o_create_task : option string;
  o_create_chunks : Z → option string;
  o_start_rowids : rows string;
  o_min_max : result (string * string);
  o_next : string → result (string * Z);
  o_sample : spec_float → rows string
}.

(** [utils.ComputeSamplePercent] *)
Definition SamplePercentMin : spec_float := S754_finite false 5764607523034235 (-59).   (* 0.01 *)
Definition SamplePercentMax : spec_float := sf64 50.
Definition SampleRowsPerChunkMultiplier : Z := 10.
Definition ComputeSamplePercent (approxRowCount numberOfChunks : Z) : spec_float :=
  let minSampleRows := wrap_s 64 (numberOfChunks * SampleRowsPerChunkMultiplier) in
  let samplingPercentage := f_mul (f_div (sf64 minSampleRows) (sf64 approxRowCount)) (sf64 100) in
  f_max SamplePercentMin (f_min SamplePercentMax samplingPercentage).

Definition buildChunksFromStartRowIDs (startRowIDs : list string) : list Chunk :=
  match startRowIDs with [] => [] | _ => chunks_between (AString <$> startRowIDs) end.

(** Evenly spaced elements of a sorted sample; an index past its end panics. *)
Definition sample_index (len numberOfChunks : Z) (i : nat) : Z :=
  int64 (f_mul (sf64 (Z.of_nat i)) (f_div (sf64 len) (sf64 numberOfChunks))).
Definition pick (sampled : list string) (numberOfChunks : Z) (index : nat → Z) : result (list string) :=
  foldM (λ acc i, let idx := index i in
      if idx <? 0 then Panic "index out of range"
      else match sampled !! Z.to_nat idx with Some r => Ok (acc ++ [r]) | None => Panic "index out of range" end)
    [] (seq 0 (Z.to_nat numberOfChunks)).

Definition splitViaTableIterationSample (db : OracleDB) (approxRowCount numberOfChunks : Z) : result (list Chunk) :=
  match o_sample db (ComputeSamplePercent approxRowCount numberOfChunks) with
  | QueryFailed e => Err ("sample block query failed: " +:+ e)
  | RowsFailed e => Err e
  | Rows sampledRowIDs =>
      let len := Z.of_nat (length sampledRowIDs) in
      if len <? numberOfChunks then Err "sample returned too few rows"
      else buildChunksFromStartRowIDs <$> pick sampledRowIDs numberOfChunks (sample_index len numberOfChunks)
  end.

Fixpoint rowid_loop (fuel : nat) (next : string → result (string * Z)) (rowsPerChunk : Z) (maxRowID currRowID : string) : option (result (list Chunk)) :=
  match fuel with
  | O => None
  | S fuel =>
      and_then (next currRowID) (λ '(nextRowID, rowCount),
      if (rowCount <? rowsPerChunk) || String.eqb nextRowID maxRowID then Some (Ok [mkChunk (AString currRowID) ANil])
      else match rowid_loop fuel next rowsPerChunk maxRowID nextRowID with
           | Some (Ok l) => Some (Ok (mkChunk (AString currRowID) (AString nextRowID) :: l))
           | r => r
           end)
  end.
Definition splitViaTableIterationLoop (fuel : nat) (db : OracleDB) stream (rowsPerChunk : Z) : option (result (list Chunk)) :=
  and_then (o_min_max db) (λ '(minRowID, maxRowID),
  match rowid_loop fuel (λ r, o_next db (NextRowIDQuery is_print stream r rowsPerChunk)) rowsPerChunk maxRowID minRowID with
  | Some (Ok l) => Some (Ok (mkChunk ANil (AString minRowID) :: l))
  | r => r
  end).

Definition splitViaTableIteration (fuel : nat) (db : OracleDB) stream (approxRowCount : Z) (avgRowSize : spec_float) : option (result (list Chunk)) :=
  let rowsPerChunk := at_least_one (int64 (Ceil (f_div (sf64 EffectiveParquetSize) avgRowSize))) in
  if approxRowCount <=? 0 then splitViaTableIterationLoop fuel db stream rowsPerChunk
  else
    let numberOfChunks := at_least_one (ceil_div approxRowCount rowsPerChunk) in
    match splitViaTableIterationSample db approxRowCount numberOfChunks with
    | Err _ => splitViaTableIterationLoop fuel db stream rowsPerChunk
    | r => Some r
    end.

Definition splitViaRowID (db : OracleDB) : result (list Chunk) :=
  let blockSize := match o_block_size db with Some b => if b =? 0 then 8192 else b | None => 8192 end in
  let blocksPerChunk := ceil_div EffectiveParquetSize blockSize in
  match o_create_task db, o_create_chunks db blocksPerChunk with
  | Some e, _ => Err ("failed to create task: " +:+ e)
  | None, Some e => Err ("failed to create chunks: " +:+ e)
  | None, None =>
      match o_start_rowids db with
      | QueryFailed e | RowsFailed e => Err ("failed to retrieve chunks: " +:+ e)
      | Rows startRowIDs => Ok (buildChunksFromStartRowIDs startRowIDs)
      end
  end.

Definition Oracle_GetOrSplitChunks (fuel : nat) (db : OracleDB) stream : plan :=
  let approxRowCount := from_option fst 0 (o_stats db) in
  let avgRowSize := default (S754_zero false) (o_stats db ≫= snd) in
  let avgRowSize := if SFltb (S754_zero false) avgRowSize then avgRowSize else sf64 300 in
  (approxRowCount,
   match o_any_row db with
   | Some NoRows => Some (Ok [])
   | Some (Failed e) => Some (Err ("failed to check for rows: " +:+ e))
   | None =>
       match splitViaRowID db with
       | Err _ => splitViaTableIteration fuel db stream approxRowCount avgRowSize
       | r => Some r
       end
   end).

Definition Oracle_ChunkIterator s stream chunk : result (string * list any) :=
  '(filter, args) ← chunk_filter s stream Oracle;
  stmt ← OracleChunkScanQuery is_print stream chunk filter;
  Ok (stmt, args).

(** ** SQL Server *)
Record MSSQLDB := {
  ms_stats : result (Z * any);
  ms_has_rows : result bool;
  ms_extremes : string → result (any * any);
  ms_column_type : string → result string;
  ms_next : string → list string → any * option query_err;
  ms_sample : spec_float → option string * rows any;        (* type of the key column, sampled keys *)
  ms_server : option (Z * Z);                               (* major version, engine edition *)
  ms_page_permission : bool;
  ms_object_id : result Z;
  ms_pages : Z → rows (Z * Z);                              (* file and page *)
  ms_physloc_extremes : result (option string * option string);
  ms_physloc_next : string → string → option string * option query_err
}.

Definition HexEncode (b : string) : string := "0x" +:+ string_of (concat (hex_digits 2 <$> bytes_of b)).

Definition hex2 (b : Z) : string := string_of (hex_digits 2 b).
Definition formatUniqueIdentifierBytes (v : string) : option string :=
  match bytes_of v with
  | [v0; v1; v2; v3; v4; v5; v6; v7; v8; v9; v10; v11; v12; v13; v14; v15] =>
      Some (cat [cat (hex2 <$> [v3; v2; v1; v0]); "-"; cat (hex2 <$> [v5; v4]); "-"; cat (hex2 <$> [v7; v6]); "-";
                 cat (hex2 <$> [v8; v9]); "-"; cat (hex2 <$> [v10; v11; v12; v13; v14; v15])])
  | _ => None
  end.

Definition normalizeBoundaryValue (value : any) (pkCols : list string) (columnType : string) : string :=
  let plain := ConvertToString value in
  match pkCols with
  | [_] =>
      let columnType := ToLower columnType in
      match value with
      | ATime v =>
          if String.eqb columnType "date" then time_format "2006-01-02" v
          else if String.eqb columnType "time" then time_format "15:04:05.9999999" v
          else if contains ["datetime"; "datetime2"; "smalldatetime"] columnType then time_format "2006-01-02 15:04:05.9999999" v
          else plain
      | ABytes v =>
          if String.eqb columnType "uniqueidentifier" then default plain (formatUniqueIdentifierBytes v)
          else if contains ["numeric"; "decimal"; "money"; "smallmoney"] columnType then v
          else HexEncode v
      | _ => plain
      end
  | _ => plain
  end.

(** The key of a page in the byte order of [%%physloc%%]: the page little-endian, the
    file little-endian, slot 0xFFFF, read as one big-endian number. *)
Definition be_number (bs : list Z) : Z := foldl (λ n b, n * 256 + b) 0 bs.
Definition le_bytes (n : nat) (z : Z) : list Z := (λ i, (z / 256 ^ Z.of_nat i) mod 256) <$> seq 0 n.
Definition physlocSortKey (fileID pageID : Z) : Z := be_number (le_bytes 4 pageID ++ le_bytes 2 fileID ++ [255; 255]).
Definition physLocBytes (key : Z) : string := string_of (reverse (le_bytes 8 key)).

Definition usableBytesPerPage : Z := 8060.
Definition pagesPerChunk : Z := Z.max (EffectiveParquetSize / usableBytesPerPage) 1.

(** Every [pagesPerChunk]th page of the sorted list. *)
Fixpoint iam_bounds (fuel : nat) (step : Z) (pages : list Z) (i : Z) : list any :=
  match fuel with
  | O => []
  | S fuel =>
      match pages !! Z.to_nat i with
      | Some page => AString (HexEncode (physLocBytes page)) :: iam_bounds fuel step pages (i + step)
      | None => []
      end
  end.
Definition splitViaIAMWalk (db : MSSQLDB) : result (list Chunk) :=
  objectID ← ms_object_id db;
  match ms_pages db objectID with
  | QueryFailed e => Err ("failed to run IAM walk query: " +:+ e)
  | RowsFailed e => Err e
  | Rows [] => Err "IAM walk returned no allocated pages"
  | Rows l =>
      let pages := merge_sort Z.le ((λ r, physlocSortKey r.1 r.2) <$> l) in
      Ok (chunks_between (iam_bounds (length pages) pagesPerChunk pages pagesPerChunk))
  end.

Definition probeIAMWalkCapability (db : MSSQLDB) : bool :=
  match ms_server db with
  | Some (majorVersion, engineEdition) =>
      (11 <=? majorVersion) && negb ((engineEdition =? 5) || (engineEdition =? 8)) && ms_page_permission db
  | None => false
  end.

Fixpoint physloc_loop (fuel : nat) (next : string → option string * option query_err) (current : string) : option (result (list Chunk)) :=
  match fuel with
  | O => None
  | S fuel =>
      let '(nxt, err) := next current in
      let last := Some (Ok [mkChunk (AString (HexEncode current)) ANil]) in
      match nxt with
      | None => last
      | Some nxt =>
          if is_no_rows err || String.eqb current nxt then last
          else match err with
               | Some e => Some (Err "failed to get next %%physloc%% chunk end")
               | None =>
                   match physloc_loop fuel next nxt with
                   | Some (Ok l) => Some (Ok (mkChunk (AString (HexEncode current)) (AString (HexEncode nxt)) :: l))
                   | r => r
                   end
               end
      end
  end.
Definition splitViaPhysLoc (fuel : nat) (db : MSSQLDB) stream (chunkSize : Z) : option (result (list Chunk)) :=
  and_then (ms_physloc_extremes db) (λ '(minVal, maxVal),
  match minVal, maxVal with
  | Some minVal, Some _ =>
      match physloc_loop fuel (ms_physloc_next db (MSSQLPhysLocNextChunkEndQuery is_print stream chunkSize)) minVal with
      | Some (Ok l) => Some (Ok (mkChunk ANil (AString (HexEncode minVal)) :: l))
      | r => r
      end
  | _, _ => Some (Ok [])
  end).

Definition mssql_splitViaPrimaryKey (fuel : nat) (db : MSSQLDB) stream (pkCols : list string) (chunkSize : Z) : option (result (list Chunk)) :=
  and_then (ms_extremes db (MinMaxQueryMSSQL is_print stream pkCols)) (λ '(minVal, _),
  if is_nil minVal then Some (Ok [])
  else
    and_then (match pkCols with [c] => ms_column_type db c | _ => Ok "" end) (λ columnType,
    let render v := normalizeBoundaryValue v pkCols columnType in
    let query := MSSQLNextChunkEndQuery is_print stream pkCols chunkSize in
    splitViaPrimaryKey fuel (λ v, ms_next db query (TrimSpace <$> key_args pkCols (AString (render v)))) render minVal)).

Definition splitViaPKSample (db : MSSQLDB) (pkCols : list string) (approxRowCount numberOfChunks : Z) : result (list Chunk) :=
  let '(ty, sampled) := ms_sample db (ComputeSamplePercent approxRowCount numberOfChunks) in
  let columnType := match pkCols, ty with [_], Some t => ToLower t | _, _ => "" end in
  match sampled with
  | QueryFailed e => Err ("PK TABLESAMPLE query failed: " +:+ e)
  | RowsFailed e => Err e
  | Rows vals =>
      let samples := (λ v, normalizeBoundaryValue v pkCols columnType) <$> vals in
      let len := Z.of_nat (length samples) in
      if len <? numberOfChunks then Err "PK TABLESAMPLE returned too few rows"
      else (λ bs : list string, chunks_between (AString <$> bs)) <$> pick samples numberOfChunks (λ i, Z.min (sample_index len numberOfChunks i) (len - 1))
  end.

Definition mssql_plan (fuel : nat) (db : MSSQLDB) stream (approxRowCount : Z) (avgRowSize : any) : option (result (list Chunk)) :=
  and_then (ReformatFloat64 avgRowSize) (λ avgRowSizeFloat,
  let chunkSize := int64 (Ceil (f_div (sf64 EffectiveParquetSize) avgRowSizeFloat)) in
  let numberOfChunks := Z.max (ceil_div approxRowCount chunkSize) 1 in
  match key_columns stream with
  | [] =>
      let by_physloc := splitViaPhysLoc fuel db stream chunkSize in
      if probeIAMWalkCapability db then
        match splitViaIAMWalk db with Ok (c :: l) => Some (Ok (c :: l)) | Panic m => Some (Panic m) | _ => by_physloc end
      else by_physloc
  | keyCols =>
      match splitViaPKSample db keyCols approxRowCount numberOfChunks with
      | Ok (c :: l) => Some (Ok (c :: l))
      | Panic m => Some (Panic m)
      | _ => mssql_splitViaPrimaryKey fuel db stream keyCols chunkSize
      end
  end).

Definition MSSQL_GetOrSplitChunks (fuel : nat) (db : MSSQLDB) stream : plan :=
  match ms_stats db with
  | Ok (approxRowCount, avgRowSize) =>
      if approxRowCount =? 0 then (0, Some (hasRows ← ms_has_rows db; if hasRows : bool then Err "stats not populated for table" else Ok []))
      else (approxRowCount, mssql_plan fuel db stream approxRowCount avgRowSize)
  | _ => (0, Some (Err "failed to get approx row count and avg row size"))
  end.

Definition MSSQL_ChunkIterator s stream chunk : result (string * list any) :=
  '(filter, args) ← chunk_filter s stream MSSQL;
  Ok (match key_columns stream with
      | [] => MSSQLPhysLocChunkScanQuery is_print stream chunk filter
      | cols => MSSQLChunkScanQuery is_print stream cols chunk filter
      end, args).
End Planners.
