(* ===== verification/Transforms.v ===== *)
(** * destination/iceberg/arrow-writer/transforms.go: Iceberg partition transforms

    The partition of a record is the list of its transformed column values: a text for
    the directory of the data file and a typed value for the Iceberg metadata.  The
    murmur3 hash, [%g] and [time.Format] are parameters. *)

From S2P Require Import Prelude GoString GoSet DataTypes QueryEngine Value Schema Stream Catalog State Jdbc Chunking.

Definition NULL : string := "null".

(** A transform text: letters and an optional number in brackets
    ([^([a-zA-Z]+)(?:\[(\d+)\])?$]). *)
Definition is_letter (b : Z) : bool := in_range 97 122 b || in_range 65 90 b.
Fixpoint span (p : Z → bool) (l : list Z) : list Z * list Z :=
  match l with
  | [] => ([], [])
  | b :: l => if p b then let '(a, r) := span p l in (b :: a, r) else ([], b :: l)
  end.
Definition transformPattern (transform : string) : option (string * option string) :=
  let '(word, rest) := span is_letter (bytes_of transform) in
  match word, rest with
  | [], _ => None
  | _, [] => Some (string_of word, None)
  | _, 91 :: rest =>
      match span (in_range 48 57) rest with
      | (d :: ds, [93]) => Some (string_of word, Some (string_of (d :: ds)))
      | _ => None
      end
  | _, _ => None
  end.

Section Transforms.
Context `{GoEnv}.
Context (murmur3 : list Z → Z) (fmt_g : spec_float → string) (time_format : string → gotime → string).

Definition parseTransform (transform : string) : result (string * Z) :=
  if String.eqb transform "" then Err "empty transform"
  else match transformPattern transform with
       | None => Err "invalid transform"
       | Some (word, None) => Ok (ToLower word, 0)
       | Some (word, Some digits) =>
           match ParseInt 64 digits with Some arg => Ok (ToLower word, arg) | None => Err "invalid numeric argument in transform" end
       end.

(** The 8 bytes of [uint64(v)], least significant first. *)
Definition int_bytes (v : Z) : list Z := (λ i, (wrap_u 64 v / 256 ^ Z.of_nat i) mod 256) <$> seq 0 8.
Definition hashInt (v : Z) : Z := murmur3 (int_bytes v).
Definition hashString (s : string) : Z := murmur3 (bytes_of s).

(** The directory text and the typed value. *)
Definition partition_value : Type := string * any.

Definition FormatBool (b : bool) : string := if b then "true" else "false".

Definition identityTransform (val : any) (colType : string) : result partition_value :=
  if String.eqb colType "boolean" then b ← ReformatBool val; Ok (FormatBool b, ABool b)
  else if String.eqb colType "int" then v ← ReformatInt32 val; Ok (fmt_d v, AInt KInt32 v)
  else if String.eqb colType "long" then v ← ReformatInt64 val; Ok (fmt_d v, AInt KInt64 v)
  else if String.eqb colType "float" then v ← ReformatFloat32 val; Ok (fmt_g v, AFloat32 v)
  else if String.eqb colType "double" then v ← ReformatFloat64 val; Ok (fmt_g v, AFloat64 v)
  else if String.eqb colType "string" then match val with AString s => Ok (s, AString s) | _ => Err "expected string" end
  else if String.eqb colType "timestamptz" then
    t ← ReformatDate val true;
    let t := UTC t in
    if IsZero t then Ok (NULL, ANil) else Ok (time_format "2006-01-02T15:04:05-07:00" t, AInt KInt64 (UnixMicro t))
  else Ok (fmt_v val, val).

(** [Time.Sub] saturates at the int64 nanoseconds of a [Duration]. *)
Definition max_int64 : Z := 2 ^ 63 - 1.
Definition since_epoch (t : gotime) : Z := Z.max (- 2 ^ 63) (Z.min max_int64 (t_unix t * 1000000000 + t_nsec t)).
Definition Hours (d : Z) : spec_float :=
  let hour := 3600000000000 in f_add (sf64 (Z.quot d hour)) (f_div (sf64 (Z.rem d hour)) (sf64 hour)).
Definition Month (t : gotime) : Z := (civil_from_days (local_secs t / 86400)).1.2.

Definition timeTransform (val : any) (unit colType : string) : result partition_value :=
  if negb (String.eqb colType "timestamptz") then Err "unsupported time transform"
  else
    v ← ReformatDate val true;
    let v := UTC v in
    if IsZero v then Ok (NULL, ANil)
    else if String.eqb unit "year" then Ok (fmt_d (Year v), AInt KInt32 (wrap_s 32 (Year v - 1970)))
    else if String.eqb unit "month" then Ok (time_format "2006-01" v, AInt KInt32 (wrap_s 32 ((Year v - 1970) * 12 + (Month v - 1))))
    else if String.eqb unit "day" then Ok (time_format "2006-01-02" v, AInt KInt32 (f2i true 32 (f_div (Hours (since_epoch v)) (sf64 24))))
    else if String.eqb unit "hour" then Ok (time_format "2006-01-02-15" v, AInt KInt32 (f2i true 32 (Hours (since_epoch v))))
    else Err "unsupported time transform".

(** [None]: the zero time, which has no bucket. *)
Definition bucket_hash (val : any) (colType : string) : result (option Z) :=
  if String.eqb colType "int" then v ← ReformatInt32 val; Ok (Some (hashInt v))
  else if String.eqb colType "long" then v ← ReformatInt64 val; Ok (Some (hashInt v))
  else if String.eqb colType "timestamptz" then
    tm ← ReformatDate val true; if IsZero tm then Ok None else Ok (Some (hashInt (UnixMicro tm)))
  else if String.eqb colType "string" then match val with AString s => Ok (Some (hashString s)) | _ => Err "expected string" end
  else Err "unsupported colType for bucket transform".
Definition bucketTransform (val : any) (num : Z) (colType : string) : result partition_value :=
  if num <=? 0 then Err "invalid number of buckets"
  else
    h ← bucket_hash val colType;
    match h with
    | None => Ok (NULL, ANil)
    | Some h =>
        let masked := Z.land h 2147483647 in
        let bucket := wrap_s 32 (Z.rem masked num) in
        Ok (fmt_d bucket, AInt KInt32 bucket)
    end.

(** [v - (((v % n) + n) % n)] in w-bit integers. *)
Definition truncate_int (w v n : Z) : Z := wrap_s w (v - Z.rem (wrap_s w (Z.rem v n + n)) n).
Definition truncate_string (s : string) (n : Z) : string :=
  let runes := rune_list s in
  if Z.of_nat (length runes) <=? n then s else string_of (concat (encode_rune <$> take (Z.to_nat n) runes)).
Definition truncateTransform (val : any) (n : Z) (colType : string) : result partition_value :=
  if n <=? 0 then Err "invalid truncate width"
  else if String.eqb colType "int" then
    v ← ReformatInt32 val;
    if 2147483647 <? n then Err "truncate width exceeds int32 range"
    else let trunc := truncate_int 32 v n in Ok (fmt_d trunc, AInt KInt32 trunc)
  else if String.eqb colType "long" then
    v ← ReformatInt64 val; let trunc := truncate_int 64 v n in Ok (fmt_d trunc, AInt KInt64 trunc)
  else if String.eqb colType "string" then
    match val with AString v => let t := truncate_string v n in Ok (t, AString t) | _ => Err "expected string" end
  else Err "unsupported colType for truncate transform".

Definition TransformValue (val : any) (transform colType : string) : result partition_value :=
  let transform := TrimSpace (ToLower transform) in
  if is_nil val then Ok (NULL, ANil)
  else
    '(base, arg) ← parseTransform transform;
    if String.eqb base "identity" then identityTransform val colType
    else if String.eqb base "void" then Ok (NULL, ANil)
    else if contains ["year"; "month"; "day"; "hour"] base then timeTransform val base colType
    else if String.eqb base "bucket" then bucketTransform val arg colType
    else if String.eqb base "truncate" then truncateTransform val arg colType
    else Err "unknown partition transform".

(** [url.QueryEscape] *)
Definition upper_hex (d : Z) : Z := if d <? 10 then 48 + d else 55 + d.
Definition escape_byte (b : Z) : list Z :=
  if is_letter b || in_range 48 57 b || bool_decide (b ∈ [45; 95; 46; 126]) then [b]
  else if b =? 32 then [43]
  else [37; upper_hex (b / 16); upper_hex (b mod 16)].
Definition QueryEscape (s : string) : string := string_of (concat (escape_byte <$> bytes_of s)).

Definition ConstructColPath (valueStr field transform : string) : string :=
  let base := match parseTransform transform with Ok (base, _) => base | _ => "" end in
  let encodedField := QueryEscape field in
  let encodedValue := QueryEscape valueStr in
  if String.eqb base "identity" then cat [encodedField; "="; encodedValue]
  else if String.eqb base "bucket" then cat [encodedField; "_bucket="; encodedValue]
  else if String.eqb base "truncate" then cat [encodedField; "_trunc="; encodedValue]
  else cat [encodedField; "_"; base; "="; encodedValue].

(** The values the metadata message can carry. *)
Inductive PartitionValue :=
| Unset
| IntValue (z : Z)
| LongValue (z : Z)
| FloatValue (f : spec_float)
| DoubleValue (f : spec_float)
| StringValue (s : string)
| BoolValue (b : bool).
Definition toProtoPartitionValue (val : any) : result PartitionValue :=
  match val with
  | ANil => Ok Unset
  | AInt KInt32 v => Ok (IntValue v)
  | AInt KInt64 v => Ok (LongValue v)
  | AFloat32 v => Ok (FloatValue v)
  | AFloat64 v => Ok (DoubleValue v)
  | AString v => Ok (StringValue v)
  | ABool v => Ok (BoolValue v)
  | _ => Err "unsupported partition value type"
  end.
Definition toProtoPartitionValues (values : list any) : result (list PartitionValue) :=
  foldM (λ acc v, pv ← toProtoPartitionValue v; Ok (acc ++ [pv])) [] values.
End Transforms.
