(* ===== verification/TransformsFacts.v ===== *)
(** * Theorems about partition transforms: typed values, buckets and truncation *)

From S2P Require Import Prelude GoString GoSet DataTypes QueryEngine Value ValueFacts Schema Stream StreamFacts Catalog State StateFacts Jdbc Chunking Transforms.

Section Facts.
Context `{GoEnv}.
Context (murmur3 : list Z → Z) (fmt_g : spec_float → string) (time_format : string → gotime → string).
Notation transform_ := (TransformValue murmur3 fmt_g time_format) (only parsing).

(** ** Types *)
Definition iceberg_types : list string := ["boolean"; "int"; "long"; "float"; "double"; "string"; "timestamptz"].

(** The Iceberg type of the transformed column; a timestamp is its microseconds. *)
Definition result_type (base colType : string) : string :=
  if contains ["year"; "month"; "day"; "hour"; "bucket"] base then "int"
  else if String.eqb colType "timestamptz" then "long" else colType.

(** A value of the message field of a type, within the width of that type. *)
Definition has_type (ty : string) (v : PartitionValue) : Prop :=
  match v with
  | Unset => False
  | IntValue z => ty = "int" ∧ - 2 ^ 31 ≤ z < 2 ^ 31
  | LongValue z => ty = "long" ∧ - 2 ^ 63 ≤ z < 2 ^ 63
  | FloatValue _ => ty = "float"
  | DoubleValue _ => ty = "double"
  | StringValue _ => ty = "string"
  | BoolValue _ => ty = "boolean"
  end.

(** ** Widths *)
Lemma f2i_width w f : 0 < w → - 2 ^ (w - 1) ≤ f2i true w f < 2 ^ (w - 1).
Proof.
  intros Hw. unfold f2i. cbv zeta. pose proof (wrap_s_range w (f2i_undefined true w f) Hw).
  destruct (sf_trunc f) as [z|]; [|done]. unfold in_range. destruct (_ && _) eqn:E; bool_hyps; lia.
Qed.
Lemma ParseInt_width w s z : ParseInt w s = Some z → - 2 ^ (w - 1) ≤ z < 2 ^ (w - 1).
Proof. by intros [_ ?]%ParseInt_Some. Qed.
Lemma ReformatInt32_width val v : ReformatInt32 val = Ok v → - 2 ^ 31 ≤ v < 2 ^ 31.
Proof.
  revert val v. fix IH 1. intros [|b|k z|fl|fl|s|s|l|t|s|l|l|k o|b t|z|s|t|k s] v Hv; cbn [ReformatInt32] in Hv; try discriminate Hv.
  - destruct b; injection Hv as <-; lia.
  - injection Hv as <-. by apply (wrap_s_range 32).
  - injection Hv as <-. by apply (f2i_width 32).
  - injection Hv as <-. by apply (f2i_width 32).
  - destruct (ParseInt 32 s) eqn:E; [injection Hv as <-|done]. by apply ParseInt_width in E.
  - pose proof (bytes_of_range s) as Hb. destruct (bytes_of s) as [|b []]; [done| |done]. injection Hv as <-. apply Forall_cons in Hb as [Hb _]. lia.
  - destruct (ParseInt 64 s); [injection Hv as <-|done]. by apply (wrap_s_range 32).
  - destruct k; try discriminate Hv. destruct o as [w|]; [|discriminate Hv]. exact (IH w v Hv).
Qed.
Lemma ReformatInt64_width val v : ReformatInt64 val = Ok v → - 2 ^ 63 ≤ v < 2 ^ 63.
Proof.
  revert val v. fix IH 1. intros [|b|k z|fl|fl|s|s|l|t|s|l|l|k o|b t|z|s|t|k s] v Hv; cbn [ReformatInt64] in Hv; try discriminate Hv.
  - destruct b; injection Hv as <-; lia.
  - injection Hv as <-. by apply (wrap_s_range 64).
  - injection Hv as <-. by apply (f2i_width 64).
  - injection Hv as <-. by apply (f2i_width 64).
  - destruct (ParseInt 64 s) eqn:E; [injection Hv as <-|done]. by apply ParseInt_width in E.
  - destruct (5 <? LoadedStateVersion); [|done]. destruct (ParseInt 64 s) eqn:E; [injection Hv as <-; by apply ParseInt_width in E|].
    destruct (Value.ParseUint 64 s); [injection Hv as <-|done]. by apply (wrap_s_range 64).
  - destruct (ParseInt 64 s) eqn:E; [injection Hv as <-|done]. by apply ParseInt_width in E.
  - destruct k; try discriminate Hv. destruct o as [w|]; [|discriminate Hv]. exact (IH w v Hv).
Qed.
Lemma wrap32_width z : - 2 ^ 31 ≤ wrap_s 32 z < 2 ^ 31.
Proof. by apply (wrap_s_range 32). Qed.
Lemma wrap64_width z : - 2 ^ 63 ≤ wrap_s 64 z < 2 ^ 63.
Proof. by apply (wrap_s_range 64). Qed.
Lemma f2i32_width f : - 2 ^ 31 ≤ f2i true 32 f < 2 ^ 31.
Proof. by apply (f2i_width 32). Qed.
Lemma UnixMicro_width t : - 2 ^ 63 ≤ UnixMicro t < 2 ^ 63.
Proof. apply wrap64_width. Qed.
Lemma truncate32_width v n : - 2 ^ 31 ≤ truncate_int 32 v n < 2 ^ 31.
Proof. apply wrap32_width. Qed.
Lemma truncate64_width v n : - 2 ^ 63 ≤ truncate_int 64 v n < 2 ^ 63.
Proof. apply wrap64_width. Qed.
#[local] Hint Resolve UnixMicro_width truncate32_width truncate64_width ReformatInt32_width ReformatInt64_width wrap32_width wrap64_width f2i32_width : width.

(** A typed value, or null with the null directory. *)
Definition typed_as (ty : string) (r : partition_value) : Prop :=
  r = (NULL, ANil) ∨ ∃ pv, toProtoPartitionValue r.2 = Ok pv ∧ has_type ty pv.

Ltac typed := first [left; reflexivity | right; eexists; split; [reflexivity|]; split; [done|solve [eauto with width]]
                     | right; eexists; split; [reflexivity|done]].
Ltac peel Hr := match type of Hr with
  | Ok _ = Ok _ => injection Hr as <-
  | Err _ = _ => discriminate Hr
  | (mbind _ ?x) = _ => let E := fresh "E" in destruct x eqn:E; cbn [mbind result_bind] in Hr; [peel Hr|discriminate Hr..]
  | (if ?b then _ else _) = _ => let E := fresh "E" in destruct b eqn:E; [peel Hr|peel Hr]
  | (match ?x with _ => _ end) = _ => let E := fresh "E" in destruct x eqn:E; try discriminate Hr; peel Hr
  | _ => idtac
  end.

Lemma identity_typed val colType r :
  colType ∈ iceberg_types → identityTransform fmt_g time_format val colType = Ok r → typed_as (result_type "identity" colType) r.
Proof.
  unfold iceberg_types. intros Hc. repeat (apply elem_of_cons in Hc as [->|Hc]); [..|by apply elem_of_nil in Hc]; unfold identityTransform;
    cbn [String.eqb Ascii.eqb Bool.eqb]; intros Hr; cbn beta iota zeta in Hr; peel Hr; typed.
Qed.
Lemma time_typed val unit colType r : timeTransform time_format val unit colType = Ok r → typed_as "int" r.
Proof. unfold timeTransform. intros Hr. peel Hr; typed. Qed.
Lemma bucket_typed val num colType r : bucketTransform murmur3 val num colType = Ok r → typed_as "int" r.
Proof. unfold bucketTransform. intros Hr. destruct (num <=? 0); [done|]. peel Hr; typed. Qed.
Lemma truncate_typed val n colType r : truncateTransform val n colType = Ok r → typed_as (result_type "truncate" colType) r.
Proof.
  unfold truncateTransform. intros Hr. destruct (n <=? 0); [done|].
  destruct (String.eqb_spec colType "int") as [->|]; [peel Hr; typed|].
  destruct (String.eqb_spec colType "long") as [->|]; [peel Hr; typed|].
  destruct (String.eqb_spec colType "string") as [->|]; [|done]. destruct val; try done. injection Hr as <-. typed.
Qed.

(** C34: partition values are well typed.  For a column of one of the seven Iceberg types
    the writer creates, whatever the value and the transform text, a transform that
    succeeds gives null with the null directory, or a value the commit message can carry
    whose field is that of the type of the transformed column (int for year, month, day,
    hour and bucket, long for a timestamp, else the type of the column), an int within 32
    and a long within 64 bits. *)
Theorem transform_values_typed val transform colType r :
  colType ∈ iceberg_types → transform_ val transform colType = Ok r →
  r = (NULL, ANil) ∨ ∃ base arg, parseTransform (TrimSpace (ToLower transform)) = Ok (base, arg) ∧ typed_as (result_type base colType) r.
Proof.
  intros Hc. unfold TransformValue. destruct (is_nil val); [intros [= <-]; by left|].
  destruct (parseTransform _) as [[base arg]| |] eqn:Ep; [|done..]. cbn [mbind result_bind]. intros Hr.
  destruct (String.eqb_spec base "identity") as [->|].
  { right. exists "identity", arg. split; [done|]. by apply (identity_typed val). }
  destruct (String.eqb base "void"); [left; by injection Hr as <-|].
  destruct (contains ["year"; "month"; "day"; "hour"] base) eqn:Et.
  { right. exists base, arg. split; [done|]. assert (result_type base colType = "int") as ->; [|by eapply time_typed].
    unfold result_type. assert (contains ["year"; "month"; "day"; "hour"; "bucket"] base = true) as ->; [|done].
    unfold contains in *. apply bool_decide_eq_true in Et. apply bool_decide_eq_true. set_solver. }
  destruct (String.eqb_spec base "bucket") as [->|]; [right; exists "bucket", arg; split; [done|]; by eapply bucket_typed|].
  destruct (String.eqb_spec base "truncate") as [->|]; [right; exists "truncate", arg; split; [done|]; by eapply truncate_typed|done].
Qed.

(** ** Buckets and truncation *)
Lemma mask31 h : 0 ≤ Z.land h 2147483647 < 2 ^ 31.
Proof. change 2147483647 with (Z.ones 31). rewrite Z.land_ones by lia. apply Z.mod_pos_bound. lia. Qed.

Lemma rem_shift v n : 0 < n → Z.rem (Z.rem v n + n) n = v mod n.
Proof.
  intros Hn. destruct (Z.le_gt_cases 0 v) as [Hv|Hv].
  - rewrite (Z.rem_mod_nonneg v n) by lia. pose proof (Z.mod_pos_bound v n Hn). rewrite Z.rem_mod_nonneg by lia.
    replace (v mod n + n) with (v mod n + 1 * n) by lia. rewrite Z.mod_add by lia. by apply Z.mod_mod; lia.
  - pose proof (Z.rem_bound_pos (- v) n). rewrite <- (Z.opp_involutive v) at 1. rewrite Z.rem_opp_l by lia.
    rewrite Z.rem_mod_nonneg by lia. rewrite Z.rem_mod_nonneg by lia. pose proof (Z.div_mod (- v) n).
    replace (- ((- v) mod n) + n) with (v + ((- v) / n + 1) * n) by lia. apply Z.mod_add. lia.
Qed.

Lemma truncate_exact w v n :
  2 ≤ w → - 2 ^ (w - 1) ≤ v < 2 ^ (w - 1) → 1 ≤ n → Z.rem v n + n < 2 ^ (w - 1) → - 2 ^ (w - 1) ≤ v - v mod n →
  truncate_int w v n = v - v mod n.
Proof.
  intros Hw Hv Hn Hhi Hlo. unfold truncate_int.
  assert (- n < Z.rem v n < n). { pose proof (Z.rem_bound_abs v n). lia. }
  rewrite (wrap_s_id w (Z.rem v n + n)) by lia. rewrite rem_shift by lia. pose proof (Z.mod_pos_bound v n). apply wrap_s_id; lia.
Qed.
Lemma greatest_multiple v n : 1 ≤ n → (n | v - v mod n) ∧ v - v mod n ≤ v < v - v mod n + n.
Proof. intros Hn. pose proof (Z.mod_pos_bound v n). pose proof (Z.div_mod v n). split; [exists (v / n)|]; lia. Qed.

Lemma truncated_runes s n : 0 < n → rune_list (truncate_string s n) = take (Z.to_nat n) (rune_list s).
Proof.
  intros Hn. unfold truncate_string. destruct (Z.leb_spec (Z.of_nat (length (rune_list s))) n); [by rewrite take_ge by lia|].
  apply rune_list_encode. apply Forall_take, rune_list_scalar.
Qed.

(** C35: buckets, truncation and calendar numbers.  A bucket number lies below the number
    of buckets.  An integer truncated to a width is the greatest multiple of the width
    not above it whenever no step of the computation leaves the integer type (remainder
    plus width at the top, the multiple at the bottom).  A truncated string has exactly
    the first code points of the string, as many as the width, and is a prefix of it when
    the string is valid UTF-8.  The year and month numbers of a timestamp whose UTC year lies
    within 0 to 10000 count the years and months from January 1970. *)
Theorem transform_bounds :
  (∀ val num colType path typed, bucketTransform murmur3 val num colType = Ok (path, typed) →
     typed = ANil ∨ ∃ b, typed = AInt KInt32 b ∧ path = fmt_d b ∧ 0 ≤ b < num)
  ∧ (∀ val v n path typed, ReformatInt32 val = Ok v → Z.rem v n + n < 2 ^ 31 → - 2 ^ 31 ≤ v - v mod n →
       truncateTransform val n "int" = Ok (path, typed) →
       ∃ t, typed = AInt KInt32 t ∧ path = fmt_d t ∧ (n | t) ∧ t ≤ v < t + n)
  ∧ (∀ val v n path typed, ReformatInt64 val = Ok v → Z.rem v n + n < 2 ^ 63 → - 2 ^ 63 ≤ v - v mod n →
       truncateTransform val n "long" = Ok (path, typed) →
       ∃ t, typed = AInt KInt64 t ∧ path = fmt_d t ∧ (n | t) ∧ t ≤ v < t + n)
  ∧ (∀ s n path typed, truncateTransform (AString s) n "string" = Ok (path, typed) →
       typed = AString path ∧ rune_list path = take (Z.to_nat n) (rune_list s)
       ∧ (utf8_valid s → ∃ rest, s = path +:+ rest))
  ∧ (∀ val t path typed, ReformatDate val true = Ok t → IsZero t = false → 0 ≤ Year (UTC t) ≤ 10000 →
       (timeTransform time_format val "year" "timestamptz" = Ok (path, typed) →
          typed = AInt KInt32 (Year (UTC t) - 1970) ∧ path = fmt_d (Year (UTC t)))
       ∧ (timeTransform time_format val "month" "timestamptz" = Ok (path, typed) →
          ∃ m, typed = AInt KInt32 m ∧ 1970 + m / 12 = Year (UTC t) ∧ 1 + m mod 12 = Month (UTC t) ∧ path = time_format "2006-01" (UTC t))).
Proof.
  split_and!.
  - intros val num colType path typed. unfold bucketTransform. destruct (Z.leb_spec num 0); [done|].
    destruct (bucket_hash _ _ _) as [[h|]| |]; [|intros [= <- <-]; by left|done..]. cbn [mbind result_bind]. intros [= <- <-]. right.
    pose proof (mask31 h). assert (Hr : 0 ≤ Z.rem (Z.land h 2147483647) num < num ∧ Z.rem (Z.land h 2147483647) num ≤ Z.land h 2147483647).
    { split; [apply Z.rem_bound_pos; lia|apply Z.rem_le; lia]. }
    rewrite wrap_s_id by (change (2 ^ (32 - 1)) with (2 ^ 31); lia). eexists. split_and!; [done..|lia|lia].
  - intros val v n path typed Hv Hhi Hlo. unfold truncateTransform. destruct (Z.leb_spec n 0); [done|]. cbn [String.eqb Ascii.eqb Bool.eqb].
    rewrite Hv. cbn [mbind result_bind]. destruct (Z.ltb_spec 2147483647 n); [done|]. apply ReformatInt32_width in Hv.
    rewrite truncate_exact by (done || lia). intros [= <- <-]. destruct (greatest_multiple v n); [lia|]. eexists. split_and!; [done..|lia|lia].
  - intros val v n path typed Hv Hhi Hlo. unfold truncateTransform. destruct (Z.leb_spec n 0); [done|]. cbn [String.eqb Ascii.eqb Bool.eqb].
    rewrite Hv. cbn [mbind result_bind]. apply ReformatInt64_width in Hv. rewrite truncate_exact by (done || lia). intros [= <- <-].
    destruct (greatest_multiple v n); [lia|]. eexists. split_and!; [done..|lia|lia].
  - intros s n path typed. unfold truncateTransform. destruct (Z.leb_spec n 0); [done|]. cbn [String.eqb Ascii.eqb Bool.eqb]. intros [= <- <-].
    split; [done|]. split; [by apply truncated_runes|]. intros Hu. unfold truncate_string.
    destruct (Z.leb_spec (Z.of_nat (length (rune_list s))) n); [exists EmptyString; by rewrite append_nil_r|].
    exists (string_of (concat (encode_rune <$> drop (Z.to_nat n) (rune_list s)))).
    rewrite <- string_of_app, <- concat_app, <- fmap_app, take_drop. by symmetry.
  - intros val t path typed Ht Hz Hy. unfold timeTransform. rewrite Ht. cbn [String.eqb Ascii.eqb Bool.eqb negb mbind result_bind].
    assert (IsZero (UTC t) = false) as -> by done. split.
    + intros [= <- <-]. by rewrite wrap_s_id by lia.
    + intros [= <- <-]. pose proof (civil_shape (local_secs (UTC t) / 86400)) as Hs.
      assert (Hm : 1 ≤ Month (UTC t) ≤ 12). { unfold Month. destruct (civil_from_days _) as [[? ?] ?]. naive_solver. }
      rewrite wrap_s_id by lia. eexists. split; [done|]. split_and!; [| |done].
      * rewrite Z.div_add_l by lia. rewrite (Z.div_small (Month (UTC t) - 1)) by lia. lia.
      * rewrite (Z.add_comm (_ * 12)), Z.mod_add by lia. rewrite Z.mod_small by lia. lia.
Qed.
End Facts.

(** ** Where the values leave the transform of the table format *)
Section Departures.
#[local] Instance wt_env : GoEnv := bare_env.
Notation day t := (timeTransform (λ _ _, "") (ATime t) "day" "timestamptz") (only parsing).

(** Noon of 31 December 1969 is day -1; the duration is truncated towards zero. *)
Lemma day_before_epoch : day (mkTime (-43200) 0 0) = Ok ("", AInt KInt32 0) ∧ -43200 / 86400 = -1.
Proof. split; [vm_compute|]; reflexivity. Qed.
(** From 2262 on every time is day 106751: the duration saturates. *)
Lemma day_saturates : day (mkTime 10413792000 0 0) = Ok ("", AInt KInt32 106751) ∧ 10413792000 / 86400 = 120530.
Proof. split; [vm_compute|]; reflexivity. Qed.
(** The last nanoseconds of an hour round to the next one. *)
Lemma hour_rounds_up :
  timeTransform (λ _ _, "") (ATime (mkTime 1704067199 999999990 0)) "hour" "timestamptz" = Ok ("", AInt KInt32 473352) ∧ 1704067199 / 3600 = 473351.
Proof. split; [vm_compute|]; reflexivity. Qed.
(** A width above a quarter of the range overflows. *)
Lemma truncate_overflows : truncate_int 32 2147483646 2147483647 = -2147483647 ∧ 2147483646 - 2147483646 mod 2147483647 = 0.
Proof. split; [vm_compute|]; reflexivity. Qed.

(** The directory of an identity partition of timestamps shows seconds, the value microseconds: two
    times of one second share the directory and differ in value. *)
Lemma timestamp_identity_collides fmt_g time_format :
  time_format "2006-01-02T15:04:05-07:00" (mkTime 1000 0 0) = time_format "2006-01-02T15:04:05-07:00" (mkTime 1000 5000 0) →
  ∃ path, identityTransform fmt_g time_format (ATime (mkTime 1000 0 0)) "timestamptz" = Ok (path, AInt KInt64 1000000000)
    ∧ identityTransform fmt_g time_format (ATime (mkTime 1000 5000 0)) "timestamptz" = Ok (path, AInt KInt64 1000000005).
Proof.
  intros Hf. exists (time_format "2006-01-02T15:04:05-07:00" (mkTime 1000 0 0)). split; [reflexivity|]. rewrite Hf. reflexivity.
Qed.

(** ** Witnesses *)
Lemma transform_values_typed_witness :
  ∃ base arg, parseTransform "bucket[7]" = Ok (base, arg) ∧ typed_as (result_type base "int") ("2", AInt KInt32 2).
Proof.
  destruct (transform_values_typed (λ _, 2147483650) (λ _, "") (λ _ _, "") (AInt KInt64 5) " Bucket[7]" "int" ("2", AInt KInt32 2)) as [Hn|(base & arg & Hp & Ht)].
  - set_solver.
  - vm_compute. reflexivity.
  - discriminate Hn.
  - exists base, arg. split; [exact Hp|exact Ht].
Defined.

Lemma transform_bounds_witness : ∃ t, AInt KInt32 (-10) = AInt KInt32 t ∧ "-10" = fmt_d t ∧ (10 | t) ∧ t ≤ -3 < t + 10.
Proof.
  apply (proj1 (proj2 (transform_bounds (λ _, 0) (λ _ _, EmptyString))) (AInt KInt64 (-3)) (-3) 10 "-10" (AInt KInt32 (-10))); [reflexivity|vm_compute; reflexivity|vm_compute; discriminate|vm_compute; reflexivity].
Defined.
End Departures.
