(* ===== verification/ArrowWriter.v ===== *)
(** * destination/iceberg/arrow-writer: writer.go and utils.go

    The Arrow writer turns batches of records into Parquet data and delete files of an
    Iceberg table.  Files are uploaded and committed by a server process; the record
    index resolves an identity to the row that holds it.  The server, the index and the
    Parquet library are interfaces: [ServerClient], [StreamIndex], [ParquetLib]. *)

From S2P Require Import Prelude GoString GoSet DataTypes QueryEngine Value Schema Stream Catalog State Fields Writers TwoPC IndexDB Jdbc Chunking Transforms.

(** ** internal/utils.go and the messages of records_ingest.proto the writer exchanges *)
Record PartitionInfo := mkPartition { pi_Field : string; pi_SchemaField : string; pi_Transform : string }.

Record FileMetadata := mkFileMeta {
  fm_FileType : string; fm_FilePath : string; fm_RecordCount : Z; fm_PartitionValues : list PartitionValue
}.
Record DVEntry := mkDV { dv_DataFilePath : string; dv_Positions : list Z; dv_PartitionValues : list PartitionValue }.

(** ** Arrow schemas and records *)
Inductive arrow_type := ArrowBool | ArrowInt32 | ArrowInt64 | ArrowFloat32 | ArrowFloat64 | ArrowTimestamp | ArrowString.
#[export] Instance arrow_type_eq : EqDecision arrow_type.
Proof. solve_decision. Defined.
Inductive cell :=
| CBool (b : bool) | CInt32 (z : Z) | CInt64 (z : Z) | CFloat32 (f : spec_float) | CFloat64 (f : spec_float)
| CTimestamp (micros : Z) | CString (s : string).
Record arrow_field := mkArrowField { af_Name : string; af_Type : arrow_type; af_Nullable : bool; af_ID : Z }.
Abbreviation arrow_schema := (list arrow_field) (only parsing).
Abbreviation arrow_row := (list (option cell)) (only parsing).

(** What an uploaded file contains. *)
Record parquet_file := mkParquet { pf_schema : arrow_schema; pf_meta : list (string * string); pf_rows : list arrow_row }.

Inductive ArrowPayload :=
| JSONSCHEMA
| FILEPATH
| UPLOAD_FILE (data : parquet_file) (path : string)
| DELETION_VECTORS (entries : list DVEntry)
| REGISTER_AND_COMMIT (files : list FileMetadata) (payload : string) (baseSnapshotID : option Z).
Record ArrowIngestResponse := mkArrowResp {
  ar_Result : string; ar_IcebergSchemas : gmap string string; ar_SnapshotId : option Z
}.

Definition fileTypeData : string := "data".
Definition fileTypeEqualityDelete : string := "equalityDelete".
Definition fileTypePositionalDelete : string := "positionalDelete".
Definition targetDataFileSize : Z := 512 * 1024 * 1024.
Definition targetDeleteFileSize : Z := 64 * 1024 * 1024.
Definition deletionVectorBatchSize : Z := 100000.

(** Iceberg's reserved field ids of a positional delete file. *)
Definition posDeleteFilePathFieldID : Z := 2147483546.
Definition posDeletePosFieldID : Z := 2147483545.

Class ServerClient := {
  server : Type;
  SendClientRequest : server → string → ArrowPayload → server * result ArrowIngestResponse
}.

(** types.StreamIndex *)
Class StreamIndex := {
  index : Type;
  Index_Lookup : index → string → result (option RowLocation * index);
  Index_Commit : index → StreamIndexThread → option Z → result index;
  Index_LastCommittedSnapshot : index → result Z;
  Index_Truncate : index → index
}.
#[global] Instance pebble_stream_index `{KVStore} `{GoRange} : StreamIndex := {|
  index := pebbleIndex; Index_Lookup := Lookup; Index_Commit i batch s := Commit i (Some (changes batch)) s;
  Index_LastCommittedSnapshot := LastCommittedSnapshot; Index_Truncate := Truncate
|}.

(** The Parquet library: the bytes written for some rows, and the errors of opening a
    file, of writing a batch of rows after others, and of closing it. *)
Class ParquetLib := {
  size_so_far : arrow_schema → list arrow_row → Z;
  open_error : arrow_schema → option string;
  write_error : arrow_schema → list arrow_row → list arrow_row → option string;
  close_error : arrow_schema → list arrow_row → option string
}.

Definition toArrowType (icebergType : string) : arrow_type :=
  if String.eqb icebergType "boolean" then ArrowBool
  else if String.eqb icebergType "int" then ArrowInt32
  else if String.eqb icebergType "long" then ArrowInt64
  else if String.eqb icebergType "float" then ArrowFloat32
  else if String.eqb icebergType "double" then ArrowFloat64
  else if String.eqb icebergType "timestamptz" then ArrowTimestamp
  else ArrowString.

(** ** State *)
Record PositionalDelete := mkPosDelete { pd_FilePath : string; pd_Position : Z }.

Record RollingWriter := mkRolling {
  fileType : string;
  rw_filePath : string;
  rw_schema : arrow_schema;
  rw_meta : list (string * string);
  rw_rows : list arrow_row;      (* what [currentWriter] wrote to [currentBuffer] *)
  currentRowCount : Z;
  partitionValues : list any
}.

Record Writer_ := mkWriter {
  dataWriter : option RollingWriter;
  equalityDeleteWriter : option RollingWriter;
  positionalDeleteWriter : option RollingWriter;
  olakeIDPosition : gmap string PositionalDelete;
  w_data : list RawRecord;
  equalityDeletes : list string;
  positionalDeletes : list PositionalDelete
}.

Record PartitionFiles := mkFiles {
  DataFiles : list FileMetadata; EqDeleteFiles : list FileMetadata; PosDeleteFiles : list FileMetadata
}.

Record pendingVector := mkVector { pv_positions : list Z; pv_partitionValues : list any }.

Record ArrowWriter := mkArrowWriter {
  aw_threadID : string;
  aw_stream : ConfiguredStream;
  aw_partitionInfo : list PartitionInfo;
  upsertMode : bool;
  deleteMode : UpdateType;
  fileschemajson : gmap string string;
  aw_schema : gmap string string;
  arrowSchema : gmap string arrow_schema;
  writers : gmap string Writer_;
  createdFiles : gmap string PartitionFiles;
  indexThread : option StreamIndexThread;
  pendingVectors : gmap string pendingVector;
  pendingVectorCount : Z
}.

Definition set_fileschemajson (m : gmap string string) (w : ArrowWriter) : ArrowWriter :=
  mkArrowWriter (aw_threadID w) (aw_stream w) (aw_partitionInfo w) (upsertMode w) (deleteMode w) m (aw_schema w) (arrowSchema w) (writers w)
    (createdFiles w) (indexThread w) (pendingVectors w) (pendingVectorCount w).
Definition set_schema (m : gmap string string) (w : ArrowWriter) : ArrowWriter :=
  mkArrowWriter (aw_threadID w) (aw_stream w) (aw_partitionInfo w) (upsertMode w) (deleteMode w) (fileschemajson w) m (arrowSchema w) (writers w)
    (createdFiles w) (indexThread w) (pendingVectors w) (pendingVectorCount w).
Definition set_arrowSchema (ft : string) (s : arrow_schema) (w : ArrowWriter) : ArrowWriter :=
  mkArrowWriter (aw_threadID w) (aw_stream w) (aw_partitionInfo w) (upsertMode w) (deleteMode w) (fileschemajson w) (aw_schema w)
    (<[ft := s]> (arrowSchema w)) (writers w) (createdFiles w) (indexThread w) (pendingVectors w) (pendingVectorCount w).
Definition set_writer (pKey : string) (x : Writer_) (w : ArrowWriter) : ArrowWriter :=
  mkArrowWriter (aw_threadID w) (aw_stream w) (aw_partitionInfo w) (upsertMode w) (deleteMode w) (fileschemajson w) (aw_schema w) (arrowSchema w)
    (<[pKey := x]> (writers w)) (createdFiles w) (indexThread w) (pendingVectors w) (pendingVectorCount w).
Definition set_files (pKey : string) (x : PartitionFiles) (w : ArrowWriter) : ArrowWriter :=
  mkArrowWriter (aw_threadID w) (aw_stream w) (aw_partitionInfo w) (upsertMode w) (deleteMode w) (fileschemajson w) (aw_schema w) (arrowSchema w)
    (writers w) (<[pKey := x]> (createdFiles w)) (indexThread w) (pendingVectors w) (pendingVectorCount w).
Definition set_indexThread (t : option StreamIndexThread) (w : ArrowWriter) : ArrowWriter :=
  mkArrowWriter (aw_threadID w) (aw_stream w) (aw_partitionInfo w) (upsertMode w) (deleteMode w) (fileschemajson w) (aw_schema w) (arrowSchema w)
    (writers w) (createdFiles w) t (pendingVectors w) (pendingVectorCount w).
Definition set_vectors (m : gmap string pendingVector) (n : Z) (w : ArrowWriter) : ArrowWriter :=
  mkArrowWriter (aw_threadID w) (aw_stream w) (aw_partitionInfo w) (upsertMode w) (deleteMode w) (fileschemajson w) (aw_schema w) (arrowSchema w)
    (writers w) (createdFiles w) (indexThread w) m n.

Definition with_data (x : Writer_) (d : list RawRecord) : Writer_ :=
  mkWriter (dataWriter x) (equalityDeleteWriter x) (positionalDeleteWriter x) (olakeIDPosition x) d (equalityDeletes x) (positionalDeletes x).
Definition with_dataWriter (x : Writer_) (rw : option RollingWriter) : Writer_ :=
  mkWriter rw (equalityDeleteWriter x) (positionalDeleteWriter x) (olakeIDPosition x) (w_data x) (equalityDeletes x) (positionalDeletes x).
Definition with_equalityWriter (x : Writer_) (rw : option RollingWriter) : Writer_ :=
  mkWriter (dataWriter x) rw (positionalDeleteWriter x) (olakeIDPosition x) (w_data x) (equalityDeletes x) (positionalDeletes x).
Definition with_positionalWriter (x : Writer_) (rw : option RollingWriter) : Writer_ :=
  mkWriter (dataWriter x) (equalityDeleteWriter x) rw (olakeIDPosition x) (w_data x) (equalityDeletes x) (positionalDeletes x).
Definition with_equality (x : Writer_) (id : string) (at_ : PositionalDelete) : Writer_ :=
  mkWriter (dataWriter x) (equalityDeleteWriter x) (positionalDeleteWriter x) (<[id := at_]> (olakeIDPosition x)) (w_data x)
    (equalityDeletes x ++ [id]) (positionalDeletes x).
Definition with_duplicate (x : Writer_) (id : string) (prev at_ : PositionalDelete) : Writer_ :=
  mkWriter (dataWriter x) (equalityDeleteWriter x) (positionalDeleteWriter x) (<[id := at_]> (olakeIDPosition x)) (w_data x)
    (equalityDeletes x) (positionalDeletes x ++ [prev]).
Definition with_delete (x : Writer_) (prev : PositionalDelete) : Writer_ :=
  mkWriter (dataWriter x) (equalityDeleteWriter x) (positionalDeleteWriter x) (olakeIDPosition x) (w_data x)
    (equalityDeletes x) (positionalDeletes x ++ [prev]).
(** [writer.data[:0]] and the other resets. *)
Definition reset_batch (x : Writer_) : Writer_ :=
  mkWriter (dataWriter x) (equalityDeleteWriter x) (positionalDeleteWriter x) (olakeIDPosition x) [] [] [].
Definition no_writer : Writer_ := mkWriter None None None ∅ [] [] [].
Definition with_op (rec : RawRecord) (op : string) : RawRecord := mkRaw (Data rec) (<[OpType := AString op]> (OlakeColumns rec)).

(** [strings.LastIndex(s, "/")]: what is before and after the last slash. *)
Fixpoint cut_last (s : string) : option (string * string) :=
  match s with
  | EmptyString => None
  | String c s' =>
      match cut_last s' with
      | Some (a, b) => Some (String c a, b)
      | None => if (byte_of c =? 47) then Some (EmptyString, s') else None
      end
  end.

(** ** Positional deletes are written in the order of path, then position *)
Definition pd_le (a b : PositionalDelete) : Prop :=
  (pd_FilePath a ≠ pd_FilePath b ∧ string_le (pd_FilePath a) (pd_FilePath b)) ∨ (pd_FilePath a = pd_FilePath b ∧ pd_Position a ≤ pd_Position b).
#[export] Instance pd_le_dec : RelDecision pd_le.
Proof. unfold RelDecision, pd_le. intros. apply _. Defined.
Definition sortPositionalDeletes (posDeletes : list PositionalDelete) : list PositionalDelete :=
  if (length posDeletes <=? 1)%nat then posDeletes else merge_sort pd_le posDeletes.

Definition createDeleteArrowRecord (records : list string) : list arrow_row := (λ rec, [Some (CString rec)]) <$> records.
Definition createPositionalDeleteArrowRecord (posDeletes : list PositionalDelete) : list arrow_row :=
  (λ del, [Some (CString (pd_FilePath del)); Some (CInt64 (pd_Position del))]) <$> sortPositionalDeletes posDeletes.

Definition createFields `{GoRange} (schema : gmap string string) (fieldIDs : gmap string Z) : list arrow_field :=
  (λ fieldName, mkArrowField fieldName (toArrowType (default "" (schema !! fieldName))) (negb (String.eqb fieldName OlakeID))
                  (default 0 (fieldIDs !! fieldName)))
  <$> merge_sort string_le (range schema).*1.

Section Records.
Context `{GoEnv} (json_marshal : any → option string).

Definition appendValueToBuilder (builder : arrow_type) (val : any) : result cell :=
  match builder with
  | ArrowBool => CBool <$> ReformatBool val
  | ArrowInt32 => CInt32 <$> ReformatInt32 val
  | ArrowInt64 => CInt64 <$> ReformatInt64 val
  | ArrowFloat32 => CFloat32 <$> ReformatFloat32 val
  | ArrowFloat64 => CFloat64 <$> ReformatFloat64 val
  | ArrowTimestamp => t ← ReformatDate val true; Ok (CTimestamp (UnixMicro t))
  | ArrowString =>
      match val with
      | AMap _ => match json_marshal val with Some s => Ok (CString s) | None => Err "failed to marshal map to JSON" end
      | _ => Ok (CString (fmt_v val))
      end
  end.

(** The columns OLake adds come first; an absent value is nil. *)
Definition record_value (record : RawRecord) (name : string) : any :=
  match OlakeColumns record !! name with Some v => v | None => default ANil (Data record !! name) end.
Definition record_cell (record : RawRecord) (field : arrow_field) : result (option cell) :=
  let val := record_value record (af_Name field) in
  if is_nil val then Ok None else c ← appendValueToBuilder (af_Type field) val; Ok (Some c).
Definition record_row (schema : arrow_schema) (record : RawRecord) : result arrow_row := mapM_result (record_cell record) schema.
Definition createArrowRecord (records : list RawRecord) (schema : arrow_schema) : result (list arrow_row) :=
  mapM_result (record_row schema) records.
End Records.

Section Arrow.
Context `{GoEnv} `{GoRange} `{ServerClient} `{StreamIndex} `{ParquetLib}.
Context (murmur3 : list Z → Z) (fmt_g : spec_float → string) (time_format : string → gotime → string).
Context (json_marshal : any → option string) (marshal_state : MetadataState → string).
(** [json.Unmarshal] of an Iceberg schema: the ids and names of its fields. *)
Context (schema_fields : string → option (list (Z * string))).

(** ** A state and error monad: the writer, the server and the index of the stream *)
Record world := mkWorld { aw : ArrowWriter; srv : server; tableIndex : option index }.
Definition M (A : Type) : Type := world → world * result A.
#[export] Instance M_ret : MRet M := λ A a w, (w, Ok a).
#[export] Instance M_bind : MBind M := λ A B f m w,
  match m w with (w, Ok a) => f a w | (w, Err e) => (w, Err e) | (w, Panic p) => (w, Panic p) end.
Definition lift {A} (r : result A) : M A := λ w, (w, r).
Definition gets {A} (f : ArrowWriter → A) : M A := λ w, (w, Ok (f (aw w))).
Definition modify (f : ArrowWriter → ArrowWriter) : M unit := λ w, (mkWorld (f (aw w)) (srv w) (tableIndex w), Ok tt).
Definition send (req : ArrowPayload) : M ArrowIngestResponse := λ w,
  let '(s, r) := SendClientRequest (srv w) (aw_threadID (aw w)) req in (mkWorld (aw w) s (tableIndex w), r).
Definition nil_pointer {A} : M A := lift (Panic "invalid memory address or nil pointer dereference").
Definition deref {A} (o : option A) : M A := match o with Some a => mret a | None => nil_pointer end.
Definition raise {A} (o : option string) (a : A) : M A := lift (match o with Some e => Err e | None => Ok a end).
Fixpoint for_each {A} (f : A → M unit) (l : list A) : M unit :=
  match l with [] => mret () | x :: l => f x ;; for_each f l end.

(** ** Partitions *)
Definition partition_step (schema : gmap string string) (record : RawRecord) (olakeTimestamp : gotime)
    (acc : list string * list any) (pInfo : PartitionInfo) : result (list string * list any) :=
  match schema !! pi_SchemaField pInfo with
  | None => Err "partition field not in schema"
  | Some colType =>
      let fieldValue := if String.eqb (pi_Field pInfo) OlakeTimestamp then ATime olakeTimestamp
                        else default ANil (Data record !! pi_SchemaField pInfo) in
      let fieldValue := if String.eqb colType "timestamptz"
                        then match ReformatDate fieldValue true with Ok ts => ATime ts | _ => fieldValue end else fieldValue in
      '(pathStr, typedVal) ← TransformValue murmur3 fmt_g time_format fieldValue (pi_Transform pInfo) colType;
      Ok (acc.1 ++ [ConstructColPath pathStr (pi_SchemaField pInfo) (pi_Transform pInfo)], acc.2 ++ [typedVal])
  end.
Definition getRecordPartition (w : ArrowWriter) (record : RawRecord) (olakeTimestamp : gotime) : result (string * list any) :=
  '(paths, values) ← foldM (partition_step (aw_schema w) record olakeTimestamp) ([], []) (aw_partitionInfo w);
  Ok (Join "/" paths, values).

(** ** Files *)
Definition allocateFilePath (partitionKey : string) : M string :=
  resp ← send FILEPATH;
  let basePath := ar_Result resp in
  if String.eqb partitionKey "" then mret basePath
  else match cut_last basePath with
       | Some (dir, file) => mret (cat [dir; "/"; partitionKey; "/"; file])
       | None => lift (Panic "slice bounds out of range")
       end.

Definition newRollingWriter (schema : arrow_schema) (ft : string) (values : list any) (path : string) : M RollingWriter :=
  json ← gets (λ w, default "" (fileschemajson w !! ft));
  let kvMeta := ("iceberg.schema", json) ::
    if String.eqb ft fileTypeEqualityDelete
    then [("delete-type", "equality"); ("delete-field-ids", match schema with f :: _ => fmt_d (af_ID f) | [] => "" end)] else [] in
  raise (open_error schema) (mkRolling ft path schema kvMeta [] 0 values).

Definition schema_of (ft : string) : M arrow_schema := s ← gets (λ w, arrowSchema w !! ft); deref s.

Definition createWriter (pKey : string) (values : list any) (ft : string) : M RollingWriter :=
  schema ← schema_of ft;
  path ← allocateFilePath pKey;
  newRollingWriter schema ft values path.

(** A writer that is in the map already is changed in place. *)
Definition keep (pKey : string) (exists_ : bool) (x : Writer_) : M unit := if exists_ then modify (set_writer pKey x) else mret ().

Definition ensure_writer (pKey : string) (exists_ : bool) (values : list any) (ft : string) (x : Writer_) (present : option RollingWriter)
    (store : Writer_ → option RollingWriter → Writer_) : M Writer_ :=
  match present with
  | Some _ => mret x
  | None => rw ← createWriter pKey values ft; let x := store x (Some rw) in keep pKey exists_ x ;; mret x
  end.

Definition getOrCreateWriter (pKey : string) (values : list any) : M Writer_ :=
  found ← gets (λ w, writers w !! pKey);
  let exists_ := match found with Some _ => true | None => false end in
  let x := default no_writer found in
  x ← ensure_writer pKey exists_ values fileTypeData x (dataWriter x) with_dataWriter;
  deletes ← gets (λ w, upsertMode w && negb (String.eqb (deleteMode w) UpdateTypeDeletionVector));
  hasIndex ← gets (λ w, match indexThread w with Some _ => true | None => false end);
  x ← (if (deletes : bool) && negb hasIndex then ensure_writer pKey exists_ values fileTypeEqualityDelete x (equalityDeleteWriter x) with_equalityWriter
       else mret x);
  x ← (if (deletes : bool) then ensure_writer pKey exists_ values fileTypePositionalDelete x (positionalDeleteWriter x) with_positionalWriter
       else mret x);
  modify (set_writer pKey x) ;; mret x.

Definition add_file (pf : PartitionFiles) (ft : string) (f : FileMetadata) : PartitionFiles :=
  if String.eqb ft fileTypeData then mkFiles (DataFiles pf ++ [f]) (EqDeleteFiles pf) (PosDeleteFiles pf)
  else if String.eqb ft fileTypeEqualityDelete then mkFiles (DataFiles pf) (EqDeleteFiles pf ++ [f]) (PosDeleteFiles pf)
  else if String.eqb ft fileTypePositionalDelete then mkFiles (DataFiles pf) (EqDeleteFiles pf) (PosDeleteFiles pf ++ [f])
  else pf.

Definition uploadFile (rw : RollingWriter) (partitionKey : string) : M unit :=
  send (UPLOAD_FILE (mkParquet (rw_schema rw) (rw_meta rw) (rw_rows rw)) (rw_filePath rw)) ;;
  values ← lift (toProtoPartitionValues (partitionValues rw));
  modify (λ w, set_files partitionKey
    (add_file (default (mkFiles [] [] []) (createdFiles w !! partitionKey)) (fileType rw)
      (mkFileMeta (fileType rw) (rw_filePath rw) (currentRowCount rw) values)) w).

Definition flush (rw : RollingWriter) (partitionKey : string) : M unit :=
  if currentRowCount rw =? 0 then mret ()
  else raise (close_error (rw_schema rw) (rw_rows rw)) () ;; uploadFile rw partitionKey.

Definition checkAndFlush (rw : RollingWriter) (partitionKey : string) : M RollingWriter :=
  let targetSize := if String.eqb (fileType rw) fileTypeData then targetDataFileSize else targetDeleteFileSize in
  if size_so_far (rw_schema rw) (rw_rows rw) <? targetSize then mret rw
  else
    flush rw partitionKey ;;
    schema ← schema_of (fileType rw);
    new ← newRollingWriter schema (fileType rw) (partitionValues rw) (rw_filePath rw);
    path ← allocateFilePath partitionKey;
    mret (mkRolling (fileType new) path (rw_schema new) (rw_meta new) (rw_rows new) (currentRowCount new) (partitionValues new)).

(** [WriteBuffered] and the row count after it. *)
Definition WriteBuffered (rw : RollingWriter) (rows : list arrow_row) : M RollingWriter :=
  raise (write_error (rw_schema rw) (rw_rows rw) rows)
    (mkRolling (fileType rw) (rw_filePath rw) (rw_schema rw) (rw_meta rw) (rw_rows rw ++ rows)
       (currentRowCount rw + Z.of_nat (length rows)) (partitionValues rw)).

(** ** Deletion vectors *)
Definition sendPendingVectors : M unit :=
  n ← gets pendingVectorCount;
  if n =? 0 then mret ()
  else
    pending ← gets pendingVectors;
    entries ← lift (mapM_result (λ pv, values ← toProtoPartitionValues (pv_partitionValues pv.2);
                                       Ok (mkDV pv.1 (pv_positions pv.2) values)) (range pending));
    send (DELETION_VECTORS entries) ;;
    modify (set_vectors ∅ 0).

Definition queue_delete (values : list any) (m : gmap string pendingVector) (d : PositionalDelete) : gmap string pendingVector :=
  let pending := default (mkVector [] values) (m !! pd_FilePath d) in
  <[pd_FilePath d := mkVector (pv_positions pending ++ [pd_Position d]) (pv_partitionValues pending)]> m.
Definition queueVectorDeletes (deletes : list PositionalDelete) (values : list any) : M unit :=
  modify (λ w, set_vectors (foldl (queue_delete values) (pendingVectors w) deletes) (pendingVectorCount w + Z.of_nat (length deletes)) w) ;;
  n ← gets pendingVectorCount;
  if n <? deletionVectorBatchSize then mret () else sendPendingVectors.

(** ** Records: [StreamIndexThread.Lookup], then [extract] *)
Definition thread_lookup (b : StreamIndexThread) (key : string) : M (option RowLocation) := λ w,
  match changes b !! key with
  | Some loc => (w, Ok (Some loc))
  | None =>
      match tableIndex w with
      | None => (w, Ok None)
      | Some i => match Index_Lookup i key with
                  | Ok (loc, i) => (mkWorld (aw w) (srv w) (Some i), Ok loc)
                  | Err e => (w, Err e)
                  | Panic m => (w, Panic m)
                  end
      end
  end.

(** The partition's writer and the record as it is to be written. *)
Definition indexRecord (thread : StreamIndexThread) (x : Writer_) (rw : RollingWriter) (olakeID opType : string) (rec : RawRecord) (filePosition : Z)
    : M (Writer_ * RawRecord) :=
  upsert ← gets upsertMode;
  stream ← gets aw_stream;
  xr ← (if (upsert : bool) && negb (String.eqb opType "r") && negb (String.eqb opType "c") then
          previous ← thread_lookup thread olakeID;
          mret (match previous with
                | Some loc => (with_delete x (mkPosDelete (FilePath loc) (Position loc)), rec)
                | None => (x, if ResolveUpsertOp stream && String.eqb opType "u" then with_op rec "c" else rec)
                end)
        else mret (x, rec));
  modify (set_indexThread (Some (Put thread olakeID (mkLocation (rw_filePath rw) filePosition)))) ;;
  mret xr.

(** Without an index: the first occurrence of an identity in this thread is deleted by
    equality, every later one deletes the occurrence before it by position. *)
Definition track (x : Writer_) (rw : RollingWriter) (olakeID opType : string) (filePosition : Z) : Writer_ :=
  if contains ["d"; "u"; "i"; "c"] opType then
    let at_ := mkPosDelete (rw_filePath rw) filePosition in
    match olakeIDPosition x !! olakeID with
    | None => with_equality x olakeID at_
    | Some prev => with_duplicate x olakeID prev at_
    end
  else x.

Definition olake_string (rec : RawRecord) (column : string) : M string :=
  match OlakeColumns rec !! column with Some (AString s) => mret s | _ => lift (Panic "interface conversion") end.
Definition olake_time (rec : RawRecord) : M gotime :=
  match OlakeColumns rec !! OlakeTimestamp with Some (ATime t) => mret t | _ => lift (Panic "interface conversion") end.

Definition extract_one (rec : RawRecord) : M unit :=
  ts ← olake_time rec;
  w ← gets id;
  '(pKey, values) ← lift (getRecordPartition w rec ts);
  x ← getOrCreateWriter pKey values;
  let data := w_data x in
  let x := with_data x (data ++ [rec]) in
  modify (set_writer pKey x) ;;
  opType ← olake_string rec OpType;
  olakeID ← olake_string rec OlakeID;
  rw ← deref (dataWriter x);
  let filePosition := currentRowCount rw + Z.of_nat (length data) in
  thread ← gets indexThread;
  upsert ← gets upsertMode;
  '(x, rec) ← match thread with
              | Some thread => indexRecord thread x rw olakeID opType rec filePosition
              | None => mret (if upsert : bool then track x rw olakeID opType filePosition else x, rec)
              end;
  let rec := if String.eqb opType "i" then with_op rec "c" else rec in
  modify (set_writer pKey (with_data x (data ++ [rec]))).

Definition extract (records : list RawRecord) : M unit := for_each extract_one records.

(** ** Write *)
(** [x.slot, err = w.checkAndFlush(...)]: an error leaves a nil pointer. *)
Definition roll (pKey : string) (store : option RollingWriter → Writer_) (rw : RollingWriter) : M Writer_ :=
  modify (set_writer pKey (store (Some rw))) ;;
  res ← (λ w, match checkAndFlush rw pKey w with (w, Panic m) => (w, Panic m) | (w, r) => (w, Ok r) end) : M (result RollingWriter);
  match res with
  | Ok rw => modify (set_writer pKey (store (Some rw))) ;; mret (store (Some rw))
  | r => modify (set_writer pKey (store None)) ;; lift (store ∘ Some <$> r)
  end.

Definition write_positional (pKey : string) (x : Writer_) : M Writer_ :=
  match positionalDeletes x with
  | [] => mret x
  | deletes =>
      rw ← deref (positionalDeleteWriter x);
      rw ← WriteBuffered rw (createPositionalDeleteArrowRecord deletes);
      roll pKey (with_positionalWriter x) rw
  end.

Definition write_equality (pKey : string) (x : Writer_) : M Writer_ :=
  match equalityDeleteWriter x with
  | None => mret x
  | Some rw =>
      rw ← WriteBuffered rw (createDeleteArrowRecord (equalityDeletes x));
      roll pKey (with_equalityWriter x) rw
  end.

Definition write_deletes (pKey : string) (x : Writer_) : M Writer_ :=
  upsert ← gets upsertMode;
  mode ← gets deleteMode;
  if (upsert : bool) then
    x ← (if String.eqb mode UpdateTypeDeletionVector
         then rw ← deref (dataWriter x); queueVectorDeletes (positionalDeletes x) (partitionValues rw) ;; mret x
         else write_positional pKey x);
    write_equality pKey x
  else mret x.

Definition write_partition (pKey : string) (x : Writer_) : M unit :=
  match w_data x with
  | [] => mret ()
  | data =>
      x ← write_deletes pKey x;
      schema ← schema_of fileTypeData;
      rows ← lift (createArrowRecord json_marshal data schema);
      rw ← deref (dataWriter x);
      rw ← WriteBuffered rw rows;
      x ← roll pKey (with_dataWriter x) rw;
      modify (set_writer pKey (reset_batch x))
  end.

Definition Write (records : list RawRecord) : M unit :=
  extract records ;;
  ws ← gets writers;
  for_each (λ kx, write_partition kx.1 kx.2) (range ws).

(** ** Completing, schema evolution, commit *)
Definition complete (pKey : string) (rw : option RollingWriter) (x : Writer_) (cleared : Writer_) : M Writer_ :=
  match rw with
  | None => mret x
  | Some rw => flush rw pKey ;; modify (set_writer pKey cleared) ;; mret cleared
  end.
Definition complete_partition (pKey : string) (x : Writer_) : M unit :=
  upsert ← gets upsertMode;
  x ← (if (upsert : bool) then
         x ← complete pKey (equalityDeleteWriter x) x (with_equalityWriter x None);
         complete pKey (positionalDeleteWriter x) x (with_positionalWriter x None)
       else mret x);
  x ← complete pKey (dataWriter x) x (with_dataWriter x None);
  modify (set_writer pKey (reset_batch x)).
Definition completeWriters : M unit :=
  ws ← gets writers;
  for_each (λ kx, complete_partition kx.1 kx.2) (range ws).

Definition parseFieldIDsFromIcebergSchema (schemaJSON : string) : result (gmap string Z) :=
  match schema_fields schemaJSON with
  | None => Err "failed to parse Iceberg schema JSON"
  | Some fields => Ok (foldl (λ m f, <[f.2 := f.1]> m) ∅ fields)
  end.

Definition fetchFileSchemaJSON : M unit := resp ← send JSONSCHEMA; modify (set_fileschemajson (ar_IcebergSchemas resp)).

Definition initializeDeleteSchemas : M unit :=
  json ← gets (λ w, default "" (fileschemajson w !! fileTypeEqualityDelete));
  deleteFieldIDs ← lift (parseFieldIDsFromIcebergSchema json);
  match deleteFieldIDs !! OlakeID with
  | None => lift (Err "_olake_id field not found in delete schema")
  | Some olakeIDFieldID =>
      modify (set_arrowSchema fileTypeEqualityDelete [mkArrowField OlakeID ArrowString false olakeIDFieldID]) ;;
      modify (set_arrowSchema fileTypePositionalDelete
        [mkArrowField "file_path" ArrowString false posDeleteFilePathFieldID; mkArrowField "pos" ArrowInt64 false posDeletePosFieldID])
  end.

Definition initialize : M unit :=
  fetchFileSchemaJSON ;;
  json ← gets (λ w, default "" (fileschemajson w !! fileTypeData));
  dataFieldIDs ← lift (parseFieldIDsFromIcebergSchema json);
  modify (λ w, set_arrowSchema fileTypeData (createFields (aw_schema w) dataFieldIDs) w) ;;
  upsert ← gets upsertMode;
  if (upsert : bool) then initializeDeleteSchemas else mret ().

Definition Arrow_EvolveSchema (newSchema : gmap string string) : M unit :=
  completeWriters ;; modify (set_schema newSchema) ;; initialize.

Definition partition_files (pf : PartitionFiles) : list FileMetadata := EqDeleteFiles pf ++ DataFiles pf ++ PosDeleteFiles pf.

Definition last_snapshot : M (option Z) := λ w,
  match indexThread (aw w), tableIndex w with
  | None, _ => (w, Ok None)
  | Some _, None => (w, Panic "invalid memory address or nil pointer dereference")
  | Some _, Some i => (w, Some <$> Index_LastCommittedSnapshot i)
  end.

Definition commit_index (snapshotID : option Z) : M unit := λ w,
  match indexThread (aw w), snapshotID, tableIndex w with
  | Some batch, Some id, Some i =>
      if id =? 0 then (w, Ok ())
      else
        let a := set_indexThread None (aw w) in
        match Index_Commit i batch (Some id) with
        | Ok i => (mkWorld a (srv w) (Some i), Ok ())
        | Err e => (mkWorld a (srv w) (Some i), Err e)
        | Panic m => (mkWorld a (srv w) (Some i), Panic m)
        end
  | _, _, _ => (w, Ok ())
  end.

Definition Arrow_Close (finalMetadataState : option MetadataState) : M unit :=
  completeWriters ;;
  sendPendingVectors ;;
  files ← gets createdFiles;
  base ← last_snapshot;
  response ← send (REGISTER_AND_COMMIT (concat (partition_files <$> (range files).*2))
                     (match finalMetadataState with Some s => marshal_state s | None => "" end) base);
  commit_index (ar_SnapshotId response).

Definition Arrow_Abort : M unit := modify (set_indexThread None).

Definition new_writer (threadID : string) (stream : ConfiguredStream) (partitionInfo : list PartitionInfo) (schema : gmap string string)
    (upsert : bool) (hasIndex : bool) : ArrowWriter :=
  mkArrowWriter threadID stream partitionInfo upsert (GetUpdateType stream) ∅ schema ∅ ∅ ∅
    (if hasIndex then Some NewStreamIndexThread else None) ∅ 0.
Definition Arrow_New (threadID : string) (stream : ConfiguredStream) (partitionInfo : list PartitionInfo) (schema : gmap string string)
    (upsert : bool) (s : server) (i : option index) : world * result unit :=
  initialize (mkWorld (new_writer threadID stream partitionInfo schema upsert (match i with Some _ => true | None => false end)) s i).
End Arrow.
