(* ===== verification/ArrowWriterFacts.v ===== *)
(** * Theorems about the Arrow writer: upserts leave the last version of every record

    [ArrowServer] states what the writer relies on of the server process, and
    [live_after] what a commit makes of a table under the Iceberg specification:
    equality deletes hide older rows of the same partition, positional deletes name a
    row of the same partition, deletion vectors a row of a file. *)

From S2P Require Import Prelude GoString GoSet DataTypes QueryEngine Value Schema Stream StreamFacts Catalog State Fields Writers TwoPC IndexDB IndexDBFacts Jdbc Chunking Transforms ArrowWriter.

(** ** Tables *)
Record trow := mkRow { tr_part : list PartitionValue; tr_schema : list arrow_field; tr_cells : list (option cell) }.

#[export] Instance spec_float_eq : EqDecision spec_float.
Proof. solve_decision. Defined.
#[export] Instance cell_eq : EqDecision cell.
Proof. solve_decision. Defined.
#[export] Instance partition_value_eq : EqDecision PartitionValue.
Proof. solve_decision. Defined.

(** The identity a row carries. *)
Fixpoint id_cell (schema : list arrow_field) (cells : list (option cell)) : option string :=
  match schema, cells with
  | f :: schema, c :: cells =>
      if String.eqb (af_Name f) OlakeID then match c with Some (CString s) => Some s | _ => None end else id_cell schema cells
  | _, _ => None
  end.
Definition row_id (r : trow) : option string := id_cell (tr_schema r) (tr_cells r).

Section Commits.
Context (stored : gmap string parquet_file) (files : list FileMetadata) (vectors : list DVEntry).

Definition rows_in (f : FileMetadata) : list (list (option cell)) := default [] (pf_rows <$> stored !! fm_FilePath f).
Definition of_type (ft : string) (part : list PartitionValue) (f : FileMetadata) : bool :=
  String.eqb (fm_FileType f) ft && bool_decide (fm_PartitionValues f = part).

Definition equality_deleted (r : trow) : bool :=
  match row_id r with
  | Some id => existsb (λ f, of_type fileTypeEqualityDelete (tr_part r) f && bool_decide ([Some (CString id)] ∈ rows_in f)) files
  | None => false
  end.
Definition position_deleted (part : list PartitionValue) (p : string) (n : Z) : bool :=
  existsb (λ f, of_type fileTypePositionalDelete part f && bool_decide ([Some (CString p); Some (CInt64 n)] ∈ rows_in f)) files
  || existsb (λ e, String.eqb (dv_DataFilePath e) p && bool_decide (n ∈ dv_Positions e)) vectors.

Definition new_row (p : string) (n : Z) : option trow :=
  f ← lookup_first (λ f, String.eqb (fm_FileType f) fileTypeData && String.eqb (fm_FilePath f) p) files;
  content ← stored !! p;
  if n <? 0 then None
  else cells ← pf_rows content !! Z.to_nat n; Some (mkRow (fm_PartitionValues f) (pf_schema content) cells).

(** The row at a location after a commit of [files] and [vectors]. *)
Definition live_after (old : option trow) (p : string) (n : Z) : option trow :=
  match old with
  | Some r => if equality_deleted r || position_deleted (tr_part r) p n then None else Some r
  | None => match new_row p n with Some r => if position_deleted (tr_part r) p n then None else Some r | None => None end
  end.
End Commits.

(** The name of a file: what is after the last slash of its path. *)
Definition base (p : string) : string := match cut_last p with Some (_, f) => f | None => p end.

(** The server, as the thread sees it: the objects it stored, the file names it gave
    out, the vectors collected for the thread, the rows of the table and its snapshot.  Every
    name is given out once, an upload stores the file, a commit publishes files and
    vectors and reports the snapshot it made, or none or 0. *)
Class ArrowServer `{ServerClient} := {
  stored : server → gmap string parquet_file;
  named : server → gset string;
  vectors : server → string → list DVEntry;
  row_at : server → string → Z → option trow;
  table_snapshot : server → Z;
  row_stored : ∀ s p n r, row_at s p n = Some r → is_Some (stored s !! p);
  on_schema : ∀ s t s' resp, SendClientRequest s t JSONSCHEMA = (s', Ok resp) →
    stored s' = stored s ∧ named s' = named s ∧ vectors s' t = vectors s t ∧ row_at s' = row_at s;
  on_path : ∀ s t s' resp, SendClientRequest s t FILEPATH = (s', Ok resp) →
    stored s' = stored s ∧ vectors s' t = vectors s t ∧ row_at s' = row_at s ∧ base (ar_Result resp) ∉ named s
    ∧ named s' = {[base (ar_Result resp)]} ∪ named s;
  on_upload : ∀ s t f p s' resp, SendClientRequest s t (UPLOAD_FILE f p) = (s', Ok resp) →
    stored s' = <[p := f]> (stored s) ∧ named s' = named s ∧ vectors s' t = vectors s t ∧ row_at s' = row_at s;
  on_vectors : ∀ s t es s' resp, SendClientRequest s t (DELETION_VECTORS es) = (s', Ok resp) →
    stored s' = stored s ∧ named s' = named s ∧ vectors s' t = vectors s t ++ es ∧ row_at s' = row_at s;
  on_commit : ∀ s t files payload base_ s' resp, SendClientRequest s t (REGISTER_AND_COMMIT files payload base_) = (s', Ok resp) →
    named s' = named s ∧ (∀ y, ar_SnapshotId resp = Some y → y ≠ 0 → table_snapshot s' = y)
    ∧ ∀ p n, row_at s' p n = live_after (stored s) files (vectors s t) (row_at s p n) p n;
  snapshot_int64 : ∀ s t req s' resp, SendClientRequest s t req = (s', Ok resp) → ∀ y, ar_SnapshotId resp = Some y → - 2 ^ 63 ≤ y < 2 ^ 63
}.

Lemma cut_last_file a f : cut_last f = None → cut_last (a +:+ "/" +:+ f) = Some (a, f).
Proof.
  intros Hf. induction a as [|c a IH].
  - change (cut_last (String "/" f) = Some ("", f)). cbn [cut_last]. by rewrite Hf.
  - change (cut_last (String c (a +:+ "/" +:+ f)) = Some (String c a, f)). cbn [cut_last]. by rewrite IH.
Qed.
Lemma cut_last_no_slash p a f : cut_last p = Some (a, f) → cut_last f = None.
Proof.
  revert a f. induction p as [|c p IH]; intros a f; simpl; [done|]. destruct (cut_last p) as [[a' f']|] eqn:E.
  - intros [= <- <-]. by apply (IH a').
  - destruct (_ =? 47); [|done]. by intros [= <- <-].
Qed.

Inductive kind := KData | KEq | KPos.
#[export] Instance kind_eq : EqDecision kind.
Proof. solve_decision. Defined.
Definition kname (kd : kind) : string :=
  match kd with KData => fileTypeData | KEq => fileTypeEqualityDelete | KPos => fileTypePositionalDelete end.
Definition slot (x : Writer_) (kd : kind) : option RollingWriter :=
  match kd with KData => dataWriter x | KEq => equalityDeleteWriter x | KPos => positionalDeleteWriter x end.
Definition put_slot (x : Writer_) (kd : kind) (o : option RollingWriter) : Writer_ :=
  match kd with KData => with_dataWriter x o | KEq => with_equalityWriter x o | KPos => with_positionalWriter x o end.
Definition files_of (pf : PartitionFiles) (kd : kind) : list FileMetadata :=
  match kd with KData => DataFiles pf | KEq => EqDeleteFiles pf | KPos => PosDeleteFiles pf end.
Definition set_created (m : gmap string PartitionFiles) (w : ArrowWriter) : ArrowWriter :=
  mkArrowWriter (aw_threadID w) (aw_stream w) (aw_partitionInfo w) (upsertMode w) (deleteMode w) (fileschemajson w) (aw_schema w) (arrowSchema w)
    (writers w) m (indexThread w) (pendingVectors w) (pendingVectorCount w).

Lemma slot_put x kd o kd' : slot (put_slot x kd o) kd' = if decide (kd' = kd) then o else slot x kd'.
Proof. by destruct kd, kd'. Qed.
Lemma files_add pf kd f kd' : files_of (add_file pf (kname kd) f) kd' = files_of pf kd' ++ (if decide (kd' = kd) then [f] else []).
Proof. destruct kd, kd'; cbn; by rewrite ?app_nil_r. Qed.

(** ** Successful steps of the monad *)
Section Monad.
Context {HC : ServerClient} {HX : StreamIndex}.
Implicit Types (w : world).

Lemma M_bind_Ok {A B} (m : M A) (f : A → M B) w w' b :
  (m ≫= f) w = (w', Ok b) ↔ ∃ w1 a, m w = (w1, Ok a) ∧ f a w1 = (w', Ok b).
Proof.
  unfold mbind, M_bind. destruct (m w) as [w1 [a|e|e]]; split; [eauto|by intros (? & ? & [= <- <-] & ?)|done|naive_solver|done|naive_solver].
Qed.
Lemma raise_Ok {A} o (a : A) w w' b : raise o a w = (w', Ok b) → w' = w ∧ b = a.
Proof. unfold raise, lift. destruct o; [done|]. by intros [= <- <-]. Qed.
Lemma deref_Ok {A} (o : option A) w w' a : deref o w = (w', Ok a) → w' = w ∧ o = Some a.
Proof. destruct o; [|done]. by intros [= <- <-]. Qed.
Lemma gets_Ok {A} (f : ArrowWriter → A) w w' a : gets f w = (w', Ok a) → w' = w ∧ a = f (aw w).
Proof. by intros [= <- <-]. Qed.
End Monad.

Section Structure.
Context {HE : GoEnv} {HR : GoRange} {HC : ServerClient} {HS : ArrowServer} {HX : StreamIndex} {HP : ParquetLib}.
(** The partition values of a partition key; the file names given out before the thread started. *)
Context (pvals : string → list PartitionValue) (N0 : gset string).
Implicit Types (w : world) (k p : string) (kd : kind) (x : Writer_) (rw : RollingWriter).

Definition attach w k x : world := mkWorld (set_writer k x (aw w)) (srv w) (tableIndex w).
Definition created w k kd : list FileMetadata := files_of (default (mkFiles [] [] []) (createdFiles (aw w) !! k)) kd.
Definition has_slot w k kd rw : Prop := ∃ x, writers (aw w) !! k = Some x ∧ slot x kd = Some rw.

(** A row the thread wrote, in an uploaded file or in one still open. *)
Definition holds_row w k kd p (n : nat) (sch : list arrow_field) (row : list (option cell)) : Prop :=
  (∃ f c, f ∈ created w k kd ∧ fm_FilePath f = p ∧ stored (srv w) !! p = Some c ∧ pf_schema c = sch ∧ pf_rows c !! n = Some row)
  ∨ (∃ rw, has_slot w k kd rw ∧ rw_filePath rw = p ∧ rw_schema rw = sch ∧ rw_rows rw !! n = Some row).

Record good_slot w k kd rw : Prop := {
  g_type : fileType rw = kname kd;
  g_count : currentRowCount rw = Z.of_nat (length (rw_rows rw));
  g_part : toProtoPartitionValues (partitionValues rw) = Ok (pvals k);
  g_fresh : stored (srv w) !! rw_filePath rw = None;
  g_named : base (rw_filePath rw) ∈ named (srv w);
  g_new : base (rw_filePath rw) ∉ N0;
  g_schema : arrowSchema (aw w) !! kname kd = Some (rw_schema rw)
}.

Record sound w : Prop := {
  s_file : ∀ k kd f, f ∈ created w k kd → fm_FileType f = kname kd ∧ fm_PartitionValues f = pvals k ∧ is_Some (stored (srv w) !! fm_FilePath f);
  s_files : ∀ k kd f k' kd' f', f ∈ created w k kd → f' ∈ created w k' kd' → fm_FilePath f = fm_FilePath f' → k = k' ∧ kd = kd';
  s_slot : ∀ k kd rw, has_slot w k kd rw → good_slot w k kd rw;
  s_slots : ∀ k kd rw k' kd' rw', has_slot w k kd rw → has_slot w k' kd' rw' → rw_filePath rw = rw_filePath rw' → k = k' ∧ kd = kd';
  s_stored : ∀ p c, stored (srv w) !! p = Some c → base p ∈ named (srv w);
  s_names : N0 ⊆ named (srv w)
}.

(** Nothing but files changed. *)
Record quiet w w' : Prop := {
  q_aw : aw w' = set_created (createdFiles (aw w')) (aw w);
  q_index : tableIndex w' = tableIndex w;
  q_rows : row_at (srv w') = row_at (srv w);
  q_vectors : vectors (srv w') (aw_threadID (aw w)) = vectors (srv w) (aw_threadID (aw w))
}.
Lemma quiet_refl w : quiet w w.
Proof. split; try done. by destruct w as [[]]. Qed.
Lemma quiet_trans w1 w2 w3 : quiet w1 w2 → quiet w2 w3 → quiet w1 w3.
Proof.
  intros [Ha ? Hr Hv] [Hb ? Hr' Hv']. split; try congruence.
  - rewrite Hb at 1. by rewrite Ha.
  - rewrite Ha in Hv'. simpl in Hv'. congruence.
Qed.

Definition same_rows w w' : Prop := ∀ k kd p n sch row, holds_row w' k kd p n sch row ↔ holds_row w k kd p n sch row.

Lemma attach_slot w k x k' kd rw : has_slot (attach w k x) k' kd rw ↔ (k' = k ∧ slot x kd = Some rw) ∨ (k' ≠ k ∧ has_slot w k' kd rw).
Proof.
  unfold has_slot, attach. cbn. destruct (decide (k' = k)) as [->|Hne].
  - rewrite lookup_insert_eq. naive_solver.
  - rewrite lookup_insert_ne by done. naive_solver.
Qed.
Lemma attach_attach w k x y : attach (attach w k x) k y = attach w k y.
Proof. unfold attach, set_writer. cbn. by rewrite insert_insert_eq. Qed.
Lemma attach_self w k x : writers (aw w) !! k = Some x → attach w k x = w.
Proof. intros Hx. unfold attach, set_writer. destruct w as [[]]. cbn in *. by rewrite insert_id. Qed.

(** Uploading a file, or dropping an empty one. *)
Lemma flush_sound w k x kd rw w' :
  sound (attach w k x) → slot x kd = Some rw → flush rw k w = (w', Ok ()) →
  sound (attach w' k (put_slot x kd None)) ∧ same_rows (attach w k x) (attach w' k (put_slot x kd None)) ∧ quiet w w'.
Proof.
  intros Hs Hx. assert (Hslot : has_slot (attach w k x) k kd rw) by (apply attach_slot; auto).
  pose proof (s_slot _ Hs k kd rw Hslot) as [Ht Hc Hp Hf Hn Hnw _]. unfold flush. rewrite Hc.
  assert (Hsub : ∀ w1 k' kd' rw', has_slot (attach w1 k (put_slot x kd None)) k' kd' rw' →
    writers (aw w1) = writers (aw w) → has_slot (attach w k x) k' kd' rw' ∧ (k', kd') ≠ (k, kd)).
  { intros w1 k' kd' rw'. rewrite !attach_slot, slot_put. unfold has_slot. intros [[-> Hr]|[Hne Hr]] Hw; [|rewrite <- Hw; split; [auto|congruence]].
    case_decide; [done|]. split; [auto|congruence]. }
  assert (Hback : ∀ w1 k' kd' rw', has_slot (attach w k x) k' kd' rw' → (k', kd') ≠ (k, kd) →
    writers (aw w1) = writers (aw w) → has_slot (attach w1 k (put_slot x kd None)) k' kd' rw').
  { intros w1 k' kd' rw'. rewrite !attach_slot, slot_put. unfold has_slot. intros [[-> Hr]|[Hne Hr]] Hd Hw; [|rewrite Hw; auto].
    case_decide; [congruence|auto]. }
  destruct (Z.eqb_spec (Z.of_nat (length (rw_rows rw))) 0) as [Hz|Hz].
  { intros [= <-]. split_and!; [|..|apply quiet_refl].
    - destruct Hs as [Hs1 Hs2 Hs3 Hs4 Hs5 Hs6]. split; [exact Hs1|exact Hs2| | |exact Hs5|exact Hs6].
      + intros k' kd' rw' [Hr _]%Hsub; [|done]. destruct (Hs3 _ _ _ Hr). by split.
      + intros k1 kd1 rw1 k2 kd2 rw2 [Hr1 _]%Hsub [Hr2 _]%Hsub; [|done..]. by apply (Hs4 _ _ rw1 _ _ rw2).
    - intros k' kd' p n sch row. unfold holds_row. apply or_iff_compat_l. split.
      + intros (rw' & [Hr _]%Hsub & ?); [|done]. eauto.
      + intros (rw' & Hr & <- & <- & Hrow). exists rw'. split; [|done]. apply Hback; [done| |done]. intros [= -> ->].
        apply attach_slot in Hr as [[_ Hr]|[? _]]; [|done]. rewrite Hx in Hr. injection Hr as <-. destruct (rw_rows rw); [done|simpl in Hz; lia]. }
  intros (w1 & [] & [-> _]%raise_Ok & Hup)%M_bind_Ok. unfold uploadFile in Hup.
  apply M_bind_Ok in Hup as (w1 & resp & Hsend & Hup). unfold send in Hsend. destruct (SendClientRequest _ _ _) as [s' r] eqn:Es.
  injection Hsend as <- ->. apply on_upload in Es as (Hst & Hnm & Hvec & Hrow).
  apply M_bind_Ok in Hup as (w2 & values & [= <- Hv] & Hup). rewrite Hp in Hv. injection Hv as <-. unfold modify in Hup. cbn in Hup.
  rewrite Ht in Hup. set (f := mkFileMeta (kname kd) (rw_filePath rw) (currentRowCount rw) (pvals k)) in Hup. injection Hup as <-.
  set (w' := mkWorld _ _ _). assert (Hcr : ∀ k' kd' f', f' ∈ created (attach w' k (put_slot x kd None)) k' kd' ↔
    f' ∈ created (attach w k x) k' kd' ∨ (k' = k ∧ kd' = kd ∧ f' = f)).
  { intros k' kd' f'. unfold created. cbn. destruct (decide (k' = k)) as [->|Hne]; [|rewrite lookup_insert_ne by done; naive_solver].
    rewrite lookup_insert_eq. cbn. rewrite files_add, elem_of_app. case_decide; set_solver. }
  assert (Hww : writers (aw w') = writers (aw w)) by done.
  assert (Hst' : stored (srv w') = <[rw_filePath rw := mkParquet (rw_schema rw) (rw_meta rw) (rw_rows rw)]> (stored (srv w))) by done.
  assert (Hnm' : named (srv w') = named (srv w)) by done.
  assert (Hq : quiet w w') by (split; try done; by destruct w as [[]]). assert (Ha : arrowSchema (aw w') = arrowSchema (aw w)) by done. clearbody w'.
  assert (Hold : ∀ p c, stored (srv w) !! p = Some c → stored (srv w') !! p = Some c).
  { intros p c Hpc. rewrite Hst', lookup_insert_ne; [done|]. intros <-. cbn in Hf. congruence. }
  assert (Hnew : stored (srv w') !! rw_filePath rw = Some (mkParquet (rw_schema rw) (rw_meta rw) (rw_rows rw))) by (by rewrite Hst', lookup_insert_eq).
  assert (Hnf : ∀ k' kd' f', f' ∈ created (attach w k x) k' kd' → fm_FilePath f' ≠ rw_filePath rw).
  { intros k' kd' f' (_ & _ & [c Hc'])%(s_file _ Hs) He. rewrite He in Hc'. cbn in *. congruence. }
  split_and!; [|..|done].
  - destruct Hs as [Hs1 Hs2 Hs3 Hs4 Hs5 Hs6]. split.
    + intros k' kd' f' [Hin|(-> & -> & ->)]%Hcr; [|by split_and!; eauto]. destruct (Hs1 _ _ _ Hin) as (? & ? & [c Hc']). split_and!; [done..|]. cbn in *. eauto.
    + intros k1 kd1 f1 k2 kd2 f2 [H1|(-> & -> & ->)]%Hcr [H2|(-> & -> & ->)]%Hcr He; [by eapply Hs2|by apply Hnf in H1|symmetry in He; by apply Hnf in H2|done].
    + intros k' kd' rw' [Hr Hd]%Hsub; [|done]. destruct (Hs3 _ _ _ Hr) as [? ? ? Hfr ? ? ?]. split; try done; cbn in *; [|by rewrite Hnm'|by rewrite Ha].
      rewrite Hst', lookup_insert_ne; [done|]. intros He. apply Hd. destruct (Hs4 _ _ _ _ _ _ Hr Hslot (eq_sym He)) as [-> ->]. done.
    + intros k1 kd1 rw1 k2 kd2 rw2 [Hr1 _]%Hsub [Hr2 _]%Hsub; [|done..]. by apply (Hs4 _ _ rw1 _ _ rw2).
    + intros p c. cbn. rewrite Hst', Hnm'. intros [[<- _]|[_ Hl]]%lookup_insert_Some; [done|]. by eapply Hs5.
    + cbn. by rewrite Hnm'.
  - intros k' kd' p n sch row. unfold holds_row. cbn [srv attach]. split.
    + intros [(f' & c & [Hin|(-> & -> & ->)]%Hcr & Hp' & Hc' & Hrest)|(rw' & [Hr _]%Hsub & Hrest)]; [| |right; eauto|done].
      * left. exists f', c. split_and!; try done; [|by destruct Hrest..]. rewrite Hst', lookup_insert_ne in Hc'; [done|]. intros <-. by apply Hnf in Hin.
      * right. exists rw. cbn in Hp'. subst p. rewrite Hnew in Hc'. injection Hc' as <-. by destruct Hrest.
    + intros [(f' & c & Hin & Hp' & Hc' & Hrest)|(rw' & Hr & Hp' & Hrest)].
      * left. exists f', c. split_and!; [apply Hcr; by left|done|by apply Hold|by destruct Hrest..].
      * destruct (decide ((k', kd') = (k, kd))) as [[= -> ->]|Hd]; [|right; exists rw'; split; [by apply Hback|done]].
        apply attach_slot in Hr as [[_ Hr]|[? _]]; [|done]. rewrite Hx in Hr. injection Hr as <-. left. eexists f, _. split_and!; [apply Hcr; by right|done|by rewrite <- Hp'|by destruct Hrest..].
Qed.

(** ** New files *)
Lemma base_in_partition dir k file : cut_last file = None → base (cat [dir; "/"; k; "/"; file]) = file.
Proof.
  intros Hf. unfold base. assert (cat [dir; "/"; k; "/"; file] = (dir +:+ "/" +:+ k) +:+ "/" +:+ file) as ->; [|by rewrite cut_last_file].
  unfold cat. cbn [foldr]. by rewrite append_nil_r, !app_assoc_s.
Qed.

Lemma allocate_spec k w w' p : allocateFilePath k w = (w', Ok p) →
  ∃ s, w' = mkWorld (aw w) s (tableIndex w) ∧ stored s = stored (srv w) ∧ row_at s = row_at (srv w)
  ∧ vectors s (aw_threadID (aw w)) = vectors (srv w) (aw_threadID (aw w)) ∧ base p ∉ named (srv w) ∧ named s = {[base p]} ∪ named (srv w).
Proof.
  unfold allocateFilePath. intros (w1 & resp & Hsend & Hp)%M_bind_Ok. unfold send in Hsend. destruct (SendClientRequest _ _ _) as [s r] eqn:Es.
  injection Hsend as <- ->. apply on_path in Es as (Hst & Hv & Hr & Hn & Hn'). exists s.
  assert (w' = mkWorld (aw w) s (tableIndex w) ∧ base p = base (ar_Result resp)) as [-> ->]; [|done].
  destruct (String.eqb_spec k ""); [by injection Hp as <- <-|]. destruct (cut_last (ar_Result resp)) as [[dir file]|] eqn:Ec; [|done]. assert (p = cat [dir; "/"; k; "/"; file]) as -> by (by injection Hp).
  split; [by injection Hp|]. rewrite base_in_partition by (by eapply cut_last_no_slash). unfold base. by rewrite Ec.
Qed.

Lemma new_rolling_spec sch ft values p w w' rw : newRollingWriter sch ft values p w = (w', Ok rw) →
  w' = w ∧ fileType rw = ft ∧ rw_filePath rw = p ∧ rw_schema rw = sch ∧ rw_rows rw = [] ∧ currentRowCount rw = 0 ∧ partitionValues rw = values.
Proof. unfold newRollingWriter. by intros (? & ? & [= <- <-] & [-> ->]%raise_Ok)%M_bind_Ok. Qed.

Lemma schema_of_spec ft w w' sch : schema_of ft w = (w', Ok sch) → w' = w ∧ arrowSchema (aw w) !! ft = Some sch.
Proof. unfold schema_of. by intros (? & ? & [= <- <-] & [-> ?]%deref_Ok)%M_bind_Ok. Qed.

(** Opening a file with a name of its own in an empty slot. *)
Lemma install_sound w s k x kd rw :
  sound (attach w k x) → slot x kd = None → stored s = stored (srv w) → base (rw_filePath rw) ∉ named (srv w) →
  named s = {[base (rw_filePath rw)]} ∪ named (srv w) → fileType rw = kname kd → rw_rows rw = [] → currentRowCount rw = 0 →
  toProtoPartitionValues (partitionValues rw) = Ok (pvals k) → arrowSchema (aw w) !! kname kd = Some (rw_schema rw) →
  let w' := attach (mkWorld (aw w) s (tableIndex w)) k (put_slot x kd (Some rw)) in sound w' ∧ same_rows (attach w k x) w'.
Proof.
  intros [Hs1 Hs2 Hs3 Hs4 Hs5 Hs6] Hx Hst Hfresh Hn Ht Hrows Hc Hp Hsch w'.
  assert (Hslot : ∀ k' kd' rw', has_slot w' k' kd' rw' ↔ has_slot (attach w k x) k' kd' rw' ∨ (k' = k ∧ kd' = kd ∧ rw' = rw)).
  { intros k' kd' rw'. unfold w'. rewrite !attach_slot, slot_put. unfold has_slot. cbn. case_decide; [subst; rewrite Hx|]; naive_solver. }
  assert (Hnone : stored (srv w) !! rw_filePath rw = None).
  { destruct (stored (srv w) !! rw_filePath rw) as [c|] eqn:E; [|done]. by apply Hs5 in E. }
  assert (Hother : ∀ k' kd' rw', has_slot (attach w k x) k' kd' rw' → rw_filePath rw' ≠ rw_filePath rw).
  { intros k' kd' rw' Hr He. destruct (Hs3 _ _ _ Hr) as [_ _ _ _ Hnm _ _]. rewrite He in Hnm. done. }
  split; [split|].
  - unfold w'. cbn. setoid_rewrite Hst. exact Hs1.
  - exact Hs2.
  - intros k' kd' rw' [Hr|(-> & -> & ->)]%Hslot.
    + destruct (Hs3 _ _ _ Hr). split; unfold w'; cbn; rewrite ?Hst, ?Hn; try done. set_solver.
    + cbn in Hs6. split; unfold w'; cbn; rewrite ?Hst, ?Hn, ?Hrows; try done; set_solver.
  - intros k1 kd1 rw1 k2 kd2 rw2 [H1|(-> & -> & ->)]%Hslot [H2|(-> & -> & ->)]%Hslot He;
      [by apply (Hs4 _ _ rw1 _ _ rw2)|by apply Hother in H1|symmetry in He; by apply Hother in H2|done].
  - intros p c. unfold w'. cbn. rewrite Hst, Hn. intros Hl%Hs5. set_solver.
  - unfold w'. cbn. rewrite Hn. cbn in Hs6. set_solver.
  - intros k' kd' p n sch row. unfold holds_row. change (created w' k' kd') with (created (attach w k x) k' kd').
    change (stored (srv w')) with (stored s). rewrite Hst. apply or_iff_compat_l. split.
    + intros (rw' & [Hr|(_ & _ & ->)]%Hslot & Hrest); [eauto|]. rewrite Hrows in Hrest. by destruct Hrest as (_ & _ & ?).
    + intros (rw' & Hr & Hrest). exists rw'. split; [apply Hslot; by left|done].
Qed.

Lemma check_sound w k x kd rw w' rw' :
  sound (attach w k x) → slot x kd = Some rw → checkAndFlush rw k w = (w', Ok rw') →
  sound (attach w' k (put_slot x kd (Some rw'))) ∧ same_rows (attach w k x) (attach w' k (put_slot x kd (Some rw'))) ∧ quiet w w'.
Proof.
  intros Hs Hx. pose proof (s_slot _ Hs k kd rw ltac:(apply attach_slot; auto)) as [Ht _ Hp _ _ _ _]. unfold checkAndFlush.
  destruct (_ <? _).
  { intros [= <- <-]. assert (put_slot x kd (Some rw) = x) as -> by (destruct x, kd; cbn in Hx; by subst). split_and!; [done|done|apply quiet_refl]. }
  intros (w1 & [] & Hfl & H)%M_bind_Ok. destruct (flush_sound _ _ _ _ _ _ Hs Hx Hfl) as (Hs1 & Hr1 & Hq1).
  apply M_bind_Ok in H as (w2 & sch & [-> Hsch]%schema_of_spec & H). apply M_bind_Ok in H as (w2 & new & (-> & Hty & _ & Hsc & Hrows & Hcnt & Hpv)%new_rolling_spec & H).
  apply M_bind_Ok in H as (w3 & path & (s & -> & Hst & Hrow & Hvec & Hfresh & Hn)%allocate_spec & H). injection H as <- <-. rewrite Ht in Hsch, Hty.
  set (rw' := mkRolling _ _ _ _ _ _ _).
  destruct (install_sound w1 s k (put_slot x kd None) kd rw') as [Hs2 Hr2]; try done.
  - rewrite slot_put. by case_decide.
  - unfold rw'. cbn. by rewrite Hpv.
  - unfold rw'. cbn. congruence.
  - assert (put_slot (put_slot x kd None) kd (Some rw') = put_slot x kd (Some rw')) as He by (by destruct kd). rewrite He in Hs2, Hr2.
    split_and!; [done| |].
    + intros k' kd' p n sch' row. etransitivity; [apply Hr2|apply Hr1].
    + eapply quiet_trans; [exact Hq1|]. split; try done. cbn. by destruct (aw w1).
Qed.

Lemma write_sound w k x kd rw rows w' rw' :
  sound (attach w k x) → slot x kd = Some rw → WriteBuffered rw rows w = (w', Ok rw') →
  w' = w ∧ sound (attach w k (put_slot x kd (Some rw'))) ∧ rw_schema rw' = rw_schema rw ∧ rw_filePath rw' = rw_filePath rw
  ∧ ∀ k' kd' p n sch row, holds_row (attach w k (put_slot x kd (Some rw'))) k' kd' p n sch row ↔
      holds_row (attach w k x) k' kd' p n sch row
      ∨ (k' = k ∧ kd' = kd ∧ p = rw_filePath rw ∧ sch = rw_schema rw ∧ ∃ i, n = (length (rw_rows rw) + i)%nat ∧ rows !! i = Some row).
Proof.
  intros [Hs1 Hs2 Hs3 Hs4 Hs5 Hs6] Hx [-> ->]%raise_Ok. set (rw' := mkRolling _ _ _ _ _ _ _).
  assert (Hr : has_slot (attach w k x) k kd rw) by (apply attach_slot; auto).
  assert (Hslot : ∀ k' kd' y, has_slot (attach w k (put_slot x kd (Some rw'))) k' kd' y ↔
    (has_slot (attach w k x) k' kd' y ∧ (k', kd') ≠ (k, kd)) ∨ (k' = k ∧ kd' = kd ∧ y = rw')).
  { intros k' kd' y. rewrite !attach_slot, slot_put. case_decide; naive_solver. }
  assert (Hpaths : ∀ k' kd' y, has_slot (attach w k (put_slot x kd (Some rw'))) k' kd' y →
    ∃ y', has_slot (attach w k x) k' kd' y' ∧ rw_filePath y' = rw_filePath y ∧ (good_slot (attach w k x) k' kd' y' → good_slot (attach w k x) k' kd' y)).
  { intros k' kd' y [[Hy _]|(-> & -> & ->)]%Hslot; [eauto|]. exists rw. split_and!; [done..|]. intros [? Hc ? ? ? ? ?]. split; try done. cbn. rewrite Hc, length_app. lia. }
  split_and!; [done| |done|done|].
  - split; [done|done| | |done|done].
    + intros k' kd' y (y' & Hy & _ & Hg)%Hpaths. apply Hs3, Hg in Hy as []. by split.
    + intros k1 kd1 y1 k2 kd2 y2 (z1 & H1 & E1 & _)%Hpaths (z2 & H2 & E2 & _)%Hpaths He. apply (Hs4 _ _ z1 _ _ z2); congruence.
  - intros k' kd' p n sch row. unfold holds_row. change (created (attach w k (put_slot x kd (Some rw')))) with (created (attach w k x)). split.
    + intros [Hl|(y & [[Hy _]|(-> & -> & ->)]%Hslot & <- & <- & Hrow)]; [auto|left; right; eauto|]. cbn in Hrow |- *.
      apply lookup_app_Some in Hrow as [Hrow|[Hle Hrow]]; [left; right; eauto 6|]. right. split_and!; [done..|]. exists (n - length (rw_rows rw))%nat. split; [lia|done].
    + intros [[Hl|(y & Hy & <- & <- & Hrow)]|(-> & -> & -> & -> & i & -> & Hrow)]; [by left|..].
      * right. destruct (decide ((k', kd') = (k, kd))) as [[= -> ->]|Hd]; [|exists y; split; [apply Hslot; auto|done]].
        apply attach_slot in Hy as [[_ Hy]|[? _]]; [|done]. rewrite Hx in Hy. injection Hy as <-. exists rw'. split_and!; [apply Hslot; auto|done|done|].
        by apply lookup_app_l_Some.
      * right. exists rw'. split_and!; [apply Hslot; auto|done|done|]. cbn. by rewrite lookup_app_r, Nat.add_comm, Nat.add_sub by lia.
Qed.

(** ** What an operation on the writer of partition [k] leaves alone *)
Definition quiet_but k w w' : Prop := ∀ y, quiet (attach w k y) (attach w' k y).
Lemma quiet_quiet_but k w w' : quiet w w' → quiet_but k w w'.
Proof. intros [Ha Hi Hr Hv] y. split; try done. unfold attach. cbn. by rewrite Ha. Qed.
Lemma quiet_but_trans k w1 w2 w3 : quiet_but k w1 w2 → quiet_but k w2 w3 → quiet_but k w1 w3.
Proof. intros H1 H2 y. eapply quiet_trans; auto. Qed.
Lemma quiet_but_attach k w x : quiet_but k w (attach w k x).
Proof. intros y. rewrite attach_attach. apply quiet_refl. Qed.
Lemma quiet_but_refl k w : quiet_but k w w.
Proof. intros y. apply quiet_refl. Qed.
Lemma quiet_other k w w' k' : quiet_but k w w' → k' ≠ k → writers (aw w') !! k' = writers (aw w) !! k'.
Proof. intros Hq Hne. pose proof (q_aw _ _ (Hq no_writer)) as Ha. apply (f_equal writers) in Ha. cbn in Ha. apply (f_equal (.!! k')) in Ha. by rewrite !lookup_insert_ne in Ha. Qed.

Lemma quiet_const {A} (f : ArrowWriter → A) k w w' : quiet_but k w w' → (∀ y a m, f (set_created m (set_writer k y a)) = f a) → f (aw w') = f (aw w).
Proof.
  intros Hq Hf. pose proof (q_aw _ _ (Hq no_writer)) as Ha. rewrite <- (Hf no_writer (aw w') (createdFiles (aw w'))), <- (Hf no_writer (aw w) (createdFiles (aw w'))).
  cbn in Ha. unfold set_created, set_writer in *. cbn in *. by rewrite <- Ha.
Qed.

Lemma same_rows_trans w1 w2 w3 : same_rows w1 w2 → same_rows w2 w3 → same_rows w1 w3.
Proof. intros H1 H2 k kd p n sch row. etransitivity; [apply H2|apply H1]. Qed.

Lemma put_put x kd o o' : put_slot (put_slot x kd o) kd o' = put_slot x kd o'.
Proof. by destruct kd. Qed.

Lemma roll_sound w k x kd rw w' x' :
  sound (attach w k (put_slot x kd (Some rw))) → roll k (put_slot x kd) rw w = (w', Ok x') →
  ∃ rw', x' = put_slot x kd (Some rw') ∧ sound w' ∧ writers (aw w') !! k = Some x'
  ∧ same_rows (attach w k (put_slot x kd (Some rw))) w' ∧ quiet_but k w w'.
Proof.
  intros Hs. unfold roll. intros (w1 & [] & [= <-] & H)%M_bind_Ok. change (mkWorld _ _ _) with (attach w k (put_slot x kd (Some rw))) in H.
  apply M_bind_Ok in H as (w2 & res & Hc & H). destruct (checkAndFlush rw k _) as [w3 r] eqn:Ec.
  destruct r as [rw'|e|m]; [|injection Hc as <- <-; by apply M_bind_Ok in H as (? & ? & [= <-] & ?)|done]. injection Hc as <- <-.
  destruct (check_sound (attach w k (put_slot x kd (Some rw))) k (put_slot x kd (Some rw)) kd rw w3 rw') as (Hs3 & Hr3 & Hq3).
  - by rewrite attach_attach.
  - rewrite slot_put. by case_decide.
  - done.
  - rewrite put_put, ?attach_attach in *. apply M_bind_Ok in H as (? & ? & [= <-] & [= <- <-]). exists rw'. split_and!; [done|done| |done|].
    + cbn. by rewrite lookup_insert_eq.
    + eapply quiet_but_trans; [apply quiet_but_attach|]. eapply quiet_but_trans; [by apply quiet_quiet_but|]. apply quiet_but_attach.
Qed.

(** Files that are open stay open. *)
Definition keeps x x' : Prop := ∀ kd rw, slot x kd = Some rw → slot x' kd = Some rw.

Lemma ensure_sound w k ex values kd x w' x' :
  sound (attach w k x) → toProtoPartitionValues values = Ok (pvals k) →
  ensure_writer k ex values (kname kd) x (slot x kd) (λ x, put_slot x kd) w = (w', Ok x') →
  (∃ rw, x' = put_slot x kd (Some rw)) ∧ keeps x x' ∧ sound (attach w' k x') ∧ same_rows (attach w k x) (attach w' k x') ∧ quiet_but k w w'.
Proof.
  intros Hs Hp. unfold ensure_writer. destruct (slot x kd) as [rw|] eqn:Hx.
  { intros [= <- <-]. split_and!; [|by intros ?|done|done|apply quiet_but_refl]. exists rw. destruct x, kd; cbn in Hx; by subst. }
  intros (w1 & rw & Hc & H)%M_bind_Ok. unfold createWriter in Hc. apply M_bind_Ok in Hc as (? & sch & [-> Hsch]%schema_of_spec & Hc).
  apply M_bind_Ok in Hc as (? & path & (s & -> & Hst & Hrow & Hvec & Hfresh & Hn)%allocate_spec & (-> & Hty & Hpa & Hsc & Hrows & Hcnt & Hpv)%new_rolling_spec).
  destruct (install_sound w s k x kd rw) as [Hs2 Hr2]; try congruence. set (w1 := mkWorld _ _ _) in *.
  assert (Hq : quiet_but k w w1) by (apply quiet_quiet_but; split; try done; cbn; by destruct (aw w)).
  assert (∃ y, x' = put_slot x kd (Some rw) ∧ (w' = w1 ∨ w' = attach w1 k y)) as (y & -> & Hw).
  { apply M_bind_Ok in H as (w2 & [] & Hk & [= <- <-]). unfold keep in Hk. exists (put_slot x kd (Some rw)). destruct ex; injection Hk as <-; auto. }
  destruct Hw as [->| ->]; rewrite ?attach_attach; (split_and!; [eauto| |done|done|]).
  - intros kd' rw' Hr. rewrite slot_put. case_decide; [congruence|done].
  - done.
  - intros kd' rw' Hr. rewrite slot_put. case_decide; [congruence|done].
  - eapply quiet_but_trans; [exact Hq|apply quiet_but_attach].
Qed.

(** The slots of a partition's writer are filled, its other fields are kept. *)
Definition same_batch x x' : Prop := olakeIDPosition x' = olakeIDPosition x ∧ w_data x' = w_data x ∧ equalityDeletes x' = equalityDeletes x ∧ positionalDeletes x' = positionalDeletes x.
Lemma same_batch_put x kd o : same_batch x (put_slot x kd o).
Proof. by destruct kd. Qed.
Lemma same_batch_trans x y z : same_batch x y → same_batch y z → same_batch x z.
Proof. unfold same_batch. intros (?&?&?&?) (?&?&?&?). split_and!; congruence. Qed.

(** Soundness and rows depend on the open and the stored files only. *)
Lemma sound_ext w w' :
  createdFiles (aw w') = createdFiles (aw w) → arrowSchema (aw w') = arrowSchema (aw w) → stored (srv w') = stored (srv w) → named (srv w') = named (srv w) →
  (∀ k kd rw, has_slot w' k kd rw ↔ has_slot w k kd rw) → (sound w → sound w') ∧ same_rows w w'.
Proof.
  intros Hc Ha Hst Hn Hslot. split.
  - intros [Hs1 Hs2 Hs3 Hs4 Hs5 Hs6]. split.
    + intros k kd f. unfold created. rewrite Hc, Hst. apply Hs1.
    + intros k kd f k' kd' f'. unfold created. rewrite Hc. apply Hs2.
    + intros k kd rw Hr%Hslot. destruct (Hs3 _ _ _ Hr). by split; rewrite ?Hst, ?Hn, ?Ha.
    + intros k1 kd1 rw1 k2 kd2 rw2 H1%Hslot H2%Hslot. by apply (Hs4 _ _ rw1 _ _ rw2).
    + rewrite Hst, Hn. exact Hs5.
    + rewrite Hn. exact Hs6.
  - intros k kd p n sch row. unfold holds_row, created. setoid_rewrite Hslot. by rewrite Hc, Hst.
Qed.
Lemma sound_batch w w' k x x' :
  sound w → writers (aw w) !! k = Some x → (∀ kd, slot x' kd = slot x kd) → writers (aw w') = <[k := x']> (writers (aw w)) →
  createdFiles (aw w') = createdFiles (aw w) → arrowSchema (aw w') = arrowSchema (aw w) → srv w' = srv w → sound w' ∧ same_rows w w'.
Proof.
  intros Hs Hx Hslot Hw Hc Ha Hsrv. destruct (sound_ext w w') as [Hs' Hr']; rewrite ?Hsrv; auto.
  intros k' kd rw. unfold has_slot. rewrite Hw. destruct (decide (k' = k)) as [->|Hne]; [|by rewrite lookup_insert_ne].
  rewrite lookup_insert_eq, Hx. specialize (Hslot kd). split; [intros (y & [= <-] & Hr); exists x|intros (y & [= <-] & Hr); exists x']; split; congruence.
Qed.
Lemma empty_sound w k : sound w → writers (aw w) !! k = None → sound (attach w k no_writer) ∧ same_rows w (attach w k no_writer).
Proof.
  intros Hs Hk. destruct (sound_ext w (attach w k no_writer)) as [Hs' Hr]; try done; [|auto].
  intros k' kd rw. rewrite attach_slot. unfold has_slot at 2. split; [intros [[-> Hr]|[_ Hr]]; [by destruct kd|done]|].
  intros (x & Hx & Hr). right. split; [congruence|by exists x].
Qed.

Lemma get_or_create_spec w k values w' x' :
  sound w → toProtoPartitionValues values = Ok (pvals k) → getOrCreateWriter k values w = (w', Ok x') →
  sound w' ∧ writers (aw w') !! k = Some x' ∧ same_rows w w' ∧ quiet_but k w w' ∧ same_batch (default no_writer (writers (aw w) !! k)) x'
  ∧ keeps (default no_writer (writers (aw w) !! k)) x' ∧ is_Some (dataWriter x')
  ∧ (upsertMode (aw w) = true → deleteMode (aw w) ≠ UpdateTypeDeletionVector →
     is_Some (positionalDeleteWriter x') ∧ (indexThread (aw w) = None → is_Some (equalityDeleteWriter x'))).
Proof.
  intros Hs Hp. unfold getOrCreateWriter. intros (? & found & [-> ->]%gets_Ok & H)%M_bind_Ok.
  set (ex := match writers (aw w) !! k with Some _ => true | None => false end) in H. set (x := default no_writer (writers (aw w) !! k)) in *.
  assert (sound (attach w k x) ∧ same_rows w (attach w k x)) as [Hs0 Hr0].
  { unfold x. destruct (writers (aw w) !! k) as [y|] eqn:Ey; [by rewrite attach_self|by apply empty_sound]. }
  apply M_bind_Ok in H as (w1 & x1 & H1 & H). destruct (ensure_sound w k ex values KData x w1 x1 Hs0 Hp H1) as ([rw1 ->] & Hk1 & Hs1 & Hr1 & Hq1).
  apply M_bind_Ok in H as (? & deletes & [-> Hd]%gets_Ok & H). apply M_bind_Ok in H as (? & hasIndex & [-> Hi]%gets_Ok & H).
  rewrite (quiet_const (λ a, upsertMode a && negb (String.eqb (deleteMode a) UpdateTypeDeletionVector)) _ _ _ Hq1) in Hd by done.
  rewrite (quiet_const (λ a, match indexThread a with Some _ => true | None => false end) _ _ _ Hq1) in Hi by done.
  apply M_bind_Ok in H as (w2 & x2 & H2 & H). set (y := put_slot x KData (Some rw1)) in *.
  assert ((deletes && negb hasIndex = true → is_Some (slot x2 KEq)) ∧ same_batch y x2 ∧ slot x2 KData = Some rw1 ∧ keeps y x2
    ∧ sound (attach w2 k x2) ∧ same_rows (attach w1 k y) (attach w2 k x2) ∧ quiet_but k w1 w2) as (Hdel2 & Hsb2 & Hd2 & Hk2 & Hs2 & Hr2 & Hq2).
  { destruct (deletes && negb hasIndex); [|injection H2 as <- <-; split_and!; try done; first [by intros ?|apply quiet_but_refl]].
    destruct (ensure_sound w1 k ex values KEq y w2 x2 Hs1 Hp H2) as ([rw2 ->] & ? & ? & ? & ?). split_and!; try done; by eexists. }
  apply M_bind_Ok in H as (w3 & x3 & H3 & H).
  assert ((deletes = true → is_Some (slot x3 KPos)) ∧ same_batch x2 x3 ∧ slot x3 KData = slot x2 KData ∧ slot x3 KEq = slot x2 KEq ∧ keeps x2 x3
    ∧ sound (attach w3 k x3) ∧ same_rows (attach w2 k x2) (attach w3 k x3) ∧ quiet_but k w2 w3) as (Hdel3 & Hsb3 & Hd3 & He3 & Hk3 & Hs3 & Hr3 & Hq3).
  { destruct deletes; [|injection H3 as <- <-; split_and!; try done; first [by intros ?|apply quiet_but_refl]].
    destruct (ensure_sound w2 k ex values KPos x2 w3 x3 Hs2 Hp H3) as ([rw3 ->] & ? & ? & ? & ?). split_and!; try done; by eexists. }
  apply M_bind_Ok in H as (? & ? & [= <-] & [= <- <-]). change (mkWorld _ _ _) with (attach w3 k x3). cbn [slot] in *. split_and!.
  - done.
  - cbn. by rewrite lookup_insert_eq.
  - eapply same_rows_trans; [exact Hr0|]. eapply same_rows_trans; [exact Hr1|]. eapply same_rows_trans; [exact Hr2|exact Hr3].
  - eapply quiet_but_trans; [exact Hq1|]. eapply quiet_but_trans; [exact Hq2|]. eapply quiet_but_trans; [exact Hq3|]. apply quiet_but_attach.
  - eapply same_batch_trans; [apply (same_batch_put x KData (Some rw1))|]. by eapply same_batch_trans.
  - intros kd rw Hr. by apply Hk3, Hk2, Hk1.
  - rewrite Hd3, Hd2. eauto.
  - intros Hu Hm. apply String.eqb_neq in Hm. rewrite Hu, Hm in Hd. subst deletes. split; [auto|]. intros Hn. rewrite Hn in Hi. subst hasIndex. rewrite He3. auto.
Qed.

(** Writing rows to an open file. *)
Lemma append_sound w k x kd rw rows w' x' :
  sound w → writers (aw w) !! k = Some x → slot x kd = Some rw → (rw ← WriteBuffered rw rows; roll k (put_slot x kd) rw) w = (w', Ok x') →
  ∃ rw', x' = put_slot x kd (Some rw') ∧ sound w' ∧ writers (aw w') !! k = Some x' ∧ quiet_but k w w'
  ∧ ∀ k' kd' p n sch row, holds_row w' k' kd' p n sch row ↔ holds_row w k' kd' p n sch row
      ∨ (k' = k ∧ kd' = kd ∧ p = rw_filePath rw ∧ sch = rw_schema rw ∧ ∃ i, n = (length (rw_rows rw) + i)%nat ∧ rows !! i = Some row).
Proof.
  intros Hs Hx Hrw (w1 & rw1 & Hwr & Hroll)%M_bind_Ok. pose proof (attach_self _ _ _ Hx) as Hself.
  destruct (write_sound w k x kd rw rows w1 rw1) as (-> & Hs1 & _ & _ & Hr1); [by rewrite Hself|done..|]. rewrite Hself in Hr1.
  destruct (roll_sound w k x kd rw1 w' x' Hs1 Hroll) as (rw' & -> & Hs2 & Hx2 & Hr2 & Hq2). exists rw'. split_and!; [done..|].
  intros k' kd' p n sch row. etransitivity; [apply Hr2|apply Hr1].
Qed.
End Structure.
