(* ===== verification/ArrowUpsertFacts.v ===== *)
(** * Theorems about the Arrow writer: a committed thread leaves the last version of every record

    A run of a writer thread is a list of batches and schema changes followed by a
    commit.  [log_of] is what the records of a run ask for (equality deletes, deleted
    positions, where each identity lives), [tied] the invariant that the files written,
    the batches waiting and the index agree with it. *)

From S2P Require Import Prelude GoString GoSet DataTypes QueryEngine Value Schema Stream StreamFacts Catalog State Fields Writers TwoPC IndexDB IndexDBFacts Jdbc Chunking Transforms ArrowWriter ArrowWriterFacts.

(** What the writer relies on of the stream index; [index_room] is the number of
    locations it can still take. *)
Class IndexSpec `{StreamIndex} := {
  index_holds : index → gmap string RowLocation → Z → Prop;
  index_room : index → nat → Prop;
  room_mono : ∀ i n n', index_room i n → (n' ≤ n)%nat → index_room i n';
  lookup_law : ∀ i m s key, index_holds i m s →
    ∃ i', Index_Lookup i key = Ok (m !! key, i') ∧ index_holds i' m s ∧ ∀ n, index_room i n → index_room i' n;
  snapshot_law : ∀ i m s, index_holds i m s → Index_LastCommittedSnapshot i = Ok s;
  commit_law : ∀ i m s b x, index_holds i m s → valid_changes (changes b) → index_room i (size (changes b)) →
    (∀ y, x = Some y → - 2 ^ 63 ≤ y < 2 ^ 63) → 
    ∃ i', Index_Commit i b x = Ok i' ∧ index_holds i' (changes b ∪ m) (default s x) ∧ ∀ n, index_room i (size (changes b) + n) → index_room i' n;
  truncate_law : ∀ i, index_holds (Index_Truncate i) ∅ 0 ∧ ∀ n, Z.of_nat n < 2 ^ 64 → index_room (Index_Truncate i) n
}.
#[global] Program Instance pebble_index_spec `{KVStore} `{GoRange} : IndexSpec := {|
  index_holds := represents; index_room i n := nextFileID i + Z.of_nat n < 2 ^ 64
|}.
Next Obligation. intros KV R i n n' Hn Hle. cbn in *. lia. Qed.
Next Obligation.
  intros KV R i m s key [files Hh]. destruct (Lookup_spec i m s files key Hh) as (i' & Hl & ?). exists i'. split_and!; [done|by exists files|].
  intros n. by rewrite (Lookup_counter i key _ i' Hl).
Qed.
Next Obligation. intros KV R i m s [files Hh]. apply Hh. Qed.
Next Obligation.
  intros KV R i m s b x [files Hh] Hv Hn Hx. destruct (Commit_spec i m s files (changes b) x Hh Hv Hn Hx) as (i' & files' & ? & ? & ?).
  exists i'. split_and!; [done|by exists files'|]. intros n. cbn in *. lia.
Qed.
Next Obligation. intros KV R i. split; [exists ∅; apply Truncate_spec|]. intros n Hn. cbn. lia. Qed.

Lemma mapM_Forall2 {A B} (f : A → result B) l k : mapM_result f l = Ok k → Forall2 (λ a b, f a = Ok b) l k.
Proof.
  revert k. induction l as [|a l IH]; intros k; simpl; [intros [= <-]; constructor|].
  rewrite bind_Ok. intros (b & Hb & Hk). apply bind_Ok in Hk as (bs & Hbs & [= <-]). constructor; auto.
Qed.

(** An index that holds a table's rows and has room for some more. *)
Definition index_ready `{IndexSpec} (i : index) (m : gmap string RowLocation) (s : Z) (room : nat) : Prop := index_holds i m s ∧ index_room i room.
Lemma ready_lookup `{IndexSpec} i m s room key : index_ready i m s room → ∃ i', Index_Lookup i key = Ok (m !! key, i') ∧ index_ready i' m s room.
Proof. intros [Hh Hr]. destruct (lookup_law i m s key Hh) as (i' & Hl & Hh' & Hr'). exists i'. split; [done|]. split; auto. Qed.

(** ** Records in the order they were written *)
Record entry := mkEntry {
  e_key : string;                     (* the partition *)
  e_rec : RawRecord;                  (* the record handed to [Write] *)
  e_out : RawRecord;                  (* the record written to the file *)
  e_table : gmap string string;       (* the columns of the table at that time *)
  e_schema : list arrow_field;
  e_path : string;
  e_pos : nat
}.
Definition e_loc (e : entry) : PositionalDelete := mkPosDelete (e_path e) (Z.of_nat (e_pos e)).
Definition text_of (rec : RawRecord) (column : string) : string :=
  match OlakeColumns rec !! column with Some (AString s) => s | _ => "" end.
Definition e_id (e : entry) : string := text_of (e_rec e) OlakeID.
Definition e_op (e : entry) : string := text_of (e_rec e) OpType.

Definition tracked (op : string) : bool := contains ["d"; "u"; "i"; "c"] op.
Definition looked_up (op : string) : bool := negb (String.eqb op "r") && negb (String.eqb op "c").
Definition to_delete (loc : RowLocation) : PositionalDelete := mkPosDelete (FilePath loc) (Position loc).

#[export] Instance positional_eq : EqDecision PositionalDelete.
Proof. solve_decision. Defined.

(** ** What the records of a thread ask for *)
Record log := mkLog {
  l_at : string → string → option PositionalDelete;   (* partition, identity: where it lives *)
  l_eq : list (string * string);                      (* equality deletes by partition *)
  l_del : list (string * PositionalDelete)            (* deleted positions, by the partition that asks *)
}.

Section Log.
Context (upsert indexed : bool) (m0 : gmap string RowLocation).

Definition scope (k : string) : string := if indexed then "" else k.
Definition move (g : log) (e : entry) : string → string → option PositionalDelete :=
  λ k id, if decide (k = scope (e_key e) ∧ id = e_id e) then Some (e_loc e) else l_at g k id.
Definition log_step (g : log) (e : entry) : log :=
  let prev := l_at g (scope (e_key e)) (e_id e) in
  let dels := match prev with Some d => l_del g ++ [(e_key e, d)] | None => l_del g end in
  if indexed then mkLog (move g e) (l_eq g) (if upsert && looked_up (e_op e) then dels else l_del g)
  else if upsert && tracked (e_op e)
       then mkLog (move g e) (match prev with Some _ => l_eq g | None => l_eq g ++ [(e_key e, e_id e)] end) dels
       else g.
Definition log0 : log := mkLog (λ _ id, if indexed then to_delete <$> m0 !! id else None) [] [].
Definition log_of (l : list entry) : log := foldl log_step log0 l.

Lemma log_snoc l e : log_of (l ++ [e]) = log_step (log_of l) e.
Proof. unfold log_of. by rewrite foldl_app. Qed.

Lemma log_eq_nil l : indexed = true ∨ upsert = false → l_eq (log_of l) = [].
Proof.
  intros Hm. induction l as [|e l IH] using rev_ind; [done|]. rewrite log_snoc. unfold log_step.
  destruct indexed; [done|]. by destruct Hm as [?| ->].
Qed.
Lemma log_del_nil l : upsert = false → l_del (log_of l) = [].
Proof.
  intros Hm. induction l as [|e l IH] using rev_ind; [done|]. rewrite log_snoc. unfold log_step. rewrite Hm. by destruct indexed.
Qed.
End Log.

(** The first entry with an identity. *)
Lemma first_with (l : list entry) e : e ∈ l → ∃ l1 e1 l2, l = l1 ++ e1 :: l2 ∧ e_id e1 = e_id e ∧ ∀ e', e' ∈ l1 → e_id e' ≠ e_id e.
Proof.
  induction l as [|e0 l IH]; [by intros ?%not_elem_of_nil|]. intros Hin. destruct (decide (e_id e0 = e_id e)) as [He|Hne].
  { exists [], e0, l. split_and!; try done. by intros ? ?%not_elem_of_nil. }
  apply elem_of_cons in Hin as [->|Hin]; [done|]. destruct (IH Hin) as (l1 & e1 & l2 & -> & ? & Hl). exists (e0 :: l1), e1, l2.
  split_and!; [done..|]. intros e' [->|?]%elem_of_cons; auto.
Qed.

Section Upsert.
Context {HE : GoEnv} {HR : GoRange} {HC : ServerClient} {HS : ArrowServer} {HX : StreamIndex} {HI : IndexSpec} {HP : ParquetLib}.
Context (murmur3 : list Z → Z) (fmt_g : spec_float → string) (time_format : string → gotime → string).
Context (json_marshal : any → option string) (marshal_state : MetadataState → string).
Context (schema_fields : string → option (list (Z * string))).
Context (pvals : string → list PartitionValue) (N0 : gset string).
Context (upsert indexed : bool) (mode : string) (m0 : gmap string RowLocation) (snap0 : Z) (room0 : nat) (tid : string) (row0 : string → Z → option trow).
Implicit Types (w : world) (k p : string) (kd : kind) (x : Writer_) (rw : RollingWriter) (e : entry) (l : list entry).

Abbreviation logged l := (log_of upsert indexed m0 l).
Abbreviation extract_one := (extract_one murmur3 fmt_g time_format).
Abbreviation write_partition := (write_partition json_marshal).
Abbreviation record_row := (record_row json_marshal).

(** An entry waits in the batch of its partition, or its row was written. *)
Definition waits x e (i : nat) : Prop := ∃ rw, dataWriter x = Some rw ∧ e_path e = rw_filePath rw ∧ e_pos e = (length (rw_rows rw) + i)%nat ∧ e_schema e = rw_schema rw.
Definition batch w k : Writer_ := default no_writer (writers (aw w) !! k).
Definition waiting w e : Prop := ∃ i, w_data (batch w (e_key e)) !! i = Some (e_out e) ∧ waits (batch w (e_key e)) e i.
Definition written w e : Prop := ∃ row, holds_row w (e_key e) KData (e_path e) (e_pos e) (e_schema e) row ∧ record_row (e_schema e) (e_out e) = Ok row.

Definition pos_row (d : PositionalDelete) : list (option cell) := [Some (CString (pd_FilePath d)); Some (CInt64 (pd_Position d))].
Definition eq_row (id : string) : list (option cell) := [Some (CString id)].
Definition in_file w k kd (row : list (option cell)) : Prop := ∃ p n sch, holds_row w k kd p n sch row.
Definition queued w k (d : PositionalDelete) : Prop := d ∈ positionalDeletes (batch w k).
Definition vector_has w (d : PositionalDelete) : Prop :=
  (∃ v, v ∈ vectors (srv w) tid ∧ dv_DataFilePath v = pd_FilePath d ∧ pd_Position d ∈ dv_Positions v)
  ∨ (∃ pv, pendingVectors (aw w) !! pd_FilePath d = Some pv ∧ pd_Position d ∈ pv_positions pv).
Definition is_dv : bool := String.eqb mode UpdateTypeDeletionVector.

Record tied w l : Prop := {
  t_sound : sound pvals N0 w;
  t_thread : aw_threadID (aw w) = tid;
  t_upsert : upsertMode (aw w) = upsert;
  t_mode : deleteMode (aw w) = mode;
  t_table : row_at (srv w) = row0;
  t_placed : ∀ e, e ∈ l → written w e ∨ waiting w e;
  t_rows : ∀ k p n sch row, holds_row w k KData p n sch row →
    ∃ e, e ∈ l ∧ e_key e = k ∧ e_path e = p ∧ e_pos e = n ∧ e_schema e = sch ∧ record_row sch (e_out e) = Ok row;
  t_batch : ∀ k i rec, w_data (batch w k) !! i = Some rec → ∃ e, e ∈ l ∧ e_key e = k ∧ e_out e = rec ∧ waits (batch w k) e i;
  t_new : ∀ e, e ∈ l → base (e_path e) ∉ N0;
  t_distinct : NoDup (e_loc <$> l);
  t_equality : ∀ k id, (in_file w k KEq (eq_row id) ∨ id ∈ equalityDeletes (batch w k)) ↔ (k, id) ∈ l_eq (logged l);
  t_files : is_dv = false → ∀ k d, (in_file w k KPos (pos_row d) ∨ queued w k d) ↔ (k, d) ∈ l_del (logged l);
  t_vectors : is_dv = true → ∀ d, (vector_has w d ∨ ∃ k, queued w k d) ↔ ∃ k, (k, d) ∈ l_del (logged l);
  t_no_vectors : is_dv = false → ∀ d, ¬ vector_has w d;
  t_no_files : is_dv = true → ∀ k row, ¬ in_file w k KPos row;
  t_count : 0 ≤ pendingVectorCount (aw w) ∧ (pendingVectorCount (aw w) = 0 → pendingVectors (aw w) = ∅);
  t_live : ∀ k, (equalityDeletes (batch w k) ≠ [] → is_Some (equalityDeleteWriter (batch w k)))
    ∧ (w_data (batch w k) = [] → equalityDeletes (batch w k) = [] ∧ positionalDeletes (batch w k) = []);
  t_memory : indexed = false → indexThread (aw w) = None ∧ ∀ k id, olakeIDPosition (batch w k) !! id = l_at (logged l) k id;
  t_index : indexed = true → ∃ b i, indexThread (aw w) = Some b ∧ tableIndex w = Some i ∧ index_ready i m0 snap0 room0
    ∧ dom (changes b) ⊆ (list_to_set (e_id <$> l) : gset string) ∧ ∀ id, to_delete <$> (changes b ∪ m0) !! id = l_at (logged l) "" id
}.

Lemma batch_some w k x : writers (aw w) !! k = Some x → batch w k = x.
Proof. unfold batch. by intros ->. Qed.
Lemma batch_other k w w' k' : quiet_but k w w' → k' ≠ k → batch w' k' = batch w k'.
Proof. intros Hq Hne. unfold batch. by rewrite (quiet_other _ _ _ _ Hq Hne). Qed.
Lemma in_file_same w w' k kd row : same_rows w w' → in_file w' k kd row ↔ in_file w k kd row.
Proof. intros Hr. unfold in_file. split; intros (p & n & sch & Hrow); exists p, n, sch; by apply Hr. Qed.
Lemma written_same w w' e : same_rows w w' → written w e → written w' e.
Proof. intros Hr (row & Hh & Hrow). exists row. split; [by apply Hr|done]. Qed.
Lemma waits_keeps x x' e i : keeps x x' → waits x e i → waits x' e i.
Proof. intros Hk (rw & Hrw & ?). exists rw. split; [by apply (Hk KData)|done]. Qed.

Definition delete_row w k kd (row : list (option cell)) : Prop :=
  match kd with
  | KData => False
  | KEq => ∃ id, id ∈ equalityDeletes (batch w k) ∧ row = eq_row id
  | KPos => ∃ d, d ∈ positionalDeletes (batch w k) ∧ row = pos_row d
  end.

Lemma pos_row_inj d d' : pos_row d = pos_row d' → d = d'.
Proof. destruct d, d'. by intros [= -> ->]. Qed.

(** Files are opened or rolled, and delete rows that are in the batch anyway written. *)
Lemma tied_quiet w w' k l :
  tied w l → sound pvals N0 w' → quiet_but k w w' →
  (∀ k' p n sch row, holds_row w' k' KData p n sch row ↔ holds_row w k' KData p n sch row) →
  (∀ k' kd row, in_file w k' kd row → in_file w' k' kd row) →
  (∀ k' kd row, in_file w' k' kd row → in_file w k' kd row ∨ (k' = k ∧ delete_row w k kd row ∧ (kd = KPos → is_dv = false))) →
  same_batch (batch w k) (batch w' k) → (w_data (batch w k) ≠ [] → ∀ rw, dataWriter (batch w k) = Some rw → dataWriter (batch w' k) = Some rw) →
  (equalityDeletes (batch w k) ≠ [] → is_Some (equalityDeleteWriter (batch w k)) → is_Some (equalityDeleteWriter (batch w' k))) → tied w' l.
Proof.
  intros T Hs Hq Hdata Hin1 Hin2 Hsb Hdw Hew.
  assert (Hb : ∀ k', same_batch (batch w k') (batch w' k') ∧ (w_data (batch w k') ≠ [] → ∀ rw, dataWriter (batch w k') = Some rw → dataWriter (batch w' k') = Some rw) ∧
    (equalityDeletes (batch w k') ≠ [] → is_Some (equalityDeleteWriter (batch w k')) → is_Some (equalityDeleteWriter (batch w' k')))).
  { intros k'. destruct (decide (k' = k)) as [->|Hne]; [done|by rewrite (batch_other _ _ _ _ Hq Hne)]. }
  assert (Hw : ∀ k' e i rec, w_data (batch w k') !! i = Some rec → waits (batch w k') e i → waits (batch w' k') e i).
  { intros k' e i rec Hi (rw0 & Hrw0 & ?). exists rw0. destruct (Hb k') as (_ & E & _). rewrite (E ltac:(by intros E0; rewrite E0 in Hi) _ Hrw0). done. }
  assert (Hv : ∀ d, aw_threadID (aw w) = tid → vector_has w' d ↔ vector_has w d).
  { intros d Ht. unfold vector_has. rewrite (quiet_const pendingVectors k w w' Hq) by done. pose proof (q_vectors _ _ (Hq no_writer)) as Hv. cbn in Hv. rewrite Ht in Hv. by rewrite Hv. }
  pose proof (λ A (f : ArrowWriter → A), quiet_const f k w w' Hq) as Hc. destruct T. split; try done.
  - by rewrite (Hc _ aw_threadID).
  - by rewrite (Hc _ upsertMode).
  - by rewrite (Hc _ deleteMode).
  - pose proof (q_rows _ _ (Hq no_writer)) as Hrow. cbn in Hrow. congruence.
  - intros e He. destruct (t_placed0 e He) as [(row & Hh & ?)|(i & Hi & Hw')]; [left; exists row; by rewrite Hdata|]. right. exists i. destruct (Hb (e_key e)) as ((_ & -> & _) & _). eauto.
  - intros k' p n sch row Hh%Hdata. by apply t_rows0.
  - intros k' i rec. destruct (Hb k') as ((_ & -> & _) & _). intros Hi. destruct (t_batch0 _ _ _ Hi) as (e & ? & ? & ? & ?). exists e. eauto.
  - intros k' id. rewrite <- t_equality0. destruct (Hb k') as ((_ & _ & -> & _) & _). split; [|intros [?|?]; auto].
    intros [[?|(-> & (id' & Hd & [= ->]) & _)]%Hin2|?]; auto.
  - intros Hd k' d. unfold queued. rewrite <- t_files0 by done. unfold queued. destruct (Hb k') as ((_ & _ & _ & ->) & _). split; [|intros [?|?]; auto].
    intros [[?|(-> & (d' & Hdr & ->%pos_row_inj) & _)]%Hin2|?]; auto.
  - intros Hd d.
    rewrite Hv, <- t_vectors0 by done. unfold queued. apply or_iff_compat_l. split; intros (k' & Hi); exists k'; destruct (Hb k') as ((_ & _ & _ & E) & _); congruence.
  - intros Hd d. rewrite Hv by done. by apply t_no_vectors0.
  - intros Hd k' row [Hf|(_ & _ & Hn)]%Hin2; [by eapply t_no_files0|]. by rewrite Hn in Hd.
  - by rewrite (Hc _ pendingVectorCount), (Hc _ pendingVectors) by done.
  - intros k'. destruct (Hb k') as ((_ & -> & -> & ->) & _ & He). destruct (t_live0 k') as [H1 H2]. auto.
  - intros Hi. rewrite (Hc _ indexThread) by done. destruct (t_memory0 Hi) as [H1 H2]. split; [done|]. intros k' id. destruct (Hb k') as ((-> & _) & _). apply H2.
  - intros Hi. rewrite (Hc _ indexThread) by done. pose proof (q_index _ _ (Hq no_writer)) as Hxi. cbn in Hxi. rewrite Hxi. auto.
Qed.

(** Opening files in a partition. *)
Lemma tied_open w w' k l :
  tied w l → sound pvals N0 w' → same_rows w w' → quiet_but k w w' → same_batch (batch w k) (batch w' k) → keeps (batch w k) (batch w' k) → tied w' l.
Proof.
  intros T Hs Hr Hq Hb Hk. apply (tied_quiet w w' k); try done.
  - intros k' kd row. by rewrite (in_file_same _ _ _ _ _ Hr).
  - intros k' kd row Hf. left. by rewrite <- (in_file_same _ _ _ _ _ Hr).
  - intros _. apply (Hk KData).
  - intros _ [rw Hrw]. exists rw. by apply (Hk KEq).
Qed.

Lemma batch_slot w k kd rw : slot (batch w k) kd = Some rw ↔ has_slot w k kd rw.
Proof. unfold batch, has_slot. destruct (writers (aw w) !! k) as [x|]; cbn; [naive_solver|]. split; [by destruct kd|by intros (? & ? & _)]. Qed.

(** No record sits at the end of an open batch. *)
Lemma fresh_position w l k rw e :
  tied w l → dataWriter (batch w k) = Some rw → e ∈ l → e_path e = rw_filePath rw → (e_pos e < length (rw_rows rw) + length (w_data (batch w k)))%nat.
Proof.
  intros T Hrw Hin Hp. assert (Hk : has_slot w k KData rw) by (by apply batch_slot). pose proof (s_slot _ _ _ (t_sound _ _ T) _ _ _ Hk) as [_ _ _ Hf _ _ _].
  assert (Hsame : ∀ k' rw', has_slot w k' KData rw' → rw_filePath rw' = rw_filePath rw → k' = k ∧ rw' = rw).
  { intros k' rw' Hk' He. destruct (s_slots _ _ _ (t_sound _ _ T) _ _ _ _ _ _ Hk' Hk He) as [-> _]. split; [done|].
    apply batch_slot in Hk. apply batch_slot in Hk'. cbn in *. congruence. }
  destruct (t_placed _ _ T e Hin) as [(row & [(f & c & Hf' & Hpf & Hc & _)|(rw' & Hk' & Hp' & _ & Hrow)] & _)|(i & Hi & rw' & Hrw' & Hp' & -> & _)].
  - rewrite Hp in Hc. cbn in *. congruence.
  - rewrite Hp in Hp'. destruct (Hsame _ _ Hk' Hp') as [_ ->]. apply lookup_lt_Some in Hrow. lia.
  - destruct (Hsame (e_key e) rw') as [He ->]; [by apply batch_slot|congruence|]. rewrite He in Hi. apply lookup_lt_Some in Hi. lia.
Qed.

Lemma tagged_elem {A} k k' (a : A) (L : list A) : (k', a) ∈ ((k,.) <$> L) ↔ k' = k ∧ a ∈ L.
Proof. rewrite list_elem_of_fmap. split; [by intros (? & [= -> ->] & ?)|intros [-> ?]; eauto]. Qed.

(** Adding a record to the batch of a partition. *)
Lemma tied_extend w w' k x x' rw e t E D l :
  tied w l → writers (aw w) !! k = Some x → dataWriter x = Some rw →
  aw w' = set_indexThread t (set_writer k x' (aw w)) → srv w' = srv w → (∀ kd, slot x' kd = slot x kd) →
  e_key e = k → e_path e = rw_filePath rw → e_pos e = (length (rw_rows rw) + length (w_data x))%nat → e_schema e = rw_schema rw →
  w_data x' = w_data x ++ [e_out e] → equalityDeletes x' = equalityDeletes x ++ E → positionalDeletes x' = positionalDeletes x ++ D →
  l_eq (logged (l ++ [e])) = l_eq (logged l) ++ ((k,.) <$> E) → l_del (logged (l ++ [e])) = l_del (logged l) ++ ((k,.) <$> D) →
  (E ≠ [] → is_Some (equalityDeleteWriter x)) →
  (indexed = false → t = None ∧ (∀ id, olakeIDPosition x' !! id = l_at (logged (l ++ [e])) k id) ∧ ∀ k' id, k' ≠ k → l_at (logged (l ++ [e])) k' id = l_at (logged l) k' id) →
  (indexed = true → ∃ b i, t = Some b ∧ tableIndex w' = Some i ∧ index_ready i m0 snap0 room0
    ∧ dom (changes b) ⊆ (list_to_set (e_id <$> (l ++ [e])) : gset string) ∧ ∀ id, to_delete <$> (changes b ∪ m0) !! id = l_at (logged (l ++ [e])) "" id) →
  tied w' (l ++ [e]).
Proof.
  intros T Hx Hrw Haw Hsrv Hslot Hkey Hpath Hpos Hsch Hdata Heq Hdel Hleq Hldel Hew Hmem Hidx.
  destruct (sound_batch pvals N0 w w' k x x') as [Hs' Hr]; try done; [by apply T|by rewrite Haw..|].
  assert (Hb : batch w' k = x') by (apply batch_some; rewrite Haw; cbn; by rewrite lookup_insert_eq).
  assert (Hbx : batch w k = x) by (by apply batch_some).
  assert (Hbo : ∀ k', k' ≠ k → batch w' k' = batch w k') by (intros k' Hne; unfold batch; rewrite Haw; cbn; by rewrite lookup_insert_ne).
  assert (Hlist : ∀ {A} (f : Writer_ → list A) F k' a, f x' = f x ++ F → a ∈ f (batch w' k') ↔ a ∈ f (batch w k') ∨ (k' = k ∧ a ∈ F)).
  { intros A f F k' a Hf. destruct (decide (k' = k)) as [->|Hne]; [rewrite Hb, Hbx, Hf, elem_of_app; naive_solver|rewrite (Hbo _ Hne); naive_solver]. }
  assert (HsD : dataWriter x' = dataWriter x) by apply (Hslot KData). assert (HsE : equalityDeleteWriter x' = equalityDeleteWriter x) by apply (Hslot KEq).
  assert (Hmove : ∀ e' i, waits (batch w (e_key e')) e' i → waits (batch w' (e_key e')) e' i).
  { intros e' i (rw' & Hrw' & ?). exists rw'. split; [|done]. destruct (decide (e_key e' = k)) as [He|Hne]; [|by rewrite (Hbo _ Hne)].
    rewrite He, Hb. rewrite He, Hbx in Hrw'. congruence. }
  assert (Hself : waits x' e (length (w_data x))) by (exists rw; split_and!; [congruence|done..]).
  destruct T. split; rewrite ?Haw, ?Hsrv; try done.
  - intros e' [Hin| ->%list_elem_of_singleton]%elem_of_app.
    + destruct (t_placed0 e' Hin) as [Hw|(i & Hi & Hw)]; [left; by eapply written_same|]. right. exists i. split; [|by apply Hmove].
      destruct (decide (e_key e' = k)) as [He|Hne]; [|by rewrite (Hbo _ Hne)]. rewrite He, Hb, Hdata. rewrite He, Hbx in Hi. by apply lookup_app_l_Some.
    + right. exists (length (w_data x)). rewrite Hkey, Hb, Hdata. split; [by apply list_lookup_middle|done].
  - intros k' p n sch row (e' & Hin & ?)%Hr%t_rows0. exists e'. split; [set_solver|done].
  - intros k' i rec Hi. destruct (decide (k' = k)) as [->|Hne].
    + rewrite Hb, Hdata in Hi. apply lookup_snoc_Some in Hi as [[Hlt Hi]|[-> <-]].
      * rewrite <- Hbx in Hi. destruct (t_batch0 k i rec Hi) as (e' & Hin & He & ? & Hw). exists e'. split_and!; [set_solver|done..|]. rewrite <- He in *. by apply Hmove.
      * exists e. rewrite Hb. split_and!; [set_solver|done..].
    + rewrite (Hbo _ Hne) in Hi |- *. destruct (t_batch0 k' i rec Hi) as (e' & Hin & ?). exists e'. split; [set_solver|done].
  - intros e' [Hin| ->%list_elem_of_singleton]%elem_of_app; [by apply t_new0|]. rewrite Hpath. apply (g_new _ _ _ _ _ _ (s_slot _ _ _ t_sound0 k KData rw ltac:(exists x; by split))).
  - rewrite fmap_app. apply NoDup_app. split_and!; [done| |apply NoDup_singleton].
    intros loc (e' & -> & Hin)%list_elem_of_fmap He%list_elem_of_singleton. injection He as Hp Hn%Nat2Z.inj.
    pose proof (fresh_position w l k rw e' ltac:(by split) ltac:(by rewrite Hbx) Hin ltac:(congruence)) as Hlt. rewrite Hbx in Hlt. lia.
  - intros k' id. rewrite (in_file_same _ _ _ _ _ Hr), (Hlist _ equalityDeletes E) by done. rewrite Hleq, elem_of_app, <- t_equality0, tagged_elem. tauto.
  - intros Hd k' d. unfold queued. rewrite (in_file_same _ _ _ _ _ Hr), (Hlist _ positionalDeletes D) by done. rewrite Hldel, elem_of_app, <- t_files0, tagged_elem by done. unfold queued. tauto.
  - intros Hd d. rewrite Hldel. setoid_rewrite elem_of_app. setoid_rewrite tagged_elem. unfold queued. setoid_rewrite (λ k', Hlist _ positionalDeletes D k' d Hdel).
    assert (vector_has w' d ↔ vector_has w d) as -> by (unfold vector_has; by rewrite Haw, Hsrv). pose proof (t_vectors0 Hd d) as [Hv1 Hv2]. unfold queued in Hv1, Hv2. split.
    + intros [Hv|(k' & [Hq|Hq])]; [destruct Hv1 as [k' ?]; eauto|destruct Hv1 as [? ?]; eauto|eauto].
    + intros (k' & [Hin|Hq]); [destruct Hv2 as [?|[? ?]]; eauto|eauto].
  - intros Hd d. assert (vector_has w' d ↔ vector_has w d) as -> by (unfold vector_has; by rewrite Haw, Hsrv). by apply t_no_vectors0.
  - intros Hd k' row. rewrite (in_file_same _ _ _ _ _ Hr). by apply t_no_files0.
  - intros k'. destruct (decide (k' = k)) as [->|Hne]; [|rewrite (Hbo _ Hne); apply t_live0]. rewrite Hb, Hdata, Heq. split; [|by intros [_ ?]%app_nil].
    intros Hne. rewrite HsE. destruct (decide (E = [])) as [->|]; [|auto]. rewrite app_nil_r in Hne.
    rewrite <- Hbx in Hne |- *. by apply t_live0.
  - intros Hi. destruct (Hmem Hi) as (-> & H1 & H2). split; [done|]. intros k' id. destruct (decide (k' = k)) as [->|Hne]; [by rewrite Hb|].
    rewrite (Hbo _ Hne), H2 by done. by apply t_memory0.
Qed.

(** ** A record is added *)
Lemma olake_string_Ok rec c w w' s : olake_string rec c w = (w', Ok s) → w' = w ∧ OlakeColumns rec !! c = Some (AString s).
Proof. unfold olake_string. destruct (OlakeColumns rec !! c) as [[]|]; try done. by intros [= <- <-]. Qed.
Lemma text_of_Ok rec c s : OlakeColumns rec !! c = Some (AString s) → text_of rec c = s.
Proof. unfold text_of. by intros ->. Qed.

(** The record that is written: its operation is normalised. *)
Definition out_ok (stream : ConfiguredStream) e : Prop :=
  e_out e = e_rec e ∨ (e_out e = with_op (e_rec e) "c" ∧ (e_op e = "i" ∨ (e_op e = "u" ∧ indexed = true ∧ ResolveUpsertOp stream = true))).
(** The entry of a record, given the writer that took it. *)
Record entry_of (a : ArrowWriter) (rec : RawRecord) e : Prop := {
  eo_rec : e_rec e = rec;
  eo_table : e_table e = aw_schema a;
  eo_schema : arrowSchema a !! fileTypeData = Some (e_schema e);
  eo_part : ∃ ts vs, OlakeColumns rec !! OlakeTimestamp = Some (ATime ts) ∧ getRecordPartition murmur3 fmt_g time_format a rec ts = Ok (e_key e, vs);
  eo_id : OlakeColumns rec !! OlakeID = Some (AString (e_id e));
  eo_op : OlakeColumns rec !! OpType = Some (AString (e_op e));
  eo_out : out_ok (aw_stream a) e
}.

(** What extraction leaves alone. *)
Definition steady w w' : Prop :=
  aw_schema (aw w') = aw_schema (aw w) ∧ arrowSchema (aw w') = arrowSchema (aw w) ∧ aw_partitionInfo (aw w') = aw_partitionInfo (aw w) ∧ aw_stream (aw w') = aw_stream (aw w).

Lemma thread_lookup_spec b key w w' loc i : tableIndex w = Some i → index_ready i m0 snap0 room0 → thread_lookup b key w = (w', Ok loc) →
  loc = (changes b ∪ m0) !! key ∧ aw w' = aw w ∧ srv w' = srv w ∧ ∃ i', tableIndex w' = Some i' ∧ index_ready i' m0 snap0 room0.
Proof.
  intros Hi Hh. unfold thread_lookup. rewrite lookup_over. destruct (changes b !! key) as [loc'|].
  { intros [= <- <-]. eauto 10. }
  rewrite Hi. destruct (ready_lookup i m0 snap0 room0 key Hh) as (i' & -> & Hh'). intros [= <- <-]. eauto 10.
Qed.

Lemma index_record_spec thread x rw id op rec pos w w' x' rec' i :
  upsertMode (aw w) = upsert → tableIndex w = Some i → index_ready i m0 snap0 room0 →
  indexRecord thread x rw id op rec pos w = (w', Ok (x', rec')) →
  let prev := if upsert && looked_up op then (changes thread ∪ m0) !! id else None in
  x' = match prev with Some loc => with_delete x (to_delete loc) | None => x end
  ∧ (rec' = rec ∨ (rec' = with_op rec "c" ∧ op = "u" ∧ ResolveUpsertOp (aw_stream (aw w)) = true))
  ∧ aw w' = set_indexThread (Some (Put thread id (mkLocation (rw_filePath rw) pos))) (aw w) ∧ srv w' = srv w
  ∧ ∃ i', tableIndex w' = Some i' ∧ index_ready i' m0 snap0 room0.
Proof.
  intros Hu Hi Hh. unfold indexRecord. intros (? & ? & [-> ->]%gets_Ok & H)%M_bind_Ok. apply M_bind_Ok in H as (? & ? & [-> ->]%gets_Ok & H).
  apply M_bind_Ok in H as (w1 & xr & H1 & H). apply M_bind_Ok in H as (? & [] & [= <-] & [= <- ->]). rewrite Hu in H1. rewrite <- andb_assoc in H1.
  change (negb (String.eqb op "r") && negb (String.eqb op "c")) with (looked_up op) in H1. cbn zeta. destruct (upsert && looked_up op).
  - apply M_bind_Ok in H1 as (w2 & prev & (-> & Ha & Hs & i' & Hi' & Hh')%(thread_lookup_spec _ _ _ _ _ i Hi Hh) & [= <- Hx]). cbn. rewrite Ha, Hs.
    destruct ((changes thread ∪ m0) !! id) as [loc|]; injection Hx as <- <-; (split_and!; [done| |done|done|eauto]); [by left|].
    destruct (ResolveUpsertOp (aw_stream (aw w))) eqn:Er; [|by left]. destruct (String.eqb_spec op "u"); [by right|by left].
  - injection H1 as <- <- <-. split_and!; eauto.
Qed.

Lemma extract_tied w l rec w' :
  tied w l → (∀ ts k vs, OlakeColumns rec !! OlakeTimestamp = Some (ATime ts) → getRecordPartition murmur3 fmt_g time_format (aw w) rec ts = Ok (k, vs) → toProtoPartitionValues vs = Ok (pvals k)) →
  (is_dv = true → indexed = true) →
  extract_one rec w = (w', Ok ()) → ∃ e, tied w' (l ++ [e]) ∧ entry_of (aw w) rec e ∧ steady w w'.
Proof.
  intros T Hpart Hdv. unfold extract_one. intros (w1 & ts & Hts & H)%M_bind_Ok.
  assert (w1 = w ∧ OlakeColumns rec !! OlakeTimestamp = Some (ATime ts)) as [-> Hts'].
  { unfold olake_time in Hts. destruct (OlakeColumns rec !! OlakeTimestamp) as [[]|]; try done. by injection Hts as <- <-. }
  apply M_bind_Ok in H as (? & ? & [-> ->]%gets_Ok & H). apply M_bind_Ok in H as (? & [k vs] & [= <- Hk] & H). cbn [id] in Hk.
  apply M_bind_Ok in H as (w1 & x & Hx & H).
  destruct (get_or_create_spec pvals N0 w k vs w1 x (t_sound _ _ T) (Hpart _ _ _ Hts' Hk) Hx) as (Hs1 & Hx1 & Hr1 & Hq1 & Hb1 & Hk1 & [rw Hrw] & Hdel).
  assert (Hbx : batch w1 k = x) by (by apply batch_some).
  assert (T1 : tied w1 l) by (eapply (tied_open w w1 k); rewrite ?Hbx; done).
  pose proof (λ A (f : ArrowWriter → A), quiet_const f k w w1 Hq1) as Hc.
  apply M_bind_Ok in H as (? & [] & [= <-] & H). apply M_bind_Ok in H as (? & op & [-> Hop]%olake_string_Ok & H).
  apply M_bind_Ok in H as (? & id & [-> Hid]%olake_string_Ok & H). apply M_bind_Ok in H as (? & rw' & [-> Hrw']%deref_Ok & H).
  cbn in Hrw'. rewrite Hrw in Hrw'. injection Hrw' as <-.
  apply M_bind_Ok in H as (? & thread & [-> Hth]%gets_Ok & H). apply M_bind_Ok in H as (? & u & [-> Hu]%gets_Ok & H). cbn in Hth, Hu.
  rewrite (t_upsert _ _ T1) in Hu. subst u.
  pose proof (s_slot _ _ _ Hs1 k KData rw ltac:(exists x; split; [done|by cbn])) as [_ Hcnt _ _ _ _ Hsch].
  apply M_bind_Ok in H as (w2 & [x2 rec2] & H2 & H). injection H as <-.
  set (out := if String.eqb op "i" then with_op rec2 "c" else rec2) in *. set (x' := with_data x2 (w_data x ++ [out])) in *.
  set (e := mkEntry k rec out (aw_schema (aw w)) (rw_schema rw) (rw_filePath rw) (length (rw_rows rw) + length (w_data x))%nat).
  assert (Heid : e_id e = id) by (by apply text_of_Ok). assert (Heop : e_op e = op) by (by apply text_of_Ok).
  assert (Heloc : mkPosDelete (rw_filePath rw) (currentRowCount rw + Z.of_nat (length (w_data x))) = e_loc e) by (unfold e_loc; cbn; f_equal; lia).
  assert (Heo : out_ok (aw_stream (aw w)) e → entry_of (aw w) rec e).
  { intros Ho. split; try done; [|by exists ts, vs|by rewrite Heid|by rewrite Heop]. cbn. by rewrite <- (Hc _ arrowSchema). }
  assert (Hsteady : ∀ t y w3, aw w3 = set_indexThread t (set_writer k y (aw w1)) → steady w w3).
  { intros t y w3 Ha. unfold steady. rewrite Ha. cbn. by rewrite (Hc _ aw_schema), (Hc _ arrowSchema), (Hc _ aw_partitionInfo), (Hc _ aw_stream). }
  exists e. destruct (indexed) eqn:Eix.
  - destruct (t_index _ _ T1 Eix) as (b & i & Hb & Hi & Hh & Hdom & Hat). rewrite Hb in Hth. subst thread.
    eapply index_record_spec in H2 as (-> & Hout & Ha2 & Hs2 & i' & Hi' & Hh'); [|exact (t_upsert _ _ T1)|exact Hi|exact Hh].
    set (prev := if upsert && looked_up op then (changes b ∪ m0) !! id else None) in *. set (t := Put b id _) in *. set (w3 := mkWorld _ _ _).
    assert (Haw : aw w3 = set_indexThread (Some t) (set_writer k x' (aw w1))) by (unfold w3; cbn; rewrite Ha2; unfold set_writer, set_indexThread; cbn; by rewrite insert_insert_eq).
    assert (Hlog : log_of upsert indexed m0 (l ++ [e]) = mkLog (move true (logged l) e) (l_eq (logged l)) (l_del (logged l) ++ ((k,.) <$> option_list (to_delete <$> prev)))).
    { rewrite log_snoc. unfold log_step. rewrite Eix, Heop, Heid. f_equal. unfold scope, prev. destruct (upsert && looked_up op); [|by rewrite app_nil_r].
      rewrite <- Eix, <- Hat. by destruct ((changes b ∪ m0) !! id); rewrite ?app_nil_r. }
    split_and!; [|apply Heo|by eapply Hsteady].
    + eapply (tied_extend w1 w3 k x x' rw e (Some t) [] (option_list (to_delete <$> prev))); try done.
      * intros kd. unfold x'. by destruct prev, kd.
      * unfold x'. destruct prev; cbn; by rewrite app_nil_r.
      * unfold x'. destruct prev; cbn; by rewrite ?app_nil_r.
      * rewrite Hlog. cbn. by rewrite app_nil_r.
      * by rewrite Hlog.
      * congruence.
      * intros _. exists t, i'. split_and!; try done.
        { unfold t. cbn [changes Put]. rewrite dom_insert_L, fmap_app, list_to_set_app_L. cbn [fmap list_fmap list_to_set]. rewrite Heid. set_solver. }
        intros id'. rewrite Hlog. cbn. unfold move, t. cbn [changes Put]. rewrite lookup_over. unfold scope. rewrite Heid.
        destruct (decide (id' = id)) as [->|Hne]; [rewrite lookup_insert_eq, decide_True by done; unfold to_delete; cbn; by rewrite Heloc|].
        rewrite lookup_insert_ne, decide_False by naive_solver. by rewrite <- Hat, lookup_over.
    + unfold out_ok. rewrite Heop. cbn [e_out e_rec e]. unfold out. cbn in Hout. rewrite (Hc _ aw_stream) in Hout by done. destruct (String.eqb_spec op "i") as [->|].
      * right. destruct Hout as [->|(_ & ? & _)]; [auto|done].
      * destruct Hout as [->|(-> & -> & ?)]; [by left|]. right. auto.
  - destruct (t_memory _ _ T1 Eix) as [Hb Hat]. rewrite Hb in Hth. subst thread. injection H2 as <- <- <-.
    set (x2 := if upsert then _ else _) in *. set (w3 := mkWorld _ _ _).
    assert (Haw : aw w3 = set_indexThread None (set_writer k x' (aw w1))).
    { unfold w3. cbn. unfold set_writer, set_indexThread. cbn. by rewrite insert_insert_eq, Hb. }
    set (on := upsert && tracked op). set (prev := olakeIDPosition x !! id).
    set (E := if on then match prev with None => [id] | Some _ => [] end else []). set (D := if on then option_list prev else []).
    assert (Hat' : l_at (logged l) k id = prev) by (unfold prev; by rewrite <- Hbx, Hat).
    assert (Hx2 : x2 = mkWriter (dataWriter x) (equalityDeleteWriter x) (positionalDeleteWriter x) (if on then <[id := e_loc e]> (olakeIDPosition x) else olakeIDPosition x)
      (w_data x ++ [rec]) (equalityDeletes x ++ E) (positionalDeletes x ++ D)).
    { unfold x2, E, D, on, track, tracked, prev. rewrite Heloc. destruct upsert; [|destruct x; cbn; by rewrite !app_nil_r].
      destruct (contains _ op); [|destruct x; cbn; by rewrite !app_nil_r]. cbn [andb with_data olakeIDPosition]. destruct (olakeIDPosition x !! id); unfold with_duplicate, with_equality; cbn; by rewrite app_nil_r. }
    assert (Hlog : log_of upsert indexed m0 (l ++ [e]) = if on then mkLog (move false (logged l) e) (l_eq (logged l) ++ ((k,.) <$> E)) (l_del (logged l) ++ ((k,.) <$> D)) else logged l).
    { rewrite log_snoc. unfold log_step. rewrite Eix, Heop, Heid. unfold scope. cbn [e_key e]. fold on. rewrite <- Eix, Hat', Eix. unfold E, D. destruct on; [|done]. f_equal; destruct prev; by rewrite ?app_nil_r. }
    split_and!; [|apply Heo|by eapply Hsteady].
    + eapply (tied_extend w1 w3 k x x' rw e None E D); try done.
      * intros kd. unfold x'. rewrite Hx2. by destruct kd.
      * unfold x'. by rewrite Hx2.
      * unfold x'. by rewrite Hx2.
      * rewrite Hlog. unfold E. destruct on; cbn; by rewrite ?app_nil_r.
      * rewrite Hlog. unfold D. destruct on; cbn; by rewrite ?app_nil_r.
      * intros HE'. rewrite (Hc _ indexThread) in Hb by done. unfold E, on in HE'. destruct upsert eqn:Eu; [|done].
        apply Hdel; [by rewrite (t_upsert _ _ T)| |done]. rewrite (t_mode _ _ T). intros Hm. unfold is_dv in Hdv. rewrite Hm in Hdv. by specialize (Hdv eq_refl).
      * intros _. split_and!; [done|..].
        -- intros id'. unfold x'. rewrite Hx2, Hlog. cbn. unfold move, scope. rewrite Heid. destruct on; cbn; [|by rewrite <- Hat, Hbx].
           destruct (decide (id' = id)) as [->|Hne]; [by rewrite lookup_insert_eq, decide_True|]. rewrite lookup_insert_ne, decide_False by naive_solver. by rewrite <- Hat, Hbx.
        -- intros k' id' Hne. rewrite Hlog. destruct on; [|done]. cbn. unfold move, scope. by rewrite decide_False by naive_solver.
      * congruence.
    + unfold out_ok. rewrite Heop. cbn [e_out e_rec e]. unfold out. destruct (String.eqb_spec op "i") as [->|]; auto.
Qed.

Lemma entry_of_steady w w' rec e : steady w w' → entry_of (aw w') rec e → entry_of (aw w) rec e.
Proof.
  intros (H1 & H2 & H3 & H4) [? ? ? (ts & vs & ? & Hp) ? ? ?]. split; try congruence.
  exists ts, vs. split; [done|]. unfold getRecordPartition in *. by rewrite <- H1, <- H3.
Qed.
Lemma steady_trans w1 w2 w3 : steady w1 w2 → steady w2 w3 → steady w1 w3.
Proof. unfold steady. intros (?&?&?&?) (?&?&?&?). split_and!; congruence. Qed.

Definition partitions_to (a : ArrowWriter) (recs : list RawRecord) : Prop :=
  ∀ rec ts k vs, rec ∈ recs → OlakeColumns rec !! OlakeTimestamp = Some (ATime ts) → getRecordPartition murmur3 fmt_g time_format a rec ts = Ok (k, vs) → toProtoPartitionValues vs = Ok (pvals k).

Lemma extract_all w l recs w' :
  (is_dv = true → indexed = true) → tied w l → partitions_to (aw w) recs → for_each extract_one recs w = (w', Ok ()) →
  ∃ es, tied w' (l ++ es) ∧ Forall2 (entry_of (aw w)) recs es ∧ steady w w'.
Proof.
  intros Hdv. revert w l. induction recs as [|rec recs IH]; intros w l T Hp; cbn [for_each].
  { intros [= <-]. exists []. rewrite app_nil_r. split_and!; [done|constructor|done]. }
  intros (w1 & [] & H1 & H)%M_bind_Ok. destruct (extract_tied w l rec w1 T) as (e & T1 & He & Hst1); [|done..|].
  { intros ts k vs. apply Hp. left. }
  destruct (IH w1 (l ++ [e]) T1) as (es & T2 & Hes & Hst2); [|done|].
  { intros rec' ts k vs Hin. destruct Hst1 as (Ha & _ & Hb & _). unfold getRecordPartition. rewrite Ha, Hb. apply Hp. by right. }
  exists (e :: es). rewrite <- app_assoc in T2. split_and!; [done| |by eapply steady_trans].
  constructor; [done|]. eapply Forall2_impl; [exact Hes|]. intros rec' e'. by apply entry_of_steady.
Qed.

(** ** A batch is written *)
(** Delete rows of a batch are written, the batch is kept. *)
Lemma tied_deletes w l k x kd rw rows w' x' :
  tied w l → writers (aw w) !! k = Some x → slot x kd = Some rw → kd ≠ KData → (kd = KPos → is_dv = false) → (∀ row, row ∈ rows ↔ delete_row w k kd row) →
  (rw ← WriteBuffered rw rows; roll k (put_slot x kd) rw) w = (w', Ok x') →
  tied w' l ∧ writers (aw w') !! k = Some x' ∧ (∃ rw', x' = put_slot x kd (Some rw')) ∧ quiet_but k w w'
  ∧ (∀ k' kd' row, in_file w k' kd' row → in_file w' k' kd' row) ∧ (∀ row, delete_row w k kd row → in_file w' k kd row).
Proof.
  intros T Hx Hrw Hkd Hkp Hrows Happ.
  destruct (append_sound pvals N0 w k x kd rw rows w' x' (t_sound _ _ T) Hx Hrw Happ) as (rw' & -> & Hs & Hx' & Hq & Hr).
  assert (Hin : ∀ k' kd' row, in_file w' k' kd' row ↔ in_file w k' kd' row ∨ (k' = k ∧ kd' = kd ∧ delete_row w k kd row)).
  { intros k' kd' row. unfold in_file. split.
    - intros (p & n & sch & [Hh|(-> & -> & _ & _ & i & _ & Hi)]%Hr); [eauto|]. right. split_and!; [done..|]. apply Hrows. by eapply list_elem_of_lookup_2.
    - intros [(p & n & sch & Hh)|(-> & -> & Hd%Hrows)]; [exists p, n, sch; apply Hr; by left|]. apply list_elem_of_lookup_1 in Hd as [i Hi].
      eexists _, _, _. apply Hr. right. split_and!; eauto. }
  assert (Hdata : ∀ k' p n sch row, holds_row w' k' KData p n sch row ↔ holds_row w k' KData p n sch row) by (intros; rewrite Hr; naive_solver).
  assert (Hbx : batch w k = x) by (by apply batch_some). assert (Hbx' : batch w' k = put_slot x kd (Some rw')) by (by apply batch_some).
  split_and!; [|done|by eexists|done|naive_solver|naive_solver]. apply (tied_quiet w w' k); try done.
  - intros k' kd' row Hf. apply Hin. by left.
  - intros k' kd' row [Hf|(-> & -> & Hd)]%Hin; auto.
  - rewrite Hbx, Hbx'. apply same_batch_put.
  - rewrite Hbx, Hbx'. by destruct kd.
  - rewrite Hbx, Hbx'. destruct kd; [done|by eexists|done].
Qed.

(** ** Deletion vectors *)
Record only_vectors w w' : Prop := {
  ov_aw : aw w' = set_vectors (pendingVectors (aw w')) (pendingVectorCount (aw w')) (aw w);
  ov_index : tableIndex w' = tableIndex w;
  ov_stored : stored (srv w') = stored (srv w);
  ov_named : named (srv w') = named (srv w);
  ov_rows : row_at (srv w') = row_at (srv w);
  ov_count : 0 ≤ pendingVectorCount (aw w') ∧ (pendingVectorCount (aw w') = 0 → pendingVectors (aw w') = ∅)
}.

Lemma tied_vectors w w' l :
  tied w l → only_vectors w w' → (∀ d, vector_has w d → vector_has w' d) → (∀ d, vector_has w' d → vector_has w d ∨ (is_dv = true ∧ ∃ k, queued w k d)) → tied w' l.
Proof.
  intros T [Ha Hi Hst Hn Hr Hcnt] Hv1 Hv2. assert (Hw : writers (aw w') = writers (aw w)) by (by rewrite Ha).
  destruct (sound_ext pvals N0 w w') as [Hs' Hrows]; [by rewrite Ha..|done|done|by unfold has_slot; rewrite Hw|].
  assert (Hb : ∀ k, batch w' k = batch w k) by (intros k; unfold batch; by rewrite Hw).
  assert (Hin : ∀ k kd row, in_file w' k kd row ↔ in_file w k kd row) by (intros; by apply in_file_same).
  assert (Hc : ∀ {A} (f : ArrowWriter → A), (∀ m n a, f (set_vectors m n a) = f a) → f (aw w') = f (aw w)) by (intros A f Hf; by rewrite Ha, Hf).
  destruct T. split; try done; auto.
  - by rewrite (Hc _ aw_threadID).
  - by rewrite (Hc _ upsertMode).
  - by rewrite (Hc _ deleteMode).
  - congruence.
  - intros e He. destruct (t_placed0 e He) as [?|Hwt]; [left; by eapply written_same|]. right. unfold waiting. by rewrite Hb.
  - intros k p n sch row Hh%Hrows. by apply t_rows0.
  - intros k i rec. rewrite Hb. apply t_batch0.
  - intros k id. rewrite Hb, Hin. apply t_equality0.
  - intros Hd k d. unfold queued. rewrite Hb, Hin. by apply t_files0.
  - intros Hd d. rewrite <- t_vectors0 by done. unfold queued. setoid_rewrite Hb. split; [intros [Hv%Hv2|?]; [tauto|auto]|intros [?|?]; auto].
  - intros Hd d [Hv|[? _]]%Hv2; [by eapply t_no_vectors0|congruence].
  - intros Hd k row. rewrite Hin. by apply t_no_files0.
  - intros k. rewrite Hb. apply t_live0.
  - intros Hx. destruct (t_memory0 Hx) as [? Hm]. split; [by rewrite (Hc _ indexThread)|]. intros k id. rewrite Hb. apply Hm.
  - intros Hx. rewrite (Hc _ indexThread), Hi by done. auto.
Qed.

Lemma queue_spec values deletes m p n :
  (∃ pv, foldl (queue_delete values) m deletes !! p = Some pv ∧ n ∈ pv_positions pv) ↔
  (∃ pv, m !! p = Some pv ∧ n ∈ pv_positions pv) ∨ mkPosDelete p n ∈ deletes.
Proof.
  revert m. induction deletes as [|[q j] deletes IH]; intros m; cbn [foldl]; [set_solver|]. rewrite IH, elem_of_cons. unfold queue_delete. cbn [pd_FilePath pd_Position].
  destruct (decide (q = p)) as [->|Hne].
  - rewrite lookup_insert_eq. destruct (m !! p) as [pv|] eqn:Em; cbn.
    + split; [intros [(pv' & [= <-] & Hin)|?]; [cbn in Hin; set_solver|auto]|]. intros [(pv' & [= <-] & Hin)|[[= ->]|?]]; [left; eexists; split; [done|]; cbn; set_solver..|auto].
    + split; [intros [(pv' & [= <-] & Hin)|?]; [cbn in Hin; set_solver|auto]|]. intros [(pv' & ? & Hin)|[[= ->]|?]]; [done|left; eexists; split; [done|]; cbn; set_solver|auto].
  - rewrite lookup_insert_ne by done. split; [tauto|]. intros [?|[[= -> ->]|?]]; [tauto|done|tauto].
Qed.

Lemma send_vectors_spec w w' :
  aw_threadID (aw w) = tid → 0 ≤ pendingVectorCount (aw w) ∧ (pendingVectorCount (aw w) = 0 → pendingVectors (aw w) = ∅) →
  sendPendingVectors w = (w', Ok ()) → only_vectors w w' ∧ pendingVectors (aw w') = ∅ ∧ ∀ d, vector_has w' d ↔ vector_has w d.
Proof.
  intros Ht [Hn Hz]. unfold sendPendingVectors. intros (? & ? & [-> ->]%gets_Ok & H)%M_bind_Ok. destruct (Z.eqb_spec (pendingVectorCount (aw w)) 0) as [Ez|Ez].
  { injection H as <-. split_and!; [|auto|done]. split; try done. by destruct (aw w). }
  apply M_bind_Ok in H as (? & ? & [-> ->]%gets_Ok & H). apply M_bind_Ok in H as (? & entries & [= <- Hm%mapM_Forall2] & H).
  apply M_bind_Ok in H as (w1 & resp & Hsend & [= <-]). unfold send in Hsend. destruct (SendClientRequest _ _ _) as [s r] eqn:Es. injection Hsend as <- ->.
  rewrite Ht in Es. apply on_vectors in Es as (Hst & Hnm & Hvec & Hrow). cbn. split_and!; [by split|done|].
  intros [p n]. unfold vector_has. cbn. rewrite Hvec. setoid_rewrite elem_of_app. split.
  - intros [(v & [Hin|Hin] & Hp & Hpos)|(pv & Hpv & _)]; [eauto| |by rewrite lookup_empty in Hpv]. right. apply list_elem_of_lookup_1 in Hin as [i Hi].
    destruct (Forall2_lookup_r _ _ _ _ _ Hm Hi) as ([q pv] & Hq & Hok). apply bind_Ok in Hok as (vs & _ & [= <-]). cbn in Hp, Hpos. subst q. exists pv. split; [|done].
    apply elem_of_range. by eapply list_elem_of_lookup_2.
  - intros [(v & Hin & ?)|(pv & Hpv & Hpos)]; [left; eauto|]. left. apply elem_of_range, list_elem_of_lookup_1 in Hpv as [i Hi].
    destruct (Forall2_lookup_l _ _ _ _ _ Hm Hi) as (v & Hv & Hok). apply bind_Ok in Hok as (vs & _ & [= <-]). eexists. split; [right; by eapply list_elem_of_lookup_2|done].
Qed.

Lemma only_vectors_trans w1 w2 w3 : only_vectors w1 w2 → only_vectors w2 w3 → only_vectors w1 w3.
Proof. intros [Ha ? ? ? ? _] [Hb ? ? ? ? ?]. split; [rewrite Hb at 1; by rewrite Ha|congruence..|done]. Qed.

Lemma queue_vectors_spec deletes values w w' :
  aw_threadID (aw w) = tid → 0 ≤ pendingVectorCount (aw w) ∧ (pendingVectorCount (aw w) = 0 → pendingVectors (aw w) = ∅) →
  queueVectorDeletes deletes values w = (w', Ok ()) → only_vectors w w' ∧ ∀ d, vector_has w' d ↔ vector_has w d ∨ d ∈ deletes.
Proof.
  intros Ht [Hn Hz]. unfold queueVectorDeletes. intros (w1 & [] & [= <-] & H)%M_bind_Ok. set (w1 := mkWorld _ _ _) in *.
  assert (Hcnt : 0 ≤ pendingVectorCount (aw w1) ∧ (pendingVectorCount (aw w1) = 0 → pendingVectors (aw w1) = ∅)).
  { unfold w1. cbn. split; [lia|]. intros He. destruct deletes; [|cbn in He; lia]. cbn in He |- *. apply Hz. lia. }
  assert (H1 : only_vectors w w1) by by split. assert (Hv : ∀ d, vector_has w1 d ↔ vector_has w d ∨ d ∈ deletes).
  { intros [p n]. unfold vector_has, w1. cbn. rewrite queue_spec. tauto. }
  clearbody w1. apply M_bind_Ok in H as (? & ? & [-> ->]%gets_Ok & H). destruct (_ <? _); [by injection H as <-|].
  destruct (send_vectors_spec w1 w') as (H2 & _ & Hv2); [by rewrite (ov_aw _ _ H1)|done..|]. split; [by eapply only_vectors_trans|]. intros d. by rewrite Hv2.
Qed.

(** ** Writing the batch of a partition *)
Lemma steady_quiet k w w' : quiet_but k w w' → steady w w'.
Proof. intros Hq. pose proof (λ A (f : ArrowWriter → A), quiet_const f k w w' Hq) as Hc. unfold steady. by rewrite (Hc _ aw_schema), (Hc _ arrowSchema), (Hc _ aw_partitionInfo), (Hc _ aw_stream). Qed.
Lemma steady_vectors w w' : only_vectors w w' → steady w w'.
Proof. intros [Ha _ _ _ _ _]. unfold steady. by rewrite Ha. Qed.

Lemma sort_elem deletes d : d ∈ sortPositionalDeletes deletes ↔ d ∈ deletes.
Proof. unfold sortPositionalDeletes. destruct (_ <=? _)%nat; [done|]. by rewrite merge_sort_Permutation. Qed.

Definition others k w w' : Prop := ∀ k', k' ≠ k → writers (aw w') !! k' = writers (aw w) !! k'.
Lemma others_quiet k w w' : quiet_but k w w' → others k w w'.
Proof. intros Hq k'. by apply quiet_other. Qed.
Lemma others_trans k w1 w2 w3 : others k w1 w2 → others k w2 w3 → others k w1 w3.
Proof. intros H1 H2 k' Hne. rewrite H2, H1; auto. Qed.

(** The deletes of the batch reached the files or the vectors. *)
Definition deleted_equality w k x : Prop := ∀ id, id ∈ equalityDeletes x → in_file w k KEq (eq_row id).
Definition deleted_positions w k x : Prop := ∀ d, d ∈ positionalDeletes x → if is_dv then vector_has w d else in_file w k KPos (pos_row d).

Lemma write_positional_spec w l k x w' x' :
  tied w l → writers (aw w) !! k = Some x → is_dv = false → write_positional k x w = (w', Ok x') →
  tied w' l ∧ writers (aw w') !! k = Some x' ∧ same_batch x x' ∧ dataWriter x' = dataWriter x ∧ equalityDeleteWriter x' = equalityDeleteWriter x
  ∧ quiet_but k w w' ∧ deleted_positions w' k x.
Proof.
  intros T Hx Hdv. unfold write_positional, deleted_positions. destruct (positionalDeletes x) as [|d0 ds] eqn:Ed.
  { intros [= <- <-]. split_and!; try done; first [apply quiet_but_refl|by intros ? ?%not_elem_of_nil]. }
  rewrite <- Ed. intros (? & rw & [-> Hrw]%deref_Ok & H)%M_bind_Ok.
  assert (Hbx : batch w k = x) by by apply batch_some.
  destruct (tied_deletes w l k x KPos rw (createPositionalDeleteArrowRecord (positionalDeletes x)) w' x') as (T' & Hx' & [rw' ->] & Hq & _ & Hf); try done.
  { intros row. unfold createPositionalDeleteArrowRecord, delete_row. rewrite list_elem_of_fmap, Hbx. setoid_rewrite sort_elem. unfold pos_row. naive_solver. }
  split_and!; try done. intros d Hd. rewrite Hdv. apply Hf. cbn. rewrite Hbx. eauto.
Qed.

Lemma write_equality_spec w l k x w' x' :
  tied w l → writers (aw w) !! k = Some x → write_equality k x w = (w', Ok x') →
  tied w' l ∧ writers (aw w') !! k = Some x' ∧ same_batch x x' ∧ dataWriter x' = dataWriter x
  ∧ quiet_but k w w' ∧ deleted_equality w' k x ∧ ∀ kd row, in_file w k kd row → in_file w' k kd row.
Proof.
  intros T Hx. assert (Hbx : batch w k = x) by by apply batch_some. unfold write_equality, deleted_equality. destruct (equalityDeleteWriter x) as [rw|] eqn:Er.
  - intros H. destruct (tied_deletes w l k x KEq rw (createDeleteArrowRecord (equalityDeletes x)) w' x') as (T' & Hx' & [rw' ->] & Hq & Hk & Hf); try done.
    { intros row. unfold createDeleteArrowRecord, delete_row. rewrite list_elem_of_fmap, Hbx. unfold eq_row. naive_solver. }
    split_and!; try done; [|auto]. intros id Hid. apply Hf. cbn. rewrite Hbx. eauto.
  - intros [= <- <-]. split_and!; try done; try apply quiet_but_refl. intros id Hid. destruct (t_live _ _ T k) as [Hl _]. rewrite Hbx in Hl.
    destruct Hl as [? ?]; [by intros E; rewrite E in Hid; apply not_elem_of_nil in Hid|congruence].
Qed.

Lemma write_deletes_spec w l k x w' x' :
  tied w l → writers (aw w) !! k = Some x → write_deletes k x w = (w', Ok x') →
  tied w' l ∧ writers (aw w') !! k = Some x' ∧ same_batch x x' ∧ dataWriter x' = dataWriter x ∧ steady w w' ∧ others k w w'
  ∧ deleted_equality w' k x ∧ deleted_positions w' k x.
Proof.
  intros T Hx. assert (Hbx : batch w k = x) by by apply batch_some. unfold write_deletes.
  intros (? & ? & [-> ->]%gets_Ok & H)%M_bind_Ok. apply M_bind_Ok in H as (? & ? & [-> ->]%gets_Ok & H). rewrite (t_upsert _ _ T), (t_mode _ _ T) in H.
  destruct upsert eqn:Eu.
  2: { injection H as <- <-. split_and!; try done.
       - intros id Hid. exfalso. rewrite <- Hbx in Hid. assert (Hin : (k, id) ∈ l_eq (logged l)) by (apply (t_equality _ _ T); by right).
         rewrite log_eq_nil in Hin by auto. by apply not_elem_of_nil in Hin.
       - intros d Hd. exfalso. rewrite <- Hbx in Hd. assert (∃ k', (k', d) ∈ l_del (logged l)) as [k' Hin].
         { destruct is_dv eqn:Edv; [apply (t_vectors _ _ T Edv); eauto|exists k; apply (t_files _ _ T Edv); by right]. }
         rewrite log_del_nil in Hin by auto. by apply not_elem_of_nil in Hin. }
  apply M_bind_Ok in H as (w1 & x1 & H1 & H).
  assert (tied w1 l ∧ writers (aw w1) !! k = Some x1 ∧ same_batch x x1 ∧ dataWriter x1 = dataWriter x ∧ steady w w1 ∧ others k w w1 ∧ deleted_positions w1 k x)
    as (T1 & Hx1 & Hb1 & Hd1 & Hst1 & Ho1 & Hp1).
  { fold is_dv in H1. destruct is_dv eqn:Edv.
    - apply M_bind_Ok in H1 as (? & rw & [-> _]%deref_Ok & H1). apply M_bind_Ok in H1 as (w2 & [] & H1 & [= <- <-]).
      destruct (queue_vectors_spec _ _ _ _ (t_thread _ _ T) (t_count _ _ T) H1) as [Hov Hv].
      assert (Hw : writers (aw w2) = writers (aw w)) by (by rewrite (ov_aw _ _ Hov)). split_and!; try done.
      + apply (tied_vectors w w2); [done..| |]; [intros d Hd; apply Hv; by left|]. intros d [?|Hd]%Hv; [by left|]. right. split; [done|]. exists k. unfold queued. by rewrite Hbx.
      + by rewrite Hw.
      + by apply steady_vectors.
      + intros k' _. by rewrite Hw.
      + intros d Hd. rewrite Edv. apply Hv. by right.
    - destruct (write_positional_spec w l k x w1 x1 T Hx Edv H1) as (? & ? & ? & ? & ? & Hq & ?). split_and!; try done; [by eapply steady_quiet|by apply others_quiet]. }
  destruct (write_equality_spec w1 l k x1 w' x' T1 Hx1 H) as (T2 & Hx2 & Hb2 & Hd2 & Hq2 & He2 & Hk2). split_and!; try done.
  - by eapply same_batch_trans.
  - congruence.
  - eapply steady_trans; [exact Hst1|by eapply steady_quiet].
  - eapply others_trans; [exact Ho1|by apply others_quiet].
  - intros id Hid. apply He2. by destruct Hb1 as (_ & _ & -> & _).
  - intros d Hd. specialize (Hp1 d Hd). destruct is_dv; [|by apply Hk2].
    pose proof (q_vectors _ _ (Hq2 no_writer)) as Hv. cbn in Hv. rewrite (t_thread _ _ T1) in Hv. unfold vector_has in *. rewrite Hv, (quiet_const pendingVectors k w1 w' Hq2) by done. done.
Qed.

(** The records of the batch are written and the batch is emptied. *)
Lemma tied_data w l k x rw rows w1 x1 :
  tied w l → writers (aw w) !! k = Some x → dataWriter x = Some rw → createArrowRecord json_marshal (w_data x) (rw_schema rw) = Ok rows →
  deleted_equality w k x → deleted_positions w k x →
  (rw ← WriteBuffered rw rows; roll k (with_dataWriter x) rw) w = (w1, Ok x1) →
  tied (attach w1 k (reset_batch x1)) l ∧ quiet_but k w w1.
Proof.
  intros T Hx Hrw Hrows Hde Hdp Happ. assert (Hbx : batch w k = x) by by apply batch_some.
  destruct (append_sound pvals N0 w k x KData rw rows w1 x1 (t_sound _ _ T) Hx Hrw Happ) as (rw' & -> & Hs1 & Hx1 & Hq1 & Hr1).
  set (x' := reset_batch (put_slot x KData (Some rw'))). set (w' := attach w1 k x'). split; [|done].
  assert (Hq : quiet_but k w w') by (eapply quiet_but_trans; [exact Hq1|apply quiet_but_attach]).
  destruct (sound_batch pvals N0 w1 w' k (put_slot x KData (Some rw')) x') as [Hs Hr]; try done.
  assert (Hh : ∀ k' kd p n sch row, holds_row w' k' kd p n sch row ↔ holds_row w k' kd p n sch row
    ∨ (k' = k ∧ kd = KData ∧ p = rw_filePath rw ∧ sch = rw_schema rw ∧ ∃ i, n = (length (rw_rows rw) + i)%nat ∧ rows !! i = Some row)).
  { intros. rewrite <- Hr1. apply Hr. }
  assert (Hin : ∀ k' kd row, kd ≠ KData → in_file w' k' kd row ↔ in_file w k' kd row) by (intros k' kd row Hne; unfold in_file; setoid_rewrite Hh; naive_solver).
  assert (Hb' : batch w' k = x') by (apply batch_some; unfold w'; cbn; by rewrite lookup_insert_eq).
  assert (Hbo : ∀ k', k' ≠ k → batch w' k' = batch w k') by (intros k' Hne; by apply (batch_other k)).
  apply mapM_Forall2 in Hrows. pose proof (λ A (f : ArrowWriter → A), quiet_const f k w w' Hq) as Hc.
  assert (Hv : ∀ d, vector_has w' d ↔ vector_has w d).
  { intros d. unfold vector_has. rewrite (Hc _ pendingVectors) by done. pose proof (q_vectors _ _ (Hq no_writer)) as Hv. cbn in Hv. rewrite (t_thread _ _ T) in Hv.
    change (srv w') with (srv w1). by rewrite Hv. }
  destruct T. split; try done.
  - by rewrite (Hc _ aw_threadID).
  - by rewrite (Hc _ upsertMode).
  - by rewrite (Hc _ deleteMode).
  - pose proof (q_rows _ _ (Hq no_writer)) as Hrow. cbn in Hrow. change (srv w') with (srv w1). congruence.
  - intros e He. destruct (t_placed0 e He) as [(row & Hrow & ?)|(i & Hi & Hw)].
    + left. exists row. split; [apply Hh; by left|done].
    + destruct (decide (e_key e = k)) as [Hk|Hne]; [|right; exists i; by rewrite (Hbo _ Hne)]. left. rewrite Hk, Hbx in Hi, Hw. destruct Hw as (rw0 & Hrw0 & Hp & Hn & Hsc).
      rewrite Hrw in Hrw0. injection Hrw0 as <-. destruct (Forall2_lookup_l _ _ _ _ _ Hrows Hi) as (row & Hri & Hrow). exists row.
      rewrite Hsc. split; [|done]. apply Hh. right. rewrite Hk. split_and!; eauto.
  - intros k' p n sch row [Hrow|(-> & _ & -> & -> & i & -> & Hi)]%Hh; [by apply t_rows0|]. destruct (Forall2_lookup_r _ _ _ _ _ Hrows Hi) as (rec & Hrec & Hrow).
    rewrite <- Hbx in Hrec. destruct (t_batch0 k i rec Hrec) as (e & ? & ? & <- & rw0 & Hrw0 & ? & ? & ?). rewrite Hbx, Hrw in Hrw0. injection Hrw0 as <-. by exists e.
  - intros k' i rec Hi. destruct (decide (k' = k)) as [->|Hne]; [by rewrite Hb' in Hi|]. rewrite (Hbo _ Hne) in Hi |- *. by apply t_batch0.
  - intros k' id. rewrite Hin by done. rewrite <- t_equality0. destruct (decide (k' = k)) as [->|Hne]; [|by rewrite (Hbo _ Hne)]. rewrite Hb', Hbx. cbn. specialize (Hde id). set_solver.
  - intros Hd k' d. rewrite Hin by done. rewrite <- t_files0 by done. unfold queued. destruct (decide (k' = k)) as [->|Hne]; [|by rewrite (Hbo _ Hne)]. rewrite Hb', Hbx. cbn.
    specialize (Hdp d). rewrite Hd in Hdp. set_solver.
  - intros Hd d. rewrite <- t_vectors0, Hv by done. unfold queued. specialize (Hdp d). rewrite Hd in Hdp. split.
    + intros [?|(k' & Hin')]; [auto|]. destruct (decide (k' = k)) as [->|Hne]; [rewrite Hb' in Hin'; by apply not_elem_of_nil in Hin'|]. rewrite (Hbo _ Hne) in Hin'. eauto.
    + intros [?|(k' & Hin')]; [auto|]. destruct (decide (k' = k)) as [->|Hne]; [rewrite Hbx in Hin'; auto|]. right. exists k'. by rewrite (Hbo _ Hne).
  - intros Hd d. rewrite Hv. by apply t_no_vectors0.
  - intros Hd k' row. rewrite Hin by done. by apply t_no_files0.
  - by rewrite (Hc _ pendingVectorCount), (Hc _ pendingVectors) by done.
  - intros k'. destruct (decide (k' = k)) as [->|Hne]; [by rewrite Hb'|]. rewrite (Hbo _ Hne). apply t_live0.
  - intros Hi. rewrite (Hc _ indexThread) by done. destruct (t_memory0 Hi) as [H1 H2]. split; [done|]. intros k' id. rewrite <- H2. destruct (decide (k' = k)) as [->|Hne]; [by rewrite Hb', Hbx|by rewrite (Hbo _ Hne)].
  - intros Hi. rewrite (Hc _ indexThread) by done. pose proof (q_index _ _ (Hq no_writer)) as Hxi. cbn in Hxi. unfold w' in *. cbn. rewrite Hxi. auto.
Qed.

Lemma write_partition_spec w l k x w' :
  tied w l → writers (aw w) !! k = Some x → write_partition k x w = (w', Ok ()) →
  tied w' l ∧ others k w w' ∧ steady w w' ∧ w_data (batch w' k) = [].
Proof.
  intros T Hx. assert (Hbx : batch w k = x) by by apply batch_some. unfold ArrowWriter.write_partition.
  destruct (w_data x) as [|r0 rs] eqn:Ed; [intros [= <-]; split_and!; try done; by rewrite Hbx|]. rewrite <- Ed. clear Ed r0 rs.
  intros (w1 & x1 & H1 & H)%M_bind_Ok. destruct (write_deletes_spec w l k x w1 x1 T Hx H1) as (T1 & Hx1 & (_ & Hd1 & He1 & Hp1) & Hdw & Hst & Ho & Hde & Hdp).
  apply M_bind_Ok in H as (? & sch & [-> Hsch]%schema_of_spec & H). apply M_bind_Ok in H as (? & rows & [= <- Hrows] & H).
  apply M_bind_Ok in H as (? & rw & [-> Hrw]%deref_Ok & H).
  apply M_bind_Ok in H as (w3 & rw2 & Hwr & H). apply M_bind_Ok in H as (w2 & x2 & Hroll & [= <-]).
  assert (has_slot w1 k KData rw) as Hs by (exists x1; by split). destruct (s_slot _ _ _ (t_sound _ _ T1) _ _ _ Hs) as [_ _ _ _ _ _ Hsch']. cbn in Hsch'.
  rewrite Hsch in Hsch'. injection Hsch' as ->.
  destruct (tied_data w1 l k x1 rw rows w2 x2) as [T2 Hq2]; [done|done|done|by rewrite Hd1|unfold deleted_equality; by rewrite He1|unfold deleted_positions; by rewrite Hp1|apply M_bind_Ok; eauto|].
  assert (Hq : quiet_but k w1 (attach w2 k (reset_batch x2))) by (eapply quiet_but_trans; [exact Hq2|apply quiet_but_attach]). split_and!.
  - exact T2.
  - eapply others_trans; [exact Ho|by apply others_quiet].
  - eapply steady_trans; [exact Hst|by eapply steady_quiet].
  - rewrite (batch_some _ k (reset_batch x2)); [done|]. cbn. by rewrite lookup_insert_eq.
Qed.

(** Every partition of a list is written. *)
Lemma write_all w l ks w' :
  tied w l → NoDup ks.*1 → (∀ k x, (k, x) ∈ ks → writers (aw w) !! k = Some x) → for_each (λ kx, write_partition kx.1 kx.2) ks w = (w', Ok ()) →
  tied w' l ∧ steady w w' ∧ (∀ k, k ∈ ks.*1 → w_data (batch w' k) = []) ∧ (∀ k, k ∉ ks.*1 → writers (aw w') !! k = writers (aw w) !! k).
Proof.
  revert w. induction ks as [|[k x] ks IH]; intros w T Hnd Hks; cbn [for_each].
  { intros [= <-]. split_and!; try done. by intros ? ?%not_elem_of_nil. }
  intros (w1 & [] & H1 & H)%M_bind_Ok. cbn in Hnd. apply NoDup_cons in Hnd as [Hk Hnd].
  destruct (write_partition_spec w l k x w1 T (Hks k x ltac:(left)) H1) as (T1 & Ho & Hst & Hd).
  destruct (IH w1 T1 Hnd) as (T2 & Hst2 & Hd2 & Ho2); [|done|].
  { intros k' x' Hin. rewrite Ho; [apply Hks; by right|]. intros ->. apply Hk. apply list_elem_of_fmap. by exists (k, x'). }
  split_and!; [done|by eapply steady_trans| |].
  - intros k' [->|Hin]%elem_of_cons; [|auto]. unfold batch in *. cbn. by rewrite Ho2.
  - intros k' [Hne Hin]%not_elem_of_cons. rewrite Ho2, Ho by done. done.
Qed.

(** No batch is waiting. *)
Definition idle w : Prop := ∀ k, w_data (batch w k) = [].

Lemma write_tied w l recs w' :
  (is_dv = true → indexed = true) → tied w l → partitions_to (aw w) recs →
  Write murmur3 fmt_g time_format json_marshal recs w = (w', Ok ()) →
  ∃ es, tied w' (l ++ es) ∧ Forall2 (entry_of (aw w)) recs es ∧ steady w w' ∧ idle w'.
Proof.
  intros Hdv T Hp. unfold Write. intros (w1 & [] & H1 & H)%M_bind_Ok. destruct (extract_all w l recs w1 Hdv T Hp H1) as (es & T1 & Hes & Hst1).
  apply M_bind_Ok in H as (? & ws & [-> ->]%gets_Ok & H).
  destruct (write_all w1 (l ++ es) _ w' T1 (range_NoDup_keys _) (λ k x Hin, proj1 (elem_of_range _ k x) Hin) H) as (T2 & Hst2 & Hd & Ho).
  exists es. split_and!; [done|done|by eapply steady_trans|]. intros k. destruct (decide (k ∈ (range (writers (aw w1))).*1)) as [Hin|Hin]; [by apply Hd|].
  unfold batch. rewrite Ho by done. destruct (writers (aw w1) !! k) as [x|] eqn:E; [|done]. exfalso. apply Hin, list_elem_of_fmap. exists (k, x). split; [done|]. by apply elem_of_range.
Qed.

(** ** Files are completed *)
Lemma complete_spec w k x kd w' x' :
  sound pvals N0 w → writers (aw w) !! k = Some x → complete k (slot x kd) x (put_slot x kd None) w = (w', Ok x') →
  x' = put_slot x kd None ∧ sound pvals N0 w' ∧ writers (aw w') !! k = Some x' ∧ same_rows w w' ∧ quiet_but k w w'.
Proof.
  intros Hs Hx. pose proof (attach_self _ _ _ Hx) as Hself. unfold complete. destruct (slot x kd) as [rw|] eqn:Er.
  - intros (w1 & [] & Hf & H)%M_bind_Ok. apply M_bind_Ok in H as (? & ? & [= <-] & [= <- <-]).
    destruct (flush_sound pvals N0 w k x kd rw w1) as (Hs1 & Hr1 & Hq1); [by rewrite Hself|done..|]. rewrite Hself in Hr1.
    split_and!; [done|done|cbn; by rewrite lookup_insert_eq|done|]. eapply quiet_but_trans; [by apply quiet_quiet_but|apply quiet_but_attach].
  - intros [= <- <-]. assert (x = put_slot x kd None) as <- by (destruct x, kd; cbn in Er; by subst). split_and!; try done; apply quiet_but_refl.
Qed.

Definition emptied x : Prop := w_data x = [] ∧ equalityDeletes x = [] ∧ positionalDeletes x = [].
Lemma idle_emptied w l k : tied w l → w_data (batch w k) = [] → emptied (batch w k).
Proof. intros T Hd. destruct (t_live _ _ T k) as [_ He]. split; auto. Qed.

Lemma complete_partition_spec w l k x w' :
  tied w l → writers (aw w) !! k = Some x → emptied x → complete_partition k x w = (w', Ok ()) →
  tied w' l ∧ quiet_but k w w' ∧ w_data (batch w' k) = [] ∧ ∀ kd, kd = KData ∨ upsert = true → slot (batch w' k) kd = None.
Proof.
  intros T Hx (Hd & He & Hp). assert (Hbx : batch w k = x) by by apply batch_some. unfold complete_partition. intros (? & ? & [-> ->]%gets_Ok & H)%M_bind_Ok. rewrite (t_upsert _ _ T) in H.
  apply M_bind_Ok in H as (w2 & x2 & H2 & H).
  assert (sound pvals N0 w2 ∧ writers (aw w2) !! k = Some x2 ∧ same_rows w w2 ∧ quiet_but k w w2 ∧ same_batch x x2 ∧ (upsert = true → slot x2 KEq = None ∧ slot x2 KPos = None))
    as (Hs2 & Hx2 & Hr2 & Hq2 & Hb2 & Hn2).
  { destruct upsert; [|injection H2 as <- <-; split_and!; try done; first [apply T|apply quiet_but_refl]]. apply M_bind_Ok in H2 as (w1 & x1 & H1 & H2).
    destruct (complete_spec w k x KEq w1 x1 (t_sound _ _ T) Hx H1) as (-> & Hs1 & Hx1 & Hr1 & Hq1).
    destruct (complete_spec w1 k _ KPos w2 x2 Hs1 Hx1 H2) as (-> & Hs2 & Hx2 & Hr2 & Hq2).
    split_and!; try done; [by eapply same_rows_trans|by eapply quiet_but_trans]. }
  apply M_bind_Ok in H as (w3 & x3 & H3 & [= <-]). destruct (complete_spec w2 k x2 KData w3 x3 Hs2 Hx2 H3) as (-> & Hs3 & Hx3 & Hr3 & Hq3).
  assert (reset_batch (put_slot x2 KData None) = put_slot x2 KData None) as Hreset.
  { destruct Hb2 as (_ & Hd2 & He2 & Hp2). destruct x2. cbn in *. unfold with_dataWriter. cbn. by rewrite Hd2, He2, Hp2, Hd, He, Hp. }
  rewrite Hreset. change (mkWorld _ _ _) with (attach w3 k (put_slot x2 KData None)). rewrite (attach_self w3) by done.
  assert (Hq : quiet_but k w w3) by by eapply quiet_but_trans. assert (Hb3 : batch w3 k = put_slot x2 KData None) by by apply batch_some.
  assert (Hsb : same_batch (batch w k) (batch w3 k)) by (rewrite Hbx, Hb3; eapply same_batch_trans; [exact Hb2|apply (same_batch_put x2 KData None)]).
  assert (Hr : same_rows w w3) by by eapply same_rows_trans. split_and!; [|done| |].
  - apply (tied_quiet w w3 k); try done; rewrite ?Hbx, ?Hd, ?He; try done.
    + intros k' kd row. by rewrite (in_file_same _ _ _ _ _ Hr).
    + intros k' kd row Hf. left. by rewrite <- (in_file_same _ _ _ _ _ Hr).
  - destruct Hsb as (_ & -> & _). by rewrite Hbx.
  - intros kd Hkd. rewrite Hb3, slot_put. case_decide; [done|]. destruct Hkd as [->|Hu]; [done|]. destruct (Hn2 Hu). by destruct kd.
Qed.

Definition closed w : Prop := ∀ k kd rw, has_slot w k kd rw → kd ≠ KData ∧ upsert = false.

Lemma complete_all w l ks w' :
  tied w l → idle w → NoDup ks.*1 → (∀ k x, (k, x) ∈ ks → writers (aw w) !! k = Some x) → for_each (λ kx, complete_partition kx.1 kx.2) ks w = (w', Ok ()) →
  tied w' l ∧ idle w' ∧ steady w w' ∧ (∀ k kd, k ∈ ks.*1 → kd = KData ∨ upsert = true → slot (batch w' k) kd = None) ∧ (∀ k, k ∉ ks.*1 → writers (aw w') !! k = writers (aw w) !! k).
Proof.
  revert w. induction ks as [|[k x] ks IH]; intros w T Hidle Hnd Hks; cbn [for_each].
  { intros [= <-]. split_and!; try done. by intros ? ? ?%not_elem_of_nil. }
  intros (w1 & [] & H1 & H)%M_bind_Ok. cbn in Hnd. apply NoDup_cons in Hnd as [Hk Hnd]. pose proof (Hks k x ltac:(left)) as Hx.
  destruct (complete_partition_spec w l k x w1 T Hx) as (T1 & Hq & Hd & Hs1); [rewrite <- (batch_some _ _ _ Hx); by eapply idle_emptied|done|].
  assert (Hidle1 : idle w1) by (intros k'; destruct (decide (k' = k)) as [->|Hne]; [done|rewrite (batch_other _ _ _ _ Hq Hne); apply Hidle]).
  destruct (IH w1 T1 Hidle1 Hnd) as (T2 & Hidle2 & Hst2 & Hd2 & Ho2); [|done|].
  { intros k' x' Hin. rewrite (quiet_other _ _ _ _ Hq); [apply Hks; by right|]. intros ->. apply Hk. apply list_elem_of_fmap. by exists (k, x'). }
  split_and!; [done|done|eapply steady_trans; [by eapply steady_quiet|done]| |].
  - intros k' kd [->|Hin]%elem_of_cons Hkd; [|auto]. unfold batch in *. cbn. rewrite Ho2 by done. auto.
  - intros k' [Hne Hin]%not_elem_of_cons. rewrite Ho2 by done. by apply (quiet_other k).
Qed.

Lemma complete_tied w l w' : tied w l → idle w → completeWriters w = (w', Ok ()) → tied w' l ∧ idle w' ∧ steady w w' ∧ closed w'.
Proof.
  intros T Hidle. unfold completeWriters. intros (? & ? & [-> ->]%gets_Ok & H)%M_bind_Ok.
  destruct (complete_all w l _ w' T Hidle (range_NoDup_keys _) (λ k x Hin, proj1 (elem_of_range _ k x) Hin) H) as (T' & Hi' & Hst & Hc & Ho).
  split_and!; [done..|]. intros k kd rw Hs. destruct (decide (k ∈ (range (writers (aw w))).*1)) as [Hin|Hin].
  - apply batch_slot in Hs. split; [intros ->|destruct upsert eqn:Eu; [|done]]; rewrite Hc in Hs; naive_solver.
  - destruct Hs as (x & Hx & _). rewrite Ho in Hx by done. exfalso. apply Hin, list_elem_of_fmap. exists (k, x). split; [done|]. by apply elem_of_range.
Qed.

(** ** Schemas *)
Definition set_schemas (sch j : gmap string string) (m : gmap string (list arrow_field)) (a : ArrowWriter) : ArrowWriter :=
  mkArrowWriter (aw_threadID a) (aw_stream a) (aw_partitionInfo a) (upsertMode a) (deleteMode a) j sch m (writers a)
    (createdFiles a) (indexThread a) (pendingVectors a) (pendingVectorCount a).

Lemma initialize_spec w w' : initialize schema_fields w = (w', Ok ()) →
  ∃ j m ids s, w' = mkWorld (set_schemas (aw_schema (aw w)) j m (aw w)) s (tableIndex w)
  ∧ m !! fileTypeData = Some (createFields (aw_schema (aw w)) ids) ∧ (upsertMode (aw w) = false → m = <[fileTypeData := createFields (aw_schema (aw w)) ids]> (arrowSchema (aw w)))
  ∧ stored s = stored (srv w) ∧ named s = named (srv w) ∧ vectors s (aw_threadID (aw w)) = vectors (srv w) (aw_threadID (aw w)) ∧ row_at s = row_at (srv w).
Proof.
  unfold initialize, fetchFileSchemaJSON. intros (w1 & [] & H1 & H)%M_bind_Ok. apply M_bind_Ok in H1 as (w0 & resp & Hsend & [= <-]).
  unfold send in Hsend. destruct (SendClientRequest _ _ _) as [s r] eqn:Es. injection Hsend as <- ->. apply on_schema in Es as (Hst & Hn & Hv & Hr).
  apply M_bind_Ok in H as (? & ? & [-> ->]%gets_Ok & H). apply M_bind_Ok in H as (? & ids & [= <- _] & H). apply M_bind_Ok in H as (? & [] & [= <-] & H).
  apply M_bind_Ok in H as (? & ? & [-> ->]%gets_Ok & H). cbn [aw upsertMode set_arrowSchema set_fileschemajson] in H. destruct (upsertMode (aw w)).
  - unfold initializeDeleteSchemas in H. apply M_bind_Ok in H as (? & ? & [-> ->]%gets_Ok & H). apply M_bind_Ok in H as (? & dids & [= <- _] & H).
    destruct (dids !! OlakeID); [|done]. apply M_bind_Ok in H as (? & [] & [= <-] & [= <-]).
    eexists (ar_IcebergSchemas resp), _, ids, s. split_and!; [reflexivity| |done..]. cbn. by rewrite !lookup_insert_ne, lookup_insert_eq by done.
  - injection H as <-. eexists (ar_IcebergSchemas resp), _, ids, s. split_and!; [reflexivity| |done..]. cbn. by rewrite lookup_insert_eq.
Qed.

Lemma tied_schemas w l sch j m s :
  tied w l → closed w → (upsert = false → ∀ ft, ft ≠ fileTypeData → m !! ft = arrowSchema (aw w) !! ft) →
  stored s = stored (srv w) → named s = named (srv w) → vectors s tid = vectors (srv w) tid → row_at s = row_at (srv w) →
  tied (mkWorld (set_schemas sch j m (aw w)) s (tableIndex w)) l.
Proof.
  intros T Hcl Hm Hst Hn Hv Hr. set (w' := mkWorld _ _ _).
  assert (Hslot : ∀ k kd rw, has_slot w' k kd rw ↔ has_slot w k kd rw) by done.
  assert (Hs : sound pvals N0 w').
  { destruct (t_sound _ _ T) as [Hs1 Hs2 Hs3 Hs4 Hs5 Hs6]. split; try done; unfold w'; cbn.
    - rewrite Hst. exact Hs1.
    - intros k kd rw Hk. destruct (Hs3 _ _ _ Hk). destruct (Hcl _ _ _ Hk) as [Hkd Hu]. split; cbn; rewrite ?Hst, ?Hn; try done. rewrite Hm; [done|done|]. by destruct kd.
    - rewrite Hst, Hn. exact Hs5.
    - by rewrite Hn. }
  assert (Hrows : same_rows w w') by (intros k kd p n sch' row; unfold holds_row, w'; cbn; by rewrite Hst).
  assert (Hin : ∀ k kd row, in_file w' k kd row ↔ in_file w k kd row) by (intros; by apply in_file_same).
  assert (Hvec : ∀ d, vector_has w' d ↔ vector_has w d) by (intros d; unfold vector_has, w'; cbn; by rewrite Hv).
  destruct T. split; try done.
  - unfold w'. cbn. congruence.
  - intros e He. destruct (t_placed0 e He) as [?|?]; [left; by eapply written_same|by right].
  - intros k p n sch' row Hh%Hrows. by apply t_rows0.
  - intros k id. rewrite Hin. apply t_equality0.
  - intros Hd k d. rewrite Hin. by apply t_files0.
  - intros Hd d. rewrite Hvec. by apply t_vectors0.
  - intros Hd d. rewrite Hvec. by apply t_no_vectors0.
  - intros Hd k row. rewrite Hin. by apply t_no_files0.
Qed.

(** ** A run of the thread *)
Inductive op := OWrite (recs : list RawRecord) | OEvolve (schema : gmap string string).
Definition run_op (o : op) : M unit :=
  match o with
  | OWrite recs => Write murmur3 fmt_g time_format json_marshal recs
  | OEvolve schema => Arrow_EvolveSchema schema_fields schema
  end.

(** The records of a run with the columns of the table at their time. *)
Fixpoint tagged (sch : gmap string string) (ops : list op) : list (gmap string string * RawRecord) :=
  match ops with
  | [] => []
  | OWrite recs :: ops => ((sch,.) <$> recs) ++ tagged sch ops
  | OEvolve sch' :: ops => tagged sch' ops
  end.

Context (info : list PartitionInfo) (stream : ConfiguredStream).
(** The partition of a record. *)
Definition partition_of (sch : gmap string string) (rec : RawRecord) (ts : gotime) : result (string * list any) :=
  getRecordPartition murmur3 fmt_g time_format (new_writer tid stream info sch upsert indexed) rec ts.
Definition partitioned (recs : list (gmap string string * RawRecord)) : Prop :=
  ∀ sch rec ts k vs, (sch, rec) ∈ recs → OlakeColumns rec !! OlakeTimestamp = Some (ATime ts) →
    partition_of sch rec ts = Ok (k, vs) → toProtoPartitionValues vs = Ok (pvals k).

(** What an entry says of its record. *)
Record entry_for (sr : gmap string string * RawRecord) e : Prop := {
  ef_rec : e_rec e = sr.2;
  ef_schema : ∃ ids, e_schema e = createFields sr.1 ids;
  ef_part : ∃ ts vs, OlakeColumns sr.2 !! OlakeTimestamp = Some (ATime ts) ∧ partition_of sr.1 sr.2 ts = Ok (e_key e, vs);
  ef_id : OlakeColumns sr.2 !! OlakeID = Some (AString (e_id e));
  ef_op : OlakeColumns sr.2 !! OpType = Some (AString (e_op e));
  ef_out : out_ok stream e
}.

Record ready w (sch : gmap string string) : Prop := {
  r_schema : aw_schema (aw w) = sch;
  r_arrow : ∃ ids, arrowSchema (aw w) !! fileTypeData = Some (createFields sch ids);
  r_info : aw_partitionInfo (aw w) = info;
  r_stream : aw_stream (aw w) = stream
}.

Lemma ready_steady w w' sch : ready w sch → steady w w' → ready w' sch.
Proof. intros [? [ids ?] ? ?] (?&?&?&?). split; try congruence. exists ids. congruence. Qed.

Lemma op_tied w l sch o w' :
  (is_dv = true → indexed = true) → tied w l → idle w → ready w sch → partitioned (tagged sch [o]) → run_op o w = (w', Ok ()) →
  ∃ es, tied w' (l ++ es) ∧ Forall2 entry_for (tagged sch [o]) es ∧ idle w' ∧ ready w' (match o with OWrite _ => sch | OEvolve s => s end).
Proof.
  intros Hdv T Hidle Hre Hp. pose proof Hre as [Hsch [ids Hids] Hinfo Hstr]. destruct o as [recs|sch']; cbn [run_op tagged] in *.
  - rewrite app_nil_r in *. intros H. destruct (write_tied w l recs w' Hdv T) as (es & T' & Hes & Hst & Hidle'); [|done|].
    { intros rec ts k vs Hin Hts Hk. eapply (Hp sch rec); [apply list_elem_of_fmap; eauto|done|]. unfold partition_of, getRecordPartition in *. cbn. by rewrite <- Hsch, <- Hinfo. }
    exists es. split_and!; [done| |done|by eapply ready_steady]. rewrite Forall2_fmap_l. eapply Forall2_impl; [exact Hes|].
    intros rec e [? ? Hes' (ts & vs & ? & Hk) ? ? ?]. split; cbn; try done; [exists ids; congruence| |congruence].
    exists ts, vs. split; [done|]. unfold partition_of, getRecordPartition in *. cbn. by rewrite <- Hsch, <- Hinfo.
  - unfold Arrow_EvolveSchema. intros (w1 & [] & H1 & H)%M_bind_Ok. destruct (complete_tied w l w1 T Hidle H1) as (T1 & Hidle1 & Hst1 & Hcl).
    apply M_bind_Ok in H as (? & [] & [= <-] & H). apply initialize_spec in H as (j & m & ids' & s & -> & Hm & Hm' & Hst & Hn & Hv & Hr). cbn in *.
    exists []. rewrite app_nil_r. split_and!; [|constructor|done|].
    + rewrite (t_thread _ _ T1) in Hv. apply (tied_schemas w1 l sch' j m s); try done. intros Hu ft Hft. rewrite (t_upsert _ _ T1) in Hm'. rewrite Hm' by done. by rewrite lookup_insert_ne.
    + destruct Hst1 as (_ & _ & ? & ?). split; cbn; try congruence; eauto.
Qed.

Lemma ops_tied w l sch ops w' :
  (is_dv = true → indexed = true) → tied w l → idle w → ready w sch → partitioned (tagged sch ops) → for_each run_op ops w = (w', Ok ()) →
  ∃ es, tied w' (l ++ es) ∧ Forall2 entry_for (tagged sch ops) es ∧ idle w'.
Proof.
  intros Hdv. revert w l sch. induction ops as [|o ops IH]; intros w l sch T Hidle Hre Hp; cbn [for_each].
  { intros [= <-]. exists []. rewrite app_nil_r. split_and!; [done|constructor|done]. }
  intros (w1 & [] & H1 & H)%M_bind_Ok.
  assert (Htag : tagged sch (o :: ops) = tagged sch [o] ++ tagged (match o with OWrite _ => sch | OEvolve s => s end) ops) by (destruct o; cbn; by rewrite ?app_nil_r).
  rewrite Htag in Hp |- *. destruct (op_tied w l sch o w1 Hdv T Hidle Hre) as (es1 & T1 & Hes1 & Hidle1 & Hre1); [|done|].
  { intros sch0 rec ts k vs Hin. apply Hp, elem_of_app. by left. }
  destruct (IH w1 (l ++ es1) _ T1 Hidle1 Hre1) as (es2 & T2 & Hes2 & Hidle2); [|done|].
  { intros sch0 rec ts k vs Hin. apply Hp, elem_of_app. by right. }
  exists (es1 ++ es2). rewrite app_assoc. split_and!; [done|by apply Forall2_app|done].
Qed.
End Upsert.
