(* ===== verification/ArrowCommitFacts.v ===== *)
(** * Theorems about the Arrow writer: what a commit makes of the table

    The rows of a table after a thread committed: without an index the touched
    identities of each partition are replaced by the last record of each, with an index
    those of the whole table, and the index keeps agreeing with the table. *)

From S2P Require Import Prelude GoString GoSet DataTypes QueryEngine Value ValueFacts Schema Stream StreamFacts Catalog State StateFacts Fields Writers TwoPC IndexDB IndexDBFacts Jdbc Chunking Transforms ArrowWriter ArrowWriterFacts ArrowUpsertFacts.

(** ** The log of a thread without an index *)
Section Memory.
Context (upsert : bool).
Implicit Types (e : entry) (l : list entry).

Abbreviation logged l := (log_of upsert false ∅ l).
(** The record replaces older versions of itself. *)
Definition touches e : bool := upsert && tracked (e_op e).
Definition same_row e e' : Prop := e_key e = e_key e' ∧ e_id e = e_id e'.
(** A later record of the run replaces this one. *)
Definition superseded l e : Prop := ∃ l1 l2, l = l1 ++ e :: l2 ∧ touches e = true ∧ ∃ e', e' ∈ l2 ∧ touches e' = true ∧ same_row e e'.

Lemma snoc_split l e0 l1 e l2 : l ++ [e0] = l1 ++ e :: l2 → (l2 = [] ∧ e = e0 ∧ l1 = l) ∨ ∃ l2', l2 = l2' ++ [e0] ∧ l = l1 ++ e :: l2'.
Proof.
  destruct l2 as [|e2 l2 _] using rev_ind.
  - intros [<- [= <-]]%app_inj_tail. by left.
  - rewrite app_comm_cons, app_assoc. intros [-> [= <-]]%app_inj_tail. right. eauto.
Qed.

Lemma memory_step l e : logged (l ++ [e]) =
  if touches e then
    mkLog (move false (logged l) e) (match l_at (logged l) (e_key e) (e_id e) with Some _ => l_eq (logged l) | None => l_eq (logged l) ++ [(e_key e, e_id e)] end)
      (match l_at (logged l) (e_key e) (e_id e) with Some d => l_del (logged l) ++ [(e_key e, d)] | None => l_del (logged l) end)
  else logged l.
Proof. by rewrite log_snoc. Qed.

Definition last_touch l k id e : Prop := ∃ l1 l2, l = l1 ++ e :: l2 ∧ touches e = true ∧ e_key e = k ∧ e_id e = id ∧ ∀ e', e' ∈ l2 → touches e' = true → ¬ same_row e e'.
Lemma memory_at l k id d : l_at (logged l) k id = Some d ↔ ∃ e, last_touch l k id e ∧ e_loc e = d.
Proof.
  revert d. induction l as [|e0 l IH] using rev_ind; intros d; [split; [done|by intros (e & (l1 & l2 & ?%app_cons_not_nil & _) & _)]|].
  rewrite memory_step. destruct (touches e0) eqn:Et; cbn [l_at].
  - unfold move, scope. case_decide as Hc.
    + destruct Hc as [-> ->]. split.
      * intros [= <-]. exists e0. split; [|done]. exists l, []. split_and!; try done. by intros ? ?%not_elem_of_nil.
      * intros (e & (l1 & l2 & [(-> & -> & ->)|(l2' & -> & ->)]%snoc_split & _ & Hk & Hi & Hl) & <-); [done|]. destruct (Hl e0); [set_solver|done|by split].
    + rewrite IH. split.
      * intros (e & (l1 & l2 & -> & ? & Hk & Hi & Hl) & <-). exists e. split; [|done]. exists l1, (l2 ++ [e0]). split_and!; try done; [by rewrite <- app_assoc|].
        intros e' [?| ->%list_elem_of_singleton]%elem_of_app Ht'; [auto|]. intros [H1 H2]. apply Hc. split; congruence.
      * intros (e & (l1 & l2 & [(-> & -> & ->)|(l2' & -> & ->)]%snoc_split & ? & Hk & Hi & Hl) & <-); [by destruct Hc|]. exists e. split; [|done]. exists l1, l2'. split_and!; try done. set_solver.
  - rewrite IH. split.
    + intros (e & (l1 & l2 & -> & ? & Hk & Hi & Hl) & <-). exists e. split; [|done]. exists l1, (l2 ++ [e0]). split_and!; try done; [by rewrite <- app_assoc|].
      intros e' [?| ->%list_elem_of_singleton]%elem_of_app Ht'; [auto|]. congruence.
    + intros (e & (l1 & l2 & [(-> & -> & ->)|(l2' & -> & ->)]%snoc_split & ? & Hk & Hi & Hl) & <-); [congruence|]. exists e. split; [|done]. exists l1, l2'. split_and!; try done. set_solver.
Qed.

(** An identity that was touched was touched last by some record. *)
Lemma last_exists l e : e ∈ l → touches e = true → ∃ e', last_touch l (e_key e) (e_id e) e'.
Proof.
  induction l as [|e0 l IH] using rev_ind; [by intros ?%not_elem_of_nil|]. intros Hin Ht. destruct (touches e0) eqn:Et.
  - destruct (decide (e_key e0 = e_key e ∧ e_id e0 = e_id e)) as [[H1 H2]|Hne].
    { exists e0, l, []. split_and!; try done. by intros ? ?%not_elem_of_nil. }
    apply elem_of_app in Hin as [Hin|Hin%list_elem_of_singleton]; [|subst; by destruct Hne].
    destruct (IH Hin Ht) as (e' & l1 & l2 & -> & ? & ? & ? & Hl). exists e', l1, (l2 ++ [e0]). split_and!; try done; [by rewrite <- app_assoc|].
    intros e'' [?| ->%list_elem_of_singleton]%elem_of_app Ht'; [auto|]. intros [? ?]. apply Hne. split; congruence.
  - apply elem_of_app in Hin as [Hin|Hin%list_elem_of_singleton]; [|congruence].
    destruct (IH Hin Ht) as (e' & l1 & l2 & -> & ? & ? & ? & Hl). exists e', l1, (l2 ++ [e0]). split_and!; try done; [by rewrite <- app_assoc|].
    intros e'' [?| ->%list_elem_of_singleton]%elem_of_app Ht'; [auto|congruence].
Qed.

Lemma memory_eq l k id : (k, id) ∈ l_eq (logged l) ↔ ∃ e, e ∈ l ∧ touches e = true ∧ e_key e = k ∧ e_id e = id.
Proof.
  induction l as [|e0 l IH] using rev_ind; [split; [by intros ?%not_elem_of_nil|by intros (e & ?%not_elem_of_nil & _)]|]. rewrite memory_step.
  assert (Hsplit : (∃ e, e ∈ l ++ [e0] ∧ touches e = true ∧ e_key e = k ∧ e_id e = id) ↔ (∃ e, e ∈ l ∧ touches e = true ∧ e_key e = k ∧ e_id e = id) ∨ (touches e0 = true ∧ e_key e0 = k ∧ e_id e0 = id)).
  { setoid_rewrite elem_of_app. setoid_rewrite list_elem_of_singleton. split; [intros (e & [?| ->] & ?); eauto|intros [(e & ? & ?)|?]; eauto 6]. }
  rewrite Hsplit, <- IH. destruct (touches e0) eqn:Et; cbn [l_eq]; [|split; [auto|intros [?|[? _]]; done]].
  destruct (l_at (logged l) (e_key e0) (e_id e0)) as [d|] eqn:Ea.
  - split; [auto|]. intros [?|(_ & <- & <-)]; [done|]. apply memory_at in Ea as (e & (l1 & l2 & -> & ? & ? & ? & _) & _). apply IH. exists e. split_and!; try done. set_solver.
  - rewrite elem_of_app, list_elem_of_singleton. split; [intros [?|[= -> ->]]; auto|intros [?|(_ & <- & <-)]; auto].
Qed.

Lemma memory_del l k d : (k, d) ∈ l_del (logged l) ↔ ∃ e, superseded l e ∧ e_key e = k ∧ e_loc e = d.
Proof.
  induction l as [|e0 l IH] using rev_ind; [split; [by intros ?%not_elem_of_nil|by intros (e & (l1 & l2 & ?%app_cons_not_nil & _) & _)]|]. rewrite memory_step.
  assert (Hmono : ∀ e, superseded l e → superseded (l ++ [e0]) e).
  { intros e (l1 & l2 & -> & ? & e' & ? & ?). exists l1, (l2 ++ [e0]). split_and!; [by rewrite <- app_assoc|done|]. exists e'. split; [set_solver|done]. }
  assert (Hinv : ∀ e, superseded (l ++ [e0]) e → superseded l e ∨ (touches e0 = true ∧ touches e = true ∧ same_row e e0 ∧ e ∈ l)).
  { intros e (l1 & l2 & [(-> & _)|(l2' & -> & ->)]%snoc_split & Ht & e' & Hin & Ht' & Hsame); [by apply not_elem_of_nil in Hin|].
    apply elem_of_app in Hin as [Hin| ->%list_elem_of_singleton]; [left; exists l1, l2'; eauto 6|right; split_and!; try done; set_solver]. }
  destruct (touches e0) eqn:Et; cbn [l_del].
  2: { rewrite IH. split; [intros (e & ? & ?); eauto|]. intros (e & [?|(? & _)]%Hinv & ?); [eauto|done]. }
  destruct (l_at (logged l) (e_key e0) (e_id e0)) as [d'|] eqn:Ea.
  - apply memory_at in Ea as (e1 & (l1 & l2 & Hl & Ht1 & Hk1 & Hi1 & Hlast) & He1). rewrite elem_of_app, list_elem_of_singleton, IH. split.
    + intros [(e & ? & ?)|[= -> ->]]; [eauto|]. exists e1. split_and!; try done. exists l1, (l2 ++ [e0]). split_and!; try done; [by rewrite Hl, <- app_assoc|].
      exists e0. split_and!; [set_solver|done|by split].
    + intros (e & [?|(_ & Ht & [Hk Hi] & Hin)]%Hinv & He & Hd); [eauto|]. rewrite Hl in Hin. apply elem_of_app in Hin as [Hin|[->|Hin]%elem_of_cons].
      * left. exists e. split; [|done]. apply list_elem_of_split in Hin as (l3 & l4 & ->). exists l3, (l4 ++ e1 :: l2). split_and!; [by rewrite Hl, <- app_assoc|done|]. exists e1. split_and!; [set_solver|done|split; congruence].
      * right. congruence.
      * destruct (Hlast e Hin Ht). split; congruence.
  - rewrite IH. split; [intros (e & ? & ?); eauto|]. intros (e & [?|(_ & Ht & [Hk Hi] & Hin)]%Hinv & ?); [eauto|]. destruct (last_exists l e Hin Ht) as (e' & He'). rewrite Hk, Hi in He'.
    assert (l_at (logged l) (e_key e0) (e_id e0) = Some (e_loc e')) by (apply memory_at; eauto). congruence.
Qed.
End Memory.

(** ** The log of a thread with an index *)
Section Indexed.
Context (upsert : bool) (m0 : gmap string RowLocation).
Implicit Types (e : entry) (l : list entry).

Abbreviation logx l := (log_of upsert true m0 l).
Definition last_of l id e : Prop := ∃ l1 l2, l = l1 ++ e :: l2 ∧ e_id e = id ∧ ∀ e', e' ∈ l2 → e_id e' ≠ id.

Lemma index_at l id d : l_at (logx l) "" id = Some d ↔
  (∃ e, last_of l id e ∧ e_loc e = d) ∨ ((∀ e, e ∈ l → e_id e ≠ id) ∧ to_delete <$> m0 !! id = Some d).
Proof.
  induction l as [|e0 l IH] using rev_ind.
  { cbn. split; [intros Hm; right; split; [by intros ? ?%not_elem_of_nil|done]|]. intros [(e & (l1 & l2 & ?%app_cons_not_nil & _) & _)|[_ ?]]; done. }
  rewrite log_snoc. unfold log_step. cbn [l_at]. unfold move, scope. case_decide as Hc.
  - destruct Hc as [_ ->]. split.
    + intros [= <-]. left. exists e0. split; [|done]. exists l, []. split_and!; try done. by intros ? ?%not_elem_of_nil.
    + intros [(e & (l1 & l2 & [(-> & -> & ->)|(l2' & -> & ->)]%snoc_split & Hi & Hl) & <-)|[Hl _]]; [done|by destruct (Hl e0); [set_solver|]|by destruct (Hl e0); [set_solver|]].
  - assert (Hne : e_id e0 ≠ id) by naive_solver. rewrite IH. split.
    + intros [(e & (l1 & l2 & -> & Hi & Hl) & <-)|[Hl ?]].
      * left. exists e. split; [|done]. exists l1, (l2 ++ [e0]). split_and!; [by rewrite <- app_assoc|done|]. intros e' [?| ->%list_elem_of_singleton]%elem_of_app; auto.
      * right. split; [|done]. intros e' [?| ->%list_elem_of_singleton]%elem_of_app; auto.
    + intros [(e & (l1 & l2 & [(-> & -> & ->)|(l2' & -> & ->)]%snoc_split & Hi & Hl) & <-)|[Hl ?]]; [done|left|right; split; [set_solver|done]].
      exists e. split; [|done]. exists l1, l2'. split_and!; try done. set_solver.
Qed.

Lemma index_del l k d : (k, d) ∈ l_del (logx l) ↔
  ∃ l1 e l2, l = l1 ++ e :: l2 ∧ upsert = true ∧ looked_up (e_op e) = true ∧ e_key e = k ∧ l_at (logx l1) "" (e_id e) = Some d.
Proof.
  induction l as [|e0 l IH] using rev_ind; [split; [by intros ?%not_elem_of_nil|by intros (l1 & e & l2 & ?%app_cons_not_nil & _)]|].
  assert (Hsplit : (k, d) ∈ l_del (logx (l ++ [e0])) ↔ (k, d) ∈ l_del (logx l) ∨ (upsert = true ∧ looked_up (e_op e0) = true ∧ e_key e0 = k ∧ l_at (logx l) "" (e_id e0) = Some d)).
  { rewrite log_snoc. unfold log_step. cbn [l_del scope]. destruct (upsert && looked_up (e_op e0)) eqn:Eu; [apply andb_true_iff in Eu as [-> ->]|apply andb_false_iff in Eu].
    - destruct (l_at (log_of true true m0 l) "" (e_id e0)) as [d'|]; [|split; [auto|by intros [?|(_ & _ & _ & ?)]]]. rewrite elem_of_app, list_elem_of_singleton.
      split; [intros [?|[= -> ->]]; auto|intros [?|(_ & _ & <- & [= <-])]; auto].
    - split; [auto|]. intros [?|(Hu & Ho & _)]; [done|]. rewrite Hu, Ho in Eu. by destruct Eu. }
  rewrite Hsplit, IH. split.
  - intros [(l1 & e & l2 & -> & ?)|?]; [|by exists l, e0, []]. exists l1, e, (l2 ++ [e0]). split; [by rewrite <- app_assoc|done].
  - intros (l1 & e & l2 & [(-> & -> & ->)|(l2' & -> & ->)]%snoc_split & ?); [by right|]. left. eauto 10.
Qed.

Lemma last_of_exists l e : e ∈ l → ∃ e', last_of l (e_id e) e'.
Proof.
  induction l as [|e0 l IH] using rev_ind; [by intros ?%not_elem_of_nil|]. intros Hin. destruct (decide (e_id e0 = e_id e)) as [He|Hne].
  { exists e0, l, []. split_and!; try done. by intros ? ?%not_elem_of_nil. }
  apply elem_of_app in Hin as [Hin| ->%list_elem_of_singleton]; [|done]. destruct (IH Hin) as (e' & l1 & l2 & -> & ? & Hl). exists e', l1, (l2 ++ [e0]).
  split_and!; [by rewrite <- app_assoc|done|]. intros e'' [?| ->%list_elem_of_singleton]%elem_of_app; auto.
Qed.
Lemma last_of_unique l id e e' : last_of l id e → last_of l id e' → e = e'.
Proof.
  revert e e'. induction l as [|e0 l IH] using rev_ind; intros e e'; [by intros (l1 & l2 & ?%app_cons_not_nil & _)|].
  intros (l1 & l2 & [(-> & -> & ->)|(l2' & -> & ->)]%snoc_split & Hi & Hl) (l3 & l4 & [(-> & -> & ->)|(l4' & -> & Heq)]%snoc_split & Hi' & Hl').
  - done.
  - destruct (Hl' e0); [set_solver|done].
  - destruct (Hl e0); [set_solver|done].
  - apply IH; [exists l1, l2'; split_and!; try done; set_solver|exists l3, l4'; split_and!; try done; set_solver].
Qed.
End Indexed.

Section Commit.
Context {HE : GoEnv} {HR : GoRange} {HC : ServerClient} {HS : ArrowServer} {HX : StreamIndex} {HI : IndexSpec} {HP : ParquetLib}.
Context (murmur3 : list Z → Z) (fmt_g : spec_float → string) (time_format : string → gotime → string).
Context (json_marshal : any → option string) (marshal_state : MetadataState → string).
Context (schema_fields : string → option (list (Z * string))).
Context (pvals : string → list PartitionValue) (N0 : gset string).
Context (upsert indexed : bool) (mode : string) (m0 : gmap string RowLocation) (snap0 : Z) (room0 : nat) (tid : string) (row0 : string → Z → option trow).
Implicit Types (w : world) (k p : string) (e : entry) (l : list entry).

Abbreviation tied := (tied json_marshal pvals N0 upsert indexed mode m0 snap0 room0 tid row0).
Abbreviation loggedc l := (log_of upsert indexed m0 l).

(** The row an entry became. *)
Definition row_of e (r : trow) : Prop :=
  tr_part r = pvals (e_key e) ∧ tr_schema r = e_schema e ∧ record_row json_marshal (e_schema e) (e_out e) = Ok (tr_cells r).

Section Files.
Context (w : world) (l : list entry).
Hypotheses (T : tied w l) (Hidle : idle w) (Hclosed : closed upsert w) (Hsent : pendingVectors (aw w) = ∅).

Let files : list FileMetadata := concat (partition_files <$> (range (createdFiles (aw w))).*2).

Lemma files_elem f : f ∈ files ↔ ∃ k kd, f ∈ created w k kd.
Proof.
  unfold files, created. rewrite list_elem_of_In, in_concat. setoid_rewrite <- list_elem_of_In. split.
  - intros (pfs & (pf & -> & ((k & pf') & -> & Hin%elem_of_range)%list_elem_of_fmap)%list_elem_of_fmap & Hf). exists k. rewrite Hin. cbn in *. unfold partition_files in Hf.
    rewrite !elem_of_app in Hf. destruct Hf as [?|[?|?]]; [by exists KEq|by exists KData|by exists KPos].
  - intros (k & kd & Hf). destruct (createdFiles (aw w) !! k) as [pf|] eqn:Ek; [|by destruct kd; apply not_elem_of_nil in Hf]. exists (partition_files pf). split.
    + apply list_elem_of_fmap. exists pf. split; [done|]. apply list_elem_of_fmap. exists (k, pf). split; [done|]. by apply elem_of_range.
    + unfold partition_files. rewrite !elem_of_app. destruct kd; auto.
Qed.

(** With no file open, the rows are in the created files. *)
Lemma closed_row k kd p n sch row : kd = KData ∨ upsert = true → holds_row w k kd p n sch row →
  ∃ f c, f ∈ created w k kd ∧ fm_FilePath f = p ∧ stored (srv w) !! p = Some c ∧ pf_schema c = sch ∧ pf_rows c !! n = Some row.
Proof. intros Hkd [?|(rw & Hs & _)]; [done|]. destruct (Hclosed _ _ _ Hs). naive_solver. Qed.

Lemma in_file_created k kd row : kd = KData ∨ upsert = true → in_file w k kd row ↔ ∃ f, f ∈ created w k kd ∧ row ∈ rows_in (stored (srv w)) f.
Proof.
  intros Hkd. unfold in_file, rows_in. split.
  - intros (p & n & sch & (f & c & Hf & Hp & Hc & _ & Hr)%closed_row); [|done]. exists f. split; [done|]. rewrite Hp, Hc. by eapply list_elem_of_lookup_2.
  - intros (f & Hf & Hr). destruct (stored (srv w) !! fm_FilePath f) as [c|] eqn:Ec; [|by apply not_elem_of_nil in Hr].
    apply list_elem_of_lookup_1 in Hr as [n Hn]. exists (fm_FilePath f), n, (pf_schema c). left. by exists f, c.
Qed.

Lemma typed_file ft part f : of_type ft part f = true ↔ fm_FileType f = ft ∧ fm_PartitionValues f = part.
Proof. unfold of_type. by rewrite andb_true_iff, String.eqb_eq, bool_decide_eq_true. Qed.

(** The rows of one kind of delete file, by partition. *)
Lemma delete_rows kd part row : kd ≠ KData → (∀ k, in_file w k kd row → upsert = true) →
  existsb (λ f, of_type (kname kd) part f && bool_decide (row ∈ rows_in (stored (srv w)) f)) files = true ↔ ∃ k, pvals k = part ∧ in_file w k kd row.
Proof.
  intros Hkd Hup. rewrite existsb_exists. setoid_rewrite <- list_elem_of_In. setoid_rewrite andb_true_iff. setoid_rewrite bool_decide_eq_true. setoid_rewrite typed_file. split.
  - intros (f & (k & kd' & Hf)%files_elem & (Hty & Hpv) & Hr). destruct (s_file _ _ _ (t_sound _ _ _ _ _ _ _ _ _ _ _ _ _ T) _ _ _ Hf) as (Hty' & Hpv' & [c Hc]).
    assert (kd' = kd) as -> by (rewrite Hty in Hty'; by destruct kd, kd'). exists k. split; [congruence|]. unfold rows_in in Hr. rewrite Hc in Hr. apply list_elem_of_lookup_1 in Hr as [n Hn].
    exists (fm_FilePath f), n, (pf_schema c). left. by exists f, c.
  - intros (k & <- & Hin). pose proof (Hup k Hin) as Hu. apply in_file_created in Hin as (f & Hf & Hr); [|by right]. exists f.
    destruct (s_file _ _ _ (t_sound _ _ _ _ _ _ _ _ _ _ _ _ _ T) _ _ _ Hf) as (? & ? & _). split_and!; try done. apply files_elem. eauto.
Qed.

Lemma not_queued k d : ¬ queued w k d.
Proof. unfold queued. destruct (idle_emptied _ _ _ _ _ _ _ _ _ _ _ _ _ k T (Hidle k)) as (_ & _ & ->). by apply not_elem_of_nil. Qed.

Lemma equality_spec r : equality_deleted (stored (srv w)) files r = true ↔ ∃ k id, row_id r = Some id ∧ pvals k = tr_part r ∧ (k, id) ∈ l_eq (loggedc l).
Proof.
  unfold equality_deleted. destruct (row_id r) as [id|]; [|naive_solver].
  assert (Hlog : ∀ k, in_file w k KEq (eq_row id) ↔ (k, id) ∈ l_eq (loggedc l)).
  { intros k. rewrite <- (t_equality _ _ _ _ _ _ _ _ _ _ _ _ _ T). destruct (idle_emptied _ _ _ _ _ _ _ _ _ _ _ _ _ k T (Hidle k)) as (_ & -> & _). set_solver. }
  etransitivity; [apply (delete_rows KEq (tr_part r) (eq_row id)); [done|]|].
  - intros k Hin%Hlog. destruct upsert; [done|]. rewrite log_eq_nil in Hin by auto. by apply not_elem_of_nil in Hin.
  - setoid_rewrite Hlog. naive_solver.
Qed.

Lemma position_spec part p n : position_deleted (stored (srv w)) files (vectors (srv w) tid) part p n = true ↔
  ∃ k, (is_dv mode = true ∨ pvals k = part) ∧ (k, mkPosDelete p n) ∈ l_del (loggedc l).
Proof.
  unfold position_deleted. rewrite orb_true_iff.
  assert (Hup : ∀ k d, (k, d) ∈ l_del (loggedc l) → upsert = true).
  { intros k d Hin. destruct upsert; [done|]. rewrite log_del_nil in Hin by done. by apply not_elem_of_nil in Hin. }
  assert (Hvec : existsb (λ v, String.eqb (dv_DataFilePath v) p && bool_decide (n ∈ dv_Positions v)) (vectors (srv w) tid) = true ↔ vector_has tid w (mkPosDelete p n)).
  { rewrite existsb_exists. setoid_rewrite <- list_elem_of_In. setoid_rewrite andb_true_iff. setoid_rewrite bool_decide_eq_true. setoid_rewrite String.eqb_eq.
    unfold vector_has. cbn. rewrite Hsent. setoid_rewrite lookup_empty. naive_solver. }
  rewrite Hvec. destruct (is_dv mode) eqn:Edv.
  - pose proof (delete_rows KPos part (pos_row (mkPosDelete p n)) ltac:(done)) as Hfile. pose proof (t_vectors _ _ _ _ _ _ _ _ _ _ _ _ _ T Edv (mkPosDelete p n)) as Hv.
    pose proof (t_no_files _ _ _ _ _ _ _ _ _ _ _ _ _ T Edv) as Hno. split.
    + intros [Hf|Hf]; [apply Hfile in Hf as (k & _ & Hin); [by apply Hno in Hin|intros k Hin; by apply Hno in Hin]|]. destruct (proj1 Hv (or_introl Hf)) as [k Hk]. exists k. auto.
    + intros (k & _ & Hk). right. destruct (proj2 Hv (ex_intro _ k Hk)) as [?|[k' Hq]]; [done|]. by apply not_queued in Hq.
  - pose proof (t_files _ _ _ _ _ _ _ _ _ _ _ _ _ T Edv) as Hf. assert (Hlog : ∀ k, in_file w k KPos (pos_row (mkPosDelete p n)) ↔ (k, mkPosDelete p n) ∈ l_del (loggedc l)).
    { intros k. rewrite <- Hf. split; [by left|]. intros [?|Hq]; [done|]. by apply not_queued in Hq. }
    pose proof (t_no_vectors _ _ _ _ _ _ _ _ _ _ _ _ _ T Edv (mkPosDelete p n)) as Hno.
    assert (Hdr := delete_rows KPos part (pos_row (mkPosDelete p n)) ltac:(done) (λ k Hin, Hup k _ (proj1 (Hlog k) Hin))). setoid_rewrite Hlog in Hdr.
    split; [intros [Hx|?]; [|done]; apply Hdr in Hx; naive_solver|]. intros (k & [?|Hp] & Hk); [done|]. left. apply Hdr. eauto.
Qed.

Lemma new_row_spec p n r : new_row (stored (srv w)) files p n = Some r ↔ ∃ e, e ∈ l ∧ e_loc e = mkPosDelete p n ∧ row_of e r.
Proof.
  pose proof (t_sound _ _ _ _ _ _ _ _ _ _ _ _ _ T) as Hs. unfold new_row. split.
  - intros (f & Hf & H)%bind_Some. apply lookup_first_Some in Hf as [(k & kd & Hf)%files_elem Hb]. apply andb_true_iff in Hb as [Hty%String.eqb_eq Hp%String.eqb_eq].
    destruct (s_file _ _ _ Hs _ _ _ Hf) as (Hty' & Hpv & _). assert (kd = KData) as -> by (rewrite Hty in Hty'; by destruct kd).
    apply bind_Some in H as (c & Hc & H). destruct (Z.ltb_spec n 0); [done|]. apply bind_Some in H as (cells & Hcells & [= <-]).
    destruct (t_rows _ _ _ _ _ _ _ _ _ _ _ _ _ T k p (Z.to_nat n) (pf_schema c) cells) as (e & Hin & <- & <- & Hpos & Hsch & Hrow); [left; by exists f, c|].
    exists e. split_and!; [done|unfold e_loc; f_equal; lia|]. split_and!; cbn; congruence.
  - intros (e & Hin & [= <- <-] & Hpart & Hsch & Hrow). destruct (t_placed _ _ _ _ _ _ _ _ _ _ _ _ _ T e Hin) as [(row & Hh & Hrow')|(i & Hi & _)]; [|by rewrite Hidle in Hi].
    apply closed_row in Hh as (f & c & Hf & Hp & Hc & Hsc & Hr); [|by left]. destruct (s_file _ _ _ Hs _ _ _ Hf) as (Hty & Hpv & _).
    destruct (lookup_first (λ f, String.eqb (fm_FileType f) fileTypeData && String.eqb (fm_FilePath f) (e_path e)) files) as [f'|] eqn:El.
    + cbn. apply lookup_first_Some in El as [(k' & kd' & Hf')%files_elem Hb]. apply andb_true_iff in Hb as [_ Hp'%String.eqb_eq].
      destruct (s_files _ _ _ Hs _ _ _ _ _ _ Hf' Hf) as [-> _]; [congruence|]. destruct (s_file _ _ _ Hs _ _ _ Hf') as (_ & Hpv' & _).
      rewrite Hc. cbn. destruct (Z.ltb_spec (Z.of_nat (e_pos e)) 0); [lia|]. rewrite Nat2Z.id, Hr. cbn. f_equal. destruct r as [part sch cells]. cbn in *. congruence.
    + exfalso. pose proof (proj1 (lookup_first_None _ _) El f ltac:(apply files_elem; eauto)) as Hf0. cbn in Hf0. by rewrite Hty, Hp, !String.eqb_refl in Hf0.
Qed.
End Files.

Lemma loc_inj l e e' : NoDup (e_loc <$> l) → e ∈ l → e' ∈ l → e_loc e = e_loc e' → e = e'.
Proof.
  intros Hnd (i & Hi)%list_elem_of_lookup_1 (j & Hj)%list_elem_of_lookup_1 He. assert (i = j) as ->; [|congruence].
  eapply (NoDup_lookup _ _ _ (e_loc e) Hnd); rewrite list_lookup_fmap; [by rewrite Hi|rewrite Hj; cbn; by rewrite He].
Qed.

(** The world just before the commit, and what the commit makes of it. *)
Definition commits w l w' : Prop :=
  tied w l ∧ idle w ∧ closed upsert w ∧ pendingVectors (aw w) = ∅ ∧ named (srv w') = named (srv w)
  ∧ (∀ p n, row_at (srv w') p n = live_after (stored (srv w)) (concat (partition_files <$> (range (createdFiles (aw w))).*2)) (vectors (srv w) tid) (row0 p n) p n)
  ∧ ∃ snapshot, (∀ y, snapshot = Some y → - 2 ^ 63 ≤ y < 2 ^ 63 ∧ (y ≠ 0 → table_snapshot (srv w') = y)) ∧ (indexed = true → ∃ b i, indexThread (aw w) = Some b ∧ tableIndex w = Some i ∧ ∃ i', tableIndex w' = Some i'
      ∧ if decide (snapshot = None ∨ snapshot = Some 0) then i' = i else Index_Commit i b snapshot = Ok i').

Lemma close_commits w l fin w' :
  tied w l → idle w → Arrow_Close marshal_state fin w = (w', Ok ()) → ∃ w2, commits w2 l w'.
Proof.
  intros T Hidle. unfold Arrow_Close. intros (w1 & [] & H1 & H)%M_bind_Ok.
  edestruct (complete_tied time_format json_marshal schema_fields) as (T1 & Hidle1 & _ & Hcl1); [exact T|exact Hidle|exact H1|].
  apply M_bind_Ok in H as (w2 & [] & H2 & H).
  destruct (send_vectors_spec tid w1 w2) as (Hov & Hpv & Hv); [apply T1|apply T1|done|].
  assert (T2 : tied w2 l).
  { eapply (tied_vectors time_format json_marshal schema_fields); [exact T1|exact Hov|intros d Hd; by apply Hv|]. intros d Hd%Hv. by left. }
  assert (Hww : writers (aw w2) = writers (aw w1)) by (by rewrite (ov_aw _ _ Hov)).
  assert (Hidle2 : idle w2) by (intros k; unfold batch; rewrite Hww; apply Hidle1).
  assert (Hcl2 : closed upsert w2) by (intros k kd rw; unfold has_slot; rewrite Hww; apply Hcl1).
  apply M_bind_Ok in H as (? & ? & [-> ->]%gets_Ok & H). apply M_bind_Ok in H as (w3 & base_ & H3 & H).
  assert (w3 = w2) as -> by (unfold last_snapshot in H3; destruct (indexThread (aw w2)), (tableIndex w2); by injection H3).
  apply M_bind_Ok in H as (w4 & resp & Hsend & H). unfold send in Hsend. destruct (SendClientRequest _ _ _) as [s r] eqn:Es. injection Hsend as <- ->.
  rewrite (t_thread _ _ _ _ _ _ _ _ _ _ _ _ _ T2) in Es. pose proof (on_commit _ _ _ _ _ _ _ Es) as (Hnm & Hsnap & Hrow). rewrite (t_table _ _ _ _ _ _ _ _ _ _ _ _ _ T2) in Hrow.
  assert (Hs : srv w' = s).
  { unfold commit_index in H. cbn in H. destruct (indexThread (aw w2)) as [b|], (ar_SnapshotId resp) as [id|], (tableIndex w2) as [i|]; try by injection H as <-.
    destruct (id =? 0); [by injection H as <-|]. destruct (Index_Commit i b (Some id)); by injection H as <-. }
  exists w2. split_and!; try done; [by rewrite Hs..|]. exists (ar_SnapshotId resp).
  split; [intros y Hy; split; [by eapply snapshot_int64|rewrite Hs; by apply Hsnap]|]. intros Hi.
  destruct (t_index _ _ _ _ _ _ _ _ _ _ _ _ _ T2 Hi) as (b & i & Hb & Hti & _). exists b, i. split_and!; try done.
  unfold commit_index in H. cbn in H. rewrite Hb, Hti in H. destruct (ar_SnapshotId resp) as [sid|]; [|injection H as <-; exists i; split; [done|by case_decide; [|naive_solver]]].
  destruct (Z.eqb_spec sid 0) as [Hz|Hne]; [injection H as <-; exists i; split; [done|case_decide; [done|naive_solver]]|].
  destruct (Index_Commit i b (Some sid)) as [i'|?|?] eqn:Ec; [|done..]. injection H as <-. exists i'. split; [done|]. case_decide; [naive_solver|done].
Qed.

(** Every record became a row. *)
Lemma commits_rows w l w' : commits w l w' → ∀ e, e ∈ l → ∃ r, row_of e r.
Proof.
  intros (T & Hidle & _) e Hin. destruct (t_placed _ _ _ _ _ _ _ _ _ _ _ _ _ T e Hin) as [(row & _ & Hrow)|(i & Hi & _)]; [|by rewrite Hidle in Hi].
  by exists (mkRow (pvals (e_key e)) (e_schema e) row).
Qed.

(** The rows after the commit. *)
Lemma live_rows w l w' :
  commits w l w' → (∀ p n r, row0 p n = Some r → base p ∈ N0) → ∀ p n r, row_at (srv w') p n = Some r ↔
  (row0 p n = Some r ∧ ¬ (∃ k id, row_id r = Some id ∧ pvals k = tr_part r ∧ (k, id) ∈ l_eq (loggedc l)) ∧ ¬ (∃ k, (is_dv mode = true ∨ pvals k = tr_part r) ∧ (k, mkPosDelete p n) ∈ l_del (loggedc l)))
  ∨ (∃ e, e ∈ l ∧ e_loc e = mkPosDelete p n ∧ row_of e r ∧ ¬ (∃ k, (is_dv mode = true ∨ pvals k = pvals (e_key e)) ∧ (k, mkPosDelete p n) ∈ l_del (loggedc l))).
Proof.
  intros (T & Hidle & Hcl & Hsent & _ & Hrow & _) Hold p n r. rewrite Hrow. unfold live_after. destruct (row0 p n) as [r0|] eqn:E0.
  - assert (Hnot : ∀ e, e ∈ l → e_loc e ≠ mkPosDelete p n).
    { intros e Hin [= He _]. apply (t_new _ _ _ _ _ _ _ _ _ _ _ _ _ T e Hin). rewrite He. by eapply Hold. }
    destruct (_ || _) eqn:Ed.
    + apply orb_true_iff in Ed as [He|Hp]; [apply (equality_spec w l T Hidle Hcl Hsent) in He|apply (position_spec w l T Hidle Hcl Hsent) in Hp]; naive_solver.
    + apply orb_false_iff in Ed as [He Hp]. apply not_true_iff_false in He, Hp. rewrite (equality_spec w l T Hidle Hcl Hsent) in He. rewrite (position_spec w l T Hidle Hcl Hsent) in Hp. naive_solver.
  - destruct (new_row _ _ p n) as [r1|] eqn:En.
    + apply (new_row_spec w l T Hidle Hcl) in En as (e & Hin & Hloc & Hof). assert (Hpart : tr_part r1 = pvals (e_key e)) by apply Hof.
      assert (Huniq : ∀ e', e' ∈ l → e_loc e' = mkPosDelete p n → e' = e) by (intros e' Hin' He'; eapply loc_inj; [apply T|done..|congruence]).
      assert (Hsame : ∀ r', row_of e r' → r' = r1) by (intros [] (? & ? & ?); destruct r1, Hof as (? & ? & ?); cbn in *; congruence).
      destruct (position_deleted _ _ _ _ p n) eqn:Ep; [apply (position_spec w l T Hidle Hcl Hsent) in Ep|apply not_true_iff_false in Ep; rewrite (position_spec w l T Hidle Hcl Hsent) in Ep]; rewrite Hpart in Ep; split.
      * done.
      * intros [(? & _)|(e' & Hin' & Hl' & _ & Hnd)]; [done|]. rewrite (Huniq e') in Hnd by done. done.
      * intros [= <-]. right. exists e. by split_and!.
      * intros [(? & _)|(e' & Hin' & Hl' & Hof' & _)]; [done|]. rewrite (Huniq e') in Hof' by done. f_equal. symmetry. auto.
    + split; [done|]. intros [(? & _)|(e & Hin & Hl & Hof & _)]; [done|]. assert (new_row (stored (srv w)) (concat (partition_files <$> (range (createdFiles (aw w))).*2)) p n = Some r) by (apply (new_row_spec w l T Hidle Hcl); eauto). congruence.
Qed.
End Commit.

Section Runs.
Context {HE : GoEnv} {HR : GoRange} {HC : ServerClient} {HS : ArrowServer} {HX : StreamIndex} {HI : IndexSpec} {HP : ParquetLib}.
Context (murmur3 : list Z → Z) (fmt_g : spec_float → string) (time_format : string → gotime → string).
Context (json_marshal : any → option string) (marshal_state : MetadataState → string).
Context (schema_fields : string → option (list (Z * string))).
Implicit Types (w : world) (e : entry) (l : list entry).

(** The names of the files that are stored were given out. *)
Definition names_known (s : server) : Prop := ∀ p c, stored s !! p = Some c → base p ∈ named s.

(** A run of a writer thread: its batches and schema changes, then the commit. *)
Definition thread_run (tid : string) (stream : ConfiguredStream) (info : list PartitionInfo) (sch : gmap string string) (upsert : bool)
    (ops : list op) (fin : option MetadataState) (s : server) (i : option index) : world * result unit :=
  match Arrow_New schema_fields tid stream info sch upsert s i with
  | (w, Ok _) => (for_each (run_op murmur3 fmt_g time_format json_marshal schema_fields) ops ;; Arrow_Close marshal_state fin) w
  | (w, r) => (w, r)
  end.

Lemma start_tied pvals (upsert indexed : bool) m0 snap0 room0 tid stream info sch s0 i0 w :
  Arrow_New schema_fields tid stream info sch upsert s0 i0 = (w, Ok ()) → names_known s0 → vectors s0 tid = [] →
  (if indexed then ∃ i, i0 = Some i ∧ index_ready i m0 snap0 room0 else i0 = None) →
  tied json_marshal pvals (named s0) upsert indexed (GetUpdateType stream) m0 snap0 room0 tid (row_at s0) w [] ∧ idle w ∧ ready info stream w sch.
Proof.
  intros Hnew Hnames Hvec Hix. unfold Arrow_New in Hnew. apply (initialize_spec schema_fields) in Hnew as (j & m & ids & s & -> & Hm & _ & Hst & Hn & Hv & Hr). cbn in *.
  set (w := mkWorld _ _ _). assert (Hb : ∀ k, batch w k = no_writer) by done.
  assert (Hslot : ∀ k kd rw, ¬ has_slot w k kd rw) by (intros k kd rw (x & Hx & _); change (writers (aw w)) with (∅ : gmap string Writer_) in Hx; by rewrite lookup_empty in Hx).
  assert (Hcr : ∀ k kd, created w k kd = []) by (intros k kd; by destruct kd).
  assert (Hrow : ∀ k kd p n sc row, ¬ holds_row w k kd p n sc row).
  { intros k kd p n sc row [(f & c & Hf & _)|(rw & Hs & _)]; [by rewrite Hcr in Hf; apply not_elem_of_nil in Hf|by apply Hslot in Hs]. }
  assert (Hin : ∀ k kd row, ¬ in_file w k kd row) by (intros k kd row (p & n & sc & Hh); by apply Hrow in Hh).
  assert (Hnv : ∀ d, ¬ vector_has tid w d).
  { intros d [(v & Hvv & _)|(pv & Hpv & _)]; [|change (pendingVectors (aw w)) with (∅ : gmap string pendingVector) in Hpv; by rewrite lookup_empty in Hpv]. cbn in Hvv. rewrite Hv, Hvec in Hvv. by apply not_elem_of_nil in Hvv. }
  assert (Hnil : ∀ {A} (x : A), ¬ x ∈ []) by (intros A x; apply not_elem_of_nil). split_and!; [|done|split; cbn; eauto]. split; try done.
  - split; try done.
    + intros k kd f Hf. by rewrite Hcr in Hf; apply Hnil in Hf.
    + intros k kd f ? ? ? Hf. by rewrite Hcr in Hf; apply Hnil in Hf.
    + intros k kd rw Hs. by apply Hslot in Hs.
    + intros k kd rw ? ? ? Hs. by apply Hslot in Hs.
    + unfold w. cbn. rewrite Hst, Hn. exact Hnames.
    + unfold w. cbn. by rewrite Hn.
  - intros e He. by apply Hnil in He.
  - intros k p n sc row Hh. by apply Hrow in Hh.
  - intros e He. by apply Hnil in He.
  - constructor.
  - intros k id. rewrite Hb. cbn. split; [intros [?%Hin|?%Hnil]; done|intros ?%Hnil; done].
  - intros _ k d. unfold queued. rewrite Hb. cbn. split; [intros [?%Hin|?%Hnil]; done|intros ?%Hnil; done].
  - intros _ d. unfold queued. split; [intros [?%Hnv|[k Hk%Hnil]]; done|intros [k Hk%Hnil]; done].
  - intros ->. subst i0. done.
  - intros ->. destruct Hix as (i & -> & Hh). exists NewStreamIndexThread, i. split_and!; try done. intros id. cbn. by rewrite map_empty_union.
Qed.

Lemma run_commits pvals (upsert indexed : bool) m0 snap0 room0 tid stream info sch ops fin s0 i0 w' :
  thread_run tid stream info sch upsert ops fin s0 i0 = (w', Ok ()) → names_known s0 → vectors s0 tid = [] →
  (if indexed then ∃ i, i0 = Some i ∧ index_ready i m0 snap0 room0 else i0 = None) → (is_dv (GetUpdateType stream) = true → indexed = true) →
  partitioned murmur3 fmt_g time_format pvals upsert indexed tid info stream (tagged sch ops) →
  ∃ w2 es, commits json_marshal pvals (named s0) upsert indexed (GetUpdateType stream) m0 snap0 room0 tid (row_at s0) w2 es w'
  ∧ Forall2 (entry_for murmur3 fmt_g time_format upsert indexed tid info stream) (tagged sch ops) es ∧ NoDup (e_loc <$> es)
  ∧ (∀ p n r, row_at s0 p n = Some r → base p ∈ named s0).
Proof.
  intros Hrun Hnames Hvec Hix Hdv Hpart. unfold thread_run in Hrun. destruct (Arrow_New _ _ _ _ _ _ _ _) as [w [[]|?|?]] eqn:Enew; [|done..].
  destruct (start_tied pvals upsert indexed m0 snap0 room0 _ _ _ _ _ _ _ Enew Hnames Hvec Hix) as (T & Hidle & Hre).
  apply M_bind_Ok in Hrun as (w1 & [] & Hops & Hclose).
  edestruct ops_tied as (es & T1 & Hes & Hidle1); [exact Hdv|exact T|exact Hidle|exact Hre|exact Hpart|exact Hops|]. cbn [app] in T1.
  edestruct (close_commits time_format json_marshal marshal_state schema_fields) as [w2 Hc]; [exact T1|exact Hidle1|exact Hclose|]. exists w2, es. split_and!; [done|done|apply T1|].
  intros p n r [c Hc']%row_stored. by eapply Hnames.
Qed.

(** A row carries the identity of its record. *)
Lemma id_cell_row schema out cells id :
  mapM_result (record_cell json_marshal out) schema = Ok cells → OlakeColumns out !! OlakeID = Some (AString id) →
  (∀ f, f ∈ schema → af_Name f = OlakeID → af_Type f = ArrowString) → (∃ f, f ∈ schema ∧ af_Name f = OlakeID) → id_cell schema cells = Some id.
Proof.
  intros Hm%mapM_Forall2 Hid. induction Hm as [|f c schema cells Hc Hm IH]; intros Hty (f0 & Hin & Hn); [by apply not_elem_of_nil in Hin|]. cbn.
  destruct (String.eqb_spec (af_Name f) OlakeID) as [He|He].
  - unfold record_cell, record_value in Hc. rewrite He, Hid, (Hty f ltac:(left) He) in Hc. cbn in Hc. by injection Hc as <-.
  - apply IH; [set_solver|]. apply elem_of_cons in Hin as [->|Hin]; [done|eauto].
Qed.

Lemma createFields_id (sch : gmap string string) ids : sch !! OlakeID = Some "string" →
  (∀ f, f ∈ createFields sch ids → af_Name f = OlakeID → af_Type f = ArrowString) ∧ ∃ f, f ∈ createFields sch ids ∧ af_Name f = OlakeID.
Proof.
  intros Hs. unfold createFields. split.
  - intros f (name & -> & _)%list_elem_of_fmap. cbn. intros ->. by rewrite Hs.
  - eexists. split; [apply list_elem_of_fmap; exists OlakeID; split; [done|]|done]. rewrite merge_sort_Permutation. apply list_elem_of_fmap. exists (OlakeID, "string"). split; [done|]. by apply elem_of_range.
Qed.

Lemma row_identity pvals upsert indexed tid info stream sr e r :
  entry_for murmur3 fmt_g time_format upsert indexed tid info stream sr e → sr.1 !! OlakeID = Some "string" → row_of json_marshal pvals e r → row_id r = Some (e_id e).
Proof.
  intros [Hrec [ids Hsch] _ Hid _ Hout] Hs (_ & Hs' & Hrow). unfold row_id. rewrite Hs', Hsch in *. destruct (createFields_id sr.1 ids Hs).
  eapply id_cell_row; [exact Hrow| |done..]. destruct Hout as [->|[-> _]]; rewrite Hrec; [done|]. cbn. by rewrite lookup_insert_ne.
Qed.

(** C9: a committed thread without an index, with equality or positional deletes, leaves the
    last version of every record.  For any batches and schema changes, whatever sizes make
    files roll over and however the server names them, provided that records of the run
    with the same partition directory have the same partition values (an identity
    transform of timestamps breaks that, [timestamp_identity_collides]; a table without
    partitions never does, [unpartitioned_ok]), the rows of the table after the commit
    are: the rows that were there, except those whose identity was touched in their
    partition, and one row per record of the run that no later record of the same
    partition and identity replaces, holding the record's values in the columns of its
    time.  In append mode, and for records of a snapshot (["r"]), nothing is replaced; the
    records that do replace are deletes, updates and inserts, those marked ["c"] included. *)
Theorem arrow_last_version_wins pvals tid stream info sch upsert ops fin s0 w' :
  thread_run tid stream info sch upsert ops fin s0 None = (w', Ok ()) → names_known s0 → vectors s0 tid = [] →
  GetUpdateType stream ≠ UpdateTypeDeletionVector →
  partitioned murmur3 fmt_g time_format pvals upsert false tid info stream (tagged sch ops) →
  ∃ es, Forall2 (entry_for murmur3 fmt_g time_format upsert false tid info stream) (tagged sch ops) es ∧ NoDup (e_loc <$> es)
  ∧ (∀ p n r, row_at (srv w') p n = Some r ↔
      (row_at s0 p n = Some r ∧ ¬ ∃ e, e ∈ es ∧ touches upsert e = true ∧ pvals (e_key e) = tr_part r ∧ row_id r = Some (e_id e))
      ∨ ∃ e, e ∈ es ∧ ¬ superseded upsert es e ∧ e_loc e = mkPosDelete p n ∧ row_of json_marshal pvals e r)
  ∧ (∀ e, e ∈ es → ∃ r, row_of json_marshal pvals e r)
  ∧ ∀ e r, e ∈ es → row_of json_marshal pvals e r → (∀ sr, sr ∈ tagged sch ops → sr.1 !! OlakeID = Some "string") → row_id r = Some (e_id e).
Proof.
  intros Hrun Hnames Hvec Hmode Hpart.
  assert (Hdv : is_dv (GetUpdateType stream) = false) by (by apply String.eqb_neq).
  edestruct (run_commits pvals upsert false ∅ 0 0) as (w2 & es & Hc & Hes & Hnd & Hold); [exact Hrun|done|done|done|congruence|done|].
  exists es. split_and!; [done|done| |by eapply commits_rows|].
  2: { intros e r (i & Hi)%list_elem_of_lookup_1 Hr Hid. destruct (Forall2_lookup_r _ _ _ _ _ Hes Hi) as (sr & Hsr & He). eapply row_identity; [exact He| |done]. apply Hid. by eapply list_elem_of_lookup_2. }
  intros p n r. pose proof (live_rows time_format json_marshal schema_fields _ _ _ _ _ _ _ _ _ _ _ _ _ Hc Hold p n r) as Hlive. etransitivity; [exact Hlive|]. clear Hlive. rewrite Hdv. setoid_rewrite memory_eq. setoid_rewrite memory_del.
  assert (Hnew : ∀ e, e ∈ es → base (e_path e) ∉ named s0) by (apply Hc). split.
  - intros [(Hr & Hne & _)|(e & Hin & Hl & Hof & Hnd')]; [left; split; [done|]; naive_solver|]. right. exists e. split_and!; try done. intros Hs. apply Hnd'. exists (e_key e). split; [by right|]. by exists e.
  - intros [(Hr & Hne)|(e & Hin & Hns & Hl & Hof)].
    + left. split_and!; [done|naive_solver|]. intros (k & _ & e & (l1 & l2 & -> & _) & _ & [= He _]). apply (Hnew e); [set_solver|]. rewrite He. by eapply Hold.
    + right. exists e. split_and!; try done. intros (k & _ & e' & Hs & _ & Hl'). assert (e' = e) as -> by (eapply loc_inj; [exact Hnd|destruct Hs as (? & ? & -> & _); set_solver|done|congruence]). done.
Qed.

(** Without partitions every record is in the one partition without values. *)
Lemma unpartitioned_ok upsert indexed tid stream recs : partitioned murmur3 fmt_g time_format (λ _, []) upsert indexed tid [] stream recs.
Proof. intros sch rec ts k vs _ _ [= <- <-]. reflexivity. Qed.
End Runs.

(** ** Witnesses: a server that keeps its objects and rows, and a run in two partitions
    whose data files roll over after every row and whose schema grows in between *)
Section Witnesses.
#[local] Instance wa_range : GoRange := sorted_range.
#[local] Instance wa_env : GoEnv := bare_env.
#[local] Instance wa_store : KVStore := map_store.
Record memory_server := mkServer {
  ms_stored : gmap string parquet_file; ms_named : gset string; ms_vectors : gmap string (list DVEntry); ms_count : Z; ms_snapshot : Z;
  ms_row_at : string → Z → option trow;
  ms_row_stored : ∀ p n r, ms_row_at p n = Some r → is_Some (ms_stored !! p)
}.
Definition ms_vectors_of (s : memory_server) (t : string) : list DVEntry := default [] (ms_vectors s !! t).
Lemma upload_keeps (s : memory_server) p f q n r : ms_row_at s q n = Some r → is_Some (<[p := f]> (ms_stored s) !! q).
Proof. intros [c Hc]%ms_row_stored. destruct (decide (q = p)) as [->|Hne]; [rewrite lookup_insert_eq; eauto|rewrite lookup_insert_ne by done; eauto]. Qed.
Definition after_commit (s : memory_server) (files : list FileMetadata) (t p : string) (n : Z) : option trow :=
  live_after (ms_stored s) files (ms_vectors_of s t) (ms_row_at s p n) p n.
Lemma commit_stored s files t p n r : after_commit s files t p n = Some r → is_Some (ms_stored s !! p).
Proof.
  unfold after_commit, live_after. destruct (ms_row_at s p n) as [r0|] eqn:E; [intros _; by eapply ms_row_stored|].
  unfold new_row. destruct (lookup_first _ _); [|done]. cbn. by destruct (ms_stored s !! p).
Qed.
Definition reply (path : string) (snapshot : option Z) : result ArrowIngestResponse := Ok (mkArrowResp path ∅ snapshot).
Definition ms_request (s : memory_server) (t : string) (req : ArrowPayload) : memory_server * result ArrowIngestResponse :=
  match req with
  | JSONSCHEMA => (s, Ok (mkArrowResp "" {["data" := "data"; "equalityDelete" := "delete"]} None))
  | FILEPATH =>
      let path := "warehouse/" +:+ pretty (ms_count s) in
      if decide (base path ∈ ms_named s) then (s, Err "name taken")
      else (mkServer (ms_stored s) ({[base path]} ∪ ms_named s) (ms_vectors s) (ms_count s + 1) (ms_snapshot s) (ms_row_at s) (ms_row_stored s), reply path None)
  | UPLOAD_FILE f p => (mkServer (<[p := f]> (ms_stored s)) (ms_named s) (ms_vectors s) (ms_count s) (ms_snapshot s) (ms_row_at s) (upload_keeps s p f), reply "" None)
  | DELETION_VECTORS es =>
      (mkServer (ms_stored s) (ms_named s) (<[t := ms_vectors_of s t ++ es]> (ms_vectors s)) (ms_count s) (ms_snapshot s) (ms_row_at s) (ms_row_stored s), reply "" None)
  | REGISTER_AND_COMMIT files _ _ =>
      (mkServer (ms_stored s) (ms_named s) (<[t := []]> (ms_vectors s)) (ms_count s) 7 (after_commit s files t) (commit_stored s files t), reply "" (Some 7))
  end.
#[local] Instance ms_client : ServerClient := {| server := memory_server; SendClientRequest := ms_request |}.
#[local] Instance ms_server : ArrowServer.
Proof.
  refine {| stored := ms_stored; named := ms_named; vectors := ms_vectors_of; row_at := ms_row_at : server → _; table_snapshot := ms_snapshot |}.
  - apply ms_row_stored.
  - by intros s t s' resp [= <- <-].
  - intros s t s' resp. cbn. case_decide; [done|]. by intros [= <- <-].
  - by intros s t f p s' resp [= <- <-].
  - intros s t es s' resp [= <- <-]. split_and!; try done. unfold ms_vectors_of. cbn. by rewrite lookup_insert_eq.
  - intros s t files payload base_ s' resp [= <- <-]. split_and!; try done. by intros y [= <-].
  - intros s t req s' resp. destruct req; cbn; try (case_decide; [done|]); intros [= _ <-] y; cbn; try done. by intros [= <-].
Defined.
#[local] Instance ms_parquet : ParquetLib := {|
  size_so_far _ rows := Z.of_nat (length rows) * targetDataFileSize;
  open_error _ := None; write_error _ _ _ := None; close_error _ _ := None |}.

Definition id_field : arrow_field := mkArrowField OlakeID ArrowString false 1.
Definition old_row : trow := mkRow [StringValue "oslo"] [id_field] [Some (CString "1")].
Definition old_rows (p : string) (n : Z) : option trow := if String.eqb p "warehouse/old" && (n =? 0) then Some old_row else None.
Definition old_files : gmap string parquet_file := {["warehouse/old" := mkParquet [id_field] [] [[Some (CString "1")]]]}.
Lemma old_stored p n r : old_rows p n = Some r → is_Some (old_files !! p).
Proof. unfold old_rows. destruct (String.eqb_spec p "warehouse/old") as [->|]; [|done]. intros _. by eexists. Qed.
Definition start_server : memory_server := mkServer old_files {["old"]} ∅ 0 3 old_rows old_stored.

Definition rec_of (id op city : string) : RawRecord :=
  mkRaw {["city" := AString city]} {[OlakeID := AString id; OpType := AString op; OlakeTimestamp := ATime (mkTime 0 0 0)]}.
Definition narrow : gmap string string := {[OlakeID := "string"; "city" := "string"]}.
Definition wide : gmap string string := <[OpType := "string"]> narrow.
Definition sample_ops : list op :=
  [OWrite [rec_of "1" "u" "oslo"; rec_of "2" "c" "rome"; rec_of "1" "u" "oslo"]; OEvolve wide; OWrite [rec_of "2" "d" "rome"; rec_of "3" "r" "oslo"]].
Definition by_city : list PartitionInfo := [mkPartition "city" "city" "identity"].
Definition sample_fields (json : string) : option (list (Z * string)) := Some [(1, OlakeID); (2, "city"); (3, OpType)].
Definition sample_run : world * result unit :=
  thread_run (λ _, 0) (λ _, "") (λ _ _, "") (λ _, None) (λ _, "") sample_fields "t" users by_city narrow true sample_ops None start_server None.

Definition city_values (k : string) : list PartitionValue := if String.eqb k "city=oslo" then [StringValue "oslo"] else [StringValue "rome"].

Lemma sample_partitioned : partitioned (λ _, 0) (λ _, "") (λ _ _, "") city_values true false "t" by_city users (tagged narrow sample_ops).
Proof.
  intros sch rec ts k vs Hin. cbn in Hin.
  repeat (apply elem_of_cons in Hin as [[= -> ->]|Hin]; [intros _; vm_compute; by intros [= <- <-]|]). by apply not_elem_of_nil in Hin.
Qed.
Lemma start_names : names_known start_server.
Proof.
  intros p c. cbn. unfold old_files. destruct (decide (p = "warehouse/old")) as [->|Hne]; [intros _; by vm_compute|].
  by rewrite lookup_singleton_ne.
Qed.

Lemma arrow_last_version_wins_witness :
  sample_run.2 = Ok () ∧ ∃ es, length es = 5%nat ∧ NoDup (e_loc <$> es)
  ∧ row_at (srv sample_run.1) "warehouse/old" 0 = None ∧ row_at (srv sample_run.1) "warehouse/city=oslo/0" 0 = None
  ∧ ∃ e, e ∈ es ∧ ¬ superseded true es e ∧ e_loc e = mkPosDelete "warehouse/city=oslo/0" 1.
Proof.
  assert (Hok : sample_run.2 = Ok ()) by (vm_compute; reflexivity). split; [exact Hok|].
  assert (Hgone : row_at (srv sample_run.1) "warehouse/old" 0 = None ∧ row_at (srv sample_run.1) "warehouse/city=oslo/0" 0 = None) by (split; vm_compute; reflexivity).
  assert (Hlive : is_Some (row_at (srv sample_run.1) "warehouse/city=oslo/0" 1)) by (vm_compute; eauto).
  assert (Hold : row_at (start_server : server) "warehouse/city=oslo/0" 1 = None) by reflexivity.
  destruct sample_run as [w r] eqn:Hrun. cbn [fst snd] in *. subst r.
  destruct (arrow_last_version_wins (HC := ms_client) (λ _, 0) (λ _, "") (λ _ _, "") (λ _, None) (λ _, "") sample_fields city_values "t" users by_city narrow true
              sample_ops None start_server w Hrun start_names) as (es & Hes & Hnd & Hrows & _); [reflexivity|by vm_compute|exact sample_partitioned|].
  clear Hrun. exists es. destruct Hgone as [Ho Hd]. split_and!; [by rewrite <- (Forall2_length _ _ _ Hes)|done|done|done|].
  destruct Hlive as [row [[Hr _]|(e & ? & ? & ? & _)]%Hrows]; [congruence|by exists e].
Defined.
End Witnesses.
