(* ===== verification/ArrowIndexFacts.v ===== *)
(** * Theorems about the Arrow writer with a stream index

    With an index, a record that may replace an older one looks its identity up and
    deletes the row it finds by position.  If the index agrees with the table when the
    thread starts, it agrees again after the commit, and the table holds the last
    version of every record of the run and every older row the run did not touch. *)

From S2P Require Import Prelude GoString GoSet DataTypes QueryEngine Value ValueFacts Schema Stream StreamFacts Catalog State StateFacts Fields Writers TwoPC IndexDB IndexDBFacts Jdbc Chunking Transforms ArrowWriter ArrowWriterFacts ArrowUpsertFacts ArrowCommitFacts.

(** The index finds every row of the table.  It may also hold locations of rows that are
    gone, but never the location of a row that is there under another identity. *)
Record covers (m : gmap string RowLocation) (rows : string → Z → option trow) (names : gset string) : Prop := {
  c_found : ∀ p n r id, rows p n = Some r → row_id r = Some id → m !! id = Some (mkLocation p n);
  c_sane : ∀ id p n, m !! id = Some (mkLocation p n) → base p ∈ names ∧ ∀ r, rows p n = Some r → row_id r = Some id
}.

(** Records whose identity no row has: ["c"] and ["r"] are not looked up. *)
Definition inserts_fresh (row0 : string → Z → option trow) (recs : list (gmap string string * RawRecord)) : Prop :=
  ∀ l1 sr l2, recs = l1 ++ sr :: l2 → looked_up (text_of sr.2 OpType) = false →
  (∀ p n r, row0 p n = Some r → row_id r ≠ Some (text_of sr.2 OlakeID)) ∧ ∀ sr', sr' ∈ l1 → text_of sr'.2 OlakeID ≠ text_of sr.2 OlakeID.

Lemma to_delete_Some (m : gmap string RowLocation) id p n : to_delete <$> m !! id = Some (mkPosDelete p n) ↔ m !! id = Some (mkLocation p n).
Proof. destruct (m !! id) as [[q k]|]; cbn; [|done]. unfold to_delete. cbn. split; by intros [= -> ->]. Qed.

Section Replace.
Context (m0 : gmap string RowLocation) (l : list entry) (row0 : string → Z → option trow) (N0 : gset string).
Hypotheses (Hcov : covers m0 row0 N0) (Hnd : NoDup (e_loc <$> l)).
Hypotheses (Hnew : ∀ e, e ∈ l → base (e_path e) ∉ N0) (Hold : ∀ p n r, row0 p n = Some r → base p ∈ N0).
Hypothesis Hfresh : ∀ l1 e l2, l = l1 ++ e :: l2 → looked_up (e_op e) = false →
  (∀ p n r, row0 p n = Some r → row_id r ≠ Some (e_id e)) ∧ ∀ e', e' ∈ l1 → e_id e' ≠ e_id e.
Implicit Types (e : entry).

Abbreviation logi := (log_of true true m0).

Lemma old_location id p n : m0 !! id = Some (mkLocation p n) → base p ∈ N0.
Proof. intros Hm. by eapply c_sane. Qed.

(** An older row is deleted when a record of its identity comes. *)
Lemma old_deleted p n r id : row0 p n = Some r → row_id r = Some id →
  (∃ k, (k, mkPosDelete p n) ∈ l_del (logi l)) → ∃ e, e ∈ l ∧ e_id e = id.
Proof.
  intros Hr Hid (k & (l1 & e & l2 & Hl & _ & _ & _ & Hat)%index_del). exists e. split; [rewrite Hl; set_solver|].
  apply index_at in Hat as [(e' & (la & lb & Hla & _) & [= Hp _])|[_ Hm%to_delete_Some]].
  - destruct (Hnew e'); [rewrite Hl, Hla; set_solver|]. rewrite Hp. by eapply Hold.
  - pose proof (proj2 (c_sane _ _ _ Hcov _ _ _ Hm) r Hr). congruence.
Qed.
Lemma old_deletes p n r e : row0 p n = Some r → row_id r = Some (e_id e) → e ∈ l →
  ∃ e1, e1 ∈ l ∧ e_id e1 = e_id e ∧ (e_key e1, mkPosDelete p n) ∈ l_del (logi l).
Proof.
  intros Hr Hid Hin. destruct (first_with l e Hin) as (l1 & e1 & l2 & Hl & He & Hno). exists e1. split_and!; [rewrite Hl; set_solver|done|].
  assert (Hm : m0 !! e_id e1 = Some (mkLocation p n)) by (eapply c_found; [exact Hcov|exact Hr|by rewrite He]).
  apply index_del. exists l1, e1, l2. split_and!; try done.
  - destruct (looked_up (e_op e1)) eqn:Eu; [done|]. destruct (Hfresh _ _ _ Hl Eu) as [Hf _]. destruct (Hf p n r Hr). by rewrite He.
  - apply index_at. right. split; [by rewrite He|by apply to_delete_Some].
Qed.

(** A row of the run is deleted when a later record has its identity. *)
Lemma new_deleted e : e ∈ l → (∃ k, (k, e_loc e) ∈ l_del (logi l)) → ¬ last_of l (e_id e) e.
Proof.
  intros Hin (k & (l1 & e1 & l2 & Hl & _ & _ & _ & Hat)%index_del) Hlast.
  apply index_at in Hat as [(e' & (la & lb & Hla & Hi & _) & He')|[_ Hm%to_delete_Some%old_location]]; [|by eapply Hnew].
  assert (e' = e) as -> by (eapply loc_inj; [done|rewrite Hl, Hla; set_solver|done|done]).
  destruct (last_of_exists (e1 :: l2) e1) as (e2 & lc & ld & Hl2 & Hi2 & Hlast2); [set_solver|].
  assert (last_of l (e_id e) e2) as H2.
  { exists (l1 ++ lc), ld. split_and!; [rewrite Hl, Hl2; by rewrite <- app_assoc|congruence|by rewrite Hi]. }
  rewrite (last_of_unique _ _ _ _ H2 Hlast) in *. rewrite Hl, fmap_app in Hnd. apply NoDup_app in Hnd as (_ & Hdis & _).
  eapply (Hdis (e_loc e)); apply list_elem_of_fmap; exists e; (split; [done|]); [rewrite Hla; set_solver|rewrite Hl2; set_solver].
Qed.
Lemma new_deletes e : e ∈ l → ¬ last_of l (e_id e) e → ∃ e1, e1 ∈ l ∧ e_id e1 = e_id e ∧ (e_key e1, e_loc e) ∈ l_del (logi l).
Proof.
  intros (la & lb & Hl)%list_elem_of_split Hnot.
  destruct (decide (List.Exists (λ e', e_id e' = e_id e) lb)) as [(e' & Hin & He')%Exists_exists|Hno].
  - destruct (first_with lb e' Hin) as (l1 & e1 & l2 & Hlb & He1 & Hfirst). exists e1. split_and!; [rewrite Hl, Hlb; set_solver|congruence|].
    assert (Hl' : l = (la ++ e :: l1) ++ e1 :: l2) by (rewrite Hl, Hlb; by rewrite <- app_assoc).
    apply index_del. exists (la ++ e :: l1), e1, l2. split_and!; try done.
    + destruct (looked_up (e_op e1)) eqn:Eu; [done|]. destruct (Hfresh _ _ _ Hl' Eu) as [_ Hf]. destruct (Hf e); [set_solver|congruence].
    + apply index_at. left. exists e. split; [|done]. exists la, l1. split_and!; [done|congruence|]. intros e'' Hin''. rewrite He1. by apply Hfirst.
  - destruct Hnot. exists la, lb. split_and!; try done. intros e' Hin' He'. apply Hno, Exists_exists. eauto.
Qed.
End Replace.

Section Runs.
Context {HE : GoEnv} {HR : GoRange} {HC : ServerClient} {HS : ArrowServer} {HX : StreamIndex} {HI : IndexSpec} {HP : ParquetLib}.
Context (murmur3 : list Z → Z) (fmt_g : spec_float → string) (time_format : string → gotime → string).
Context (json_marshal : any → option string) (marshal_state : MetadataState → string).
Context (schema_fields : string → option (list (Z * string))).
Implicit Types (w : world) (e : entry) (l : list entry).

(** A position in a file is below the number of records of the run. *)
Lemma position_bound pvals N0 upsert indexed mode m0 snap0 room0 tid row0 w l e :
  tied json_marshal pvals N0 upsert indexed mode m0 snap0 room0 tid row0 w l → idle w → e ∈ l → (e_pos e < length l)%nat.
Proof.
  intros T Hidle Hin. destruct (t_placed _ _ _ _ _ _ _ _ _ _ _ _ _ T e Hin) as [(row & Hrow & _)|(i & Hi & _)]; [|by rewrite Hidle in Hi].
  assert (Hbelow : ∀ n, (n ≤ e_pos e)%nat → ∃ row', holds_row w (e_key e) KData (e_path e) n (e_schema e) row').
  { intros n Hn. destruct Hrow as [(f & c & Hf & Hp & Hc & Hs & Hr)|(rw & Hs & Hp & Hsc & Hr)].
    - destruct (lookup_lt_is_Some_2 (pf_rows c) n) as [row' Hr']; [apply lookup_lt_Some in Hr; lia|]. exists row'. left. by exists f, c.
    - destruct (lookup_lt_is_Some_2 (rw_rows rw) n) as [row' Hr']; [apply lookup_lt_Some in Hr; lia|]. exists row'. right. by exists rw. }
  assert (Hsub : ((λ n, mkPosDelete (e_path e) (Z.of_nat n)) <$> seq 0 (S (e_pos e))) ⊆+ (e_loc <$> l)).
  { apply NoDup_submseteq; [apply NoDup_fmap_2; [intros ? ? [= ?]; lia|apply NoDup_seq]|].
    intros d (n & -> & Hn%elem_of_seq)%list_elem_of_fmap. destruct (Hbelow n ltac:(lia)) as [row' Hr'].
    apply (t_rows _ _ _ _ _ _ _ _ _ _ _ _ _ T) in Hr' as (e' & Hin' & _ & Hp & Hpos & _). apply list_elem_of_fmap. exists e'. split; [|done]. unfold e_loc. congruence. }
  apply submseteq_length in Hsub. rewrite !length_fmap, length_seq in Hsub. lia.
Qed.

(** What the index holds for a run, against its log. *)
Lemma ids_bound (c : gmap string RowLocation) l : dom c ⊆ (list_to_set (e_id <$> l) : gset string) → (size c ≤ length l)%nat.
Proof.
  intros Hd%subseteq_size. rewrite size_dom in Hd. etransitivity; [exact Hd|]. clear Hd. induction l as [|e l IH]; [done|]. cbn.
  rewrite size_union_alt, size_singleton. pose proof (subseteq_size (list_to_set (e_id <$> l) ∖ {[e_id e]} : gset string) (list_to_set (e_id <$> l))). set_solver by lia.
Qed.

(** Records of one identity are of one partition, that of the row the table has. *)
Definition stays (pvals : string → list PartitionValue) (tid : string) (info : list PartitionInfo) (stream : ConfiguredStream)
    (recs : list (gmap string string * RawRecord)) (row0 : string → Z → option trow) : Prop :=
  ∀ sr ts k vs, sr ∈ recs → partition_of murmur3 fmt_g time_format true true tid info stream sr.1 sr.2 ts = Ok (k, vs) →
  (∀ sr' ts' k' vs', sr' ∈ recs → partition_of murmur3 fmt_g time_format true true tid info stream sr'.1 sr'.2 ts' = Ok (k', vs') →
     text_of sr.2 OlakeID = text_of sr'.2 OlakeID → pvals k = pvals k')
  ∧ ∀ p n r, row0 p n = Some r → row_id r = Some (text_of sr.2 OlakeID) → tr_part r = pvals k.

Section Run.
Context (pvals : string → list PartitionValue) (m0 : gmap string RowLocation) (snap0 : Z) (room0 : nat) (tid : string) (stream : ConfiguredStream).
Context (info : list PartitionInfo) (recs : list (gmap string string * RawRecord)) (row0 : string → Z → option trow) (N0 : gset string).
Context (w w' : world) (es : list entry).
Abbreviation mode := (GetUpdateType stream).
Hypothesis Hc : commits json_marshal pvals N0 true true mode m0 snap0 room0 tid row0 w es w'.
Hypothesis Hes : Forall2 (entry_for murmur3 fmt_g time_format true true tid info stream) recs es.
Hypothesis Hold : ∀ p n r, row0 p n = Some r → base p ∈ N0.
Hypotheses (Hcov : covers m0 row0 N0) (Hinserts : inserts_fresh row0 recs).
Hypothesis Hids : ∀ sr, sr ∈ recs → sr.1 !! OlakeID = Some "string".
Hypothesis Hstay : is_dv mode = false → stays pvals tid info stream recs row0.

Lemma entry_record e : e ∈ es → ∃ sr, sr ∈ recs ∧ entry_for murmur3 fmt_g time_format true true tid info stream sr e.
Proof. intros (i & Hi)%list_elem_of_lookup_1. destruct (Forall2_lookup_r _ _ _ _ _ Hes Hi) as (sr & Hsr & He). exists sr. split; [by eapply list_elem_of_lookup_2|done]. Qed.
Lemma entries_fresh l1 e l2 : es = l1 ++ e :: l2 → looked_up (e_op e) = false →
  (∀ p n r, row0 p n = Some r → row_id r ≠ Some (e_id e)) ∧ ∀ e', e' ∈ l1 → e_id e' ≠ e_id e.
Proof.
  intros ->. apply Forall2_app_inv_r in Hes as (r1 & r2' & H1 & H2 & Hr). apply Forall2_cons_inv_r in H2 as (sr & r2 & He & H2 & ->).
  intros Hop. destruct (Hinserts r1 sr r2 Hr) as [Hm Hf]; [unfold e_op in Hop; by rewrite (ef_rec _ _ _ _ _ _ _ _ _ _ He) in Hop|].
  unfold e_id. rewrite (ef_rec _ _ _ _ _ _ _ _ _ _ He). split; [done|]. intros e' (i & Hi)%list_elem_of_lookup_1.
  destruct (Forall2_lookup_r _ _ _ _ _ H1 Hi) as (sr' & Hsr' & He'). rewrite (ef_rec _ _ _ _ _ _ _ _ _ _ He'). apply Hf. by eapply list_elem_of_lookup_2.
Qed.
Lemma entry_stays e e' : is_dv mode = false → e ∈ es → e' ∈ es → e_id e = e_id e' → pvals (e_key e) = pvals (e_key e').
Proof.
  intros Hdv (sr & Hsr & He)%entry_record (sr' & Hsr' & He')%entry_record Hid.
  destruct (ef_part _ _ _ _ _ _ _ _ _ _ He) as (ts & vs & _ & Hk). destruct (ef_part _ _ _ _ _ _ _ _ _ _ He') as (ts' & vs' & _ & Hk').
  eapply (Hstay Hdv); [exact Hsr|exact Hk|exact Hsr'|exact Hk'|]. rewrite <- (ef_rec _ _ _ _ _ _ _ _ _ _ He), <- (ef_rec _ _ _ _ _ _ _ _ _ _ He'). exact Hid.
Qed.
Lemma old_stays e p n r : is_dv mode = false → e ∈ es → row0 p n = Some r → row_id r = Some (e_id e) → tr_part r = pvals (e_key e).
Proof.
  intros Hdv (sr & Hsr & He)%entry_record Hr Hid. destruct (ef_part _ _ _ _ _ _ _ _ _ _ He) as (ts & vs & _ & Hk).
  eapply (Hstay Hdv); [exact Hsr|exact Hk|exact Hr|]. by rewrite <- (ef_rec _ _ _ _ _ _ _ _ _ _ He).
Qed.
Lemma entry_row_id e r : e ∈ es → row_of json_marshal pvals e r → row_id r = Some (e_id e).
Proof. intros (sr & Hsr & He)%entry_record Hr. eapply (row_identity murmur3 fmt_g time_format json_marshal schema_fields); [exact He|by apply Hids|exact Hr]. Qed.

Lemma indexed_rows p n r : row_at (srv w') p n = Some r ↔
  (row0 p n = Some r ∧ ¬ ∃ e, e ∈ es ∧ row_id r = Some (e_id e)) ∨ ∃ e, last_of es (e_id e) e ∧ e_loc e = mkPosDelete p n ∧ row_of json_marshal pvals e r.
Proof.
  pose proof (live_rows time_format json_marshal schema_fields _ _ _ _ _ _ _ _ _ _ _ _ _ Hc Hold p n r) as Hlive. etransitivity; [exact Hlive|]. clear Hlive.
  pose proof Hc as (T & _). pose proof (t_new _ _ _ _ _ _ _ _ _ _ _ _ _ T) as Hnew. pose proof (t_distinct _ _ _ _ _ _ _ _ _ _ _ _ _ T) as Hnd.
  rewrite log_eq_nil by auto. setoid_rewrite elem_of_nil.
  assert (Hin : ∀ e, last_of es (e_id e) e → e ∈ es) by (intros e (l1 & l2 & -> & _); set_solver). split.
  - intros [(Hr & _ & Hnot)|(e & He & Hl & Hof & Hnot)].
    + left. split; [done|]. intros (e & He & Hid). destruct (old_deletes m0 es row0 N0 Hcov Hnd Hnew Hold entries_fresh p n r e Hr Hid He) as (e1 & He1 & Hid1 & Hdel).
      apply Hnot. exists (e_key e1). split; [|done].
      pose proof (old_stays e1 p n r) as Hst. destruct (is_dv mode); [by left|right]. symmetry. apply Hst; [done|done|done|congruence].
    + right. exists e. split_and!; try done. destruct (last_of_exists es e He) as (e' & Hlast). destruct (decide (e_loc e' = e_loc e)) as [Heq|Hne].
      { assert (e' = e) as -> by (eapply loc_inj; [exact Hnd|destruct Hlast as (? & ? & -> & _); set_solver|done|done]). done. }
      destruct (new_deletes m0 es row0 N0 Hcov Hnd Hnew Hold entries_fresh e He) as (e1 & He1 & Hid1 & Hdel).
      { intros Hl'. rewrite (last_of_unique _ _ _ _ Hl' Hlast) in Hne. done. }
      destruct Hnot. exists (e_key e1). rewrite <- Hl. split; [|done].
      pose proof (entry_stays e1 e) as Hst. destruct (is_dv mode); [by left|right]. by apply Hst.
  - intros [(Hr & Hnot)|(e & Hlast & Hl & Hof)].
    + left. split_and!; [done|naive_solver|]. intros (k & _ & Hdel). apply Hnot.
      destruct (row_id r) as [id|] eqn:Eid.
      * destruct (old_deleted m0 es row0 N0 Hcov Hnd Hnew Hold entries_fresh p n r id Hr Eid) as (e & He & <-); eauto.
      * apply index_del in Hdel as (l1 & e & l2 & Hl & _ & _ & _ & Hat). apply index_at in Hat as [(e' & (la & lb & Hla & _) & [= Hp _])|[_ Hm%to_delete_Some]].
        -- destruct (Hnew e'); [rewrite Hl, Hla; set_solver|]. rewrite Hp. by eapply Hold.
        -- pose proof (proj2 (c_sane _ _ _ Hcov _ _ _ Hm) r Hr). congruence.
    + right. exists e. split_and!; try done; [by apply Hin|]. intros (k & _ & Hdel). rewrite <- Hl in Hdel.
      apply (new_deleted m0 es row0 N0 Hcov Hnd Hnew Hold entries_fresh e (Hin e Hlast)); [by exists k|done].
Qed.

Lemma names_kept : N0 ⊆ named (srv w) ∧ ∀ e, e ∈ es → base (e_path e) ∈ named (srv w).
Proof.
  pose proof Hc as (T & Hidle & _). pose proof (t_sound _ _ _ _ _ _ _ _ _ _ _ _ _ T) as Hs. split; [apply Hs|]. intros e He.
  destruct (t_placed _ _ _ _ _ _ _ _ _ _ _ _ _ T e He) as [(row & [(f & c & _ & _ & Hc' & _)|(rw & Hsl & <- & _)] & _)|(i & Hi & _)]; [| |by rewrite Hidle in Hi].
  - by eapply s_stored.
  - by eapply g_named, s_slot.
Qed.

Lemma index_covers m : (∀ id, to_delete <$> m !! id = l_at (log_of true true m0 es) "" id) → covers m (row_at (srv w')) (named (srv w)).
Proof.
  intros Hm. assert (Hin : ∀ id e, last_of es id e → e ∈ es ∧ e_id e = id) by (intros id e (? & ? & -> & ? & _); split; [set_solver|done]). split.
  - intros p n r id Hr Hid. rewrite <- to_delete_Some, Hm, index_at. apply indexed_rows in Hr as [(Hr & Hnot)|(e & Hlast & Hl & Hof)].
    + right. split; [intros e He <-; apply Hnot; eauto|]. apply to_delete_Some. by eapply c_found.
    + left. exists e. destruct (Hin _ _ Hlast) as [He _]. rewrite (entry_row_id e r He Hof) in Hid. injection Hid as <-. done.
  - intros id p n Hat. rewrite <- to_delete_Some, Hm, index_at in Hat. destruct names_kept as [Hsub Hnames].
    pose proof Hc as (T & _). pose proof (t_new _ _ _ _ _ _ _ _ _ _ _ _ _ T) as Hnew. pose proof (t_distinct _ _ _ _ _ _ _ _ _ _ _ _ _ T) as Hnd.
    destruct Hat as [(e & [He <-]%Hin & Hl)|[Hno Hm0%to_delete_Some]].
    + injection Hl as <- <-. split; [by apply Hnames|]. intros r [(Hr & _)|(e' & Hlast & Hl & Hof)]%indexed_rows.
      * destruct (Hnew e He). by eapply Hold.
      * destruct (Hin _ _ Hlast) as [He' _]. assert (e' = e) as -> by (eapply loc_inj; [exact Hnd|done|done|done]). by apply entry_row_id.
    + destruct (c_sane _ _ _ Hcov _ _ _ Hm0) as [Hb Hrow]. split; [by apply Hsub|]. intros r [(Hr & _)|(e & Hlast & [= Hp _] & _)]%indexed_rows; [by apply Hrow|].
      destruct (Hin _ _ Hlast) as [He _]. destruct (Hnew e He). by rewrite Hp.
Qed.

Lemma changes_valid (c : gmap string RowLocation) : Z.of_nat (length es) ≤ MaxInt64 → dom c ⊆ (list_to_set (e_id <$> es) : gset string) →
  (∀ id, to_delete <$> (c ∪ m0) !! id = l_at (log_of true true m0 es) "" id) → valid_changes c.
Proof.
  intros Hlen Hdom Hat k loc Hk. specialize (Hat k). rewrite (lookup_union_Some_l c m0 k loc Hk) in Hat. symmetry in Hat. apply index_at in Hat as [(e & Hlast & He)|[Hno _]].
  - unfold to_delete, e_loc in He. injection He as _ Hpos. pose proof Hc as (T & Hidle & _).
    assert (Hin : e ∈ es) by (destruct Hlast as (? & ? & -> & _); set_solver). pose proof (position_bound _ _ _ _ _ _ _ _ _ _ _ _ e T Hidle Hin). lia.
  - apply elem_of_dom_2, Hdom, elem_of_list_to_set, list_elem_of_fmap in Hk as (e & -> & He). by destruct (Hno e).
Qed.
End Run.

(** A committed thread with an index leaves the last version of every record, and the
    index again finds every row.  The thread starts with an index that finds every row of
    the table; its batches and schema changes may roll files over anywhere.  After the
    commit the table's rows are the older rows whose identity no record of the run has,
    and for each identity of the run the row of its last record.  When the server reports
    a snapshot, the index finds every row under that snapshot and names no row that is
    there under another identity; when it reports none, the index is as it was.  Records
    that are not looked up (["c"], ["r"]) are assumed new; without deletion vectors records
    of one identity are of one partition, since positional deletes are read per partition. *)
Lemma indexed_run_spec pvals m0 snap0 tid stream info sch ops fin s0 i0 w' :
  thread_run murmur3 fmt_g time_format json_marshal marshal_state schema_fields tid stream info sch true ops fin s0 (Some i0) = (w', Ok ()) →
  names_known s0 → vectors s0 tid = [] →
  partitioned murmur3 fmt_g time_format pvals true true tid info stream (tagged sch ops) →
  index_ready i0 m0 snap0 (length (tagged sch ops)) → Z.of_nat (length (tagged sch ops)) ≤ MaxInt64 →
  covers m0 (row_at s0) (named s0) → inserts_fresh (row_at s0) (tagged sch ops) → (∀ sr, sr ∈ tagged sch ops → sr.1 !! OlakeID = Some "string") →
  (GetUpdateType stream ≠ UpdateTypeDeletionVector → stays pvals tid info stream (tagged sch ops) (row_at s0)) →
  ∃ es, Forall2 (entry_for murmur3 fmt_g time_format true true tid info stream) (tagged sch ops) es ∧ NoDup (e_loc <$> es)
  ∧ named s0 ⊆ named (srv w') ∧ (∀ e, e ∈ es → base (e_path e) ∉ named s0)
  ∧ (∀ p n r, row_at (srv w') p n = Some r ↔
      (row_at s0 p n = Some r ∧ ¬ ∃ e, e ∈ es ∧ row_id r = Some (e_id e)) ∨ ∃ e, last_of es (e_id e) e ∧ e_loc e = mkPosDelete p n ∧ row_of json_marshal pvals e r)
  ∧ (∀ e, e ∈ es → ∃ r, row_of json_marshal pvals e r ∧ row_id r = Some (e_id e))
  ∧ ∃ i', tableIndex w' = Some i' ∧ (index_holds i' m0 snap0 ∨ ∃ m, index_holds i' m (table_snapshot (srv w')) ∧ covers m (row_at (srv w')) (named (srv w'))).
Proof.
  intros Hrun Hnames Hvec Hpart Hready Hlen Hcov Hins Hids Hstay.
  edestruct (run_commits murmur3 fmt_g time_format json_marshal marshal_state schema_fields pvals true true m0 snap0) as (w2 & es & Hc & Hes & Hnd & Hold);
    [exact Hrun|done|done|eauto|done|done|].
  assert (Hstay' : is_dv (GetUpdateType stream) = false → stays pvals tid info stream (tagged sch ops) (row_at s0)) by (intros Hd; by apply Hstay, String.eqb_neq).
  pose proof (indexed_rows _ _ _ _ _ _ _ _ _ _ _ _ _ Hc Hes Hold Hcov Hins Hids Hstay') as Hrows.
  pose proof (index_covers _ _ _ _ _ _ _ _ _ _ _ _ _ Hc Hes Hold Hcov Hins Hids Hstay') as Hix.
  exists es. pose proof Hc as (T & _ & _ & _ & Hnm & _). split_and!; [done|done| |apply T|exact Hrows| |].
  - rewrite Hnm. eapply names_kept; eassumption.
  - intros e He. destruct (commits_rows _ _ _ _ _ _ _ _ _ _ _ _ _ _ Hc e He) as [r Hr]. exists r. split; [done|].
    by eapply entry_row_id.
  - pose proof Hc as (_ & Hidle & _ & _ & _ & _ & snapshot & Hsn & Hcommit). destruct (Hcommit eq_refl) as (b & i & Hb & Hi & i' & Hi' & Hdec). exists i'. split; [done|].
    destruct (t_index _ _ _ _ _ _ _ _ _ _ _ _ _ T eq_refl) as (b' & i2 & Hb' & Hi2 & [Hh Hroom] & Hdom & Hat).
    assert (b' = b) as -> by congruence. assert (i2 = i) as -> by congruence. case_decide; [left; congruence|right].
    assert (Hle : length es = length (tagged sch ops)) by (symmetry; by eapply Forall2_length).
    destruct (commit_law i m0 snap0 b snapshot Hh) as (i3 & Hok & Hh3 & _).
    + eapply changes_valid; try eassumption. by rewrite Hle.
    + eapply room_mono; [exact Hroom|]. rewrite <- Hle. by apply ids_bound.
    + intros y Hy. by apply Hsn.
    + rewrite Hok in Hdec. injection Hdec as <-. exists (changes b ∪ m0). rewrite Hnm. split; [|by apply Hix].
      destruct snapshot as [y|]; [|naive_solver]. rewrite (proj2 (Hsn y eq_refl)); [done|naive_solver].
Qed.
End Runs.
