(* ===== verification/Iceberg.v ===== *)
(** * destination/iceberg: iceberg.go, index.go and legacy-writer/writer.go

    The Iceberg destination prepares batches for its writer thread: it shapes records,
    finds the columns they need, evolves the table, keeps the stream index in step with
    the table and hands the batches to the Arrow writer or to the legacy writer.  The
    server process answers the requests of [IcebergServer]. *)

From S2P Require Import Prelude GoString GoSet DataTypes QueryEngine Value Schema Stream Catalog State Fields Writers TwoPC IndexDB Jdbc Chunking Transforms ArrowWriter.

(** ** Column types *)
Definition validTypeTransitions : gmap string (list string) := list_to_map [
  ("int", ["int"; "long"]); ("long", ["long"; "int"]); ("float", ["float"; "double"]); ("double", ["double"; "float"]);
  ("boolean", ["boolean"]); ("string", ["string"]); ("timestamptz", ["timestamptz"])].
Definition promotionTransitions : gmap string (list string) := list_to_map [("int", ["long"]); ("float", ["double"])].

Definition getCommonAncestorType (d1 d2 : string) : string :=
  ToIceberg (GetCommonAncestorType (IcebergTypeToDatatype d1) (IcebergTypeToDatatype d2)).

Definition isValidTransition (oldType newType : string) : bool :=
  if String.eqb oldType newType then true
  else if match validTypeTransitions !! oldType with Some transitions => contains transitions newType | None => false end then true
  else String.eqb (getCommonAncestorType oldType newType) oldType.

Definition isPromotionRequired (oldType newType : string) : bool :=
  match promotionTransitions !! oldType with Some transitions => contains transitions newType | None => false end.

(** ** Partition patterns: [\{([^,]+),\s*([^}]+)\}] and how its groups are read *)
Definition is_regex_space (a : ascii) : bool :=
  let b := byte_of a in (b =? 9) || (b =? 10) || (b =? 12) || (b =? 13) || (b =? 32).
Fixpoint drop_space (s : string) : string :=
  match s with String a s' => if is_regex_space a then drop_space s' else s | EmptyString => s end.
Fixpoint last_char (s : string) : string :=
  match s with EmptyString => "" | String a EmptyString => s | String _ s' => last_char s' end.

(** The match that starts with the brace before [s]: the groups and what follows.  The
    second group gives back one space when nothing else is left for it. *)
Definition match_at (s : string) : option (string * string * string) :=
  '(column, s) ← Cut "," s;
  '(body, rest) ← Cut "}" s;
  if String.eqb column "" || String.eqb body "" then None
  else Some (column, (if String.eqb (drop_space body) "" then last_char body else drop_space body), rest).

Fixpoint find_matches (fuel : nat) (s : string) : list (string * string) :=
  match fuel, s with
  | S fuel, String a s' =>
      if Ascii.eqb a "{" then
        match match_at s' with
        | Some (column, transform, rest) => (column, transform) :: find_matches fuel rest
        | None => find_matches fuel s'
        end
      else find_matches fuel s'
  | _, _ => []
  end.

Definition is_quote (b : Z) : bool := (b =? 39) || (b =? 34).
(** [strings.Trim] of the two quotes *)
Definition trim_quotes (s : string) : string :=
  string_of (reverse (drop_while is_quote (reverse (drop_while is_quote (bytes_of s))))).
(** [strings.Replace] of the first occurrence *)
Fixpoint replace_first (s old new : string) : string :=
  if HasPrefix s old then new +:+ TrimPrefix s old
  else match s with EmptyString => "" | String a s' => String a (replace_first s' old new) end.

Definition partition_entry (resolveColumnName : string → string) (m : string * string) : PartitionInfo :=
  let colName := replace_first (TrimSpace (trim_quotes m.1)) "now()" OlakeTimestamp in
  mkPartition colName (resolveColumnName colName) (TrimSpace (trim_quotes m.2)).
Definition parsePartitionRegex (pattern : string) (resolveColumnName : string → string) : result (list PartitionInfo) :=
  if String.eqb pattern "" then Ok []
  else match find_matches (String.length pattern) pattern with
       | [] => Err "no matches found for partition regex"
       | matches => Ok (partition_entry resolveColumnName <$> matches)
       end.

(** ** The schema text of the server *)
Definition TrimSuffix (s suffix : string) : string :=
  let n := (String.length s - String.length suffix)%nat in
  if (String.length suffix <=? String.length s)%nat && String.eqb (String.substring n (String.length suffix) s) suffix then String.substring 0 n s else s.

(** ["1: col_name: optional string"]; a line whose last part has one word is out of range. *)
Definition parse_line (fields : gmap string string) (line : string) : result (gmap string string) :=
  let line := TrimSpace line in
  match Cut ":" line with
  | None => Ok fields
  | Some (_, line) =>
      match Cut ":" line with
      | None => Ok fields
      | Some (name, typeInfo) =>
          match Split " " (TrimSpace typeInfo) with
          | _ :: ty :: _ => Ok (<[TrimSpace name := ty]> fields)
          | _ => Panic "index out of range"
          end
      end
  end.
Definition parseSchema (schemaStr : string) : result (gmap string string) :=
  foldM parse_line ∅ (Split "010" (TrimSuffix (TrimPrefix schemaStr "table {") "}")).

(** ** Modes *)
Definition isUpsertMode (stream : ConfiguredStream) (backfill : bool) : bool := if AppendMode (Metadata stream) then false else negb backfill.

Inductive DeleteMode := DELETE_MODE_UNSPECIFIED | DELETE_MODE_EQUALITY | DELETE_MODE_POSITION | DELETE_MODE_DELETION_VECTOR.
Definition protoDeleteMode (mode : UpdateType) : DeleteMode :=
  if String.eqb mode UpdateTypeEquality then DELETE_MODE_EQUALITY
  else if String.eqb mode UpdateTypePosition then DELETE_MODE_POSITION
  else if String.eqb mode UpdateTypeDeletionVector then DELETE_MODE_DELETION_VECTOR
  else DELETE_MODE_UNSPECIFIED.

(** ** The columns of a batch *)
Section Batches.
Context `{GoEnv} `{GoRange}.

(** One column of a record: the record and the schema after it, and whether to stop. *)
Definition detect_column (detectChange : bool) (threadSchema : gmap string string) (data : Record_) (finalSchema : gmap string string)
    (key : string) (value : any) : result (bool * Record_ * gmap string string) :=
  let detectedType := TypeFromValue value in
  if String.eqb detectedType Null then Ok (false, delete key data, finalSchema)
  else
    let detected := ToIceberg detectedType in
    match threadSchema !! key with
    | Some _ =>
        let current := default "" (finalSchema !! key) in
        if negb (isValidTransition current detected) then Err "detected two different types in batch"
        else if isPromotionRequired current detected
             then if detectChange then Ok (true, data, finalSchema) else Ok (false, data, <[key := detected]> finalSchema)
             else Ok (false, data, finalSchema)
    | None =>
        if detectChange then Ok (true, data, finalSchema)
        else Ok (false, data, <[key := match finalSchema !! key with
                                       | Some existing => getCommonAncestorType existing detected
                                       | None => detected
                                       end]> finalSchema)
    end.
Fixpoint detect_columns (detectChange : bool) (threadSchema : gmap string string) (entries : list (string * any))
    (data : Record_) (finalSchema : gmap string string) : result (bool * Record_ * gmap string string) :=
  match entries with
  | [] => Ok (false, data, finalSchema)
  | (key, value) :: entries =>
      '(changed, data, finalSchema) ← detect_column detectChange threadSchema data finalSchema key value;
      if changed : bool then Ok (true, data, finalSchema) else detect_columns detectChange threadSchema entries data finalSchema
  end.
Definition detectOrUpdateSchema (data : Record_) (detectChange : bool) (threadSchema finalSchema : gmap string string)
    : result (bool * Record_ * gmap string string) :=
  detect_columns detectChange threadSchema (range data) data finalSchema.

Section Flatten.
Context (json_marshal : any → option string) (resolve : string → string).

(** The task of one record.  [sees] is whether it finds the flag set, [changed] whether it
    sets it. *)
Definition flatten_task (schema : gmap string string) (sees : bool) (cache : gmap string string) (record : RawRecord)
    : result (gmap string string * RawRecord * bool) :=
  '(cache, data) ← Flatten json_marshal resolve cache (Data record);
  let data := OlakeColumns record ∪ data in
  if sees then Ok (cache, mkRaw data (OlakeColumns record), false)
  else '(changed, data, _) ← detectOrUpdateSchema data true schema schema;
       Ok (cache, mkRaw data (OlakeColumns record), changed).
Fixpoint flatten_tasks (schema : gmap string string) (sees : nat → bool) (cache : gmap string string) (records : list RawRecord)
    : result (list (RawRecord * bool)) :=
  match records with
  | [] => Ok []
  | record :: records =>
      '(cache, record, changed) ← flatten_task schema (sees 0%nat) cache record;
      rest ← flatten_tasks schema (sees ∘ S) cache records;
      Ok ((record, changed) :: rest)
  end.

Fixpoint update_schema (schema : gmap string string) (records : list RawRecord) (schemaMap : gmap string string)
    : result (list RawRecord * gmap string string) :=
  match records with
  | [] => Ok ([], schemaMap)
  | record :: records =>
      '(_, data, schemaMap) ← detectOrUpdateSchema (Data record) false schema schemaMap;
      '(records, schemaMap) ← update_schema schema records schemaMap;
      Ok (mkRaw data (OlakeColumns record) :: records, schemaMap)
  end.

Definition extractSchemaFromRecords (schema : gmap string string) (sees : nat → bool) (records : list RawRecord)
    : result (bool * list RawRecord * gmap string string) :=
  done ← flatten_tasks schema sees ∅ records;
  let records := done.*1 in
  let diffThreadSchema := existsb snd done in
  if diffThreadSchema : bool
  then '(records, schemaMap) ← update_schema schema records schema; Ok (true, records, schemaMap)
  else Ok (false, records, schema).
End Flatten.

(** Without normalization: the source data as one text, OLake's columns and the partition
    columns. *)
Definition pre_shape (marshal_data : Record_ → option string) (partitionInfo : list PartitionInfo) (record : RawRecord) : result RawRecord :=
  match marshal_data (Data record) with
  | None => Err "failed to marshal raw data"
  | Some text =>
      let data := OlakeColumns record ∪ {[StringifiedData := AString text]} in
      Ok (mkRaw (foldl (λ data p, if String.eqb (pi_Field p) OlakeTimestamp then data
                                  else match Data record !! pi_Field p with Some v => <[pi_SchemaField p := v]> data | None => data end)
                   data partitionInfo)
            (OlakeColumns record))
  end.
End Batches.

(** ** Requests to the server process *)
Record FilePositionRange := mkPosRange { BatchStartIdx : Z; StartPosition : Z; Count : Z }.
Record FilePositionMap := mkPosMap { fp_FilePath : string; fp_Ranges : list FilePositionRange }.
Record RecordIngestResponse := mkIngestResp {
  ir_Result : string; ir_2PcState : string; ir_SnapshotId : Z; ir_HasEqualityDeletes : bool; ir_FilePositionMaps : list FilePositionMap
}.

Inductive IceFieldValue :=
| FBool (b : bool) | FInt (z : Z) | FLong (z : Z) | FFloat (f : spec_float) | FDouble (f : spec_float) | FString (s : string).
Record IceRecord := mkIceRecord { ic_Fields : list (option IceFieldValue); ic_RecordType : string; ic_Delete : option RowLocation }.

Record TableRequest := mkTableRequest {
  tq_Schema : list (string * string); tq_DestTableName : string; tq_Namespace : string; tq_DeclareIdentifierFields : bool;
  tq_Upsert : bool; tq_DeleteMode : DeleteMode; tq_PartitionFields : list (string * string)
}.
Inductive IcebergPayload :=
| GET_OR_CREATE_TABLE (request : TableRequest)
| EVOLVE_SCHEMA (schema : list (string * string))
| REFRESH_TABLE_SCHEMA
| RECORDS (schema : list (string * string)) (records : list IceRecord)
| COMMIT (payload : string) (baseSnapshotID : option Z)
| CLOSE_SESSION
| DROP_TABLE (table : string).

(** A batch of a table scan, and a stream of them: what arrives and the error it ends in. *)
Record TableIndexScanBatch := mkScanBatch { sb_Entries : list (string * RowLocation); sb_SnapshotId : Z }.
Record scan_stream := mkScan { sc_batches : list TableIndexScanBatch; sc_error : option string }.

Class IcebergServer `{ServerClient} := {
  IngestRequest : server → string → IcebergPayload → server * result RecordIngestResponse;
  ScanTableForIndexing : server → string → option Z → result scan_stream;
  MigrateEqualityDeletes : server → string → DeleteMode → server * result unit
}.

(** ** index.go *)
Definition indexScanFlushRows : Z := 200000.

Section Index.
Context `{StreamIndex}.

(** An index and the result of what was done with it. *)
Definition flush_scan (i : index) (pending : StreamIndexThread) (buffered : Z) : index * result (StreamIndexThread * Z) :=
  if buffered =? 0 then (i, Ok (pending, 0))
  else match Index_Commit i pending None with
       | Ok i => (i, Ok (NewStreamIndexThread, 0))
       | Err e => (i, Err "failed to flush stream index row(s)")
       | Panic m => (i, Panic m)
       end.

Fixpoint drain_loop (batches : list TableIndexScanBatch) (ending : option string) (i : index) (pending : StreamIndexThread)
    (buffered snapshotID entries : Z) : index * result (Z * Z) :=
  match batches with
  | [] =>
      match ending with
      | Some e => (i, Err "stream index scan failed")
      | None => match Index_Commit i pending (Some snapshotID) with
                | Ok i => (i, Ok (snapshotID, entries))
                | Err e => (i, Err "failed to checkpoint stream index")
                | Panic m => (i, Panic m)
                end
      end
  | batch :: batches =>
      let pending := foldl (λ b e, Put b e.1 e.2) pending (sb_Entries batch) in
      let n := Z.of_nat (length (sb_Entries batch)) in
      if indexScanFlushRows <=? buffered + n then
        match flush_scan i pending (buffered + n) with
        | (i, Ok (pending, buffered)) => drain_loop batches ending i pending buffered (sb_SnapshotId batch) (entries + n)
        | (i, Err e) => (i, Err e)
        | (i, Panic m) => (i, Panic m)
        end
      else drain_loop batches ending i pending (buffered + n) (sb_SnapshotId batch) (entries + n)
  end.
Definition drainTableIndexScan (posIterator : scan_stream) (i : index) : index * result (Z * Z) :=
  drain_loop (sc_batches posIterator) (sc_error posIterator) i NewStreamIndexThread 0 0 0.

Context `{IcebergServer}.

Definition fillTableIndex (s : server) (threadID : string) (i : index) (fromSnapshotID : option Z) : index * result unit :=
  match ScanTableForIndexing s threadID fromSnapshotID with
  | Ok posIterator =>
      let i := match fromSnapshotID with None => Index_Truncate i | Some _ => i end in
      match drainTableIndexScan posIterator i with
      | (i, Ok _) => (i, Ok ())
      | (i, Err e) => (i, Err "failed to drain table index scan")
      | (i, Panic m) => (i, Panic m)
      end
  | Err e => (i, Err "failed to start stream index scan")
  | Panic m => (i, Panic m)
  end.

Definition reconcileTableIndex (stream : ConfiguredStream) (threadID : string) (s : server) (index : option index) (tableSnapshotID : Z)
    (hasEqualityDeletes : bool) : server * option ArrowWriter.index * result unit :=
  match index with
  | None => (s, None, Ok ())
  | Some i =>
      let '(s, migrated) := if hasEqualityDeletes then MigrateEqualityDeletes s threadID (protoDeleteMode (GetUpdateType stream)) else (s, Ok ()) in
      match migrated with
      | Ok _ =>
          match Index_LastCommittedSnapshot i with
          | Ok indexedSnapshotID =>
              if (indexedSnapshotID =? tableSnapshotID) && negb hasEqualityDeletes then (s, Some i, Ok ())
              else
                let '(i, r) := fillTableIndex s threadID i (if indexedSnapshotID =? 0 then None else Some indexedSnapshotID) in
                (s, Some i, r)
          | Err e => (s, Some i, Err "failed to read stream index checkpoint")
          | Panic m => (s, Some i, Panic m)
          end
      | Err e => (s, Some i, Err "failed to migrate equality deletes")
      | Panic m => (s, Some i, Panic m)
      end
  end.
End Index.

(** ** legacy-writer/writer.go *)
Record LegacyWriter := mkLegacy {
  lw_threadID : string; lw_schema : gmap string string; lw_stream : ConfiguredStream; lw_indexThread : option StreamIndexThread; lw_upsertMode : bool
}.
Definition lw_with (w : LegacyWriter) (schema : gmap string string) (t : option StreamIndexThread) : LegacyWriter :=
  mkLegacy (lw_threadID w) schema (lw_stream w) t (lw_upsertMode w).

Section Legacy.
Context `{GoEnv} `{GoRange} `{StreamIndex}.

Definition toProtoFieldValue (iceType : string) (val : any) : result IceFieldValue :=
  if String.eqb iceType "boolean" then FBool <$> ReformatBool val
  else if String.eqb iceType "int" then FInt <$> ReformatInt32 val
  else if String.eqb iceType "long" then FLong <$> ReformatInt64 val
  else if String.eqb iceType "float" then FFloat <$> ReformatFloat32 val
  else if String.eqb iceType "double" then FDouble <$> ReformatFloat64 val
  else if String.eqb iceType "timestamptz" then t ← ReformatDate val true; Ok (FLong (UnixMicro t))
  else Ok (FString (fmt_v val)).

Definition column_value (data : Record_) (field : string * string) : result (option IceFieldValue) :=
  match data !! field.1 with
  | None => Ok None
  | Some val => fv ← toProtoFieldValue field.2 val; Ok (Some fv)
  end.

Definition legacy_lookup (b : StreamIndexThread) (i : option index) (key : string) : result (option RowLocation * option index) :=
  match changes b !! key with
  | Some loc => Ok (Some loc, i)
  | None => match i with
            | None => Ok (None, None)
            | Some i => '(loc, i) ← Index_Lookup i key; Ok (loc, Some i)
            end
  end.

Record legacy_batch := mkLegacyBatch { lb_index : option index; lb_proto : list IceRecord; lb_sent : list RawRecord; lb_seen : gset string }.

Definition string_column (columns : Record_) (column : string) : result string :=
  match columns !! column with Some (AString s) => Ok s | _ => Panic "interface conversion" end.

Definition legacy_record (w : LegacyWriter) (protoSchema : list (string * string)) (st : legacy_batch) (record : RawRecord) : result legacy_batch :=
  opType ← string_column (OlakeColumns record) OpType;
  let olakeID := match OlakeColumns record !! OlakeID with Some (AString s) => s | _ => "" end in
  '(i, opType, del, record) ←
    match lw_indexThread w with
    | Some b =>
        if negb (String.eqb opType "r") && negb (String.eqb opType "c") then
          '(previous, i) ← legacy_lookup b (lb_index st) olakeID;
          let insert := ResolveUpsertOp (lw_stream w) && bool_decide (previous = None) && negb (bool_decide (olakeID ∈ lb_seen st)) && String.eqb opType "u" in
          let opType := if insert then "c" else opType in
          Ok (i, opType, previous, mkRaw (<[OpType := AString opType]> (Data record)) (<[OpType := AString opType]> (OlakeColumns record)))
        else Ok (lb_index st, opType, None, record)
    | None => Ok (lb_index st, opType, None, record)
    end;
  fields ← mapM_result (column_value (Data record)) protoSchema;
  match fields with
  | [] => Ok (mkLegacyBatch i (lb_proto st) (lb_sent st) (lb_seen st))
  | _ => Ok (mkLegacyBatch i (lb_proto st ++ [mkIceRecord fields opType del]) (lb_sent st ++ [record])
               (if String.eqb olakeID "" then lb_seen st else {[olakeID]} ∪ lb_seen st))
  end.

(** The locations the server reports, one row after the other. *)
Fixpoint put_range (sent : list RawRecord) (path : string) (start pos : Z) (count : nat) (b : StreamIndexThread) : result StreamIndexThread :=
  match count with
  | O => Ok b
  | S count =>
      if start <? 0 then Panic "index out of range"
      else match sent !! Z.to_nat start with
           | None => Panic "index out of range"
           | Some rec => id ← string_column (OlakeColumns rec) OlakeID;
                         put_range sent path (start + 1) (pos + 1) count (Put b id (mkLocation path pos))
           end
  end.
Definition put_positions (sent : list RawRecord) (maps : list FilePositionMap) (b : StreamIndexThread) : result StreamIndexThread :=
  foldM (λ b f, foldM (λ b r, put_range sent (fp_FilePath f) (BatchStartIdx r) (StartPosition r) (Z.to_nat (Count r)) b) b (fp_Ranges f)) b maps.

Context `{IcebergServer} (marshal_state : MetadataState → string).

Record legacy_world := mkLegacyWorld { lg_writer : LegacyWriter; lg_server : server; lg_index : option index }.

Definition Legacy_Write (records : list RawRecord) (x : legacy_world) : legacy_world * result unit :=
  let w := lg_writer x in
  let protoSchema := range (lw_schema w) in
  match foldM (legacy_record w protoSchema) (mkLegacyBatch (lg_index x) [] [] ∅) records with
  | Ok st =>
      match lb_proto st with
      | [] => (mkLegacyWorld w (lg_server x) (lb_index st), Ok ())
      | protoRecords =>
          let '(s, res) := IngestRequest (lg_server x) (lw_threadID w) (RECORDS protoSchema protoRecords) in
          match res with
          | Ok response =>
              match lw_indexThread w with
              | None => (mkLegacyWorld w s (lb_index st), Ok ())
              | Some b => match put_positions (lb_sent st) (ir_FilePositionMaps response) b with
                          | Ok b => (mkLegacyWorld (lw_with w (lw_schema w) (Some b)) s (lb_index st), Ok ())
                          | Err e => (mkLegacyWorld w s (lb_index st), Err e)
                          | Panic m => (mkLegacyWorld w s (lb_index st), Panic m)
                          end
              end
          | Err e => (mkLegacyWorld w s (lb_index st), Err "failed to send batch")
          | Panic m => (mkLegacyWorld w s (lb_index st), Panic m)
          end
      end
  | Err e => (x, Err e)
  | Panic m => (x, Panic m)
  end.

Definition Legacy_Abort (x : legacy_world) : legacy_world := mkLegacyWorld (lw_with (lg_writer x) (lw_schema (lg_writer x)) None) (lg_server x) (lg_index x).
Definition Legacy_EvolveSchema (newSchema : gmap string string) (x : legacy_world) : legacy_world :=
  mkLegacyWorld (lw_with (lg_writer x) newSchema (lw_indexThread (lg_writer x))) (lg_server x) (lg_index x).

Definition base_snapshot (x : legacy_world) : result (option Z) :=
  match lw_indexThread (lg_writer x), lg_index x with
  | None, _ => Ok None
  | Some _, None => Panic "invalid memory address or nil pointer dereference"
  | Some _, Some i => Some <$> Index_LastCommittedSnapshot i
  end.
Definition Legacy_Close (finalMetadataState : option MetadataState) (x : legacy_world) : legacy_world * result unit :=
  let w := lg_writer x in
  match base_snapshot x with
  | Ok base =>
      let '(s, res) := IngestRequest (lg_server x) (lw_threadID w) (COMMIT (match finalMetadataState with Some m => marshal_state m | None => "" end) base) in
      match res, lw_indexThread w, lg_index x with
      | Ok response, Some batch, Some i =>
          if ir_SnapshotId response =? 0 then (mkLegacyWorld w s (Some i), Ok ())
          else match Index_Commit i batch (Some (ir_SnapshotId response)) with
               | Ok i => (mkLegacyWorld (lw_with w (lw_schema w) None) s (Some i), Ok ())
               | Err e => (mkLegacyWorld (lw_with w (lw_schema w) None) s (Some i), Err "failed to apply stream index")
               | Panic m => (mkLegacyWorld (lw_with w (lw_schema w) None) s (Some i), Panic m)
               end
      | Ok _, _, i => (mkLegacyWorld w s i, Ok ())
      | Err e, _, i => (mkLegacyWorld w s i, Err "failed to send commit message")
      | Panic m, _, i => (mkLegacyWorld w s i, Panic m)
      end
  | Err e => (x, Err e)
  | Panic m => (x, Panic m)
  end.
Definition Legacy_New (options : Options) (schema : gmap string string) (stream : ConfiguredStream) (upsert hasIndex : bool) : LegacyWriter :=
  mkLegacy (o_ThreadID options) schema stream (if hasIndex : bool then Some NewStreamIndexThread else None) upsert.
End Legacy.

(** ** iceberg.go *)
Record IcebergConfig := mkIcebergConfig { cf_IcebergDatabase : string; cf_NoIdentifierFields : bool; cf_UseArrowWrites : bool }.
Inductive IceWriter := WArrow (a : ArrowWriter) | WLegacy (l : LegacyWriter).
Record Iceberg := mkIceberg {
  ib_options : Options; ib_config : IcebergConfig; ib_stream : ConfiguredStream; ib_partitionInfo : list PartitionInfo;
  ib_schema : gmap string string; ib_writer : option IceWriter
}.

Section Destination.
Context `{GoEnv} `{GoHash string} `{GoRange} `{ServerClient} `{!IcebergServer} `{StreamIndex} `{ParquetLib}.
Context (murmur3 : list Z → Z) (fmt_g : spec_float → string) (time_format : string → gotime → string).
Context (json_marshal : any → option string) (marshal_data : Record_ → option string) (marshal_state : MetadataState → string).
Context (unmarshal_state : string → option MetadataState) (schema_fields : string → option (list (Z * string))).

Record ice_world := mkIceWorld { iw_ice : Iceberg; iw_server : server; iw_index : option index }.

Definition with_writer (w : IceWriter) (i : Iceberg) : Iceberg :=
  mkIceberg (ib_options i) (ib_config i) (ib_stream i) (ib_partitionInfo i) (ib_schema i) (Some w).
Definition with_schema (schema : gmap string string) (i : Iceberg) : Iceberg :=
  mkIceberg (ib_options i) (ib_config i) (ib_stream i) (ib_partitionInfo i) schema (ib_writer i).

(** A call of the writer interface, on the writer that is set. *)
Definition call_writer (arrow : M unit) (legacy : legacy_world → legacy_world * result unit) (x : ice_world) : ice_world * result unit :=
  match ib_writer (iw_ice x) with
  | None => (x, Panic "invalid memory address or nil pointer dereference")
  | Some (WArrow a) => let '(w, r) := arrow (mkWorld a (iw_server x) (iw_index x)) in
                       (mkIceWorld (with_writer (WArrow (aw w)) (iw_ice x)) (srv w) (tableIndex w), r)
  | Some (WLegacy l) => let '(w, r) := legacy (mkLegacyWorld l (iw_server x) (iw_index x)) in
                        (mkIceWorld (with_writer (WLegacy (lg_writer w)) (iw_ice x)) (lg_server w) (lg_index w), r)
  end.

Definition Iceberg_Write (records : list RawRecord) : ice_world → ice_world * result unit :=
  call_writer (Write murmur3 fmt_g time_format json_marshal records) (Legacy_Write records).

Definition Iceberg_Close (cancelled : bool) (finalMetadataState : option MetadataState) (x : ice_world) : ice_world * result unit :=
  let '(x, r) := if cancelled
                 then let '(x, _) := call_writer Arrow_Abort (λ x, (Legacy_Abort x, Ok ())) x in (x, Err "context canceled")
                 else call_writer (Arrow_Close marshal_state finalMetadataState) (Legacy_Close marshal_state finalMetadataState) x in
  let '(s, cleanup) := IngestRequest (iw_server x) (o_ThreadID (ib_options (iw_ice x))) CLOSE_SESSION in
  (mkIceWorld (iw_ice x) s (iw_index x),
   match r, cleanup with
   | Ok _, Ok _ => Ok ()
   | Ok _, Err e => Err e
   | Ok _, Panic m => Panic m
   | r, _ => r
   end).

Definition table_request (stream : ConfiguredStream) (config : IcebergConfig) (options : Options) (info : list PartitionInfo) : TableRequest :=
  let normalized := Normalization (Metadata stream) in
  mkTableRequest (SchemaToIceberg (s_Schema (StreamOf stream)) (negb normalized) (naming stream) (if normalized then [] else pi_Field <$> info))
    (GetDestinationTable stream) (GetDestinationDatabase stream (Some (cf_IcebergDatabase config))) (negb (cf_NoIdentifierFields config))
    (isUpsertMode stream (o_Backfill options)) (protoDeleteMode (GetUpdateType stream)) ((λ p, (pi_SchemaField p, pi_Transform p)) <$> info).

Definition Iceberg_Setup (config : IcebergConfig) (stream : ConfiguredStream) (options : Options) (s : server) (tableIndex : option index)
    : ice_world * result (gmap string string * MetadataState) :=
  let ice info schema writer := mkIceberg options config stream info schema writer in
  match parsePartitionRegex (GetPartitionRegex stream) (ResolveColumnName stream) with
  | Ok info =>
      let upsertMode := isUpsertMode stream (o_Backfill options) in
      let '(s, res) := IngestRequest s (o_ThreadID options) (GET_OR_CREATE_TABLE (table_request stream config options info)) in
      match (response ← res; schema ← parseSchema (ir_Result response);
             meta ← (if String.eqb (ir_2PcState response) "" then Ok no_metadata
                     else match unmarshal_state (ir_2PcState response) with Some m => Ok m | None => Err "failed to unmarshal 2pc metadata state" end);
             Ok (response, schema, meta)) with
      | Ok (response, schema, meta) =>
          let '(s, tableIndex, reconciled) := reconcileTableIndex stream (o_ThreadID options) s tableIndex (ir_SnapshotId response) (ir_HasEqualityDeletes response) in
          match reconciled with
          | Ok _ =>
              if cf_UseArrowWrites config then
                let '(w, r) := Arrow_New schema_fields (o_ThreadID options) stream info schema upsertMode s tableIndex in
                match r with
                | Ok _ => (mkIceWorld (ice info schema (Some (WArrow (aw w)))) (srv w) (ArrowWriter.tableIndex w), Ok (schema, meta))
                | Err e => (mkIceWorld (ice info schema None) (srv w) (ArrowWriter.tableIndex w), Err "failed to create arrow writer")
                | Panic m => (mkIceWorld (ice info schema None) (srv w) (ArrowWriter.tableIndex w), Panic m)
                end
              else (mkIceWorld (ice info schema (Some (WLegacy (Legacy_New options schema stream upsertMode (bool_decide (is_Some tableIndex)))))) s tableIndex, Ok (schema, meta))
          | Err e => (mkIceWorld (ice info schema None) s tableIndex, Err e)
          | Panic m => (mkIceWorld (ice info schema None) s tableIndex, Panic m)
          end
      | Err e => (mkIceWorld (ice info ∅ None) s tableIndex, Err e)
      | Panic m => (mkIceWorld (ice info ∅ None) s tableIndex, Panic m)
      end
  | Err e => (mkIceWorld (ice [] ∅ None) s tableIndex, Err e)
  | Panic m => (mkIceWorld (ice [] ∅ None) s tableIndex, Panic m)
  end.

(** ** Batches and schema evolution *)
Definition FlattenAndCleanData (sees : nat → bool) (i : Iceberg) (records : list RawRecord) : result (bool * list RawRecord * gmap string string) :=
  if negb (Normalization (Metadata (ib_stream i))) then
    records ← mapM_result (pre_shape marshal_data (ib_partitionInfo i)) records;
    Ok (false, records, ib_schema i)
  else
    '(schemaDifference, records, recordsSchema) ← extractSchemaFromRecords json_marshal (ResolveColumnName (ib_stream i)) (ib_schema i) sees records;
    records ← (if o_ApplyFilter (ib_options i) then
                  '(filter, isLegacy) ← GetFilter (ib_stream i);
                  FilterRecords records filter isLegacy (IcebergSchema recordsSchema) (ResolveColumnName (ib_stream i)) (o_KeepDeletesThroughFilter (ib_options i))
                else Ok records);
    Ok (schemaDifference, records, recordsSchema).

Definition differentSchema (oldSchema newSchema : gmap string string) : bool :=
  existsb (λ kv, match oldSchema !! kv.1 with None => true | Some oldType => isPromotionRequired oldType kv.2 end) (range newSchema).

Definition Iceberg_EvolveSchema (globalSchema recordsSchema : gmap string string) (x : ice_world) : ice_world * result (gmap string string) :=
  let i := iw_ice x in
  if negb (Normalization (Metadata (ib_stream i))) then (x, Ok (ib_schema i))
  else
    let request := if differentSchema globalSchema recordsSchema then EVOLVE_SCHEMA (range recordsSchema) else REFRESH_TABLE_SCHEMA in
    let '(s, res) := IngestRequest (iw_server x) (o_ThreadID (ib_options i)) request in
    match (response ← res; parseSchema (ir_Result response)) with
    | Ok schema =>
        match call_writer (Arrow_EvolveSchema schema_fields schema) (λ x, (Legacy_EvolveSchema schema x, Ok ())) (mkIceWorld (with_schema schema i) s (iw_index x)) with
        | (x, Ok _) => (x, Ok schema)
        | (x, Err e) => (x, Err "failed to evolve writer schema")
        | (x, Panic m) => (x, Panic m)
        end
    | Err e => (mkIceWorld i s (iw_index x), Err e)
    | Panic m => (mkIceWorld i s (iw_index x), Panic m)
    end.

Fixpoint DropStreams (config : IcebergConfig) (tables : list ConfiguredStream) (s : server) : server * result unit :=
  match tables with
  | [] => (s, Ok ())
  | stream :: tables =>
      let dropTable := cat [GetDestinationDatabase stream (Some (cf_IcebergDatabase config)); "."; GetDestinationTable stream] in
      match IngestRequest s "iceberg_destination_drop" (DROP_TABLE dropTable) with
      | (s, Ok _) => DropStreams config tables s
      | (s, Err e) => (s, Err "failed to drop table")
      | (s, Panic m) => (s, Panic m)
      end
  end.
End Destination.
