(* ===== verification/TableIndexScan.v ===== *)
(** * destination/iceberg/olake-iceberg-java-writer: TableIndexScanner.java, OlakeTableIndexer.java

    The scan the destination's Java service answers index requests with: the data files of the
    table, or those added since a snapshot, oldest first, every row of them with its
    identity and place, in batches.  What the Iceberg library reports of a table (its
    current snapshot, the files of a scan, its snapshots with their parents and added
    files, the rows of a file) is data of the model.  Texts of errors are shortened; a scan
    its caller abandons, waiting for the transport and the sessions of the service are not
    modelled. *)

From stdpp Require Import sorting.
From S2P Require Import Prelude GoString GoSet DataTypes QueryEngine Value ValueFacts Schema Stream Catalog State Fields IndexDB Jdbc Chunking Transforms ArrowWriter Iceberg.

(** A data file: its location, data sequence number (it may be null), whether it is a Parquet file,
    and the identifier of each row in file order, null or not. *)
Record DataFile := mkDataFile { df_location : string; df_dataSequenceNumber : option Z; df_parquet : bool; df_ids : list (option string) }.
(** A snapshot; its added files are unreadable once its manifests have expired. *)
Record Snapshot := mkSnapshot { sn_snapshotId : Z; sn_parentId : option Z; sn_addedDataFiles : option (list DataFile) }.
Record IceTable := mkIceTable {
  it_currentSnapshot : option Z;
  it_planFiles : list DataFile;       (* the tasks of a scan, which may name a file more than once *)
  it_snapshots : list Snapshot;
  it_identifier : bool                (* the table has the identifier column *)
}.
#[export] Instance data_file_eq : EqDecision DataFile.
Proof. solve_decision. Defined.

Definition snapshot (t : IceTable) (id : Z) : option Snapshot := lookup_first (λ s, sn_snapshotId s =? id) (it_snapshots t).

(** Each step follows a parent, so a history without cycles is left after as many steps as it has
    snapshots ([snapshotRange_enough]). *)
Fixpoint snapshotRange_loop (t : IceTable) (fuel : nat) (fromSnapshotId : Z) (cursor : option Z) (newestFirst : list Snapshot) : option (list Snapshot) :=
  match fuel, cursor with
  | S fuel, Some c =>
      if c =? fromSnapshotId then Some (reverse newestFirst)
      else match snapshot t c with
           | None => None
           | Some s => snapshotRange_loop t fuel fromSnapshotId (sn_parentId s) (newestFirst ++ [s])
           end
  | _, _ => None
  end.
Definition snapshotRange (t : IceTable) (fromSnapshotId toSnapshotId : Z) : option (list Snapshot) :=
  snapshotRange_loop t (S (length (it_snapshots t))) fromSnapshotId (Some toSnapshotId) [].

(** [putIfAbsent] by location: the first file of a location is kept. *)
Definition putIfAbsent (files : list DataFile) (f : DataFile) : list DataFile :=
  if existsb (λ g, String.eqb (df_location g) (df_location f)) files then files else files ++ [f].

(** Locations are compared by their bytes, as Java does by UTF-16 units for characters up to U+D7FF. *)
Definition sequence_of (f : DataFile) : Z := default 0 (df_dataSequenceNumber f).
Definition older (f g : DataFile) : Prop :=
  sequence_of f < sequence_of g ∨ sequence_of f = sequence_of g ∧ String.compare (df_location f) (df_location g) ≠ Gt.
#[export] Instance older_dec f g : Decision (older f g).
Proof. unfold older. apply _. Defined.
Definition sortedOldestFirst (files : list DataFile) : list DataFile := merge_sort older files.

Definition currentDataFiles (t : IceTable) : list DataFile := sortedOldestFirst (foldl putIfAbsent [] (it_planFiles t)).

Definition dataFileChangesSince (t : IceTable) (fromSnapshotId toSnapshotId : Z) : option (list DataFile) :=
  range ← snapshotRange t fromSnapshotId toSnapshotId;
  added ← mapM sn_addedDataFiles range;
  Some (sortedOldestFirst (foldl putIfAbsent [] (concat added))).

(** The files a scan reads, once there is a snapshot. *)
Definition scanned (t : IceTable) (fromSnapshotId : option Z) (current : Z) : option (list DataFile) :=
  match fromSnapshotId with
  | None => Some (currentDataFiles t)
  | Some from => if from =? current then Some [] else dataFileChangesSince t from current
  end.

(** The entries of a file: every row with an identifier, deleted or not. *)
Definition emitFile (f : DataFile) : list (string * RowLocation) :=
  omap (λ kid : nat * option string, id ← kid.2; Some (id, mkLocation (df_location f) (Z.of_nat kid.1))) (imap pair (df_ids f)).

(** The entries emitted until the first file that cannot be read. *)
Fixpoint emit_files (files : list DataFile) : list (string * RowLocation) * option string :=
  match files with
  | [] => ([], None)
  | f :: files =>
      if df_parquet f then let '(es, err) := emit_files files in (emitFile f ++ es, err)
      else ([], Some "table index scanning supports parquet data files only")
  end.

(** What [scan] tells the consumer: the snapshot it begins with, if it begins, the entries, and the
    error it ends in. *)
Definition scan (t : IceTable) (fromSnapshotId : option Z) : option Z * list (string * RowLocation) * option string :=
  match it_currentSnapshot t with
  | None => (Some 0, [], None)
  | Some current =>
      match scanned t fromSnapshotId current with
      | None => (None, [], Some "cannot catch up stream index: full scan of index required")
      | Some addedFiles =>
          if it_identifier t then let '(es, err) := emit_files addedFiles in (Some current, es, err)
          else (Some current, [], Some "table has no identifier column to index rows by")
      end
  end.

(** ** BatchEmitter *)
Definition BATCH_SIZE : Z := 10000.
Record BatchEmitter := mkEmitter { be_sent : list TableIndexScanBatch; be_batch : list (string * RowLocation); be_snapshotId : Z }.
Definition send_batch (b : BatchEmitter) : BatchEmitter := mkEmitter (be_sent b ++ [mkScanBatch (be_batch b) (be_snapshotId b)]) [] (be_snapshotId b).
Definition accept (b : BatchEmitter) (e : string * RowLocation) : BatchEmitter :=
  let b := mkEmitter (be_sent b) (be_batch b ++ [e]) (be_snapshotId b) in
  if BATCH_SIZE <=? Z.of_nat (length (be_batch b)) then send_batch b else b.
Definition finish (b : BatchEmitter) : BatchEmitter :=
  match be_batch b, be_sent b with [], _ :: _ => b | _, _ => send_batch b end.

Definition scanTableForIndexing (t : IceTable) (fromSnapshotId : option Z) : scan_stream :=
  let '(begun, entries, err) := scan t fromSnapshotId in
  let emitter := foldl accept (mkEmitter [] [] (default 0 begun)) entries in
  match err with
  | None => mkScan (be_sent (finish emitter)) None
  | Some e => mkScan (be_sent emitter) (Some e)
  end.

(** ** What a scan reports *)
Definition all_entries (bs : list TableIndexScanBatch) : list (string * RowLocation) := concat (sb_Entries <$> bs).
#[global] Arguments all_entries : simpl never.
Lemma all_entries_app bs bs' : all_entries (bs ++ bs') = all_entries bs ++ all_entries bs'.
Proof. unfold all_entries. by rewrite fmap_app, concat_app. Qed.

Lemma accept_all es b :
  all_entries (be_sent (foldl accept b es)) ++ be_batch (foldl accept b es) = all_entries (be_sent b) ++ be_batch b ++ es
  ∧ be_snapshotId (foldl accept b es) = be_snapshotId b
  ∧ (Forall (λ x, sb_SnapshotId x = be_snapshotId b) (be_sent b) → Forall (λ x, sb_SnapshotId x = be_snapshotId b) (be_sent (foldl accept b es))).
Proof.
  revert b. induction es as [|e es IH]; intros b; cbn [foldl]; [by rewrite app_nil_r|].
  destruct (IH (accept b e)) as (-> & -> & IH3). unfold accept in *. destruct (BATCH_SIZE <=? _); cbn in *.
  - rewrite all_entries_app. unfold all_entries at 2. cbn. rewrite app_nil_r, <- !app_assoc. split_and!; [done..|].
    intros Hb. apply IH3, Forall_app. split; [done|]. by constructor.
  - by rewrite <- !app_assoc.
Qed.

(** The batches of a scan carry its snapshot and its entries in order: all of them, with at least
    one batch, when it ends without error. *)
Lemma scan_batches t from :
  let '(begun, es, err) := scan t from in
  let st := scanTableForIndexing t from in
  sc_error st = err ∧ Forall (λ b, sb_SnapshotId b = default 0 begun) (sc_batches st)
  ∧ (∃ rest, es = all_entries (sc_batches st) ++ rest ∧ (err = None → rest = [] ∧ sc_batches st ≠ [])).
Proof.
  unfold scanTableForIndexing. destruct (scan t from) as [[begun es] err].
  destruct (accept_all es (mkEmitter [] [] (default 0 begun))) as (Hes & Hsid & Hall). cbn in Hes, Hsid, Hall. specialize (Hall (Forall_nil_2 _)).
  set (b := foldl accept _ es) in *. clearbody b. change (all_entries [] ++ es) with es in Hes. destruct err as [e|]; cbn.
  { split_and!; [done..|]. exists (be_batch b). by rewrite Hes. }
  unfold finish, send_batch. destruct (be_batch b) as [|x l] eqn:Eb; [destruct (be_sent b) as [|y k] eqn:Es|]; cbn; rewrite ?Es, ?Eb in *.
  - split_and!; [done|by rewrite Hsid; repeat constructor|]. exists []. by rewrite <- Hes.
  - split_and!; [done|done|]. exists []. by rewrite <- Hes.
  - rewrite Hsid. split_and!; [done|apply Forall_app; split; [done|by repeat constructor]|]. exists []. rewrite all_entries_app. unfold all_entries at 2. cbn. rewrite !app_nil_r.
    split; [by rewrite <- Hes|]. intros _. split; [done|]. by destruct (be_sent b).
Qed.

Lemma emitFile_elem f id p n :
  (id, mkLocation p n) ∈ emitFile f ↔ p = df_location f ∧ 0 ≤ n ∧ df_ids f !! Z.to_nat n = Some (Some id).
Proof.
  unfold emitFile. rewrite list_elem_of_omap. split.
  - intros ([k o] & Hin & Hs). apply elem_of_lookup_imap in Hin as (k' & o' & [= -> ->] & Hk). cbn in Hs. destruct o' as [i|]; [|done]. cbn in Hs. injection Hs as <- <- <-.
    rewrite Nat2Z.id. split_and!; [done|lia|done].
  - intros (-> & Hn & Hid). exists (Z.to_nat n, Some id). split; [apply elem_of_lookup_imap; eauto|]. cbn. by rewrite Z2Nat.id.
Qed.

(** Rows are read in the order of their places: file by file, each from its first row. *)
Definition before (f : DataFile) (n : Z) (g : DataFile) (m : Z) : Prop :=
  sequence_of f < sequence_of g ∨ sequence_of f = sequence_of g ∧
  (String.compare (df_location f) (df_location g) = Lt ∨ df_location f = df_location g ∧ n < m).

#[export] Instance older_total : Total older.
Proof.
  intros f g. unfold older. destruct (Z.lt_trichotomy (sequence_of f) (sequence_of g)) as [|[He|]]; [auto| |auto].
  pose proof (string_compare_anti (df_location f) (df_location g)) as Ha. destruct (String.compare (df_location f) (df_location g)); [left|left|right]; right; (split; [lia|]); by rewrite ?Ha.
Qed.
#[export] Instance older_trans : Transitive older.
Proof.
  intros f g h [?|[? H1]] [?|[? H2]]; unfold older; [left; lia..|]. right. split; [lia|]. by eapply string_compare_trans.
Qed.

(** ** The last entry of an identity *)

(** Files of different locations in the order of the sort are strictly ordered. *)
Definition younger (f g : DataFile) : Prop :=
  sequence_of f < sequence_of g ∨ sequence_of f = sequence_of g ∧ String.compare (df_location f) (df_location g) = Lt.

Lemma putIfAbsent_spec l acc :
  NoDup (df_location <$> acc) →
  NoDup (df_location <$> foldl putIfAbsent acc l)
  ∧ (∀ f, f ∈ foldl putIfAbsent acc l → f ∈ acc ∨ f ∈ l)
  ∧ ∀ f, f ∈ acc ++ l → ∃ g, g ∈ foldl putIfAbsent acc l ∧ df_location g = df_location f.
Proof.
  revert acc. induction l as [|x l IH]; intros acc Hnd; cbn [foldl].
  { split_and!; [done|by left|]. intros f. rewrite app_nil_r. eauto. }
  unfold putIfAbsent at 2 4 6. destruct (existsb _ acc) eqn:E.
  - destruct (IH acc Hnd) as (H1 & H2 & H3). split_and!; [done|intros f Hf; destruct (H2 f Hf); set_solver|].
    intros f [Hf|[->|Hf]%elem_of_cons]%elem_of_app; [apply H3; set_solver| |apply H3; set_solver].
    apply existsb_exists in E as (g & Hg%list_elem_of_In & Hl%String.eqb_eq). destruct (H3 g) as (g' & ? & ?); [set_solver|]. exists g'. split; [done|congruence].
  - assert (Hfresh : df_location x ∉ df_location <$> acc).
    { intros (g & Hg & Hin)%list_elem_of_fmap. assert (existsb (λ g, String.eqb (df_location g) (df_location x)) acc = true); [|congruence].
      apply existsb_exists. exists g. split; [by apply list_elem_of_In|]. by apply String.eqb_eq. }
    destruct (IH (acc ++ [x])) as (H1 & H2 & H3).
    { rewrite fmap_app. apply NoDup_app. split_and!; [done| |by apply NoDup_singleton]. intros y Hy ->%list_elem_of_singleton. done. }
    split_and!; [done|intros f Hf; destruct (H2 f Hf); set_solver|]. intros f Hf. apply H3. set_solver.
Qed.

Lemma sorted_younger l : NoDup (df_location <$> l) → StronglySorted younger (sortedOldestFirst l).
Proof.
  intros Hnd. pose proof (merge_sort_Permutation older l) as Hp. pose proof (StronglySorted_merge_sort older l) as Hs. fold (sortedOldestFirst l) in *.
  rewrite <- Hp in Hnd. revert Hnd Hs. generalize (sortedOldestFirst l). clear. intros l.
  induction l as [|f l IH]; [constructor|]. intros [Hf Hnd]%NoDup_cons [Hfl Hs]%StronglySorted_cons. constructor; [by apply IH|].
  rewrite Forall_forall in Hfl |- *. intros g Hg. destruct (Hfl g Hg) as [?|[He Hc]]; [by left|right]. split; [done|].
  destruct (String.compare (df_location f) (df_location g)) eqn:E; [|done|done]. apply string_compare_eq in E. destruct Hf. rewrite E. by apply list_elem_of_fmap_2.
Qed.

(** A row is reported after every row of its identity that is not in a later place. *)
Definition no_later (f : DataFile) (n : Z) (g : DataFile) (m : Z) : Prop :=
  sequence_of f < sequence_of g ∨ sequence_of f = sequence_of g ∧
  (String.compare (df_location f) (df_location g) = Lt ∨ df_location f = df_location g ∧ n ≤ m).

Lemma emitFile_split f m id :
  0 ≤ m → df_ids f !! Z.to_nat m = Some (Some id) →
  ∃ l1 l2, emitFile f = l1 ++ (id, mkLocation (df_location f) m) :: l2
    ∧ ∀ id' p n, (id', mkLocation p n) ∈ l2 → m < n ∧ df_ids f !! Z.to_nat n = Some (Some id').
Proof.
  intros Hm Hid. unfold emitFile. pose proof (lookup_lt_Some _ _ _ Hid) as Hlt.
  eexists _, _. split.
  { rewrite <- (take_drop_middle _ _ _ Hid) at 1. rewrite imap_app, omap_app. cbn. rewrite length_take_le, Nat.add_0_r, Z2Nat.id by lia. reflexivity. }
  intros id' p n ([k o] & (k' & o' & [= -> ->] & Hk)%elem_of_lookup_imap & Hs)%list_elem_of_omap.
  cbn in Hs. destruct o' as [i|]; [|done]. injection Hs as <- <- <-. rewrite lookup_drop in Hk. split; [lia|].
  rewrite Nat2Z.id, <- Hk. f_equal. lia.
Qed.

Lemma compare_refl s : String.compare s s = Eq.
Proof. pose proof (string_compare_anti s s). by destruct (String.compare s s). Qed.
Lemma younger_no_later f g n m : younger f g → no_later g n f m → False.
Proof.
  unfold younger, no_later. intros [?|[? Hy]] [?|[? Hl]]; try lia. pose proof (string_compare_anti (df_location f) (df_location g)) as Ha. rewrite Hy in Ha.
  destruct Hl as [Hl|[Hl _]]; [by rewrite Hl in Ha|]. by rewrite Hl, compare_refl in Hy.
Qed.

(** The entries of the files in order: those of one identity end with the row no other row of the
    identity comes after. *)
Lemma emitted_last files g m id :
  StronglySorted younger files → g ∈ files → 0 ≤ m → df_ids g !! Z.to_nat m = Some (Some id) →
  (∀ f n, f ∈ files → 0 ≤ n → df_ids f !! Z.to_nat n = Some (Some id) → no_later f n g m) →
  ∃ l1 l2, concat (emitFile <$> files) = l1 ++ (id, mkLocation (df_location g) m) :: l2 ∧ id ∉ l2.*1.
Proof.
  intros Hs Hg Hm Hid Hlast. induction Hs as [|f files Hs IH Hf]; [by apply not_elem_of_nil in Hg|]. cbn [fmap list_fmap concat].
  destruct (decide (g ∈ files)) as [Hin|Hout].
  - destruct IH as (l1 & l2 & -> & Hn); [done|intros f' n Hf'; apply Hlast; by right|]. exists (emitFile f ++ l1), l2. by rewrite <- app_assoc.
  - apply elem_of_cons in Hg as [->|]; [|done]. destruct (emitFile_split f m id Hm Hid) as (l1 & l2 & He & Hl2). rewrite He.
    exists l1, (l2 ++ concat (emitFile <$> files)). split; [by rewrite <- app_assoc|].
    rewrite fmap_app. intros [([id' [p n]] & -> & Hy)%list_elem_of_fmap|([id' [p n]] & -> & Hy)%list_elem_of_fmap]%elem_of_app.
    + destruct (Hl2 _ _ _ Hy) as [Hlt Hidn]. destruct (Hlast f n) as [?|[_ [Hc|[_ Hle]]]]; [left|lia|done|lia|by rewrite compare_refl in Hc|lia].
    + apply list_elem_of_In, in_concat in Hy as (es & Hes & Hy). apply list_elem_of_In in Hes, Hy. apply list_elem_of_fmap in Hes as (f' & -> & Hf').
      apply emitFile_elem in Hy as (-> & Hn & Hidn). cbn in Hidn. rewrite Forall_forall in Hf.
      eapply younger_no_later; [by apply Hf|]. apply Hlast; [by right|done|done].
Qed.

(** ** The files of a scan *)
Lemma scanned_sorted t from current files : scanned t from current = Some files → StronglySorted younger files.
Proof.
  unfold scanned, currentDataFiles, dataFileChangesSince. intros Hs. destruct from as [from|].
  - destruct (from =? current); [injection Hs as <-; constructor|]. apply bind_Some in Hs as (r & _ & (a & _ & [= <-])%bind_Some).
    apply sorted_younger, putIfAbsent_spec. constructor.
  - injection Hs as <-. apply sorted_younger, putIfAbsent_spec. constructor.
Qed.

Lemma sorted_elem files f : f ∈ sortedOldestFirst files ↔ f ∈ files.
Proof. unfold sortedOldestFirst. by rewrite merge_sort_Permutation. Qed.

(** A scan without a starting snapshot reads every location of the table. *)
Lemma current_files_all t f : f ∈ it_planFiles t → ∃ g, g ∈ currentDataFiles t ∧ df_location g = df_location f.
Proof.
  intros Hf. destruct (putIfAbsent_spec (it_planFiles t) []) as (_ & _ & H3); [constructor|]. destruct (H3 f) as (g & Hg & ?); [set_solver|].
  exists g. split; [by apply sorted_elem|done].
Qed.
Lemma current_files_known t f : f ∈ currentDataFiles t → f ∈ it_planFiles t.
Proof.
  unfold currentDataFiles. rewrite sorted_elem. intros Hf. destruct (putIfAbsent_spec (it_planFiles t) []) as (_ & H2 & _); [constructor|].
  destruct (H2 f Hf) as [Hx|]; [by apply not_elem_of_nil in Hx|done].
Qed.

(** Files known of a table: those of its current snapshot and those its snapshots added. *)
Definition known (t : IceTable) (f : DataFile) : Prop :=
  f ∈ it_planFiles t ∨ ∃ s fs, s ∈ it_snapshots t ∧ sn_addedDataFiles s = Some fs ∧ f ∈ fs.

Lemma snapshotRange_known t fuel from cursor acc range :
  snapshotRange_loop t fuel from cursor acc = Some range → (∀ s, s ∈ acc → s ∈ it_snapshots t) → ∀ s, s ∈ range → s ∈ it_snapshots t.
Proof.
  revert cursor acc. induction fuel as [|fuel IH]; intros cursor acc; [done|]. destruct cursor as [c|]; [|done]. cbn.
  destruct (c =? from). { intros [= <-] Hacc s Hs. apply Hacc. by apply elem_of_reverse. }
  destruct (snapshot t c) as [s0|] eqn:Es; [|done]. intros Hr Hacc. eapply IH; [exact Hr|]. intros s [?| ->%list_elem_of_singleton]%elem_of_app; [auto|].
  by apply lookup_first_Some in Es as [? _].
Qed.
Lemma scanned_known t from current files f : scanned t from current = Some files → f ∈ files → known t f.
Proof.
  unfold scanned. intros Hs Hf. destruct from as [from|]; [|injection Hs as <-; left; by apply current_files_known].
  destruct (from =? current); [injection Hs as <-; by apply not_elem_of_nil in Hf|].
  unfold dataFileChangesSince in Hs. apply bind_Some in Hs as (r & Hr & (a & Ha & [= <-])%bind_Some). rewrite sorted_elem in Hf.
  destruct (putIfAbsent_spec (concat a) []) as (_ & H2 & _); [constructor|]. destruct (H2 f Hf) as [Hx|Hx]; [by apply not_elem_of_nil in Hx|].
  apply list_elem_of_In, in_concat in Hx as (fs & Hfs & Hx). apply list_elem_of_In in Hfs, Hx. right.
  apply mapM_Some in Ha. apply list_elem_of_lookup in Hfs as (k & Hk). destruct (Forall2_lookup_r _ _ _ _ _ Ha Hk) as (s & Hsk & Hadd).
  exists s, fs. split_and!; [|done|done]. eapply snapshotRange_known; [exact Hr|by intros ? ?%not_elem_of_nil|by eapply list_elem_of_lookup_2].
Qed.

(** The entries a scan reports without error are those of its files in order. *)
Lemma emit_files_prefix files : let '(es, err) := emit_files files in
  ∃ rest, concat (emitFile <$> files) = es ++ rest ∧ (err = None → rest = []).
Proof.
  induction files as [|f files IH]; cbn; [by exists []|]. destruct (df_parquet f); [|by eexists].
  destruct (emit_files files) as [es err]. destruct IH as (rest & -> & Hr). exists rest. by rewrite <- app_assoc.
Qed.

(** ** Histories

    Following parents ends: if the parent of every snapshot is listed after it, the fuel of
    [snapshotRange] is enough, more gives the same answer. *)
Definition newest_first (t : IceTable) : Prop :=
  ∀ k s c, it_snapshots t !! k = Some s → sn_parentId s = Some c →
    ∀ j, (j ≤ k)%nat → ∀ s', it_snapshots t !! j = Some s' → sn_snapshotId s' ≠ c.

Lemma lookup_first_index {A} (p : A → bool) l x : lookup_first p l = Some x → ∃ k, l !! k = Some x ∧ p x = true.
Proof. intros [Hin Hp]%lookup_first_Some. apply list_elem_of_lookup in Hin as [k Hk]. by exists k. Qed.

Lemma snapshotRange_loop_enough t from extra fuel c acc k :
  newest_first t → (∀ j s', (j < k)%nat → it_snapshots t !! j = Some s' → sn_snapshotId s' ≠ c) → (length (it_snapshots t) - k ≤ fuel)%nat →
  snapshotRange_loop t (S fuel + extra) from (Some c) acc = snapshotRange_loop t (S fuel) from (Some c) acc.
Proof.
  intros Hn. revert c acc k. induction fuel as [|fuel IH]; intros c acc k Hk Hle; cbn.
  all: destruct (c =? from); [done|]; destruct (snapshot t c) as [s|] eqn:Es; [|done].
  all: apply lookup_first_index in Es as (j & Hj & Hc%Z.eqb_eq); pose proof (lookup_lt_Some _ _ _ Hj).
  - exfalso. apply (Hk j s); [lia|done|done].
  - destruct (sn_parentId s) as [c'|] eqn:Ep; [|done]. apply (IH c' _ (S j)); [intros i s' Hi; apply (Hn j s c'); [done|done|lia]|].
    destruct (decide (j < k)%nat) as [Hjk|]; [by destruct (Hk j s Hjk Hj)|lia].
Qed.
Lemma snapshotRange_enough t from c extra :
  newest_first t → snapshotRange_loop t (S (length (it_snapshots t)) + extra) from (Some c) [] = snapshotRange t from c.
Proof. intros Hn. apply (snapshotRange_loop_enough t from extra _ c [] 0 Hn); lia. Qed.

(** A scan that does not begin sends nothing. *)
Lemma scan_refused t from current :
  it_currentSnapshot t = Some current → scanned t from current = None → sc_batches (scanTableForIndexing t from) = [].
Proof. intros Hc Hs. unfold scanTableForIndexing, scan. by rewrite Hc, Hs. Qed.
