(* ===== verification/IcebergIndexFacts.v ===== *)
(** * Theorems about the stream index of an Iceberg table

    The index catches up with the table before a thread writes, an interrupted catch-up
    can be resumed, and a sync that commits leaves the last version of every record and
    an index the next sync can use. *)

From S2P Require Import Prelude GoString GoSet DataTypes QueryEngine Value ValueFacts Schema Stream StreamFacts Catalog State StateFacts Fields FieldsFacts Writers TwoPC IndexDB IndexDBFacts Jdbc Chunking Transforms ArrowWriter ArrowWriterFacts ArrowUpsertFacts ArrowCommitFacts ArrowIndexFacts Iceberg TableIndexScan.

(** ** The index and the table *)

(** Entries are stored in the order they arrive: the last one of an identity stays. *)
Definition overlay (es : list (string * RowLocation)) (m : gmap string RowLocation) : gmap string RowLocation :=
  foldl (λ m e, <[e.1 := e.2]> m) m es.
#[local] Arguments overlay : simpl never.
Lemma overlay_cons k l es m : overlay ((k, l) :: es) m = overlay es (<[k := l]> m).
Proof. done. Qed.
Lemma overlay_app es es' m : overlay (es ++ es') m = overlay es' (overlay es m).
Proof. apply foldl_app. Qed.
Lemma overlay_union es c m : overlay es c ∪ m = overlay es (c ∪ m).
Proof. revert c. induction es as [|e es IH]; intros c; [done|]. destruct e as [k l]. by rewrite !overlay_cons, IH, insert_union_l. Qed.
Lemma overlay_lookup es m id loc : overlay es m !! id = Some loc → (id, loc) ∈ es ∨ m !! id = Some loc.
Proof.
  induction es as [|[k l] es IH] using rev_ind; [by right|]. rewrite overlay_app. rewrite overlay_cons. unfold overlay at 1. cbn [foldl]. destruct (decide (k = id)) as [->|Hne].
  - rewrite lookup_insert_eq. intros [= ->]. left. apply elem_of_app. right. by left.
  - rewrite lookup_insert_ne by done. intros [?|?]%IH; [left; set_solver|by right].
Qed.
Lemma overlay_other es m id : id ∉ es.*1 → overlay es m !! id = m !! id.
Proof.
  revert m. induction es as [|[k l] es IH]; intros m Hn; [done|]. cbn in Hn. rewrite overlay_cons, IH by set_solver. by rewrite lookup_insert_ne by set_solver.
Qed.
(** What is stored for an identity that occurs does not depend on what was there. *)
Lemma overlay_occurs es m m' id : id ∈ es.*1 → overlay es m !! id = overlay es m' !! id.
Proof.
  revert m m'. induction es as [|[k l] es IH]; intros m m'; [by intros ?%not_elem_of_nil|]. rewrite !overlay_cons. cbn. intros Hin. destruct (decide (id ∈ es.*1)) as [|Hno]; [by apply IH|].
  rewrite !overlay_other by done. apply elem_of_cons in Hin as [->|?]; [|done]. by rewrite !lookup_insert_eq.
Qed.
Lemma overlay_changes es b : changes (foldl (λ b e, Put b e.1 e.2) b es) = overlay es (changes b).
Proof. revert b. induction es as [|e es IH]; intros b; [done|]. destruct e as [k l]. rewrite overlay_cons. cbn. by rewrite IH. Qed.
Lemma overlay_size es m : (size (overlay es m) ≤ size m + length es)%nat.
Proof.
  revert m. induction es as [|[k l] es IH]; intros m; [unfold overlay; cbn; lia|]. rewrite overlay_cons. etransitivity; [apply IH|].
  rewrite map_size_insert. destruct (m !! k); cbn; lia.
Qed.

(** Two files of one commit are read by location: the row of the later location stays in the
    index although it is the older version, whose row was deleted. *)
Lemma scan_points_at_dead_row :
  let newer := mkDataFile "data/a" (Some 5) true [Some "x"] in
  let older_deleted := mkDataFile "data/b" (Some 5) true [Some "x"] in
  let t := mkIceTable (Some 9) [older_deleted; newer] [mkSnapshot 9 None (Some [older_deleted; newer])] true in
  overlay (all_entries (sc_batches (scanTableForIndexing t None))) ∅ !! "x" = Some (mkLocation "data/b" 0).
Proof. vm_compute. reflexivity. Qed.

Section Drain.
Context {HX : StreamIndex} {HI : IndexSpec}.
Implicit Types (i : index) (es : list (string * RowLocation)) (m : gmap string RowLocation).

Definition entries_ok es : Prop := ∀ id loc, (id, loc) ∈ es → 0 ≤ Position loc ≤ MaxInt64.
Definition last_snapshot_of (sid : Z) (bs : list TableIndexScanBatch) : Z := default sid (sb_SnapshotId <$> last bs).

Lemma last_snapshot_cons sid b bs : last_snapshot_of sid (b :: bs) = last_snapshot_of (sb_SnapshotId b) bs.
Proof. unfold last_snapshot_of. rewrite last_cons. by destruct (last bs). Qed.

Lemma drain_loop_spec bs ending i fl pd m snap buffered sid n :
  index_holds i (overlay fl m) snap → entries_ok pd → entries_ok (all_entries bs) → index_room i (length pd + length (all_entries bs)) →
  - 2 ^ 63 ≤ sid < 2 ^ 63 → (∀ b, b ∈ bs → - 2 ^ 63 ≤ sb_SnapshotId b < 2 ^ 63) →
  let '(i', r) := drain_loop bs ending i (mkThread (overlay pd ∅)) buffered sid n in
  (∃ es1 es2, fl ++ pd ++ all_entries bs = es1 ++ es2 ∧ index_holds i' (overlay es1 m) snap ∧ ∀ x, r ≠ Ok x)
  ∨ (ending = None ∧ index_holds i' (overlay (fl ++ pd ++ all_entries bs) m) (last_snapshot_of sid bs) ∧ ∃ x, r = Ok x).
Proof.
  assert (Hval : ∀ pd, entries_ok pd → valid_changes (overlay pd ∅)).
  { intros pd' Hok k loc [Hin|Hm]%overlay_lookup; [by apply (Hok k)|by rewrite lookup_empty in Hm]. }
  assert (Hsz : ∀ pd, (size (overlay pd ∅ : gmap string RowLocation) ≤ length pd)%nat) by (intros pd'; pose proof (overlay_size pd' ∅) as Hs; by rewrite map_size_empty in Hs).
  assert (Hun : ∀ fl pd, overlay pd ∅ ∪ overlay fl m = overlay (fl ++ pd) m) by (intros fl' pd'; by rewrite overlay_union, map_empty_union, overlay_app).
  revert i fl pd buffered sid n. induction bs as [|b bs IH]; intros i fl pd buffered sid n Hh Hpd Hbs Hroom Hsid Hsb; cbn [drain_loop].
  - destruct ending as [e|]; [left; exists fl, pd; by rewrite app_nil_r|]. rewrite !app_nil_r in *. cbn in Hroom. rewrite Nat.add_0_r in Hroom.
    destruct (commit_law i (overlay fl m) snap (mkThread (overlay pd ∅)) (Some sid) Hh) as (i' & -> & Hh' & _);
      [by apply Hval|eapply room_mono; [exact Hroom|apply Hsz]|by intros y [= <-]|]. cbn in Hh'. rewrite Hun in Hh'. right. eauto.
  - assert (Hsb' : ∀ b', b' ∈ bs → - 2 ^ 63 ≤ sb_SnapshotId b' < 2 ^ 63) by (intros b' Hb'; apply Hsb; by right).
    assert (Hb : - 2 ^ 63 ≤ sb_SnapshotId b < 2 ^ 63) by (apply Hsb; left).
    change (all_entries (b :: bs)) with (sb_Entries b ++ all_entries bs) in *. rewrite length_app in Hroom.
    assert (Hbs' : entries_ok (all_entries bs)) by (intros id loc Hin; apply (Hbs id); set_solver).
    assert (Hpd' : entries_ok (pd ++ sb_Entries b)) by (intros id loc [Hin|Hin]%elem_of_app; [by apply (Hpd id)|apply (Hbs id); set_solver]).
    assert (Hc : foldl (λ b e, Put b e.1 e.2) (mkThread (overlay pd ∅)) (sb_Entries b) = mkThread (overlay (pd ++ sb_Entries b) ∅)).
    { transitivity (mkThread (changes (foldl (λ b e, Put b e.1 e.2) (mkThread (overlay pd ∅)) (sb_Entries b)))); [by destruct (foldl _ _ _)|]. rewrite overlay_changes. cbn [changes]. by rewrite overlay_app. }
    rewrite Hc, last_snapshot_cons. replace (fl ++ pd ++ sb_Entries b ++ all_entries bs) with (fl ++ (pd ++ sb_Entries b) ++ all_entries bs) by (by rewrite <- app_assoc).
    destruct (_ <=? _) eqn:Efl; [|apply IH; try done; eapply room_mono; [exact Hroom|rewrite length_app; lia]].
    unfold flush_scan. destruct (_ =? 0) eqn:E0; [apply IH; try done; eapply room_mono; [exact Hroom|rewrite length_app; lia]|].
    destruct (commit_law i (overlay fl m) snap (mkThread (overlay (pd ++ sb_Entries b) ∅)) None Hh) as (i' & -> & Hh' & Hr);
      [by apply Hval|eapply room_mono; [exact Hroom|pose proof (Hsz (pd ++ sb_Entries b)) as Hx; rewrite length_app in Hx; cbn; lia]|done|].
    cbn in Hh'. rewrite Hun in Hh'. specialize (IH i' (fl ++ pd ++ sb_Entries b) [] 0 (sb_SnapshotId b) (n + Z.of_nat (length (sb_Entries b)))). cbn [app] in IH.
    rewrite <- !app_assoc in IH. rewrite <- app_assoc. change NewStreamIndexThread with (mkThread (overlay [] ∅)). apply IH; try done; [by intros ? ? ?%not_elem_of_nil|]. apply Hr. eapply room_mono; [exact Hroom|].
    pose proof (Hsz (pd ++ sb_Entries b)) as Hx. rewrite length_app in Hx. cbn. lia.
Qed.
End Drain.

(** What the destination relies on of an Iceberg table and its transport: the snapshots of
    the table, its rows then and the identities of the rows of files added since.  The data files the
    library knows are immutable, each has its own location, and a live row is in a data
    file of the current snapshot; a live row in no file added since an older snapshot was
    live then.  The batches of a scan ([scanTableForIndexing], the service's own code)
    arrive in order, all of them or some first ones and an error.  Rewriting equality
    deletes keeps the rows, and no request forgets a snapshot or a file added since. *)
Class IndexableServer {HC : ServerClient} {HS : ArrowServer} {HG : IcebergServer} := {
  ice_table : server → IceTable;
  snapshots : server → gset Z;
  rows_then : server → Z → string → Z → option trow;
  added : server → Z → gset string;
  snapshot_range : ∀ s, - 2 ^ 63 ≤ table_snapshot s < 2 ^ 63;
  no_snapshot : ∀ s p n, table_snapshot s = 0 → row_at s p n = None;
  current_then : ∀ s, table_snapshot s ≠ 0 → table_snapshot s ∈ snapshots s ∧ rows_then s (table_snapshot s) = row_at s ∧ added s (table_snapshot s) = ∅;
  table_current : ∀ s, default 0 (it_currentSnapshot (ice_table s)) = table_snapshot s;
  files_unique : ∀ s f g, known (ice_table s) f → known (ice_table s) g → df_location f = df_location g → f = g;
  files_named : ∀ s f, known (ice_table s) f → base (df_location f) ∈ named s ∧ Z.of_nat (length (df_ids f)) ≤ MaxInt64;
  row_file : ∀ s p n r, row_at s p n = Some r →
    ∃ g, g ∈ it_planFiles (ice_table s) ∧ df_location g = p ∧ 0 ≤ n ∧ df_ids g !! Z.to_nat n = Some (row_id r);
  files_since : ∀ s snap files, snap ∈ snapshots s → dataFileChangesSince (ice_table s) snap (table_snapshot s) = Some files →
    (∀ id, id ∈ added s snap ↔ ∃ f, f ∈ files ∧ Some id ∈ df_ids f)
    ∧ ∀ p n r, row_at s p n = Some r → (∃ f, f ∈ files ∧ df_location f = p) ∨ rows_then s snap p n = Some r;
  on_scan : ∀ s t from st, ScanTableForIndexing s t from = Ok st →
    let full := scanTableForIndexing (ice_table s) from in
    st = full ∨ ∃ k e, st = mkScan (take k (sc_batches full)) (Some e);
  on_migrate : ∀ s t mode s' r, MigrateEqualityDeletes s t mode = (s', r) →
    row_at s' = row_at s ∧ named s ⊆ named s' ∧ snapshots s ⊆ snapshots s'
    ∧ ∀ snap, snap ∈ snapshots s → rows_then s' snap = rows_then s snap ∧ added s' snap = added s snap;
  on_request : ∀ s t req s' r, SendClientRequest s t req = (s', r) →
    snapshots s ⊆ snapshots s' ∧ ∀ snap, snap ∈ snapshots s → rows_then s' snap = rows_then s snap ∧ added s snap ⊆ added s' snap
}.

Section Reconcile.
Context {HE : GoEnv} {HC : ServerClient} {HS : ArrowServer} {HG : IcebergServer} {HT : IndexableServer} {HX : StreamIndex} {HI : IndexSpec}.
Implicit Types (s : server) (i : index) (m : gmap string RowLocation).

(** An index that can be used again: it has not been filled, or it finds every row of its
    snapshot whose identity was not written since; it never misplaces an identity. *)
Definition resumable s m (snap : Z) : Prop :=
  (snap = 0 ∨ (snap ∈ snapshots s ∧ ∀ p n r id, rows_then s snap p n = Some r → row_id r = Some id → id ∉ added s snap → m !! id = Some (mkLocation p n)))
  ∧ ∀ id p n, m !! id = Some (mkLocation p n) → base p ∈ named s ∧ ∀ r, row_at s p n = Some r → row_id r = Some id.

Lemma covers_resumable s m : covers m (row_at s) (named s) → resumable s m (table_snapshot s).
Proof.
  intros [Hf Hs]. split; [|done]. destruct (decide (table_snapshot s = 0)) as [|Hne]; [by left|]. right. destruct (current_then s Hne) as (Hin & Hr & Ha).
  split; [done|]. intros p n r id. rewrite Hr. intros. by eapply Hf.
Qed.
Lemma resumable_covers s m : resumable s m (table_snapshot s) → covers m (row_at s) (named s).
Proof.
  intros [Hf Hs]. split; [|done]. intros p n r id Hr Hid. destruct (decide (table_snapshot s = 0)) as [H0|Hne]; [by rewrite (no_snapshot s p n H0) in Hr|].
  destruct Hf as [|[_ Hf]]; [done|]. destruct (current_then s Hne) as (_ & Hrt & Ha). eapply Hf; [by rewrite Hrt|done|by rewrite Ha].
Qed.

(** The order of a table a scan relies on.  No row of a file it reads, deleted rows
    included, has the identity of a live row and a later place (data sequence number,
    location, position) than the live row; and a file added since the starting snapshot
    has a larger sequence number than the files of the table that were there before. *)
Definition versions_ordered s (from : option Z) : Prop :=
  ∀ files, scanned (ice_table s) from (table_snapshot s) = Some files →
  (∀ f n g k r id, f ∈ files → 0 ≤ n → df_ids f !! Z.to_nat n = Some (Some id) →
     g ∈ it_planFiles (ice_table s) → row_at s (df_location g) k = Some r → row_id r = Some id → no_later f n g k)
  ∧ ∀ f g, f ∈ files → g ∈ it_planFiles (ice_table s) → (∀ f', f' ∈ files → df_location f' ≠ df_location g) → sequence_of g < sequence_of f.

(** What arrives of a scan: entries of rows of the files it reads, the snapshot in every batch,
    and without an error all entries. *)
Lemma scan_arrives s t from st :
  ScanTableForIndexing s t from = Ok st →
  (∀ b, b ∈ sc_batches st → sb_SnapshotId b = table_snapshot s)
  ∧ (∀ id p n, (id, mkLocation p n) ∈ all_entries (sc_batches st) → ∃ files f, scanned (ice_table s) from (table_snapshot s) = Some files
       ∧ f ∈ files ∧ p = df_location f ∧ 0 ≤ n ∧ df_ids f !! Z.to_nat n = Some (Some id))
  ∧ (sc_error st = None → sc_batches st ≠ [] ∧
       (table_snapshot s = 0 ∨ ∃ files, scanned (ice_table s) from (table_snapshot s) = Some files ∧ all_entries (sc_batches st) = concat (emitFile <$> files))).
Proof.
  intros Hst%on_scan. pose proof (table_current s) as Hcur. pose proof (scan_batches (ice_table s) from) as Hb.
  pose proof (scan_refused (ice_table s) from) as Hrefused. cbv zeta in Hst. set (full := scanTableForIndexing (ice_table s) from) in *. clearbody full.
  destruct (scan (ice_table s) from) as [[begun es] err] eqn:Escan. destruct Hb as (Herr & Hsid & rest & Hes & Hend). rewrite Forall_forall in Hsid.
  assert (∃ k, sc_batches st = take k (sc_batches full)) as [k Hk].
  { destruct Hst as [->|(k & e & ->)]; [exists (length (sc_batches full)); by rewrite take_ge|by exists k]. }
  assert (Hin : ∀ e, e ∈ all_entries (sc_batches st) → e ∈ es).
  { intros e He. rewrite Hes, <- (take_drop k (sc_batches full)), <- Hk, all_entries_app. set_solver. }
  assert (Hsub : ∀ b, b ∈ sc_batches st → b ∈ sc_batches full) by (intros b; rewrite Hk; apply subseteq_take).
  assert (Hdone : sc_error st = None → st = full ∧ err = None) by (intros Hno; destruct Hst as [->|(? & ? & ->)]; [by rewrite <- Herr|done]).
  unfold scan in Escan. destruct (it_currentSnapshot (ice_table s)) as [cur|] eqn:Ec; cbn in Hcur.
  2:{ injection Escan as <- <- <-. split_and!; [intros b Hb; rewrite <- Hcur; by apply Hsid, Hsub|intros id p n He%Hin; by apply not_elem_of_nil in He|].
      intros [-> _]%Hdone. split; [by apply Hend|by left]. }
  rewrite <- Hcur. destruct (scanned (ice_table s) from cur) as [files|] eqn:Ef.
  2:{ injection Escan as <- <- <-. split_and!; [intros b Hb%Hsub; rewrite (Hrefused cur eq_refl Ef) in Hb; by apply not_elem_of_nil in Hb|intros id p n He%Hin; by apply not_elem_of_nil in He|].
      by intros [_ ?]%Hdone. }
  pose proof (emit_files_prefix files) as Hpre. destruct (emit_files files) as [es' err']. destruct Hpre as (rest' & Hpre & Hcomplete).
  assert (Hbeg : begun = Some cur ∧ (∀ e, e ∈ es → e ∈ concat (emitFile <$> files)) ∧ (err = None → es = concat (emitFile <$> files))).
  { destruct (it_identifier (ice_table s)); injection Escan as <- <- <-.
    - split_and!; [done|intros e He; rewrite Hpre; set_solver|]. intros He. rewrite Hpre, (Hcomplete He). by rewrite app_nil_r.
    - split_and!; [done|by intros e ?%not_elem_of_nil|done]. }
  destruct Hbeg as (-> & Helem & Hall). split_and!; [intros b Hb; by apply Hsid, Hsub| |].
  - intros id p n He%Hin%Helem. apply list_elem_of_In, in_concat in He as (l & Hl & He). apply list_elem_of_In in Hl, He.
    apply list_elem_of_fmap in Hl as (f & -> & Hf). apply emitFile_elem in He as (-> & ? & ?). by exists files, f.
  - intros [-> He]%Hdone. destruct (Hend He) as [-> Hne]. split; [done|]. right. exists files. split; [done|]. rewrite <- (Hall He), Hes. by rewrite app_nil_r.
Qed.

Lemma overlay_last l1 l2 id loc m : id ∉ l2.*1 → overlay (l1 ++ (id, loc) :: l2) m !! id = Some loc.
Proof. intros Hn. rewrite overlay_app, overlay_cons, overlay_other by done. apply lookup_insert_eq. Qed.

(** An entry that arrives is no misplaced identity. *)
Lemma entry_sound s t from st id p n :
  ScanTableForIndexing s t from = Ok st → (id, mkLocation p n) ∈ all_entries (sc_batches st) →
  0 ≤ n ≤ MaxInt64 ∧ base p ∈ named s ∧ ∀ r, row_at s p n = Some r → row_id r = Some id.
Proof.
  intros (_ & Hent & _)%scan_arrives Hin. destruct (Hent id p n Hin) as (files & f & Hs & Hf & -> & Hn & Hid).
  pose proof (scanned_known _ _ _ _ _ Hs Hf) as Hk. destruct (files_named s f Hk) as [Hb Hlen]. apply lookup_lt_Some in Hid as Hlt.
  split_and!; [done|lia|done|]. intros r (g & Hg & Hl & _ & Hr)%row_file. assert (g = f) as -> by (apply (files_unique s); [by left|done|done]). congruence.
Qed.
Lemma entry_added s t snap st id :
  ScanTableForIndexing s t (Some snap) = Ok st → snap ∈ snapshots s → id ∈ (all_entries (sc_batches st)).*1 → id ∈ added s snap.
Proof.
  intros (_ & Hent & _)%scan_arrives Hsn ([id' [p n]] & -> & Hin)%list_elem_of_fmap. destruct (Hent _ _ _ Hin) as (files & f & Hs & Hf & -> & Hn & Hid).
  unfold scanned in Hs. destruct (snap =? table_snapshot s); [injection Hs as <-; by apply not_elem_of_nil in Hf|].
  apply (files_since s snap files Hsn Hs). exists f. split; [done|]. by eapply list_elem_of_lookup_2.
Qed.

(** Part of a scan leaves the index resumable, a whole one of an ordered table brings it up to date. *)
Lemma scan_prefix s t from st m snap es1 es2 :
  ScanTableForIndexing s t from = Ok st → (from = if snap =? 0 then None else Some snap) → resumable s m snap →
  all_entries (sc_batches st) = es1 ++ es2 → resumable s (overlay es1 m) snap.
Proof.
  intros Hscan Hfrom [Hf Hs] Hsplit. split.
  - destruct Hf as [->|[Hin Hf]]; [by left|]. destruct (Z.eqb_spec snap 0) as [|Hne]; [by left|]. right. split; [done|]. intros p n r id Hr Hid Hno.
    rewrite overlay_other; [by eapply Hf|]. intros Hes. apply Hno. rewrite Hfrom in Hscan. apply (entry_added s t snap st id Hscan Hin). rewrite Hsplit, fmap_app. set_solver.
  - intros id p n [Hin|Hm]%overlay_lookup; [|by apply Hs]. apply (entry_sound s t from st id p n Hscan). rewrite Hsplit. set_solver.
Qed.
Lemma scan_finds s t from st m snap p n r id :
  ScanTableForIndexing s t from = Ok st → (from = if snap =? 0 then None else Some snap) → resumable s m snap → sc_error st = None → versions_ordered s from →
  row_at s p n = Some r → row_id r = Some id → overlay (all_entries (sc_batches st)) m !! id = Some (mkLocation p n).
Proof.
  intros Hscan Hfrom [Hf _] Hok Hord Hr Hid. destruct (scan_arrives s t from st Hscan) as (_ & _ & Hall). destruct (Hall Hok) as [_ [H0|(files & Hs & ->)]].
  { by rewrite (no_snapshot s p n H0) in Hr. }
  destruct (Hord files Hs) as [Hlast Hyoung]. destruct (row_file s p n r Hr) as (g & Hg & <- & Hn & Hrow). rewrite Hid in Hrow.
  destruct (decide (g ∈ files)) as [Hin|Hout].
  - destruct (emitted_last files g n id) as (l1 & l2 & -> & Hno); [by eapply scanned_sorted|done..| |by apply overlay_last].
    intros f k Hf' Hk Hidk. by eapply Hlast.
  - assert (Hloc : ∀ f', f' ∈ files → df_location f' ≠ df_location g).
    { intros f' Hf' Hl. apply Hout. replace g with f'; [done|]. apply (files_unique s); [by eapply scanned_known|by left|done]. }
    rewrite overlay_other.
    2:{ intros ([id' [p k]] & -> & He)%list_elem_of_fmap. apply list_elem_of_In, in_concat in He as (l & Hl & He). apply list_elem_of_In in Hl, He.
        apply list_elem_of_fmap in Hl as (f & -> & Hf'). apply emitFile_elem in He as (-> & Hk & Hidk). pose proof (Hyoung f g Hf' Hg Hloc).
        destruct (Hlast f k g n r _ Hf' Hk Hidk Hg Hr Hid) as [?|[? _]]; lia. }
    rewrite Hfrom in Hs. destruct (Z.eqb_spec snap 0) as [->|Hne].
    { cbn in Hs. injection Hs as <-. destruct (current_files_all _ _ Hg) as (f' & Hf' & Hl). by destruct (Hloc f'). }
    destruct Hf as [|[Hsn Hf]]; [done|]. cbn in Hs. destruct (Z.eqb_spec snap (table_snapshot s)) as [->|Hold].
    + destruct (current_then s Hne) as (_ & Hthen & Hadd). eapply Hf; [by rewrite Hthen|done|by rewrite Hadd].
    + destruct (files_since s snap files Hsn Hs) as [Hadd Hthen]. destruct (Hthen _ _ _ Hr) as [(f & Hf' & Hl)|Hold']; [by destruct (Hloc f)|].
      eapply Hf; [done|done|]. intros (f & Hf' & Hidf)%Hadd. apply list_elem_of_lookup in Hidf as (k & Hk). pose proof (Hyoung f g Hf' Hg Hloc).
      destruct (Hlast f (Z.of_nat k) g n r id Hf') as [?|[? _]]; [lia|by rewrite Nat2Z.id|done|done|done|lia|lia].
Qed.
Lemma scan_complete s t from st m snap :
  ScanTableForIndexing s t from = Ok st → (from = if snap =? 0 then None else Some snap) → resumable s m snap → sc_error st = None → versions_ordered s from →
  covers (overlay (all_entries (sc_batches st)) m) (row_at s) (named s).
Proof.
  intros Hscan Hfrom Hres Hok Hord. split; [intros p n r id; by eapply scan_finds|].
  apply (scan_prefix s t from st m snap _ [] Hscan Hfrom Hres). by rewrite app_nil_r.
Qed.
Lemma resumable_migrated s t mode s' r m snap : MigrateEqualityDeletes s t mode = (s', r) → resumable s m snap → resumable s' m snap.
Proof.
  intros (Hrow & Hn & Hsn & Hthen)%on_migrate [Hf Hs]. split.
  - destruct Hf as [?|[Hin Hf]]; [by left|]. right. destruct (Hthen _ Hin) as [-> ->]. split; [by apply Hsn|done].
  - intros id p n Hm. rewrite Hrow. destruct (Hs id p n Hm). split; [by apply Hn|done].
Qed.

Lemma fill_spec s t i m snap :
  index_holds i m snap → resumable s m snap →
  (∀ from st, ScanTableForIndexing s t from = Ok st → index_room i (length (all_entries (sc_batches st))) ∧ Z.of_nat (length (all_entries (sc_batches st))) < 2 ^ 64) →
  let '(i', r) := fillTableIndex s t i (if snap =? 0 then None else Some snap) in
  ∃ m' snap', index_holds i' m' snap' ∧ (r ≠ Ok () → resumable s m' snap')
  ∧ (r = Ok () → snap' = table_snapshot s ∧ (versions_ordered s (if snap =? 0 then None else Some snap) → covers m' (row_at s) (named s))).
Proof.
  intros Hh Hres Hroom. unfold fillTableIndex. set (from := if snap =? 0 then None else Some snap).
  destruct (ScanTableForIndexing s t from) as [st|e|e] eqn:Escan; [|by exists m, snap..].
  destruct (Hroom _ _ Escan) as [Hr Hlen]. destruct (scan_arrives _ _ _ _ Escan) as (Hsid & _ & Hall).
  set (i1 := match from with None => _ | Some _ => _ end). set (m1 := if snap =? 0 then ∅ else m).
  assert (H1 : index_holds i1 m1 snap ∧ index_room i1 (length (all_entries (sc_batches st))) ∧ resumable s m1 snap).
  { unfold i1, m1, from. destruct (Z.eqb_spec snap 0) as [->|]; [|done]. destruct (truncate_law i) as [Ht Htr]. split_and!; [done|by apply Htr|]. split; [by left|]. done. }
  destruct H1 as (Hh1 & Hr1 & Hres1). unfold drainTableIndexScan.
  pose proof (drain_loop_spec (sc_batches st) (sc_error st) i1 [] [] m1 snap 0 0 0) as Hd. cbn [app length Nat.add] in Hd.
  change (mkThread (overlay [] ∅)) with NewStreamIndexThread in Hd. destruct (drain_loop _ _ _ _ _ _ _) as [i' r].
  destruct Hd as [(es1 & es2 & Hsplit & Hh' & Hno)|(Hok & Hh' & [x ->])].
  - exact Hh1.
  - by intros ? ? ?%not_elem_of_nil.
  - intros id [p n] Hin. by apply (entry_sound s t from st id p n).
  - exact Hr1.
  - lia.
  - intros b Hb. rewrite (Hsid b Hb). apply snapshot_range.
  - destruct r as [x|e|e]; [by destruct (Hno x)|..]; exists (overlay es1 m1), snap; (split_and!; [done|intros _; by eapply scan_prefix|done]).
  - exists (overlay (all_entries (sc_batches st)) m1), (table_snapshot s). pose proof (scan_complete s t from st m1 snap Escan eq_refl Hres1 Hok) as Hcov.
    assert (Hlast : last_snapshot_of 0 (sc_batches st) = table_snapshot s).
    { destruct (Hall Hok) as [Hne _]. unfold last_snapshot_of. destruct (last (sc_batches st)) as [b|] eqn:El; [|by apply last_None in El].
      cbn. apply Hsid. apply last_Some in El as [l' ->]. set_solver. }
    rewrite Hlast in Hh'. by split_and!.
Qed.

Lemma reconcile_spec stream tid s i m snap hasEqualityDeletes :
  index_holds i m snap → resumable s m snap →
  (∀ s1 from st, (s1 = s ∨ ∃ mode r, MigrateEqualityDeletes s tid mode = (s1, r)) → ScanTableForIndexing s1 tid from = Ok st →
     index_room i (length (all_entries (sc_batches st))) ∧ Z.of_nat (length (all_entries (sc_batches st))) < 2 ^ 64) →
  let '(s', x, r) := reconcileTableIndex stream tid s (Some i) (table_snapshot s) hasEqualityDeletes in
  row_at s' = row_at s ∧ ∃ i' m' snap', x = Some i' ∧ index_holds i' m' snap'
  ∧ (r ≠ Ok () → resumable s' m' snap')
  ∧ (r = Ok () → snap' = table_snapshot s'
     ∧ (versions_ordered s' (if snap =? 0 then None else Some snap) → covers m' (row_at s') (named s') ∧ resumable s' m' snap')).
Proof.
  intros Hh Hres Hroom. unfold reconcileTableIndex.
  destruct (if hasEqualityDeletes then _ else _) as [s1 migrated] eqn:Em.
  assert (H1 : row_at s1 = row_at s ∧ resumable s1 m snap ∧ (hasEqualityDeletes = false → s1 = s)).
  { destruct hasEqualityDeletes; [|by injection Em as <- _]. split_and!; [|by eapply resumable_migrated|done]. by apply on_migrate in Em as (? & _). }
  destruct H1 as (Hrow & Hres1 & Hsame). destruct migrated as [[]|e|e]; [|split; [done|]; by exists i, m, snap..].
  rewrite (snapshot_law i m snap Hh). destruct ((snap =? table_snapshot s) && negb hasEqualityDeletes) eqn:Eup.
  - apply andb_true_iff in Eup as [->%Z.eqb_eq Hn%negb_true_iff]. rewrite (Hsame Hn) in *. split; [done|]. exists i, m, (table_snapshot s).
    split_and!; [done..|]. intros _. split; [done|]. intros _. split; [by apply resumable_covers|done].
  - pose proof (fill_spec s1 tid i m snap Hh Hres1) as Hfill. destruct (fillTableIndex _ _ _ _) as [i' r].
    destruct Hfill as (m' & snap' & Hh' & Hres' & Hok').
    { intros from st. apply Hroom. destruct hasEqualityDeletes; [right; eauto|left; auto]. } split; [done|]. exists i', m', snap'. split_and!; [done..|].
    intros [-> Hcov]%Hok'. split; [done|]. intros Hord%Hcov. split; [done|by apply covers_resumable].
Qed.

(** C10: the stream index catches up with the table before a thread writes, and an
    interrupted catch-up can be resumed.  Wherever rewriting equality deletes or the scan
    fails, whatever the scan sent before, the index is left resumable: it keeps its old
    snapshot, or none, and misplaces no identity; the table has the same rows as before.
    When reconciling succeeds the index is at the table's snapshot, and if the versions of
    the rows are in the order of the scan (no row of a scanned file, deleted rows
    included, has the identity of a live row and a later data sequence number, location
    and position; files added since the index's snapshot are younger than the others) the
    index finds every row of the table.  The scan is the service's own code; without that
    order it leaves the index at a deleted row ([scan_points_at_dead_row]). *)
Theorem index_reconciled stream tid s i m snap hasEqualityDeletes :
  index_holds i m snap → resumable s m snap →
  (∀ s1 from st, (s1 = s ∨ ∃ mode r, MigrateEqualityDeletes s tid mode = (s1, r)) → ScanTableForIndexing s1 tid from = Ok st →
     index_room i (length (all_entries (sc_batches st))) ∧ Z.of_nat (length (all_entries (sc_batches st))) < 2 ^ 64) →
  let '(s', x, r) := reconcileTableIndex stream tid s (Some i) (table_snapshot s) hasEqualityDeletes in
  row_at s' = row_at s ∧ ∃ i' m' snap', x = Some i' ∧ index_holds i' m' snap'
  ∧ (r ≠ Ok () → resumable s' m' snap')
  ∧ (r = Ok () → snap' = table_snapshot s'
     ∧ (versions_ordered s' (if snap =? 0 then None else Some snap) → covers m' (row_at s') (named s') ∧ resumable s' m' snap')).
Proof. apply reconcile_spec. Qed.
End Reconcile.

(** ** One sync after another *)
Section Syncs.
Context {HE : GoEnv} {HR : GoRange} {HC : ServerClient} {HS : ArrowServer} {HG : IcebergServer} {HT : IndexableServer} {HX : StreamIndex} {HI : IndexSpec} {HP : ParquetLib}.
Context (murmur3 : list Z → Z) (fmt_g : spec_float → string) (time_format : string → gotime → string).
Context (json_marshal : any → option string) (marshal_state : MetadataState → string).
Context (schema_fields : string → option (list (Z * string))).
Implicit Types (w : world).

(** The table's history only grows. *)
Definition grows (s s' : server) : Prop :=
  snapshots s ⊆ snapshots s' ∧ ∀ snap, snap ∈ snapshots s → rows_then s' snap = rows_then s snap ∧ added s snap ⊆ added s' snap.
#[export] Instance grows_preorder : PreOrder grows.
Proof.
  split; [by split|]. intros s1 s2 s3 [H1 H1'] [H2 H2']. split; [set_solver|]. intros snap Hin. destruct (H1' _ Hin) as [E1 A1], (H2' _ (H1 _ Hin)) as [E2 A2].
  split; [congruence|set_solver].
Qed.

(** An operation of the writer that keeps it so, whatever it returns. *)
Class Grows {A} (c : M A) : Prop := grows_run : ∀ w w' r, c w = (w', r) → grows (srv w) (srv w').
#[export] Instance grows_ret {A} (a : A) : Grows (mret a : M A).
Proof. by intros w w' r [= <- _]. Qed.
#[export] Instance grows_lift {A} (r : result A) : Grows (lift r).
Proof. by intros w w' r' [= <- _]. Qed.
#[export] Instance grows_gets {A} (f : ArrowWriter → A) : Grows (gets f).
Proof. by intros w w' r' [= <- _]. Qed.
#[export] Instance grows_modify f : Grows (modify f).
Proof. by intros w w' r' [= <- _]. Qed.
#[export] Instance grows_deref {A} (o : option A) : Grows (deref o).
Proof. destruct o; apply _. Qed.
#[export] Instance grows_raise {A} o (a : A) : Grows (raise o a).
Proof. unfold raise. apply _. Qed.
#[export] Instance grows_send req : Grows (send req).
Proof. intros w w' r. unfold send. destruct (SendClientRequest _ _ _) as [s' r'] eqn:E. intros [= <- _]. by apply on_request in E. Qed.
#[export] Instance grows_bind {A B} (c : M A) (f : A → M B) : Grows c → (∀ a, Grows (f a)) → Grows (c ≫= f).
Proof.
  intros Hc Hf w w' r. unfold mbind, M_bind. destruct (c w) as [w1 [a|e|e]] eqn:E; [|intros [= <- _]; by eapply Hc..].
  intros H. transitivity (srv w1); [by eapply Hc|by eapply Hf].
Qed.
#[export] Instance grows_for_each {A} (f : A → M unit) l : (∀ a, Grows (f a)) → Grows (for_each f l).
Proof. intros Hf. induction l; cbn [for_each]; apply _. Qed.
#[export] Instance grows_if {A} (b : bool) (c c' : M A) : Grows c → Grows c' → Grows (if b then c else c').
Proof. by destruct b. Qed.
#[export] Instance grows_option {A B} (o : option B) (f : B → M A) (c : M A) : (∀ b, Grows (f b)) → Grows c → Grows (match o with Some b => f b | None => c end).
Proof. by destruct o. Qed.

#[local] Ltac grow := repeat first [progress intros | solve [apply _] | simple apply grows_bind | case_match].
#[export] Instance grows_schema_of ft : Grows (schema_of ft).
Proof. unfold schema_of. apply _. Qed.
#[export] Instance grows_allocate k : Grows (allocateFilePath k).
Proof. unfold allocateFilePath. grow. Qed.
#[export] Instance grows_new_rolling sch ft v p : Grows (newRollingWriter sch ft v p).
Proof. unfold newRollingWriter. apply _. Qed.
#[export] Instance grows_create k v ft : Grows (createWriter k v ft).
Proof. unfold createWriter. apply _. Qed.
#[export] Instance grows_keep k e x : Grows (keep k e x).
Proof. unfold keep. apply _. Qed.
#[export] Instance grows_ensure k e v ft x p st : Grows (ensure_writer k e v ft x p st).
Proof. unfold ensure_writer. grow. Qed.
#[export] Instance grows_get_or_create k v : Grows (getOrCreateWriter k v).
Proof. unfold getOrCreateWriter. apply _. Qed.
#[export] Instance grows_flush rw k : Grows (flush rw k).
Proof. unfold flush, uploadFile. apply _. Qed.
#[export] Instance grows_check rw k : Grows (checkAndFlush rw k).
Proof. unfold checkAndFlush. apply _. Qed.
#[export] Instance grows_buffered rw rows : Grows (WriteBuffered rw rows).
Proof. unfold WriteBuffered. apply _. Qed.
#[export] Instance grows_vectors : Grows sendPendingVectors.
Proof. unfold sendPendingVectors. apply _. Qed.
#[export] Instance grows_queue ds v : Grows (queueVectorDeletes ds v).
Proof. unfold queueVectorDeletes. apply _. Qed.
#[export] Instance grows_lookup b key : Grows (thread_lookup b key).
Proof. intros w w' r. unfold thread_lookup. repeat case_match; by intros [= <- _]. Qed.
#[export] Instance grows_index_record t x rw id op rec pos : Grows (indexRecord t x rw id op rec pos).
Proof. unfold indexRecord. apply _. Qed.
#[export] Instance grows_olake_string rec c : Grows (olake_string rec c).
Proof. unfold olake_string. grow. Qed.
#[export] Instance grows_olake_time rec : Grows (olake_time rec).
Proof. unfold olake_time. grow. Qed.
#[export] Instance grows_extract rec : Grows (extract_one murmur3 fmt_g time_format rec).
Proof. unfold extract_one. grow. Qed.
#[export] Instance grows_roll k st rw : Grows (roll k st rw).
Proof.
  unfold roll. apply grows_bind; [apply _|intros _]. apply grows_bind; [|intros []; apply _].
  intros w w' r. destruct (checkAndFlush rw k w) as [w1 [x|e|e]] eqn:E; intros [= <- _]; by eapply (grows_check rw k).
Qed.
#[export] Instance grows_write_partition k x : Grows (write_partition json_marshal k x).
Proof. unfold write_partition, write_deletes, write_positional, write_equality. grow. Qed.
#[export] Instance grows_complete k x : Grows (complete_partition k x).
Proof. unfold complete_partition, complete. grow. Qed.
#[export] Instance grows_initialize : Grows (initialize schema_fields).
Proof. unfold initialize, fetchFileSchemaJSON, initializeDeleteSchemas. grow. Qed.
#[export] Instance grows_op o : Grows (run_op murmur3 fmt_g time_format json_marshal schema_fields o).
Proof. destruct o; cbn; unfold Write, extract, Arrow_EvolveSchema, completeWriters; apply _. Qed.
#[export] Instance grows_close fin : Grows (Arrow_Close marshal_state fin).
Proof.
  unfold Arrow_Close, completeWriters. grow.
  - intros w w' r. unfold last_snapshot. repeat case_match; by intros [= <- _].
  - intros w w' r. unfold commit_index. repeat case_match; by intros [= <- _].
Qed.

Lemma run_grows tid stream info sch upsert ops fin s i w' r :
  thread_run murmur3 fmt_g time_format json_marshal marshal_state schema_fields tid stream info sch upsert ops fin s i = (w', r) → grows s (srv w').
Proof.
  unfold thread_run, Arrow_New. destruct (initialize _ _) as [w1 [[]|e|e]] eqn:E; apply grows_initialize in E; cbn in E; [|by intros [= <- _]..].
  intros H. etransitivity; [exact E|]. revert H. apply (grows_bind (for_each _ ops) (λ _, Arrow_Close marshal_state fin) _ _).
Qed.

(** C8: a sync that upserts through the index.  It starts with an index left resumable by
    whatever came before, reconciles it with the table and runs a writer thread, in any
    batches and schema changes, to its commit.  Then the table holds the older rows whose
    identity no record of the run has and for each identity of the run the row of its last
    record, and the index is resumable again, so that the next sync can start from it.
    This holds for tables whose versions are in the order of the scan
    ([versions_ordered]), and for runs in which: the identities of records that are not
    looked up (["c"], ["r"]) are new, neither in the table nor earlier in the run; records
    with the same partition directory have the same partition values; and, unless deletes
    are deletion vectors, records of one identity are of the partition of their older row
    and of each other, since positional deletes are read per partition. *)
Theorem iceberg_sync_upserts pvals stream tid info sch ops fin s i m snap hasEqualityDeletes s1 i1 w' :
  index_holds i m snap → resumable s m snap →
  (∀ s1 from st, (s1 = s ∨ ∃ mode r, MigrateEqualityDeletes s tid mode = (s1, r)) → ScanTableForIndexing s1 tid from = Ok st →
     index_room i (length (all_entries (sc_batches st))) ∧ Z.of_nat (length (all_entries (sc_batches st))) < 2 ^ 64) →
  reconcileTableIndex stream tid s (Some i) (table_snapshot s) hasEqualityDeletes = (s1, Some i1, Ok ()) →
  versions_ordered s1 (if snap =? 0 then None else Some snap) →
  thread_run murmur3 fmt_g time_format json_marshal marshal_state schema_fields tid stream info sch true ops fin s1 (Some i1) = (w', Ok ()) →
  names_known s1 → vectors s1 tid = [] → index_room i1 (length (tagged sch ops)) → Z.of_nat (length (tagged sch ops)) ≤ MaxInt64 →
  partitioned murmur3 fmt_g time_format pvals true true tid info stream (tagged sch ops) →
  inserts_fresh (row_at s) (tagged sch ops) → (∀ sr, sr ∈ tagged sch ops → sr.1 !! OlakeID = Some "string") →
  (GetUpdateType stream ≠ UpdateTypeDeletionVector → stays murmur3 fmt_g time_format pvals tid info stream (tagged sch ops) (row_at s)) →
  ∃ es, Forall2 (entry_for murmur3 fmt_g time_format true true tid info stream) (tagged sch ops) es ∧ NoDup (e_loc <$> es)
  ∧ (∀ p n r, row_at (srv w') p n = Some r ↔
      (row_at s p n = Some r ∧ ¬ ∃ e, e ∈ es ∧ row_id r = Some (e_id e)) ∨ ∃ e, last_of es (e_id e) e ∧ e_loc e = mkPosDelete p n ∧ row_of json_marshal pvals e r)
  ∧ (∀ e, e ∈ es → ∃ r, row_of json_marshal pvals e r ∧ row_id r = Some (e_id e))
  ∧ ∃ i' m' snap', tableIndex w' = Some i' ∧ index_holds i' m' snap' ∧ resumable (srv w') m' snap'.
Proof.
  intros Hh Hres Hroom Hrec Hord Hrun Hnames Hvec Hroom1 Hlen Hpart Hins Hids Hstay.
  pose proof (reconcile_spec stream tid s i m snap hasEqualityDeletes Hh Hres Hroom) as Hr. rewrite Hrec in Hr.
  destruct Hr as (Hrow & i2 & m1 & snap1 & [= <-] & Hh1 & _ & Hok). destruct (Hok eq_refl) as [_ Hcov]. destruct (Hcov Hord) as [Hcov1 Hres1]. rewrite <- Hrow in Hins, Hstay |- *.
  destruct (indexed_run_spec murmur3 fmt_g time_format json_marshal marshal_state schema_fields pvals m1 snap1 tid stream info sch ops fin s1 i1 w')
    as (es & Hes & Hnd & Hsub & Hnew & Hrows & Hall & i' & Hi' & Hix); try done.
  exists es. split_and!; try done. destruct Hix as [Hsame|(m2 & Hh2 & Hcov2)]; [|exists i', m2, (table_snapshot (srv w')); split_and!; try done; by apply covers_resumable].
  exists i', m1, snap1. split_and!; try done. destruct (run_grows _ _ _ _ _ _ _ _ _ _ _ Hrun) as [Hsn Hthen]. destruct Hres1 as [Hf Hs]. split.
  - destruct Hf as [?|[Hin Hf]]; [by left|right]. destruct (Hthen _ Hin) as [Hrt Hadd]. split; [by apply Hsn|]. intros p n r id Hr Hid Hno. rewrite Hrt in Hr. eapply Hf; [done..|set_solver].
  - intros id p n Hm. destruct (Hs id p n Hm) as [Hb Hrw]. split; [by apply Hsub|]. intros r [(Hr & _)|(e & (l1 & l2 & -> & _) & [= Hp _] & _)]%Hrows; [by apply Hrw|].
    destruct (Hnew e); [set_solver|]. by rewrite Hp.
Qed.
End Syncs.

(** ** Witnesses: a table service that keeps files, rows and their history *)
Section Witnesses.
#[local] Existing Instances wa_range wa_env wa_store ms_parquet.

Abbreviation rows_fn := (string → Z → option trow).
#[local] Instance arrow_type_eq : EqDecision arrow_type.
Proof. solve_decision. Defined.
#[local] Instance arrow_field_eq : EqDecision arrow_field.
Proof. solve_decision. Defined.
#[local] Instance trow_eq : EqDecision trow.
Proof. solve_decision. Defined.

(** The table as the library shows it: every file it ever had, and its history. *)
Definition shown (y : Z) (files : list DataFile) (history : list Snapshot) : IceTable :=
  mkIceTable (if y =? 0 then None else Some y) files history true.
Definition past_rows (y : Z) (rows : rows_fn) (past : list (Z * rows_fn)) (snap : Z) : rows_fn :=
  if snap =? y then rows else match lookup_first (λ x : Z * rows_fn, x.1 =? snap) past with Some x => x.2 | None => λ _ _, None end.
Definition ids_since (t : IceTable) (y snap : Z) : gset string :=
  match dataFileChangesSince t snap y with Some files => list_to_set (omap id (concat (df_ids <$> files))) | None => ∅ end.

(** What a table of the service satisfies, checked at each commit. *)
Record shown_ok (y : Z) (rows : rows_fn) (keys : list (string * Z)) (past : list (Z * rows_fn)) (files : list DataFile) (history : list Snapshot) : Prop := {
  so_unique : NoDup (df_location <$> files);
  so_size : Forall (λ f, Z.of_nat (length (df_ids f)) ≤ MaxInt64) files;
  so_history : Forall (λ sn, match sn_addedDataFiles sn with Some fs => Forall (.∈ files) fs | None => True end) history;
  so_rows : Forall (λ k : string * Z, match rows k.1 k.2 with
      | Some r => List.Exists (λ g, df_location g = k.1 ∧ 0 ≤ k.2 ∧ df_ids g !! Z.to_nat k.2 = Some (row_id r)) files | None => True end) keys;
  so_since : Forall (λ snap, match dataFileChangesSince (shown y files history) snap y with
      | Some fs => Forall (λ k : string * Z, match rows k.1 k.2 with
          | Some r => List.Exists (λ f, df_location f = k.1) fs ∨ past_rows y rows past snap k.1 k.2 = Some r | None => True end) keys
      | None => True end) (y :: past.*1)
}.
#[local] Instance shown_ok_dec y rows keys past files history : Decision (shown_ok y rows keys past files history).
Proof.
  assert (Decision (Forall (λ sn, match sn_addedDataFiles sn with Some fs => Forall (.∈ files) fs | None => True end) history)) as D3
    by (apply Forall_dec; intros sn; destruct (sn_addedDataFiles sn); apply _).
  assert (Decision (Forall (λ k : string * Z, match rows k.1 k.2 with
      | Some r => List.Exists (λ g, df_location g = k.1 ∧ 0 ≤ k.2 ∧ df_ids g !! Z.to_nat k.2 = Some (row_id r)) files | None => True end) keys)) as D4
    by (apply Forall_dec; intros k; destruct (rows k.1 k.2); apply _).
  assert (Decision (Forall (λ snap, match dataFileChangesSince (shown y files history) snap y with
      | Some fs => Forall (λ k : string * Z, match rows k.1 k.2 with
          | Some r => List.Exists (λ f, df_location f = k.1) fs ∨ past_rows y rows past snap k.1 k.2 = Some r | None => True end) keys
      | None => True end) (y :: past.*1))) as D5.
  { apply Forall_dec. intros snap. destruct (dataFileChangesSince _ _ _) as [fs|]; [|apply _]. apply Forall_dec. intros k. destruct (rows k.1 k.2); apply _. }
  destruct (decide (NoDup (df_location <$> files))); [|right; by intros []].
  destruct (decide (Forall (λ f, Z.of_nat (length (df_ids f)) ≤ MaxInt64) files)); [|right; by intros []].
  destruct D3; [|right; by intros []]. destruct D4; [|right; by intros []]. destruct D5; [|right; by intros []]. left. by split.
Defined.

Record table_server := mkTable {
  ts_stored : gmap string parquet_file; ts_named : gset string; ts_vectors : gmap string (list DVEntry); ts_count : Z;
  ts_snapshot : Z; ts_rows : rows_fn; ts_keys : list (string * Z); ts_past : list (Z * rows_fn); ts_files : list DataFile; ts_history : list Snapshot;
  ts_row_stored : ∀ p n r, ts_rows p n = Some r → is_Some (ts_stored !! p);
  ts_key : ∀ p n r, ts_rows p n = Some r → (p, n) ∈ ts_keys;
  ts_range : - 2 ^ 63 ≤ ts_snapshot < 2 ^ 63;
  ts_none : ts_snapshot = 0 → ∀ p n, ts_rows p n = None;
  ts_ok : shown_ok ts_snapshot ts_rows ts_keys ts_past ts_files ts_history;
  ts_files_named : Forall (λ f, base (df_location f) ∈ ts_named) ts_files
}.
Definition ts_table (s : table_server) : IceTable := shown (ts_snapshot s) (ts_files s) (ts_history s).
Definition ts_vectors_of (s : table_server) (t : string) : list DVEntry := default [] (ts_vectors s !! t).

Lemma ts_upload (s : table_server) p f q n r : ts_rows s q n = Some r → is_Some (<[p := f]> (ts_stored s) !! q).
Proof. intros [c Hc]%ts_row_stored. destruct (decide (q = p)) as [->|Hne]; [rewrite lookup_insert_eq; eauto|rewrite lookup_insert_ne by done; eauto]. Qed.
Definition rows_after (s : table_server) (files : list FileMetadata) (t : string) : rows_fn := λ p n,
  live_after (ts_stored s) files (ts_vectors_of s t) (ts_rows s p n) p n.
Definition new_keys (s : table_server) (files : list FileMetadata) : list (string * Z) :=
  concat ((λ f, match ts_stored s !! fm_FilePath f with Some c => (λ k, (fm_FilePath f, Z.of_nat k)) <$> seq 0 (length (pf_rows c)) | None => [] end) <$> files).
Lemma after_stored s files t p n r : rows_after s files t p n = Some r → is_Some (ts_stored s !! p).
Proof.
  unfold rows_after, live_after. destruct (ts_rows s p n) as [r0|] eqn:E; [intros _; by eapply ts_row_stored|].
  unfold new_row. destruct (lookup_first _ _); [|done]. cbn. by destruct (ts_stored s !! p).
Qed.
Lemma after_key s files t p n r : rows_after s files t p n = Some r → (p, n) ∈ ts_keys s ++ new_keys s files.
Proof.
  unfold rows_after, live_after. rewrite elem_of_app. destruct (ts_rows s p n) as [r0|] eqn:E; [intros _; left; by eapply ts_key|]. intros H. right.
  destruct (new_row _ _ _ _) as [r1|] eqn:En; [|done]. unfold new_row in En. apply bind_Some in En as (f & [Hf Hb]%lookup_first_Some & En).
  apply andb_true_iff in Hb as [_ Hp%String.eqb_eq]. apply bind_Some in En as (c & Hc & En). destruct (Z.ltb_spec n 0); [done|]. apply bind_Some in En as (cells & Hl & _).
  unfold new_keys. apply list_elem_of_In, in_concat. setoid_rewrite <- list_elem_of_In. eexists. split; [apply list_elem_of_fmap; by exists f|]. cbn. rewrite Hp, Hc.
  apply list_elem_of_fmap. exists (Z.to_nat n). split; [f_equal; lia|]. apply elem_of_seq. apply lookup_lt_Some in Hl. lia.
Qed.
Lemma after_none (s : table_server) (rows : rows_fn) y : y ≠ 0 → y = 0 → ∀ p n, rows p n = None.
Proof. done. Qed.
(** The data files of a commit, as the library shows them. *)
Definition committed_files (s : table_server) (files : list FileMetadata) (y : Z) : list DataFile :=
  omap (λ f, if String.eqb (fm_FileType f) fileTypeData
             then c ← ts_stored s !! fm_FilePath f;
                  Some (mkDataFile (fm_FilePath f) (Some y) true
                          ((λ k, r ← new_row (ts_stored s) files (fm_FilePath f) (Z.of_nat k); row_id r) <$> seq 0 (length (pf_rows c))))
             else None) files.
Lemma names_grow (s : table_server) x : Forall (λ f, base (df_location f) ∈ {[x]} ∪ ts_named s) (ts_files s).
Proof. eapply Forall_impl; [apply ts_files_named|]. set_solver. Qed.

Definition ts_request (s : table_server) (t : string) (req : ArrowPayload) : table_server * result ArrowIngestResponse :=
  match req with
  | JSONSCHEMA => (s, Ok (mkArrowResp "" {["data" := "data"; "equalityDelete" := "delete"]} None))
  | FILEPATH =>
      let path := "warehouse/" +:+ pretty (ts_count s) in
      if decide (base path ∈ ts_named s) then (s, Err "name taken")
      else (mkTable (ts_stored s) ({[base path]} ∪ ts_named s) (ts_vectors s) (ts_count s + 1) (ts_snapshot s) (ts_rows s) (ts_keys s) (ts_past s) (ts_files s) (ts_history s)
              (ts_row_stored s) (ts_key s) (ts_range s) (ts_none s) (ts_ok s) (names_grow s (base path)), reply path None)
  | UPLOAD_FILE f p =>
      (mkTable (<[p := f]> (ts_stored s)) (ts_named s) (ts_vectors s) (ts_count s) (ts_snapshot s) (ts_rows s) (ts_keys s) (ts_past s) (ts_files s) (ts_history s)
         (ts_upload s p f) (ts_key s) (ts_range s) (ts_none s) (ts_ok s) (ts_files_named s), reply "" None)
  | DELETION_VECTORS es =>
      (mkTable (ts_stored s) (ts_named s) (<[t := ts_vectors_of s t ++ es]> (ts_vectors s)) (ts_count s) (ts_snapshot s) (ts_rows s) (ts_keys s) (ts_past s) (ts_files s) (ts_history s)
         (ts_row_stored s) (ts_key s) (ts_range s) (ts_none s) (ts_ok s) (ts_files_named s), reply "" None)
  | REGISTER_AND_COMMIT files _ _ =>
      let y := ts_snapshot s + 1 in
      let new := committed_files s files y in
      let history := mkSnapshot y (if ts_snapshot s =? 0 then None else Some (ts_snapshot s)) (Some new) :: ts_history s in
      let past := (ts_snapshot s, ts_rows s) :: ts_past s in
      let keys := ts_keys s ++ new_keys s files in
      match decide (- 2 ^ 63 ≤ y < 2 ^ 63), decide (y ≠ 0), decide (y ∉ (ts_past s).*1),
        decide (shown_ok y (rows_after s files t) keys past (ts_files s ++ new) history), decide (Forall (λ f, base (df_location f) ∈ ts_named s) (ts_files s ++ new)),
        decide (Forall (λ snap, ids_since (ts_table s) (ts_snapshot s) snap ⊆ ids_since (shown y (ts_files s ++ new) history) y snap) (ts_snapshot s :: (ts_past s).*1)) with
      | left Hr, left Hn, left _, left Hok, left Hnamed, left _ =>
          (mkTable (ts_stored s) (ts_named s) (<[t := []]> (ts_vectors s)) (ts_count s) y (rows_after s files t) keys past (ts_files s ++ new) history
             (after_stored s files t) (after_key s files t) Hr (after_none s (rows_after s files t) y Hn) Hok Hnamed, reply "" (Some y))
      | _, _, _, _, _, _ => (s, Err "conflict")
      end
  end.
#[local] Instance ts_client : ServerClient := {| server := table_server; SendClientRequest := ts_request |}.
#[local] Instance ts_server : ArrowServer.
Proof.
  refine {| stored := ts_stored; named := ts_named; vectors := ts_vectors_of; row_at := ts_rows : server → _; table_snapshot := ts_snapshot |}.
  - apply ts_row_stored.
  - by intros s t s' resp [= <- <-].
  - intros s t s' resp. cbn. case_decide; [done|]. by intros [= <- <-].
  - by intros s t f p s' resp [= <- <-].
  - intros s t es s' resp [= <- <-]. split_and!; try done. unfold ts_vectors_of. cbn. by rewrite lookup_insert_eq.
  - intros s t files payload base_ s' resp. cbn. do 6 (destruct (decide _); [|done]). intros [= <- <-]. split_and!; try done. by intros y [= <-].
  - intros s t req s' resp. destruct req; cbn; try (case_decide; [done|]); repeat destruct (decide _); intros [= _ <-] y; cbn; try done. by intros [= <-].
Defined.

Definition ts_added (s : table_server) (snap : Z) : gset string := ids_since (ts_table s) (ts_snapshot s) snap.
Definition ts_then (s : table_server) (snap : Z) : rows_fn := past_rows (ts_snapshot s) (ts_rows s) (ts_past s) snap.
#[local] Instance ts_iceberg : IcebergServer :=
  {| IngestRequest (s : server) _ _ := (s, Err "not served");
     ScanTableForIndexing (s : server) _ from := Ok (scanTableForIndexing (ts_table s) from);
     MigrateEqualityDeletes (s : server) _ _ := (s, Ok ()) |}.

Lemma ts_known (s : table_server) f : known (ts_table s) f → f ∈ ts_files s.
Proof.
  intros [Hf|(sn & fs & Hsn & Hfs & Hf)]; [done|]. pose proof (so_history _ _ _ _ _ _ (ts_ok s)) as Hh. rewrite Forall_forall in Hh.
  specialize (Hh sn Hsn). rewrite Hfs, Forall_forall in Hh. by apply Hh.
Qed.
Lemma ids_since_elem t y snap files i : dataFileChangesSince t snap y = Some files → i ∈ ids_since t y snap ↔ ∃ f, f ∈ files ∧ Some i ∈ df_ids f.
Proof.
  intros Hs. unfold ids_since. rewrite Hs, elem_of_list_to_set, list_elem_of_omap. split.
  - intros (o & Ho & Hi). unfold id in Hi. subst o. apply list_elem_of_In, in_concat in Ho as (l & Hl & Ho). apply list_elem_of_In in Hl, Ho. apply list_elem_of_fmap in Hl as (f & -> & ?). eauto.
  - intros (f & Hf & Hi). exists (Some i). split; [|done]. apply list_elem_of_In, in_concat. exists (df_ids f). split; apply list_elem_of_In; [by apply list_elem_of_fmap_2|done].
Qed.

#[local] Instance ts_indexable : IndexableServer.
Proof.
  refine {| ice_table (s : server) := ts_table s; snapshots (s : server) := list_to_set (ts_snapshot s :: (ts_past s).*1); rows_then := ts_then : server → _; added := ts_added : server → _ |}.
  - apply ts_range.
  - intros s p n H0. by apply ts_none.
  - intros s _. unfold ts_then, past_rows, ts_added. cbn. rewrite Z.eqb_refl. split_and!; [set_solver|done|].
    unfold ids_since, dataFileChangesSince, snapshotRange. cbn. by rewrite Z.eqb_refl.
  - intros s. unfold ts_table, shown. cbn. by destruct (Z.eqb_spec (ts_snapshot s) 0) as [->|].
  - intros s f g Hf%ts_known Hg%ts_known Hl. pose proof (so_unique _ _ _ _ _ _ (ts_ok s)) as Hnd. apply list_elem_of_lookup in Hf as (i & Hi), Hg as (j & Hj).
    assert (i = j) as ->; [|congruence]. eapply NoDup_lookup; [exact Hnd|by rewrite list_lookup_fmap, Hi|by rewrite list_lookup_fmap, Hj, Hl].
  - intros s f Hf%ts_known. pose proof (ts_files_named s) as Hn. pose proof (so_size _ _ _ _ _ _ (ts_ok s)) as Hz. rewrite Forall_forall in Hn, Hz. split; [by apply Hn|by apply Hz].
  - intros s p n r Hr. pose proof (so_rows _ _ _ _ _ _ (ts_ok s)) as Hro. rewrite Forall_forall in Hro. specialize (Hro (p, n) (ts_key s p n r Hr)). cbn in Hro.
    change (row_at s) with (ts_rows s) in Hr. rewrite Hr in Hro. apply Exists_exists in Hro as (g & Hg & ? & ? & ?). by exists g.
  - intros s snap files Hsn Hs. split; [intros i; by apply ids_since_elem|]. intros p n r Hr. pose proof (so_since _ _ _ _ _ _ (ts_ok s)) as Hss. rewrite Forall_forall in Hss.
    apply elem_of_list_to_set in Hsn. specialize (Hss snap Hsn). change (dataFileChangesSince (shown _ _ _) snap _) with (dataFileChangesSince (ts_table s) snap (ts_snapshot s)) in Hss.
    change (table_snapshot s) with (ts_snapshot s) in Hs. rewrite Hs, Forall_forall in Hss. specialize (Hss (p, n) (ts_key s p n r Hr)). cbn in Hss. change (row_at s) with (ts_rows s) in Hr. rewrite Hr in Hss.
    destruct Hss as [He|He]; [left; by apply Exists_exists|by right].
  - intros s t from st [= <-]. by left.
  - intros s t mode s' r [= <- _]. by split_and!.
  - intros s t req s' r. destruct req; cbn; [by intros [= <- _]|case_decide; by intros [= <- _]|by intros [= <- _]|by intros [= <- _]|].
    do 2 (destruct (decide _); [|by intros [= <- _]]). destruct (decide _) as [Hny|]; [|by intros [= <- _]]. do 2 (destruct (decide _); [|by intros [= <- _]]).
    destruct (decide _) as [Hgrow|]; [|by intros [= <- _]]. intros [= <- _]. cbn [ts_snapshot ts_past]. split; [set_solver|]. intros snap Hsn'. assert (Hsn : snap ∈ ts_snapshot s :: (ts_past s).*1) by set_solver. split.
    + assert (Hne : snap ≠ ts_snapshot s + 1) by (intros ->; apply elem_of_cons in Hsn as [Hx|Hx]; [lia|done]).
      unfold ts_then, past_rows. cbn. destruct (Z.eqb_spec snap (ts_snapshot s + 1)); [done|]. rewrite (Z.eqb_sym (ts_snapshot s)). by destruct (Z.eqb_spec snap (ts_snapshot s)).
    + rewrite Forall_forall in Hgrow. by apply Hgrow.
Defined.

(** A table with one row, an index that was never filled, and a run in two partitions. *)
Lemma start_key p n r : old_rows p n = Some r → (p, n) ∈ [("warehouse/old", 0)].
Proof. unfold old_rows. destruct (String.eqb_spec p "warehouse/old") as [->|]; [|done]. destruct (Z.eqb_spec n 0) as [->|]; [|done]. intros _. left. Qed.
Lemma start_range : - 2 ^ 63 ≤ 3 < 2 ^ 63.
Proof. lia. Qed.
Lemma start_none : 3 = 0 → ∀ p n, old_rows p n = None.
Proof. done. Qed.
Definition old_file : DataFile := mkDataFile "warehouse/old" (Some 3) true [Some "1"].
Definition old_history : list Snapshot := [mkSnapshot 3 None (Some [old_file])].
Lemma start_ok : shown_ok 3 old_rows [("warehouse/old", 0)] [] [old_file] old_history.
Proof. by_decide. Qed.
Lemma start_named : Forall (λ f, base (df_location f) ∈ ({["old"]} : gset string)) [old_file].
Proof. by_decide. Qed.
Definition start_table : table_server :=
  mkTable old_files {["old"]} ∅ 0 3 old_rows [("warehouse/old", 0)] [] [old_file] old_history old_stored start_key start_range start_none start_ok start_named.
Lemma start_ordered : versions_ordered (HS := ts_server) (start_table : server) None.
Proof.
  intros files [= <-]. split.
  - intros f n g k r id Hf Hn Hid Hg Hr Hrid. apply current_files_known in Hf. apply list_elem_of_singleton in Hf as ->, Hg as ->.
    destruct (Z.to_nat n) as [|j] eqn:En; [|by destruct j]. assert (k = 0) as ->; [|right; split; [done|right; split; [done|lia]]].
    cbn in Hr. unfold old_rows in Hr. cbn in Hr. by destruct (Z.eqb_spec k 0).
  - intros f g Hf Hg Hno. destruct (current_files_all _ _ Hg) as (f' & Hf' & Hl). by destruct (Hno f').
Qed.
Definition blank_index : pebbleIndex := Truncate (mkIndex empty_store ∅ ∅ 0).
Lemma blank_holds : represents blank_index ∅ 0.
Proof. exists ∅. apply Truncate_spec. Qed.
Lemma start_resumable : resumable (HS := ts_server) (start_table : server) ∅ 0.
Proof. split; [by left|]. intros id p n Hm. by rewrite lookup_empty in Hm. Qed.
Lemma scan_room s1 from st : (s1 = (start_table : server) ∨ ∃ mode r, MigrateEqualityDeletes (start_table : server) "t" mode = (s1, r)) →
  ScanTableForIndexing s1 "t" from = Ok st → index_room (blank_index : index) (length (all_entries (sc_batches st))) ∧ Z.of_nat (length (all_entries (sc_batches st))) < 2 ^ 64.
Proof.
  intros Hs. assert (s1 = start_table) as -> by (destruct Hs as [->|(? & ? & [= <- _])]; done). intros [= <-].
  destruct from as [x|]; [|by vm_compute]. destruct (decide (x = 3)) as [->|Hx]; [by vm_compute|].
  assert (scanTableForIndexing (ts_table start_table) (Some x) = mkScan [] (Some "cannot catch up stream index: full scan of index required")) as ->; [|by vm_compute].
  assert (scanned (ts_table start_table) (Some x) 3 = None) as Hnone.
  { unfold scanned. rewrite (proj2 (Z.eqb_neq x 3)) by done. unfold dataFileChangesSince, snapshotRange. cbn [snapshotRange_loop length it_snapshots ts_table shown ts_history start_table old_history].
    by rewrite (proj2 (Z.eqb_neq 3 x)) by done. }
  unfold scanTableForIndexing, scan. change (it_currentSnapshot (ts_table start_table)) with (Some 3). cbv beta iota. by rewrite Hnone.
Qed.
Definition reconciled : server * option index * result unit := reconcileTableIndex users "t" (start_table : server) (Some (blank_index : index)) 3 false.

Definition filled_index : pebbleIndex := match reconciled.1.2 with Some i => i | None => blank_index end.
Lemma reconciled_filled :
  reconcileTableIndex users "t" (start_table : server) (Some (blank_index : index)) (table_snapshot (start_table : server)) false
  = ((start_table : server), Some (filled_index : index), Ok ()).
Proof.
  assert (Hsome : match reconciled.1.2 with Some _ => true | None => false end = true) by (vm_compute; reflexivity).
  assert (Hok : reconciled.2 = Ok ()) by (vm_compute; reflexivity). assert (Hsrv : reconciled.1.1 = (start_table : server)) by reflexivity.
  transitivity reconciled; [reflexivity|]. unfold filled_index. destruct reconciled as [[s1 x] r]. cbn [fst snd] in *. destruct x as [i|]; [|discriminate Hsome]. congruence.
Qed.

Lemma index_reconciled_witness : reconciled.2 = Ok () ∧ ∃ m', represents filled_index m' 3 ∧ covers m' old_rows {["old"]}.
Proof.
  assert (Hok : reconciled.2 = Ok ()) by (vm_compute; reflexivity). split; [exact Hok|].
  pose proof (index_reconciled (HS := ts_server) (HI := pebble_index_spec) users "t" (start_table : server) (blank_index : index) ∅ 0 false) as H.
  rewrite reconciled_filled in H. revert H. generalize filled_index. intros f H. destruct H as (_ & i' & m' & snap' & Hx & Hh & _ & Hcov); [exact blank_holds|exact start_resumable|exact scan_room|].
  destruct (Hcov eq_refl) as [Hs Hc]. destruct (Hc start_ordered) as [Hc' _]. clear Hc. rename Hc' into Hc. injection Hx as Hx. rewrite Hs, <- Hx in Hh. exists m'. split; [exact Hh|exact Hc].
Defined.

Definition indexed_ops : list op :=
  [OWrite [rec_of "1" "u" "oslo"; rec_of "2" "u" "rome"]; OEvolve wide; OWrite [rec_of "2" "d" "rome"; rec_of "3" "c" "oslo"]].
Lemma indexed_partitioned : partitioned (λ _, 0) (λ _, "") (λ _ _, "") city_values true true "t" by_city users (tagged narrow indexed_ops).
Proof.
  intros sch rec ts k vs Hin. cbn in Hin.
  repeat (apply elem_of_cons in Hin as [[= -> ->]|Hin]; [intros _; vm_compute; by intros [= <- <-]|]). by apply not_elem_of_nil in Hin.
Qed.
Lemma indexed_fresh : inserts_fresh old_rows (tagged narrow indexed_ops).
Proof.
  intros l1 sr l2 Hl Hop. cbn in Hl. do 3 (destruct l1 as [|? l1]; injection Hl as <- Hl; [discriminate Hop|]).
  destruct l1 as [|? l1]; injection Hl as <- Hl; [|by apply app_cons_not_nil in Hl]. split.
  { intros p n r. unfold old_rows. destruct (_ && _); [|done]. by intros [= <-]. }
  intros sr' Hin'. repeat (apply elem_of_cons in Hin' as [->|Hin']; [done|]). by apply not_elem_of_nil in Hin'.
Qed.
Lemma indexed_ids sr : sr ∈ tagged narrow indexed_ops → sr.1 !! OlakeID = Some "string".
Proof. intros Hin. cbn in Hin. repeat (apply elem_of_cons in Hin as [->|Hin]; [by vm_compute|]). by apply not_elem_of_nil in Hin. Qed.
Lemma indexed_stays : stays (λ _, 0) (λ _, "") (λ _ _, "") city_values "t" by_city users (tagged narrow indexed_ops) old_rows.
Proof.
  intros sr ts k vs Hin Hk. split.
  - intros sr' ts' k' vs' Hin' Hk'. cbn in Hin, Hin'.
    repeat (apply elem_of_cons in Hin as [->|Hin]; [repeat (apply elem_of_cons in Hin' as [->|Hin']; [revert Hk Hk'; vm_compute; by intros [= <- <-] [= <- <-]|]); by apply not_elem_of_nil in Hin'|]).
    by apply not_elem_of_nil in Hin.
  - intros p n r Hr. unfold old_rows in Hr. destruct (_ && _); [|done]. injection Hr as <-. cbn in Hin.
    repeat (apply elem_of_cons in Hin as [->|Hin]; [revert Hk; vm_compute; by intros [= <- <-]|]). by apply not_elem_of_nil in Hin.
Qed.


Definition indexed_run : world * result unit :=
  thread_run (λ _, 0) (λ _, "") (λ _ _, "") (λ _, None) (λ _, "") sample_fields "t" users by_city narrow true indexed_ops None (start_table : server) (Some (filled_index : index)).
Lemma table_names : names_known (start_table : server).
Proof.
  intros p c. cbn. unfold old_files. destruct (decide (p = "warehouse/old")) as [->|Hne]; [intros _; by vm_compute|].
  by rewrite lookup_singleton_ne.
Qed.

Lemma iceberg_sync_upserts_witness :
  indexed_run.2 = Ok () ∧ (∃ es, length es = 4%nat ∧ NoDup (e_loc <$> es)) ∧ row_at (srv indexed_run.1) "warehouse/old" 0 = None.
Proof.
  assert (Hok : indexed_run.2 = Ok ()) by (vm_compute; reflexivity). split; [exact Hok|].
  assert (Hgone : row_at (srv indexed_run.1) "warehouse/old" 0 = None) by (vm_compute; reflexivity).
  destruct indexed_run as [w r] eqn:Hrun. cbn [fst snd] in *. subst r.
  destruct (iceberg_sync_upserts (HC := ts_client) (HS := ts_server) (HI := pebble_index_spec) (λ _, 0) (λ _, "") (λ _ _, "") (λ _, None) (λ _, "") sample_fields city_values users "t" by_city narrow
              indexed_ops None start_table blank_index ∅ 0 false start_table filled_index w) as (es & Hes & Hnd & _);
    [exact blank_holds|exact start_resumable|exact scan_room|exact reconciled_filled|exact start_ordered|exact Hrun|exact table_names|reflexivity|by vm_compute|by vm_compute
    |exact indexed_partitioned|exact indexed_fresh|exact indexed_ids|intros _; exact indexed_stays|].
  clear Hrun. split; [|exact Hgone]. exists es. split; [by rewrite <- (Forall2_length _ _ _ Hes)|exact Hnd].
Defined.
End Witnesses.
