(* ===== verification/IcebergFacts.v ===== *)
(** * Theorems about the batches of the Iceberg destination

    The tasks that shape the records of a batch run concurrently and share a flag; what
    they leave and the columns the batch needs do not depend on how they were scheduled. *)

From S2P Require Import Prelude GoString GoSet DataTypes QueryEngine Value ValueFacts Schema Stream StreamFacts Catalog State StateFacts Fields FieldsFacts Writers TwoPC IndexDB Jdbc Chunking Transforms ArrowWriter Iceberg.

(** ** Column types *)
Definition iceberg_types : list string := ["boolean"; "int"; "long"; "float"; "double"; "timestamptz"; "string"].
Lemma ToIceberg_known d : ToIceberg d ∈ iceberg_types.
Proof. unfold ToIceberg. repeat case_match; by_decide. Qed.

(** A column of the table keeps its type unless a promotion is asked for; a new column
    takes the common ancestor. *)
Definition next_type (thread current : option string) (detected : string) : string :=
  match thread with
  | Some _ => let t := default "" current in if isPromotionRequired t detected then detected else t
  | None => match current with Some t => getCommonAncestorType t detected | None => detected end
  end.
(** The type of a column takes a value of the detected type. *)
Definition accepts (thread : option string) (t detected : string) : bool :=
  match thread with Some _ => isValidTransition t detected | None => String.eqb (getCommonAncestorType t detected) t end.

Definition all_types (p : string → bool) : bool := forallb p iceberg_types.
Lemma all_types_spec p : all_types p = true → ∀ t, t ∈ iceberg_types → p t = true.
Proof. intros Hp t Hin. unfold all_types in Hp. rewrite forallb_forall in Hp. by apply Hp, list_elem_of_In. Qed.
Lemma promotion_known t ty : isPromotionRequired t ty = true → t ∈ ["int"; "float"].
Proof.
  unfold isPromotionRequired, promotionTransitions. cbn. destruct (decide (t = "int")) as [->|H1]; [set_solver|]. destruct (decide (t = "float")) as [->|H2]; [set_solver|].
  rewrite !lookup_insert_ne by done. by rewrite lookup_empty.
Qed.

(** Types accepted before are accepted after, and so is the one that came. *)
Lemma next_keeps thread t x ty : x ∈ iceberg_types → ty ∈ iceberg_types → (thread = None → t ∈ iceberg_types) →
  accepts thread t x = true → accepts thread (next_type thread (Some t) ty) x = true.
Proof.
  intros Hx Hty Ht. destruct thread as [th|]; cbn.
  - destruct (isPromotionRequired t ty) eqn:Ep; [|done]. intros Hax. apply promotion_known in Ep as Hk.
    assert (Hall : all_types (λ x, all_types (λ ty, forallb (λ t, negb (isValidTransition t x && isPromotionRequired t ty) || isValidTransition ty x) ["int"; "float"])) = true) by (vm_compute; reflexivity).
    pose proof (all_types_spec _ (all_types_spec _ Hall x Hx) ty Hty) as H. rewrite forallb_forall in H. specialize (H t ltac:(by apply list_elem_of_In)).
    rewrite Hax, Ep in H. done.
  - intros Hax. specialize (Ht eq_refl).
    assert (Hall : all_types (λ x, all_types (λ ty, all_types (λ t, negb (String.eqb (getCommonAncestorType t x) t)
      || String.eqb (getCommonAncestorType (getCommonAncestorType t ty) x) (getCommonAncestorType t ty)))) = true) by (vm_compute; reflexivity).
    pose proof (all_types_spec _ (all_types_spec _ (all_types_spec _ Hall x Hx) ty Hty) t Ht) as H. cbv beta in H. by rewrite Hax in H.
Qed.
Lemma next_accepts thread current ty : ty ∈ iceberg_types → (thread = None → ∀ t, current = Some t → t ∈ iceberg_types) →
  (is_Some thread → accepts thread (default "" current) ty = true) → accepts thread (next_type thread current ty) ty = true.
Proof.
  intros Hty Ht Hok. destruct thread as [th|]; cbn.
  - destruct (isPromotionRequired _ ty) eqn:Ep; [|apply Hok; eauto]. unfold isValidTransition. by rewrite String.eqb_refl.
  - destruct current as [t|].
    + assert (Hall : all_types (λ ty, all_types (λ t, String.eqb (getCommonAncestorType (getCommonAncestorType t ty) ty) (getCommonAncestorType t ty))) = true) by (vm_compute; reflexivity).
      exact (all_types_spec _ (all_types_spec _ Hall ty Hty) t (Ht eq_refl t eq_refl)).
    + assert (Hall : all_types (λ ty, String.eqb (getCommonAncestorType ty ty) ty) = true) by (vm_compute; reflexivity). exact (all_types_spec _ Hall ty Hty).
Qed.
Lemma next_known current ty : ty ∈ iceberg_types → next_type None current ty ∈ iceberg_types.
Proof. intros Hty. cbn. destruct current; [apply ToIceberg_known|done]. Qed.
(** A promotion is made once: a column of the table ends with its type or the promoted one. *)
Lemma next_promotes th t t' ty : t' = t ∨ isPromotionRequired t t' = true → let t'' := next_type (Some th) (Some t') ty in t'' = t ∨ isPromotionRequired t t'' = true.
Proof.
  cbn. destruct (isPromotionRequired t' ty) eqn:E; [|done]. intros [->|Hp]; [by right|]. exfalso.
  unfold isPromotionRequired, promotionTransitions in Hp, E. cbn in Hp, E. destruct (decide (t = "int")) as [->|H1].
  - rewrite lookup_insert_eq in Hp. apply contains_true, list_elem_of_singleton in Hp as ->. by vm_compute in E.
  - rewrite lookup_insert_ne in Hp by done. destruct (decide (t = "float")) as [->|H2]; [|rewrite lookup_insert_ne, lookup_empty in Hp; done].
    rewrite lookup_insert_eq in Hp. apply contains_true, list_elem_of_singleton in Hp as ->. by vm_compute in E.
Qed.

Section Batches.
Context {HE : GoEnv} {HR : GoRange}.
Implicit Types (T F : gmap string string) (data : Record_) (entries : list (string * any)).

Definition detected (v : any) : string := ToIceberg (TypeFromValue v).
Definition null (v : any) : bool := String.eqb (TypeFromValue v) Null.
(** A record without its nulls. *)
Definition clean data : Record_ := filter (λ kv, null kv.2 = false) data.
(** The schema after a record. *)
Definition merge_types T data F : gmap string string := map_imap (λ k v, Some (next_type (T !! k) (F !! k) (detected v))) (clean data) ∪ F.
(** Some column of a record is new or needs a promotion. *)
Definition needs_change T data : Prop :=
  ∃ k v, clean data !! k = Some v ∧ match T !! k with Some t => isPromotionRequired t (detected v) = true | None => True end.

Lemma clean_lookup data k v : clean data !! k = Some v ↔ data !! k = Some v ∧ null v = false.
Proof. unfold clean. rewrite map_lookup_filter_Some. done. Qed.
Lemma clean_clean data : clean (clean data) = clean data.
Proof. unfold clean. rewrite map_filter_filter. f_equal. apply map_filter_ext. naive_solver. Qed.
Lemma clean_delete data k v : data !! k = Some v → null v = true → clean (delete k data) = clean data.
Proof.
  intros Hk Hn. apply map_eq. intros k'. apply option_eq. intros v'. rewrite !clean_lookup, lookup_delete_Some. split; [naive_solver|].
  intros [Hd Hv]. split_and!; try done. intros ->. congruence.
Qed.
Lemma merge_lookup T data F k : merge_types T data F !! k = match clean data !! k with Some v => Some (next_type (T !! k) (F !! k) (detected v)) | None => F !! k end.
Proof. unfold merge_types. rewrite lookup_union, map_lookup_imap. destruct (clean data !! k) as [v|]; cbn; [by destruct (F !! k)|by destruct (F !! k)]. Qed.

(** ** One record *)
(** Entries still to come are in the record and not in what was done. *)
Definition todo entries data : Prop := NoDup entries.*1 ∧ ∀ k v, (k, v) ∈ entries → data !! k = Some v.
Lemma todo_tail k v entries data : todo ((k, v) :: entries) data → todo entries data ∧ todo entries (delete k data) ∧ data !! k = Some v ∧ k ∉ entries.*1.
Proof.
  intros [[Hk Hnd]%NoDup_cons Hin]. split_and!; [|..|apply Hin; by left|done]; (split; [done|]); intros k' v' Hin'.
  - apply Hin. by right.
  - rewrite lookup_delete_ne; [apply Hin; by right|]. intros <-. apply Hk, list_elem_of_fmap. by exists (k, v').
Qed.

(** What is left of a record whose nulls among [entries] were removed. *)
Definition trimmed entries data data' : Prop := data' ⊆ data ∧ clean data' = clean data ∧ ∀ k v, (k, v) ∈ entries → null v = true → data' !! k = None.
Lemma trimmed_nil data : trimmed [] data data.
Proof. split_and!; try done. by intros k v ?%not_elem_of_nil. Qed.
Lemma trimmed_null k v entries data data' : data !! k = Some v → null v = true → trimmed entries (delete k data) data' → trimmed ((k, v) :: entries) data data'.
Proof.
  intros Hk Hn (Hsub & Hcl & Hno). split_and!; [etransitivity; [exact Hsub|apply delete_subseteq]|by rewrite Hcl, (clean_delete _ _ v)|].
  intros k' v' [[= -> ->]|Hin]%elem_of_cons Hv'; [|by eapply Hno]. destruct (data' !! k) as [u|] eqn:E; [|done].
  eapply lookup_weaken in E; [|exact Hsub]. by rewrite lookup_delete_eq in E.
Qed.
Lemma trimmed_cons k v entries data data' : null v = false → trimmed entries data data' → trimmed ((k, v) :: entries) data data'.
Proof. intros Hn (? & ? & Hno). split_and!; try done. intros k' v' [[= -> ->]|Hin]%elem_of_cons Hv'; [congruence|by eapply Hno]. Qed.
Lemma trimmed_all data data' : trimmed (range data) data data' → data' = clean data.
Proof.
  intros (Hsub & Hcl & Hno). rewrite <- Hcl. symmetry. unfold clean. apply map_filter_id. intros k v Hk. cbn. destruct (null v) eqn:En; [|done].
  pose proof (lookup_weaken _ _ _ _ Hk Hsub) as Hd. rewrite (Hno k v) in Hk; [done|by apply elem_of_range|done].
Qed.

Lemma update_columns T entries data F r :
  todo entries data → (∀ k, is_Some (T !! k) → is_Some (F !! k)) → detect_columns false T entries data F = Ok r →
  ∃ data' F', r = (false, data', F') ∧ trimmed entries data data'
  ∧ (∀ k, k ∉ entries.*1 → F' !! k = F !! k)
  ∧ ∀ k v, (k, v) ∈ entries → F' !! k = (if null v then F !! k else Some (next_type (T !! k) (F !! k) (detected v)))
      ∧ (null v = false → is_Some (T !! k) → isValidTransition (default "" (F !! k)) (detected v) = true).
Proof.
  revert data F r. induction entries as [|[k v] entries IH]; intros data F r Htodo HT; cbn [detect_columns].
  { intros [= <-]. exists data, F. split_and!; try done; [apply trimmed_nil|by intros k v ?%not_elem_of_nil]. }
  apply todo_tail in Htodo as (Ht & Htd & Hk & Hnk). rewrite bind_Ok. intros ([[c d1] F1] & Hcol & Hrest). unfold detect_column in Hcol. fold (null v) (detected v) in Hcol.
  assert (Hin : ∀ k' v', (k', v') ∈ entries → k' ≠ k) by (intros k' v' Hin ->; apply Hnk, list_elem_of_fmap; by exists (k, v')).
  destruct (null v) eqn:En.
  - injection Hcol as <- <- <-. apply IH in Hrest as (data' & F' & -> & Htr & Ho & He); [|done..]. exists data', F'. split_and!; try done.
    + by apply trimmed_null.
    + intros k' Hk'. apply Ho. set_solver.
    + intros k' v' [[= -> ->]|Hin']%elem_of_cons; [|by apply He]. rewrite En. split; [by apply Ho|done].
  - assert (Hc : c = false ∧ d1 = data ∧ F1 = <[k := next_type (T !! k) (F !! k) (detected v)]> F
      ∧ (is_Some (T !! k) → isValidTransition (default "" (F !! k)) (detected v) = true)).
    { destruct (T !! k) as [t|] eqn:ET; cbn; [|injection Hcol as <- <- <-; split_and!; try done; by intros [? ?]].
      destruct (HT k ltac:(by eexists)) as [cur Hcur]. rewrite Hcur in *. cbn in *. destruct (isValidTransition cur _) eqn:Ev; [|done]. cbn in Hcol.
      destruct (isPromotionRequired cur _); injection Hcol as <- <- <-; split_and!; try done. by rewrite insert_id. }
    destruct Hc as (-> & -> & -> & Hval). apply IH in Hrest as (data' & F' & -> & Htr & Ho & He); [|done|].
    2: { intros k' Hk'. destruct (decide (k' = k)) as [->|]; [rewrite lookup_insert_eq; eauto|rewrite lookup_insert_ne by done; auto]. }
    exists data', F'. split_and!; try done.
    + by apply trimmed_cons.
    + intros k' Hk'. rewrite Ho by set_solver. apply lookup_insert_ne. set_solver.
    + intros k' v' [[= -> ->]|Hin']%elem_of_cons.
      * rewrite En, Ho by done. by rewrite lookup_insert_eq.
      * destruct (He k' v' Hin') as [H1 H2]. rewrite lookup_insert_ne in H1, H2 by (symmetry; by eapply Hin). done.
Qed.

Lemma todo_range data : todo (range data) data.
Proof. split; [apply range_NoDup_keys|]. intros k v. by rewrite elem_of_range. Qed.

Lemma update_record T data F r :
  (∀ k, is_Some (T !! k) → is_Some (F !! k)) → detectOrUpdateSchema data false T F = Ok r →
  r = (false, clean data, merge_types T data F)
  ∧ ∀ k v, clean data !! k = Some v → is_Some (T !! k) → isValidTransition (default "" (F !! k)) (detected v) = true.
Proof.
  intros HT Hd. unfold detectOrUpdateSchema in Hd. eapply update_columns in Hd as (data' & F' & -> & Htr & Ho & He); [|apply todo_range|done]. split.
  - rewrite (trimmed_all _ _ Htr). do 2 f_equal. apply map_eq. intros k. rewrite merge_lookup. destruct (data !! k) as [v|] eqn:Ek.
    + destruct (He k v) as [HF _]; [by apply elem_of_range|]. rewrite HF. destruct (clean data !! k) as [u|] eqn:Ec.
      * apply clean_lookup in Ec as [Hu Hn]. assert (u = v) as -> by congruence. by rewrite Hn.
      * destruct (null v) eqn:En; [done|]. assert (clean data !! k = Some v) by (by apply clean_lookup). congruence.
    + assert (clean data !! k = None) as ->.
      { destruct (clean data !! k) as [u|] eqn:E; [|done]. apply clean_lookup in E as [? _]. congruence. }
      apply Ho. intros ([k' v] & -> & Hin%elem_of_range)%list_elem_of_fmap. cbn in *. congruence.
  - intros k v [Hk Hn]%clean_lookup Hs. by apply (He k v); [apply elem_of_range|..].
Qed.

Lemma detect_columns_true T entries data r :
  todo entries data → detect_columns true T entries data T = Ok r →
  ∃ changed data', r = (changed, data', T) ∧ clean data' = clean data
  ∧ if changed : bool then ∃ k v, (k, v) ∈ entries ∧ null v = false ∧ match T !! k with Some t => isPromotionRequired t (detected v) = true | None => True end
    else trimmed entries data data' ∧ ∀ k v, (k, v) ∈ entries → null v = false →
      ∃ t, T !! k = Some t ∧ isPromotionRequired t (detected v) = false ∧ isValidTransition t (detected v) = true.
Proof.
  revert data r. induction entries as [|[k v] entries IH]; intros data r Htodo; cbn [detect_columns].
  { intros [= <-]. exists false, data. split_and!; try done; [apply trimmed_nil|by intros k v ?%not_elem_of_nil]. }
  apply todo_tail in Htodo as (Ht & Htd & Hk & _). rewrite bind_Ok. intros ([[c d1] F1] & Hcol & Hrest). unfold detect_column in Hcol. fold (null v) (detected v) in Hcol.
  destruct (null v) eqn:En.
  - injection Hcol as <- <- <-. apply IH in Hrest as (changed & data' & -> & Hcl & Hch); [|done]. exists changed, data'. split_and!; [done|by rewrite Hcl, (clean_delete _ _ v)|].
    destruct changed.
    + destruct Hch as (k' & v' & ? & ?). exists k', v'. split; [by right|done].
    + destruct Hch as [Htr Hall]. split; [by apply trimmed_null|]. intros k' v' [[= -> ->]|Hin]%elem_of_cons; [congruence|by apply Hall].
  - destruct (T !! k) as [t|] eqn:ET.
    + cbn in Hcol. destruct (isValidTransition t _) eqn:Ev; [|done]. cbn in Hcol. destruct (isPromotionRequired t _) eqn:Ep; injection Hcol as <- <- <-.
      * injection Hrest as <-. exists true, data. split_and!; try done. exists k, v. rewrite ET. split; [by left|done].
      * apply IH in Hrest as (changed & data' & -> & Hcl & Hch); [|done]. exists changed, data'. split_and!; try done. destruct changed.
        -- destruct Hch as (k' & v' & ? & ?). exists k', v'. split; [by right|done].
        -- destruct Hch as [Htr Hall]. split; [by apply trimmed_cons|]. intros k' v' [[= -> ->]|Hin]%elem_of_cons; [eauto|by apply Hall].
    + injection Hcol as <- <- <-. injection Hrest as <-. exists true, data. split_and!; try done. exists k, v. rewrite ET. split; [by left|done].
Qed.

(** ** The second pass *)
Lemma merge_clean T data F : merge_types T (clean data) F = merge_types T data F.
Proof. unfold merge_types. by rewrite clean_clean. Qed.

(** The schema built so far has every column of the table, at most promoted, takes every
    value of the records done and has no column of its own. *)
Record fits T F (recs : list RawRecord) : Prop := {
  f_table : ∀ k t, T !! k = Some t → ∃ t', F !! k = Some t' ∧ (t' = t ∨ isPromotionRequired t t' = true);
  f_values : ∀ r k v, r ∈ recs → clean (Data r) !! k = Some v → ∃ t', F !! k = Some t' ∧ accepts (T !! k) t' (detected v) = true;
  f_columns : ∀ k t', F !! k = Some t' → is_Some (T !! k) ∨ (t' ∈ iceberg_types ∧ ∃ r v, r ∈ recs ∧ clean (Data r) !! k = Some v)
}.
Lemma fits_nil T : fits T T [].
Proof. split; [eauto|by intros r k v ?%not_elem_of_nil|intros k t' Hk; left; eauto]. Qed.
Lemma fits_snoc T F recs r :
  fits T F recs → (∀ k v, clean (Data r) !! k = Some v → is_Some (T !! k) → isValidTransition (default "" (F !! k)) (detected v) = true) →
  fits T (merge_types T (Data r) F) (recs ++ [r]).
Proof.
  intros [Hta Hva Hco] Hok.
  assert (Hknown : ∀ k, T !! k = None → ∀ t, F !! k = Some t → t ∈ iceberg_types) by (intros k HT t Ht; destruct (Hco k t Ht) as [[? ?]|[? _]]; [congruence|done]).
  split.
  - intros k t HT. rewrite merge_lookup. destruct (Hta k t HT) as (t1 & H1 & Hp). rewrite HT, H1. destruct (clean (Data r) !! k) as [v|]; [|eauto].
    eexists. split; [done|]. by apply next_promotes.
  - intros r' k v' Hin Hv'. rewrite merge_lookup. apply elem_of_app in Hin as [Hin| ->%list_elem_of_singleton].
    + destruct (Hva r' k v' Hin Hv') as (t' & Ht' & Ha). rewrite Ht'. destruct (clean (Data r) !! k) as [v|] eqn:Ev; [|eauto]. eexists. split; [done|].
      apply next_keeps; [apply ToIceberg_known..|intros HT; by eapply Hknown|done].
    + rewrite Hv'. eexists. split; [done|]. apply next_accepts; [apply ToIceberg_known|apply Hknown|]. intros Hs. specialize (Hok k v' Hv' Hs). by destruct (T !! k); [|destruct Hs].
  - intros k t'. rewrite merge_lookup. destruct (clean (Data r) !! k) as [v|] eqn:Ev.
    + intros [= <-]. destruct (T !! k) as [th|] eqn:ET; [left; eauto|]. right. split; [apply next_known, ToIceberg_known|]. exists r, v. split; [set_solver|done].
    + intros Hk. destruct (Hco k t' Hk) as [?|(? & r' & v & ? & ?)]; [by left|]. right. split; [done|]. exists r', v. split; [set_solver|done].
Qed.

Definition cleaned (r : RawRecord) : RawRecord := mkRaw (clean (Data r)) (OlakeColumns r).
Definition merged T (recs : list RawRecord) F : gmap string string := foldl (λ F r, merge_types T (Data r) F) F recs.

Lemma merged_clean T recs recs' F : Forall2 (λ a b, clean (Data a) = clean (Data b)) recs recs' → merged T recs F = merged T recs' F.
Proof.
  intros Hf. revert F. induction Hf as [|a b recs recs' Hab _ IH]; intros F; [done|]. cbn. rewrite <- (merge_clean T (Data a)), Hab, merge_clean. apply IH.
Qed.

Lemma update_schema_spec T recs F done recs' F' :
  fits T F done → update_schema T recs F = Ok (recs', F') → recs' = cleaned <$> recs ∧ F' = merged T recs F ∧ fits T F' (done ++ recs).
Proof.
  revert F done recs' F'. induction recs as [|r recs IH]; intros F done recs' F' Hfit; cbn [update_schema].
  { intros [= <- <-]. by rewrite app_nil_r. }
  rewrite bind_Ok. intros ([[c data] F1] & Hd & Hrest). apply update_record in Hd as [[= -> -> ->] Hval].
  2: { intros k [t Ht]. destruct (f_table _ _ _ Hfit k t Ht) as (t' & ? & _). eauto. }
  apply bind_Ok in Hrest as ([recs1 F2] & Hu & [= <- <-]). apply (IH _ (done ++ [r])) in Hu as (-> & -> & Hfit'); [|by apply fits_snoc].
  rewrite <- app_assoc in Hfit'. done.
Qed.

(** ** The first pass *)
Section Schedule.
Context (json_marshal : any → option string) (resolve : string → string) (T : gmap string string).

(** Nothing of the record is new to the schema. *)
Definition quiet_record data : Prop := ∀ k v, clean data !! k = Some v → ∃ t, T !! k = Some t ∧ isPromotionRequired t (detected v) = false ∧ isValidTransition t (detected v) = true.

(** What a task makes of a shaped record, by whether it saw the flag. *)
Record task_done (saw : bool) (b : RawRecord) (x : RawRecord * bool) : Prop := {
  td_olake : OlakeColumns x.1 = OlakeColumns b;
  td_clean : clean (Data x.1) = clean (Data b);
  td_set : x.2 = true → needs_change T (Data b);
  td_saw : saw = true → x.2 = false;
  td_quiet : saw = false → x.2 = false → Data x.1 = clean (Data b) ∧ quiet_record (Data b)
}.

Lemma task_spec saw cache record cache' x changed :
  flatten_task json_marshal resolve T saw cache record = Ok (cache', x, changed) →
  ∃ b, flatten_task json_marshal resolve T true cache record = Ok (cache', b, false) ∧ task_done saw b (x, changed).
Proof.
  unfold flatten_task. rewrite bind_Ok. intros ([c data] & -> & H). cbn [mbind result_bind]. set (d := OlakeColumns record ∪ data) in *. destruct saw.
  - injection H as <- <- <-. eexists. split; [done|]. by split.
  - apply bind_Ok in H as ([[ch d1] F1] & Hd & [= <- <- <-]). unfold detectOrUpdateSchema in Hd. apply detect_columns_true in Hd as (ch' & data' & [= -> -> ->] & Hcl & Hch); [|apply todo_range].
    eexists. split; [done|]. split; cbn; try done.
    + intros ->. destruct Hch as (k & v & Hin%elem_of_range & Hn & Hm). exists k, v. split; [by apply clean_lookup|done].
    + intros _ ->. destruct Hch as [Htr Hall]. split; [by apply trimmed_all|]. intros k v [Hk Hn]%clean_lookup. apply Hall; [by apply elem_of_range|done].
Qed.

Lemma tasks_spec sees cache records tasks :
  flatten_tasks json_marshal resolve T sees cache records = Ok tasks →
  ∃ bases, flatten_tasks json_marshal resolve T (λ _, true) cache records = Ok ((., false) <$> bases) ∧ length bases = length records
  ∧ length tasks = length records ∧ ∀ i b x, bases !! i = Some b → tasks !! i = Some x → task_done (sees i) b x.
Proof.
  revert sees cache tasks. induction records as [|record records IH]; intros sees cache tasks; cbn [flatten_tasks].
  { intros [= <-]. by exists []. }
  rewrite bind_Ok. intros ([[c x] ch] & Ht & Hrest). apply bind_Ok in Hrest as (rest & Hr & [= <-]).
  apply task_spec in Ht as (b & Hb & Hdone). apply IH in Hr as (bases & Hbs & Hlen & Hlen' & Hall). exists (b :: bases). rewrite Hb. cbn [mbind result_bind].
  change ((λ _ : nat, true) ∘ S) with (λ _ : nat, true). rewrite Hbs. cbn. split_and!; [done|by rewrite Hlen|by rewrite Hlen'|].
  intros [|i] b' x'; cbn; [by intros [= <-] [= <-]|]. apply Hall.
Qed.

(** A task can find the flag set only if a task set it. *)
Definition possible (sees : nat → bool) (records : list RawRecord) : Prop :=
  ∀ tasks i, flatten_tasks json_marshal resolve T sees ∅ records = Ok tasks → (i < length records)%nat → sees i = true → existsb snd tasks = true.

Lemma extract_spec sees records diff recs final :
  possible sees records → extractSchemaFromRecords json_marshal resolve T sees records = Ok (diff, recs, final) →
  ∃ bases, flatten_tasks json_marshal resolve T (λ _, true) ∅ records = Ok ((., false) <$> bases)
  ∧ recs = cleaned <$> bases ∧ (diff = true ↔ ∃ b, b ∈ bases ∧ needs_change T (Data b)) ∧ final = (if diff then merged T bases T else T) ∧ fits T final bases.
Proof.
  intros Hpos. unfold extractSchemaFromRecords. rewrite bind_Ok. intros (tasks & Ht & H). pose proof (tasks_spec _ _ _ _ Ht) as (bases & Hb & Hlen & Hlen' & Hall). exists bases. split; [done|].
  assert (Hpair : ∀ i b, bases !! i = Some b → ∃ x, tasks !! i = Some x) by (intros i b Hi; apply lookup_lt_is_Some_2; apply lookup_lt_Some in Hi; lia).
  destruct (existsb snd tasks) eqn:Ex.
  - apply bind_Ok in H as ([recs1 F1] & Hu & [= <- <- <-]). apply (update_schema_spec T _ T []) in Hu as (-> & -> & Hfit); [|apply fits_nil].
    assert (Hf : Forall2 (λ a b, clean (Data a) = clean (Data b)) tasks.*1 bases).
    { apply Forall2_same_length_lookup. split; [rewrite length_fmap; lia|]. intros i a b (x & -> & Hx)%list_lookup_fmap_Some Hi. by apply (td_clean _ _ _ (Hall i b x Hi Hx)). }
    assert (Hm : merged T tasks.*1 T = merged T bases T) by (by apply merged_clean). split_and!; [|..|done|].
    + apply list_eq. intros i. rewrite !list_lookup_fmap. destruct (bases !! i) as [b|] eqn:Ei.
      * destruct (Hpair i b Ei) as [x Hx]. rewrite Hx. cbn. destruct (Hall i b x Ei Hx) as [Ho Hcl _ _ _]. unfold cleaned. by rewrite Ho, Hcl.
      * apply lookup_ge_None in Ei. rewrite (proj2 (lookup_ge_None tasks i)) by lia. done.
    + split; [intros _|done]. apply existsb_exists in Ex as (x & Hin%list_elem_of_In & Hx). apply list_elem_of_lookup_1 in Hin as [i Hi].
      destruct (lookup_lt_is_Some_2 bases i) as [b Hbi]; [apply lookup_lt_Some in Hi; lia|]. exists b. split; [by eapply list_elem_of_lookup_2|]. by apply (td_set _ _ _ (Hall i b x Hbi Hi)).
    + rewrite Hm in Hfit |- *. destruct Hfit as [Hta Hva Hco]. cbn [app] in *.
      assert (Heqv : ∀ k v, (∃ r, r ∈ tasks.*1 ∧ clean (Data r) !! k = Some v) ↔ ∃ r, r ∈ bases ∧ clean (Data r) !! k = Some v).
      { intros k v. split; intros (r & Hin & Hv).
        - apply list_elem_of_lookup_1 in Hin as [i Hi]. destruct (Forall2_lookup_l _ _ _ _ _ Hf Hi) as (b & Hbi & He). exists b. split; [by eapply list_elem_of_lookup_2|by rewrite <- He].
        - apply list_elem_of_lookup_1 in Hin as [i Hi]. destruct (Forall2_lookup_r _ _ _ _ _ Hf Hi) as (b & Hbi & He). exists b. split; [by eapply list_elem_of_lookup_2|by rewrite He]. }
      split; [done| |].
      * intros r k v Hin Hv. destruct (proj2 (Heqv k v)) as (r' & ? & ?); [eauto|]. eauto.
      * intros k t' Hk. destruct (Hco k t' Hk) as [?|(? & r & v & ? & ?)]; [by left|]. right. split; [done|]. destruct (proj1 (Heqv k v)) as (r' & ? & ?); eauto.
  - injection H as <- <- <-.
    assert (Hq : ∀ i b x, bases !! i = Some b → tasks !! i = Some x → x.2 = false ∧ Data x.1 = clean (Data b) ∧ OlakeColumns x.1 = OlakeColumns b ∧ quiet_record (Data b)).
    { intros i b x Hi Hx. assert (x.2 = false) as Hx2. { destruct x.2 eqn:E; [|done]. assert (existsb snd tasks = true); [|congruence]. apply existsb_exists. exists x. split; [|done]. apply list_elem_of_In. by eapply list_elem_of_lookup_2. }
      assert (Hs : sees i = false). { destruct (sees i) eqn:E; [|done]. assert (existsb snd tasks = true); [|congruence]. eapply Hpos; [exact Ht| |exact E]. apply lookup_lt_Some in Hi. lia. }
      destruct (Hall i b x Hi Hx) as [? _ _ _ Hqq]. destruct (Hqq Hs Hx2). done. }
    assert (Hqb : ∀ b, b ∈ bases → quiet_record (Data b)).
    { intros b [i Hi]%list_elem_of_lookup_1. destruct (Hpair i b Hi) as [x Hx]. by apply (Hq i b x). }
    split_and!; [|..|done|].
    + apply list_eq. intros i. rewrite !list_lookup_fmap. destruct (bases !! i) as [b|] eqn:Ei.
      * destruct (Hpair i b Ei) as [x Hx]. rewrite Hx. cbn. destruct (Hq i b x Ei Hx) as (_ & Hd & Ho & _). unfold cleaned. rewrite <- Hd, <- Ho. by destruct x.1.
      * apply lookup_ge_None in Ei. rewrite (proj2 (lookup_ge_None tasks i)) by lia. done.
    + split; [done|]. intros (b & Hin & k & v & Hk & Hm). destruct (Hqb b Hin k v Hk) as (t & Ht' & Hp & _). rewrite Ht' in Hm. congruence.
    + split; [eauto| |intros k t' Hk; left; eauto]. intros r k v Hin Hv. destruct (Hqb r Hin k v Hv) as (t & HT & _ & Hval). exists t. split; [done|]. by rewrite HT.
Qed.

(** C31: what an accepted batch becomes does not depend on how its tasks were scheduled.
    For any schedule in which a task finds the flag set only if a task set it, a batch that
    is accepted gives the flattened records with OLake's columns and without nulls, reports
    a difference exactly when some column is new or needs a promotion, and the schema it
    asks for has every column of the table with its type or the promoted one, takes every
    value of the batch, and has no other column; any other schedule that is accepted gives
    the same.  Whether a batch is accepted can depend on the schedule
    ([float_column_racy] below). *)
Theorem batch_schema_sound sees records diff recs final :
  possible sees records → extractSchemaFromRecords json_marshal resolve T sees records = Ok (diff, recs, final) →
  (∃ bases, flatten_tasks json_marshal resolve T (λ _, true) ∅ records = Ok ((., false) <$> bases) ∧ recs = cleaned <$> bases
     ∧ (diff = true ↔ ∃ b, b ∈ bases ∧ needs_change T (Data b)))
  ∧ (∀ k t, T !! k = Some t → ∃ t', final !! k = Some t' ∧ (t' = t ∨ isPromotionRequired t t' = true))
  ∧ (∀ r k v, r ∈ recs → Data r !! k = Some v → ∃ t', final !! k = Some t' ∧ accepts (T !! k) t' (detected v) = true)
  ∧ (∀ k t', final !! k = Some t' → is_Some (T !! k) ∨ ∃ r v, r ∈ recs ∧ Data r !! k = Some v)
  ∧ ∀ sees' result, possible sees' records → extractSchemaFromRecords json_marshal resolve T sees' records = Ok result → result = (diff, recs, final).
Proof.
  intros Hpos Hx. pose proof (extract_spec _ _ _ _ _ Hpos Hx) as (bases & Hb & Hrecs & Hdiff & Hfinal & Hfit).
  assert (Hin : ∀ k v, (∃ r, r ∈ recs ∧ Data r !! k = Some v) ↔ ∃ r, r ∈ bases ∧ clean (Data r) !! k = Some v).
  { intros k v. rewrite Hrecs. split; [intros (r & (b & -> & ?)%list_elem_of_fmap & ?); eauto|]. intros (b & ? & ?). exists (cleaned b). split; [apply list_elem_of_fmap; eauto|done]. }
  split_and!; [by exists bases|apply Hfit| | |].
  - intros r k v Hr Hv. destruct (proj1 (Hin k v)) as (b & ? & ?); [eauto|]. by eapply f_values.
  - intros k t' Hk. destruct (f_columns _ _ _ Hfit k t' Hk) as [?|(_ & r & v & ? & ?)]; [by left|]. right. destruct (proj2 (Hin k v)) as (r' & ? & ?); eauto.
  - intros sees' [[diff' recs'] final'] Hpos' Hx'. pose proof (extract_spec _ _ _ _ _ Hpos' Hx') as (bases' & Hb' & -> & Hdiff' & -> & _).
    rewrite Hb in Hb'. assert (bases' = bases) as ->.
    { injection Hb' as Hb'. apply (f_equal (fmap fst)) in Hb'. rewrite <- !list_fmap_compose in Hb'. by rewrite !list_fmap_id in Hb'. }
    assert (diff' = diff) as -> by (apply eq_true_iff_eq; by rewrite Hdiff, Hdiff'). by rewrite Hrecs, Hfinal.
Qed.
End Schedule.
End Batches.

(** ** Witnesses *)
Section Witnesses.
#[local] Instance wx_range : GoRange := sorted_range.
#[local] Instance wx_env : GoEnv := bare_env.
Definition raw (data : Record_) : RawRecord := mkRaw data {[OpType := AString "c"]}.
Definition table : gmap string string := {["id" := "int"; "x" := "float"; OpType := "string"]}.
Definition two_records : list RawRecord := [raw {["id" := AInt KInt64 7; "gone" := ANil]}; raw {["id" := AInt KInt32 8; "name" := AString "a"]}].
Definition second_sees (i : nat) : bool := (i =? 1)%nat.
Abbreviation extract_two := (extractSchemaFromRecords (λ _, None) (λ k, k) table second_sees two_records).

Lemma two_possible records : match flatten_tasks (λ _, None) (λ k, k) table second_sees ∅ records with Ok tasks => existsb snd tasks | _ => true end = true →
  possible (λ _, None) (λ k, k) table second_sees records.
Proof. intros Hx tasks i Ht _ _. by rewrite Ht in Hx. Qed.

Lemma two_flag : match flatten_tasks (λ _, None) (λ k, k) table second_sees ∅ two_records with Ok tasks => existsb snd tasks | _ => true end = true.
Proof. vm_compute. reflexivity. Qed.
Lemma ok_when {A} (x : result A) (f : A → bool) : match x with Ok a => f a | _ => false end = true → ∃ a, x = Ok a ∧ f a = true.
Proof. destruct x; [eauto|done..]. Qed.
Definition two_expected (result : bool * list RawRecord * gmap string string) : bool :=
  result.1.1 && bool_decide (result.2 !! "id" = Some "long") && bool_decide (result.2 !! "name" = Some "string").
Lemma two_extracted : ∃ result, extract_two = Ok result ∧ two_expected result = true.
Proof. apply ok_when. vm_compute. reflexivity. Qed.

Lemma batch_schema_sound_witness :
  ∃ recs final, extract_two = Ok (true, recs, final) ∧ final !! "id" = Some "long" ∧ final !! "name" = Some "string"
  ∧ ∀ result, extractSchemaFromRecords (λ _, None) (λ k, k) table (λ _, false) two_records = Ok result → result = (true, recs, final).
Proof.
  destruct two_extracted as ([[d recs] final] & E & ((Hd & Hid)%andb_prop & Hname)%andb_prop).
  apply bool_decide_eq_true in Hid, Hname. simpl in Hd, Hid, Hname. subst d.
  exists recs, final. split; [exact E|]. split; [exact Hid|]. split; [exact Hname|]. intros result.
  refine (proj2 (proj2 (proj2 (proj2 (batch_schema_sound (λ _, None) (λ k, k) table second_sees two_records true recs final (two_possible two_records two_flag) E)))) (λ _, false) result _).
  intros tasks i _ _ Hf. discriminate Hf.
Defined.

(** An integer in a batch that also promotes a float column is refused or accepted
    depending on whether its task ran before or after the one that set the flag. *)
Definition racy_batch : list RawRecord := [raw {["x" := AFloat64 (S754_finite false 4503599627370496 (-52))]}; raw {["x" := AInt KInt64 5]}].
Lemma float_column_racy :
  (∃ result, extractSchemaFromRecords (λ _, None) (λ k, k) table second_sees racy_batch = Ok result)
  ∧ possible (λ _, None) (λ k, k) table second_sees racy_batch
  ∧ ∃ e, extractSchemaFromRecords (λ _, None) (λ k, k) table (λ _, false) racy_batch = Err e.
Proof. split_and!; [eexists; by vm_compute|by apply two_possible|eexists; by vm_compute]. Qed.
End Witnesses.

(** ** Texts of the server and of the configuration *)
Definition newline : string := String "010" "".
Example schema_text_read : parseSchema (cat ["table {"; newline; "  1: _olake_id: required string (id)"; newline; "  2: price: optional double"; newline; "}"])
  = Ok {[OlakeID := "string"; "price" := "double"]}.
Proof. by vm_compute. Qed.
(** A type that is printed with a space is cut. *)
Example decimal_type_cut : parseSchema (cat ["table {"; newline; "  1: price: optional decimal(10, 2)"; newline; "}"]) = Ok {["price" := "decimal(10,"]}.
Proof. by vm_compute. Qed.
(** A column name with a colon is read as another column. *)
Example colon_name_lost : parseSchema (cat ["table {"; newline; "  1: a:b: optional string"; newline; "}"]) = Ok {["a" := "optional"]}.
Proof. by vm_compute. Qed.
Example partition_pattern_read : parsePartitionRegex "/{now(), day}/{'city', identity}/{id, bucket[4]}" Reformat
  = Ok [mkPartition OlakeTimestamp OlakeTimestamp "day"; mkPartition "city" "city" "identity"; mkPartition "id" "id" "bucket[4]"].
Proof. by vm_compute. Qed.
