(* ===== verification/Binlog.v ===== *)
(** * pkg/binlog: decoding the MySQL binary log, and drivers/mysql: its value conversion

    A rows event carries raw column values and a table map; names, signedness, ENUM/SET
    members and collations come from the table map where the server logged them and from
    information_schema otherwise.  go-mysql (the events and their accessors), the
    collation table, the UTF-16 and cp1252 decoders of x/text and the geometry decoder
    are parameters. *)

From S2P Require Import Prelude GoString GoSet DataTypes QueryEngine Value Schema Stream Catalog State TwoPC Fields Writers Utils Backfill Incremental Jdbc Chunking.

(** ** Column types: the type bytes of the protocol *)
Inductive mysql_type :=
| T_DECIMAL | T_TINY | T_SHORT | T_LONG | T_FLOAT | T_DOUBLE | T_NULL | T_TIMESTAMP | T_LONGLONG | T_INT24
| T_DATE | T_TIME | T_DATETIME | T_YEAR | T_VARCHAR | T_BIT | T_TIMESTAMP2 | T_DATETIME2 | T_TIME2
| T_JSON | T_NEWDECIMAL | T_ENUM | T_SET | T_TINY_BLOB | T_MEDIUM_BLOB | T_LONG_BLOB | T_BLOB | T_STRING | T_GEOMETRY
| T_OTHER (byte : Z).

Definition unsigned_name (unsigned : bool) (name : string) : string := if unsigned then "UNSIGNED " +:+ name else name.

Definition mysqlTypeName (t : mysql_type) (unsigned : bool) : string :=
  match t with
  | T_DECIMAL | T_NEWDECIMAL => "DECIMAL"
  | T_TINY => unsigned_name unsigned "TINYINT"
  | T_SHORT => unsigned_name unsigned "SMALLINT"
  | T_LONG => unsigned_name unsigned "INT"
  | T_FLOAT => "FLOAT"
  | T_DOUBLE => "DOUBLE"
  | T_NULL => "NULL"
  | T_TIMESTAMP | T_TIMESTAMP2 => "TIMESTAMP"
  | T_LONGLONG => unsigned_name unsigned "BIGINT"
  | T_INT24 => unsigned_name unsigned "MEDIUMINT"
  | T_DATE => "DATE"
  | T_TIME | T_TIME2 => "TIME"
  | T_DATETIME | T_DATETIME2 => "DATETIME"
  | T_YEAR => "YEAR"
  | T_VARCHAR => "VARCHAR"
  | T_BIT => "BIT"
  | T_JSON => "JSON"
  | T_ENUM => "ENUM"
  | T_SET => "SET"
  | T_TINY_BLOB => "TINYBLOB"
  | T_BLOB => "BLOB"
  | T_MEDIUM_BLOB => "MEDIUMBLOB"
  | T_LONG_BLOB => "LONGBLOB"
  | T_STRING => "CHAR"
  | T_GEOMETRY => "GEOMETRY"
  | T_OTHER b => "UNKNOWN_TYPE: " +:+ fmt_d b
  end.

Definition isNumericColumn (t : mysql_type) : bool :=
  match t with
  | T_TINY | T_SHORT | T_INT24 | T_LONG | T_LONGLONG | T_YEAR | T_FLOAT | T_DOUBLE | T_DECIMAL | T_NEWDECIMAL => true
  | _ => false
  end.

(** ** Table maps and rows events, with what go-mysql's accessors return on them *)
Record TableMapEvent := mkTableMap {
  tm_Schema : string;
  tm_Table : string;
  ColumnType : list mysql_type;
  SignednessBitmap : list Z;
  ColumnNameString : list string;
  EnumStrValue : list (list (list Z));
  SetStrValue : list (list (list Z));
  EnumSetCollationMap : gmap nat Z;
  CollationMap : gmap nat Z;
  IsEnumColumn : nat → bool;
  IsSetColumn : nat → bool
}.

Definition hasNumericColumn (e : TableMapEvent) : bool := existsb isNumericColumn (ColumnType e).

(** The two loops of [unsignedMap], from column [i] (the first of [types]) with the byte
    [field] of the bitmap, the bytes after it and the mask [c]. *)
Fixpoint unsigned_loop (types : list mysql_type) (i : nat) (field : Z) (fields : list Z) (c : Z) (ret : gmap nat bool) : result (gmap nat bool) :=
  match types with
  | [] => Panic "index out of range"
  | t :: types =>
      let ret := if isNumericColumn t then <[i := negb (Z.land field c =? 0)]> ret else ret in
      let c := if isNumericColumn t then Z.shiftr c 1 else c in
      match types with
      | [] => Ok ret
      | _ =>
          if c =? 0 then
            match fields with
            | [] => Ok ret
            | field :: fields => unsigned_loop types (S i) field fields 128 ret
            end
          else unsigned_loop types (S i) field fields c ret
      end
  end.
(** [None] is the nil map. *)
Definition unsignedMap (e : TableMapEvent) : result (option (gmap nat bool)) :=
  match SignednessBitmap e with
  | [] => Ok None
  | field :: fields => ret ← unsigned_loop (ColumnType e) 0 field fields 128 ∅; Ok (Some ret)
  end.

(** ** schema.go: column metadata from information_schema *)
Record columnMeta := mkColumnMeta {
  cm_Name : string; cm_Unsigned : bool; EnumValues : option (list string); SetMembers : option (list string); CollationID : Z
}.
Abbreviation tableMeta := (list columnMeta) (only parsing).

Definition binaryCollationID : Z := 63.
(** [^(binary|varbinary|...)\b]: one of the words, not continued by a word character. *)
Definition word_byte (b : Z) : bool := IsLetterOrNumber b || (b =? 95).
Definition starts_word (s w : string) : bool :=
  HasPrefix s w && match bytes_of (TrimPrefix s w) with [] => true | b :: _ => negb (word_byte b) end.
Definition binaryStringTypeRe (s : string) : bool :=
  existsb (starts_word s) ["binary"; "varbinary"; "tinyblob"; "blob"; "mediumblob"; "longblob"].

(** The index of the first, and of the last, byte [b]. *)
Definition IndexByte (l : list Z) (b : Z) : option nat := fst <$> list_find (λ x, x = b) l.
Definition LastIndexByte (l : list Z) (b : Z) : option nat :=
  (λ p, (length l - 1 - p.1)%nat) <$> list_find (λ x, x = b) (reverse l).

(** The loop over the body of ENUM(...) or SET(...): quote 39, backslash 92. *)
Fixpoint member_loop (body cur : list Z) (inQuote : bool) (members : list string) : list string :=
  match body with
  | [] => members
  | ch :: rest =>
      if negb inQuote then member_loop rest cur (ch =? 39) members
      else if ch =? 92 then
        match rest with
        | next :: rest => member_loop rest (cur ++ [next]) true members
        | [] => member_loop rest (cur ++ [ch]) true members
        end
      else if ch =? 39 then
        match rest with
        | 39 :: rest => member_loop rest (cur ++ [39]) true members
        | _ => member_loop rest [] false (members ++ [string_of cur])
        end
      else member_loop rest (cur ++ [ch]) true members
  end.
(** A nil slice is [None]. *)
Definition parseEnumSetMembers (columnType : string) : option (list string) :=
  let l := bytes_of columnType in
  match IndexByte l 40, LastIndexByte l 41 with
  | Some open, Some closing =>
      if (closing <=? open)%nat then None
      else match member_loop (take (closing - S open) (drop (S open) l)) [] false [] with [] => None | ms => Some ms end
  | _, _ => None
  end.

(** White space and comments, then one of the words in any case and a space ([ddlRe]). *)
Definition re_space (b : Z) : bool := bool_decide (b ∈ [9; 10; 12; 13; 32]).
Definition lower_byte (b : Z) : Z := if in_range 65 90 b then b + 32 else b.
Fixpoint has_prefix_fold (l w : list Z) : option (list Z) :=
  match w, l with
  | [], _ => Some l
  | x :: w, b :: l => if lower_byte b =? x then has_prefix_fold l w else None
  | _, [] => None
  end.
Definition ddl_word (l : list Z) : bool :=
  existsb (λ w, match has_prefix_fold l (bytes_of w) with Some (b :: _) => re_space b | _ => false end) ["alter"; "rename"; "drop"; "create"].
(** After the opening of a comment: the match may end it at any closing mark. *)
Fixpoint ddl_match (comment : bool) (l : list Z) : bool :=
  match l with
  | [] => false
  | b :: rest =>
      if comment then
        (match rest with 47 :: after => (b =? 42) && ddl_match false after | _ => false end) || ddl_match true rest
      else if re_space b then ddl_match false rest
      else match rest with
           | 42 :: after => if b =? 47 then ddl_match true after else ddl_word l
           | _ => ddl_word l
           end
  end.
Definition isDDL (query : string) : bool := ddl_match false (bytes_of query).

(** ** bytes.go: the storage size of a row *)
Definition MysqlFixedWidth (typeName : string) : option Z :=
  let t := TrimPrefix (ToUpper (TrimSpace typeName)) "UNSIGNED " in
  if contains ["TINYINT"; "BOOL"; "BOOLEAN"; "YEAR"] t then Some 1
  else if String.eqb t "SMALLINT" then Some 2
  else if String.eqb t "MEDIUMINT" then Some 3
  else if contains ["INT"; "INTEGER"; "FLOAT"] t then Some 4
  else if contains ["BIGINT"; "DOUBLE"; "REAL"] t then Some 8
  else if String.eqb t "DATE" then Some 3
  else if String.eqb t "TIME" then Some 6
  else if String.eqb t "TIMESTAMP" then Some 7
  else if String.eqb t "DATETIME" then Some 8
  else None.

Section Decode.
Context `{GoHash string} `{GoRange} `{GoEnv}.

Definition MysqlValueBytes (rawVal : any) : Z :=
  match rawVal with
  | AString v | ABytes v => Z.of_nat (String.length v)
  | v => Z.of_nat (String.length (fmt_v v))
  end.
Definition MysqlColumnBytes (rawVal : any) (typeName : string) : Z :=
  if is_nil rawVal then 0
  else match MysqlFixedWidth typeName with Some width => width | None => MysqlValueBytes rawVal end.
Definition mysqlCDCRowBytes (row : list any) (columnTypes : list string) : Z :=
  snd (foldl (λ it v, (S it.1, wrap_s 64 (it.2 + MysqlColumnBytes v (default "" (columnTypes !! it.1))))) (0%nat, 0) row).

(** ** drivers/mysql/internal/mysql.go: the value conversion *)
Definition GeospatialTypes : list string := ["geometry"; "point"; "polygon"; "linestring"; "multi"].
Definition stripSignExtension (value : any) (columnType : string) : any :=
  match value with
  | AInt KInt8 v => if String.eqb columnType "unsigned tinyint" then AInt KInt16 (Z.land v 255) else value
  | AInt KInt16 v => if String.eqb columnType "unsigned smallint" then AInt KInt32 (Z.land v 65535) else value
  | AInt KInt32 v =>
      if String.eqb columnType "unsigned mediumint" then AInt KInt32 (Z.land v 16777215)
      else if contains ["unsigned int"; "unsigned integer"] columnType then AInt KInt64 (Z.land v 4294967295)
      else value
  | _ => value
  end.
Definition column_base (columnType : string) : string := ToLower (TrimSpace (default "" (head (Split "(" columnType)))).
Definition dataTypeConverter (ReformatGeoType : any → result any) (value : any) (columnType : string) : result any :=
  if is_nil value then Err ErrNullValue
  else if existsb (StrContains (ToLower columnType)) GeospatialTypes then ReformatGeoType value
  else
    let '(value, columnType) :=
      if 3 <? LoadedStateVersion then (stripSignExtension value (ToLower columnType), columnType)
      else (value, if StrContains (ToLower columnType) "unsigned"
                   then TrimSpace (TrimPrefix (ToLower columnType) "unsigned ") else columnType) in
    ReformatValue (type_of mysqlTypeToDataTypes (column_base columnType)) value.

(** ** filter.go: text decoding *)
Context (GetCollationByID : Z → option string) (GetCollationByName : string → option Z).
Context (cp1252 : Z → Z) (utf16be utf16le : list Z → result string).

Definition mysqlLatin1Decode (b : Z) : Z := if contains [129; 141; 143; 144; 157] b then b else cp1252 b.
Definition decodeRawString (b : list Z) : result string := Ok (string_of b).
Definition decodeLatin1 (b : list Z) : result string := Ok (string_of (concat (encode_rune ∘ mysqlLatin1Decode <$> b))).
Definition mysqlStringDecoders (charsetName : string) : option (list Z → result string) :=
  if contains ["utf8"; "utf8mb3"; "utf8mb4"; "ascii"] charsetName then Some decodeRawString
  else if String.eqb charsetName "latin1" then Some decodeLatin1
  else if contains ["ucs2"; "utf16"] charsetName then Some utf16be
  else if String.eqb charsetName "utf16le" then Some utf16le
  else None.
Definition decodeBytesToString (b : list Z) (collationID : Z) : result string :=
  match b with
  | [] => Ok ""
  | _ =>
      if MaxInt32 <? collationID then decodeRawString b
      else match GetCollationByID collationID with
           | None => decodeRawString b
           | Some charsetName => default decodeRawString (mysqlStringDecoders charsetName) b
           end
  end.
Definition decodeMembers (raw : list (list Z)) (collationID : Z) : list string :=
  (λ b, match decodeBytesToString b collationID with Ok s => s | _ => string_of b end) <$> raw.

Definition collationIDByName (name : string) : Z :=
  if String.eqb name "" then 0
  else match GetCollationByName name with Some id => if id <? 0 then 0 else id | None => 0 end.
Definition columnMetaFrom (name columnType collationName : string) : columnMeta :=
  let lowered := ToLower columnType in
  let collationID := collationIDByName collationName in
  let collationID := if (collationID =? 0) && binaryStringTypeRe lowered then binaryCollationID else collationID in
  mkColumnMeta name (StrContains lowered "unsigned")
    (if HasPrefix lowered "enum(" then parseEnumSetMembers columnType else None)
    (if negb (HasPrefix lowered "enum(") && HasPrefix lowered "set(" then parseEnumSetMembers columnType else None)
    collationID.

(** ** The cache of table metadata; [client] is what the server answers to the metadata
    query of a table, or no client *)
Context (client : option (string → string → rows (string * string * string))).
Abbreviation schemaCache := (gmap string (list columnMeta)) (only parsing).

Definition schema_load (query : string → string → rows (string * string * string)) (schema table : string) : result tableMeta :=
  match query schema table with
  | QueryFailed e => Err "failed to load column metadata"
  | RowsFailed e => Err "failed to read column metadata"
  | Rows [] => Err "no columns found"
  | Rows l => Ok ((λ r, columnMetaFrom r.1.1 r.1.2 r.2) <$> l)
  end.
Definition schema_get (c : schemaCache) (schema table : string) : schemaCache * result tableMeta :=
  let key := schema +:+ "." +:+ table in
  match c !! key with
  | Some meta => (c, Ok meta)
  | None =>
      match client with
      | None => (c, Err "binlog metadata is incomplete and no schema client is configured")
      | Some query => match schema_load query schema table with Ok meta => (<[key := meta]> c, Ok meta) | r => (c, r) end
      end
  end.
Definition invalidate (c : schemaCache) : schemaCache := ∅.

(** ** Column views *)
Record columnView := mkView {
  cv_names : list string; cv_types : list string; cv_enumValues : list (option (list string));
  cv_setMembers : list (option (list string)); cv_collations : list Z
}.

(** One column of [fillEnumSetAndCollations]: [enumP], [setP] count the ENUM and SET
    columns before it. *)
Definition fill_column (tm : TableMapEvent) (meta : option tableMeta) (i enumP setP : nat) : option (list string) * option (list string) * Z :=
  let coll := default 0 (EnumSetCollationMap tm !! i) in
  let col := meta ≫= (λ m, m !! i) in
  if IsEnumColumn tm i then
    (match EnumStrValue tm !! enumP with Some raw => Some (decodeMembers raw coll) | None => col ≫= EnumValues end, None, 0)
  else if IsSetColumn tm i then
    (None, match SetStrValue tm !! setP with Some raw => Some (decodeMembers raw coll) | None => col ≫= SetMembers end, 0)
  else (None, None, if negb (bool_decide (CollationMap tm = ∅)) then default 0 (CollationMap tm !! i)
                    else match col with Some c => CollationID c | None => 0 end).
Fixpoint fill_loop (tm : TableMapEvent) (meta : option tableMeta) (n i enumP setP : nat) : list (option (list string) * option (list string) * Z) :=
  match n with
  | O => []
  | S n =>
      fill_column tm meta i enumP setP
      :: fill_loop tm meta n (S i) (if IsEnumColumn tm i then S enumP else enumP)
           (if negb (IsEnumColumn tm i) && IsSetColumn tm i then S setP else setP)
  end.
Definition fillEnumSetAndCollations (names types : list string) (tm : TableMapEvent) (meta : option tableMeta) : columnView :=
  let cols := fill_loop tm meta (length types) 0 0 0 in
  mkView names types ((λ c, c.1.1) <$> cols) ((λ c, c.1.2) <$> cols) ((λ c, c.2) <$> cols).

Definition resolveColumns (c : schemaCache) (tm : TableMapEvent) : schemaCache * result columnView :=
  let n := length (ColumnType tm) in
  match unsignedMap tm with
  | Err e => (c, Err e)
  | Panic m => (c, Panic m)
  | Ok um =>
      let namesMissing := negb (Nat.eqb (length (ColumnNameString tm)) n) in
      let signednessMissing := match um with None => hasNumericColumn tm | Some _ => false end in
      let '(c, meta) :=
        if namesMissing || signednessMissing then
          let '(c, r) := schema_get c (tm_Schema tm) (tm_Table tm) in
          (c, meta ← r; if negb (Nat.eqb (length meta) n) then Err "schema drift" else Ok (Some meta))
        else (c, Ok None) in
      (c, meta ← meta;
          let columns := default [] meta in
          let names := if namesMissing then cm_Name <$> columns else ColumnNameString tm in
          let isUnsigned i := if signednessMissing then match columns !! i with Some col => cm_Unsigned col | None => false end
                              else default false (um ≫= (λ m, m !! i)) in
          let types := imap (λ i t, mysqlTypeName t (isUnsigned i)) (ColumnType tm) in
          Ok (fillEnumSetAndCollations names types tm meta))
  end.

(** ** Rows *)
Context (converter : any → string → result any).

Definition enum_value (values : list string) (idx : Z) : string :=
  if (0 <? idx) && (idx <=? Z.of_nat (length values)) then default "" (values !! Z.to_nat (idx - 1)) else "".
(** [1<<bit] is an int64. *)
Definition set_value (members : list string) (bitmask : Z) : string :=
  Join "," (imap (λ bit m, (bit, m)) members ≫= (λ bm, if Z.land bitmask (wrap_s 64 (Z.shiftl 1 (Z.of_nat bm.1))) =? 0 then [] else [bm.2])).

Definition decode_value (view : columnView) (i : nat) (val : any) : any :=
  match cv_enumValues view !! i, cv_setMembers view !! i with
  | Some (Some values), _ => match val with AInt KInt64 idx => AString (enum_value values idx) | _ => val end
  | _, Some (Some members) => match val with AInt KInt64 bitmask => AString (set_value members bitmask) | _ => val end
  | _, _ =>
      let collation := default 0 (cv_collations view !! i) in
      if collation =? 0 then val
      else match val with
           | AString v | ABytes v => match decodeBytesToString (bytes_of v) collation with Ok s => AString s | _ => val end
           | _ => val
           end
  end.

Definition convert_column (view : columnView) (it : nat * gmap string any) (val : any) : result (nat * gmap string any) :=
  let '(i, record) := it in
  let store v := Ok (S i, <[default "" (cv_names view !! i) := v]> record) in
  match converter (decode_value view i val) (default "" (cv_types view !! i)) with
  | Ok v => store v
  | Err e => if String.eqb e ErrNullValue then store ANil else Err e
  | Panic m => Panic m
  end.
Definition convertRowToMap (row : list any) (view : columnView) : result (gmap string any) :=
  if negb (Nat.eqb (length (cv_names view)) (length row)) then Err "column count mismatch"
  else snd <$> foldM (convert_column view) (0%nat, ∅) row.

(** ** The change filter *)
Inductive event_type := WRITE_ROWS_EVENT | UPDATE_ROWS_EVENT | DELETE_ROWS_EVENT | OTHER_EVENT.
Record Position := mkPos { pos_Name : string; pos_Pos : Z }.
Record ChangeFilter := mkFilter { f_streams : gmap string ConfiguredStream; lastGTIDEvent : gotime; f_schema : schemaCache }.

Definition stream_key_of (stream : ConfiguredStream) : string := Namespace stream +:+ "." +:+ Name stream.
Definition NewChangeFilter (streams : list ConfiguredStream) : ChangeFilter :=
  mkFilter (foldl (λ m s, <[stream_key_of s := s]> m) ∅ streams) zero_time ∅.

Definition operation_of (t : event_type) : option string :=
  match t with
  | WRITE_ROWS_EVENT => Some "insert"
  | UPDATE_ROWS_EVENT => Some "update"
  | DELETE_ROWS_EVENT => Some "delete"
  | OTHER_EVENT => None
  end.
(** The after images of an update: the second row of every pair. *)
Fixpoint after_images {A} (rows : list A) : list A :=
  match rows with _ :: after :: rest => after :: after_images rest | _ => [] end.

Definition CDCBinlogFileName : string := "_cdc_binlog_file_name".
Definition CDCBinlogFilePos : string := "_cdc_binlog_file_pos".

(** What the callback did: nothing wrong, an error, or the process is gone. *)
Inductive stop := Stops (e : string) | Gone.

(** The header of an event: its end position and its time in seconds. *)
Record Header := mkHeader { LogPos : Z; h_Timestamp : Z }.

(** A change for the record of a row. *)
Definition row_change (f : ChangeFilter) (stream : ConfiguredStream) (operationType : string) (hd : Header) (pos : Position) (record : gmap string any) : CDCChange :=
  mkChange stream (if negb (IsZero (lastGTIDEvent f)) then lastGTIDEvent f else Unix (h_Timestamp hd)) operationType record
    {[CDCBinlogFileName := AString (pos_Name pos); CDCBinlogFilePos := AInt KUint32 (pos_Pos pos)]}.

Fixpoint emit_rows {St} (callback : St → CDCChange → St * option stop) (make : gmap string any → CDCChange) (view : columnView)
    (rows : list (list any)) (s : St) : St * option stop :=
  match rows with
  | [] => (s, None)
  | row :: rows =>
      match convertRowToMap row view with
      | Err e => (s, Some (Stops e))
      | Panic m => (s, Some (Stops m))
      | Ok record => match callback s (make record) with (s, None) => emit_rows callback make view rows s | r => r end
      end
  end.

Definition FilterRowsEvent {St} (f : ChangeFilter) (table : TableMapEvent) (type : event_type) (rows : list (list any)) (hd : Header)
    (pos : Position) (callback : St → CDCChange → St * option stop) (s : St) : ChangeFilter * St * option stop :=
  match f_streams f !! (tm_Schema table +:+ "." +:+ tm_Table table), operation_of type with
  | Some stream, Some operationType =>
      let '(cache, view) := resolveColumns (f_schema f) table in
      let f := mkFilter (f_streams f) (lastGTIDEvent f) cache in
      match view with
      | Err e => (f, s, Some (Stops e))
      | Panic m => (f, s, Some (Stops m))
      | Ok view =>
          let rowsToProcess := if String.eqb operationType "update" then after_images rows else rows in
          let '(s, r) := emit_rows callback (row_change f stream operationType hd pos) view rowsToProcess s in (f, s, r)
      end
  | _, _ => (f, s, None)
  end.

(** ** binlog.go: reading up to a position *)
Inductive event :=
| RotateEvent (NextLogName : string) (Position_ : Z)
| GTIDEvent (OriginalCommitTimestamp : Z)
| RowsEvent (table : TableMapEvent) (type : event_type) (rows : list (list any))
| QueryEvent (query : string)
| OtherEvent.

Context (pos_compare : Position → Position → Z).

Record Connection := mkConn { CurrentPos : Position; ServerID : Z; initialWaitTime : Z; changeFilter : ChangeFilter }.

(** One turn of the loop: is the context done, has the initial wait passed, and what
    [GetEvent] returns. *)
Inductive got := Deadline | GetFailed (e : string) | Got (hd : Header) (ev : event).
Record tick := mkTick { t_done : bool; t_elapsed : bool; t_got : got }.

Inductive end_of_stream := Reached | Elapsed | CtxDone | Ended (r : stop).

Definition set_pos (c : Connection) (p : Position) : Connection := mkConn p (ServerID c) (initialWaitTime c) (changeFilter c).
Definition set_filter (c : Connection) (f : ChangeFilter) : Connection := mkConn (CurrentPos c) (ServerID c) (initialWaitTime c) f.

(** Handling one event. *)
Definition handle_event {St} (callback : St → CDCChange → St * option stop) (c : Connection) (hd : Header) (ev : event) (s : St)
    : Connection * St * option stop :=
  let c := set_pos c (mkPos (pos_Name (CurrentPos c)) (LogPos hd)) in
  let f := changeFilter c in
  match ev with
  | RotateEvent next p =>
      let c := set_pos c (mkPos next (pos_Pos (CurrentPos c))) in
      if 4294967295 <? p then (c, s, Some (Stops "binlog position overflow"))
      else (set_pos c (mkPos next p), s, None)
  | GTIDEvent ts =>
      (if 0 <? ts then set_filter c (mkFilter (f_streams f) (let us := wrap_s 64 ts in mkTime (us / 1000000) (us mod 1000000 * 1000) (local_offset (us / 1000000))) (f_schema f)) else c, s, None)
  | RowsEvent table type rows =>
      let '(f, s, r) := FilterRowsEvent f table type rows hd (CurrentPos c) callback s in (set_filter c f, s, r)
  | QueryEvent query => (if isDDL query then set_filter c (mkFilter (f_streams f) (lastGTIDEvent f) (invalidate (f_schema f))) else c, s, None)
  | OtherEvent => (c, s, None)
  end.
Definition is_rows (ev : event) : bool := match ev with RowsEvent _ _ _ => true | _ => false end.

(** The loop; [None]: still waiting after the given turns. *)
Fixpoint stream_loop {St} (callback : St → CDCChange → St * option stop) (latest : Position) (ticks : list tick) (messageReceived : bool)
    (c : Connection) (s : St) : option (Connection * St * end_of_stream) :=
  match ticks with
  | [] => None
  | t :: ticks =>
      if t_done t then Some (c, s, CtxDone)
      else if negb messageReceived && (0 <? initialWaitTime c) && t_elapsed t then Some (c, s, Elapsed)
      else if 0 <=? pos_compare (CurrentPos c) latest then Some (c, s, Reached)
      else match t_got t with
           | Deadline => stream_loop callback latest ticks messageReceived c s
           | GetFailed e => Some (c, s, Ended (Stops "failed to get binlog event"))
           | Got hd ev =>
               match handle_event callback c hd ev s with
               | (c, s, Some r) => Some (c, s, Ended r)
               | (c, s, None) => stream_loop callback latest ticks (messageReceived || is_rows ev) c s
               end
           end
  end.

(** [current]: what [GetCurrentBinlogPosition] answers; [start]: whether [StartSync] works. *)
Definition StreamMessages {St} (callback : St → CDCChange → St * option stop) (c : Connection) (current : result Position) (start : bool)
    (latestBinlogPos : Position) (ticks : list tick) (s : St) : option (Connection * St * end_of_stream) :=
  match (if String.eqb (pos_Name latestBinlogPos) "" || (pos_Pos latestBinlogPos =? 0) then current else Ok latestBinlogPos) with
  | Ok latest => if start then stream_loop callback latest ticks false c s else Some (c, s, Ended (Stops "failed to start binlog sync"))
  | _ => Some (c, s, Ended (Stops "failed to get current binlog position"))
  end.
End Decode.
