(* ===== verification/BinlogFacts.v ===== *)
(** * Theorems about the binlog decoder: signedness bits, column resolution, ENUM and SET
    members, unsigned values *)

From S2P Require Import Prelude GoString GoSet DataTypes QueryEngine Value ValueFacts Schema Stream Catalog State TwoPC Fields Writers Utils Backfill Incremental Jdbc Chunking Binlog.

(** ** The signedness bitmap *)

(** Bit [k] of the bitmap, most significant bit of the first byte first. *)
Definition bitmap_bit (fields : list Z) (k : nat) : option bool :=
  (λ field, Z.testbit field (7 - Z.of_nat (k mod 8))) <$> fields !! (k / 8)%nat.
(** How many of the first [i] columns carry a signedness bit. *)
Definition numeric_before (types : list mysql_type) (i : nat) : nat := length (filter (λ t, isNumericColumn t = true) (take i types)).
Definition logged_sign (fields : list Z) (types : list mysql_type) (skip i : nat) : option bool :=
  match types !! i with
  | Some t => if isNumericColumn t then bitmap_bit fields (skip + numeric_before types i) else None
  | None => None
  end.

Lemma mask_bit field b : 0 ≤ b → negb (Z.land field (2 ^ b) =? 0) = Z.testbit field b.
Proof.
  intros Hb. destruct (Z.testbit field b) eqn:E.
  - apply negb_true_iff, Z.eqb_neq. intros H0. apply (f_equal (λ z, Z.testbit z b)) in H0.
    rewrite Z.land_spec, E, Z.pow2_bits_true, Z.bits_0 in H0 by lia. done.
  - apply negb_false_iff, Z.eqb_eq. apply Z.bits_inj'. intros j Hj. rewrite Z.land_spec, Z.bits_0.
    destruct (decide (j = b)) as [->|]; [by rewrite E|]. by rewrite Z.pow2_bits_false, andb_false_r by lia.
Qed.

Lemma bitmap_bit_skip field fields k : bitmap_bit (field :: fields) (8 + k) = bitmap_bit fields k.
Proof.
  unfold bitmap_bit. replace ((8 + k) / 8)%nat with (S (k / 8)) by (replace (8 + k)%nat with (k + 1 * 8)%nat by lia; rewrite Nat.div_add by lia; lia).
  replace ((8 + k) mod 8)%nat with (k mod 8)%nat by (replace (8 + k)%nat with (k + 1 * 8)%nat by lia; by rewrite Nat.Div0.mod_add). done.
Qed.

Lemma bitmap_bit_head field fields (b : nat) : (b < 8)%nat → bitmap_bit (field :: fields) (7 - b) = Some (Z.testbit field (Z.of_nat b)).
Proof.
  intros Hb. unfold bitmap_bit. rewrite Nat.div_small, Nat.mod_small by lia. cbn. do 2 f_equal. lia.
Qed.

Lemma logged_sign_cons fields t types skip i :
  logged_sign fields (t :: types) skip (S i) = logged_sign fields types (if isNumericColumn t then S skip else skip) i.
Proof.
  unfold logged_sign, numeric_before. change ((t :: types) !! S i) with (types !! i). change (take (S i) (t :: types)) with (t :: take i types).
  destruct (types !! i) as [t'|]; [|done]. destruct (isNumericColumn t') eqn:Et'; [|done].
  rewrite filter_cons. destruct (isNumericColumn t) eqn:Et; case_decide; try done; f_equal; cbn; lia.
Qed.

Lemma logged_sign_nil types skip i : logged_sign [] types skip i = None.
Proof. unfold logged_sign. destruct (types !! i); [|done]. by destruct (isNumericColumn _). Qed.

Lemma logged_sign_next field fields types skip i : logged_sign (field :: fields) types (8 + skip) i = logged_sign fields types skip i.
Proof. unfold logged_sign. destruct (types !! i); [|done]. destruct (isNumericColumn _); [|done]. by rewrite <- Nat.add_assoc, bitmap_bit_skip. Qed.

Lemma unsigned_loop_spec types : types ≠ [] → ∀ i field fields (b : nat) ret, (b < 8)%nat → (∀ j, (i ≤ j)%nat → ret !! j = None) →
  ∃ m, unsigned_loop types i field fields (2 ^ Z.of_nat b) ret = Ok m
  ∧ ∀ j, m !! j = if decide (j < i)%nat then ret !! j else logged_sign (field :: fields) types (7 - b) (j - i).
Proof.
  induction types as [|t types IH]; [done|]. intros _ i field fields b ret Hb Hret. cbn [unsigned_loop].
  set (ret' := if isNumericColumn t then <[i:=negb (Z.land field (2 ^ Z.of_nat b) =? 0)]> ret else ret).
  assert (Hret' : ∀ j, ret' !! j = if decide (j < i)%nat then ret !! j else if decide (j = i) then logged_sign (field :: fields) (t :: types) (7 - b) 0 else None).
  { intros j. unfold ret', logged_sign, numeric_before. cbn. rewrite Nat.add_0_r, bitmap_bit_head by done.
    destruct (isNumericColumn t); [rewrite mask_bit by lia|].
    - destruct (decide (j = i)) as [->|]; [rewrite lookup_insert_eq; by destruct (decide (i < i)%nat); [lia|]|].
      rewrite lookup_insert_ne by done. destruct (decide (j < i)%nat); [done|]. apply Hret. lia.
    - destruct (decide (j < i)%nat); [done|]. destruct (decide (j = i)); apply Hret; lia. }
  assert (Hfresh : ∀ j, (S i ≤ j)%nat → ret' !! j = None).
  { intros j Hj. rewrite Hret'. destruct (decide (j < i)%nat); [lia|]. by destruct (decide (j = i)); [lia|]. }
  assert (Hdone : (∀ j, logged_sign (field :: fields) (t :: types) (7 - b) (S j) = None) →
    ∀ j, ret' !! j = if decide (j < i)%nat then ret !! j else logged_sign (field :: fields) (t :: types) (7 - b) (j - i)).
  { intros Hn j. rewrite Hret'. destruct (decide (j < i)%nat); [done|]. destruct (decide (j = i)) as [->|]; [by rewrite Nat.sub_diag|].
    replace (j - i)%nat with (S (j - S i)) by lia. by rewrite Hn. }
  assert (Hgo : ∀ m : gmap nat bool, (∀ j, m !! j = if decide (j < S i)%nat then ret' !! j else logged_sign (field :: fields) (t :: types) (7 - b) (S (j - S i))) →
    ∀ j, m !! j = if decide (j < i)%nat then ret !! j else logged_sign (field :: fields) (t :: types) (7 - b) (j - i)).
  { intros m Hm j. rewrite Hm. destruct (decide (j < S i)%nat).
    - rewrite Hret'. destruct (decide (j < i)%nat); [done|]. destruct (decide (j = i)) as [->|]; [by rewrite Nat.sub_diag|lia].
    - destruct (decide (j < i)%nat); [lia|]. f_equal. lia. }
  destruct types as [|t' types']; [exists ret'; split; [done|]; apply Hdone; done|].
  destruct (isNumericColumn t) eqn:Et.
  - destruct b as [|b].
    + cbn [Z.of_nat Z.pow Z.shiftr]. change (Z.shiftr (2 ^ 0) 1 =? 0) with true. cbv iota. destruct fields as [|f fs].
      * exists ret'. split; [done|]. apply Hdone. intros j. rewrite logged_sign_cons, Et. change (S (7 - 0)) with (8 + 0)%nat. by rewrite logged_sign_next, logged_sign_nil.
      * destruct (IH ltac:(done) (S i) f fs 7%nat ret' ltac:(lia) Hfresh) as (m & Hm & Hs). exists m. split; [exact Hm|]. apply Hgo. intros j. rewrite Hs.
        destruct (decide (j < S i)%nat); [done|]. rewrite logged_sign_cons, Et. change (S (7 - 0)) with (8 + 0)%nat. by rewrite logged_sign_next.
    + assert (Z.shiftr (2 ^ Z.of_nat (S b)) 1 = 2 ^ Z.of_nat b) as ->.
      { rewrite Z.shiftr_div_pow2 by lia. rewrite Nat2Z.inj_succ, Z.pow_succ_r by lia. change (2 ^ 1) with 2. rewrite Z.mul_comm. apply Z.div_mul. lia. }
      destruct (Z.eqb_spec (2 ^ Z.of_nat b) 0) as [Hz|_]; [pose proof (Z.pow_pos_nonneg 2 (Z.of_nat b)); lia|].
      destruct (IH ltac:(done) (S i) field fields b ret' ltac:(lia) Hfresh) as (m & Hm & Hs). exists m. split; [exact Hm|]. apply Hgo. intros j. rewrite Hs.
      destruct (decide (j < S i)%nat); [done|]. rewrite logged_sign_cons, Et. f_equal. lia.
  - destruct (Z.eqb_spec (2 ^ Z.of_nat b) 0) as [Hz|_]; [pose proof (Z.pow_pos_nonneg 2 (Z.of_nat b)); lia|].
    destruct (IH ltac:(done) (S i) field fields b ret' ltac:(lia) Hfresh) as (m & Hm & Hs). exists m. split; [exact Hm|]. apply Hgo. intros j. rewrite Hs.
    destruct (decide (j < S i)%nat); [done|]. by rewrite logged_sign_cons, Et.
Qed.

Lemma unsignedMap_spec e : ColumnType e ≠ [] → SignednessBitmap e ≠ [] →
  ∃ m, unsignedMap e = Ok (Some m) ∧ ∀ i, m !! i = logged_sign (SignednessBitmap e) (ColumnType e) 0 i.
Proof.
  intros Ht Hs. unfold unsignedMap. destruct (SignednessBitmap e) as [|f fs]; [done|].
  destruct (unsigned_loop_spec (ColumnType e) Ht 0 f fs 7 ∅) as (m & Hm & Hl); [lia|intros; apply lookup_empty|].
  change (2 ^ Z.of_nat 7) with 128 in Hm. rewrite Hm. exists m. split; [done|]. intros i. rewrite Hl. cbn. by rewrite Nat.sub_0_r.
Qed.

(** ** Column resolution *)
Section Resolve.
Context `{HE : GoEnv}.
Context (GetCollationByID : Z → option string) (GetCollationByName : string → option Z).
Context (cp1252 : Z → Z) (utf16be utf16le : list Z → result string).
Context (client : option (string → string → rows (string * string * string))).
Notation resolve := (resolveColumns GetCollationByID GetCollationByName cp1252 utf16be utf16le client).
Notation get := (schema_get GetCollationByName client).

Lemma fill_lengths tm meta n i e s :
  length (fill_loop GetCollationByID cp1252 utf16be utf16le tm meta n i e s) = n.
Proof. revert i e s. induction n as [|n IH]; intros; cbn; [done|]. by rewrite IH. Qed.

(** A view has an entry of every kind for each column. *)
Definition view_width (v : columnView) (n : nat) : Prop :=
  length (cv_names v) = n ∧ length (cv_types v) = n ∧ length (cv_enumValues v) = n ∧ length (cv_setMembers v) = n ∧ length (cv_collations v) = n.

Lemma fill_width names types tm meta :
  length names = length types → view_width (fillEnumSetAndCollations GetCollationByID cp1252 utf16be utf16le names types tm meta) (length types).
Proof. intros Hn. unfold view_width, fillEnumSetAndCollations. cbn. by rewrite !length_fmap, fill_lengths. Qed.

Definition metadata_missing (tm : TableMapEvent) : Prop :=
  length (ColumnNameString tm) ≠ length (ColumnType tm) ∨ SignednessBitmap tm = [] ∧ hasNumericColumn tm = true.

(** Every column of a rows event gets its own name and type.  When the server logged
    names and signedness, the view takes both from the event without looking at the
    database: the type of a numeric column is unsigned exactly when its bit is set, the
    k-th numeric column having the k-th bit of the bitmap.  When either is missing,
    what is missing comes from the database's answer for that table, cached or fresh; an
    answer with another number of columns is refused, and its errors are passed on. *)
Theorem columns_resolved c tm :
  ColumnType tm ≠ [] →
  (¬ metadata_missing tm →
     ∃ v, resolve c tm = (c, Ok v) ∧ view_width v (length (ColumnType tm)) ∧ cv_names v = ColumnNameString tm
     ∧ ∀ i t, ColumnType tm !! i = Some t →
         cv_types v !! i = Some (mysqlTypeName t (default false (logged_sign (SignednessBitmap tm) (ColumnType tm) 0 i))))
  ∧ (metadata_missing tm → ∀ c' r, get c (tm_Schema tm) (tm_Table tm) = (c', r) →
     (resolve c tm).1 = c' ∧
     match r with
     | Ok meta =>
         if decide (length meta = length (ColumnType tm))
         then ∃ v, (resolve c tm).2 = Ok v ∧ view_width v (length (ColumnType tm))
              ∧ (length (ColumnNameString tm) ≠ length (ColumnType tm) → cv_names v = cm_Name <$> meta)
              ∧ (SignednessBitmap tm = [] → ∀ i t col, ColumnType tm !! i = Some t → meta !! i = Some col →
                   hasNumericColumn tm = true → cv_types v !! i = Some (mysqlTypeName t (cm_Unsigned col)))
         else (resolve c tm).2 = Err "schema drift"
     | Err e => (resolve c tm).2 = Err e
     | Panic m => (resolve c tm).2 = Panic m
     end).
Proof.
  intros Hne. assert (∃ um, unsignedMap tm = Ok um ∧ (SignednessBitmap tm = [] ↔ um = None)
    ∧ ∀ i, default false (um ≫= (λ m, m !! i)) = default false (logged_sign (SignednessBitmap tm) (ColumnType tm) 0 i)) as (um & Hum & Hnil & Hbit).
  { destruct (decide (SignednessBitmap tm = [])) as [E|E].
    - exists None. unfold unsignedMap. rewrite E. split_and!; [done|done|]. intros i. by rewrite logged_sign_nil.
    - destruct (unsignedMap_spec tm Hne E) as (m & Hm & Hl). exists (Some m). split_and!; [done|done|]. intros i. cbn. by rewrite Hl. }
  unfold resolveColumns. rewrite Hum. set (n := length (ColumnType tm)).
  assert (Hmiss : metadata_missing tm ↔ negb (Nat.eqb (length (ColumnNameString tm)) n)
    || match um with None => hasNumericColumn tm | Some _ => false end = true).
  { unfold metadata_missing. rewrite Hnil, orb_true_iff, negb_true_iff, Nat.eqb_neq. by destruct um; naive_solver. }
  split.
  - intros Hm. rewrite Hmiss in Hm. apply not_true_is_false in Hm. rewrite Hm. apply orb_false_iff in Hm as [H1 H2]. rewrite H1, H2.
    apply negb_false_iff, Nat.eqb_eq in H1. eexists. split; [done|]. split_and!; [|done|].
    + pose proof (fill_width (ColumnNameString tm) (imap (λ i t, mysqlTypeName t (default false (um ≫= (λ m, m !! i)))) (ColumnType tm)) tm None) as Hw.
      rewrite length_imap in Hw. by apply Hw.
    + intros i t Ht. cbn. by rewrite list_lookup_imap, Ht, <- Hbit.
  - intros Hm c' r Hget. rewrite Hmiss in Hm. rewrite Hm, Hget. split; [done|]. destruct r as [meta| |]; [|done..].
    cbn [snd mbind result_bind]. destruct (decide (length meta = n)) as [El|El].
    + rewrite (proj2 (Nat.eqb_eq _ _) El). cbn [negb mbind result_bind default]. eexists. split; [done|]. split_and!.
      * set (types := imap _ (ColumnType tm)). pose proof (length_imap (λ i t, mysqlTypeName t
          (if match um with Some _ => false | None => hasNumericColumn tm end then match meta !! i with Some col => cm_Unsigned col | None => false end
           else default false (um ≫= (λ m, m !! i)))) (ColumnType tm)) as Hl. fold types in Hl. fold n in Hl. rewrite <- Hl. apply fill_width. rewrite Hl.
        destruct (Nat.eqb_spec (length (ColumnNameString tm)) n); cbn; [done|by rewrite length_fmap].
      * intros Hx. cbn. destruct (Nat.eqb_spec (length (ColumnNameString tm)) n); [done|]. done.
      * intros Hs i t col Ht Hc Hh. cbn. rewrite list_lookup_imap, Ht. cbn. apply Hnil in Hs as ->. by rewrite Hh, Hc.
    + rewrite (proj2 (Nat.eqb_neq _ _) El). done.
Qed.
End Resolve.

(** ** ENUM and SET members *)

(** The forms a member can take between its quotes: as it is, a quote doubled, anything
    after a backslash. *)
Inductive printed : list Z → list Z → Prop :=
| printed_nil : printed [] []
| printed_plain b m t : b ≠ 39 → b ≠ 92 → printed m t → printed (b :: m) (b :: t)
| printed_doubled m t : printed m t → printed (39 :: m) (39 :: 39 :: t)
| printed_escaped b m t : printed m t → printed (b :: m) (92 :: b :: t).

Fixpoint members_text (texts : list (list Z)) : list Z :=
  match texts with
  | [] => []
  | [t] => 39 :: t ++ [39]
  | t :: texts => 39 :: t ++ 39 :: 44 :: members_text texts
  end.

Lemma member_loop_one m t rest cur ms :
  printed m t → head rest ≠ Some 39 →
  member_loop (t ++ 39 :: rest) cur true ms = member_loop rest [] false (ms ++ [string_of (cur ++ m)]).
Proof.
  intros Hp Hr. revert cur. induction Hp as [|b m t Hq Hb _ IH|m t _ IH|b m t _ IH]; intros cur; cbn [app member_loop negb].
  - rewrite app_nil_r. change (39 =? 92) with false. change (39 =? 39) with true. cbv iota. destruct rest as [|b rest]; [done|]. destruct b; try done.
    repeat (match goal with p : positive |- _ => destruct p; try done end).
  - apply Z.eqb_neq in Hq, Hb. rewrite Hb, Hq, IH. do 2 f_equal. by rewrite <- app_assoc.
  - change (39 =? 92) with false. change (39 =? 39) with true. cbv iota. rewrite IH. by rewrite <- app_assoc.
  - change (92 =? 92) with true. cbv iota. rewrite IH. by rewrite <- app_assoc.
Qed.

Lemma member_loop_all texts members ms :
  Forall2 printed members texts → member_loop (members_text texts) [] false ms = ms ++ (string_of <$> members).
Proof.
  intros Hf. revert ms. induction Hf as [|m t members texts Hp Hf IH]; intros ms; [cbn; by rewrite app_nil_r|].
  destruct texts as [|t' texts].
  - inversion Hf; subst. cbn [members_text member_loop negb]. change (39 =? 39) with true. by rewrite (member_loop_one m t []).
  - change (members_text (t :: t' :: texts)) with (39 :: t ++ 39 :: 44 :: members_text (t' :: texts)).
    cbn [member_loop negb]. change (39 =? 39) with true. rewrite (member_loop_one m t) by done. cbn [member_loop negb app]. change (44 =? 39) with false.
    rewrite IH. cbn. by rewrite <- app_assoc.
Qed.

Lemma IndexByte_app l b r : b ∉ l → IndexByte (l ++ b :: r) b = Some (length l).
Proof.
  intros Hb. unfold IndexByte. rewrite list_find_app_r; [|apply list_find_None, Forall_forall; intros x Hx ->; done].
  cbn. rewrite decide_True by done. cbn; f_equal; lia.
Qed.
Lemma LastIndexByte_snoc l b : LastIndexByte (l ++ [b]) b = Some (length l).
Proof. unfold LastIndexByte. rewrite reverse_snoc. cbn. rewrite decide_True by done. cbn. f_equal. rewrite length_app. cbn. lia. Qed.

Notation is_bytes := (Forall (λ b, 0 ≤ b < 256)).
Lemma printed_bytes m t : printed m t → is_bytes m → is_bytes t.
Proof. induction 1; intros Hb; [done|..]; inversion Hb; subst; repeat constructor; auto; lia. Qed.
Lemma members_text_bytes members texts : Forall2 printed members texts → Forall is_bytes members → is_bytes (members_text texts).
Proof.
  induction 1 as [|m t members texts Hp Hf IH]; intros Hb; [done|]. inversion Hb as [|? ? Hm Hms]; subst. pose proof (printed_bytes _ _ Hp Hm) as Ht.
  destruct texts as [|t' texts]; [inversion Hf; subst|]; cbn [members_text]; constructor; try lia; apply Forall_app; split; try done; repeat constructor; try lia. by apply IH.
Qed.

(** ENUM and SET definitions are read back.  For members of any bytes, each printed
    between quotes in any mixture of the escaping forms, the members parsed from the
    column type are the original ones in order. *)
Theorem members_roundtrip keyword members texts :
  40 ∉ bytes_of keyword → members ≠ [] → Forall2 printed (bytes_of <$> members) texts →
  parseEnumSetMembers (keyword +:+ string_of (40 :: members_text texts ++ [41])) = Some members.
Proof.
  intros Hk Hne Hf. unfold parseEnumSetMembers. rewrite bytes_of_app, bytes_of_string_of.
  2: { constructor; [lia|]. apply Forall_app. split; [|repeat constructor; lia]. eapply members_text_bytes; [done|].
       apply Forall_fmap, Forall_forall. intros m _. apply bytes_of_range. }
  rewrite IndexByte_app by done. change (40 :: members_text texts ++ [41]) with ((40 :: members_text texts) ++ [41]).
  rewrite app_assoc, LastIndexByte_snoc, length_app, length_cons. rewrite (proj2 (Nat.leb_gt _ _)) by lia.
  replace (length (bytes_of keyword) + S (length (members_text texts)) - S (length (bytes_of keyword)))%nat with (length (members_text texts)) by lia.
  rewrite <- app_assoc, drop_app_ge by lia. replace (S (length (bytes_of keyword)) - length (bytes_of keyword))%nat with 1%nat by lia.
  change (drop 1 ((40 :: members_text texts) ++ [41])) with (members_text texts ++ [41]). rewrite take_app_length. rewrite (member_loop_all _ _ _ Hf). cbn [app].
  rewrite <- list_fmap_compose. assert (string_of ∘ bytes_of <$> members = members) as ->.
  { rewrite <- (list_fmap_id members) at 2. apply list_fmap_ext. intros i m _. apply string_of_bytes_of. }
  by destruct members.
Qed.

(** ** Unsigned values *)

(** The Go type and storage width the binlog parser uses for an integer column. *)
Definition parsed_as (t : mysql_type) : option (Z * ikind) :=
  match t with
  | T_TINY => Some (8, KInt8)
  | T_SHORT => Some (16, KInt16)
  | T_INT24 => Some (24, KInt32)
  | T_LONG => Some (32, KInt32)
  | _ => None
  end.

Lemma land_mask z w : 0 ≤ w → Z.land z (2 ^ w - 1) = z mod 2 ^ w.
Proof. intros. rewrite <- (Z.land_ones z w) by done. by rewrite Z.ones_equiv, Z.sub_1_r. Qed.
Lemma wrap_s_mod w z : 0 < w → wrap_s w z mod 2 ^ w = z mod 2 ^ w.
Proof.
  intros. unfold wrap_s. rewrite Zminus_mod_idemp_l. f_equal. lia.
Qed.
Lemma mask_unsigned w u m : 0 < w → m = 2 ^ w - 1 → 0 ≤ u < 2 ^ w → Z.land (wrap_s w u) m = u.
Proof. intros Hw -> Hu. rewrite land_mask, wrap_s_mod by lia. by apply Z.mod_small. Qed.

Lemma wrap_s_bigint u : 0 ≤ u < 2 ^ 64 → wrap_s 64 u = if u <? 2 ^ 63 then u else u - 2 ^ 64.
Proof.
  intros Hu. unfold wrap_s. change (64 - 1) with 63. destruct (Z.ltb_spec u (2 ^ 63)); [rewrite Z.mod_small by lia; lia|].
  replace (u + 2 ^ 63) with (u - 2 ^ 63 + 1 * 2 ^ 64) by lia. rewrite Z_mod_plus_full, Z.mod_small by lia. lia.
Qed.

Section Convert.
Context `{HE : GoEnv}.
Context (geo : any → result any).
Notation conv := (dataTypeConverter geo).

(** With a current state file, an integer column of no geometry type is masked and cast. *)
Lemma convert_current v typeName base :
  3 < LoadedStateVersion → is_nil v = false → existsb (StrContains (ToLower typeName)) GeospatialTypes = false →
  type_of mysqlTypeToDataTypes (column_base typeName) = base →
  conv v typeName = ReformatValue base (stripSignExtension v (ToLower typeName)).
Proof. intros Hv Hn Hg <-. unfold dataTypeConverter. rewrite Hn, Hg. by rewrite (proj2 (Z.ltb_lt _ _) Hv). Qed.

Lemma cast_int32 k z : - 2 ^ 31 ≤ z < 2 ^ 31 → ReformatValue Int32 (AInt k z) = Ok (AInt KInt32 z).
Proof. intros. change (ReformatValue Int32 (AInt k z)) with (@Ok any (AInt KInt32 (wrap_s 32 z))). by rewrite wrap_s_id by lia. Qed.
Lemma cast_int64 k z : - 2 ^ 63 ≤ z < 2 ^ 63 → ReformatValue Int64 (AInt k z) = Ok (AInt KInt64 z).
Proof. intros. change (ReformatValue Int64 (AInt k z)) with (@Ok any (AInt KInt64 (wrap_s 64 z))). by rewrite wrap_s_id by lia. Qed.

(** With a state file of version 3 or older nothing is masked, and an unsigned column is
    cast as its signed one. *)
Lemma convert_older v t base :
  LoadedStateVersion ≤ 3 → is_nil v = false → existsb (StrContains (ToLower (mysqlTypeName t true))) GeospatialTypes = false →
  StrContains (ToLower (mysqlTypeName t true)) "unsigned" = true →
  type_of mysqlTypeToDataTypes (column_base (TrimSpace (TrimPrefix (ToLower (mysqlTypeName t true)) "unsigned "))) = base →
  conv v (mysqlTypeName t true) = ReformatValue base v.
Proof. intros Hv Hn Hg Hu <-. unfold dataTypeConverter. by rewrite Hn, Hg, (proj2 (Z.ltb_ge _ _) Hv), Hu. Qed.

End Convert.

(** ** Witnesses *)
Definition bare_env_v4 : GoEnv :=
  {| parse_float := @parse_float bare_env; fmt_float := @fmt_float bare_env; fmt_time := @fmt_time bare_env; fmt_pointer := @fmt_pointer bare_env;
     time_parse := @time_parse bare_env; local_offset := @local_offset bare_env; f2i_undefined := @f2i_undefined bare_env; LoadedStateVersion := 4 |}.


Lemma members_roundtrip_witness : parseEnumSetMembers "enum('a','it''s','c,d)')" = Some ["a"; "it's"; "c,d)"].
Proof.
  apply (members_roundtrip "enum" ["a"; "it's"; "c,d)"] [[97]; [105; 116; 39; 39; 115]; [99; 44; 100; 41]]).
  - by_decide.
  - discriminate.
  - repeat first [apply Forall2_cons; split|apply Forall2_nil_2|apply printed_nil|apply printed_doubled|apply printed_plain; [discriminate|discriminate|]].
Defined.

(** Three columns, two of them numeric, the second of these unsigned. *)
Definition sample_map (names : list string) : TableMapEvent :=
  mkTableMap "db" "t" [T_LONG; T_VARCHAR; T_LONGLONG] [64] names [] [] ∅ ∅ (λ _, false) (λ _, false).
Definition sample_answer : string → string → rows (string * string * string) :=
  λ _ _, Rows [("id", "int", ""); ("name", "varchar(9)", "utf8mb4_bin"); ("n", "bigint unsigned", "")].
Notation sample_resolve client tm :=
  (resolveColumns (λ _, None) (λ _, None) (λ b, b) (λ b, Ok (string_of b)) (λ b, Ok (string_of b)) client ∅ tm) (only parsing).

Lemma columns_resolved_witness :
  (∃ v, sample_resolve None (sample_map ["id"; "name"; "n"]) = (∅, Ok v) ∧ cv_types v !! 2%nat = Some "UNSIGNED BIGINT")
  ∧ ∃ v, (sample_resolve (Some sample_answer) (sample_map [])).2 = Ok v ∧ cv_names v = ["id"; "name"; "n"].
Proof.
  split.
  - destruct (proj1 (columns_resolved (λ _, None) (λ _, None) (λ b, b) (λ b, Ok (string_of b)) (λ b, Ok (string_of b)) None ∅
      (sample_map ["id"; "name"; "n"]) ltac:(discriminate))) as (v & Hv & _ & _ & Hty).
    + intros [Hx|[Hx _]]; [by apply Hx|discriminate].
    + exists v. split; [exact Hv|]. by rewrite (Hty 2%nat T_LONGLONG).
  - destruct (proj2 (columns_resolved (λ _, None) (λ _, None) (λ b, b) (λ b, Ok (string_of b)) (λ b, Ok (string_of b)) (Some sample_answer) ∅
      (sample_map []) ltac:(discriminate)) ltac:(left; discriminate) _ _ eq_refl) as [_ Hr].
    cbn in Hr. destruct Hr as (v & Hv & _ & Hn & _). exists v. split; [exact Hv|]. by rewrite Hn.
Defined.
