(* ===== verification/Cdc.v ===== *)
(** * drivers/abstract/cdc.go: change data capture

    One attempt opens a writer per stream, lets the driver push changes into them, closes
    the writers -- each commits its records with the driver's final position as metadata,
    or nothing once the context is cancelled -- and finally runs the driver's post-CDC
    step, which stores the position in the state.  The driver is an interface
    ([ChangeDriver]); the destination is the [Sink] of the full load. *)

From S2P Require Import Prelude GoString GoSet DataTypes QueryEngine Value Schema Stream Catalog State TwoPC Fields Writers Utils Backfill Incremental Jdbc Chunking Binlog.

(** The metadata value of [StreamChanges]: none, one for all streams, or a map by stream. *)
Inductive final_state := NoFinal | OneFinal (s : state_json) | PerStream (m : gmap string (option state_json)).
Definition final_for (f : final_state) (id : string) : option state_json :=
  match f with NoFinal => None | OneFinal s => Some s | PerStream m => default None (m !! id) end.

(** The records pushed so far, each with the id of its stream. *)
Abbreviation pushes := (list (string * RawRecord)) (only parsing).
Definition pushed (id : string) (l : pushes) : list RawRecord := snd <$> filter (λ p, p.1 = id) l.

(** How [StreamChanges] ends: with a value (and the context done or not), an error, or
    the end of the process. *)
Inductive changes_end := Streamed (final : final_state) (done : bool) | ChangesFailed (e : string) | ChangesGone.

(** A driver: its own state, what its source does during one attempt, and the two calls. *)
Class ChangeDriver `{JsonCodec} := {
  dstate : Type;
  dinput : Type;
  StreamChanges : dinput → dstate → State → gmap string (option state_json) →
    (pushes → CDCChange → pushes * option stop) → pushes → option (dstate * pushes * changes_end);
  PostCDC : dinput → bool → dstate → State → dstate * option State * option string
}.

(** The fate of one close: it works, it fails (before or after the commit took effect),
    the context ends first, or the process dies. *)
Inductive close_fate := Closes | CloseErr (took_effect : bool) | CtxEnds | DiesClosing (took_effect : bool).

Section Cdc.
Context `{GoHash string} `{GoHash Chunk} `{GoRange} `{GoEnv} `{HJ : JsonCodec} `{HK : Sink} `{HD : ChangeDriver}.
Context (md5_hex : string → string) (driver : DriverType).
Implicit Types (stream : ConfiguredStream).

Record cdc_world := mkCdc { c_world : backfill_world; c_driver : dstate }.
Implicit Types (w : cdc_world).

(** What the outside does to one attempt. *)
Record attempt_input := mkAttempt {
  ai_open : option nat;           (* the writer that cannot be created *)
  ai_in : dinput;
  ai_push : option nat;           (* the push that fails *)
  ai_clock : nat → gotime;        (* the time of each push *)
  ai_ulid : string → string;      (* the fresh id of each writer *)
  ai_fates : list close_fate;
  ai_dies : bool                  (* the process dies before the post-CDC step *)
}.

Definition cdc_options (ulid : string) stream : Options :=
  foldl (λ o one, one o) (mkOptions false "" false false)
    [WithThreadID (generateThreadID ulid (ID stream) ""); WithApplyFilter true;
     WithKeepDeletesThroughFilter (contains CDCKeepDeletesThroughFilterDrivers driver)].

(** The metadata committed with a writer: the thread id is empty, and the overlap with the
    backfill ends with the first commit. *)
Definition cdc_metadata (final : option state_json) : option MetadataState :=
  match final with
  | None => None
  | Some s => SetDedupInserts (Some (mkMeta (Some "") (Some s) [] None)) (Some false)
  end.

(** Closing every writer, in the order of the map; the result is the destination, whether
    the context is done, the first error, and whether the process died. *)
Fixpoint close_writers (ulid : string → string) (final : final_state) (log : pushes) (streams : list ConfiguredStream) (fates : list close_fate)
    (done : bool) (err : option string) (k : sink) : sink * bool * option string * bool :=
  match streams with
  | [] => (k, done, err, false)
  | stream :: streams =>
      let committed := commit k stream (cdc_options (ulid (ID stream)) stream) (pushed (ID stream) log) (cdc_metadata (final_for final (ID stream))) in
      let fate := match fates with [] => Closes | f :: _ => f end in
      let go k done err := close_writers ulid final log streams (tail fates) done err k in
      if done then
        match fate with
        | CloseErr _ => go k done (first_error err (Some "failed to close writer"))
        | DiesClosing _ => (k, done, err, true)
        | _ => go k done err
        end
      else
        match fate with
        | Closes => go committed done err
        | CloseErr took_effect => go (if took_effect then committed else k) done (first_error err (Some "failed to close writer"))
        | CtxEnds => go k true err
        | DiesClosing took_effect => (if took_effect then committed else k, done, err, true)
        end
  end.

(** [handleWriterCleanup] on the writers of a CDC attempt: an error cancels the context
    before and after the closes. *)
Definition handleWriterCleanup (ulid : string → string) (final : final_state) (log : pushes) (streams : list ConfiguredStream) (fates : list close_fate)
    (done : bool) (err : option string) (k : sink) : sink * bool * option string * bool :=
  let '(k, done, err, dead) := close_writers ulid final log streams fates (done || is_err err) err k in
  (k, done || is_err err, err, dead).

(** The closure passed to the driver. *)
Definition push_change (ai : attempt_input) (dedupInserts : string → bool) (log : pushes) (change : CDCChange) : pushes * option stop :=
  if bool_decide (ai_push ai = Some (length log)) then (log, Some (Stops "failed to push"))
  else match change_record md5_hex (ai_clock ai (length log)) (dedupInserts (ID (ch_Stream change))) change with
       | None => (log, Some Gone)
       | Some r => (log ++ [(ID (ch_Stream change), r)], None)
       end.

(** The deferred post-CDC step; a stored position is written to the state file. *)
Definition post_cdc (ai : attempt_input) (done : bool) (err : option string) w : cdc_world * outcome_of :=
  let b := c_world w in
  let '(d, s, perr) := PostCDC (ai_in ai) done (c_driver w) (b_state b) in
  let b := match s with Some s => logged s b | None => b end in
  (mkCdc b d, match err, perr with
              | None, None => Finished 0
              | None, Some e => Failed_with ("post cdc error: " +:+ e)
              | Some e, None => Failed_with e
              | Some e, Some e' => Failed_with (e +:+ ": post cdc error: " +:+ e')
              end).

(** One attempt.  [None]: the driver is still streaming. *)
Definition streamChanges (ai : attempt_input) (streams : list ConfiguredStream) w : option (cdc_world * outcome_of) :=
  let b := c_world w in
  if match ai_open ai with Some i => (i <? length streams)%nat | None => false end
  then Some (post_cdc ai false (Some "failed to create CDC writer") w)
  else
    let meta id := lookup_first (λ s, String.eqb (ID s) id) streams ≫= (λ s, open_writer (b_sink b) s (cdc_options (ai_ulid ai id) s)) in
    let writers : gmap string ConfiguredStream := list_to_map (reverse ((λ s, (ID s, s)) <$> streams)) in
    let metadataStates : gmap string (option state_json) := map_imap (λ id _, Some (meta id ≫= ms_State)) writers in
    match StreamChanges (ai_in ai) (c_driver w) (b_state b) metadataStates (push_change ai (λ id, dedup_of (meta id))) [] with
    | None => None
    | Some (d, log, ChangesGone) => Some (mkCdc b d, Died)
    | Some (d, log, r) =>
        let '(final, done, err) := match r with Streamed final done => (final, done, None) | ChangesFailed e => (NoFinal, false, Some e) | ChangesGone => (NoFinal, false, None) end in
        let '(k, done, err, dead) := handleWriterCleanup (ai_ulid ai) final log (snd <$> range writers) (ai_fates ai) done err (b_sink b) in
        let w := mkCdc (set_sink k b) d in
        if dead || ai_dies ai then Some (w, Died) else Some (post_cdc ai done err w)
    end.
End Cdc.
