(* ===== verification/CdcFacts.v ===== *)
(** * Closing the writers of a CDC attempt: every stream is left at its old or at the new
    position, whatever happens on the way *)

From S2P Require Import Prelude GoString GoSet DataTypes QueryEngine Value ValueFacts Schema Stream Catalog State StateFacts TwoPC Fields Writers Utils Backfill Incremental IncrementalFacts Jdbc Chunking Binlog Cdc.

(** Streams do not share tables: a commit to one leaves the others alone. *)
Class StreamSink `{CursorSink keep} := {
  other_delivered k s opts raws m id : id ≠ ID s → delivered (commit k s opts raws m) id = delivered k id;
  other_metadata k s opts raws m id : id ≠ ID s → metadata (commit k s opts raws m) id = metadata k id
}.

Lemma pushed_app id (l k : list (string * RawRecord)) : pushed id (l ++ k) = pushed id l ++ pushed id k.
Proof. unfold pushed. by rewrite filter_app, fmap_app. Qed.
Lemma pushed_same id raws : pushed id ((λ r : RawRecord, (id, r)) <$> raws) = raws.
Proof. unfold pushed. induction raws as [|r raws IH]; [done|]. rewrite fmap_cons, filter_cons_True, fmap_cons by done. by rewrite IH. Qed.
Lemma pushed_other id id' raws : id ≠ id' → pushed id ((λ r : RawRecord, (id', r)) <$> raws) = [].
Proof. intros Hne. unfold pushed. induction raws as [|r raws IH]; [done|]. by rewrite fmap_cons, filter_cons_False by auto. Qed.

Lemma same_id (streams : list ConfiguredStream) s s' : NoDup (ID <$> streams) → s ∈ streams → s' ∈ streams → ID s' = ID s → s' = s.
Proof.
  intros Hids Hs Hs' Heq. apply list_elem_of_lookup in Hs' as [i Hi], Hs as [j Hj].
  assert (i = j) as ->; [|by simplify_eq]. eapply NoDup_lookup; [exact Hids|by rewrite list_lookup_fmap, Hi|]. by rewrite list_lookup_fmap, Hj, Heq.
Qed.

(** A push that works appends one record with the selected columns of the change. *)
Section Push.
Context {HS : GoHash string} {HR : GoRange} {HE : GoEnv} {HJ : JsonCodec} {HD : ChangeDriver} (md5_hex : string → string).
Definition appends (push : list (string * RawRecord) → CDCChange → list (string * RawRecord) * option stop) : Prop := ∀ l ch l',
  push l ch = (l', None) → ∃ r, l' = l ++ [(ID (ch_Stream ch), r)] ∧ Data r = RetainSelectedColumns (ch_Stream ch) (ch_Data ch).
Lemma push_change_data (ai : attempt_input) dedup : appends (push_change md5_hex ai dedup).
Proof.
  intros l ch l'. unfold push_change. case_bool_decide; [done|]. unfold change_record. destruct (GetKeysHash _ _ _ _) as [h|]; [|done].
  cbn. intros [= <-]. by eexists.
Qed.
(** It works on every change with keys to hash. *)
Lemma push_change_works (ai : attempt_input) dedup l ch :
  ai_push ai = None → is_Some (GetKeysHash md5_hex 2 (ch_Data ch) (Array (s_SourceDefinedPrimaryKey (StreamOf (ch_Stream ch))))) →
  (push_change md5_hex ai dedup l ch).2 = None.
Proof. intros Hp [h Hh]. unfold push_change. rewrite Hp, bool_decide_false by done. unfold change_record. by rewrite Hh. Qed.

(** [l'] adds to [l], stream by stream of [R], the rows that the entries [es] of a log hold
    for it. *)
Section Adds.
Context {E : Type} (rows : ConfiguredStream → E → list (gmap string any)) (R : list ConfiguredStream).
Definition adds (es : list E) (l l' : list (string * RawRecord)) : Prop :=
  (∀ s, s ∈ R → Data <$> pushed (ID s) l' = (Data <$> pushed (ID s) l) ++ (RetainSelectedColumns s <$> (es ≫= rows s)))
  ∧ ∀ id, (∀ s, s ∈ R → ID s ≠ id) → pushed id l' = pushed id l.
Lemma adds_none e l : (∀ s, s ∈ R → rows s e = []) → adds [e] l l.
Proof. intros Hn. split; [|done]. intros s Hs. cbn. by rewrite Hn, !app_nil_r. Qed.
Lemma adds_nil l : adds [] l l.
Proof. split; [|done]. intros s Hs. cbn. by rewrite app_nil_r. Qed.
Lemma adds_trans es es' l l' l'' : adds es l l' → adds es' l' l'' → adds (es ++ es') l l''.
Proof.
  intros [H1 H2] [H3 H4]. split; [|intros id Hid; by rewrite H4, H2].
  intros s Hs. rewrite H3, H1 by done. by rewrite bind_app, fmap_app, app_assoc.
Qed.
Lemma adds_one e s r d l : s ∈ R → rows s e = [d] → Data r = RetainSelectedColumns s d → (∀ s', s' ∈ R → ID s' = ID s → s' = s) →
  (∀ s', s' ∈ R → ID s' ≠ ID s → rows s' e = []) → adds [e] l (l ++ [(ID s, r)]).
Proof.
  intros Hs Hd Hr Hsame Hother. split.
  - intros s' Hs'. rewrite pushed_app, fmap_app. f_equal. cbn [mbind list_bind]. rewrite app_nil_r. destruct (decide (ID s' = ID s)) as [Heq|Hne].
    + rewrite (Hsame s' Hs' Heq), Hd. cbn [fmap list_fmap]. rewrite <- Hr. exact (f_equal (fmap Data) (pushed_same (ID s) [r])).
    + rewrite (Hother s' Hs' Hne). exact (f_equal (fmap Data) (pushed_other (ID s') (ID s) [r] Hne)).
  - intros id Hid. rewrite pushed_app. assert (id ≠ ID s) as Hne by (intros ->; by eapply Hid).
    rewrite (pushed_other id (ID s) [r] Hne : pushed id [(ID s, r)] = []). by rewrite app_nil_r.
Qed.
End Adds.
End Push.

(** ** The maps an attempt builds over its streams *)
Section Streams.
Context {HR : GoRange} {HK : Sink} (keep : gmap string any → bool) {HKS : CursorSink keep}.
Context (driver : DriverType) (streams : list ConfiguredStream).
Hypothesis Hids : NoDup (ID <$> streams).

Definition writers_of : gmap string ConfiguredStream := list_to_map (reverse ((λ s, (ID s, s)) <$> streams)).
Lemma writers_keys : NoDup (reverse ((λ s, (ID s, s)) <$> streams)).*1.
Proof. rewrite fmap_reverse, <- list_fmap_compose. rewrite reverse_Permutation. exact Hids. Qed.
Lemma writers_perm : snd <$> range writers_of ≡ₚ streams.
Proof.
  unfold writers_of. rewrite range_perm, map_to_list_to_map by apply writers_keys. rewrite fmap_reverse, reverse_Permutation, <- list_fmap_compose.
  cbn. by rewrite list_fmap_id.
Qed.
Lemma writers_lookup id s : (writers_of !! id = Some s) ↔ s ∈ streams ∧ ID s = id.
Proof.
  unfold writers_of. rewrite <- elem_of_list_to_map by apply writers_keys. rewrite elem_of_reverse, list_elem_of_fmap. split.
  - intros (s' & [= -> ->] & Hs'). done.
  - intros [Hs <-]. by exists s.
Qed.
Lemma lookup_stream s : s ∈ streams → lookup_first (λ s', String.eqb (ID s') (ID s)) streams = Some s.
Proof.
  intros Hs. destruct (lookup_first _ streams) as [s'|] eqn:E.
  - apply lookup_first_Some in E as [Hs' Heq]. apply String.eqb_eq in Heq. f_equal. by apply (same_id streams).
  - rewrite lookup_first_None in E. specialize (E s Hs). by rewrite String.eqb_refl in E.
Qed.

Definition meta_state (k : sink) (s : ConfiguredStream) : option state_json := metadata k (ID s) ≫= ms_State.
Definition metas_of (sk : sink) (ulid : string → string) : gmap string (option state_json) :=
  map_imap (λ id _, Some ((lookup_first (λ s, String.eqb (ID s) id) streams ≫= (λ s, open_writer sk s (cdc_options driver (ulid id) s))) ≫= ms_State)) writers_of.
Lemma metas_entry sk ulid id st : (id, st) ∈ range (metas_of sk ulid) ↔ ∃ s, s ∈ streams ∧ ID s = id ∧ st = meta_state sk s.
Proof.
  rewrite elem_of_range. unfold metas_of. rewrite map_lookup_imap. split.
  - destruct (writers_of !! id) as [s|] eqn:Ew; [|done]. apply writers_lookup in Ew as [Hs <-]. cbn. rewrite (lookup_stream s Hs). cbn.
    rewrite open_metadata. intros [= <-]. by exists s.
  - intros (s & Hs & <- & ->). assert (Hw : writers_of !! ID s = Some s) by (by apply writers_lookup). rewrite Hw. cbn. rewrite (lookup_stream s Hs). cbn.
    by rewrite open_metadata.
Qed.
End Streams.

Section Close.
Context {HR : GoRange} {HE : GoEnv} {HJ : JsonCodec} {HK : Sink}.
Context (keep : gmap string any → bool) {HKS : CursorSink keep} {HSS : StreamSink}.
Context (driver : DriverType).

(** The rows each stream should have received by a position of the source, the text of
    the position in the metadata, and what counts as metadata not ahead of a position. *)
Context (key : string) (text : nat → string) (behind : nat → option state_json → Prop).
Context (base : ConfiguredStream → list (gmap string any)) (expected : ConfiguredStream → nat → list (gmap string any)).
Context (fresh : ConfiguredStream → nat → nat → list (gmap string any)).
Hypothesis Hfresh : ∀ s k e, (k ≤ e)%nat → expected s e = expected s k ++ fresh s k e.
Hypothesis Hsame : ∀ s k, fresh s k k = [].

Definition at_position (e : nat) (st : option state_json) : Prop := ∃ f, st = Some (SObject f) ∧ f !! key = Some (text e).
Notation meta_state := (meta_state keep).
Definition holds_rows (k : sink) (s : ConfiguredStream) (i : nat) : Prop := delivered k (ID s) ≡ₚ base s ++ expected s i.

(** A stream has all rows up to the old position, or all up to the new one and metadata
    that say so. *)
Definition status (sk : sink) (k e : nat) (s : ConfiguredStream) : Prop :=
  (behind k (meta_state sk s) ∧ holds_rows sk s k) ∨ ((k < e)%nat ∧ at_position e (meta_state sk s) ∧ holds_rows sk s e).
(** What was pushed for it completes it to the new position. *)
Definition fits (log : list (string * RawRecord)) (sk : sink) (k e : nat) (s : ConfiguredStream) : Prop :=
  (behind k (meta_state sk s) ∧ holds_rows sk s k ∧ filter (λ d, keep d = true) (Data <$> pushed (ID s) log) ≡ₚ fresh s k e)
  ∨ ((k < e)%nat ∧ at_position e (meta_state sk s) ∧ holds_rows sk s e ∧ pushed (ID s) log = []).

Lemma fits_status log sk k e s : fits log sk k e s → status sk k e s.
Proof. intros [(? & ? & _)|(? & ? & ? & _)]; [by left|by right]. Qed.

Lemma commit_frame sk s s' opts raws m k e : ID s' ≠ ID s →
  (status sk k e s' → status (commit sk s opts raws m) k e s') ∧ ∀ log, fits log sk k e s' → fits log (commit sk s opts raws m) k e s'.
Proof. intros Hne. unfold status, fits, meta_state, holds_rows. by rewrite other_delivered, other_metadata. Qed.

Notation final_at e := (OneFinal (SObject {[key := text e]})) (only parsing).

Lemma commit_fits log sk k e s ulid :
  (k ≤ e)%nat → fits log sk k e s →
  let sk' := commit sk s (cdc_options driver ulid s) (pushed (ID s) log) (cdc_metadata (final_for (final_at e) (ID s))) in
  status sk' k e s ∧ holds_rows sk' s e.
Proof.
  intros Hke Hfit. cbv zeta. set (opts := cdc_options driver ulid s). set (m := cdc_metadata _).
  assert (Hb : o_Backfill opts = false) by done.
  destruct Hfit as [(Hm & Hrows & Hnew)|(Hlt & Hm & Hrows & Hnil)].
  - assert (Hrows' : holds_rows (commit sk s opts (pushed (ID s) log) m) s e).
    { unfold holds_rows. rewrite commit_delivers, Hnew by done. rewrite (Hfresh s k e) by done. unfold holds_rows in Hrows. by rewrite Hrows, app_assoc. }
    split; [|done]. destruct (decide (filter (λ d, keep d = true) (Data <$> pushed (ID s) log) = [])) as [En|En].
    + left. unfold meta_state. rewrite commit_nothing by done. split; [done|]. rewrite En in Hnew. apply Permutation_nil_l in Hnew. symmetry in Hnew.
      unfold holds_rows in *. by rewrite Hrows', (Hfresh s k e), Hnew, app_nil_r.
    + right. split_and!; [|..|done].
      * destruct (decide (k = e)) as [->|]; [|lia]. rewrite Hsame in Hnew. by apply Permutation_nil_r in Hnew.
      * destruct (commit_metadata sk s opts (pushed (ID s) log) (mkMeta (Some "") (Some (SObject {[key := text e]})) [] (Some false)) key (text e) {[key := text e]})
          as (m' & f & Hmeta & _ & Hst & Hf); [done..|by rewrite lookup_singleton_eq|].
        exists f. split; [|done]. unfold meta_state. change m with (Some (mkMeta (Some "") (Some (SObject {[key := text e]})) [] (Some false))).
        by rewrite Hmeta.
  - assert (Hkeep : holds_rows (commit sk s opts (pushed (ID s) log) m) s e).
    { unfold holds_rows. rewrite commit_delivers, Hnil by done. cbn. by rewrite app_nil_r. }
    split; [|done]. right. split_and!; [done| |done]. unfold meta_state. by rewrite commit_nothing by (rewrite ?Hnil; done).
Qed.

(** Closing the writers of other streams, or writers without records, leaves the rows of a
    stream alone. *)
Lemma close_keeps ulid final log s e cs : (∀ s', s' ∈ cs → ID s' ≠ ID s ∨ pushed (ID s') log = []) → ∀ sk fates done err sk' done' err' dead,
  close_writers driver ulid final log cs fates done err sk = (sk', done', err', dead) → holds_rows sk s e → holds_rows sk' s e.
Proof.
  induction cs as [|s' cs IH]; intros Hother sk fates done err sk' done' err' dead; cbn [close_writers]; [by intros [= <- <- <- <-]|].
  assert (Hfr : ∀ u m, holds_rows sk s e → holds_rows (commit sk s' (cdc_options driver u s') (pushed (ID s') log) m) s e).
  { intros u m. unfold holds_rows. destruct (decide (ID s' = ID s)) as [Heq|Hne]; [|by rewrite other_delivered].
    destruct (Hother s' ltac:(left)) as [|Hnil]; [done|]. rewrite <- Heq, commit_delivers, Hnil by done. cbn. by rewrite app_nil_r. }
  assert (Ho : ∀ s0, s0 ∈ cs → ID s0 ≠ ID s ∨ pushed (ID s0) log = []) by (intros s0 Hs0; apply Hother; by right).
  destruct done, fates as [|[|[]| |[]] fates]; cbn [tail]; intros Hc Hr; try (injection Hc as <- <- <- <-; auto); eapply IH; eauto.
Qed.

Lemma first_error_none err e : first_error err (Some e) = None → False.
Proof. by destruct err. Qed.

(** A cancelled context commits nothing. *)
Lemma close_done ulid final log cs : ∀ sk fates err sk' done' err' dead,
  close_writers driver ulid final log cs fates true err sk = (sk', done', err', dead) → sk' = sk ∧ done' = true ∧ (err' = None → err = None).
Proof.
  induction cs as [|s cs IH]; intros sk fates err sk' done' err' dead; cbn [close_writers]; [by intros [= <- <- <- _]|].
  destruct fates as [|[| | |] fates]; cbn [tail]; intros Hc; try (by eapply IH); [|by injection Hc as <- <- <- _].
  apply IH in Hc as (-> & -> & He). split_and!; [done..|]. intros Hn. by apply He, first_error_none in Hn.
Qed.

(** Without faults every close commits. *)
Lemma close_clean ulid final log cs : ∀ sk, ∃ sk', close_writers driver ulid final log cs [] false None sk = (sk', false, None, false).
Proof. induction cs as [|s cs IH]; intros sk; cbn [close_writers]; [by eexists|apply IH]. Qed.

(** However the closes end, every stream has its status; when they all work, every closed
    stream has the rows up to the new position. *)
Lemma close_writers_status ulid log k e streams cs : (k ≤ e)%nat → NoDup (ID <$> streams) →
  NoDup (ID <$> cs) → ∀ sk fates done err sk' done' err' dead,
  (∀ s, s ∈ streams → status sk k e s) → (∀ s, s ∈ cs → s ∈ streams ∧ fits log sk k e s) →
  close_writers driver ulid (final_at e) log cs fates done err sk = (sk', done', err', dead) →
  (∀ s, s ∈ streams → status sk' k e s) ∧ (done = true → sk' = sk ∧ done' = true) ∧ (err' = None → err = None)
  ∧ (done' = false → err' = None → dead = false → ∀ s, s ∈ cs → holds_rows sk' s e).
Proof.
  intros Hke Hids. induction cs as [|s cs IH]; intros Hnd sk fates done err sk' done' err' dead Hst Hfit; cbn [close_writers].
  - intros [= <- <- <- <-]. split_and!; try done. intros _ _ _ s' ?%elem_of_nil. done.
  - rewrite fmap_cons in Hnd. apply NoDup_cons in Hnd as [Hni Hnd]. set (sk1 := commit sk s _ _ _).
    assert (Hother : ∀ s', s' ∈ cs → ID s' ≠ ID s) by (intros s' Hs' Heq; apply Hni; rewrite <- Heq; by apply list_elem_of_fmap_2).
    destruct (Hfit s ltac:(left)) as [Hs Hf]. pose proof (commit_fits log sk k e s (ulid (ID s)) Hke Hf) as [Hs1 Hr1]. fold sk1 in Hs1, Hr1.
    assert (Hst1 : ∀ s', s' ∈ streams → status sk1 k e s').
    { intros s' Hs'. destruct (decide (ID s' = ID s)) as [Heq|Hne]; [by rewrite (same_id streams s s')|by apply commit_frame; auto]. }
    assert (Hfit0 : ∀ s', s' ∈ cs → s' ∈ streams ∧ fits log sk k e s') by (intros s' Hs'; apply Hfit; by right).
    assert (Hfit1 : ∀ s', s' ∈ cs → s' ∈ streams ∧ fits log sk1 k e s') by (intros s' Hs'; destruct (Hfit0 s' Hs'); split; [done|apply commit_frame; auto]).
    pose proof (λ fs d er, IH Hnd sk fs d er sk' done' err' dead Hst Hfit0) as IH0.
    pose proof (λ fs d er, IH Hnd sk1 fs d er sk' done' err' dead Hst1 Hfit1) as IH1. clear IH.
    destruct done; [destruct fates as [|[|b| |b] fates]|destruct fates as [|[|[]| |[]] fates]]; cbn [tail]; intros Hc.
    all: try (injection Hc as <- <- <- <-; split_and!; done).
    all: try (destruct (IH0 _ _ _ Hc) as (H1 & H2 & H3 & H4); split_and!; [done|by auto|by destruct err; auto|destruct (H2 eq_refl) as [_ ->]; done]).
    all: try (destruct (IH1 _ _ _ Hc) as (H1 & H2 & H3 & H4); split_and!; [done|done|by destruct err; auto|];
              intros Hd He Hx s' [->|Hs']%elem_of_cons; [by eapply close_keeps; eauto|by apply H4]).
    all: destruct (IH0 _ _ _ Hc) as (H1 & H2 & H3 & H4); split_and!; [done|done|by destruct err; auto|].
    intros Hd He. by apply H3, first_error_none in He.
Qed.

(** ** Resuming

    Every stream's metadata are behind the state or at one common position [e]: the scan
    finds the streams at [e], and the others are read up to it. *)
Definition known (k e : nat) (st : option state_json) : Prop := behind k st ∨ (k < e)%nat ∧ at_position e st.
Lemma status_known sk k e s : status sk k e s → known k e (meta_state sk s).
Proof. intros [[Hb _]|(? & ? & _)]; [by left|by right]. Qed.

Section Scan.
Context {P : Type} (f : list string * P → string * option state_json → result (list string * P)) (none mark : P) (k e : nat).
Hypothesis Hskip : ∀ acc id st, behind k st → f acc (id, st) = Ok acc.
Hypothesis Hmark : ∀ acc id st, (k < e)%nat → at_position e st → f acc (id, st) = Ok (acc.1 ++ [id], mark).
Hypothesis Hahead : ∀ st, (k < e)%nat → at_position e st → ¬ behind k st.

Lemma scan_fold l acc : (∀ id st, (id, st) ∈ l → known k e st) →
  ∃ fin p, foldM f acc l = Ok (acc.1 ++ fin, p)
  ∧ (∀ id, id ∈ fin ↔ ∃ st, (id, st) ∈ l ∧ (k < e)%nat ∧ at_position e st) ∧ (fin = [] → p = acc.2) ∧ (fin ≠ [] → p = mark).
Proof.
  revert acc. induction l as [|[id st] l IH]; intros acc Hl; cbn [foldM].
  { exists [], acc.2. rewrite app_nil_r. destruct acc. split_and!; try done. intros id. split; [by intros ?%elem_of_nil|by intros (st & ?%elem_of_nil & _)]. }
  assert (Hl' : ∀ id st, (id, st) ∈ l → known k e st) by (intros id' st' Hin; apply (Hl id'); by right).
  destruct (Hl id st ltac:(left)) as [Hb|[Hlt Hat]].
  - rewrite Hskip by done. destruct (IH acc Hl') as (fin & p & -> & Hfin & H1 & H2). exists fin, p. split_and!; [done| |done|done].
    intros id'. rewrite Hfin. split; intros (st' & Hin & Hlt & Hat); exists st'; (split; [|done]); [by right|].
    apply elem_of_cons in Hin as [[= -> ->]|]; [|done]. by apply Hahead in Hat.
  - rewrite Hmark by done. destruct (IH (acc.1 ++ [id], mark) Hl') as (fin & p & -> & Hfin & H1 & H2). cbn [fst snd] in *.
    exists (id :: fin), p. split_and!; [by rewrite <- app_assoc| |done|by intros _; destruct fin; auto].
    intros id'. rewrite elem_of_cons, Hfin. split.
    + intros [->|(st' & Hin & Hr)]; [exists st; split; [left|done]|exists st'; split; [by right|done]].
    + intros (st' & [[= -> ->]|Hin]%elem_of_cons & Hr); [by left|]. right. by exists st'.
Qed.

Context (streams : list ConfiguredStream).
Hypothesis Hids : NoDup (ID <$> streams).

(** What an attempt will read: the streams [R] that are not at [e] yet. *)
Definition to_read (sk : sink) (fin : list string) (R : list ConfiguredStream) : Prop :=
  (∀ s, s ∈ R → s ∈ streams ∧ behind k (meta_state sk s) ∧ holds_rows sk s k)
  ∧ (∀ s, s ∈ streams → s ∈ R ∨
       fin ≠ [] ∧ (k < e)%nat ∧ at_position e (meta_state sk s) ∧ holds_rows sk s e ∧ ∀ s', s' ∈ R → ID s' ≠ ID s)
  ∧ (fin ≠ [] → ∃ s, s ∈ streams ∧ (k < e)%nat ∧ at_position e (meta_state sk s)).
Lemma scan_metas sk ulid : (∀ s, s ∈ streams → status sk k e s) →
  ∃ fin p, foldM f ([], none) (range (metas_of driver streams sk ulid)) = Ok (fin, p) ∧ (fin = [] → p = none) ∧ (fin ≠ [] → p = mark)
  ∧ (∀ id, id ∈ fin → id ∈ ID <$> streams) ∧ ∀ R, (∀ s, s ∈ R ↔ s ∈ streams ∧ ID s ∉ fin) → to_read sk fin R.
Proof.
  intros Hst. destruct (scan_fold (range (metas_of driver streams sk ulid)) ([], none)) as (fin & p & Hs & Hfin' & H1 & H2).
  { intros id st (s & Hs & _ & ->)%(metas_entry keep driver streams Hids). auto using status_known. }
  assert (Hfin : ∀ id, id ∈ fin ↔ ∃ s, s ∈ streams ∧ ID s = id ∧ (k < e)%nat ∧ at_position e (meta_state sk s)).
  { intros id. rewrite Hfin'. split.
    - intros (st & (s & Hs' & Hid & ->)%(metas_entry keep driver streams Hids) & Hr). by exists s.
    - intros (s & Hs' & Hid & Hr). exists (meta_state sk s). split; [|done]. apply (metas_entry keep driver streams Hids). by exists s. }
  exists fin, p. split_and!; [exact Hs|done|done|intros id (s & Hs' & <- & _)%Hfin; by apply list_elem_of_fmap_2|]. intros R HR'. split_and!.
  - intros s [Hs' Hni]%HR'. split; [done|]. destruct (Hst s Hs') as [Hb|(Hlt & Hat & _)]; [done|]. destruct Hni. apply Hfin. by exists s.
  - intros s Hs'. destruct (decide (ID s ∈ fin)) as [Hin|Hni]; [right|left; by apply HR'].
    split; [by intros ->; apply elem_of_nil in Hin|]. apply Hfin in Hin as (s' & Hs2 & Heq & Hlt & Hat).
    rewrite (same_id streams s s') in Hat by done. split_and!; try done.
    + destruct (Hst s Hs') as [[Hb _]|(_ & _ & Hr)]; [|done]. by apply Hahead in Hat.
    + intros s0 [Hs0 Hni0]%HR' Heq0. destruct Hni0. rewrite Heq0. apply Hfin. by exists s.
  - intros Hne. destruct fin as [|id fin]; [done|]. destruct (proj1 (Hfin id) ltac:(left)) as (s & Hs' & _ & Hr). by exists s.
Qed.
End Scan.

(** ** The end of an attempt *)
Section Cleanup.
Context (streams : list ConfiguredStream).
Hypothesis Hids : NoDup (ID <$> streams).

(** After a successful read: every stream keeps its status, and has all rows when nothing
    went wrong. *)
Lemma cleanup_status ulid log k e done fates sk sk' done' err dead : (k ≤ e)%nat →
  (∀ s, s ∈ streams → status sk k e s) → (done = false → ∀ s, s ∈ streams → fits log sk k e s) →
  handleWriterCleanup driver ulid (final_at e) log (snd <$> range (writers_of streams)) fates done None sk = (sk', done', err, dead) →
  (∀ s, s ∈ streams → status sk' k e s) ∧ (done' = false → err = None ∧ (dead = false → ∀ s, s ∈ streams → holds_rows sk' s e)).
Proof.
  intros Hke Hst Hfit. pose proof (writers_perm streams Hids) as Hws. revert Hws. generalize (snd <$> range (writers_of streams)). intros ws Hws.
  unfold handleWriterCleanup. rewrite orb_false_r.
  destruct (close_writers _ _ _ _ _ _ _ _ _) as [[[sk1 done1] err1] dead1] eqn:Ecl. intros [= -> <- -> ->]. destruct done.
  - apply close_done in Ecl as (-> & -> & _). by split.
  - destruct (close_writers_status ulid log k e streams ws Hke Hids ltac:(by rewrite Hws) sk fates false None sk' done1 err dead Hst
      ltac:(intros s Hin; rewrite Hws in Hin; auto) Ecl) as (H1 & _ & _ & H4).
    split; [done|]. intros [-> He]%orb_false_iff. destruct err; [done|]. split; [done|]. intros -> s Hin. apply H4; [done..|]. by rewrite Hws.
Qed.

(** After a failed or cancelled one: nothing is committed. *)
Lemma cleanup_failed ulid final log fates done err cs sk sk' done' err' dead : done || is_err err = true →
  handleWriterCleanup driver ulid final log cs fates done err sk = (sk', done', err', dead) → sk' = sk ∧ done' = true ∧ (err' = None → err = None).
Proof.
  intros Hd. unfold handleWriterCleanup. rewrite Hd. destruct (close_writers _ _ _ _ _ _ _ _ _) as [[[sk1 done1] err1] dead1] eqn:Ecl.
  apply close_done in Ecl as (-> & -> & He). by intros [= <- <- <- _].
Qed.
(** Without records, no stream's rows change. *)
Lemma cleanup_nothing ulid final fates done err cs sk sk' done' err' dead s e :
  handleWriterCleanup driver ulid final [] cs fates done err sk = (sk', done', err', dead) → holds_rows sk s e → holds_rows sk' s e.
Proof.
  unfold handleWriterCleanup. destruct (close_writers _ _ _ _ _ _ _ _ _) as [[[sk1 done1] err1] dead1] eqn:Ecl. intros [= <- _ _ _].
  eapply close_keeps; [|exact Ecl]. intros s' _. by right.
Qed.
End Cleanup.
End Close.

(** ** A destination and two tables, for concrete runs *)
Section Example.
#[local] Instance mc_hash : GoHash string := encode_hash "".
#[local] Instance mc_chunk_hash : GoHash Chunk := ws_chunk_hash.
#[local] Instance mc_range : GoRange := sorted_range.
#[local] Instance mc_env : GoEnv := bare_env.
#[local] Instance mc_json : JsonCodec := ws_json.

(** The number of leading ones, and what follows the mark after them. *)
Fixpoint ones (n : nat) (rest : string) : string := match n with O => String "0" rest | S n => String "1" (ones n rest) end.
Fixpoint read_ones (s : string) : option (nat * string) :=
  match s with
  | String "0" rest => Some (0%nat, rest)
  | String "1" rest => (λ r, (S r.1, r.2)) <$> read_ones rest
  | _ => None
  end.
Lemma read_ones_ones n rest : read_ones (ones n rest) = Some (n, rest).
Proof. induction n as [|n IH]; cbn; [done|]. by rewrite IH. Qed.

#[local] Instance mc_sink : Sink := {|
  sink := gmap string (list (gmap string any) * option MetadataState);
  open_writer k stream _ := (table_of k (ID stream)).2;
  commit k stream _ raws m :=
    match raws with [] => k | _ => <[ID stream := ((table_of k (ID stream)).1 ++ (Data <$> raws), m)]> k end |}.
#[local] Instance mc_cursor_sink : CursorSink (λ _, true).
Proof.
  refine {| delivered k id := (table_of k id).1; metadata k id := (table_of k id).2 |}; [done|..].
  - intros k stream opts raws m _. rewrite filter_all by (by apply Forall_forall). destruct raws as [|r raws]; [cbn; by rewrite app_nil_r|].
    cbn. unfold table_of at 1. by rewrite lookup_insert_eq.
  - intros k stream opts raws m _. rewrite filter_all by (by apply Forall_forall). by destruct raws.
  - intros k stream opts raws m key t f _ Hne Hs Hf. exists m, f. split_and!; [|done..]. destruct raws as [|r raws]; [done|].
    cbn. unfold table_of. by rewrite lookup_insert_eq.
Defined.
#[local] Instance mc_stream_sink : StreamSink.
Proof.
  split; intros k s opts [|r raws] m id Hne; try done; cbn; unfold table_of at 1; by rewrite lookup_insert_ne.
Defined.

Definition table_stream (name : string) : ConfiguredStream :=
  let p := mkProperty (NewSet [Int64]) "id" false in
  mkConfigured (mkMetadata "" "" name false true "" false "" None None None)
    (mkStream name "db" {["id" := p]} (mkGoSet ∅ ∅ None) [] (mkGoSet ∅ ∅ None) (mkGoSet ∅ ∅ None) "" "" CDC "" "" None).
Definition shop : list ConfiguredStream := [table_stream "orders"; table_stream "users"].
End Example.
