(* ===== verification/MysqlCdc.v ===== *)
(** * drivers/mysql/internal/cdc.go: change capture from the binary log

    The state holds a server id and a binlog position; the metadata of each destination
    table holds the position of its last commit.  A metadata position ahead of the state
    means that an earlier attempt committed this stream but did not get as far as the
    state: the other streams are then read up to exactly that position. *)

From S2P Require Import Prelude GoString GoSet DataTypes QueryEngine Value Schema Stream Catalog State TwoPC Fields Writers Utils Backfill Incremental Jdbc Chunking Binlog Cdc.

(** [MySQLGlobalState] and [Binlog] as JSON: the state value, which comes back from the
    state file as a map, and the text of the position within the metadata. *)
Definition pos_ok (p : Position) : Prop := utf8_valid (pos_Name p) ∧ 0 ≤ pos_Pos p < 2 ^ 32.
Class MySQLCodec `{JsonCodec} := {
  global_value : Z → Position → any;
  Unmarshal_global : any → result (Z * Position);
  position_text : Position → string;
  position_of : string → option Position;
  global_set id p : is_nil (global_value id p) = false ∧ is_nil (json_any (global_value id p)) = false;
  global_read id p : 0 ≤ id < 2 ^ 32 → pos_ok p → Unmarshal_global (global_value id p) = Ok (id, p);
  global_reread id p : 0 ≤ id < 2 ^ 32 → pos_ok p → Unmarshal_global (json_any (global_value id p)) = Ok (id, p);
  position_read p : pos_ok p → position_of (position_text p) = Some p
}.

Definition position_state `{MySQLCodec} (p : Position) : state_json := SObject {["position" := position_text p]}.
(** Decoding into the struct: a missing field stays zero. *)
Definition state_position `{MySQLCodec} (s : state_json) : option Position :=
  match s with
  | SObject f => match f !! "position" with Some t => position_of t | None => Some (mkPos "" 0) end
  | SText _ => None
  end.

Definition minServerID : Z := 1000.
(** [nano]: the clock. *)
Definition newServerID (nano : Z) : Z :=
  let offset := Z.rem nano (4294967295 - minServerID) in
  if (offset <? 0) || (4294967295 - minServerID <? offset) then minServerID else wrap_u 32 (minServerID + wrap_u 32 offset).

Section MysqlCdc.
Context `{HS : GoHash string} `{GoRange} `{HE : GoEnv} `{HM : MySQLCodec}.
Context (GetCollationByID : Z → option string) (GetCollationByName : string → option Z).
Context (cp1252 : Z → Z) (utf16be utf16le : list Z → result string).
Context (client : option (string → string → rows (string * string * string))) (ReformatGeoType : any → result any).
Context (pos_compare : Position → Position → Z).

Record mysql_state := mkMysql { m_streams : list ConfiguredStream; BinlogConn : option Connection }.

(** What the server does during one attempt. *)
Record mysql_input := mkInput {
  in_prepare : option string;          (* an error while preparing the connection *)
  in_wait : Z;                         (* the configured initial wait *)
  in_current : result Position;
  in_start : bool;
  in_ticks : list tick
}.

(** The global state, present and not nil. *)
Definition saved_global (s : State) : option any :=
  match st_Global s with Some g => if is_nil (g_State g) then None else Some (g_State g) | None => None end.

Definition PreCDC (current : result Position) (nano : Z) (streams : list ConfiguredStream) (m : mysql_state) (s : State) : result (mysql_state * option State) :=
  match saved_global s with
  | Some _ => Ok (mkMysql streams (BinlogConn m), None)
  | None =>
      binlogPos ← current;
      Ok (mkMysql streams (BinlogConn m), Some (ResetStreams (SetGlobal s (global_value (newServerID nano) binlogPos) [])))
  end.

(** The loop over the metadata states: the finished streams and the recovery position. *)
Definition scan_one (position : Position) (acc : list string * Position) (kv : string * option state_json) : result (list string * Position) :=
  match kv.2 with
  | None => Ok acc
  | Some rawMtState =>
      match state_position rawMtState with
      | None => Err "failed to unmarshal metadata state"
      | Some p => Ok (if 0 <? pos_compare p position then (acc.1 ++ [kv.1], p) else acc)
      end
  end.
Definition scan_metadata (position : Position) (metadataStates : gmap string (option state_json)) : result (list string * Position) :=
  foldM (scan_one position) ([], mkPos "" 0) (range metadataStates).

Definition remaining_streams (finishedStreams : list string) (streams : list ConfiguredStream) : list ConfiguredStream :=
  match finishedStreams with
  | [] => streams
  | _ => let finishedStreamSet := NewSet finishedStreams in filter (λ s, GoSet.Exists finishedStreamSet (ID s) = false) streams
  end.

Definition mysql_StreamChanges (inp : mysql_input) (m : mysql_state) (s : State) (metadataStates : gmap string (option state_json))
    (OnMessage : pushes → CDCChange → pushes * option stop) (log : pushes) : option (mysql_state * pushes * changes_end) :=
  let fail e := Some (m, log, ChangesFailed e) in
  match saved_global s with
  | None => fail "invalid global state; state is missing"
  | Some g =>
      match Unmarshal_global g with
      | Ok (serverID, position) =>
          if serverID =? 0 then fail "invalid global state; server_id is missing"
          else match scan_metadata position metadataStates with
               | Ok (finishedStreams, recoveryPos) =>
                   match in_prepare inp with
                   | Some e => fail "failed to prepare binlog conn"
                   | None =>
                       let conn := mkConn position serverID (in_wait inp) (NewChangeFilter (remaining_streams finishedStreams (m_streams m))) in
                       match StreamMessages GetCollationByID GetCollationByName cp1252 utf16be utf16le client (dataTypeConverter ReformatGeoType) pos_compare
                               OnMessage conn (in_current inp) (in_start inp) recoveryPos (in_ticks inp) log with
                       | None => None
                       | Some (conn, log, r) =>
                           match r with
                           | Ended (Stops e) => Some (mkMysql (m_streams m) (Some conn), log, ChangesFailed e)
                           | Ended Gone => Some (mkMysql (m_streams m) (Some conn), log, ChangesGone)
                           | _ =>
                               let conn := if String.eqb (pos_Name recoveryPos) "" then conn else set_pos conn recoveryPos in
                               Some (mkMysql (m_streams m) (Some conn), log,
                                     Streamed (OneFinal (position_state (CurrentPos conn))) (match r with CtxDone => true | _ => false end))
                           end
                       end
                   end
               | Err e => fail e
               | Panic e => fail e
               end
      | _ => fail "failed to unmarshal global state"
      end
  end.

Definition mysql_PostCDC (inp : mysql_input) (done : bool) (m : mysql_state) (s : State) : mysql_state * option State * option string :=
  match BinlogConn m with
  | None => (m, None, None)
  | Some conn =>
      if done then (m, None, Some "context canceled")
      else (m, Some (SetGlobal s (global_value (ServerID conn) (CurrentPos conn)) []), None)
  end.

Definition MySQL_changes : ChangeDriver :=
  {| dstate := mysql_state; dinput := mysql_input; StreamChanges := mysql_StreamChanges; PostCDC := mysql_PostCDC |}.
End MysqlCdc.
