(* ===== verification/MysqlCdcFacts.v ===== *)
(** * Theorems about MySQL change capture: every change of the binlog reaches every stream
    exactly once, across failed attempts and restarts *)

From S2P Require Import Prelude GoString GoSet DataTypes QueryEngine Value ValueFacts Schema Stream Catalog State StateFacts TwoPC Fields Writers Utils Backfill Incremental IncrementalFacts Jdbc Chunking Binlog Cdc CdcFacts MysqlCdc.

Lemma filter_streams_fold (R : list ConfiguredStream) (m : gmap string ConfiguredStream) κ :
  NoDup (stream_key_of <$> R) →
  (∃ s, s ∈ R ∧ stream_key_of s = κ ∧ foldl (λ m s, <[stream_key_of s := s]> m) m R !! κ = Some s)
  ∨ (∀ s, s ∈ R → stream_key_of s ≠ κ) ∧ foldl (λ m s, <[stream_key_of s := s]> m) m R !! κ = m !! κ.
Proof.
  revert m. induction R as [|s R IH]; intros m Hnd; [right; split; [by intros s ?%elem_of_nil|done]|].
  rewrite fmap_cons in Hnd. apply NoDup_cons in Hnd as [Hni Hnd]. cbn [foldl].
  destruct (IH (<[stream_key_of s := s]> m) Hnd) as [(s' & Hs' & Hk & Hl)|[Hn Hl]].
  - left. exists s'. split_and!; [by right|done|done].
  - destruct (decide (stream_key_of s = κ)) as [<-|Hne].
    + left. exists s. split_and!; [left|done|]. by rewrite Hl, lookup_insert_eq.
    + right. split; [|by rewrite Hl, lookup_insert_ne]. intros s' [->|?]%elem_of_cons; [done|auto].
Qed.

Section Facts.
Context {HS : GoHash string} {HC : GoHash Chunk} {HR : GoRange} {HE : GoEnv} {HJ : JsonCodec} {HM : MySQLCodec} {HK : Sink}.
Context (keep : gmap string any → bool) {HKS : CursorSink keep} {HSS : StreamSink}.
Context (md5_hex : string → string).
Context (GetCollationByID : Z → option string) (GetCollationByName : string → option Z).
Context (cp1252 : Z → Z) (utf16be utf16le : list Z → result string).
Context (client : option (string → string → rows (string * string * string))) (ReformatGeoType : any → result any).
Context (pos_compare : Position → Position → Z).

Notation resolve := (resolveColumns GetCollationByID GetCollationByName cp1252 utf16be utf16le client).
Notation get := (schema_get GetCollationByName client).
Notation converter := (dataTypeConverter ReformatGeoType).
Notation convert_row := (convertRowToMap GetCollationByID cp1252 utf16be utf16le converter).
Notation handle := (handle_event GetCollationByID GetCollationByName cp1252 utf16be utf16le client converter).
Notation loop := (stream_loop GetCollationByID GetCollationByName cp1252 utf16be utf16le client converter pos_compare).

(** ** The binary log *)
Context (log : list (Header * event)) (p0 : Position).
Definition next_pos (p : Position) (e : Header * event) : Position :=
  match e.2 with RotateEvent name q => mkPos name q | _ => mkPos (pos_Name p) (LogPos e.1) end.
(** The position after [i] events. *)
Definition pos_at (i : nat) : Position := foldl next_pos p0 (take i log).

Definition table_key (tm : TableMapEvent) : string := tm_Schema tm +:+ "." +:+ tm_Table tm.

(** Positions fit the protocol's widths and grow along the log, and a table is known by
    its key. *)
Record log_ok : Prop := {
  lo_rotate hd name q : (hd, RotateEvent name q) ∈ log → q ≤ 4294967295;
  lo_pos i : (i ≤ length log)%nat → pos_ok (pos_at i) ∧ pos_Name (pos_at i) ≠ "" ∧ pos_Pos (pos_at i) ≠ 0;
  lo_order i j : (i ≤ length log)%nat → (j ≤ length log)%nat → Z.sgn (pos_compare (pos_at i) (pos_at j)) = Z.sgn (Z.of_nat i - Z.of_nat j);
  lo_tables hd hd' tm tm' ty ty' rows rows' : (hd, RowsEvent tm ty rows) ∈ log → (hd', RowsEvent tm' ty' rows') ∈ log →
    table_key tm = table_key tm' → tm_Schema tm = tm_Schema tm' ∧ tm_Table tm = tm_Table tm'
}.
Hypothesis Hlog : log_ok.

Lemma pos_at_S i e : log !! i = Some e → pos_at (S i) = next_pos (pos_at i) e.
Proof. intros He. unfold pos_at. by rewrite (take_S_r _ _ _ He), foldl_app. Qed.
Lemma pos_at_le i j : (i ≤ length log)%nat → (j ≤ length log)%nat → (0 <=? pos_compare (pos_at i) (pos_at j)) = bool_decide (j ≤ i)%nat.
Proof.
  intros Hi Hj. pose proof (lo_order Hlog i j Hi Hj). destruct (Z.leb_spec 0 (pos_compare (pos_at i) (pos_at j))); symmetry.
  - apply bool_decide_eq_true. lia.
  - apply bool_decide_eq_false. lia.
Qed.

(** ** What a rows event means, whatever the cache holds *)
Definition columns (tm : TableMapEvent) : result columnView := (resolve ∅ tm).2.
Definition cache_ok (c : gmap string (list columnMeta)) : Prop :=
  ∀ hd tm ty rows meta, (hd, RowsEvent tm ty rows) ∈ log → c !! table_key tm = Some meta → (get ∅ (tm_Schema tm) (tm_Table tm)).2 = Ok meta.

Lemma cache_empty : cache_ok ∅.
Proof. intros hd tm ty rows meta _ Hl. by rewrite lookup_empty in Hl. Qed.

Lemma get_cached c hd tm ty rows : cache_ok c → (hd, RowsEvent tm ty rows) ∈ log →
  (get c (tm_Schema tm) (tm_Table tm)).2 = (get ∅ (tm_Schema tm) (tm_Table tm)).2 ∧ cache_ok (get c (tm_Schema tm) (tm_Table tm)).1.
Proof.
  intros Hc Hin. unfold schema_get at 1 3. fold (table_key tm). destruct (c !! table_key tm) as [meta|] eqn:Ec.
  - split; [symmetry; by eapply Hc|done].
  - unfold schema_get. rewrite lookup_empty. destruct client as [query|] eqn:Eq; [|done].
    destruct (schema_load _ query _ _) as [meta| |] eqn:El; [|done..]. split; [done|]. intros hd' tm' ty' rows' meta' Hin' Hl. cbn [fst] in Hl.
    destruct (decide (table_key tm = table_key tm')) as [Heq|Hne].
    + rewrite Heq, lookup_insert_eq in Hl. injection Hl as <-. destruct (lo_tables Hlog _ _ _ _ _ _ _ _ Hin Hin' Heq) as [<- <-].
      unfold schema_get. by rewrite lookup_empty, Eq, El.
    + rewrite lookup_insert_ne in Hl by done. rewrite <- (Hc _ _ _ _ _ Hin' Hl). unfold schema_get. by rewrite lookup_empty, Eq.
Qed.

Lemma resolve_cached c hd tm ty rows : cache_ok c → (hd, RowsEvent tm ty rows) ∈ log →
  (resolve c tm).2 = columns tm ∧ cache_ok (resolve c tm).1.
Proof.
  intros Hc Hin. destruct (get_cached c _ _ _ _ Hc Hin) as [Hg Hg']. unfold columns, resolveColumns.
  destruct (unsignedMap tm) as [um| |]; [|done..]. destruct (_ || _); [|done].
  destruct (get c _ _) as [c1 r1], (get ∅ _ _) as [c2 r2]. cbn in *. by rewrite Hg.
Qed.

Definition event_images (ty : event_type) (rows : list (list any)) : list (list any) :=
  match operation_of ty with Some op => if String.eqb op "update" then after_images rows else rows | None => [] end.
Definition event_rows (s : ConfiguredStream) (e : Header * event) : list (gmap string any) :=
  match e.2 with
  | RowsEvent tm ty rows =>
      if String.eqb (table_key tm) (stream_key_of s) then
        match columns tm with
        | Ok v => omap (λ row, match convert_row row v with Ok r => Some r | _ => None end) (event_images ty rows)
        | _ => []
        end
      else []
  | _ => []
  end.

(** ** Pushing *)
Section Attempt.
Context {inp : Type} (push : list (string * RawRecord) → CDCChange → list (string * RawRecord) * option stop).
Hypothesis Hpush : appends push.

Lemma emit_rows_data make s v rows l l' :
  (∀ r, ch_Stream (make r) = s ∧ ch_Data (make r) = r) →
  emit_rows GetCollationByID cp1252 utf16be utf16le converter push make v rows l = (l', None) →
  ∃ raws, l' = l ++ ((λ r, (ID s, r)) <$> raws)
  ∧ Data <$> raws = RetainSelectedColumns s <$> omap (λ row, match convert_row row v with Ok r => Some r | _ => None end) rows.
Proof.
  intros Hm. revert l. induction rows as [|row rows IH]; intros l; cbn [emit_rows].
  { intros [= <-]. exists []. split; [by rewrite app_nil_r|done]. }
  destruct (convert_row row v) as [r| |] eqn:Ec; [|done..]. destruct (push l (make r)) as [l1 [st|]] eqn:Ep; [done|]. intros Hrest.
  destruct (Hpush _ _ _ Ep) as (raw & -> & Hd). destruct (Hm r) as [Hs Hr]. rewrite Hs, Hr in *.
  destruct (IH _ Hrest) as (raws & -> & Hraws). exists (raw :: raws). split; [cbn; by rewrite <- app_assoc|].
  cbn. rewrite Ec. cbn. by rewrite Hd, Hraws.
Qed.

Context (R : list ConfiguredStream).
Hypothesis HRkeys : NoDup (stream_key_of <$> R).
Hypothesis HRids : ∀ s, s ∈ R → ID s = stream_key_of s.

Definition filter_of (f : ChangeFilter) : Prop := f_streams f = f_streams (NewChangeFilter R) ∧ cache_ok (f_schema f).
Notation adds := (adds event_rows R).

Lemma rows_adds f hd tm ty rows pos l f' l' :
  filter_of f → (hd, RowsEvent tm ty rows) ∈ log →
  FilterRowsEvent GetCollationByID GetCollationByName cp1252 utf16be utf16le client converter f tm ty rows hd pos push l = (f', l', None) →
  filter_of f' ∧ adds [(hd, RowsEvent tm ty rows)] l l'.
Proof.
  intros [Hst Hc] Hin. unfold FilterRowsEvent. fold (table_key tm). rewrite Hst. unfold NewChangeFilter. cbn [f_streams].
  destruct (filter_streams_fold R ∅ (table_key tm) HRkeys) as [(s & Hs & Hk & ->)|[Hn ->]].
  - destruct (operation_of ty) as [op|] eqn:Eop.
    + destruct (resolve_cached (f_schema f) _ _ _ _ Hc Hin) as [Hv Hc']. destruct (resolve (f_schema f) tm) as [c' v]. cbn [fst snd] in *.
      destruct v as [v| |]; [|done..]. destruct (emit_rows _ _ _ _ _ _ _ _ _ _) as [l1 r] eqn:Ee. intros [= <- <- ->].
      split; [done|]. eapply (emit_rows_data _ s) in Ee as (raws & -> & Hd); [|done]. split.
      * intros s' Hs'. rewrite pushed_app. cbn [mbind list_bind]. rewrite app_nil_r. unfold event_rows. cbn [snd].
        destruct (String.eqb_spec (table_key tm) (stream_key_of s')) as [Heq|Hne].
        -- assert (ID s' = ID s) as -> by (rewrite !HRids by done; congruence).
           assert (s' = s) as ->.
           { apply list_elem_of_lookup in Hs' as [i Hi], Hs as [j Hj].
             assert (i = j) as ->; [|by simplify_eq]. eapply NoDup_lookup; [exact HRkeys|by rewrite list_lookup_fmap, Hi|]. rewrite list_lookup_fmap, Hj. cbn. congruence. }
           rewrite pushed_same, fmap_app, Hd, <- Hv. unfold event_images. by rewrite Eop.
        -- rewrite pushed_other, !app_nil_r; [done|]. rewrite !HRids by done. congruence.
      * intros id Hid. rewrite pushed_app, pushed_other, app_nil_r; [done|]. intros ->. by eapply Hid.
    + intros [= <- <-]. split; [done|]. apply adds_none. intros s' Hs'. unfold event_rows, event_images. cbn. rewrite Eop. by repeat case_match.
  - rewrite lookup_empty. intros [= <- <-]. split; [done|]. apply adds_none. intros s' Hs'. unfold event_rows. cbn.
    destruct (String.eqb_spec (table_key tm) (stream_key_of s')) as [Heq|]; [|done]. by destruct (Hn s' Hs').
Qed.

Lemma handle_adds c hd ev l c' l' :
  filter_of (changeFilter c) → (hd, ev) ∈ log → handle push c hd ev l = (c', l', None) →
  CurrentPos c' = next_pos (CurrentPos c) (hd, ev) ∧ ServerID c' = ServerID c ∧ initialWaitTime c' = initialWaitTime c
  ∧ filter_of (changeFilter c') ∧ adds [(hd, ev)] l l'.
Proof.
  intros Hf Hin. unfold handle_event. destruct ev as [name q|ts|tm ty rows|query|].
  - destruct (Z.ltb_spec 4294967295 q) as [Hq|_]; [pose proof (lo_rotate Hlog _ _ _ Hin); lia|]. intros [= <- <-]. by split_and!; [..|apply adds_none].
  - intros [= <- <-]. destruct (0 <? ts); (split_and!; [done..|by apply adds_none]).
  - destruct (FilterRowsEvent _ _ _ _ _ _ _ _ _ _ _ _ _ _ _) as [[f1 l1] r] eqn:Ef. intros [= <- <- ->].
    eapply rows_adds in Ef as [Hf' Ha]; [|done|done]. by split_and!.
  - intros [= <- <-]. destruct (isDDL query); (split_and!; [done..| |by apply adds_none]); [|done].
    split; [apply Hf|apply cache_empty].
  - intros [= <- <-]. by split_and!; [..|apply adds_none].
Qed.

(** ** The loop *)
Definition got_events (ticks : list tick) : list (Header * event) :=
  omap (λ t, match t_got t with Got hd ev => Some (hd, ev) | _ => None end) ticks.
(** The server sends the events of the log from position [i] on. *)
Definition serves (i : nat) (ticks : list tick) : Prop := ∃ rest, drop i log = got_events ticks ++ rest.

Lemma serves_next i t ticks hd ev : t_got t = Got hd ev → serves i (t :: ticks) → log !! i = Some (hd, ev) ∧ serves (S i) ticks.
Proof.
  intros Ht [rest Hd]. cbn in Hd. rewrite Ht in Hd. split.
  - rewrite <- (Nat.add_0_r i), <- lookup_drop, Hd. done.
  - exists rest. rewrite <- Nat.add_1_r, <- drop_drop, Hd. done.
Qed.
Lemma between_S i j e : (i ≤ j)%nat → log !! j = Some e → drop i (take (S j) log) = drop i (take j log) ++ [e].
Proof.
  intros Hij He. rewrite (take_S_r _ _ _ He), drop_app_le; [done|]. rewrite length_take. apply lookup_lt_Some in He. lia.
Qed.
Lemma between_head i j e : log !! i = Some e → (i < j)%nat → drop i (take j log) = e :: drop (S i) (take j log).
Proof. intros He Hij. apply drop_S. by rewrite lookup_take_lt. Qed.

Lemma loop_adds n ticks : (n ≤ length log)%nat → ∀ received c l i c' l' r,
  (i ≤ n)%nat → CurrentPos c = pos_at i → filter_of (changeFilter c) → serves i ticks →
  loop push (pos_at n) ticks received c l = Some (c', l', r) → (∀ st, r ≠ Ended st) →
  ∃ j, (i ≤ j ≤ n)%nat ∧ CurrentPos c' = pos_at j ∧ ServerID c' = ServerID c ∧ adds (drop i (take j log)) l l'
  ∧ (r = Reached → j = n) ∧ (r = Elapsed → 0 < initialWaitTime c ∧ ∃ t, t ∈ ticks ∧ t_elapsed t = true).
Proof.
  intros Hn. induction ticks as [|t ticks IH]; intros received c l i c' l' r Hi Hpos Hf Hserve; cbn [stream_loop]; [done|].
  assert (Hstay : adds (drop i (take i log)) l l) by (rewrite drop_ge by (rewrite length_take; lia); apply adds_nil).
  destruct (t_done t); [intros [= <- <- <-] _; exists i; split_and!; lia || done|].
  destruct (negb received && (0 <? initialWaitTime c) && t_elapsed t) eqn:Eel.
  { intros [= <- <- <-] _. bool_hyps. exists i. split_and!; try (lia || done). intros _. split; [done|]. exists t. split; [left|done]. }
  rewrite Hpos, pos_at_le by lia. case_bool_decide as Hle; [intros [= <- <- <-] _; exists i; split_and!; try (lia || done); intros; lia|].
  destruct (t_got t) as [|e|hd ev] eqn:Eg.
  - intros Hloop Hr. destruct Hserve as [rest Hs]. cbn in Hs. rewrite Eg in Hs.
    destruct (IH received c l i c' l' r Hi Hpos Hf) as (j & Hj & Hp & Hs' & Ha & Hre & Hel); [by exists rest|done|done|].
    exists j. split_and!; try (lia || done). intros H. destruct (Hel H) as (? & t' & ? & ?). split; [done|]. exists t'. split; [by right|done].
  - intros [= <- <- <-] Hr. by destruct (Hr (Stops "failed to get binlog event")).
  - destruct (serves_next _ _ _ _ _ Eg Hserve) as [Hev Hserve']. assert (Hin : (hd, ev) ∈ log) by (by eapply list_elem_of_lookup_2).
    destruct (handle push c hd ev l) as [[c1 l1] [st|]] eqn:Eh; [intros [= <- <- <-] Hr; by destruct (Hr st)|]. intros Hloop Hr.
    destruct (handle_adds _ _ _ _ _ _ Hf Hin Eh) as (Hp1 & Hs1 & Hw1 & Hf1 & Ha1).
    destruct (IH _ c1 l1 (S i) c' l' r ltac:(lia) ltac:(rewrite Hp1, Hpos; symmetry; by apply pos_at_S) Hf1 Hserve' Hloop Hr) as (j & Hj & Hp & Hs' & Ha & Hre & Hel).
    exists j. split_and!; [lia|lia|done|by rewrite Hs'| |done|].
    + rewrite (between_head i j _ Hev) by lia. exact (adds_trans event_rows R [(hd, ev)] _ _ _ _ Ha1 Ha).
    + rewrite <- Hw1. intros H. destruct (Hel H) as (? & t' & ? & ?). split; [done|]. exists t'. split; [by right|done].
Qed.

(** A server that sends everything lets the loop reach the position. *)
Definition calm (t : tick) : Prop := t_done t = false ∧ t_elapsed t = false.
Hypothesis Hhandles : ∀ c l hd ev, filter_of (changeFilter c) → (hd, ev) ∈ log → (handle push c hd ev l).2 = None.
Lemma loop_reaches n t ticks : (t ≤ n ≤ length log)%nat → ∀ received c l i last,
  (i ≤ t)%nat → CurrentPos c = pos_at i → filter_of (changeFilter c) → Forall calm (ticks ++ [last]) →
  (λ t, t_got t) <$> ticks = (λ e, Got e.1 e.2) <$> drop i (take n log) →
  ∃ c' l', loop push (pos_at t) (ticks ++ [last]) received c l = Some (c', l', Reached).
Proof.
  intros Hn. induction ticks as [|tk ticks IH]; intros received c l i last Hi Hpos Hf Hcalm Hgot; cbn [app stream_loop].
  - apply Forall_singleton in Hcalm as [-> ->]. rewrite andb_false_r, Hpos, pos_at_le by lia.
    symmetry in Hgot. apply fmap_nil_inv, (f_equal length) in Hgot. rewrite length_drop, length_take in Hgot. cbn in Hgot.
    case_bool_decide; [eauto|lia].
  - cbn [app] in Hcalm. apply Forall_cons in Hcalm as [[-> ->] Hcalm]. rewrite andb_false_r, Hpos, pos_at_le by lia.
    case_bool_decide as Hle; [eauto|]. destruct (lookup_lt_is_Some_2 log i) as [[hd ev] Hev]; [lia|].
    rewrite (between_head i n _ Hev) in Hgot by lia. rewrite !fmap_cons in Hgot. injection Hgot as Hg Hgot. rewrite Hg. cbn [fst snd].
    assert (Hin : (hd, ev) ∈ log) by (by eapply list_elem_of_lookup_2). pose proof (Hhandles c l hd ev Hf Hin) as Hok.
    destruct (handle push c hd ev l) as [[c1 l1] st] eqn:Eh. cbn in Hok. subst st.
    destruct (handle_adds _ _ _ _ _ _ Hf Hin Eh) as (Hp1 & _ & _ & Hf1 & _). eapply (IH _ _ _ (S i)); [lia| |done|done|done].
    rewrite Hp1, Hpos. symmetry. by apply pos_at_S.
Qed.
End Attempt.

(** ** The streams, their state and their metadata *)
Context (streams : list ConfiguredStream) (base : ConfiguredStream → list (gmap string any)).
Hypothesis Hids : NoDup (ID <$> streams).
Hypothesis Hnamespaced : ∀ s, s ∈ streams → Namespace s ≠ "".
Hypothesis Hhash : collision_free (λ id, id ∈ ID <$> streams) None.

Lemma stream_id s : s ∈ streams → ID s = stream_key_of s.
Proof. intros Hs. apply Hnamespaced, String.eqb_neq in Hs. unfold ID, Stream_ID, StreamIdentifier, stream_key_of, Namespace, Name in *. by rewrite Hs. Qed.

Notation text i := (position_text (pos_at i)) (only parsing).
Definition wanted (s : ConfiguredStream) (l : list (Header * event)) : list (gmap string any) :=
  filter (λ d, keep d = true) (RetainSelectedColumns s <$> (l ≫= event_rows s)).
Definition expected (s : ConfiguredStream) (k : nat) : list (gmap string any) := wanted s (take k log).
Definition fresh (s : ConfiguredStream) (k e : nat) : list (gmap string any) := wanted s (drop k (take e log)).

Lemma expected_split s k e : (k ≤ e)%nat → expected s e = expected s k ++ fresh s k e.
Proof.
  intros Hle. unfold expected, fresh, wanted. rewrite <- filter_app, <- fmap_app, <- bind_app. do 3 f_equal.
  rewrite <- (take_drop k (take e log)) at 1. by rewrite take_take, Nat.min_l.
Qed.
Lemma fresh_none s k : fresh s k k = [].
Proof. unfold fresh. by rewrite drop_ge by (rewrite length_take; lia). Qed.

(** Metadata not ahead of position [k]: none, older than the log, or a position of it. *)
Definition behind (k : nat) (st : option state_json) : Prop :=
  match st with
  | None => True
  | Some x => ∃ p, state_position x = Some p ∧ ((∀ i, (i ≤ length log)%nat → pos_compare p (pos_at i) ≤ 0) ∨ ∃ i, (i ≤ k)%nat ∧ p = pos_at i)
  end.
Notation at_pos := (at_position "position" (λ i, position_text (pos_at i))).

Lemma at_read e st : (e ≤ length log)%nat → at_pos e st → ∃ x, st = Some x ∧ state_position x = Some (pos_at e).
Proof. intros He (f & -> & Hf). eexists. split; [done|]. cbn. rewrite Hf. apply position_read. by apply (lo_pos Hlog). Qed.
Lemma behind_not_ahead k x p : (k ≤ length log)%nat → behind k (Some x) → state_position x = Some p → pos_compare p (pos_at k) ≤ 0.
Proof.
  intros Hk (q & Hq & Hor) Hp. rewrite Hq in Hp. injection Hp as ->. destruct Hor as [Ho|(i & Hi & ->)]; [auto|].
  pose proof (lo_order Hlog i k ltac:(lia) Hk). lia.
Qed.
Lemma at_behind e k st : (e ≤ k)%nat → (k ≤ length log)%nat → at_pos e st → behind k st.
Proof. intros He Hk Hat. destruct (at_read e st ltac:(lia) Hat) as (x & -> & Hx). exists (pos_at e). split; [done|]. right. by exists e. Qed.
Lemma behind_mono k k' st : (k ≤ k')%nat → behind k st → behind k' st.
Proof. intros Hk. destruct st as [x|]; [|done]. intros (p & Hp & [Ho|(i & Hi & ->)]); eexists; (split; [exact Hp|]); [by left|right; exists i; split; [lia|done]]. Qed.

(** The state's position. *)
Definition holds (s : State) (k : nat) : Prop :=
  ∃ g id, st_Global s = Some g ∧ 0 < id < 2 ^ 32 ∧ (g_State g = global_value id (pos_at k) ∨ g_State g = json_any (global_value id (pos_at k))).

Lemma holds_saved s k : (k ≤ length log)%nat → holds s k → ∃ v id, saved_global s = Some v ∧ Unmarshal_global v = Ok (id, pos_at k) ∧ 0 < id < 2 ^ 32.
Proof.
  intros Hk (g & id & Hg & Hid & Hv). destruct (lo_pos Hlog k Hk) as [Hp _]. destruct (global_set id (pos_at k)) as [H1 H2].
  unfold saved_global. rewrite Hg. destruct Hv as [-> | ->]; rewrite ?H1, ?H2; eexists _, id; (split_and!; [done| |lia|lia]);
    [apply global_read|apply global_reread]; done || lia.
Qed.
Lemma holds_unique s k k' : (k ≤ length log)%nat → (k' ≤ length log)%nat → holds s k → holds s k' → k = k'.
Proof.
  intros Hk Hk' H1 H2. destruct (holds_saved _ _ Hk H1) as (v & id & Hs & Hu & _), (holds_saved _ _ Hk' H2) as (v' & id' & Hs' & Hu' & _).
  rewrite Hs in Hs'. injection Hs' as <-. rewrite Hu in Hu'. injection Hu' as _ Hp.
  pose proof (lo_order Hlog k k' Hk Hk'). pose proof (lo_order Hlog k' k' Hk' Hk'). rewrite Hp in *. lia.
Qed.
Lemma position_reload s k : holds s k → holds (unmarshal (marshal s)) k.
Proof.
  intros (g & id & Hg & Hid & Hv). eexists _, id. cbn. rewrite Hg. split_and!; [done|lia|lia|]. right. cbn.
  destruct Hv as [-> | ->]; [done|apply json_decoded].
Qed.
Lemma holds_set s k id : 0 < id < 2 ^ 32 → holds (SetGlobal s (global_value id (pos_at k)) []) k.
Proof.
  intros Hid. destruct (global_set id (pos_at k)) as [Hn _]. unfold SetGlobal. destruct (st_Global s) as [g|]; eexists _, id; cbn; (split_and!; [done|lia|lia|left]).
  - cbn. by destruct (global_value id (pos_at k)).
  - done.
Qed.
Lemma position_logged s k file : holds s k → LogState s file = Some (marshal s).
Proof. intros (g & id & Hg & _). unfold LogState, isZero. by rewrite Hg. Qed.

(** ** Reading the metadata *)
Notation scan := (scan_metadata pos_compare).

Lemma known_at k e st : (e ≤ length log)%nat → (k < e)%nat → at_pos e st → ¬ behind k st.
Proof.
  intros He Hke Hat Hb. destruct (at_read e st He Hat) as (x & -> & Hx). pose proof (behind_not_ahead k x _ ltac:(lia) Hb Hx).
  pose proof (lo_order Hlog e k ltac:(lia) ltac:(lia)). lia.
Qed.
Lemma scan_skips k acc id st : (k ≤ length log)%nat → behind k st → scan_one pos_compare (pos_at k) acc (id, st) = Ok acc.
Proof.
  intros Hk Hb. unfold scan_one. cbn. destruct st as [x|]; [|done]. pose proof Hb as (p & Hp & _). rewrite Hp.
  pose proof (behind_not_ahead k x p Hk Hb Hp) as Hle. by rewrite (proj2 (Z.ltb_ge _ _) Hle).
Qed.
Lemma scan_marks k e acc id st : (e ≤ length log)%nat → (k < e)%nat → at_pos e st → scan_one pos_compare (pos_at k) acc (id, st) = Ok (acc.1 ++ [id], pos_at e).
Proof.
  intros He Hlt Hat. destruct (at_read e st He Hat) as (x & -> & Hx). unfold scan_one. cbn. rewrite Hx.
  pose proof (lo_order Hlog e k ltac:(lia) ltac:(lia)). by rewrite (proj2 (Z.ltb_lt _ _)) by lia.
Qed.
Abbreviation metas_ := (metas_of MySQL streams) (only parsing).

Lemma remaining_spec fin s : (∀ id, id ∈ fin → id ∈ ID <$> streams) → s ∈ remaining_streams fin streams ↔ s ∈ streams ∧ ID s ∉ fin.
Proof.
  intros Hin. unfold remaining_streams. destruct fin as [|f fin]; [set_solver|]. rewrite list_elem_of_filter.
  split; intros [H1 H2]; (split; [|done || idtac]); try done.
  - intros Hf. by rewrite (proj2 (Exists_NewSet _ (f :: fin) (ID s) Hhash Hin ltac:(by apply list_elem_of_fmap_2)) Hf) in H1.
  - apply not_true_is_false. intros He%(Exists_NewSet _ _ _ Hhash Hin); [done|by apply list_elem_of_fmap_2].
Qed.

(** ** One attempt *)
#[local] Instance drv : ChangeDriver :=
  MySQL_changes GetCollationByID GetCollationByName cp1252 utf16be utf16le client ReformatGeoType pos_compare.
Notation changes := (mysql_StreamChanges GetCollationByID GetCollationByName cp1252 utf16be utf16le client ReformatGeoType pos_compare).
Notation status_ := (status keep "position" (λ i, position_text (pos_at i)) behind base expected).
Notation fits_ := (fits keep "position" (λ i, position_text (pos_at i)) behind base expected fresh).
Notation rows_ := (holds_rows keep base expected).
Notation to_read_ k e := (to_read keep "position" (λ i, position_text (pos_at i)) behind base expected k e streams).
Implicit Types (w : cdc_world).

(** No stream's metadata are ahead of the state. *)
Definition in_step (sk : sink) (s : State) : Prop :=
  ∀ k st x p, (k ≤ length log)%nat → holds s k → st ∈ streams → meta_state keep sk st = Some x → state_position x = Some p → pos_compare p (pos_at k) ≤ 0.
(** The initial wait does not end the reading of a recovery. *)
Definition patient (inp : mysql_input) (sk : sink) (s : State) : Prop :=
  in_wait inp ≤ 0 ∨ Forall (λ t, t_elapsed t = false) (in_ticks inp) ∨ in_step sk s.

Section Changes.
Context (push : list (string * RawRecord) → CDCChange → list (string * RawRecord) * option stop).
Hypothesis Hpush : appends push.

(** What the attempt will read: the streams and the position to stop at. *)
Lemma plan sk ulid k e n : (k ≤ e ≤ n)%nat → (n ≤ length log)%nat → (∀ s, s ∈ streams → status_ sk k e s) →
  ∃ fin rp t, scan (pos_at k) (metas_of MySQL streams sk ulid) = Ok (fin, rp) ∧ (k ≤ t ≤ n)%nat
  ∧ NoDup (stream_key_of <$> remaining_streams fin streams) ∧ (∀ s, s ∈ remaining_streams fin streams → ID s = stream_key_of s)
  ∧ to_read_ k e sk fin (remaining_streams fin streams)
  ∧ (fin = [] ∧ rp = mkPos "" 0 ∧ t = n ∨ fin ≠ [] ∧ rp = pos_at t ∧ t = e).
Proof.
  intros Hke Hn Hst.
  destruct (scan_metas keep MySQL "position" (λ i, position_text (pos_at i)) behind base expected (scan_one pos_compare (pos_at k)) (mkPos "" 0) (pos_at e) k e
    ltac:(intros; apply scan_skips; [lia|done]) ltac:(intros; apply scan_marks; [lia|done..]) ltac:(intros; apply (known_at k e); [lia|done..]) streams Hids sk ulid Hst)
    as (fin & rp & Hs & H1 & H2 & Hsub & Hread).
  assert (Hrem : ∀ s, s ∈ remaining_streams fin streams ↔ s ∈ streams ∧ ID s ∉ fin) by (intros s; by apply remaining_spec).
  exists fin, rp, (if decide (fin = []) then n else e). split_and!; [done|destruct (decide _); lia|destruct (decide _); lia|..].
  - assert (NoDup (ID <$> remaining_streams fin streams)) as Hnd.
    { unfold remaining_streams. destruct fin; [done|]. eapply sublist_NoDup; [exact Hids|]. apply fmap_sublist, sublist_filter. }
    assert (stream_key_of <$> remaining_streams fin streams = ID <$> remaining_streams fin streams) as ->; [|done].
    apply list_fmap_ext. intros i s Hi. symmetry. apply stream_id. apply (list_elem_of_lookup_2 _ i), Hrem in Hi. apply Hi.
  - intros s [Hs' _]%Hrem. by apply stream_id.
  - by apply Hread.
  - destruct (decide (fin = [])) as [He|He]; [left; auto|right; auto].
Qed.

Lemma changes_spec inp m s n k e sk ulid m' l' final done :
  m_streams m = streams → (k ≤ e ≤ n)%nat → (n ≤ length log)%nat → holds s k → (∀ s, s ∈ streams → status_ sk k e s) →
  (in_current inp = Ok (pos_at n) ∨ ∃ err, in_current inp = Err err) → serves k (in_ticks inp) → patient inp sk s →
  changes inp m s (metas_of MySQL streams sk ulid) push [] = Some (m', l', Streamed final done) →
  ∃ e' conn, (k ≤ e' ≤ n)%nat ∧ final = OneFinal (position_state (pos_at e')) ∧ m' = mkMysql streams (Some conn)
  ∧ CurrentPos conn = pos_at e' ∧ 0 < ServerID conn < 2 ^ 32
  ∧ (∀ s, s ∈ streams → status_ sk k e' s) ∧ (done = false → ∀ s, s ∈ streams → fits_ l' sk k e' s).
Proof.
  intros Hm Hke Hn Hh Hst Hcur Hserve Hpat. unfold mysql_StreamChanges.
  destruct (holds_saved s k ltac:(lia) Hh) as (v & id & -> & -> & Hid). destruct (Z.eqb_spec id 0); [lia|].
  destruct (plan sk ulid k e n Hke Hn Hst) as (fin & rp & t & -> & Ht & Hkeys & HRid & (Hleft & HF & Hrec) & Hor).
  destruct (in_prepare inp); [done|]. rewrite Hm. unfold StreamMessages.
  set (R := remaining_streams fin streams) in *. set (conn0 := mkConn (pos_at k) id (in_wait inp) (NewChangeFilter R)).
  assert (Hlatest : ∀ x, (if String.eqb (pos_Name rp) "" || (pos_Pos rp =? 0) then in_current inp else Ok rp) = Ok x → x = pos_at t).
  { destruct Hor as [(-> & -> & ->)|(_ & -> & ->)]; cbn.
    - intros x Hx. destruct Hcur as [Hc|[err Hc]]; rewrite Hc in Hx; congruence.
    - destruct (lo_pos Hlog e ltac:(lia)) as (_ & Hna%String.eqb_neq & Hpo%Z.eqb_neq). rewrite Hna, Hpo. by intros x [= ->]. }
  destruct (if _ || _ then _ else _) as [x| |]; [|done..]. rewrite (Hlatest x eq_refl). destruct (in_start inp); [|done].
  destruct (loop push (pos_at t) (in_ticks inp) false conn0 []) as [[[c l] r]|] eqn:Eloop; [|done].
  intros Hr. assert (Hend : ∀ st, r ≠ Ended st) by (intros [err|] ->; done).
  assert (Hf0 : filter_of R (changeFilter conn0)) by (split; [done|apply cache_empty]).
  destruct (loop_adds push Hpush R Hkeys HRid t (in_ticks inp) ltac:(lia) false conn0 [] k c l r ltac:(lia) eq_refl Hf0 Hserve Eloop Hend)
    as (j & Hj & Hpos & Hsid & Hadd & Hreach & Hel).
  assert (Hdone : done = match r with CtxDone => true | _ => false end) by (destruct r; cbv beta iota zeta in Hr; [injection Hr as _ _ _ <-..|by destruct (Hend r)]; done).
  assert (Hconn : ∃ e', (e' = j ∧ fin = [] ∨ e' = t ∧ fin ≠ []) ∧ final = OneFinal (position_state (pos_at e'))
    ∧ ∃ conn, m' = mkMysql streams (Some conn) ∧ CurrentPos conn = pos_at e' ∧ ServerID conn = id ∧ l' = l).
  { destruct Hor as [(-> & -> & ->)|(Hne & -> & ->)].
    - exists j. split; [by left|]. destruct r; cbv beta iota zeta in Hr; [..|by destruct (Hend r)]; injection Hr as <- <- <- _; rewrite Hpos; (split; [done|]); exists c; done.
    - exists e. split; [by right|]. destruct (lo_pos Hlog e ltac:(lia)) as (_ & Hna%String.eqb_neq & _).
      destruct r; cbv beta iota zeta in Hr; [..|by destruct (Hend r)]; rewrite Hna in Hr; injection Hr as <- <- <- _; (split; [done|]); by exists (set_pos c (pos_at e)). }
  destruct Hconn as (e' & He' & -> & conn & -> & Hcp & Hcs & ->). exists e', conn.
  assert (Hje : done = false → j = e').
  { intros Hd. destruct He' as [[-> _]|[-> Hne]]; [done|]. destruct r; [by apply Hreach| |by rewrite Hdone in Hd|by destruct (Hend r)].
    destruct (Hel eq_refl) as (Hw & tk & Htk & Hte). destruct Hor as [[? _]|(_ & _ & ->)]; [done|]. destruct (Hrec Hne) as (st & Hs' & Hlt & Hat).
    destruct Hpat as [Hp|[Hp|Hp]]; [cbn in Hw; lia|by rewrite (proj1 (Forall_forall _ _) Hp tk Htk) in Hte|].
    destruct (at_read e _ ltac:(lia) Hat) as (y & Hy & Hyp). pose proof (Hp k st y _ ltac:(lia) Hh Hs' Hy Hyp).
    pose proof (lo_order Hlog e k ltac:(lia) ltac:(lia)). lia. }
  split_and!; try done; try (by destruct He' as [[-> _]|[-> _]]; lia); try lia.
  - intros st Hs'. destruct (HF st Hs') as [Hin|(Hne & Hlt & Hat & Hro & _)]; [left; by apply Hleft|].
    destruct Hor as [[? _]|(_ & _ & ->)]; [done|]. destruct He' as [[_ ?]|[-> _]]; [done|by right].
  - intros Hd st Hs'. specialize (Hje Hd) as <-. destruct (HF st Hs') as [Hin|(Hne & Hlt & Hat & Hro & Hother)].
    + left. destruct (Hleft st Hin) as (_ & Hb & Hro). split_and!; [done..|]. rewrite (proj1 Hadd st Hin). done.
    + right. destruct Hor as [[? _]|(_ & _ & ->)]; [done|]. destruct He' as [[_ ?]|[-> _]]; [done|]. split_and!; try done.
      by rewrite (proj2 Hadd (ID st) Hother).
Qed.
End Changes.

(** ** The invariant *)
Record cinv w (n k e : nat) : Prop := {
  ci_le : (k ≤ e ≤ n)%nat;
  ci_log : (n ≤ length log)%nat;
  ci_state : holds (b_state (c_world w)) k;
  ci_file : ∃ s0, b_file (c_world w) = Some (marshal s0) ∧ holds s0 k;
  ci_streams : ∀ s, s ∈ streams → status_ (b_sink (c_world w)) k e s;
  ci_driver : m_streams (c_driver w) = streams
}.

(** What the theorem asks of the outside: the server answers truthfully, the initial wait
    does not cut a recovery short, and a writer that cannot be created is the first
    trouble of its process. *)
Record fair w (n : nat) (ai : attempt_input) : Prop := {
  fa_open : ai_open ai = None ∨ BinlogConn (c_driver w) = None;
  fa_current : in_current (ai_in ai) = Ok (pos_at n) ∨ ∃ err, in_current (ai_in ai) = Err err;
  fa_served k : (k ≤ length log)%nat → holds (b_state (c_world w)) k → serves k (in_ticks (ai_in ai));
  fa_patient : patient (ai_in ai) (b_sink (c_world w)) (b_state (c_world w))
}.
Notation attempt_ ai w := (streamChanges md5_hex MySQL ai streams w) (only parsing).

Lemma changes_driver inp m s metas push m' l' r : m_streams m = streams → changes inp m s metas push [] = Some (m', l', r) → m_streams m' = streams.
Proof.
  intros Hm. unfold mysql_StreamChanges. repeat (case_match; simplify_eq/=; try done); by intros [= <- _ _].
Qed.

(** An attempt that changes nothing but the driver. *)
Lemma cinv_driver b d d' n k e : cinv (mkCdc b d) n k e → m_streams d' = streams → cinv (mkCdc b d') n k e.
Proof. by intros [H1 H2 H3 H4 H5 H6] Hm; split. Qed.

(** The post-CDC step stores nothing once the context is done. *)
Lemma post_done ai err b (d : mysql_state) w' out n k e :
  cinv (mkCdc b d) n k e → post_cdc ai true err (mkCdc b d) = (w', out) → cinv w' n k e ∧ (out = Finished 0 → err = None ∧ BinlogConn d = None).
Proof.
  intros Hinv. unfold post_cdc. cbn. unfold mysql_PostCDC. destruct (BinlogConn d); cbn; intros [= <- <-]; (split; [done|]); by destruct err.
Qed.

(** Otherwise it stores the position of the connection. *)
Lemma post_stores ai b conn w' out n k e :
  cinv (mkCdc b (mkMysql streams (Some conn))) n k e → CurrentPos conn = pos_at e → 0 < ServerID conn < 2 ^ 32 →
  (∀ s, s ∈ streams → rows_ (b_sink b) s e) →
  post_cdc ai false None (mkCdc b (mkMysql streams (Some conn))) = (w', out) → cinv w' n e e ∧ c_driver w' = mkMysql streams (Some conn) ∧ out = Finished 0.
Proof.
  intros [Hle Hlen Hs Hf Hst Hd] Hpos Hid Hall. cbn in *. unfold post_cdc. cbn. intros [= <- <-]. split; [|done].
  assert (Hset : holds (SetGlobal (b_state b) (global_value (ServerID conn) (CurrentPos conn)) []) e) by (rewrite Hpos; by apply holds_set).
  split; cbn; try done; [lia|by eexists|].
  - intros s Hin. left. split; [|by apply Hall]. destruct (Hst s Hin) as [[Hb _]|(_ & Hat & _)]; [by apply (behind_mono k e); [lia|]|].
    apply (at_behind e e); [lia|lia|done].
Qed.

(** The closes after a successful read. *)
Lemma cleanup_cinv ai b conn n k e done l sk done' err dead :
  cinv (mkCdc b (mkMysql streams (Some conn))) n k e → (done = false → ∀ s, s ∈ streams → fits_ l (b_sink b) k e s) →
  handleWriterCleanup MySQL (ai_ulid ai) (OneFinal (position_state (pos_at e))) l
    (snd <$> range (writers_of streams)) (ai_fates ai) done None (b_sink b) = (sk, done', err, dead) →
  cinv (mkCdc (set_sink sk b) (mkMysql streams (Some conn))) n k e
  ∧ (done' = false → err = None ∧ (dead = false → ∀ s, s ∈ streams → rows_ sk s e)).
Proof.
  intros [Hle Hlen Hs Hf Hst Hd] Hfit Hc.
  destruct (cleanup_status keep MySQL "position" (λ i, position_text (pos_at i)) behind base expected fresh expected_split fresh_none streams Hids
    (ai_ulid ai) l k e done (ai_fates ai) (b_sink b) sk done' err dead ltac:(lia) Hst Hfit Hc) as [H1 H2]. by split; [split|].
Qed.

Lemma attempt_cinv w n k e ai w' out :
  cinv w n k e → fair w n ai → attempt_ ai w = Some (w', out) →
  ∃ k' e', cinv w' n k' e' ∧ (k ≤ k')%nat
  ∧ (out = Finished 0 → e' = k' ∧ ∃ conn, BinlogConn (c_driver w') = Some conn ∧ CurrentPos conn = pos_at k').
Proof.
  intros Hinv Hfair. destruct w as [b d]. unfold streamChanges.
  destruct (match ai_open ai with Some i => _ | None => false end) eqn:Eopen.
  { destruct (fa_open _ _ _ Hfair) as [Ho|Ho]; [by rewrite Ho in Eopen|]. cbn in Ho. unfold post_cdc. cbn. unfold mysql_PostCDC. rewrite Ho. cbn.
    intros [= <- <-]. exists k, e. by split_and!. }
  cbv zeta. change (map_imap _ _) with (metas_of MySQL streams (b_sink b) (ai_ulid ai)). cbn [c_world c_driver].
  destruct (StreamChanges _ _ _ _ _ _) as [[[d' l'] r]|] eqn:Ech; [|done]. pose proof Hinv as [Hle Hlen Hs Hf Hst Hd]. cbn [c_world c_driver] in *.
  assert (Hinv' : cinv (mkCdc b d') n k e) by (split; try done; exact (changes_driver _ _ _ _ _ _ _ _ Hd Ech)).
  destruct r as [final done|err|]; cbv beta iota.
  - destruct (changes_spec _ (push_change_data md5_hex ai _) _ _ _ _ _ _ _ _ _ _ _ _ Hd Hle Hlen Hs Hst (fa_current _ _ _ Hfair)
      (fa_served _ _ _ Hfair k ltac:(lia) Hs) (fa_patient _ _ _ Hfair) Ech) as (e' & conn & He' & -> & -> & Hpos & Hid & Hst' & Hfit).
    assert (Hinv1 : cinv (mkCdc b (mkMysql streams (Some conn))) n k e') by (by split).
    destruct (handleWriterCleanup _ _ _ _ _ _ _ _ _) as [[[sk done'] err'] dead] eqn:Ecl.
    destruct (cleanup_cinv _ _ _ _ _ _ _ _ _ _ _ _ Hinv1 Hfit Ecl) as [Hinv2 Hall].
    destruct (dead || ai_dies ai) eqn:Edead; [intros [= <- <-]; exists k, e'; by split_and!|]. apply orb_false_iff in Edead as [-> _].
    destruct done'; intros Hp%(inj Some).
    + destruct (post_done _ _ _ _ _ _ _ _ _ Hinv2 Hp) as [Hi Ho]. exists k, e'. split_and!; [done..|]. by intros [_ [=]]%Ho.
    + destruct (Hall eq_refl) as [-> Hrows]. destruct (post_stores _ _ _ _ _ _ _ _ Hinv2 Hpos Hid (Hrows eq_refl) Hp) as (Hi & Hdr & _).
      exists e', e'. split_and!; [done|lia|]. intros _. split; [done|]. exists conn. by rewrite Hdr.
  - destruct (handleWriterCleanup _ _ _ _ _ _ _ _ _) as [[[sk done'] err'] dead1] eqn:Ecl. apply cleanup_failed in Ecl as (-> & -> & Herr); [|by rewrite orb_true_r]. assert (set_sink (b_sink b) b = b) as -> by (by destruct b).
    destruct (dead1 || ai_dies ai); intros Hp; [injection Hp as <- <-; exists k, e; by split_and!|]. apply (inj Some) in Hp.
    destruct (post_done _ _ _ _ _ _ _ _ _ Hinv' Hp) as [Hi Ho]. exists k, e. split_and!; [done..|]. by intros [?%Herr _]%Ho.
  - intros [= <- <-]. exists k, e. by split_and!.
Qed.

(** ** Attempts without fault *)

(** Every rows event of the streams decodes, and its records have ids. *)
Record decodable : Prop := {
  dc_rows hd tm ty rows s : (hd, RowsEvent tm ty rows) ∈ log → s ∈ streams → stream_key_of s = table_key tm → is_Some (operation_of ty) →
    ∃ v, columns tm = Ok v ∧ ∀ row, row ∈ event_images ty rows → ∃ r, convert_row row v = Ok r
      ∧ is_Some (GetKeysHash md5_hex 2 r (Array (s_SourceDefinedPrimaryKey (StreamOf s))))
}.
Definition complete (k n : nat) (ticks : list tick) : Prop :=
  ∃ ts last, ticks = ts ++ [last] ∧ Forall calm ticks ∧ t_got last = Deadline ∧ (λ t, t_got t) <$> ts = (λ e, Got e.1 e.2) <$> drop k (take n log).
Record faultless w (n : nat) (ai : attempt_input) : Prop := {
  fl_open : ai_open ai = None;
  fl_push : ai_push ai = None;
  fl_fates : ai_fates ai = [];
  fl_lives : ai_dies ai = false;
  fl_prepare : in_prepare (ai_in ai) = None;
  fl_start : in_start (ai_in ai) = true;
  fl_current : in_current (ai_in ai) = Ok (pos_at n);
  fl_ticks k : (k ≤ length log)%nat → holds (b_state (c_world w)) k → complete k n (in_ticks (ai_in ai))
}.

Lemma complete_serves k n ticks : complete k n ticks → serves k ticks.
Proof.
  intros (ts & last & -> & _ & Hl & Hts). exists (drop (n - k) (drop k log)). assert (got_events (ts ++ [last]) = drop k (take n log)) as ->.
  - unfold got_events. rewrite omap_app. cbn. rewrite Hl, app_nil_r. revert Hts. generalize (drop k (take n log)). induction ts as [|t ts IH]; intros [|[hd ev] l]; try done.
    rewrite !fmap_cons. intros [= Ht Hts]. cbn. rewrite Ht. f_equal. by apply IH.
  - by rewrite skipn_firstn_comm, take_drop.
Qed.

Lemma faultless_fair w n ai : faultless w n ai → fair w n ai.
Proof.
  intros [Ho _ _ _ _ _ Hc Ht]. split; [by left|by left|intros k Hk Hh; by eapply complete_serves, Ht|].
  unfold patient, in_step. destruct (decide (Forall (λ t, t_elapsed t = false) (in_ticks (ai_in ai)))) as [?|Hn]; [by right; left|].
  right; right. intros k st x p Hk Hh. destruct Hn. destruct (Ht k Hk Hh) as (ts & last & _ & Hcalm & _). eapply Forall_impl; [exact Hcalm|]. by intros t [_ ?].
Qed.

Lemma emit_works push make v rows l :
  (∀ row, row ∈ rows → ∃ r, convert_row row v = Ok r ∧ ∀ l, (push l (make r)).2 = None) →
  (emit_rows GetCollationByID cp1252 utf16be utf16le converter push make v rows l : list (string * RawRecord) * option stop).2 = None.
Proof.
  revert l. induction rows as [|row rows IH]; intros l Hall; cbn [emit_rows]; [done|].
  destruct (Hall row ltac:(left)) as (r & -> & Hp). specialize (Hp l). destruct (push l (make r)) as [l1 st]. cbn in Hp. subst st.
  apply IH. intros row' Hr. apply Hall. by right.
Qed.

Lemma handle_works ai dedup R c l hd ev :
  decodable → ai_push ai = None → NoDup (stream_key_of <$> R) → (∀ s, s ∈ R → s ∈ streams) → filter_of R (changeFilter c) → (hd, ev) ∈ log →
  (handle (push_change md5_hex ai dedup) c hd ev l).2 = None.
Proof.
  intros Hdec Hpf Hkeys Hsub Hf Hin. unfold handle_event. destruct ev as [name q|ts|tm ty rows|query|]; try done.
  { destruct (Z.ltb_spec 4294967295 q); [pose proof (lo_rotate Hlog _ _ _ Hin); lia|done]. }
  destruct Hf as [Hst Hc]. unfold FilterRowsEvent. fold (table_key tm). cbn [changeFilter set_pos]. rewrite Hst. unfold NewChangeFilter. cbn [f_streams].
  destruct (filter_streams_fold R ∅ (table_key tm) Hkeys) as [(s & Hs & Hk & ->)|[Hn ->]]; [|by rewrite lookup_empty].
  destruct (operation_of ty) as [op|] eqn:Eop; [|done].
  destruct (resolve_cached (f_schema (changeFilter c)) _ _ _ _ Hc Hin) as [Hv _]. destruct (resolve (f_schema (changeFilter c)) tm) as [c' v]. cbn [snd] in Hv.
  destruct (dc_rows Hdec _ _ _ _ _ Hin (Hsub s Hs) Hk (mk_is_Some _ _ Eop)) as (v' & Hv' & Hrows). rewrite Hv, Hv'.
  match goal with |- context [emit_rows ?a ?b ?cc ?d ?e ?f ?g ?h ?i l] => pose proof (emit_works f g h i l) as Hemit; destruct (emit_rows a b cc d e f g h i l) as [l1 r1] end.
  cbn in Hemit |- *. apply Hemit. intros row Hr. destruct (Hrows row) as (r & Hr1 & [h Hh]); [unfold event_images; by rewrite Eop|].
  exists r. split; [done|]. intros l0. apply push_change_works; [done|by exists h].
Qed.

Lemma faultless_changes ai dedup m s n k e sk ulid :
  decodable → ai_push ai = None → m_streams m = streams → (k ≤ e ≤ n)%nat → (n ≤ length log)%nat → holds s k → (∀ s, s ∈ streams → status_ sk k e s) →
  in_prepare (ai_in ai) = None → in_start (ai_in ai) = true → in_current (ai_in ai) = Ok (pos_at n) → complete k n (in_ticks (ai_in ai)) →
  ∃ conn l, changes (ai_in ai) m s (metas_of MySQL streams sk ulid) (push_change md5_hex ai dedup) [] =
    Some (mkMysql streams (Some conn), l, Streamed (OneFinal (position_state (CurrentPos conn))) false) ∧ (k = e → CurrentPos conn = pos_at n).
Proof.
  intros Hdec Hpf Hm Hke Hn Hh Hst Hprep Hstart Hcur Hcomp. unfold mysql_StreamChanges.
  destruct (holds_saved s k ltac:(lia) Hh) as (v & id & -> & -> & Hid). destruct (Z.eqb_spec id 0); [lia|].
  destruct (plan sk ulid k e n Hke Hn Hst) as (fin & rp & t & -> & Ht & Hkeys & HRid & (Hleft & _ & Hrec) & Hor).
  rewrite Hprep, Hm. unfold StreamMessages. rewrite Hstart, Hcur.
  set (R := remaining_streams fin streams) in *. set (conn0 := mkConn (pos_at k) id (in_wait (ai_in ai)) (NewChangeFilter R)).
  assert ((if String.eqb (pos_Name rp) "" || (pos_Pos rp =? 0) then Ok (pos_at n) else Ok rp) = Ok (pos_at t)) as ->.
  { destruct Hor as [(-> & -> & ->)|(_ & -> & ->)]; [done|].
    destruct (lo_pos Hlog e ltac:(lia)) as (_ & Hna%String.eqb_neq & Hpo%Z.eqb_neq). by rewrite Hna, Hpo. }
  assert (Hf0 : filter_of R (changeFilter conn0)) by (split; [done|apply cache_empty]).
  pose proof (complete_serves _ _ _ Hcomp) as Hserve. destruct Hcomp as (ts & last & Htk & Hcalm & _ & Hgot). rewrite Htk in *.
  destruct (loop_reaches (push_change md5_hex ai dedup) (push_change_data md5_hex ai dedup) R Hkeys HRid
    (λ c l hd ev Hfo Hi, handle_works ai dedup R c l hd ev Hdec Hpf Hkeys (λ s Hs, proj1 (Hleft s Hs)) Hfo Hi)
    n t ts ltac:(lia) false conn0 [] k last ltac:(lia) eq_refl Hf0 Hcalm Hgot) as (c & l & Hloop). rewrite Hloop.
  destruct (loop_adds _ (push_change_data md5_hex ai dedup) R Hkeys HRid t (ts ++ [last]) ltac:(lia) false conn0 [] k c l Reached ltac:(lia) eq_refl Hf0 Hserve Hloop ltac:(done))
    as (j & _ & Hpos & _ & _ & Hj & _). rewrite (Hj eq_refl) in Hpos.
  eexists _, l. split; [done|]. intros ->. destruct Hor as [(-> & -> & ->)|(Hne & _)]; [done|]. destruct (Hrec Hne) as (s' & _ & ? & _). lia.
Qed.

Lemma faultless_attempt w n k e ai :
  decodable → cinv w n k e → faultless w n ai →
  ∃ w', attempt_ ai w = Some (w', Finished 0) ∧ (k = e → ∃ conn, BinlogConn (c_driver w') = Some conn ∧ CurrentPos conn = pos_at n).
Proof.
  intros Hdec [Hle Hlen Hs Hf Hst Hd] [Ho Hpf Hfa Hli Hpr Hsta Hcur Hti]. unfold streamChanges. rewrite Ho.
  cbv zeta. change (map_imap _ _) with (metas_of MySQL streams (b_sink (c_world w)) (ai_ulid ai)).
  match goal with |- context [push_change md5_hex ai ?dd] =>
    destruct (faultless_changes ai dd (c_driver w) _ n k e (b_sink (c_world w)) (ai_ulid ai) Hdec Hpf Hd Hle Hlen Hs Hst Hpr Hsta Hcur (Hti k ltac:(lia) Hs)) as (conn & l & Hch & Hpos) end.
  change (StreamChanges (ai_in ai)) with (changes (ai_in ai)). rewrite Hch, Hfa, Hli. unfold handleWriterCleanup. cbn [orb is_err].
  fold (writers_of streams).
  destruct (close_clean MySQL (ai_ulid ai) (OneFinal (position_state (CurrentPos conn))) l (snd <$> range (writers_of streams)) (b_sink (c_world w))) as [sk' ->].
  cbn. eexists. split; [done|]. intros Hk. exists conn. split; [done|by apply Hpos].
Qed.

(** ** Runs of any number of processes *)
Section Run.
Context (empty : State).

(** A new process reads the state file and has no connection yet. *)
Definition restart_cdc w : cdc_world := mkCdc (restart empty (c_world w)) (mkMysql streams None).

Inductive cstep : cdc_world * nat → cdc_world * nat → Prop :=
| cstep_logged w n n' : (n ≤ n' ≤ length log)%nat → cstep (w, n) (w, n')
| cstep_attempt w n ai w' out :
    fair w n ai → attempt_ ai w = Some (w', out) → cstep (w, n) (match out with Died => restart_cdc w' | _ => w' end, n)
| cstep_killed w n : cstep (w, n) (restart_cdc w, n).

(** A stored position, and streams whose metadata are none or older. *)
Record cdc_start w (n : nat) : Prop := {
  cs_log : (n ≤ length log)%nat;
  cs_state : holds (b_state (c_world w)) 0;
  cs_file : b_file (c_world w) = Some (marshal (b_state (c_world w)));
  cs_driver : m_streams (c_driver w) = streams;
  cs_metadata s : s ∈ streams → behind 0 (meta_state keep (b_sink (c_world w)) s);
  cs_tables s : s ∈ streams → delivered (b_sink (c_world w)) (ID s) = base s
}.

Lemma start_cinv w n : cdc_start w n → cinv w n 0 0.
Proof.
  intros [Hn Hs Hf Hd Hm Ht]. split; [lia|done|done|by eexists| |done]. intros s Hin. left. split; [by apply Hm|].
  unfold holds_rows. rewrite Ht by done. cbn. by rewrite app_nil_r.
Qed.
Lemma restart_cinv w n k e : cinv w n k e → cinv (restart_cdc w) n k e.
Proof.
  intros [Hle Hlen Hs (s0 & Hf & Hs0) Hst Hd]. split; cbn; try done; [|by exists s0]. unfold restart. rewrite Hf. cbn. by apply position_reload.
Qed.
Lemma step_cinv w n k e wn' : cinv w n k e → cstep (w, n) wn' → ∃ k' e', cinv wn'.1 wn'.2 k' e'.
Proof.
  intros Hinv Hstep. inversion Hstep as [w1 n1 n' Hn|w1 n1 ai w' out Hfa Ha|w1 n1]; subst.
  - exists k, e. destruct Hinv. split; try done; cbn; lia.
  - destruct (attempt_cinv _ _ _ _ _ _ _ Hinv Hfa Ha) as (k' & e' & Hi & _). exists k', e'. destruct out; [done..|by apply restart_cinv].
  - exists k, e. by apply restart_cinv.
Qed.
Lemma reachable_cinv w n wn : cdc_start w n → rtc cstep (w, n) wn → ∃ k e, cinv wn.1 wn.2 k e.
Proof.
  intros Hf Hr. assert (∃ k e, cinv (w, n).1 (w, n).2 k e) as Hi by (eauto using start_cinv). clear Hf.
  induction Hr as [|[w0 n0] wn1 wn2 Hstep _ IH]; [done|]. destruct Hi as (k & e & Hi). apply IH. by eapply step_cinv.
Qed.

Lemma pos_inj i j : (i ≤ length log)%nat → (j ≤ length log)%nat → pos_at i = pos_at j → i = j.
Proof. intros Hi Hj Heq. pose proof (lo_order Hlog i j Hi Hj). pose proof (lo_order Hlog j j Hj Hj). rewrite Heq in *. lia. Qed.

End Run.
End Facts.

(** ** Witness: two tables, one row each; the first process commits one of them and dies *)
Section Witness.
#[local] Existing Instances mc_hash mc_chunk_hash mc_range mc_env mc_json mc_sink mc_cursor_sink mc_stream_sink.

#[local] Instance mc_codec : MySQLCodec.
Proof.
  refine {| global_value id p := AArray [AInt KUint32 id; AString (pos_Name p); AInt KUint32 (pos_Pos p)];
            Unmarshal_global v := match v with AArray [AInt _ id; AString name; AInt _ pos] => Ok (id, mkPos name pos) | _ => Err "invalid" end;
            position_text p := ones (Z.to_nat (pos_Pos p)) (pos_Name p);
            position_of t := (λ r, mkPos r.2 (Z.of_nat r.1)) <$> read_ones t |}.
  - done.
  - by intros id [name pos] _ _.
  - by intros id [name pos] _ _.
  - intros [name pos] [_ Hpos]. rewrite read_ones_ones. cbn in *. do 2 f_equal. lia.
Defined.

Definition inserted (table : string) (id : Z) : event :=
  RowsEvent (mkTableMap "db" table [T_LONGLONG] [0] ["id"] [] [] ∅ ∅ (λ _, false) (λ _, false)) WRITE_ROWS_EVENT [[AInt KInt64 id]].
Definition shop_log : list (Header * event) := [(mkHeader 10 0, inserted "orders" 1); (mkHeader 20 0, inserted "users" 2)].
Definition shop_start : Position := mkPos "bin.1" 4.
Definition by_offset (p q : Position) : Z := pos_Pos p - pos_Pos q.
Notation decoded f := (f (λ _, None) (λ _, None) (λ b, b) (λ b, Ok (string_of b)) (λ b, Ok (string_of b)) None (λ _, Err "geometry")) (only parsing).
#[local] Instance shop_driver : ChangeDriver := decoded MySQL_changes by_offset.

Definition shop_ticks (e : list (Header * event)) (last : got) : list tick :=
  ((λ x, mkTick false false (Got x.1 x.2)) <$> e) ++ [mkTick false false last].
Definition shop_attempt (wait : Z) (open : option nat) (ticks : list tick) (fates : list close_fate) : attempt_input :=
  mkAttempt open (mkInput None wait (Ok (mkPos "bin.1" 20)) true ticks) None (λ _, epoch) (λ id, id) fates false.
Definition shop_world : cdc_world :=
  let s := SetGlobal (empty_state GlobalType) (global_value 1000 shop_start) [] in
  mkCdc (mkBackfill s (Some (marshal s)) ∅ []) (mkMysql shop None).
Definition run_shop (ai : attempt_input) (w : cdc_world) : cdc_world :=
  match streamChanges (λ s, s) MySQL ai shop w with Some (w, _) => w | None => w end.
Definition half_committed : cdc_world :=
  restart_cdc (λ _, None) (λ _, None) (λ b, b) (λ b, Ok (string_of b)) (λ b, Ok (string_of b)) None (λ _, Err "geometry") by_offset shop (empty_state GlobalType)
    (run_shop (shop_attempt 0 None (shop_ticks shop_log Deadline) [Closes; CloseErr false]) shop_world).
Definition rows_in (w : cdc_world) (id : string) : list (gmap string any) := (table_of (b_sink (c_world w)) id).1.

(** What [fair] leaves out: an attempt fails while reading; the retry in the same process
    cannot create a writer, and its post-CDC step stores the position the failed attempt
    had reached.  The first row is never delivered. *)
Lemma open_failure_loses_changes :
  let w1 := run_shop (shop_attempt 0 None (shop_ticks (take 1 shop_log) (GetFailed "")) []) shop_world in
  let w2 := run_shop (shop_attempt 0 (Some 0%nat) [] []) w1 in
  let w3 := run_shop (shop_attempt 0 None (shop_ticks (drop 1 shop_log) Deadline) []) w2 in
  rows_in w3 "db.orders" = [] ∧ rows_in w3 "db.users" = [{["id" := AInt KInt64 2]}]
  ∧ saved_global (b_state (c_world w3)) = Some (global_value 1000 (mkPos "bin.1" 20)).
Proof. vm_compute. split_and!; reflexivity. Qed.

(** And a recovery whose initial wait passes before the first event arrives counts as
    complete: the row of the other stream is never delivered. *)
Lemma recovery_wait_loses_changes :
  let w := run_shop (shop_attempt 1 None [mkTick false true Deadline] []) half_committed in
  rows_in w "db.orders" = [{["id" := AInt KInt64 1]}] ∧ rows_in w "db.users" = []
  ∧ saved_global (b_state (c_world w)) = Some (global_value 1000 (mkPos "bin.1" 20)).
Proof. vm_compute. split_and!; reflexivity. Qed.

Notation shop_pos := (pos_at shop_log shop_start).
Lemma shop_log_ok : log_ok by_offset shop_log shop_start.
Proof.
  split.
  - intros hd name q Hin. exfalso. revert Hin. unfold shop_log. rewrite !elem_of_cons, elem_of_nil. naive_solver.
  - intros i Hi. assert (i = 0 ∨ i = 1 ∨ i = 2)%nat as [->|[->| ->]] by (cbn in Hi; lia); (split_and!; [split; [reflexivity|split; cbn; lia]|discriminate|discriminate]).
  - intros i j Hi Hj. assert (i = 0 ∨ i = 1 ∨ i = 2)%nat as [->|[->| ->]] by (cbn in Hi; lia);
      (assert (j = 0 ∨ j = 1 ∨ j = 2)%nat as [->|[->| ->]] by (cbn in Hj; lia); reflexivity).
  - intros hd hd' tm tm' ty ty' rows rows' Hin Hin'. revert Hin Hin'. unfold shop_log, inserted. rewrite !elem_of_cons, !elem_of_nil.
    intros [[= _ -> _ _]|[[= _ -> _ _]|[]]] [[= _ -> _ _]|[[= _ -> _ _]|[]]]; cbn; try done; discriminate.
Qed.
Notation shop_holds := (holds shop_log shop_start).
Notation shop_faultless := (faultless (λ _, None) (λ _, None) (λ b, b) (λ b, Ok (string_of b)) (λ b, Ok (string_of b)) None (λ _, Err "geometry") by_offset shop_log shop_start).
Notation shop_fair := (fair (λ _, true) (λ _, None) (λ _, None) (λ b, b) (λ b, Ok (string_of b)) (λ b, Ok (string_of b)) None (λ _, Err "geometry") by_offset shop_log shop_start shop).
Notation shop_step := (cstep (λ _, true) (λ s, s) (λ _, None) (λ _, None) (λ b, b) (λ b, Ok (string_of b)) (λ b, Ok (string_of b)) None (λ _, Err "geometry") by_offset shop_log shop_start shop (empty_state GlobalType)).

(** An attempt whose server sends the log from position [i] on. *)
Definition calm_attempt (i : nat) : attempt_input := shop_attempt 0 None (shop_ticks (drop i shop_log) Deadline) [].
Lemma calm_faultless w i : (i ≤ 2)%nat → shop_holds (b_state (c_world w)) i → shop_faultless w 2 (calm_attempt i).
Proof.
  intros Hi Hh. split; try reflexivity. intros k Hk Hh'. assert (k = i) as -> by (eapply (holds_unique _ _ _ shop_log_ok); eauto).
  exists ((λ x, mkTick false false (Got x.1 x.2)) <$> drop i shop_log), (mkTick false false Deadline). split_and!; [done| |done|].
  - apply Forall_app. split; [|by repeat constructor]. by apply Forall_fmap, Forall_forall.
  - rewrite <- list_fmap_compose. done.
Qed.
Lemma run_outcome ai w out : snd <$> streamChanges (λ s, s) MySQL ai shop w = Some out → streamChanges (λ s, s) MySQL ai shop w = Some (run_shop ai w, out).
Proof. unfold run_shop. destruct (streamChanges _ _ _ _ _) as [[w' out']|]; [|done]. by intros [= <-]. Qed.
Lemma shop_reached : rtc shop_step (shop_world, 2%nat) (half_committed, 2%nat).
Proof.
  set (ai := shop_attempt 0 None (shop_ticks shop_log Deadline) [Closes; CloseErr false]).
  eapply rtc_l; [|eapply rtc_l; [apply (cstep_killed _ _ _ _ _ _ _ _ _ _ _ _ _ _ (run_shop ai shop_world))|apply rtc_refl]].
  apply (cstep_attempt _ _ _ _ _ _ _ _ _ _ _ _ _ _ shop_world 2 ai (run_shop ai shop_world) (Failed_with "failed to close writer: post cdc error: context canceled")).
  - split; [by left|by left| |by left]. intros k Hk Hh. assert (shop_holds (b_state (c_world shop_world)) 0) as H0.
    { eexists _, 1000. split; [reflexivity|]. split; [lia|by left]. }
    assert (k = 0)%nat as -> by (eapply (holds_unique _ _ _ shop_log_ok); eauto; cbn; lia). by exists [].
  - apply run_outcome. vm_compute. reflexivity.
Qed.

End Witness.
