(* ===== verification/Waljs.v ===== *)
(** * pkg/waljs: PostgreSQL logical replication

    A replication slot sends the transactions committed after its confirmed position, in
    commit order: message by message ([pgoutput]) or one JSON document each ([wal2json]).
    Both readers follow the position of the messages ([ClientXLogPos]) until it reaches a
    target, and the slot moves when that position is acknowledged.  The protocol library
    (messages as parsed values, LSN texts) and the server are parameters. *)

From S2P Require Import Prelude GoString GoSet DataTypes QueryEngine Value Schema Stream Catalog State TwoPC Fields Writers Utils Backfill Incremental Jdbc Chunking Binlog.

(** [pglogrepl.LSN]: a 64-bit position and its text. *)
Class LsnCodec := {
  ParseLSN : string → option Z;
  LSN_String : Z → string;
  lsn_read l : 0 ≤ l < 2 ^ 64 → ParseLSN (LSN_String l) = Some l;
  lsn_nonempty l : LSN_String l ≠ ""
}.

(** ** pgoutput messages *)
Inductive pg_oid :=
| BoolOID | ByteaOID | Int8OID | Int2OID | Int4OID | TextOID | UUIDOID | JSONOID | Float4OID | Float8OID
| BoolArrayOID | Int2ArrayOID | Int4ArrayOID | TextArrayOID | ByteaArrayOID | Int8ArrayOID | Float4ArrayOID | Float8ArrayOID
| BPCharOID | VarcharOID | DateOID | TimeOID | TimestampOID | TimestampArrayOID | DateArrayOID | TimestamptzOID | TimestamptzArrayOID
| IntervalOID | NumericArrayOID | BitOID | VarbitOID | NumericOID | UUIDArrayOID | JSONBOID | JSONBArrayOID | UnknownOID (oid : Z).

Record RelationColumn := mkRelColumn { rc_Name : string; rc_DataType : pg_oid }.
Record RelationMessage := mkRelation { RelationID : Z; rel_Namespace : string; RelationName : string; rel_Columns : list RelationColumn }.
(** A column of a tuple: whether it is an unchanged TOAST value, and its text unless nil. *)
Record TupleColumn := mkTupleColumn { tc_Toast : bool; tc_Data : option string }.
Abbreviation TupleData := (list TupleColumn) (only parsing).

Inductive logical_message :=
| RelationMsg (rel : RelationMessage)
| BeginMsg (CommitTime : gotime)
| InsertMsg (relationID : Z) (Tuple : option TupleData)
| UpdateMsg (relationID : Z) (OldTuple NewTuple : option TupleData)
| DeleteMsg (relationID : Z) (OldTuple : option TupleData)
| CommitMsg
| OtherMsg.

(** ** bytes.go *)
Definition trim_zeros (l : list Z) : list Z := drop_while (Z.eqb 48) l.
Definition NumericBinaryBytes (s : string) : Z :=
  match s with
  | "" => 3
  | String c rest =>
      let s := if Ascii.eqb c "+" || Ascii.eqb c "-" then rest else s in
      let sl := ToLower s in
      if String.eqb sl "nan" || String.eqb sl "infinity" || String.eqb sl "inf" then 3
      else
        let '(intPart, fracPart) := default (s, "") (Cut "." s) in
        let intPart := trim_zeros (bytes_of intPart) in
        let fracPart := trim_zeros (reverse (bytes_of fracPart)) in
        let intDigits := Z.quot (Z.of_nat (length intPart) + 3) 4 in
        let fracDigits := Z.quot (Z.of_nat (length fracPart) + 3) 4 in
        3 + 2 * (intDigits + fracDigits)
  end.

Definition oidStorageBytes (oid : pg_oid) (data : string) : Z :=
  match oid with
  | Int2OID => 2
  | Int4OID | Float4OID | DateOID => 4
  | Int8OID | Float8OID | TimeOID | TimestampOID | TimestamptzOID => 8
  | BoolOID => 1
  | UUIDOID => 16
  | NumericOID => NumericBinaryBytes data
  | _ => Z.of_nat (String.length data)
  end.

(** ** pgoutput.go: types and tuples *)
Definition oidToTypeName (oid : pg_oid) : option string :=
  match oid with
  | BoolOID => Some "bool" | ByteaOID => Some "bytea" | Int8OID => Some "int8" | Int2OID => Some "int2" | Int4OID => Some "int4"
  | TextOID => Some "text" | UUIDOID => Some "uuid" | JSONOID => Some "json" | Float4OID => Some "float4" | Float8OID => Some "float8"
  | BoolArrayOID => Some "bool[]" | Int2ArrayOID => Some "int2[]" | Int4ArrayOID => Some "int4[]" | TextArrayOID => Some "text[]"
  | ByteaArrayOID => Some "bytea[]" | Int8ArrayOID => Some "int8[]" | Float4ArrayOID => Some "float4[]" | Float8ArrayOID => Some "float8[]"
  | BPCharOID => Some "bpchar" | VarcharOID => Some "varchar" | DateOID => Some "date" | TimeOID => Some "time"
  | TimestampOID => Some "timestamp" | TimestampArrayOID => Some "timestamp[]" | DateArrayOID => Some "date[]"
  | TimestamptzOID => Some "timestamptz" | TimestamptzArrayOID => Some "timestamptz[]" | IntervalOID => Some "interval"
  | NumericArrayOID => Some "numeric[]" | BitOID => Some "bit" | VarbitOID => Some "varbit" | NumericOID => Some "numeric"
  | UUIDArrayOID => Some "uuid[]" | JSONBOID => Some "jsonb" | JSONBArrayOID => Some "jsonb[]" | UnknownOID _ => None
  end.
Definition oidToString (oid : pg_oid) : string := default "json" (oidToTypeName oid).
Definition olakeUnavailableValue : string := "__olake_unavailable_value__".
Definition CDCLSN : string := "_cdc_lsn".

(** ** replicator.go *)

(** [conn_open]: the connection, closed by [Cleanup]. *)
Record Socket := mkSocket {
  conn_open : bool;
  ClientXLogPos : Z;
  tables : gmap string ConfiguredStream;
  ConfirmedFlushLSN : Z;
  CurrentWalPosition : Z;
  s_initialWaitTime : Z
}.
Definition set_xlog (s : Socket) (lsn : Z) : Socket := mkSocket (conn_open s) lsn (tables s) (ConfirmedFlushLSN s) (CurrentWalPosition s) (s_initialWaitTime s).
Definition Cleanup (s : Socket) : Socket := mkSocket false (ClientXLogPos s) (tables s) (ConfirmedFlushLSN s) (CurrentWalPosition s) (s_initialWaitTime s).

Record pgoutputReplicator := mkPgoutput {
  pg_socket : Socket;
  txnCommitTime : gotime;
  relationIDToMsgMap : gmap Z RelationMessage;
  transactionCompleted : bool
}.
Inductive Replicator := PgoutputReplicator (p : pgoutputReplicator) | Wal2jsonReplicator (socket : Socket).
Definition socket_of (r : Replicator) : Socket := match r with PgoutputReplicator p => pg_socket p | Wal2jsonReplicator s => s end.
Definition with_socket (r : Replicator) (s : Socket) : Replicator :=
  match r with
  | PgoutputReplicator p => PgoutputReplicator (mkPgoutput s (txnCommitTime p) (relationIDToMsgMap p) (transactionCompleted p))
  | Wal2jsonReplicator _ => Wal2jsonReplicator s
  end.

Record ReplicationSlot := mkSlot { SlotType : string; Plugin : string; slot_LSN : Z; CurrentLSN : Z }.

(** [xlogpos]: the answer of the server to the connection and [IdentifySystem]. *)
Definition NewReplicator (xlogpos : result Z) (filter : gmap string ConfiguredStream) (wait : Z) (slot : ReplicationSlot) (recoveryLSN : option Z) : result Replicator :=
  sysident ← xlogpos;
  let targetWalPos := default sysident recoveryLSN in
  let socket := mkSocket true (slot_LSN slot) filter (slot_LSN slot) targetWalPos wait in
  Ok (if String.eqb (ToLower (TrimSpace (Plugin slot))) "pgoutput"
      then PgoutputReplicator (mkPgoutput socket zero_time ∅ false)
      else Wal2jsonReplicator socket).

(** A real acknowledgement: the update is sent, then the slot is polled until it shows the
    position.  A poll sees the old or the new position; an update the polls never saw may
    still take effect.  The result is the slot and the error. *)
Inductive poll := PollTimeout | PollErr (e : string) | Polled (applied : bool).
Record ack_input := mkAck { ack_sent : bool; ack_polls : list poll; ack_late : bool }.
Fixpoint await_slot (polls : list poll) (late : bool) (slot walPosition : Z) : Z * option string :=
  let left_at := if late then walPosition else slot in
  match polls with
  | [] | PollTimeout :: _ => (left_at, Some (ErrNonRetryable +:+ ": LSN not updated after 5 minutes"))
  | PollErr e :: _ => (left_at, Some ("failed to get slot position: " +:+ e))
  | Polled applied :: polls =>
      if (if applied then walPosition else slot) =? walPosition then (walPosition, None) else await_slot polls late slot walPosition
  end.
Definition AcknowledgeLSN (a : ack_input) (socket : Socket) (slot : Z) : Z * option string :=
  if conn_open socket && ack_sent a then await_slot (ack_polls a) (ack_late a) slot (ClientXLogPos socket)
  else (slot, Some "failed to send standby status message").

(** [pg_replication_slot_advance] clamps to the flushed position; the loop repeats it.  The
    list holds the answers within the timeout. *)
Fixpoint advance_loop (answers : list (result Z)) (target slot : Z) : Z * result Z :=
  match answers with
  | [] => (slot, Err "slot advance could not reach target")
  | Ok endLSN :: answers => if target <=? endLSN then (endLSN, Ok endLSN) else advance_loop answers target endLSN
  | _ => (slot, Err "failed to advance replication slot")
  end.
Definition AdvanceLSN `{LsnCodec} (answers : list (result Z)) (currentWalPos : string) (slot : Z) : Z * result Z :=
  match ParseLSN currentWalPos with
  | None => (slot, Err "failed to parse advance target lsn")
  | Some target => advance_loop answers target slot
  end.

(** ** filter.go *)
Section Waljs.
Context `{GoHash string} `{GoRange} `{GoEnv} `{LsnCodec}.
Context (converter : any → string → result any).

Definition NewTableFilter (streams : list ConfiguredStream) : gmap string ConfiguredStream := foldl (λ m s, <[ID s := s]> m) ∅ streams.

Definition convert_or_nil (v : any) (typ : string) : result any :=
  match converter v typ with Err e => if String.eqb e ErrNullValue then Ok ANil else Err e | r => r end.

(** *** wal2json: one document per transaction *)
Record wal_change := mkWalChange {
  wc_Kind : string; wc_Schema : string; wc_Table : string;
  Columnnames : list string; Columntypes : list string; Columnvalues : list any;
  Keynames : list string; Keytypes : list string; Keyvalues : list any
}.
Record WALMessage := mkWalMessage { NextLSN : string; wm_Timestamp : gotime; wm_Change : list wal_change }.

Definition changes_column (types names : list string) (it : nat * gmap string any) (val : any) : result (nat * gmap string any) :=
  let '(i, data) := it in
  match types !! i with
  | None => Panic "index out of range"
  | Some colType =>
      conv ← convert_or_nil val colType;
      match names !! i with None => Panic "index out of range" | Some name => Ok (S i, <[name := conv]> data) end
  end.
Definition buildChangesMap (values : list any) (types names : list string) : result (gmap string any) :=
  snd <$> foldM (changes_column types names) (0%nat, ∅) values.

Fixpoint filter_changes {St} (filter : gmap string ConfiguredStream) (msg : WALMessage) (OnFiltered : St → CDCChange → St * option stop)
    (changes : list wal_change) (rowsCount : Z) (s : St) : St * Z * option stop :=
  match changes with
  | [] => (s, rowsCount, None)
  | ch :: changes =>
      match filter !! StreamIdentifier (wc_Table ch) (wc_Schema ch) with
      | None => filter_changes filter msg OnFiltered changes rowsCount s
      | Some stream =>
          let rowsCount := rowsCount + 1 in
          match (if String.eqb (wc_Kind ch) "delete" then buildChangesMap (Keyvalues ch) (Keytypes ch) (Keynames ch)
                 else buildChangesMap (Columnvalues ch) (Columntypes ch) (Columnnames ch)) with
          | Err e => (s, rowsCount, Some (Stops ("failed to convert change data: " +:+ e)))
          | Panic _ => (s, rowsCount, Some Gone)
          | Ok changesMap =>
              match OnFiltered s (mkChange stream (wm_Timestamp msg) (wc_Kind ch) changesMap {[CDCLSN := AString (NextLSN msg)]}) with
              | (s, Some r) => (s, rowsCount, Some r)
              | (s, None) => filter_changes filter msg OnFiltered changes rowsCount s
              end
          end
      end
  end.
Definition FilterWalJsChange {St} (filter : gmap string ConfiguredStream) (change : option WALMessage) (OnFiltered : St → CDCChange → St * option stop) (s : St)
    : St * (Z * Z + stop) :=
  match change with
  | None => (s, inr (Stops "failed to parse change received from wal logs"))
  | Some msg =>
      match ParseLSN (NextLSN msg) with
      | None => (s, inr (Stops "failed to parse received lsn"))
      | Some nextLSN =>
          match filter_changes filter msg OnFiltered (wm_Change msg) 0 s with
          | (s, rows, None) => (s, inl (nextLSN, rows))
          | (s, _, Some r) => (s, inr r)
          end
      end
  end.

(** ** pgoutput.go: changes *)
Definition tuple_column (rel : RelationMessage) (oldTuple : option TupleData) (it : nat * gmap string any * Z) (col : TupleColumn)
    : result (nat * gmap string any * Z) :=
  let '(idx, data, rowBytes) := it in
  match rel_Columns rel !! idx with
  | None => Ok (S idx, data, rowBytes)
  | Some rc =>
      let rowBytes := match tc_Data col with Some d => wrap_s 64 (rowBytes + oidStorageBytes (rc_DataType rc) d) | None => rowBytes end in
      let isUnchangedToast := tc_Toast col in
      let col := if isUnchangedToast then default col (oldTuple ≫= (.!! idx)) else col in
      match tc_Data col with
      | None => Ok (S idx, <[rc_Name rc := Ternary isUnchangedToast (AString olakeUnavailableValue) ANil]> data, rowBytes)
      | Some d => val ← convert_or_nil (AString d) (oidToString (rc_DataType rc)); Ok (S idx, <[rc_Name rc := val]> data, rowBytes)
      end
  end.
Definition tupleValuesToMap (rel : RelationMessage) (tuple oldTuple : option TupleData) : result (gmap string any * Z) :=
  match tuple with
  | None => Ok (∅, 0)
  | Some columns => '(_, data, rowBytes) ← foldM (tuple_column rel oldTuple) (0%nat, ∅, 0) columns; Ok (data, rowBytes)
  end.

(** [emitInsert], [emitUpdate] and [emitDelete] differ in the tuples and the kind. *)
Definition emit {St} (p : pgoutputReplicator) (relationID : Z) (kind : string) (tuple oldTuple : option TupleData)
    (insertFn : St → CDCChange → St * option stop) (s : St) : St * option stop :=
  match relationIDToMsgMap p !! relationID with
  | None => (s, Some (Stops "unknown relation id"))
  | Some rel =>
      match tables (pg_socket p) !! (rel_Namespace rel +:+ "." +:+ RelationName rel) with
      | None => (s, None)
      | Some stream =>
          match tupleValuesToMap rel tuple oldTuple with
          | Err e => (s, Some (Stops e))
          | Panic _ => (s, Some Gone)
          | Ok (values, _) => insertFn s (mkChange stream (txnCommitTime p) kind values {[CDCLSN := AString (LSN_String (ClientXLogPos (pg_socket p)))]})
          end
      end
  end.
Definition emitInsert {St} (p : pgoutputReplicator) (relationID : Z) (tuple : option TupleData) (insertFn : St → CDCChange → St * option stop) (s : St) :=
  emit p relationID "insert" tuple None insertFn s.
Definition emitUpdate {St} (p : pgoutputReplicator) (relationID : Z) (old new : option TupleData) (insertFn : St → CDCChange → St * option stop) (s : St) :=
  emit p relationID "update" new old insertFn s.
Definition emitDelete {St} (p : pgoutputReplicator) (relationID : Z) (old : option TupleData) (insertFn : St → CDCChange → St * option stop) (s : St) :=
  emit p relationID "delete" old None insertFn s.

Definition processPgoutputWAL {St} (p : pgoutputReplicator) (walData : option logical_message) (insertFn : St → CDCChange → St * option stop) (s : St)
    : pgoutputReplicator * St * option stop :=
  let emitted r := let '(s, st) := r in (p, s, st) in
  match walData with
  | None => (p, s, Some (Stops "failed to parse WAL data"))
  | Some msg =>
      match msg with
      | RelationMsg rel => (mkPgoutput (pg_socket p) (txnCommitTime p) (<[RelationID rel := rel]> (relationIDToMsgMap p)) (transactionCompleted p), s, None)
      | BeginMsg t => (mkPgoutput (pg_socket p) t (relationIDToMsgMap p) false, s, None)
      | InsertMsg id tuple => emitted (emitInsert p id tuple insertFn s)
      | UpdateMsg id old new => emitted (emitUpdate p id old new insertFn s)
      | DeleteMsg id old => emitted (emitDelete p id old insertFn s)
      | CommitMsg => (mkPgoutput (pg_socket p) (txnCommitTime p) (relationIDToMsgMap p) true, s, None)
      | OtherMsg => (p, s, None)
      end
  end.

(** ** The read loops

    One turn: is the context done, has the initial wait passed since the start, and what
    the connection delivers.  [fakeack]: whether the reply to a keepalive can be sent; it
    repeats the confirmed position and leaves the slot where it is. *)
Inductive copy_data :=
| XLogData (WALStart : Z) (walData : option logical_message) (document : option WALMessage)
| Keepalive (ServerWALEnd : Z) (ReplyRequested : bool)
| BadCopy (e : string)
| UnhandledCopy.
Inductive received := RecvDeadline | RecvCanceled | RecvEOF | RecvErr (e : string) | RecvOther | Recv (c : copy_data).
Record wal_tick := mkWalTick { w_done : bool; w_elapsed : bool; w_recv : received; w_fakeack : bool }.

Inductive wal_end := WalReached | WalClosed | WalCtxDone | WalEnded (r : stop).

Definition wait_error : string := ErrNonRetryable +:+ ", try increasing it or do full load".
Definition move (p : pgoutputReplicator) (lsn : Z) : pgoutputReplicator :=
  mkPgoutput (set_xlog (pg_socket p) lsn) (txnCommitTime p) (relationIDToMsgMap p) (transactionCompleted p).

Fixpoint pgoutput_loop {St} (insertFn : St → CDCChange → St * option stop) (ticks : list wal_tick) (messageReceived : bool)
    (p : pgoutputReplicator) (s : St) : option (pgoutputReplicator * St * wal_end) :=
  match ticks with
  | [] => None
  | t :: ticks =>
      if w_done t then Some (p, s, WalCtxDone)
      else if negb messageReceived && (0 <? s_initialWaitTime (pg_socket p)) && w_elapsed t then Some (p, s, WalEnded (Stops wait_error))
      else if transactionCompleted p && (CurrentWalPosition (pg_socket p) <=? ClientXLogPos (pg_socket p)) then Some (p, s, WalReached)
      else match w_recv t with
           | RecvDeadline => Some (p, s, WalEnded (Stops (ErrNonRetryable +:+ ": no records found in given initial wait time")))
           | RecvCanceled => Some (p, s, WalCtxDone)
           | RecvEOF => Some (p, s, WalClosed)
           | RecvErr e => Some (p, s, WalEnded (Stops e))
           | RecvOther => Some (p, s, WalEnded (Stops "pgoutput unexpected message type"))
           | Recv (XLogData lsn walData _) =>
               match processPgoutputWAL (move p lsn) walData insertFn s with
               | (p, s, Some r) => Some (p, s, WalEnded r)
               | (p, s, None) => pgoutput_loop insertFn ticks true p s
               end
           | Recv (Keepalive lsn reply) =>
               let p := move p lsn in
               if reply && negb (w_fakeack t) then Some (p, s, WalEnded (Stops "failed to send standby status update"))
               else pgoutput_loop insertFn ticks messageReceived p s
           | Recv (BadCopy e) => Some (p, s, WalEnded (Stops e))
           | Recv UnhandledCopy => pgoutput_loop insertFn ticks messageReceived p s
           end
  end.

(** [start]: whether [StartReplication] works. *)
Definition pgoutput_StreamChanges {St} (insertFn : St → CDCChange → St * option stop) (start : bool) (ticks : list wal_tick) (p : pgoutputReplicator) (s : St)
    : option (pgoutputReplicator * St * wal_end) :=
  if start then pgoutput_loop insertFn ticks false (mkPgoutput (pg_socket p) (txnCommitTime p) (relationIDToMsgMap p) true) s
  else Some (p, s, WalEnded (Stops "failed to start replication")).

Fixpoint wal2json_loop {St} (callback : St → CDCChange → St * option stop) (ticks : list wal_tick) (messageReceived : bool)
    (w : Socket) (s : St) : option (Socket * St * wal_end) :=
  match ticks with
  | [] => None
  | t :: ticks =>
      if w_done t then Some (w, s, WalCtxDone)
      else if negb messageReceived && (0 <? s_initialWaitTime w) && w_elapsed t then Some (w, s, WalEnded (Stops wait_error))
      else if CurrentWalPosition w <=? ClientXLogPos w then Some (w, s, WalReached)
      else match w_recv t with
           | RecvEOF => Some (w, s, WalClosed)
           | RecvDeadline | RecvCanceled | RecvErr _ => Some (w, s, WalEnded (Stops "failed to receive message from wal logs"))
           | RecvOther => Some (w, s, WalEnded (Stops "unexpected message type"))
           | Recv (Keepalive lsn reply) =>
               let w := set_xlog w lsn in
               if reply && negb (w_fakeack t) then Some (w, s, WalEnded (Stops "failed to ack lsn"))
               else wal2json_loop callback ticks messageReceived w s
           | Recv (XLogData _ _ document) =>
               match FilterWalJsChange (tables w) document callback s with
               | (s, inr r) => Some (w, s, WalEnded r)
               | (s, inl (nextLSN, records)) => wal2json_loop callback ticks ((0 <? records) || messageReceived) (set_xlog w nextLSN) s
               end
           | Recv (BadCopy e) => Some (w, s, WalEnded (Stops e))
           | Recv UnhandledCopy => wal2json_loop callback ticks messageReceived w s
           end
  end.
Definition wal2json_StreamChanges {St} (callback : St → CDCChange → St * option stop) (start : bool) (ticks : list wal_tick) (w : Socket) (s : St)
    : option (Socket * St * wal_end) :=
  if start then wal2json_loop callback ticks false w s else Some (w, s, WalEnded (Stops "starting replication slot failed")).

Definition replicator_StreamChanges {St} (callback : St → CDCChange → St * option stop) (start : bool) (ticks : list wal_tick) (r : Replicator) (s : St)
    : option (Replicator * St * wal_end) :=
  match r with
  | PgoutputReplicator p => (λ x, (PgoutputReplicator x.1.1, x.1.2, x.2)) <$> pgoutput_StreamChanges callback start ticks p s
  | Wal2jsonReplicator w => (λ x, (Wal2jsonReplicator x.1.1, x.1.2, x.2)) <$> wal2json_StreamChanges callback start ticks w s
  end.
End Waljs.
