(* ===== verification/PostgresCdc.v ===== *)
(** * drivers/postgres/internal/cdc.go: change capture from a replication slot

    Three positions must agree: the one confirmed by the slot, the one in the state, and
    those in the metadata of the destination tables.  A sync acknowledges the slot first
    and stores the state last, so metadata ahead of the state mean an interrupted sync,
    which is repeated up to exactly that position for the streams it had not committed. *)

From S2P Require Import Prelude GoString GoSet DataTypes QueryEngine Value Schema Stream Catalog State TwoPC Fields Writers Utils Backfill Incremental Jdbc Chunking Binlog Cdc Waljs.

(** [WALState] as JSON: as the state value, and as the metadata of a table. *)
Class WalCodec `{JsonCodec} := {
  wal_value : string → any;
  Unmarshal_wal : any → result string;
  wal_set lsn : is_nil (wal_value lsn) = false ∧ is_nil (json_any (wal_value lsn)) = false;
  wal_read lsn : Unmarshal_wal (wal_value lsn) = Ok lsn;
  wal_reread lsn : Unmarshal_wal (json_any (wal_value lsn)) = Ok lsn;
  lsn_json : string → string;
  lsn_of_json : string → option string;
  lsn_json_read lsn : lsn_of_json (lsn_json lsn) = Some lsn
}.
Definition wal_state `{WalCodec} (lsn : string) : state_json := SObject {["lsn" := lsn_json lsn]}.
(** Decoding into the struct: a missing field stays empty. *)
Definition state_lsn `{WalCodec} (s : state_json) : option string :=
  match s with
  | SObject f => match f !! "lsn" with Some t => lsn_of_json t | None => Some "" end
  | SText _ => None
  end.

(** ** datatype_conversion.go *)
Definition pgTypeToDataTypes : gmap string DataType := list_to_map [
  ("bigint", Int64); ("int8", Int64); ("tinyint", Int32); ("integer", Int32); ("smallint", Int32); ("smallserial", Int32);
  ("int", Int32); ("int2", Int32); ("int4", Int32); ("serial", Int32); ("serial2", Int32); ("serial4", Int32); ("serial8", Int64); ("bigserial", Int64);
  ("decimal", Float64); ("numeric", Float64); ("double precision", Float64); ("float", Float32); ("float4", Float32); ("float8", Float64); ("real", Float32);
  ("bool", Bool); ("boolean", Bool);
  ("bit varying", String_); ("box", String_); ("bytea", String_); ("character", String_); ("char", String_); ("varbit", String_); ("bit", String_);
  ("bit(n)", String_); ("varying(n)", String_); ("cidr", String_); ("inet", String_); ("macaddr", String_); ("macaddr8", String_);
  ("character varying", String_); ("text", String_); ("varchar", String_); ("longvarchar", String_); ("circle", String_); ("hstore", String_);
  ("name", String_); ("uuid", String_); ("json", String_); ("jsonb", String_); ("line", String_); ("lseg", String_); ("money", String_); ("path", String_);
  ("pg_lsn", String_); ("point", String_); ("polygon", String_); ("tsquery", String_); ("tsvector", String_); ("xml", String_); ("enum", String_);
  ("tsrange", String_); ("bpchar", String_);
  ("time", String_); ("timez", String_); ("interval", String_); ("date", Timestamp); ("timestamp", Timestamp); ("timestampz", Timestamp);
  ("timestamp with time zone", Timestamp); ("timestamp without time zone", Timestamp); ("timestamptz", Timestamp);
  ("ARRAY", Array_); ("array", Array_); ("bool[]", Array_); ("int2[]", Array_); ("int4[]", Array_); ("text[]", Array_); ("bytea[]", Array_); ("int8[]", Array_);
  ("float4[]", Array_); ("float8[]", Array_); ("timestamp[]", Array_); ("date[]", Array_); ("timestamptz[]", Array_); ("numeric[]", Array_);
  ("uuid[]", Array_); ("jsonb[]", Array_)].
(** postgres.go *)
Definition pg_dataTypeConverter `{GoEnv} (value : any) (columnType : string) : result any :=
  if is_nil value then Err ErrNullValue
  else ReformatValue (ExtractAndMapColumnType columnType pgTypeToDataTypes) value.

(** ** bytes.go: the size of a scanned value *)
Definition pgNumericBytes `{GoEnv} (rawVal : any) : Z :=
  NumericBinaryBytes (match rawVal with AString s | ABytes s => s | v => fmt_v v end).
Definition pgVariableBytes `{GoEnv} (rawVal : any) : Z :=
  Z.of_nat (String.length (match rawVal with AString s | ABytes s => s | v => fmt_v v end)).
(** The type name in upper case. *)
Definition pgColumnSizer `{GoEnv} (upper : string) : any → Z :=
  if contains ["INT2"; "SMALLINT"; "SMALLSERIAL"] upper then λ _, 2
  else if contains ["INT4"; "INT"; "INTEGER"; "SERIAL"] upper then λ _, 4
  else if contains ["INT8"; "BIGINT"; "BIGSERIAL"] upper then λ _, 8
  else if contains ["FLOAT4"; "REAL"] upper then λ _, 4
  else if contains ["FLOAT8"; "FLOAT"; "DOUBLE PRECISION"] upper then λ _, 8
  else if contains ["BOOL"; "BOOLEAN"] upper then λ _, 1
  else if String.eqb upper "DATE" then λ _, 4
  else if String.eqb upper "TIME" then λ _, 8
  else if String.eqb upper "TIMETZ" then λ _, 12
  else if contains ["TIMESTAMP"; "TIMESTAMPTZ"] upper then λ _, 8
  else if String.eqb upper "UUID" then λ _, 16
  else if String.eqb upper "OID" then λ _, 4
  else if String.eqb upper "MONEY" then λ _, 8
  else if contains ["NUMERIC"; "DECIMAL"] upper then pgNumericBytes
  else pgVariableBytes.

(** A stream is known to a set by its id. *)
Definition nil_stream : ConfiguredStream :=
  mkConfigured (mkMetadata "" "" "" false false "" false "" None None None) (mkStream "" "" ∅ empty_set [] empty_set empty_set "" "" "" "" "" None).
#[export] Instance stream_hash : GoHash ConfiguredStream := {| method_hash s := Some (ID s); hashstructure _ := None; zero_value := nil_stream |}.

Section PostgresCdc.
Context `{HS : GoHash string} `{GoRange} `{HE : GoEnv} `{HL : LsnCodec} `{HW : WalCodec}.

(** ** The publication *)
Record pubTable := mkPubTable { pt_Schema : string; pt_Table : string }.

Definition publication_ids (pubTables : list pubTable) : list string := (λ r, StreamIdentifier (pt_Table r) (pt_Schema r)) <$> pubTables.
Definition checkStreamsInPublication (publication : string) (pubTables : list pubTable) (streams : list ConfiguredStream) : option string :=
  match pubTables with
  | [] => Some (ErrNonRetryable +:+ ": publication " +:+ publication +:+ " exists but contains no tables")
  | _ =>
      let pubSet := NewSet (publication_ids pubTables) in
      match filter (λ id, GoSet.Exists pubSet id = false) (ID <$> streams) with
      | [] => None
      | missing => Some (ErrNonRetryable +:+ ": ALTER PUBLICATION " +:+ publication +:+ " ADD TABLE " +:+ Join ", " missing)
      end
  end.
(** [exists_] and [pubTables]: the answers of the two queries. *)
Definition validatePublicationContainsStreams (exists_ : result bool) (pubTables : result (list pubTable)) (publication : string) (streams : list ConfiguredStream)
    : option string :=
  if String.eqb publication "" || (match streams with [] => true | _ => false end) then None
  else match exists_ with
       | Ok true =>
           match pubTables with
           | Ok tables => checkStreamsInPublication publication tables streams
           | _ => Some "failed to query publication tables"
           end
       | Ok false => Some (ErrNonRetryable +:+ ": publication " +:+ publication +:+ " does not exist")
       | _ => Some "failed to verify publication existence"
       end.

(** The slot's row of [pg_replication_slots], as [GetSlotPosition] reads it. *)
Definition validateReplicationSlot (slot : result ReplicationSlot) (publication : string) : option string :=
  match slot with
  | Ok slot =>
      if negb (String.eqb (SlotType slot) "logical") then Some "only logical slots are supported"
      else if String.eqb (Plugin slot) "pgoutput" && String.eqb publication "" then Some "publication is required for pgoutput"
      else None
  | Err e | Panic e => Some e
  end.
Definition doesReplicationSlotExists (found : result bool) (slot : result ReplicationSlot) (publication : string) : bool * option string :=
  match found with
  | Ok b => (b, validateReplicationSlot slot publication)
  | Err e | Panic e => (false, Some e)
  end.

(** ** The driver

    [slot_at]: the confirmed position, which lives in the server and outlasts the process. *)
Record pg_state := mkPg { p_streams : list ConfiguredStream; replicator : option Replicator; slot_at : Z }.

Record pg_config := mkPgConfig { CDCSupport : bool; TLS_error : option string; cfg_Plugin : string; cfg_Publication : string; cfg_InitialWaitTime : Z }.
(** What the server does during one attempt. *)
Record pg_input := mkPgInput {
  pi_slot : option string;             (* an error of the slot query *)
  pi_xlogpos : result Z;               (* the answer to the connection and IdentifySystem *)
  pi_start : bool;
  pi_ticks : list wal_tick;
  pi_ack : ack_input
}.
Context (cfg : pg_config).

Definition saved_wal (s : State) : option any :=
  match st_Global s with Some g => if is_nil (g_State g) then None else Some (g_State g) | None => None end.

(** [GetSlotPosition]: the confirmed position is the server's. *)
Definition GetSlotPosition (err : option string) (current : Z) (p : pg_state) : result ReplicationSlot :=
  match err with Some e => Err e | None => Ok (mkSlot "logical" (cfg_Plugin cfg) (slot_at p) current) end.

(** [valid]: the outcome of the publication check; [current]: the current WAL position;
    [answers]: those of the advances. *)
Definition pg_PreCDC (valid : option string) (slot_err : option string) (current : Z) (answers : list (result Z)) (streams : list ConfiguredStream) (p : pg_state) (s : State)
    : pg_state * result (option State) :=
  match valid with
  | Some e => (p, Err ("publication validation failed: " +:+ e))
  | None =>
      match GetSlotPosition slot_err current p with
      | Ok slot =>
          match saved_wal s with
          | Some _ => (mkPg streams (replicator p) (slot_at p), Ok None)
          | None =>
              match AdvanceLSN answers (LSN_String (CurrentLSN slot)) (slot_at p) with
              | (at_, Ok confirmedLSN) => (mkPg streams (replicator p) at_, Ok (Some (ResetStreams (SetGlobal s (wal_value (LSN_String confirmedLSN)) []))))
              | (at_, Err e) | (at_, Panic e) => (mkPg (p_streams p) (replicator p) at_, Err e)
              end
          end
      | Err e | Panic e => (p, Err ("failed to get slot position: " +:+ e))
      end
  end.

(** The loop over the metadata states: the finished streams and the recovery position. *)
Definition wal_scan_one (stateLSN : string) (acc : list string * string) (kv : string * option state_json) : result (list string * string) :=
  match kv.2 with
  | None => Ok acc
  | Some rawMtState =>
      match state_lsn rawMtState with
      | None => Err "failed to unmarshal metadata state"
      | Some mtLSN =>
          match ParseLSN mtLSN, ParseLSN stateLSN with
          | Some parsedMetaLSN, Some parsedStateLSN => Ok (if parsedStateLSN <? parsedMetaLSN then (acc.1 ++ [kv.1], mtLSN) else acc)
          | None, _ => Err "failed to parse metadata LSN"
          | _, None => Err "failed to parse global state LSN"
          end
      end
  end.
Definition wal_scan_metadata (stateLSN : string) (metadataStates : gmap string (option state_json)) : result (list string * string) :=
  foldM (wal_scan_one stateLSN) ([], "") (range metadataStates).

(** The recovery position and the streams still to be read. *)
Definition pg_plan (streams : list ConfiguredStream) (finishedStreams : list string) (metadataCommittedLSN : string) : result (option Z * list ConfiguredStream) :=
  match finishedStreams with
  | [] => Ok (None, streams)
  | _ =>
      match ParseLSN metadataCommittedLSN with
      | None => Err "failed to parse recovery LSN"
      | Some parsed =>
          let finishedStreamSet := NewSet finishedStreams in
          Ok (Some parsed, filter (λ s, GoSet.Exists finishedStreamSet (ID s) = false) streams)
      end
  end.

Definition validateGlobalState (stateLSN : string) (confirmedFlushLSN : Z) : option string :=
  if String.eqb stateLSN "" then Some "lsn is empty, please proceed with clear destination"
  else match ParseLSN stateLSN with
       | None => Some "failed to parse stored lsn"
       | Some parsed => if parsed =? confirmedFlushLSN then None else Some "lsn mismatch, please proceed with clear destination"
       end.

(** The checks before a connection is made, and the table filter. *)
Definition prepareWALJSConfig (remainingStreams : list ConfiguredStream) : result (gmap string ConfiguredStream) :=
  if negb (CDCSupport cfg) then Err "invalid call; not running in CDC mode"
  else match TLS_error cfg with
       | Some e => Err "failed to build tls config for wal replication"
       | None => Ok (NewTableFilter (Array (NewSet remainingStreams)))
       end.

Definition with_replicator (p : pg_state) (r : Replicator) : pg_state := mkPg (p_streams p) (Some r) (slot_at p).

(** From the replicator on: the positions are checked, the slot is read, and a recovery
    ends at exactly its position. *)
Definition replicate (inp : pg_input) (p : pg_state) (stateLSN metadataCommittedLSN : string) (recoveryLSN : option Z) (remaining : list ConfiguredStream)
    (r : Replicator) (callback : pushes → CDCChange → pushes * option stop) (log : pushes) : option (pg_state * pushes * changes_end) :=
  let slotAtMetadataLSN := match recoveryLSN with Some l => slot_at p =? l | None => false end in
  let invalid := if negb (match remaining with [] => true | _ => false end) && negb slotAtMetadataLSN then validateGlobalState stateLSN (slot_at p) else None in
  match invalid with
  | Some e => Some (with_replicator p r, log, ChangesFailed (ErrNonRetryable +:+ ": invalid global state: " +:+ e))
  | None =>
      match replicator_StreamChanges pg_dataTypeConverter callback (pi_start inp) (pi_ticks inp) r log with
      | None => None
      | Some (r, log, WalEnded (Stops e)) => Some (with_replicator p r, log, ChangesFailed e)
      | Some (r, log, WalEnded Gone) => Some (with_replicator p r, log, ChangesGone)
      | Some (r, log, e) =>
          let done := match e with WalCtxDone => true | _ => false end in
          match recoveryLSN with
          | Some l => Some (with_replicator p (with_socket r (set_xlog (socket_of r) l)), log, Streamed (OneFinal (wal_state metadataCommittedLSN)) done)
          | None => Some (with_replicator p r, log, Streamed (OneFinal (wal_state (LSN_String (ClientXLogPos (socket_of r))))) done)
          end
      end
  end.

Definition pg_StreamChanges (inp : pg_input) (p : pg_state) (s : State) (metadataStates : gmap string (option state_json))
    (callback : pushes → CDCChange → pushes * option stop) (log : pushes) : option (pg_state * pushes * changes_end) :=
  let fail e := Some (p, log, ChangesFailed e) in
  match st_Global s with
  | None => Some (p, log, ChangesGone)
  | Some rawGlobalState =>
      match Unmarshal_wal (g_State rawGlobalState) with
      | Ok stateLSN =>
          match ('(finishedStreams, metadataCommittedLSN) ← wal_scan_metadata stateLSN metadataStates;
                 '(recoveryLSN, remaining) ← pg_plan (p_streams p) finishedStreams metadataCommittedLSN;
                 config ← prepareWALJSConfig remaining;
                 slot ← GetSlotPosition (pi_slot inp) 0 p;
                 r ← NewReplicator (pi_xlogpos inp) config (cfg_InitialWaitTime cfg) slot recoveryLSN;
                 Ok (metadataCommittedLSN, recoveryLSN, remaining, r)) with
          | Ok (metadataCommittedLSN, recoveryLSN, remaining, r) => replicate inp p stateLSN metadataCommittedLSN recoveryLSN remaining r callback log
          | Err e | Panic e => fail e
          end
      | _ => fail "failed to unmarshal global state"
      end
  end.

(** The slot is acknowledged before the state is stored, and the connection is closed
    whatever happens. *)
Definition pg_PostCDC (inp : pg_input) (done : bool) (p : pg_state) (s : State) : pg_state * option State * option string :=
  match replicator p with
  | None => (p, None, None)
  | Some r =>
      let closed at_ := mkPg (p_streams p) (Some (with_socket r (Cleanup (socket_of r)))) at_ in
      if done then (closed (slot_at p), None, Some "context canceled")
      else
        let finalLSN := LSN_String (ClientXLogPos (socket_of r)) in
        match AcknowledgeLSN (pi_ack inp) (socket_of r) (slot_at p) with
        | (at_, Some e) => (closed at_, None, Some e)
        | (at_, None) => (closed at_, Some (SetGlobal s (wal_value finalLSN) []), None)
        end
  end.

Definition Postgres_changes : ChangeDriver :=
  {| dstate := pg_state; dinput := pg_input; StreamChanges := pg_StreamChanges; PostCDC := pg_PostCDC |}.
End PostgresCdc.
