(* ===== verification/WaljsFacts.v ===== *)
(** * Theorems about logical replication: what the pgoutput reader delivers of the WAL *)

From S2P Require Import Prelude GoString GoSet DataTypes QueryEngine Value Schema Stream Catalog State TwoPC Fields Writers Utils Backfill Incremental IncrementalFacts Jdbc Chunking Binlog Cdc CdcFacts Waljs PostgresCdc.

(** The table filter finds each stream by its id. *)
Definition filter_ok (R : list ConfiguredStream) (m : gmap string ConfiguredStream) : Prop := ∀ κ s, m !! κ = Some s ↔ s ∈ R ∧ ID s = κ.
Lemma filter_by_id R : NoDup (ID <$> R) → filter_ok R (NewTableFilter (Array (NewSet R))).
Proof.
  intros Hnd.
  assert (Hcf : collision_free (λ s, s ∈ R) None) by (intros s s' Hs Hs' Heq; symmetry; apply (same_id R); auto).
  assert (Hm : ∀ s, s ∈ Array (NewSet R) ↔ s ∈ R) by (intros s; rewrite member_Array; by apply member_NewSet with (U := λ s, s ∈ R)).
  assert (Hfold : ∀ (l : list ConfiguredStream) (m : gmap string ConfiguredStream) κ s, (∀ s s', s ∈ l → s' ∈ l → ID s' = ID s → s' = s) →
    foldl (λ m s, <[ID s := s]> m) m l !! κ = Some s ↔ s ∈ l ∧ ID s = κ ∨ (∀ s', s' ∈ l → ID s' ≠ κ) ∧ m !! κ = Some s).
  { induction l as [|x l IH]; intros m κ s Hid; cbn [foldl].
    - split; [intros ?; right; split; [by intros s' ?%elem_of_nil|done]|intros [[?%elem_of_nil _]|[_ ?]]; done].
    - rewrite IH by (intros a b Ha Hb; apply Hid; by right). destruct (decide (ID x = κ)) as [<-|Hne].
      + rewrite lookup_insert_eq. split.
        * intros [[? ?]|[? [= ->]]]; left; (split; [|done]); [by right|left].
        * intros [[Hin Heq]|[Hn _]]; [|by destruct (Hn x ltac:(left))]. assert (s = x) as -> by (apply Hid; [left|done|done]).
          destruct (decide (ID x ∈ ID <$> l)) as [(s' & Heq' & Hs')%list_elem_of_fmap|Hni].
          { left. split; [|done]. by rewrite <- (Hid x s' ltac:(left) ltac:(by right) ltac:(done)). }
          right. split; [|done]. intros s' Hs' Heq'. apply Hni. rewrite <- Heq'. by apply list_elem_of_fmap_2.
      + rewrite lookup_insert_ne by done. split.
        * intros [[? ?]|[Hn ?]]; [left; split; [by right|done]|right]. split; [|done]. intros s' [->|?]%elem_of_cons; auto.
        * intros [[[->|?]%elem_of_cons ?]|[Hn ?]]; [done|by left|right]. split; [|done]. intros s' Hs'. apply Hn. by right. }
  intros κ s. unfold NewTableFilter. rewrite Hfold.
  - rewrite Hm. split; [intros [|[_ Hl]]; [done|by rewrite lookup_empty in Hl]|by left].
  - intros a b Ha%Hm Hb%Hm. by apply (same_id R).
Qed.

Section Wal.
Context {HS : GoHash string} {HR : GoRange} {HE : GoEnv} {HL : LsnCodec}.
Context (converter : any → string → result any).

(** ** The write-ahead log

    Transactions in commit order, each with the position after its commit record and its
    changes, each change with its relation. *)
Inductive dml := DInsert (t : option TupleData) | DUpdate (old new : option TupleData) | DDelete (old : option TupleData).
Definition dml_message (rel : RelationMessage) (d : dml) : logical_message :=
  match d with
  | DInsert t => InsertMsg (RelationID rel) t
  | DUpdate old new => UpdateMsg (RelationID rel) old new
  | DDelete old => DeleteMsg (RelationID rel) old
  end.
Definition dml_tuples (d : dml) : option TupleData * option TupleData :=
  match d with DInsert t => (t, None) | DUpdate old new => (new, old) | DDelete old => (old, None) end.
Definition rel_key (rel : RelationMessage) : string := rel_Namespace rel +:+ "." +:+ RelationName rel.
Definition change_values (c : RelationMessage * dml) : result (gmap string any) :=
  fst <$> tupleValuesToMap converter c.1 (dml_tuples c.2).1 (dml_tuples c.2).2.
(** The row a change adds to a stream. *)
Definition change_rows (s : ConfiguredStream) (c : RelationMessage * dml) : list (gmap string any) :=
  if String.eqb (rel_key c.1) (ID s) then match change_values c with Ok v => [v] | _ => [] end else [].

Record txn := mkTxn { tx_end : nat; tx_time : gotime; tx_changes : list (RelationMessage * dml) }.
Context (wal : list txn).
Definition lsn (i : nat) : Z := Z.of_nat i.
(** The transactions that end within [(k, e]], and their changes. *)
Definition window (k e : nat) : list txn := filter (λ t, k < tx_end t ≤ e)%nat wal.
Definition changes_in (k e : nat) : list (RelationMessage * dml) := window k e ≫= tx_changes.
Hypothesis Hsorted : StronglySorted (λ t t', tx_end t < tx_end t')%nat wal.
Hypothesis Hwidth : ∀ t, t ∈ wal → lsn (tx_end t) < 2 ^ 64.

Lemma window_split_list (l : list txn) k j e : StronglySorted (λ t t', tx_end t < tx_end t')%nat l → (k ≤ j ≤ e)%nat →
  filter (λ t, k < tx_end t ≤ e)%nat l = filter (λ t, k < tx_end t ≤ j)%nat l ++ filter (λ t, j < tx_end t ≤ e)%nat l.
Proof.
  intros Hs Hkj. induction Hs as [|t l Hs IH Hall]; [done|]. rewrite !filter_cons, IH.
  destruct (decide (k < tx_end t ≤ j)%nat) as [H1|H1], (decide (j < tx_end t ≤ e)%nat) as [H2|H2], (decide (k < tx_end t ≤ e)%nat) as [H3|H3]; try lia; try done.
  rewrite (filter_none (λ t, k < tx_end t ≤ j)%nat l); [done|]. eapply Forall_impl; [exact Hall|]. cbn. lia.
Qed.
Lemma window_split k j e : (k ≤ j ≤ e)%nat → window k e = window k j ++ window j e.
Proof. by apply window_split_list. Qed.
Lemma changes_split k j e : (k ≤ j ≤ e)%nat → changes_in k e = changes_in k j ++ changes_in j e.
Proof. intros H. unfold changes_in. by rewrite (window_split k j e), bind_app by done. Qed.
Lemma window_none k e : (e ≤ k)%nat → window k e = [].
Proof. intros Hle. apply filter_none, Forall_true. lia. Qed.

(** ** The server

    What it has sent: the relations announced in this session, the transaction under way
    with its changes still to come, and a position up to which every committed transaction
    has been sent.  [lim] bounds the transactions it gets to send. *)
Inductive phase := Idle | Within (t : txn) (rest : list (RelationMessage * dml)).
Record server := mkServer { sv_rels : gmap Z RelationMessage; sv_phase : phase; sv_pos : nat }.

Inductive sends (lim : nat) : server → copy_data → server → Prop :=
| send_begin rels pos t l doc : t ∈ wal → (pos < tx_end t ≤ lim)%nat → window pos (pred (tx_end t)) = [] →
    sends lim (mkServer rels Idle pos) (XLogData l (Some (BeginMsg (tx_time t))) doc) (mkServer rels (Within t (tx_changes t)) pos)
| send_relation rels t rest pos rel l doc :
    sends lim (mkServer rels (Within t rest) pos) (XLogData l (Some (RelationMsg rel)) doc) (mkServer (<[RelationID rel := rel]> rels) (Within t rest) pos)
| send_change rels t rel d rest pos l doc : rels !! RelationID rel = Some rel →
    sends lim (mkServer rels (Within t ((rel, d) :: rest)) pos) (XLogData l (Some (dml_message rel d)) doc) (mkServer rels (Within t rest) pos)
| send_other rels t rest pos l doc : sends lim (mkServer rels (Within t rest) pos) (XLogData l (Some OtherMsg) doc) (mkServer rels (Within t rest) pos)
| send_commit rels t pos doc : sends lim (mkServer rels (Within t []) pos) (XLogData (lsn (tx_end t)) (Some CommitMsg) doc) (mkServer rels Idle (tx_end t))
| send_alive rels t rest pos l reply : sends lim (mkServer rels (Within t rest) pos) (Keepalive l reply) (mkServer rels (Within t rest) pos)
| send_position rels pos pos' reply : (pos ≤ pos')%nat → lsn pos' < 2 ^ 64 → window pos pos' = [] →
    sends lim (mkServer rels Idle pos) (Keepalive (lsn pos') reply) (mkServer rels Idle pos')
| send_unhandled sv : sends lim sv UnhandledCopy sv
| send_unparsed sv l doc : sends lim sv (XLogData l None doc) sv
| send_bad sv e : sends lim sv (BadCopy e) sv.
Inductive sends_all (lim : nat) : server → list copy_data → server → Prop :=
| sent_none sv : sends_all lim sv [] sv
| sent_one sv c sv' cs sv'' : sends lim sv c sv' → sends_all lim sv' cs sv'' → sends_all lim sv (c :: cs) sv''.

Definition messages (ticks : list wal_tick) : list copy_data := omap (λ t, match w_recv t with Recv c => Some c | _ => None end) ticks.
Definition serves (lim k : nat) (ticks : list wal_tick) : Prop := ∃ sv, sends_all lim (mkServer ∅ Idle k) (messages ticks) sv.

(** The changes sent since position [k], and that no transaction past [lim] was among them. *)
Definition sent_since (lim k : nat) (sv : server) (sent : list (RelationMessage * dml)) : Prop :=
  (k ≤ sv_pos sv)%nat ∧ lsn (sv_pos sv) < 2 ^ 64 ∧ (∀ t, t ∈ window k (sv_pos sv) → tx_end t ≤ lim)%nat ∧
  match sv_phase sv with
  | Idle => sent = changes_in k (sv_pos sv)
  | Within t rest => t ∈ wal ∧ (sv_pos sv < tx_end t ≤ lim)%nat ∧ window (sv_pos sv) (pred (tx_end t)) = [] ∧ sent ++ rest = changes_in k (sv_pos sv) ++ tx_changes t
  end.

Lemma window_one pos t : t ∈ wal → (pos < tx_end t)%nat → window pos (pred (tx_end t)) = [] → window pos (tx_end t) = [t].
Proof.
  intros Ht Hpos Hnone. rewrite (window_split pos (pred (tx_end t))) by lia. rewrite Hnone. cbn. unfold window. clear Hnone.
  apply list_elem_of_split in Ht as (l1 & l2 & Hw). rewrite Hw in *. rewrite filter_app, filter_cons_True by lia.
  rewrite (filter_none _ l1), (filter_none _ l2); [done|..]; apply Forall_forall; intros t' Ht'.
  - apply StronglySorted_app_1_r, StronglySorted_cons in Hsorted as [Hall _]. rewrite Forall_forall in Hall. specialize (Hall t' Ht'). cbn in *; lia.
  - pose proof (StronglySorted_app_1_elem_of _ _ _ t' t Hsorted Ht' ltac:(left)). cbn in *; lia.
Qed.

(** ** Handling what the server sends *)
Section Read.
Context (push : list (string * RawRecord) → CDCChange → list (string * RawRecord) * option stop).
Hypothesis Hpush : appends push.
Context (R : list ConfiguredStream).
Hypothesis HRids : NoDup (ID <$> R).
Notation adds := (adds change_rows R).

Record in_session (p : pgoutputReplicator) (sv : server) : Prop := {
  is_tables : filter_ok R (tables (pg_socket p));
  is_rels : relationIDToMsgMap p = sv_rels sv;
  is_phase : transactionCompleted p = match sv_phase sv with Idle => true | _ => false end;
  is_pos : sv_phase sv = Idle → ClientXLogPos (pg_socket p) = lsn (sv_pos sv)
}.

Lemma emit_adds p rel d l l' : filter_ok R (tables (pg_socket p)) → relationIDToMsgMap p !! RelationID rel = Some rel →
  ∀ kind, emit converter p (RelationID rel) kind (dml_tuples d).1 (dml_tuples d).2 push l = (l', None) → adds [(rel, d)] l l'.
Proof.
  intros Hf Hrel kind. unfold emit. rewrite Hrel. fold (rel_key rel). destruct (tables (pg_socket p) !! rel_key rel) as [s|] eqn:Es.
  - apply Hf in Es as [Hs Hid]. destruct (tupleValuesToMap _ _ _ _) as [[v b]| |] eqn:Ev; [|done..]. intros (r & -> & Hd)%Hpush. cbn [ch_Stream ch_Data] in *.
    assert (Hrows : change_rows s (rel, d) = [v]) by (unfold change_rows, change_values; cbn; rewrite Ev, Hid, String.eqb_refl; done).
    apply (adds_one _ _ _ s r v); try done; [intros; by apply (same_id R)|].
    intros s' _ Hne. unfold change_rows. cbn. by rewrite (proj2 (String.eqb_neq _ _)) by congruence.
  - intros [= <-]. apply adds_none. intros s Hs. unfold change_rows. cbn.
    destruct (String.eqb_spec (rel_key rel) (ID s)) as [Heq|]; [|done]. rewrite (proj2 (Hf (rel_key rel) s)) in Es; done.
Qed.

Definition handle (p : pgoutputReplicator) (c : copy_data) (l : list (string * RawRecord)) : pgoutputReplicator * list (string * RawRecord) * option stop :=
  match c with
  | XLogData x walData _ => processPgoutputWAL converter (move p x) walData push l
  | Keepalive x _ => (move p x, l, None)
  | _ => (p, l, None)
  end.
Definition same_socket (s s' : Socket) : Prop := ∃ x, s' = set_xlog s x.

Lemma handle_sent lim k l0 sv c sv' p l p' l' sent :
  sends lim sv c sv' → in_session p sv → sent_since lim k sv sent → adds sent l0 l → handle p c l = (p', l', None) →
  in_session p' sv' ∧ same_socket (pg_socket p) (pg_socket p') ∧ ∃ sent', sent_since lim k sv' sent' ∧ adds sent' l0 l'.
Proof.
  assert (Hself : same_socket (pg_socket p) (pg_socket p)) by (exists (ClientXLogPos (pg_socket p)); by destruct (pg_socket p)).
  assert (Hmove : ∀ x, same_socket (pg_socket p) (set_xlog (pg_socket p) x)) by (intros x; by exists x).
  intros Hsend [Htab Hrels Hph Hpos] (Hk & Hb & Hlim & Hsent) Hadds. destruct Hsend; cbn [handle] in *; cbn in Hrels, Hph, Hpos, Hk, Hb, Hlim, Hsent.
  - intros [= <- <-]. split_and!; [by split|first [apply Hmove|exact Hself]|]. exists sent. split; [|done]. split_and!; [done..|]. cbn. split_and!; [done|lia|lia|done|congruence].
  - intros [= <- <-]. split_and!; [split; cbn; first [done|congruence]|apply Hmove|]. exists sent. by split.
  - assert (Hemit : ∀ kind, emit converter (move p l1) (RelationID rel) kind (dml_tuples d).1 (dml_tuples d).2 push l = (l', None) → adds [(rel, d)] l l').
    { intros kind He. by eapply (emit_adds (move p l1)); [|cbn; by rewrite Hrels|]. }
    intros Hc. assert (p' = move p l1 ∧ adds [(rel, d)] l l') as [-> Ha].
    { destruct d; cbn [dml_message processPgoutputWAL] in Hc; unfold emitInsert, emitUpdate, emitDelete in Hc;
        destruct (emit _ _ _ _ _ _ _ _) as [l2 st] eqn:Ee; injection Hc as <- <- ->; by eauto. }
    split_and!; [by split|first [apply Hmove|exact Hself]|]. exists (sent ++ [(rel, d)]). split; [|by eapply adds_trans]. split_and!; [done..|]. cbn.
    destruct Hsent as (? & ? & ? & Heq). split_and!; [done|lia|lia|done|]. by rewrite <- app_assoc.
  - intros [= <- <-]. split_and!; [by split|first [apply Hmove|exact Hself]|]. exists sent. by split.
  - destruct Hsent as (Ht & Hp & Hnone & Heq). rewrite app_nil_r in Heq. intros [= <- <-]. split_and!; [by split|first [apply Hmove|exact Hself]|]. exists sent. split; [|done].
    assert (Hw : window k (tx_end t) = window k pos ++ [t]) by (rewrite (window_split k pos) by lia; rewrite (window_one pos t); [done|done|lia|done]).
    split_and!; cbn; [lia|by apply Hwidth| |].
    + intros t'. rewrite Hw, elem_of_app, list_elem_of_singleton. intros [?| ->]; [auto|lia].
    + rewrite Heq. unfold changes_in. rewrite Hw, bind_app. cbn. by rewrite app_nil_r.
  - intros [= <- <-]. split_and!; [by split|first [apply Hmove|exact Hself]|]. exists sent. by split.
  - assert (Hw : window k pos' = window k pos) by (rewrite (window_split k pos) by lia; by rewrite H1, app_nil_r).
    intros [= <- <-]. split_and!; [by split|first [apply Hmove|exact Hself]|]. exists sent. split; [|done]. split_and!; cbn; [lia|done|by rewrite Hw|]. unfold changes_in. by rewrite Hw.
  - intros [= <- <-]. split_and!; [by split|first [apply Hmove|exact Hself]|]. exists sent. by split.
  - done.
  - intros [= <- <-]. split_and!; [by split|first [apply Hmove|exact Hself]|]. exists sent. by split.
Qed.

(** ** The loop *)
Notation loop := (pgoutput_loop converter push).
Lemma same_trans s s' s'' : same_socket s s' → same_socket s' s'' → same_socket s s''.
Proof. intros [x ->] [y ->]. by exists y. Qed.
Lemma same_refl s : same_socket s s.
Proof. exists (ClientXLogPos s). by destruct s. Qed.

(** A turn that neither ends the loop nor leaves it waiting handles one message. *)
Lemma loop_turn t ticks received p l p' l' r : loop (t :: ticks) received p l = Some (p', l', r) → (∀ st, r ≠ WalEnded st) → w_recv t ≠ RecvEOF →
  (p' = p ∧ l' = l ∧ (r = WalCtxDone ∨ r = WalReached ∧ transactionCompleted p = true ∧ CurrentWalPosition (pg_socket p) ≤ ClientXLogPos (pg_socket p)))
  ∨ ∃ c p1 l1 received', w_recv t = Recv c ∧ handle p c l = (p1, l1, None) ∧ loop ticks received' p1 l1 = Some (p', l', r).
Proof.
  intros Hl Hr Heof. cbn [pgoutput_loop] in Hl. destruct (w_done t); [injection Hl as <- <- <-; auto|]. destruct (_ && _); [injection Hl as <- <- <-; by destruct (Hr (Stops wait_error))|].
  destruct (transactionCompleted p && _) eqn:Et.
  { bool_hyps. injection Hl as <- <- <-. left. split_and!; [done..|]. right. split_and!; [done..|lia]. }
  destruct (w_recv t) as [| | |e| |c]; try done; try (injection Hl as <- <- <-; by edestruct Hr); [injection Hl as <- <- <-; by auto|]. right. exists c.
  destruct c as [x walData doc|x reply|e|]; cbn [handle].
  - destruct (processPgoutputWAL _ _ _ _ _) as [[p1 l1] [st|]] eqn:Ep; [injection Hl as <- <- <-; by destruct (Hr st)|]. eauto 10.
  - destruct (reply && _); [injection Hl as <- <- <-; by edestruct Hr|]. eauto 10.
  - injection Hl as <- <- <-; by edestruct Hr.
  - eauto 10.
Qed.

Lemma wal_loop_adds lim k l0 ticks : ∀ received p l sv sent p' l' r,
  in_session p sv → sent_since lim k sv sent → adds sent l0 l → (∃ sv', sends_all lim sv (messages ticks) sv') → Forall (λ t, w_recv t ≠ RecvEOF) ticks →
  loop ticks received p l = Some (p', l', r) → (∀ st, r ≠ WalEnded st) →
  same_socket (pg_socket p) (pg_socket p') ∧ (r = WalCtxDone ∨ r = WalReached ∧ ∃ j, (k ≤ j)%nat ∧ CurrentWalPosition (pg_socket p) ≤ lsn j < 2 ^ 64
    ∧ ClientXLogPos (pg_socket p') = lsn j ∧ (∀ t, t ∈ window k j → tx_end t ≤ lim)%nat ∧ adds (changes_in k j) l0 l').
Proof.
  induction ticks as [|t ticks IH]; intros received p l sv sent p' l' r Hin Hsent Hadds Hserve Heof Hloop Hr; [done|].
  apply Forall_cons in Heof as [Heof Heofs]. destruct (loop_turn _ _ _ _ _ _ _ _ Hloop Hr Heof) as [(-> & -> & Hend)|(c & p1 & l1 & rc & Hc & Hh & Hrest)].
  - split; [apply same_refl|]. destruct Hend as [->|(-> & Htc & Hpos)]; [by left|]. right. split; [done|]. destruct Hin as [_ _ Hph Hxp]. rewrite Htc in Hph.
    destruct Hsent as (Hk & Hb & Hlim & Hs). destruct (sv_phase sv); [|done]. subst sent. rewrite (Hxp eq_refl) in *. by exists (sv_pos sv).
  - cbn in Hserve. rewrite Hc in Hserve. destruct Hserve as [sv' Hall]. inversion Hall as [|sv1 c1 sv2 cs sv3 Hone Hall']; subst.
    destruct (handle_sent _ _ _ _ _ _ _ _ _ _ _ Hone Hin Hsent Hadds Hh) as (Hin' & Hss & sent' & Hsent' & Hadds').
    destruct (IH _ _ _ _ _ _ _ _ Hin' Hsent' Hadds' (ex_intro _ sv' Hall') Heofs Hrest Hr) as [Hss' Hend]. split; [by eapply same_trans|].
    destruct Hss as [x Hx]. rewrite Hx in Hend. exact Hend.
Qed.

(** ** Reaching the target *)
Hypothesis Hdecodes : ∀ c s, c ∈ wal ≫= tx_changes → s ∈ R → rel_key c.1 = ID s →
  ∃ v, change_values c = Ok v ∧ ∀ l ch, ch_Stream ch = s → ch_Data ch = v → (push l ch).2 = None.

Definition clean (c : copy_data) : Prop := match c with BadCopy _ | XLogData _ None _ => False | _ => True end.
Definition awake (t : wal_tick) : Prop := w_done t = false ∧ w_elapsed t = false ∧ w_fakeack t = true.
Definition calm (t : wal_tick) : Prop := awake t ∧ ∃ c, w_recv t = Recv c ∧ clean c.

Lemma wal_emit_works p rel d l kind : filter_ok R (tables (pg_socket p)) → relationIDToMsgMap p !! RelationID rel = Some rel → (rel, d) ∈ wal ≫= tx_changes →
  (emit converter p (RelationID rel) kind (dml_tuples d).1 (dml_tuples d).2 push l).2 = None.
Proof.
  intros Hf Hrel Hc. unfold emit. rewrite Hrel. fold (rel_key rel). destruct (tables (pg_socket p) !! rel_key rel) as [s|] eqn:Es; [|done].
  apply Hf in Es as [Hs Hid]. destruct (Hdecodes (rel, d) s Hc Hs (eq_sym Hid)) as (v & Hv & Hp). unfold change_values in Hv. cbn in Hv.
  destruct (tupleValuesToMap _ _ _ _) as [[v' b]| |]; [|done..]. injection Hv as ->. by apply Hp.
Qed.
Lemma changes_in_wal k e c : c ∈ changes_in k e → c ∈ wal ≫= tx_changes.
Proof. unfold changes_in. rewrite !list_elem_of_bind. intros (t & Hc & [_ Ht]%list_elem_of_filter). by exists t. Qed.
Lemma wal_handle_works lim k sv c sv' p l sent : sends lim sv c sv' → clean c → in_session p sv → sent_since lim k sv sent → (handle p c l).2 = None.
Proof.
  intros Hsend Hclean [Htab Hrels _ _] (_ & _ & _ & Hsent). destruct Hsend; try done; cbn [handle]. cbn in Hsent, Hrels.
  assert (Hin : (rel, d) ∈ wal ≫= tx_changes).
  { destruct Hsent as (Ht & _ & _ & Heq). assert ((rel, d) ∈ changes_in k pos ++ tx_changes t) as [?|?]%elem_of_app.
    - rewrite <- Heq. apply elem_of_app. right. left.
    - by eapply changes_in_wal.
    - apply list_elem_of_bind. by exists t. }
  match goal with |- context [move p ?x] => pose proof (λ kind, wal_emit_works (move p x) rel d l kind Htab ltac:(cbn; by rewrite Hrels) Hin) as Hw end.
  destruct d; cbn [dml_message processPgoutputWAL]; unfold emitInsert, emitUpdate, emitDelete;
    match goal with |- context [emit converter _ _ ?kind _ _ _ _] => specialize (Hw kind) end; cbn [dml_tuples fst snd] in Hw; by destruct (emit _ _ _ _ _ _ _ _).
Qed.

Lemma wal_loop_reaches lim k l0 ticks last : awake last → Forall calm ticks → ∀ received p l sv sent sv',
  in_session p sv → sent_since lim k sv sent → adds sent l0 l → sends_all lim sv (messages ticks) sv' → sv_phase sv' = Idle → CurrentWalPosition (pg_socket p) ≤ lsn (sv_pos sv') →
  ∃ p' l', loop (ticks ++ [last]) received p l = Some (p', l', WalReached).
Proof.
  intros (Hd & He & _). induction ticks as [|t ticks IH]; intros Hcalm received p l sv sent sv' Hin Hsent Hadds Hall Hidle Hpos; cbn [app pgoutput_loop].
  - rewrite Hd, He, andb_false_r. inversion Hall; subst. destruct Hin as [_ _ Hph Hxp]. rewrite Hidle in Hph. rewrite Hph, (Hxp Hidle), (proj2 (Z.leb_le _ _) Hpos). cbn. eauto.
  - apply Forall_cons in Hcalm as [((Hdt & Het & Hft) & c & Hc & Hcl) Hcalm]. rewrite Hdt, Het, Hft, andb_false_r, Hc.
    destruct (transactionCompleted p && _); [eauto|]. cbn in Hall. rewrite Hc in Hall. inversion Hall as [|sv1 c1 sv2 cs sv3 Hone Hall']; subst.
    pose proof (wal_handle_works _ _ _ _ _ p l _ Hone Hcl Hin Hsent) as Hok. destruct (handle p c l) as [[p1 l1] st] eqn:Eh. cbn in Hok. subst st.
    destruct (handle_sent _ _ _ _ _ _ _ _ _ _ _ Hone Hin Hsent Hadds Eh) as (Hin' & [x Hx] & sent' & Hsent' & Hadds').
    pose proof (λ rc, IH Hcalm rc p1 l1 sv2 sent' sv' Hin' Hsent' Hadds' Hall' Hidle ltac:(rewrite Hx; exact Hpos)) as Hgo.
    destruct c as [y [m|] doc|y reply|e|]; try done; cbn [handle] in Eh.
    + rewrite Eh. apply Hgo.
    + rewrite andb_false_r. injection Eh as <- <-. apply Hgo.
    + injection Eh as <- <-. apply Hgo.
Qed.
End Read.
End Wal.

(** ** Tuples *)
Section Tuples.
Context {HE : GoEnv} (converter : any → string → result any) (rel : RelationMessage).

(** The value of one column, and the map of a tuple, without the byte count. *)
Definition column_value (old : option TupleData) (idx : nat) (rc : RelationColumn) (col : TupleColumn) : result any :=
  let c := if tc_Toast col then default col (old ≫= (.!! idx)) else col in
  match tc_Data c with
  | None => Ok (Ternary (tc_Toast col) (AString olakeUnavailableValue) ANil)
  | Some d => convert_or_nil converter (AString d) (oidToString (rc_DataType rc))
  end.
Fixpoint tuple_data (old : option TupleData) (idx : nat) (columns : TupleData) (data : gmap string any) : result (gmap string any) :=
  match columns with
  | [] => Ok data
  | col :: columns =>
      match rel_Columns rel !! idx with
      | None => tuple_data old (S idx) columns data
      | Some rc => v ← column_value old idx rc col; tuple_data old (S idx) columns (<[rc_Name rc := v]> data)
      end
  end.
Lemma tuple_fold old columns idx data b :
  (λ x : nat * gmap string any * Z, x.1.2) <$> foldM (tuple_column converter rel old) (idx, data, b) columns = tuple_data old idx columns data.
Proof.
  revert idx data b. induction columns as [|col columns IH]; intros idx data b; [done|]. cbn [foldM tuple_data]. unfold tuple_column at 1.
  destruct (rel_Columns rel !! idx) as [rc|]; [|apply IH]. unfold column_value. destruct (tc_Data (if tc_Toast col then _ else _)); cbn; [|apply IH].
  destruct (convert_or_nil _ _ _); cbn; [apply IH|done..].
Qed.
Lemma tuple_values columns old : fst <$> tupleValuesToMap converter rel (Some columns) old = tuple_data old 0 columns ∅.
Proof.
  rewrite <- (tuple_fold old columns 0 ∅ 0). unfold tupleValuesToMap. by destruct (foldM _ _ _) as [[[? ?] ?]| |].
Qed.

(** An update as the server sends it: the columns with the new values, except the
    unchanged TOAST values, which are only marked; under REPLICA IDENTITY FULL also the
    old row. *)
Definition full_tuple (vals : list (option string)) : TupleData := mkTupleColumn false <$> vals.
Definition sent_tuple (toast : nat → bool) (vals : list (option string)) : TupleData :=
  imap (λ i v, if toast i then mkTupleColumn true None else mkTupleColumn false v) vals.

Lemma tuple_recovered toast old idx vals data :
  (∀ i, toast (idx + i)%nat = true → (i < length vals)%nat → ∃ v, vals !! i = Some (Some v) ∧ old !! (idx + i)%nat = Some (Some v)) →
  tuple_data (Some (full_tuple old)) idx (imap (λ i v, if toast (idx + i)%nat then mkTupleColumn true None else mkTupleColumn false v) vals) data
  = tuple_data None idx (full_tuple vals) data.
Proof.
  revert idx data. induction vals as [|v vals IH]; intros idx data Ht; [done|]. rewrite imap_cons. cbn [full_tuple fmap list_fmap tuple_data].
  assert (Hrest : ∀ d, tuple_data (Some (full_tuple old)) (S idx) (imap ((λ i v, if toast (idx + i)%nat then mkTupleColumn true None else mkTupleColumn false v) ∘ S) vals) d
    = tuple_data None (S idx) (full_tuple vals) d).
  { intros d. rewrite <- IH.
    - f_equal. apply imap_ext. intros i x _. cbn. by rewrite Nat.add_succ_r.
    - intros i Hi Hl. destruct (Ht (S i)) as (x & H1 & H2); [by rewrite Nat.add_succ_r|cbn; lia|]. exists x. split; [done|]. by rewrite Nat.add_succ_r in H2. }
  destruct (rel_Columns rel !! idx) as [rc|]; [|apply Hrest]. rewrite Nat.add_0_r.
  assert (column_value (Some (full_tuple old)) idx rc (if toast idx then mkTupleColumn true None else mkTupleColumn false v) = column_value None idx rc (mkTupleColumn false v)) as ->.
  { destruct (toast idx) eqn:Et; [|done]. destruct (Ht 0%nat) as (x & [= ->] & H2); [by rewrite Nat.add_0_r|cbn; lia|]. rewrite Nat.add_0_r in H2.
    unfold column_value. cbn. unfold full_tuple. by rewrite list_lookup_fmap, H2. }
  destruct (column_value _ _ _ _); cbn; [apply Hrest|done..].
Qed.

(** The columns of the result, one by one. *)
Lemma tuple_lookup old idx columns data d : NoDup (rc_Name <$> rel_Columns rel) → tuple_data old idx columns data = Ok d →
  ∀ j rc, rel_Columns rel !! j = Some rc →
  match (if decide (idx ≤ j)%nat then columns !! (j - idx)%nat else None) with
  | Some col => ∃ v, column_value old j rc col = Ok v ∧ d !! rc_Name rc = Some v
  | None => d !! rc_Name rc = data !! rc_Name rc
  end.
Proof.
  intros Hnd. revert idx data. induction columns as [|col columns IH]; intros idx data; cbn [tuple_data].
  { intros [= ->] j rc Hj. destruct (decide _); by rewrite ?lookup_nil. }
  assert (Hcase : ∀ j, (if decide (idx ≤ j)%nat then (col :: columns) !! (j - idx)%nat else None) =
    if decide (idx = j) then Some col else if decide (S idx ≤ j)%nat then columns !! (j - S idx)%nat else None).
  { intros j. destruct (decide (idx = j)) as [->|Hne]; [by rewrite decide_True, Nat.sub_diag by lia|]. destruct (decide (S idx ≤ j)%nat); [|by rewrite decide_False by lia].
    rewrite decide_True by lia. by replace (j - idx)%nat with (S (j - S idx)) by lia. }
  destruct (rel_Columns rel !! idx) as [rc0|] eqn:E0.
  - destruct (column_value old idx rc0 col) as [v| |] eqn:Ev; [|done..]. cbn. intros Hd j rc Hj. rewrite Hcase. specialize (IH _ _ Hd j rc Hj). destruct (decide (idx = j)) as [->|Hne].
    + rewrite decide_False in IH by lia. rewrite E0 in Hj. injection Hj as ->. exists v. split; [done|]. by rewrite IH, lookup_insert_eq.
    + destruct (if decide (S idx ≤ j)%nat then _ else _); [done|]. rewrite IH, lookup_insert_ne; [done|]. intros Heq. apply Hne.
      eapply (NoDup_lookup (rc_Name <$> rel_Columns rel)); [done|by rewrite list_lookup_fmap, E0|by rewrite list_lookup_fmap, Hj; cbn; rewrite Heq].
  - intros Hd j rc Hj. rewrite Hcase. destruct (decide (idx = j)) as [->|]; [congruence|]. by apply IH.
Qed.
Lemma tuple_succeeds old columns idx data : (∀ i rc col, rel_Columns rel !! (idx + i)%nat = Some rc → columns !! i = Some col → is_ok (column_value old (idx + i)%nat rc col) = true) →
  ∃ d, tuple_data old idx columns data = Ok d.
Proof.
  revert idx data. induction columns as [|col columns IH]; intros idx data Hall; cbn [tuple_data]; [by eexists|].
  assert (Hrest : ∀ d0, ∃ d, tuple_data old (S idx) columns d0 = Ok d).
  { intros d0. apply IH. intros i rc c Hr Hc. specialize (Hall (S i) rc c). rewrite Nat.add_succ_r in Hall. by apply Hall. }
  destruct (rel_Columns rel !! idx) as [rc|] eqn:Er; [|apply Hrest]. specialize (Hall 0%nat rc col). rewrite Nat.add_0_r in Hall. specialize (Hall Er eq_refl).
  destruct (column_value _ _ _ _); [|done..]. apply Hrest.
Qed.

(** C36: an UPDATE does not lose unchanged TOAST values.  The server only marks them; under
    REPLICA IDENTITY FULL the old row comes along, and the record has exactly the values
    that a row sent in full would have.  Without the old row the marked columns, and only
    they, hold the "unavailable" marker. *)
Theorem toast_values_recovered toast vals :
  (∀ old, (∀ i, toast i = true → (i < length vals)%nat → ∃ v, vals !! i = Some (Some v) ∧ old !! i = Some (Some v)) →
     fst <$> tupleValuesToMap converter rel (Some (sent_tuple toast vals)) (Some (full_tuple old)) = fst <$> tupleValuesToMap converter rel (Some (full_tuple vals)) None)
  ∧ ∀ d, NoDup (rc_Name <$> rel_Columns rel) → fst <$> tupleValuesToMap converter rel (Some (full_tuple vals)) None = Ok d →
     ∃ d', fst <$> tupleValuesToMap converter rel (Some (sent_tuple toast vals)) None = Ok d'
     ∧ ∀ i rc, rel_Columns rel !! i = Some rc → (i < length vals)%nat → d' !! rc_Name rc = if toast i then Some (AString olakeUnavailableValue) else d !! rc_Name rc.
Proof.
  split.
  - intros old Ht. rewrite !tuple_values. by apply (tuple_recovered toast old 0).
  - intros d Hnd. rewrite !tuple_values. intros Hd. pose proof (tuple_lookup _ _ _ _ _ Hnd Hd) as Hfull.
    assert (Hcol : ∀ i, full_tuple vals !! i = mkTupleColumn false <$> vals !! i) by (intros i; apply list_lookup_fmap).
    assert (Hsent : ∀ i, sent_tuple toast vals !! i = (λ v, if toast i then mkTupleColumn true None else mkTupleColumn false v) <$> vals !! i) by (intros i; apply list_lookup_imap).
    destruct (tuple_succeeds None (sent_tuple toast vals) 0 ∅) as [d' Hd'].
    { intros i rc col Hr. cbn in Hr |- *. rewrite Hsent. specialize (Hfull i rc Hr). rewrite decide_True, Nat.sub_0_r, Hcol in Hfull by lia. destruct (vals !! i) as [v|]; [|done]. cbn.
      intros [= <-]. destruct (toast i); [done|]. destruct Hfull as (x & Hx & _). unfold column_value in *. cbn in *. by rewrite Hx. }
    exists d'. split; [done|]. intros i rc Hr Hi. pose proof (tuple_lookup _ _ _ _ _ Hnd Hd' i rc Hr) as Hl. specialize (Hfull i rc Hr).
    rewrite decide_True, Nat.sub_0_r in Hfull, Hl by lia. rewrite Hcol in Hfull. rewrite Hsent in Hl. destruct (lookup_lt_is_Some_2 vals i Hi) as [v Hv]. rewrite Hv in *. cbn in *.
    destruct Hfull as (x & Hx & ->), Hl as (y & Hy & ->). destruct (toast i); [by injection Hy as <-|]. unfold column_value in *. cbn in *. congruence.
Qed.
End Tuples.

(** An update of the first column of a row whose second one is stored out of line. *)
Section Example.
#[local] Existing Instance mc_env.
Lemma toast_values_recovered_witness :
  let rel := mkRelation 1 "db" "docs" [mkRelColumn "id" Int8OID; mkRelColumn "body" TextOID] in
  let toast i := Nat.eqb i 1 in
  (fst <$> tupleValuesToMap pg_dataTypeConverter rel (Some (sent_tuple toast [Some "2"; Some "long"])) (Some (full_tuple [Some "1"; Some "long"]))
     = Ok {["id" := AInt KInt64 2; "body" := AString "long"]})
  ∧ ∃ d', fst <$> tupleValuesToMap pg_dataTypeConverter rel (Some (sent_tuple toast [Some "2"; Some "long"])) None = Ok d'
     ∧ d' !! "body" = Some (AString olakeUnavailableValue).
Proof.
  intros rel toast. destruct (toast_values_recovered pg_dataTypeConverter rel toast [Some "2"; Some "long"]) as [Hfull Hnone]. split.
  - rewrite Hfull; [vm_compute; reflexivity|]. intros [|[|i]]; cbn; [done|by eexists|lia].
  - destruct (Hnone {["id" := AInt KInt64 2; "body" := AString "long"]}) as (d' & Hd & Hcols); [by_decide|vm_compute; reflexivity|].
    exists d'. split; [exact Hd|]. exact (Hcols 1%nat (mkRelColumn "body" TextOID) eq_refl ltac:(cbn; lia)).
Defined.
End Example.
