(* ===== verification/PostgresCdcFacts.v ===== *)
(** * Theorems about Postgres change capture: every committed change reaches every stream
    exactly once, across failed attempts, lost acknowledgements and restarts *)

From S2P Require Import Prelude GoString GoSet DataTypes QueryEngine Value ValueFacts Schema Stream Catalog State StateFacts TwoPC Fields Writers Utils Backfill Incremental IncrementalFacts Jdbc Chunking Binlog Cdc CdcFacts Waljs PostgresCdc WaljsFacts.

Section Facts.
Context {HS : GoHash string} {HC : GoHash Chunk} {HR : GoRange} {HE : GoEnv} {HL : LsnCodec} {HJ : JsonCodec} {HW : WalCodec} {HK : Sink}.
Context (keep : gmap string any → bool) {HKS : CursorSink keep} {HSS : StreamSink}.
Context (md5_hex : string → string) (cfg : pg_config).
Hypothesis Hplugin : ToLower (TrimSpace (cfg_Plugin cfg)) = "pgoutput".

Context (wal : list txn).
Record wal_ok : Prop := {
  wo_order : StronglySorted (λ t t', tx_end t < tx_end t')%nat wal;
  wo_width t : t ∈ wal → lsn (tx_end t) < 2 ^ 64
}.
Hypothesis Hwal : wal_ok.
Context (streams : list ConfiguredStream) (base : ConfiguredStream → list (gmap string any)).
Hypothesis Hids : NoDup (ID <$> streams).
Hypothesis Hsome : streams ≠ [].
Hypothesis Hhash : collision_free (λ id, id ∈ ID <$> streams) None.

Notation rows_of := (change_rows pg_dataTypeConverter).
Notation lsn_text i := (LSN_String (lsn i)) (only parsing).
Definition wanted (s : ConfiguredStream) (cs : list (RelationMessage * dml)) : list (gmap string any) :=
  filter (λ d, keep d = true) (RetainSelectedColumns s <$> (cs ≫= rows_of s)).
(** The rows of a stream committed by a position, and between two. *)
Definition expected (s : ConfiguredStream) (k : nat) : list (gmap string any) := wanted s (changes_in wal 0 k).
Definition fresh (s : ConfiguredStream) (k e : nat) : list (gmap string any) := wanted s (changes_in wal k e).
Lemma pg_expected_split s k e : (k ≤ e)%nat → expected s e = expected s k ++ fresh s k e.
Proof.
  intros Hle. unfold expected, fresh, wanted. rewrite (changes_split wal (wo_order Hwal) 0 k e) by lia. by rewrite bind_app, fmap_app, filter_app.
Qed.
Lemma pg_fresh_none s k : fresh s k k = [].
Proof. unfold fresh, changes_in. by rewrite window_none. Qed.

(** ** Positions in the state and the metadata *)
Notation text_ := (λ i, lsn_json (lsn_text i)).
Notation at_pos := (at_position "lsn" text_).
Definition behind (k : nat) (st : option state_json) : Prop :=
  match st with None => True | Some x => ∃ t p, state_lsn x = Some t ∧ ParseLSN t = Some p ∧ p ≤ lsn k end.
Definition fits64 (i : nat) : Prop := lsn i < 2 ^ 64.
Lemma parse_lsn i : fits64 i → ParseLSN (lsn_text i) = Some (lsn i).
Proof. intros Hi. apply lsn_read. unfold fits64, lsn in *. lia. Qed.
Lemma validate_position k c : fits64 k →
  validateGlobalState (lsn_text k) (lsn c) = if bool_decide (k = c) then None else Some "lsn mismatch, please proceed with clear destination".
Proof.
  intros Hk. unfold validateGlobalState. rewrite (proj2 (String.eqb_neq _ _) (lsn_nonempty (lsn k))), parse_lsn by done.
  case_bool_decide as Hkc; [by rewrite Hkc, Z.eqb_refl|]. by rewrite (proj2 (Z.eqb_neq _ _)) by (unfold lsn; lia).
Qed.
Lemma pg_at_read e st : at_pos e st → ∃ x, st = Some x ∧ state_lsn x = Some (lsn_text e).
Proof. intros (f & -> & Hf). eexists. split; [done|]. cbn. rewrite Hf. apply lsn_json_read. Qed.
Lemma pg_at_behind e k st : fits64 e → (e ≤ k)%nat → at_pos e st → behind k st.
Proof. intros Hf He (x & -> & Hx)%pg_at_read. exists (lsn_text e), (lsn e). split_and!; [done|by apply parse_lsn|unfold lsn; lia]. Qed.
Lemma pg_behind_mono k k' st : (k ≤ k')%nat → behind k st → behind k' st.
Proof. intros Hk. destruct st as [x|]; [|done]. intros (t & p & H1 & H2 & H3). exists t, p. unfold lsn in *. split_and!; [done..|lia]. Qed.
Lemma ahead_not_behind k e st : fits64 e → (k < e)%nat → at_pos e st → ¬ behind k st.
Proof.
  intros Hf Hke (x & -> & Hx)%pg_at_read (t & p & Ht & Hp & Hle). rewrite Hx in Ht. injection Ht as <-. rewrite parse_lsn in Hp by done. injection Hp as <-. unfold lsn in *. lia.
Qed.

Definition holds (s : State) (k : nat) : Prop :=
  ∃ g, st_Global s = Some g ∧ (g_State g = wal_value (lsn_text k) ∨ g_State g = json_any (wal_value (lsn_text k))).
Lemma holds_read s k : holds s k → ∃ g, st_Global s = Some g ∧ Unmarshal_wal (g_State g) = Ok (lsn_text k).
Proof. intros (g & Hg & Hv). exists g. split; [done|]. destruct Hv as [-> | ->]; [apply wal_read|apply wal_reread]. Qed.
Lemma pg_holds_unique s k k' : fits64 k → fits64 k' → holds s k → holds s k' → k = k'.
Proof.
  intros Hk Hk' (g & Hg & Hu)%holds_read (g' & Hg' & Hu')%holds_read. rewrite Hg in Hg'. injection Hg' as <-. rewrite Hu in Hu'. injection Hu' as Heq.
  apply (f_equal ParseLSN) in Heq. rewrite !parse_lsn in Heq by done. injection Heq as Heq. unfold lsn in Heq. lia.
Qed.
Lemma pg_position_reload s k : holds s k → holds (unmarshal (marshal s)) k.
Proof. intros (g & Hg & Hv). eexists. cbn. rewrite Hg. split; [done|]. right. cbn. destruct Hv as [-> | ->]; [done|apply json_decoded]. Qed.
Lemma pg_holds_set s k : holds (SetGlobal s (wal_value (lsn_text k)) []) k.
Proof.
  destruct (wal_set (lsn_text k)) as [Hn _]. unfold SetGlobal. destruct (st_Global s) as [g|]; eexists; cbn; (split; [done|left]); [|done].
  by destruct (wal_value (lsn_text k)).
Qed.
Lemma pg_position_logged s k file : holds s k → LogState s file = Some (marshal s).
Proof. intros (g & Hg & _). unfold LogState, isZero. by rewrite Hg. Qed.

(** ** What an attempt will read *)
Notation status_ := (status keep "lsn" text_ behind base expected).
Notation fits_ := (fits keep "lsn" text_ behind base expected fresh).
Notation rows_ := (holds_rows keep base expected).
Notation to_read_ k e := (to_read keep "lsn" text_ behind base expected k e streams).
Notation meta_ := (meta_state keep).
Notation scan := wal_scan_metadata.

Lemma pg_scan_skips k acc id st : fits64 k → behind k st → wal_scan_one (lsn_text k) acc (id, st) = Ok acc.
Proof.
  intros Hk Hb. unfold wal_scan_one. cbn. destruct st as [x|]; [|done]. destruct Hb as (t & p & -> & -> & Hle). rewrite parse_lsn by done.
  by rewrite (proj2 (Z.ltb_ge _ _) Hle).
Qed.
Lemma pg_scan_marks k e acc id st : fits64 e → (k < e)%nat → at_pos e st → wal_scan_one (lsn_text k) acc (id, st) = Ok (acc.1 ++ [id], lsn_text e).
Proof.
  intros He Hlt (x & -> & Hx)%pg_at_read. unfold wal_scan_one. cbn. rewrite Hx, !parse_lsn by (unfold fits64, lsn in *; lia).
  by rewrite (proj2 (Z.ltb_lt _ _)) by (unfold lsn; lia).
Qed.

Lemma pg_plan_spec sk ulid k e : (k ≤ e)%nat → fits64 e → (∀ s, s ∈ streams → status_ sk k e s) →
  ∃ fin lsn_ rec R, scan (lsn_text k) (metas_of Postgres streams sk ulid) = Ok (fin, lsn_) ∧ pg_plan streams fin lsn_ = Ok (rec, R) ∧ NoDup (ID <$> R)
  ∧ to_read_ k e sk fin R ∧ (fin = [] ∧ rec = None ∧ R = streams ∨ fin ≠ [] ∧ rec = Some (lsn e) ∧ lsn_ = lsn_text e).
Proof.
  intros Hke He Hst.
  destruct (scan_metas keep Postgres "lsn" text_ behind base expected (wal_scan_one (lsn_text k)) "" (lsn_text e) k e
    ltac:(intros; apply pg_scan_skips; [unfold fits64, lsn in *; lia|done]) ltac:(intros; by apply pg_scan_marks) ltac:(intros; by apply (ahead_not_behind k e)) streams Hids sk ulid Hst)
    as (fin & l & Hs & H1 & H2 & Hsub & Hread).
  destruct fin as [|f fin].
  - exists [], l, None, streams. split_and!; try done; [|by left]. apply Hread. set_solver.
  - specialize (H2 ltac:(done)). subst l. set (R := filter (λ s, GoSet.Exists (NewSet (f :: fin)) (ID s) = false) streams).
    exists (f :: fin), (lsn_text e), (Some (lsn e)), R. split_and!; [done| | |apply Hread|by right].
    + unfold pg_plan. by rewrite parse_lsn.
    + eapply sublist_NoDup; [exact Hids|]. apply fmap_sublist, sublist_filter.
    + intros s. unfold R. rewrite list_elem_of_filter. split.
      * intros [Hx Hs']. split; [done|]. intros Hin.
        by rewrite (proj2 (Exists_NewSet _ (f :: fin) (ID s) Hhash Hsub ltac:(by apply list_elem_of_fmap_2)) Hin) in Hx.
      * intros [Hs' Hni]. split; [|done]. apply not_true_is_false. intros Hx%(Exists_NewSet _ _ _ Hhash Hsub); [done|by apply list_elem_of_fmap_2].
Qed.

(** Metadata at [t] are ahead of the state: the next attempt recovers up to [t]. *)
Definition recovers (sk : sink) (st : State) (t : nat) : Prop := ∃ s k, s ∈ streams ∧ holds st k ∧ (k < t)%nat ∧ fits64 t ∧ at_pos t (meta_ sk s).

Section Changes.
Context (push : list (string * RawRecord) → CDCChange → list (string * RawRecord) * option stop).
Hypothesis Hpush : appends push.
Notation loop := (pgoutput_loop pg_dataTypeConverter push).

Definition start_of (filter : gmap string ConfiguredStream) (c : nat) (target : Z) : pgoutputReplicator :=
  mkPgoutput (mkSocket true (lsn c) filter (lsn c) target (cfg_InitialWaitTime cfg)) zero_time ∅ true.
Lemma start_session R c target : NoDup (ID <$> R) → in_session R (start_of (NewTableFilter (Array (NewSet R))) c target) (mkServer ∅ Idle c).
Proof. intros Hnd. by split; [apply filter_by_id|..]. Qed.
Lemma start_sent lim c : fits64 c → sent_since wal lim c (mkServer ∅ Idle c) [].
Proof. intros Hc. split_and!; cbn; [lia|done| |]; unfold changes_in; rewrite window_none by lia; [by intros t ?%elem_of_nil|done]. Qed.

(** Reading from the target on delivers nothing. *)
Lemma loop_at_target filter c ticks received p' l' r : loop ticks received (start_of filter c (lsn c)) [] = Some (p', l', r) → (∀ st, r ≠ WalEnded st) →
  p' = start_of filter c (lsn c) ∧ l' = [] ∧ (r = WalCtxDone ∨ r = WalReached).
Proof.
  destruct ticks as [|t ticks]; [done|]. cbn [pgoutput_loop]. destruct (w_done t); [intros [= <- <- <-]; auto|].
  destruct (_ && _); [intros [= <- <- <-] Hr; by destruct (Hr (Stops wait_error))|]. cbn. rewrite Z.leb_refl. intros [= <- <- <-]. auto.
Qed.

(** One read from the slot's position [c] with target [tg]. *)
Lemma read_from R lim c tg ticks p' l' r : NoDup (ID <$> R) → fits64 c → serves wal lim c ticks → Forall (λ t, w_recv t ≠ RecvEOF) ticks →
  loop ticks false (start_of (NewTableFilter (Array (NewSet R))) c tg) [] = Some (p', l', r) → (∀ st, r ≠ WalEnded st) →
  r = WalCtxDone ∨ r = WalReached ∧ ∃ j, (c ≤ j)%nat ∧ tg ≤ lsn j ∧ fits64 j ∧ conn_open (pg_socket p') = true ∧ ClientXLogPos (pg_socket p') = lsn j
    ∧ (∀ t, t ∈ window wal c j → tx_end t ≤ lim)%nat ∧ adds rows_of R (changes_in wal c j) [] l'.
Proof.
  intros Hnd Hc Hserve Heof Hloop Hr.
  destruct (wal_loop_adds pg_dataTypeConverter wal (wo_order Hwal) (wo_width Hwal) push Hpush R Hnd lim c [] ticks false _ [] _ [] _ _ _
    (start_session R c tg Hnd) (start_sent lim c Hc) (adds_nil _ _ _) Hserve Heof Hloop Hr) as [[x Hx] [->|(-> & j & Hj & Htg & Hpos & Hlim & Hadd)]]; [by left|].
  right. split; [done|]. exists j. rewrite Hx in *. cbn in *. unfold fits64. split_and!; (done || lia).
Qed.

(** A read that no transaction past its target entered holds exactly those up to it. *)
Lemma changes_capped c e j lim : (c ≤ e ≤ j)%nat → (lim ≤ e)%nat → (∀ t, t ∈ window wal c j → tx_end t ≤ lim)%nat → changes_in wal c j = changes_in wal c e.
Proof.
  intros Hcej Hlim Hw. unfold changes_in. rewrite (window_split wal (wo_order Hwal) c e j Hcej) in *. assert (window wal e j = []) as ->; [|by rewrite app_nil_r].
  destruct (window wal e j) as [|t l] eqn:E; [done|]. exfalso. assert (Ht : t ∈ window wal e j) by (rewrite E; left).
  apply list_elem_of_filter in Ht as [Ht _]. specialize (Hw t). rewrite elem_of_app in Hw. specialize (Hw ltac:(right; left)). lia.
Qed.

(** What was pushed completes every stream to the new position. *)
Lemma read_fits sk k e e' fin R l' : to_read_ k e sk fin R → (fin = [] ∧ R = streams ∨ fin ≠ [] ∧ e' = e) →
  (∀ s, s ∈ R → filter (λ d, keep d = true) (Data <$> pushed (ID s) l') ≡ₚ fresh s k e') → (∀ id, (∀ s, s ∈ R → ID s ≠ id) → pushed id l' = []) →
  ∀ s, s ∈ streams → fits_ l' sk k e' s.
Proof.
  intros (Hleft & HF & _) Hor Hnew Hnone s Hs. destruct (HF s Hs) as [Hin|(Hne & Hlt & Hat & Hro & Hother)].
  - left. destruct (Hleft s Hin) as (_ & Hb & Hro). split_and!; auto.
  - right. destruct Hor as [[? _]|[_ ->]]; [done|]. split_and!; auto.
Qed.

Lemma replicate_spec inp p k e rec R r0 cm fin sk lim c p' l' final done :
  slot_at p = lsn c → (k ≤ e)%nat → fits64 e → NoDup (ID <$> R) → to_read_ k e sk fin R →
  (fin = [] ∧ rec = None ∧ R = streams ∨ fin ≠ [] ∧ rec = Some (lsn e) ∧ cm = lsn_text e) →
  (c = k ∨ c = e ∧ ∀ s, s ∈ streams → rows_ sk s e) → serves wal lim c (pi_ticks inp) → (fin ≠ [] → (lim ≤ e)%nat) → Forall (λ t, w_recv t ≠ RecvEOF) (pi_ticks inp) →
  (∃ tg, r0 = PgoutputReplicator (mkPgoutput (mkSocket true (lsn c) (NewTableFilter (Array (NewSet R))) (lsn c) tg (cfg_InitialWaitTime cfg)) zero_time ∅ false)
    ∧ (fin ≠ [] → tg = lsn e)) →
  replicate inp p (lsn_text k) cm rec R r0 push [] = Some (p', l', Streamed final done) →
  ∃ r, p' = with_replicator p r ∧ (done = true ∨ done = false ∧ ∃ e', (k ≤ e')%nat ∧ fits64 e' ∧ final = OneFinal (wal_state (lsn_text e'))
    ∧ conn_open (socket_of r) = true ∧ ClientXLogPos (socket_of r) = lsn e' ∧ (∀ s, s ∈ streams → status_ sk k e' s) ∧ (∀ s, s ∈ streams → fits_ l' sk k e' s)
    ∧ (c = k ∨ e' = e ∧ l' = [])).
Proof.
  intros Hslot Hke He Hnd Hread Hor Hc Hserve Hlim Heof (tg & -> & Htg). unfold replicate. rewrite Hslot.
  destruct (if _ && _ then _ else None) as [err|] eqn:Einv; [done|]. cbn [replicator_StreamChanges]. unfold pgoutput_StreamChanges.
  destruct (pi_start inp); [|done]. cbn [pg_socket txnCommitTime relationIDToMsgMap].
  change (mkPgoutput (mkSocket true (lsn c) ?f _ _ _) _ _ true) with (start_of f c tg).
  destruct (loop (pi_ticks inp) false _ []) as [[[p1 l1] rr]|] eqn:Eloop; [|done]. cbn [fmap option_fmap option_map fst snd]. intros Hres.
  assert (Hend : ∀ st, rr ≠ WalEnded st) by (intros [err|] ->; done).
  assert (Hdone : rr = WalCtxDone → ∃ r, p' = with_replicator p r ∧ done = true).
  { intros ->. destruct rec; injection Hres as <- <- <- <-; by eexists. }
  assert (Hfin : ∀ j e', rr = WalReached → ClientXLogPos (pg_socket p1) = lsn j → conn_open (pg_socket p1) = true → (fin = [] ∧ e' = j ∨ fin ≠ [] ∧ e' = e) →
    ∃ r, p' = with_replicator p r ∧ done = false ∧ l' = l1 ∧ final = OneFinal (wal_state (lsn_text e')) ∧ conn_open (socket_of r) = true ∧ ClientXLogPos (socket_of r) = lsn e').
  { intros j e' -> Hpos Hopen He'. destruct Hor as [(-> & -> & _)|(Hne & -> & ->)], He' as [[? ->]|[? ->]]; try done; injection Hres as <- <- <- <-; eexists; (split; [done|]); cbn;
      rewrite ?Hpos; by split_and!. }
  assert (Hfits64 : fits64 c) by (destruct Hc as [->|[-> _]]; unfold fits64, lsn in *; lia).
  destruct (decide (c = k)) as [->|Hck].
  - destruct (read_from R lim k tg _ _ _ _ Hnd Hfits64 Hserve Heof Eloop Hend) as [Hctx|(Hre & j & Hj & Htj & Hj64 & Hopen & Hpos & Hw & Hadd)].
    { destruct (Hdone Hctx) as (r & -> & ->). exists r. split; [done|by left]. }
    set (e' := if decide (fin = []) then j else e).
    assert (He' : fin = [] ∧ e' = j ∨ fin ≠ [] ∧ e' = e) by (unfold e'; destruct (decide _); auto).
    destruct (Hfin j e' Hre Hpos Hopen He') as (r & -> & -> & -> & -> & Hop & Hps). exists r. split; [done|]. right. split; [done|]. exists e'.
    assert (Hch : changes_in wal k j = changes_in wal k e').
    { destruct He' as [[_ ->]|[Hne ->]]; [done|]. rewrite (Htg Hne) in Htj. apply (changes_capped _ _ _ lim); [unfold lsn in Htj; lia|auto|done]. }
    rewrite Hch in Hadd.
    assert (Hfit : ∀ s, s ∈ streams → fits_ l1 sk k e' s).
    { apply (read_fits sk k e e' fin R); [done| | |apply Hadd].
      - naive_solver.
      - intros s Hs. rewrite (proj1 Hadd s Hs). done. }
    split_and!; try done; [destruct He' as [[_ ->]|[_ ->]]; lia|destruct He' as [[_ ->]|[_ ->]]; done| |by left].
    intros s Hs. eapply fits_status, Hfit, Hs.
  - destruct Hc as [?|[-> Hall]]; [done|]. destruct Hor as [(-> & -> & ->)|(Hne & -> & ->)].
    { destruct streams as [|s0 ss]; [done|]. cbn in Einv. rewrite validate_position, bool_decide_false in Einv; [done|lia|unfold fits64, lsn in *; lia]. }
    rewrite (Htg Hne) in Eloop. destruct (loop_at_target _ _ _ _ _ _ _ Eloop Hend) as (-> & -> & [Hctx|Hre]).
    { destruct (Hdone Hctx) as (r & -> & ->). exists r. split; [done|by left]. }
    destruct (Hfin e e Hre eq_refl eq_refl (or_intror (conj Hne eq_refl))) as (r & -> & -> & -> & -> & Hop & Hps). exists r. split; [done|]. right. split; [done|]. exists e.
    assert (Hfit : ∀ s, s ∈ streams → fits_ [] sk k e s).
    { apply (read_fits sk k e e fin R); [done|auto| |done]. intros s Hs. destruct Hread as (Hleft & _). destruct (Hleft s Hs) as (Hin & _ & Hk). specialize (Hall s Hin).
      unfold holds_rows in Hk, Hall. rewrite Hk, (pg_expected_split s k e Hke), app_assoc in Hall. rewrite <- (app_nil_r (base s ++ expected s k)) in Hall at 1. by apply (inj (app _)) in Hall. }
    split_and!; try done; [|by right]. intros s Hs. eapply fits_status, Hfit, Hs.
Qed.

Lemma new_replicator xlogpos R slot rec r0 : Plugin slot = cfg_Plugin cfg →
  NewReplicator xlogpos R (cfg_InitialWaitTime cfg) slot rec = Ok r0 →
  ∃ tg, r0 = PgoutputReplicator (mkPgoutput (mkSocket true (slot_LSN slot) R (slot_LSN slot) tg (cfg_InitialWaitTime cfg)) zero_time ∅ false)
    ∧ ∀ l, rec = Some l → tg = l.
Proof.
  intros Hpl. unfold NewReplicator. destruct xlogpos as [x| |]; [|done..]. cbn. rewrite Hpl, Hplugin. intros [= <-]. eexists. split; [done|]. by intros l ->.
Qed.

Lemma pg_changes_spec inp p s k e sk ulid lim c p' l' final done :
  p_streams p = streams → (k ≤ e)%nat → fits64 e → holds s k → (∀ s, s ∈ streams → status_ sk k e s) →
  slot_at p = lsn c → (c = k ∨ c = e ∧ ∀ s, s ∈ streams → rows_ sk s e) →
  serves wal lim c (pi_ticks inp) → (∀ t, recovers sk s t → (lim ≤ t)%nat) → Forall (λ t, w_recv t ≠ RecvEOF) (pi_ticks inp) →
  pg_StreamChanges cfg inp p s (metas_of Postgres streams sk ulid) push [] = Some (p', l', Streamed final done) →
  ∃ r, p' = with_replicator p r ∧ (done = true ∨ done = false ∧ ∃ e', (k ≤ e')%nat ∧ fits64 e' ∧ final = OneFinal (wal_state (lsn_text e'))
    ∧ conn_open (socket_of r) = true ∧ ClientXLogPos (socket_of r) = lsn e' ∧ (∀ s, s ∈ streams → status_ sk k e' s) ∧ (∀ s, s ∈ streams → fits_ l' sk k e' s)
    ∧ (c = k ∨ e' = e ∧ l' = [])).
Proof.
  intros Hp Hke He Hh Hst Hslot Hc Hserve Hlim Heof. unfold pg_StreamChanges. pose proof (holds_read s k Hh) as (g & -> & ->).
  destruct (pg_plan_spec sk ulid k e Hke He Hst) as (fin & cm & rec & R & -> & Hplan & Hnd & Hread & Hor). cbn [mbind result_bind].
  rewrite Hp, Hplan. unfold prepareWALJSConfig, GetSlotPosition. destruct (negb (CDCSupport cfg)); [done|]. destruct (TLS_error cfg); [done|].
  destruct (pi_slot inp); [done|]. cbn [mbind result_bind].
  destruct (NewReplicator _ _ _ _ _) as [r0| |] eqn:Er; [|done..]. cbn [mbind result_bind]. apply new_replicator in Er as (tg & -> & Htg); [|done]. cbn [slot_LSN]. rewrite Hslot.
  apply (replicate_spec inp p k e rec R _ cm fin sk lim c); try done.
  - intros Hne. apply Hlim. destruct Hread as (_ & _ & Hrec). destruct (Hrec Hne) as (st & Hs' & Hlt & Hat). by exists st, k.
  - exists tg. split; [done|]. intros Hne. destruct Hor as [[? _]|(_ & -> & _)]; [done|]. by apply Htg.
Qed.
End Changes.

(** ** The invariant

    Between attempts the connection is closed, and the slot is where the state is -- or at
    the position of an acknowledged sync whose state was not stored. *)
#[local] Instance drv : ChangeDriver := Postgres_changes cfg.
Implicit Types (w : cdc_world).
Notation attempt_ ai w := (streamChanges md5_hex Postgres ai streams w) (only parsing).

Record cinv w (k e : nat) : Prop := {
  ci_le : (k ≤ e)%nat;
  ci_width : fits64 e;
  ci_state : holds (b_state (c_world w)) k;
  ci_file : ∃ s0, b_file (c_world w) = Some (marshal s0) ∧ holds s0 k;
  ci_streams : ∀ s, s ∈ streams → status_ (b_sink (c_world w)) k e s;
  ci_driver : p_streams (c_driver w) = streams;
  ci_closed r : replicator (c_driver w) = Some r → conn_open (socket_of r) = false;
  ci_slot : slot_at (c_driver w) = lsn k ∨ slot_at (c_driver w) = lsn e ∧ ∀ s, s ∈ streams → rows_ (b_sink (c_world w)) s e
}.

(** What the theorem asks of the outside: the server sends what the log holds, no
    connection ends unnoticed, and a recovery is not sent transactions past its position. *)
Record fair w (ai : attempt_input) : Prop := {
  fa_served : ∃ lim, (∀ c, slot_at (c_driver w) = lsn c → serves wal lim c (pi_ticks (ai_in ai)))
    ∧ ∀ t, recovers (b_sink (c_world w)) (b_state (c_world w)) t → (lim ≤ t)%nat;
  fa_eof : Forall (λ t, w_recv t ≠ RecvEOF) (pi_ticks (ai_in ai))
}.

(** Acknowledging leaves the slot where it was or moves it to the position, and reports
    success only at the position. *)
Lemma await_spec polls late slot pos at_ err : await_slot polls late slot pos = (at_, err) → (at_ = slot ∨ at_ = pos) ∧ (err = None → at_ = pos).
Proof.
  induction polls as [|[|e|b] polls IH]; cbn [await_slot]; [intros [= <- <-]; (split; [destruct late; auto|done])..|].
  destruct (_ =? pos); [intros [= <- <-]; auto|exact IH].
Qed.

(** The post-CDC step: the connection is closed and, when an open one is not acknowledged
    to the end, nothing is stored. *)
Lemma post_kept ai done err w k e w' out :
  cinv w k e ∨ done = true ∧ cinv (mkCdc (c_world w) (mkPg (p_streams (c_driver w)) None (slot_at (c_driver w)))) k e →
  (err ≠ None ∨ done = true ∧ replicator (c_driver w) ≠ None) →
  post_cdc ai done err w = (w', out) → cinv w' k e ∧ out ≠ Finished 0.
Proof.
  intros Hinv Herr. destruct w as [b d]. unfold post_cdc. cbn. unfold pg_PostCDC. destruct (replicator d) as [r|] eqn:Er.
  - destruct done.
    + intros [= <- <-]. split; [|by destruct err]. destruct Hinv as [Hinv|[_ Hinv]]; destruct Hinv; split; cbn in *; try done; intros r' [= <-]; by destruct r.
    + destruct Hinv as [Hinv|[? _]]; [|done]. pose proof (ci_closed _ _ _ Hinv r Er) as Hcl. unfold AcknowledgeLSN. rewrite Hcl. cbn. intros [= <- <-].
      split; [|by destruct Herr as [?|[? _]]; [destruct err|]]. destruct Hinv; split; cbn in *; try done. intros r' [= <-]; by destruct r.
  - intros [= <- <-]. destruct Herr as [Herr|[_ ?]]; [|done]. destruct err as [err|]; [|done]. split; [|done].
    destruct Hinv as [Hinv|[_ Hinv]]; [done|]. destruct Hinv; split; cbn in *; try done. intros r' Hr'. by rewrite Er in Hr'.
Qed.
(** The driver without its connection. *)
Definition forget w : cdc_world := mkCdc (c_world w) (mkPg (p_streams (c_driver w)) None (slot_at (c_driver w))).
Lemma cinv_forget w k e : cinv w k e → cinv (forget w) k e.
Proof. intros []. by split. Qed.

(** An acknowledged position is stored; an unconfirmed one leaves the state behind the slot. *)
Lemma post_acked ai b r p k e w' out : let w := mkCdc b (with_replicator p r) in
  cinv (forget w) k e → ClientXLogPos (socket_of r) = lsn e → (∀ s, s ∈ streams → rows_ (b_sink b) s e) →
  post_cdc ai false None w = (w', out) →
  ∃ k', cinv w' k' e ∧ (k ≤ k')%nat ∧ (out = Finished 0 → k' = e ∧ slot_at (c_driver w') = lsn e ∧ ∃ r', replicator (c_driver w') = Some r' ∧ ClientXLogPos (socket_of r') = lsn e).
Proof.
  intros w [Hle Hwd Hs Hf Hst Hd _ Hsl] Hpos Hall. subst w. unfold post_cdc. cbn in *. unfold AcknowledgeLSN. rewrite Hpos.
  destruct (if _ && _ then _ else _) as [at_ err] eqn:Eack.
  assert ((at_ = slot_at p ∨ at_ = lsn e) ∧ (err = None → at_ = lsn e)) as [Hat Hok] by (destruct (_ && _); [by eapply await_spec|injection Eack as <- <-; split; [auto|done]]).
  destruct err as [err|]; intros [= <- <-].
  - exists k. split_and!; [|lia|done]. split; cbn; try done; [intros r' [= <-]; by destruct r|]. destruct Hat as [->| ->]; [done|by right].
  - assert (Hset : holds (SetGlobal (b_state b) (wal_value (lsn_text e)) []) e) by apply pg_holds_set.
    exists e. rewrite (Hok eq_refl). split_and!; [|lia|]; cycle 1.
    { intros _. split_and!; [done..|]. eexists. split; [done|]. by destruct r. }
    split; cbn; try done; [by eexists| |intros r' [= <-]; by destruct r|by left].
    intros s Hin. left. split; [|by apply Hall]. destruct (Hst s Hin) as [[Hb _]|(_ & Hp & _)]; [by apply (pg_behind_mono k e)|by apply (pg_at_behind e e)].
Qed.

Lemma pg_changes_driver inp p s metas push p' l' r : pg_StreamChanges cfg inp p s metas push [] = Some (p', l', r) → p_streams p' = p_streams p ∧ slot_at p' = slot_at p.
Proof.
  unfold pg_StreamChanges, replicate. destruct (st_Global s); [|by intros [= <- _ _]]. repeat (case_match; simplify_eq/=; try done); by intros [= <- _ _].
Qed.

(** ** Attempts without fault *)

(** Every change of the streams decodes, and its record has an id. *)
Definition decodable : Prop := ∀ c s, c ∈ wal ≫= tx_changes → s ∈ streams → rel_key c.1 = ID s →
  ∃ v, change_values pg_dataTypeConverter c = Ok v ∧ is_Some (GetKeysHash md5_hex 2 v (Array (s_SourceDefinedPrimaryKey (StreamOf s)))).
(** The server sends everything from the slot to a position between transactions: past
    [n], or, in a recovery, to its position and no transaction beyond. *)
Record complete w (n : nat) (ticks : list wal_tick) (lim t : nat) (ts : list wal_tick) (last : wal_tick) : Prop := {
  co_ticks : ticks = ts ++ [last];
  co_last : awake last ∧ w_recv last = RecvDeadline;
  co_calm : Forall calm ts;
  co_sent c : slot_at (c_driver w) = lsn c → ∃ sv, sends_all wal lim (mkServer ∅ Idle c) (messages ts) sv ∧ sv_phase sv = Idle ∧ (t ≤ sv_pos sv)%nat;
  co_recovery t' : recovers (b_sink (c_world w)) (b_state (c_world w)) t' → (lim ≤ t' ≤ t)%nat;
  co_normal : (∀ t', ¬ recovers (b_sink (c_world w)) (b_state (c_world w)) t') → (n ≤ t)%nat
}.
Record faultless w (n : nat) (ai : attempt_input) : Prop := {
  fl_config : CDCSupport cfg = true ∧ TLS_error cfg = None;
  fl_open : ai_open ai = None;
  fl_push : ai_push ai = None;
  fl_fates : ai_fates ai = [];
  fl_lives : ai_dies ai = false;
  fl_slot : pi_slot (ai_in ai) = None;
  fl_xlogpos : pi_xlogpos (ai_in ai) = Ok (lsn n);
  fl_start : pi_start (ai_in ai) = true;
  fl_ticks : ∃ lim t ts last, complete w n (pi_ticks (ai_in ai)) lim t ts last;
  fl_ack : ack_sent (pi_ack (ai_in ai)) = true ∧ ∃ polls, ack_polls (pi_ack (ai_in ai)) = Polled true :: polls
}.
(** The slot is where the state is, or metadata tell where it went. *)
Definition resumable w : Prop := ∀ k, fits64 k → holds (b_state (c_world w)) k → slot_at (c_driver w) = lsn k ∨ ∃ t, recovers (b_sink (c_world w)) (b_state (c_world w)) t.

Lemma messages_app ts last : w_recv last = RecvDeadline → messages (ts ++ [last]) = messages ts.
Proof. intros Hl. unfold messages. rewrite omap_app. cbn. by rewrite Hl, app_nil_r. Qed.
Lemma pg_faultless_fair w n ai : faultless w n ai → fair w ai.
Proof.
  intros [_ _ _ _ _ _ _ _ (lim & t & ts & last & [Htk [_ Hl] Hcalm Hsent Hrec _]) _]. split; rewrite Htk.
  - exists lim. split; [|intros t' ?%Hrec; lia]. intros c Hc. destruct (Hsent c Hc) as (sv & Hall & _). exists sv. by rewrite messages_app.
  - apply Forall_app. split; [|by constructor; [rewrite Hl|]]. eapply Forall_impl; [exact Hcalm|]. intros x (_ & c & -> & _). done.
Qed.

Lemma faultless_read ai dedup R lim c tg ts last sv : decodable → ai_push ai = None → NoDup (ID <$> R) → (∀ s, s ∈ R → s ∈ streams) → fits64 c →
  awake last → w_recv last = RecvDeadline → Forall calm ts → sends_all wal lim (mkServer ∅ Idle c) (messages ts) sv → sv_phase sv = Idle → tg ≤ lsn (sv_pos sv) →
  ∃ p' l' j, pgoutput_loop pg_dataTypeConverter (push_change md5_hex ai dedup) (ts ++ [last]) false (start_of (NewTableFilter (Array (NewSet R))) c tg) [] = Some (p', l', WalReached)
  ∧ conn_open (pg_socket p') = true ∧ ClientXLogPos (pg_socket p') = lsn j ∧ tg ≤ lsn j.
Proof.
  intros Hdec Hpf Hnd Hsub Hc Haw Hl Hcalm Hall Hidle Htg. pose proof (push_change_data md5_hex ai dedup) as Hpush.
  assert (Hdecodes : ∀ ch s, ch ∈ wal ≫= tx_changes → s ∈ R → rel_key ch.1 = ID s →
    ∃ v, change_values pg_dataTypeConverter ch = Ok v ∧ ∀ l x, ch_Stream x = s → ch_Data x = v → (push_change md5_hex ai dedup l x).2 = None).
  { intros ch s Hch Hs Hk. destruct (Hdec ch s Hch (Hsub s Hs) Hk) as (v & Hv & Hh). exists v. split; [done|]. intros l x <- <-. by apply push_change_works. }
  destruct (wal_loop_reaches pg_dataTypeConverter wal (wo_order Hwal) (wo_width Hwal) _ Hpush R Hnd Hdecodes lim c [] ts last Haw Hcalm false _ [] _ [] sv
    (start_session R c tg Hnd) (start_sent lim c Hc) (adds_nil _ _ _) Hall Hidle Htg) as (p' & l' & Hloop).
  exists p', l'. destruct (read_from _ Hpush R lim c tg (ts ++ [last]) p' l' WalReached Hnd Hc) as [?|(_ & j & ? & ? & ? & ? & ? & _)]; try done.
  - exists sv. by rewrite messages_app.
  - apply Forall_app. split; [|by constructor; [rewrite Hl|]]. eapply Forall_impl; [exact Hcalm|]. intros x (_ & y & -> & _). done.
  - by exists j.
Qed.

Lemma pg_faultless_changes ai dedup w n k e : decodable → cinv w k e → resumable w → faultless w n ai →
  ∃ r l final, pg_StreamChanges cfg (ai_in ai) (c_driver w) (b_state (c_world w)) (metas_of Postgres streams (b_sink (c_world w)) (ai_ulid ai)) (push_change md5_hex ai dedup) [] =
    Some (with_replicator (c_driver w) r, l, Streamed final false) ∧ conn_open (socket_of r) = true ∧ (k = e → ∃ j, (n ≤ j)%nat ∧ ClientXLogPos (socket_of r) = lsn j).
Proof.
  intros Hdec [Hle Hwd Hs _ Hst Hd _ Hsl] Hres [[Hcs Htls] _ Hpf _ _ Hslot Hx Hstart (lim & t & ts & last & [Htk [Haw Hl] Hcalm Hsent Hrec Hnorm]) _].
  unfold pg_StreamChanges. pose proof (holds_read _ k Hs) as (g & -> & ->).
  destruct (pg_plan_spec (b_sink (c_world w)) (ai_ulid ai) k e Hle Hwd Hst) as (fin & cm & rec & R & -> & Hplan & Hnd & (Hleft & HF & Hmeta) & Hor). cbn [mbind result_bind].
  rewrite Hd, Hplan. unfold prepareWALJSConfig, GetSlotPosition. rewrite Hcs, Htls, Hslot, Hx. cbn [negb mbind result_bind]. unfold NewReplicator. cbn [mbind result_bind Plugin slot_LSN].
  rewrite Hplugin. cbn [String.eqb Ascii.eqb Bool.eqb].
  assert (Hc : ∃ c, slot_at (c_driver w) = lsn c ∧ (c = k ∨ c = e ∧ fin ≠ [])).
  { destruct (decide (fin = [])) as [->|Hne]; [|destruct Hsl as [?|[? _]]; eauto]. exists k. split; [|by left]. destruct (Hres k ltac:(unfold fits64, lsn in *; lia) Hs) as [?|(t' & s & k0 & Hin & Hh & Hlt & Ht' & Hat)]; [done|]. exfalso.
    assert (k0 = k) as -> by (eapply pg_holds_unique; [..|exact Hh|exact Hs]; unfold fits64, lsn in *; lia).
    destruct (HF s Hin) as [Hr|[? _]]; [|done]. destruct (Hleft s Hr) as (_ & Hb & _). by apply (ahead_not_behind k t') in Hat. }
  destruct Hc as (c & Hslc & Hc). assert (Hc64 : fits64 c) by (destruct Hc as [->|[-> _]]; unfold fits64, lsn in *; lia).
  destruct (Hsent c Hslc) as (sv & Hall & Hidle & Ht).
  assert (Htarget : default (lsn n) rec ≤ lsn (sv_pos sv) ∧ (fin = [] → default (lsn n) rec = lsn n)).
  { destruct Hor as [(-> & -> & ->)|(Hne & -> & _)]; cbn.
    - split; [|done]. assert (n ≤ t)%nat; [|unfold lsn; lia]. apply Hnorm. intros t' (s & k0 & Hin & Hh & Hlt & Ht' & Hat).
      assert (k0 = k) as -> by (eapply pg_holds_unique; [..|exact Hh|exact Hs]; unfold fits64, lsn in *; lia).
      destruct (HF s Hin) as [Hr|[? _]]; [|done]. destruct (Hleft s Hr) as (_ & Hb & _). by apply (ahead_not_behind k t') in Hat.
    - split; [|done]. destruct (Hmeta Hne) as (s & Hin & Hlt & Hat). destruct (Hrec e ltac:(by exists s, k)). unfold lsn. lia. }
  destruct Htarget as [Htarget Htn].
  destruct (faultless_read ai dedup R lim c _ ts last sv Hdec Hpf Hnd (λ s Hs', proj1 (Hleft s Hs')) Hc64 Haw Hl Hcalm Hall Hidle Htarget) as (p' & l' & j & Hloop & Hopen & Hpos & Hj).
  unfold replicate. rewrite Hslc.
  assert ((if negb (match R with [] => true | _ => false end) && negb (match rec with Some l => lsn c =? l | None => false end) then validateGlobalState (lsn_text k) (lsn c) else None) = None) as ->.
  { destruct Hc as [->|[-> Hne]]; [rewrite validate_position, bool_decide_true by (done || unfold fits64, lsn in *; lia); by destruct (_ && _)|].
    destruct Hor as [[? _]|(_ & -> & _)]; [done|]. by rewrite Z.eqb_refl, andb_false_r. }
  cbn [replicator_StreamChanges]. unfold pgoutput_StreamChanges. rewrite Hstart, Htk. cbn [pg_socket txnCommitTime relationIDToMsgMap].
  fold (start_of (NewTableFilter (Array (NewSet R))) c (default (lsn n) rec)). rewrite Hloop. cbn [fmap option_fmap option_map fst snd].
  destruct rec as [l|]; eexists _, _, _; (split; [done|]); cbn [with_socket socket_of pg_socket]; (split; [by destruct (pg_socket p')|]); intros ->.
  - destruct Hor as [(_ & ? & _)|(Hne & _)]; [done|]. destruct (Hmeta Hne) as (s & _ & ? & _). lia.
  - exists j. split; [|done]. cbn in Hj. unfold lsn in Hj. lia.
Qed.

Lemma pg_faultless_attempt w n k e ai : decodable → cinv w k e → resumable w → faultless w n ai →
  ∃ w', attempt_ ai w = Some (w', Finished 0) ∧ (k = e → ∀ r, replicator (c_driver w') = Some r → ∃ j, (n ≤ j)%nat ∧ ClientXLogPos (socket_of r) = lsn j).
Proof.
  intros Hdec Hinv Hres Hfl. pose proof Hfl as [_ Ho _ Hfa Hli _ _ _ _ [Hsent [polls Hpolls]]]. unfold streamChanges. rewrite Ho.
  cbv zeta. fold (writers_of streams). change (map_imap _ _) with (metas_of Postgres streams (b_sink (c_world w)) (ai_ulid ai)).
  match goal with |- context [push_change md5_hex ai ?dd] => destruct (pg_faultless_changes ai dd w n k e Hdec Hinv Hres Hfl) as (r & l & final & Hch & Hopen & Hpos) end.
  change (StreamChanges (ai_in ai)) with (pg_StreamChanges cfg (ai_in ai)). rewrite Hch, Hfa, Hli. unfold handleWriterCleanup. cbn [orb is_err].
  destruct (close_clean Postgres (ai_ulid ai) final l (snd <$> range (writers_of streams)) (b_sink (c_world w))) as [sk' ->].
  cbn [orb is_err]. unfold post_cdc. cbn. unfold AcknowledgeLSN. rewrite Hopen, Hsent, Hpolls. cbn [andb await_slot]. rewrite Z.eqb_refl. cbn.
  eexists. split; [done|]. intros Hke r' [= <-]. destruct (Hpos Hke) as (j & Hj & Hjp). exists j. split; [done|]. by destruct r.
Qed.

Section Run.
Context (empty : State).
(** A new process reads the state file and has no connection yet; the slot stays. *)
Definition restart_pg w : cdc_world := mkCdc (restart empty (c_world w)) (mkPg streams None (slot_at (c_driver w))).
Definition settled (out : outcome_of) w : cdc_world := match out with Died => restart_pg w | _ => w end.

Lemma pg_restart_cinv w k e : cinv (forget w) k e → cinv (restart_pg w) k e.
Proof.
  intros [Hle Hwd Hs (s0 & Hf & Hs0) Hst Hd Hcl Hsl]. split; cbn in *; try done; [|by exists s0]. unfold restart. rewrite Hf. cbn. by apply pg_position_reload.
Qed.

Lemma pg_attempt_cinv w k e ai w' out :
  cinv w k e → fair w ai → attempt_ ai w = Some (w', out) →
  ∃ k' e', cinv (settled out w') k' e' ∧ (k ≤ k')%nat
  ∧ (out = Finished 0 → e' = k' ∧ slot_at (c_driver w') = lsn k' ∧ ∃ r, replicator (c_driver w') = Some r ∧ ClientXLogPos (socket_of r) = lsn k').
Proof.
  intros Hinv [(lim & Hserve & Hlim) Heof]. destruct w as [b d]. unfold streamChanges.
  assert (Hkept : ∀ k' e' (w' : cdc_world) out, (k ≤ k')%nat → cinv w' k' e' ∧ out ≠ Finished 0 → ∃ k' e', cinv (settled out w') k' e' ∧ (k ≤ k')%nat
    ∧ (out = Finished 0 → e' = k' ∧ slot_at (c_driver w') = lsn k' ∧ ∃ r, replicator (c_driver w') = Some r ∧ ClientXLogPos (socket_of r) = lsn k')).
  { intros k' e' w0 out' Hk [Hi Ho]. exists k', e'. split_and!; [|done|done]. destruct out'; [done..|]. by apply pg_restart_cinv, cinv_forget. }
  destruct (match ai_open ai with Some i => _ | None => false end).
  { intros Hp%(inj Some). apply (Hkept k e); [done|]. eapply post_kept; [by left| |exact Hp]. by left. }
  cbv zeta. fold (writers_of streams). change (map_imap _ _) with (metas_of Postgres streams (b_sink b) (ai_ulid ai)). cbn [c_world c_driver].
  destruct (StreamChanges _ _ _ _ _ _) as [[[d' l'] r]|] eqn:Ech; [|done]. pose proof (pg_changes_driver _ _ _ _ _ _ _ _ Ech) as [Hds Hdsl].
  pose proof Hinv as [Hle Hwd Hs Hf Hst Hd Hcl Hsl]. cbn [c_world c_driver] in *.
  assert (Hinv' : cinv (forget (mkCdc b d')) k e) by (split; cbn; try done; by rewrite ?Hds, ?Hdsl).
  destruct r as [final done|err|]; cbv beta iota.
  - assert (∃ c, slot_at d = lsn c ∧ (c = k ∨ c = e ∧ ∀ s, s ∈ streams → rows_ (b_sink b) s e)) as (c & Hslc & Hc) by (destruct Hsl as [?|[? ?]]; eauto 10).
    destruct (pg_changes_spec _ (push_change_data md5_hex ai _) _ _ _ _ _ _ _ _ _ _ _ _ _ Hd Hle Hwd Hs Hst Hslc Hc (Hserve c Hslc) Hlim Heof Ech)
      as (r & -> & [->|(-> & e' & He' & Hw' & -> & Hopen & Hpos & Hst' & Hfit & Hce)]).
    + destruct (handleWriterCleanup _ _ _ _ _ _ _ _ _) as [[[sk done'] err'] dead] eqn:Ecl. apply cleanup_failed in Ecl as (-> & -> & _); [|done].
      assert (set_sink (b_sink b) b = b) as -> by (by destruct b).
      destruct (dead || ai_dies ai); intros Hp; [injection Hp as <- <-; exists k, e; split_and!; [by apply pg_restart_cinv|done..]|]. apply (inj Some) in Hp.
      apply (Hkept k e); [done|]. eapply post_kept; [| |exact Hp]; [right; by split|by right].
    + destruct (handleWriterCleanup _ _ _ _ _ _ _ _ _) as [[[sk done'] err'] dead] eqn:Ecl.
      destruct (cleanup_status keep Postgres "lsn" text_ behind base expected fresh pg_expected_split pg_fresh_none streams Hids
        (ai_ulid ai) l' k e' false (ai_fates ai) (b_sink b) sk done' err' dead He' Hst' (λ _, Hfit) Ecl) as [Hst2 Hall].
      assert (Hinv2 : cinv (forget (mkCdc (set_sink sk b) (with_replicator d r))) k e').
      { split; cbn; try done. destruct Hsl as [?|[Hsl Hrows]]; [by left|]. destruct (decide (c = k)) as [->|Hck]; [left; done|right].
        destruct Hce as [?|[-> ->]]; [done|]. split; [done|]. intros s Hin. by eapply cleanup_nothing; eauto. }
      destruct (dead || ai_dies ai) eqn:Edead; intros Hp; [injection Hp as <- <-; exists k, e'; split_and!; [by apply pg_restart_cinv|done..]|]. apply (inj Some) in Hp.
      apply orb_false_iff in Edead as [-> _]. destruct done'.
      * apply (Hkept k e'); [done|]. eapply post_kept; [| |exact Hp]; [right; by split|by right].
      * destruct (Hall eq_refl) as [-> Hrows]. destruct (post_acked _ _ _ _ _ _ _ _ Hinv2 Hpos (Hrows eq_refl) Hp) as (k' & Hi & Hk' & Hfin).
        exists k', e'. split_and!; [|done|]; [destruct out; [done..|]; by apply pg_restart_cinv, cinv_forget|]. intros Ho. destruct (Hfin Ho) as (-> & Hsl' & Hr'). by split_and!.
  - destruct (handleWriterCleanup _ _ _ _ _ _ _ _ _) as [[[sk done'] err'] dead] eqn:Ecl. apply cleanup_failed in Ecl as (-> & -> & Herr); [|by rewrite orb_true_r].
    assert (set_sink (b_sink b) b = b) as -> by (by destruct b).
    destruct (dead || ai_dies ai); intros Hp; [injection Hp as <- <-; exists k, e; split_and!; [by apply pg_restart_cinv|done..]|]. apply (inj Some) in Hp.
    apply (Hkept k e); [done|]. eapply post_kept; [| |exact Hp]; [right; by split|left; by intros ?%Herr].
  - intros [= <- <-]. exists k, e. split_and!; [by apply pg_restart_cinv|done..].
Qed.

Inductive pstep : cdc_world → cdc_world → Prop :=
| pstep_attempt w ai w' out : fair w ai → attempt_ ai w = Some (w', out) → pstep w (settled out w')
| pstep_killed w : pstep w (restart_pg w).

(** State and slot at the same position, before every transaction of the log, and streams
    whose metadata are none or older. *)
Record pg_start w : Prop := {
  ps_position : ∃ k, fits64 k ∧ holds (b_state (c_world w)) k ∧ slot_at (c_driver w) = lsn k ∧ (∀ t, t ∈ wal → k < tx_end t)%nat
    ∧ ∀ s, s ∈ streams → behind k (meta_ (b_sink (c_world w)) s);
  ps_file : b_file (c_world w) = Some (marshal (b_state (c_world w)));
  ps_driver : p_streams (c_driver w) = streams ∧ replicator (c_driver w) = None;
  ps_tables s : s ∈ streams → delivered (b_sink (c_world w)) (ID s) = base s
}.
Lemma pg_start_cinv w : pg_start w → ∃ k, cinv w k k.
Proof.
  intros [(k & Hk & Hs & Hsl & Hnew & Hm) Hf [Hd Hr] Ht]. exists k. split; try done; [by eexists| |by intros r; rewrite Hr|by left].
  intros s Hin. left. split; [by apply Hm|]. unfold holds_rows. rewrite Ht by done. unfold expected, changes_in.
  assert (window wal 0 k = []) as ->; [|cbn; by rewrite app_nil_r]. apply filter_none, Forall_forall. intros t Hin'. pose proof (Hnew t Hin'). lia.
Qed.
Lemma pg_reachable_cinv w w' : pg_start w → rtc pstep w w' → ∃ k e, cinv w' k e.
Proof.
  intros Hstart Hr. assert (∃ k e, cinv w k e) as Hi by (destruct (pg_start_cinv w Hstart); eauto). clear Hstart.
  induction Hr as [|w0 w1 w2 Hstep _ IH]; [done|]. apply IH. destruct Hi as (k & e & Hi). destruct Hstep as [w ai w' out Hfa Ha|w].
  - destruct (pg_attempt_cinv _ _ _ _ _ _ Hi Hfa Ha) as (k' & e' & Hi' & _). eauto.
  - exists k, e. by apply pg_restart_cinv, cinv_forget.
Qed.

(** C6: Postgres change capture (pgoutput) delivers every committed change exactly once,
    outside of two situations that [fair] leaves out: a connection the server ends
    unnoticed, which can lose rows ([recovery_eof_loses_changes] below), and a recovery
    that is sent a transaction past its position, which repeats its rows
    ([recovery_overshoot_duplicates]).  The server sends the transactions after the slot's
    position, in commit order and with keepalives anywhere; attempts fail at any message,
    push or close, with some streams committed and others not; acknowledgements get lost or
    are applied after the driver gave up; processes die at any point and new ones start
    from the state file.  Then every stream's table always holds, besides what it held
    before, exactly the rows of the transactions committed by some position that belong to
    the stream and pass its filter, each once; and two attempts without fault bring all
    streams to a common position past the end of the log at their start -- the first
    finishes an interrupted sync -- unless the slot was moved by a sync without rows whose
    state was never stored ([acked_without_rows_stuck]). *)
Theorem postgres_cdc_exactly_once w w' :
  pg_start w → rtc pstep w w' →
  (∀ s, s ∈ streams → ∃ k, delivered (b_sink (c_world w')) (ID s) ≡ₚ base s ++ expected s k)
  ∧ (decodable → resumable w' → ∀ n ai, faultless w' n ai → ∃ w1, attempt_ ai w' = Some (w1, Finished 0)
     ∧ ∀ ai', faultless w1 n ai' → ∃ w2, attempt_ ai' w1 = Some (w2, Finished 0)
       ∧ ∃ m, (n ≤ m)%nat ∧ ∀ s, s ∈ streams → delivered (b_sink (c_world w2)) (ID s) ≡ₚ base s ++ expected s m).
Proof.
  intros Hstart Hr. destruct (pg_reachable_cinv _ _ Hstart Hr) as (k & e & Hinv). split.
  - intros s Hs. destruct (ci_streams _ _ _ Hinv s Hs) as [[_ Hrows]|(_ & _ & Hrows)]; eauto.
  - intros Hdec Hres n ai Hai. destruct (pg_faultless_attempt _ _ _ _ _ Hdec Hinv Hres Hai) as (w1 & Ha1 & _). exists w1. split; [done|]. intros ai' Hai'.
    destruct (pg_attempt_cinv _ _ _ _ _ _ Hinv (pg_faultless_fair _ _ _ Hai) Ha1) as (k1 & e1 & Hinv1 & _ & Hfin1). destruct (Hfin1 eq_refl) as (-> & Hsl1 & _). cbn in Hinv1.
    assert (Hres1 : resumable w1).
    { intros k0 Hk0 Hh. left. rewrite Hsl1. f_equal. eapply pg_holds_unique; [..|exact Hh]; [apply (ci_width _ _ _ Hinv1)|done|apply (ci_state _ _ _ Hinv1)]. }
    destruct (pg_faultless_attempt _ _ _ _ _ Hdec Hinv1 Hres1 Hai') as (w2 & Ha2 & Hpos). exists w2. split; [done|].
    destruct (pg_attempt_cinv _ _ _ _ _ _ Hinv1 (pg_faultless_fair _ _ _ Hai') Ha2) as (k2 & e2 & Hinv2 & _ & Hfin2). destruct (Hfin2 eq_refl) as (-> & _ & r & Hr2 & Hp2).
    destruct (Hpos eq_refl r Hr2) as (j & Hj & Hjp). assert (j = k2) as -> by (rewrite Hp2 in Hjp; unfold lsn in Hjp; lia). exists k2. split; [done|].
    intros s Hs. destruct (ci_streams _ _ _ Hinv2 s Hs) as [[_ Hrows]|(? & _)]; [done|lia].
Qed.
End Run.
End Facts.

(** ** Before the first read *)
Section PreCDC.
Context {HS : GoHash string} {HC : GoHash Chunk} {HR : GoRange} {HL : LsnCodec} {HJ : JsonCodec} {HW : WalCodec} (cfg : pg_config).

Lemma advance_reaches answers target slot at_ l : advance_loop answers target slot = (at_, Ok l) → at_ = l ∧ target ≤ l.
Proof.
  revert slot. induction answers as [|[x| |] answers IH]; intros slot; cbn; try done. destruct (Z.leb_spec target x); [by intros [= <- <-]|apply IH].
Qed.

Definition missing_ids (tables : list pubTable) (streams : list ConfiguredStream) : list string := filter (λ id, id ∉ publication_ids tables) (ID <$> streams).
Lemma publication_check publication tables streams :
  collision_free (λ id, id ∈ publication_ids tables ++ (ID <$> streams)) None → tables ≠ [] →
  checkStreamsInPublication publication tables streams =
  match missing_ids tables streams with
  | [] => None
  | missing => Some (ErrNonRetryable +:+ ": ALTER PUBLICATION " +:+ publication +:+ " ADD TABLE " +:+ Join ", " missing)
  end.
Proof.
  intros Hcf Hne. unfold checkStreamsInPublication. destruct tables as [|t ts]; [done|].
  assert (filter (λ id, GoSet.Exists (NewSet (publication_ids (t :: ts))) id = false) (ID <$> streams) = missing_ids (t :: ts) streams) as ->; [|done].
  unfold missing_ids. assert (Hsub : ∀ id, id ∈ ID <$> streams → GoSet.Exists (NewSet (publication_ids (t :: ts))) id = false ↔ id ∉ publication_ids (t :: ts)).
  { intros id Hid. rewrite <- not_true_iff_false. apply not_iff_compat, (Exists_NewSet _ _ _ Hcf); [|set_solver]. intros x Hx. set_solver. }
  revert Hsub. generalize (ID <$> streams). intros l. induction l as [|id l IH]; intros Hsub; [done|]. rewrite !filter_cons, IH by (intros x Hx; apply Hsub; by right).
  destruct (decide (GoSet.Exists _ _ = false)) as [H1|H1], (decide (id ∉ _)) as [H2|H2]; try done; rewrite (Hsub id ltac:(left)) in H1; done.
Qed.

(** C37: what the start of Postgres change capture guarantees, errors included.  With a
    publication configured it goes on only when the publication exists and covers every
    selected stream, and a publication with tables that misses some fails with an error
    that names exactly the missing ones; an error changes neither the streams nor the
    connection.  Without a saved state the position stored is the one the slot confirmed,
    not before the current end of the log, and the per-stream state is reset; with a saved
    state nothing moves. *)
Theorem precdc_guarantees found tables publication slot_err current answers streams p s p' r :
  0 ≤ current < 2 ^ 64 →
  (∀ l, tables = Ok l → collision_free (λ id, id ∈ publication_ids l ++ (ID <$> streams)) None) →
  pg_PreCDC cfg (validatePublicationContainsStreams found tables publication streams) slot_err current answers streams p s = (p', r) →
  (∀ s', r = Ok s' → publication = "" ∨ streams = [] ∨ found = Ok true ∧ ∃ l, tables = Ok l ∧ ∀ st, st ∈ streams → ID st ∈ publication_ids l)
  ∧ (∀ l, publication ≠ "" → found = Ok true → tables = Ok l → l ≠ [] → missing_ids l streams ≠ [] →
       r = Err ("publication validation failed: " +:+ ErrNonRetryable +:+ ": ALTER PUBLICATION " +:+ publication +:+ " ADD TABLE " +:+ Join ", " (missing_ids l streams)))
  ∧ (is_ok r = false → p_streams p' = p_streams p ∧ replicator p' = replicator p)
  ∧ (∀ s', r = Ok (Some s') → saved_wal s = None ∧ current ≤ slot_at p' ∧ saved_wal s' = Some (wal_value (LSN_String (slot_at p'))) ∧ st_Streams s' = [])
  ∧ (r = Ok None → is_Some (saved_wal s) ∧ slot_at p' = slot_at p).
Proof.
  intros Hcur Hcf Hpre.
  assert (Hcover : validatePublicationContainsStreams found tables publication streams = None →
    publication = "" ∨ streams = [] ∨ found = Ok true ∧ ∃ l, tables = Ok l ∧ ∀ st, st ∈ streams → ID st ∈ publication_ids l).
  { unfold validatePublicationContainsStreams. destruct (String.eqb_spec publication ""); [by left|]. destruct streams as [|s0 ss] eqn:Es; [auto|]. rewrite <- Es in *. cbn [orb].
    destruct found as [[]| |]; [|done..]. destruct tables as [l| |]; [|done..]. destruct (decide (l = [])) as [->|Hne]; [done|].
    rewrite publication_check by auto. destruct (missing_ids l streams) eqn:Em; [|done]. intros _. right; right. split; [done|]. exists l. split; [done|]. intros st Hst.
    destruct (decide (ID st ∈ publication_ids l)) as [|Hni]; [done|]. exfalso. apply (filter_nil_not_elem_of _ _ (ID st) Em); [done|by apply list_elem_of_fmap_2]. }
  assert (Hmiss : ∀ l, publication ≠ "" → found = Ok true → tables = Ok l → l ≠ [] → missing_ids l streams ≠ [] →
    validatePublicationContainsStreams found tables publication streams = Some (ErrNonRetryable +:+ ": ALTER PUBLICATION " +:+ publication +:+ " ADD TABLE " +:+ Join ", " (missing_ids l streams))).
  { intros l Hp -> -> Hl Hm. unfold validatePublicationContainsStreams. rewrite (proj2 (String.eqb_neq _ _) Hp). destruct streams as [|s0 ss] eqn:Es; [done|]. rewrite <- Es in *. cbn [orb].
    rewrite publication_check by auto. by destruct (missing_ids l streams). }
  unfold pg_PreCDC in Hpre. destruct (validatePublicationContainsStreams _ _ _ _) as [e|].
  { injection Hpre as <- <-. split_and!; try done. intros l H1 H2 H3 H4 H5. specialize (Hmiss l H1 H2 H3 H4 H5). by injection Hmiss as ->. }
  specialize (Hcover eq_refl).
  assert (Hnomiss : ∀ l, publication ≠ "" → found = Ok true → tables = Ok l → l ≠ [] → missing_ids l streams ≠ [] → ∀ e, r = Err e) by (intros; by discriminate (Hmiss l)).
  destruct (GetSlotPosition _ _ _ _) as [slot| |] eqn:Eslot; [|injection Hpre as <- <-; split_and!; first [done|by eauto]..].
  unfold GetSlotPosition in Eslot. destruct slot_err; [done|]. injection Eslot as <-. cbn [CurrentLSN] in Hpre.
  destruct (saved_wal s) eqn:Esaved; [injection Hpre as <- <-; split_and!; first [done|by eauto]|].
  unfold AdvanceLSN in Hpre. rewrite lsn_read in Hpre by done. destruct (advance_loop _ _ _) as [at_ [l| |]] eqn:Eadv; injection Hpre as <- <-; split_and!; try first [done|by eauto].
  intros s' [= <-]. apply advance_reaches in Eadv as [-> Hle]. split_and!; try done. cbn. unfold saved_wal. destruct (wal_set (LSN_String l)) as [Hn _].
  unfold SetGlobal. destruct (st_Global s) as [g|]; cbn; destruct (wal_value (LSN_String l)); done.
Qed.
End PreCDC.

(** ** Witness: two tables, one row each; the first process commits one of them and dies *)
Section Witness.
#[local] Existing Instances mc_hash mc_chunk_hash mc_range mc_env mc_json mc_sink mc_cursor_sink mc_stream_sink.

#[local] Instance pc_lsn : LsnCodec.
Proof.
  refine {| ParseLSN t := (λ r, Z.of_nat r.1) <$> read_ones t; LSN_String l := ones (Z.to_nat l) "" |}.
  - intros l Hl. rewrite read_ones_ones. cbn. f_equal. lia.
  - intros l. by destruct (Z.to_nat l).
Defined.
#[local] Instance pc_codec : WalCodec.
Proof.
  refine {| wal_value t := AArray [AString t]; Unmarshal_wal v := match v with AArray [AString t] => Ok t | _ => Err "invalid" end;
            lsn_json t := t; lsn_of_json t := Some t |}; by intros.
Defined.

Definition pg_cfg : pg_config := mkPgConfig true None "pgoutput" "pub" 0.
#[local] Instance pc_driver : ChangeDriver := Postgres_changes pg_cfg.

Definition relation_of (table : string) : RelationMessage := mkRelation (if String.eqb table "orders" then 1 else 2) "db" table [mkRelColumn "id" Int8OID].
Definition row_of (id : string) : dml := DInsert (Some [mkTupleColumn false (Some id)]).
Definition tx (end_ : nat) (table id : string) : txn := mkTxn end_ epoch [(relation_of table, row_of id)].
Definition pg_log : list txn := [tx 10 "orders" "1"; tx 20 "users" "2"].

(** The messages of a transaction, and a tick for each. *)
Definition tx_messages (t : txn) : list copy_data :=
  XLogData 5 (Some (BeginMsg (tx_time t))) None
  :: (tx_changes t ≫= (λ c, [XLogData 6 (Some (RelationMsg c.1)) None; XLogData 7 (Some (dml_message c.1 c.2)) None]))
  ++ [XLogData (lsn (tx_end t)) (Some CommitMsg) None].
Definition calm_ticks (cs : list copy_data) : list wal_tick := (λ c, mkWalTick false false (Recv c) true) <$> cs.
Definition last_tick (r : received) : wal_tick := mkWalTick false false r true.
Definition pg_attempt (n : nat) (cs : list copy_data) (last : received) (ack : ack_input) (fates : list close_fate) : attempt_input :=
  mkAttempt None (mkPgInput None (Ok (lsn n)) true (calm_ticks cs ++ [last_tick last]) ack) None (λ _, epoch) (λ id, id) fates false.
Definition acked : ack_input := mkAck true [Polled true] false.

Definition pg_world : cdc_world :=
  let s := SetGlobal (empty_state GlobalType) (wal_value (LSN_String (lsn 4))) [] in
  mkCdc (mkBackfill s (Some (marshal s)) ∅ []) (mkPg shop None (lsn 4)).
Definition run_pg (ai : attempt_input) (w : cdc_world) : cdc_world :=
  match streamChanges (λ s, s) Postgres ai shop w with Some (w, _) => w | None => w end.
Definition pg_outcome (ai : attempt_input) (w : cdc_world) : option outcome_of := snd <$> streamChanges (λ s, s) Postgres ai shop w.
Notation pg_restart := (restart_pg pg_cfg shop (empty_state GlobalType)).
Definition table_rows (w : cdc_world) (id : string) : list (gmap string any) := (table_of (b_sink (c_world w)) id).1.
Definition pg_row (id : Z) : gmap string any := {["id" := AInt KInt64 id]}.

(** The log read up to a keepalive at 25; the second close fails. *)
Definition half_read : attempt_input :=
  pg_attempt 22 ((pg_log ≫= tx_messages) ++ [Keepalive (lsn 25) false]) RecvDeadline acked [Closes; CloseErr false].
Definition half_committed : cdc_world := pg_restart (run_pg half_read pg_world).

(** What [fair] leaves out.  A recovery goes on until a message at or past its position: a
    transaction that ends beyond it is read, but the position is set back, so the next sync
    delivers its rows again. *)
Lemma recovery_overshoot_duplicates :
  let later := tx 30 "users" "3" in
  let w1 := run_pg (pg_attempt 22 ((pg_log ++ [later]) ≫= tx_messages) RecvDeadline acked []) half_committed in
  let w2 := run_pg (pg_attempt 30 (tx_messages later) RecvDeadline acked []) w1 in
  table_rows w2 "db.users" = [pg_row 2; pg_row 3; pg_row 3] ∧ slot_at (c_driver w2) = lsn 30.
Proof. vm_compute. split; reflexivity. Qed.

(** A connection that ends during a recovery counts as a complete one: the row of the
    other stream is never delivered. *)
Lemma recovery_eof_loses_changes :
  let w1 := run_pg (pg_attempt 22 [] RecvEOF acked []) half_committed in
  let w2 := run_pg (pg_attempt 25 [] RecvDeadline acked []) w1 in
  table_rows w2 "db.orders" = [pg_row 1] ∧ table_rows w2 "db.users" = [] ∧ slot_at (c_driver w2) = lsn 25
  ∧ pg_outcome (pg_attempt 25 [] RecvDeadline acked []) w1 = Some (Finished 0).
Proof. vm_compute. split_and!; reflexivity. Qed.

(** When a sync without rows moves the slot but cannot see it, no metadata tell the next
    one: every later sync fails until the destination is cleared. *)
Lemma acked_without_rows_stuck :
  let w1 := pg_restart (run_pg (pg_attempt 22 [Keepalive (lsn 25) false] RecvDeadline (mkAck true [PollErr ""] true) []) pg_world) in
  pg_outcome (pg_attempt 25 [] RecvDeadline acked []) w1
  = Some (Failed_with (ErrNonRetryable +:+ ": invalid global state: lsn mismatch, please proceed with clear destination: post cdc error: context canceled"))
  ∧ ¬ resumable (λ _, true) pg_cfg shop w1.
Proof.
  split; [vm_compute; reflexivity|]. intros Hres. destruct (Hres 4%nat) as [Heq|(t & s & k & Hs & _ & _ & _ & f & Hm & _)]; [reflexivity| |vm_compute in Heq; discriminate|].
  - eexists. split; [reflexivity|by left].
  - revert Hm. apply elem_of_cons in Hs as [->|[->|?%elem_of_nil]%elem_of_cons]; [vm_compute; discriminate..|done].
Qed.

Lemma pg_log_ok : wal_ok pg_log.
Proof.
  split; [|by intros t [->|[->|?%elem_of_nil]%elem_of_cons]%elem_of_cons]. repeat (constructor; try (cbn; lia)).
Qed.
Definition log_messages : list copy_data := (pg_log ≫= tx_messages) ++ [Keepalive (lsn 25) false].
Lemma log_sent lim : (20 ≤ lim)%nat → ∃ rels, sends_all pg_log lim (mkServer ∅ Idle 4) log_messages (mkServer rels Idle 25).
Proof.
  intros Hlim. eexists. unfold log_messages. cbn [pg_log mbind list_bind tx_messages tx tx_changes tx_time tx_end app fst snd].
  eapply sent_one; [apply (send_begin _ _ _ 4 (tx 10 "orders" "1")); [left|cbn; lia|reflexivity]|]. eapply sent_one; [apply send_relation|].
  eapply sent_one; [apply send_change; reflexivity|]. eapply sent_one; [apply (send_commit _ _ _ (tx 10 "orders" "1"))|].
  eapply sent_one; [apply (send_begin _ _ _ _ (tx 20 "users" "2")); [right; left|cbn; lia|reflexivity]|]. eapply sent_one; [apply send_relation|].
  eapply sent_one; [apply send_change; reflexivity|]. eapply sent_one; [apply (send_commit _ _ _ (tx 20 "users" "2"))|].
  eapply sent_one; [apply send_position; [cbn; lia|reflexivity|reflexivity]|]. apply sent_none.
Qed.
Lemma calm_messages cs last : w_recv last = RecvDeadline → messages (calm_ticks cs ++ [last]) = cs.
Proof. intros Hl. rewrite messages_app by done. unfold messages, calm_ticks. induction cs as [|c cs IH]; [done|]. cbn. by rewrite IH. Qed.
Lemma lsn_inj i j : lsn i = lsn j → i = j.
Proof. unfold lsn. lia. Qed.

(** The metadata of the two worlds. *)
Definition after_recovery : cdc_world := run_pg (pg_attempt 22 log_messages RecvDeadline acked []) half_committed.
Lemma recovers_at w t c : (∀ s x, s ∈ shop → meta_state (λ _, true) (b_sink (c_world w)) s = Some x → x = wal_state (LSN_String (lsn c))) →
  recovers (λ _, true) shop (b_sink (c_world w)) (b_state (c_world w)) t → t = c ∧ ∃ k, (k < c)%nat ∧ holds (b_state (c_world w)) k.
Proof.
  intros Hm (s & k & Hs & Hh & Hlt & _ & f & Hf & Ht). specialize (Hm s _ Hs Hf). injection Hm as ->. cbn in Ht. rewrite lookup_singleton_eq in Ht. injection Ht as Ht.
  apply (f_equal read_ones) in Ht. rewrite !read_ones_ones in Ht. injection Ht as Ht. unfold lsn in Ht. rewrite !Nat2Z.id in Ht. subst t. eauto.
Qed.
Lemma shop_meta w c : (∀ s, s ∈ shop → meta_state (λ _, true) (b_sink (c_world w)) s = None ∨ meta_state (λ _, true) (b_sink (c_world w)) s = Some (wal_state (LSN_String (lsn c)))) →
  ∀ s x, s ∈ shop → meta_state (λ _, true) (b_sink (c_world w)) s = Some x → x = wal_state (LSN_String (lsn c)).
Proof. intros Hall s x Hs Hx. destruct (Hall s Hs) as [Hn|Hn]; rewrite Hn in Hx; congruence. Qed.
Ltac shop_metas := apply shop_meta; intros s [->|[->|?%elem_of_nil]%elem_of_cons]%elem_of_cons; [vm_compute; auto..|done].
Lemma half_meta t : recovers (λ _, true) shop (b_sink (c_world half_committed)) (b_state (c_world half_committed)) t → t = 25%nat.
Proof. intros Hr. eapply (recovers_at _ t 25) in Hr as [-> _]; [done|shop_metas]. Qed.
Lemma recovered_meta t : ¬ recovers (λ _, true) shop (b_sink (c_world after_recovery)) (b_state (c_world after_recovery)) t.
Proof.
  intros Hr. eapply (recovers_at _ t 25) in Hr as (_ & k & Hk & Hh); [|shop_metas].
  assert (k = 25%nat) as ->; [|lia]. eapply pg_holds_unique; [..|exact Hh|]; [unfold fits64, lsn; lia|reflexivity|]. eexists. split; [vm_compute; reflexivity|by left].
Qed.
Lemma start_meta t : ¬ recovers (λ _, true) shop (b_sink (c_world pg_world)) (b_state (c_world pg_world)) t.
Proof. by intros (s & k & Hs & _ & _ & _ & f & Hf & _). Qed.

Notation pg_faultless := (faultless (λ _, true) pg_cfg pg_log shop).
Lemma pg_calm_faultless w n cs lim t c sv : slot_at (c_driver w) = lsn c → sends_all pg_log lim (mkServer ∅ Idle c) cs sv → sv_phase sv = Idle → (t ≤ sv_pos sv)%nat → Forall clean cs →
  (∀ t', recovers (λ _, true) shop (b_sink (c_world w)) (b_state (c_world w)) t' → lim ≤ t' ≤ t)%nat →
  ((∀ t', ¬ recovers (λ _, true) shop (b_sink (c_world w)) (b_state (c_world w)) t') → n ≤ t)%nat → pg_faultless w n (pg_attempt n cs RecvDeadline acked []).
Proof.
  intros Hsl Hall Hidle Ht Hcl Hrec Hn. split; try done; [|by split; [|eexists]]. exists lim, t, (calm_ticks cs), (last_tick RecvDeadline). split; try done.
  - apply Forall_fmap. eapply Forall_impl; [exact Hcl|]. intros x Hx. split; [done|]. by exists x.
  - intros c' Hc'. assert (c = c') as <- by (apply lsn_inj; etrans; [symmetry; exact Hsl|exact Hc']). exists sv. split; [|done].
    rewrite <- (messages_app _ (last_tick RecvDeadline)), calm_messages by done. done.
Qed.
Lemma second_faultless : pg_faultless after_recovery 22 (pg_attempt 22 [] RecvDeadline acked []).
Proof.
  apply (pg_calm_faultless after_recovery 22 [] 0 25 25 (mkServer ∅ Idle 25)).
  - vm_compute. reflexivity.
  - apply sent_none.
  - reflexivity.
  - cbn. lia.
  - constructor.
  - intros t Ht. destruct (recovered_meta t Ht).
  - lia.
Qed.
Lemma outcome_run ai w out : pg_outcome ai w = Some out → streamChanges (λ s, s) Postgres ai shop w = Some (run_pg ai w, out).
Proof. unfold pg_outcome, run_pg. destruct (streamChanges _ _ _ _ _) as [[w' out']|]; [|done]. by intros [= <-]. Qed.

Lemma pg_reached : rtc (pstep (λ _, true) (λ s, s) pg_cfg pg_log shop (empty_state GlobalType)) pg_world half_committed.
Proof.
  eapply rtc_l; [|eapply rtc_l; [apply (pstep_killed _ _ _ _ _ _ (run_pg half_read pg_world))|apply rtc_refl]].
  apply (pstep_attempt _ _ _ _ _ _ pg_world half_read (run_pg half_read pg_world) (Failed_with "failed to close writer: post cdc error: context canceled")).
  - split; [|by repeat constructor]. exists 20%nat. split; [|by intros t Hr%start_meta]. intros c Hc. change (slot_at (c_driver pg_world)) with (lsn 4) in Hc. apply lsn_inj in Hc as <-.
    destruct (log_sent 20 ltac:(lia)) as [rels Hall]. eexists. cbn [half_read pg_attempt ai_in pi_ticks]. rewrite calm_messages by done. exact Hall.
  - apply outcome_run. vm_compute. reflexivity.
Qed.
Lemma pg_decodable : decodable (λ s, s) pg_log shop.
Proof.
  intros c s Hc Hs _. apply elem_of_cons in Hs as [->|[->|?%elem_of_nil]%elem_of_cons]; [..|done];
    (apply elem_of_cons in Hc as [->|[->|?%elem_of_nil]%elem_of_cons]; [..|done]; (eexists; split; [vm_compute; reflexivity|by eexists])).
Qed.

Lemma postgres_cdc_exactly_once_witness :
  ∃ w1 w2, streamChanges (λ s, s) Postgres (pg_attempt 22 log_messages RecvDeadline acked []) shop half_committed = Some (w1, Finished 0)
  ∧ streamChanges (λ s, s) Postgres (pg_attempt 22 [] RecvDeadline acked []) shop w1 = Some (w2, Finished 0)
  ∧ ∃ m, (22 ≤ m)%nat ∧ ∀ s, s ∈ shop → delivered (b_sink (c_world w2)) (ID s) ≡ₚ expected (λ _, true) pg_log s m.
Proof.
  destruct (postgres_cdc_exactly_once (λ _, true) (λ s, s) pg_cfg ltac:(reflexivity) pg_log pg_log_ok shop (λ _, []) ltac:(by_decide) ltac:(done)
    ltac:(apply encode_hash_cf) (empty_state GlobalType) pg_world half_committed) as [_ Hlive].
  - split; [|reflexivity|done|by intros s [->|[->|?%elem_of_nil]%elem_of_cons]%elem_of_cons].
    exists 4%nat. split_and!; [reflexivity|eexists; split; [reflexivity|by left]|reflexivity| |by intros s [->|[->|?%elem_of_nil]%elem_of_cons]%elem_of_cons].
    intros t [->|[->|?%elem_of_nil]%elem_of_cons]%elem_of_cons; [cbn; lia..|done].
  - exact pg_reached.
  - destruct (log_sent 20 ltac:(lia)) as [rels Hall].
    destruct (Hlive pg_decodable) with (n := 22%nat) (ai := pg_attempt 22 log_messages RecvDeadline acked []) as (w1 & Ha1 & Hnext).
    + intros k Hk Hh. left. change (lsn 4 = lsn k). f_equal. eapply pg_holds_unique; [..|exact Hh]; [reflexivity|done|]. eexists. split; [vm_compute; reflexivity|by left].
    + eapply (pg_calm_faultless _ 22 log_messages 20 25 4); [reflexivity|exact Hall|done|done|by repeat constructor|intros t ->%half_meta; lia|lia].
    + change (streamChanges (λ s, s) Postgres (pg_attempt 22 log_messages RecvDeadline acked []) shop half_committed = Some (w1, Finished 0)) in Ha1.
      assert (w1 = after_recovery) as -> by (unfold after_recovery, run_pg; by rewrite Ha1).
      destruct (Hnext (pg_attempt 22 [] RecvDeadline acked [])) as (w2 & Ha2 & Hall2).
      * exact second_faultless.
      * exists after_recovery, w2. split; [exact Ha1|]. split; [exact Ha2|exact Hall2].
Defined.

Lemma precdc_guarantees_witness :
  let '(p', r) := pg_PreCDC pg_cfg (validatePublicationContainsStreams (Ok true) (Ok [mkPubTable "db" "users"; mkPubTable "db" "orders"]) "pub" shop) None 4 [Ok 2; Ok 4] shop
                    (mkPg [] None 1) (empty_state GlobalType) in
  ∃ s', r = Ok (Some s') ∧ slot_at p' = 4 ∧ saved_wal s' = Some (wal_value (LSN_String (slot_at p'))).
Proof.
  destruct (pg_PreCDC _ _ _ _ _ _ _ _) as [p' r] eqn:E.
  destruct (precdc_guarantees pg_cfg (Ok true) (Ok [mkPubTable "db" "users"; mkPubTable "db" "orders"]) "pub" None 4 [Ok 2; Ok 4] shop (mkPg [] None 1) (empty_state GlobalType) p' r
    ltac:(lia) ltac:(intros l _; apply encode_hash_cf) E) as (_ & _ & _ & Hfresh & _).
  vm_compute in E. injection E as <- <-. eexists. split; [reflexivity|]. destruct (Hfresh _ eq_refl) as (_ & _ & Hs & _). split; [reflexivity|exact Hs].
Defined.
End Witness.
