(* ===== verification/MssqlCdc.v ===== *)
(** * drivers/mssql/internal: cdc.go, bytes.go, and the conversion of values

    SQL Server's capture job copies committed changes from the transaction log into one
    change table per capture instance; a change has a log sequence number (LSN), ten
    bytes, kept in the state and in the metadata as hexadecimal text.  Every stream has
    its own position: an attempt reads one stream from its position to the current end,
    or to the start of the next capture instance of its table.  [MssqlCdc] also models
    the row scanning of pkg/jdbc/reader.go.  The answers of the server are arguments. *)

From S2P Require Import Prelude GoString GoSet DataTypes QueryEngine Value Schema Stream Catalog State TwoPC Fields Writers Utils Backfill Incremental Jdbc Chunking Binlog Cdc.

(** ** encoding/hex *)
Definition hex_digit (n : Z) : ascii := ascii_of (if n <? 10 then 48 + n else 87 + n).
Fixpoint EncodeToString (l : list Z) : string :=
  match l with [] => "" | b :: l => String (hex_digit (b / 16)) (String (hex_digit (b mod 16)) (EncodeToString l)) end.
Definition from_digit (a : ascii) : option Z :=
  let b := byte_of a in
  if in_range 48 57 b then Some (b - 48) else if in_range 97 102 b then Some (b - 87) else if in_range 65 70 b then Some (b - 55) else None.
Fixpoint DecodeString (s : string) : result (list Z) :=
  match s with
  | "" => Ok []
  | String _ "" => Err "encoding/hex: odd length hex string"
  | String a (String b rest) =>
      match from_digit a, from_digit b with
      | Some x, Some y => l ← DecodeString rest; Ok (16 * x + y :: l)
      | _, _ => Err "encoding/hex: invalid byte"
      end
  end.

(** ** pkg/jdbc/reader.go: scanning a row *)
Record ColumnType := mkColumn { ct_Name : string; DatabaseTypeName : string; DecimalSize : option (Z * Z) }.
Section Scan.
Context (converter : any → string → result any) (columnSizer : ColumnType → any → Z).
(** A null that the converter reports becomes nil. *)
Definition normalizeDataTypeAndConvert (rawData : any) (colType : ColumnType) : result any :=
  let datatype := match DecimalSize colType with
                  | Some (precision, scale) => if String.eqb (DatabaseTypeName colType) "NUMBER" && (scale =? 0) then (if 9 <? precision then "int64" else "int32")
                                               else DatabaseTypeName colType
                  | None => DatabaseTypeName colType
                  end in
  match converter rawData datatype with
  | Err e => if String.eqb e ErrNullValue then Ok ANil else Err e
  | r => r
  end.
Definition scan_column (acc : gmap string any * Z) (col : ColumnType * any) : result (gmap string any * Z) :=
  let rowBytes := if is_nil col.2 then acc.2 else wrap_s 64 (acc.2 + columnSizer col.1 col.2) in
  conv ← normalizeDataTypeAndConvert col.2 col.1;
  Ok (<[ct_Name col.1 := conv]> acc.1, rowBytes).
(** The columns of a row with their scanned values; [Err]: metadata or values could not be
    read. *)
Definition MapScan (row : result (list (ColumnType * any))) : result (gmap string any * Z) :=
  cols ← row; foldM scan_column (∅, 0) cols.
End Scan.

(** ** bytes.go: the size of a value *)
Definition upper_byte (b : Z) : Z := if in_range 97 122 b then b - 32 else b.
(** [strings.ToUpper] on type names, which are ASCII. *)
Definition ToUpper (s : string) : string := string_of (upper_byte <$> bytes_of s).
Definition mssqlVariableBytes `{GoEnv} (rawVal : any) : Z :=
  Z.of_nat (String.length (match rawVal with AString s | ABytes s => s | v => fmt_v v end)).
Definition mssqlNTextBytes `{GoEnv} (rawVal : any) : Z :=
  match rawVal with AString s => Z.of_nat (length (rune_list s)) * 2 | v => Z.of_nat (String.length (fmt_v v)) end.
Definition mssqlColumnSizer `{GoEnv} (colType : ColumnType) : any → Z :=
  let t := ToUpper (TrimSpace (DatabaseTypeName colType)) in
  if contains ["TINYINT"; "BIT"] t then λ _, 1
  else if contains ["SMALLINT"] t then λ _, 2
  else if contains ["SMALLMONEY"; "INT"; "REAL"; "SMALLDATETIME"] t then λ _, 4
  else if contains ["DATE"] t then λ _, 3
  else if contains ["TIME"] t then λ _, 5
  else if contains ["BIGINT"; "MONEY"; "FLOAT"; "DATETIME"; "DATETIME2"; "ROWVERSION"; "TIMESTAMP"] t then λ _, 8
  else if contains ["DATETIMEOFFSET"] t then λ _, 10
  else if contains ["UNIQUEIDENTIFIER"] t then λ _, 16
  else if contains ["NCHAR"; "NVARCHAR"; "NTEXT"] t then mssqlNTextBytes
  else mssqlVariableBytes.
Definition mssqlCDCColumnSizer `{GoEnv} (colType : ColumnType) : any → Z :=
  if HasPrefix (ct_Name colType) "__$" then λ _, 0 else mssqlColumnSizer colType.

(** ** datatype_conversion.go, mssql.go: the conversion of values *)
Definition mssqlTypeToDataTypes : gmap string DataType := list_to_map [
  ("tinyint", Int32); ("smallint", Int32); ("int", Int32); ("bigint", Int64);
  ("decimal", Float64); ("numeric", Float64); ("float", Float64); ("real", Float32); ("bit", Bool); ("smallmoney", Float64); ("money", Float64);
  ("char", String_); ("varchar", String_); ("text", String_); ("nchar", String_); ("nvarchar", String_); ("ntext", String_); ("sysname", String_); ("json", String_);
  ("binary", String_); ("varbinary", String_); ("image", String_); ("rowversion", String_); ("timestamp", String_);
  ("date", Timestamp); ("smalldatetime", Timestamp); ("datetime", Timestamp); ("datetime2", TimestampMicro); ("datetimeoffset", TimestampMicro); ("time", String_);
  ("uniqueidentifier", String_); ("geometry", String_); ("geography", String_); ("sql_variant", String_); ("xml", String_); ("hierarchyid", String_)].

(** The first three groups are stored little-endian. *)
Definition formatUniqueIdentifierBytes (v : list Z) : option string :=
  match v with
  | [b0; b1; b2; b3; b4; b5; b6; b7; b8; b9; b10; b11; b12; b13; b14; b15] =>
      Some (cat [EncodeToString [b3; b2; b1; b0]; "-"; EncodeToString [b5; b4]; "-"; EncodeToString [b7; b6]; "-"; EncodeToString [b8; b9]; "-";
                 EncodeToString [b10; b11; b12; b13; b14; b15]])
  | _ => None
  end.

Section Converter.
Context `{GoEnv}.
(** [fmt_s], [fmt_x]: [%s] and [%x] on values that are neither text nor bytes;
    [fmt_clock]: [Format("15:04:05")]. *)
Context (fmt_s fmt_x : any → string) (fmt_clock : gotime → string).
Definition Sprintf_s (v : any) : string := match v with AString s | ABytes s => s | v => fmt_s v end.
Definition Sprintf_x (v : any) : string := match v with AString s | ABytes s => EncodeToString (bytes_of s) | v => fmt_x v end.
Definition mssql_dataTypeConverter (value : any) (columnType : string) : result any :=
  if is_nil value then Err ErrNullValue
  else
    let columnType := ToLower columnType in
    if String.eqb columnType "uniqueidentifier" then
      Ok (AString (match value with
                   | ABytes v => match formatUniqueIdentifierBytes (bytes_of v) with Some uuid => uuid | None => Sprintf_s value end
                   | _ => Sprintf_s value
                   end))
    else if String.eqb columnType "hierarchyid" then Ok (AString (match value with AString val => val | _ => Sprintf_x value end))
    else if String.eqb columnType "time" then Ok (AString (ReformatTimeValue fmt_clock value))
    else ReformatValue (ExtractAndMapColumnType columnType mssqlTypeToDataTypes) value.
End Converter.

(** ** cdc.go *)
Definition cdcCursorKey : string := "lsn".
Definition CDCStartLSN : string := "_cdc_start_lsn".
Definition CDCSeqVal : string := "_cdc_seqval".

Record captureInstance := mkCapture { ci_schema : string; ci_table : string; instanceName : string; startLSN : string }.
#[export] Instance captureInstance_eq_dec : EqDecision captureInstance.
Proof. solve_decision. Defined.
Record cdcScanSession := mkSession { sessionID : Z; endTime : gotime; tranCount : Z }.

(** The order of strings in Go. *)
Definition str_gt (a b : string) : bool := negb (string_leb a b).

(** *** Capture instances; a row is schema, table, instance and start. *)
Abbreviation discovered := (rows (string * string * string * list Z)) (only parsing).
Definition add_capture (m : gmap string (list captureInstance)) (row : string * string * string * list Z) : gmap string (list captureInstance) :=
  let '(schema, table, name, start) := row in
  let streamID := schema +:+ "." +:+ table in
  <[streamID := default [] (m !! streamID) ++ [mkCapture schema table name (EncodeToString start)]]> m.
Definition prepareCaptureInstancesBulk (answer : discovered) : result (gmap string (list captureInstance)) :=
  match answer with
  | QueryFailed e => Err "failed to query MSSQL CDC tables"
  | RowsFailed e => Err "failed to scan MSSQL CDC tables"
  | Rows l => Ok (foldl add_capture ∅ l)
  end.
Definition prepareCaptureInstances (answer : discovered) (stream : ConfiguredStream) : result (list captureInstance) :=
  res ← prepareCaptureInstancesBulk answer; Ok (default [] (res !! ID stream)).

(** From the newest, which is the last. *)
Fixpoint newest_from (currentLSN : string) (i : nat) (rev : list captureInstance) : option (nat * captureInstance) :=
  match rev with
  | [] => None
  | c :: rest => if String.eqb currentLSN "" || string_leb (startLSN c) currentLSN then Some (i, c) else newest_from currentLSN (i - 1) rest
  end.
Definition newestValidInstance (instances : list captureInstance) (currentLSN : string) : option (nat * captureInstance) :=
  newest_from currentLSN (length instances - 1) (reverse instances).

(** *** Management: the commands sent to the server, the last of which may have failed. *)
Inductive command := Disable (c : captureInstance) | Create (schema table name : string).
Record mssql_config := mkMssqlConfig { ManageCaptureInstances : bool; hasPrimary : bool; isReadReplica : bool; cdcSupported : bool }.

Section Manage.
Context (exec : command → option string) (unix : Z).
Fixpoint disable_consumed (currentCursorLSN : string) (activeIdx idx : nat) (instances : list captureInstance) : list command * result nat :=
  match instances with
  | [] => ([], Ok 0%nat)
  | capture :: rest =>
      if negb (idx =? activeIdx)%nat && (String.eqb currentCursorLSN "" || string_leb (startLSN capture) currentCursorLSN) then
        match exec (Disable capture) with
        | Some e => ([Disable capture], Err "failed to delete obsolete capture instance")
        | None => let '(cs, r) := disable_consumed currentCursorLSN activeIdx (S idx) rest in (Disable capture :: cs, S <$> r)
        end
      else disable_consumed currentCursorLSN activeIdx (S idx) rest
  end.
Definition create_drifted (latestDDL : option string) (streamID : string) (latestCapture : captureInstance) : list command * result unit :=
  match latestDDL with
  | Some ddlLSN =>
      if str_gt ddlLSN (startLSN latestCapture) then
        let streamPart := if 75 <? Z.of_nat (String.length streamID) then String.substring 0 75 streamID else streamID in
        let c := Create (ci_schema latestCapture) (ci_table latestCapture) ("olake_" +:+ streamPart +:+ "_" +:+ fmt_d unix) in
        ([c], match exec c with Some e => Err "failed to create new capture instance" | None => Ok () end)
      else ([], Ok ())
  | None => ([], Ok ())
  end.
Definition manage_stream (s : State) (captureInstancesMap : gmap string (list captureInstance)) (latestDDLMap : gmap string string) (stream : ConfiguredStream)
    : list command * result unit :=
  let instances := default [] (captureInstancesMap !! ID stream) in
  match cursor_value s stream cdcCursorKey with
  | AString currentCursorLSN =>
      match newestValidInstance instances currentCursorLSN with
      | None => ([], Err "LSN is older than any available scan instances; please perform a full refresh")
      | Some (activeIdx, active) =>
          let '(dropped, r) := disable_consumed currentCursorLSN activeIdx 0 instances in
          match r with
          | Ok deletedCount =>
              if (length instances - deletedCount =? 1)%nat
              then let '(created, r) := create_drifted (latestDDLMap !! ID stream) (ID stream) active in (dropped ++ created, r)
              else (dropped, Ok ())
          | Err e => (dropped, Err e)
          | Panic m => (dropped, Panic m)
          end
      end
  | _ => ([], Panic "interface conversion")
  end.
Fixpoint manage_streams (s : State) (m : gmap string (list captureInstance)) (ddl : gmap string string) (streams : list ConfiguredStream) : list command * result unit :=
  match streams with
  | [] => ([], Ok ())
  | stream :: streams =>
      let '(cs, r) := manage_stream s m ddl stream in
      match r with Ok _ => let '(cs', r) := manage_streams s m ddl streams in (cs ++ cs', r) | r => (cs, r) end
  end.
(** [ddl]: the history of schema changes, oldest first. *)
Definition manageCaptureInstances (config : mssql_config) (ddl : rows (string * string * list Z)) (s : State) (m : gmap string (list captureInstance))
    (streams : list ConfiguredStream) : list command * result unit :=
  if negb (ManageCaptureInstances config) then ([], Ok ())
  else if negb (hasPrimary config) && isReadReplica config then ([], Ok ())
  else match ddl with
       | QueryFailed e => ([], Err "failed to query bulk DDL history")
       | RowsFailed e => ([], Err "failed to scan DDL history")
       | Rows l => manage_streams s m (foldl (λ m r, <[r.1.1 +:+ "." +:+ r.1.2 := EncodeToString r.2]> m) ∅ l) streams
       end.
End Manage.

(** *** The first position *)
Definition currentMaxLSN (answer : result (list Z)) : result string :=
  lsn ← answer; match lsn with [] => Err "no LSN available (CDC may not be initialized or no transactions exist)" | _ => Ok (EncodeToString lsn) end.

(** What the waiting loop is woken by. *)
Inductive wake := WakeDone | WakeTimeout | WakeTick (session : result (option cdcScanSession)).
Record lsn_source := mkSource {
  ls_permission : result bool; ls_job : result (Z * Z); ls_base : result (option cdcScanSession); ls_wakes : list wake; ls_max : result (list Z)
}.
Definition time_after (a b : gotime) : bool := (t_unix b <? t_unix a) || ((t_unix a =? t_unix b) && (t_nsec b <? t_nsec a)).
Definition caught_up (maxTrans : Z) (base : option cdcScanSession) (session : cdcScanSession) : bool :=
  (tranCount session <? maxTrans) && match base with None => true | Some b => time_after (endTime session) (endTime b) end.
(** In nanoseconds, as a Duration. *)
Definition catchUpTimeout (pollingIntervalS : Z) : Z := Z.max (15 * 60 * 1000000000) (wrap_s 64 (wrap_s 64 (3 * pollingIntervalS) * 1000000000)).
(** [None]: still waiting. *)
Fixpoint wait_loop (maxTrans : Z) (base : option cdcScanSession) (max : result (list Z)) (wakes : list wake) : option (result string) :=
  match wakes with
  | [] => None
  | WakeDone :: _ => Some (Err "context canceled")
  | WakeTimeout :: _ => Some (currentMaxLSN max)
  | WakeTick session :: wakes =>
      match session with
      | Err e => Some (Err "failed to query CDC scan session")
      | Panic m => Some (Panic m)
      | Ok None => wait_loop maxTrans base max wakes
      | Ok (Some session) => if caught_up maxTrans base session then Some (currentMaxLSN max) else wait_loop maxTrans base max wakes
      end
  end.
Definition waitForCDCAgentCatchUp (src : lsn_source) : option (result string) :=
  match ls_job src with
  | Ok (maxTrans, pollingIntervalS) =>
      match ls_base src with
      | Ok base => wait_loop maxTrans base (ls_max src) (ls_wakes src)
      | _ => Some (Err "failed to query CDC scan sessions")
      end
  | _ => Some (Err "unable to query CDC capture job config")
  end.
Definition resolveInitialLSN (config : mssql_config) (src : lsn_source) : option (result string) :=
  if isReadReplica config then Some (currentMaxLSN (ls_max src))
  else match ls_permission src with
       | Ok true => waitForCDCAgentCatchUp src
       | Ok false => Some (currentMaxLSN (ls_max src))
       | _ => Some (Err "failed to check VIEW DATABASE STATE permission")
       end.

(** *** The driver.  The index of a stream is one of the streams of the attempt. *)
Record mssql_state := mkMssql { ms_streams : list ConfiguredStream; lsnMap : gmap string string }.

(** Streams without a position get the current one, which is resolved once. *)
Fixpoint pre_streams (config : mssql_config) (src : lsn_source) (m : gmap string (list captureInstance)) (currentLSN : string) (s : State)
    (streams : list ConfiguredStream) : option (State * result unit) :=
  match streams with
  | [] => Some (s, Ok ())
  | stream :: streams =>
      match m !! ID stream with
      | None => Some (s, Err ("CDC is not enabled for stream " +:+ Namespace stream +:+ "." +:+ Name stream))
      | Some _ =>
          if is_nil (cursor_value s stream cdcCursorKey) then
            match (if String.eqb currentLSN "" then resolveInitialLSN config src else Some (Ok currentLSN)) with
            | None => None
            | Some (Ok lsn) => pre_streams config src m lsn (SetCursor s stream cdcCursorKey (AString lsn)) streams
            | Some (Err e) => Some (s, Err "failed to get MSSQL current max LSN")
            | Some (Panic p) => Some (s, Panic p)
            end
          else pre_streams config src m currentLSN s streams
      end
  end.
Definition mssql_PreCDC (config : mssql_config) (exec : command → option string) (unix : Z) (answer : discovered) (ddl : rows (string * string * list Z)) (src : lsn_source)
    (streams : list ConfiguredStream) (d : mssql_state) (s : State) : option (mssql_state * State * list command * result unit) :=
  if negb (cdcSupported config) then Some (d, s, [], Err "invalid call; not running in CDC mode")
  else match prepareCaptureInstancesBulk answer with
       | Ok m =>
           match pre_streams config src m "" s streams with
           | None => None
           | Some (s, Ok _) =>
               let '(cs, r) := manageCaptureInstances exec unix config ddl s m streams in
               Some (match r with Ok _ => mkMssql streams (lsnMap d) | _ => d end, s, cs, r)
           | Some (s, r) => Some (d, s, [], r)
           end
       | Err e => Some (d, s, [], Err "failed to discover capture instances")
       | Panic p => Some (d, s, [], Panic p)
       end.

Definition operationTypeFromCDCCode (code : Z) : string := if code =? 1 then "delete" else if code =? 2 then "insert" else "update".

Section MssqlCdc.
Context `{HE : GoEnv} `{HJ : JsonCodec}.
Context (fmt_s fmt_x : any → string) (fmt_clock : gotime → string).

(** The rows of a change table: the query is refused, or rows are read until the end or an
    error. *)
Inductive change_rows := ChangesRefused (e : string) | ChangeRows (l : list (result (list (ColumnType * any)))) (err : option string).
(** What the server answers during one attempt for the stream [mi_index]. *)
Record mssql_input := mkMssqlInput {
  mi_index : nat;
  mi_max : result (list Z);
  mi_instances : discovered;
  mi_advance : list Z → result (list Z);
  mi_changes : string → list Z → list Z → change_rows;
  mi_now : nat → gotime
}.

Definition advanceLSN (inp : mssql_input) (lsnHex : string) : result string :=
  match DecodeString lsnHex with
  | Ok lsnBytes =>
      match mi_advance inp lsnBytes with
      | Ok [] => Err "advanced LSN is empty"
      | Ok next => Ok (EncodeToString next)
      | _ => Err "failed to advance LSN"
      end
  | _ => Err "failed to parse LSN for advance"
  end.

(** The change of a scanned row; none for the state before an update. *)
Definition change_of_row (stream : ConfiguredStream) (now : gotime) (record : gmap string any) : result (option CDCChange) :=
  let emit operationType :=
    let extraColumns : gmap string any :=
      {[CDCStartLSN := AString (Sprintf_x fmt_x (default ANil (record !! "__$start_lsn")));
        CDCSeqVal := AString (Sprintf_x fmt_x (default ANil (record !! "__$seqval")))]} in
    let data := delete "__$update_mask" (delete "__$seqval" (delete "__$start_lsn" (delete "__$operation" record))) in
    Ok (Some (mkChange stream now operationType data extraColumns)) in
  match record !! "__$operation" with
  | None => emit ""
  | Some (AInt KInt32 opCode) => if opCode =? 3 then Ok None else emit (operationTypeFromCDCCode opCode)
  | Some _ => Panic "interface conversion"
  end.
Fixpoint fetch_rows (stream : ConfiguredStream) (now : nat → gotime) (processFn : pushes → CDCChange → pushes * option stop)
    (l : list (result (list (ColumnType * any)))) (log : pushes) : pushes * option stop :=
  match l with
  | [] => (log, None)
  | row :: l =>
      match MapScan (mssql_dataTypeConverter fmt_s fmt_x fmt_clock) mssqlCDCColumnSizer row with
      | Ok (record, rowBytes) =>
          match change_of_row stream (now (length log)) record with
          | Ok None => fetch_rows stream now processFn l log
          | Ok (Some change) =>
              match processFn log change with
              | (log, None) => fetch_rows stream now processFn l log
              | (log, Some (Stops e)) => (log, Some (Stops ("failed to process MSSQL CDC change: " +:+ e)))
              | (log, Some Gone) => (log, Some Gone)
              end
          | Err e => (log, Some (Stops e))
          | Panic m => (log, Some (Stops ("panic recovered: " +:+ m)))
          end
      | Err e => (log, Some (Stops "failed to scan MSSQL CDC row"))
      | Panic m => (log, Some (Stops ("panic recovered: " +:+ m)))
      end
  end.
Definition fetchTableChangesInLSNRange (inp : mssql_input) (stream : ConfiguredStream) (capture : captureInstance) (fromLSN toLSN : string)
    (processFn : pushes → CDCChange → pushes * option stop) (log : pushes) : pushes * option stop :=
  match (effectiveFromLSN ← advanceLSN inp fromLSN;
         fromLSNBytes ← DecodeString effectiveFromLSN;
         toLSNBytes ← DecodeString toLSN;
         Ok (fromLSNBytes, toLSNBytes)) with
  | Ok (fromLSNBytes, toLSNBytes) =>
      match mi_changes inp (instanceName capture) fromLSNBytes toLSNBytes with
      | ChangesRefused e => (log, Some (Stops "failed to query MSSQL CDC changes"))
      | ChangeRows l err =>
          match fetch_rows stream (mi_now inp) processFn l log with
          | (log, None) => (log, Stops <$> err)
          | r => r
          end
      end
  | Err e | Panic e => (log, Some (Stops e))
  end.

(** From the position of the stream to [targetLSN], or to the start of the next capture
    instance. *)
Definition read_stream (inp : mssql_input) (d : mssql_state) (stream : ConfiguredStream) (lsnInState targetLSN : string) (captureInstances : list captureInstance)
    (processFn : pushes → CDCChange → pushes * option stop) (log : pushes) : mssql_state * pushes * changes_end :=
  match newestValidInstance captureInstances lsnInState with
  | None => (d, log, ChangesFailed "LSN is earlier than the start LSN of available capture instances")
  | Some (captureIdx, selectedCapture) =>
      let targetLSN := match captureInstances !! S captureIdx with
                       | Some newerCapture => if str_gt targetLSN (startLSN newerCapture) then startLSN newerCapture else targetLSN
                       | None => targetLSN
                       end in
      match fetchTableChangesInLSNRange inp stream selectedCapture lsnInState targetLSN processFn log with
      | (log, Some (Stops e)) => (d, log, ChangesFailed e)
      | (log, Some Gone) => (d, log, ChangesGone)
      | (log, None) => (mkMssql (ms_streams d) (<[ID stream := targetLSN]> (lsnMap d)), log, Streamed (OneFinal (SText targetLSN)) false)
      end
  end.

Definition mssql_StreamChanges (inp : mssql_input) (d : mssql_state) (s : State) (metadataStates : gmap string (option state_json))
    (processFn : pushes → CDCChange → pushes * option stop) (log : pushes) : option (mssql_state * pushes * changes_end) :=
  let fail e := Some (d, log, ChangesFailed e) in
  match ms_streams d !! mi_index inp with
  | None => fail "panic recovered: index out of range"
  | Some stream =>
      match cursor_value s stream cdcCursorKey with
      | AString lsnInState =>
          match mjoin (metadataStates !! ID stream) with
          | Some (SObject _) => fail "failed to typecast mtstate to string"
          | mt =>
              let mtState := match mt with Some (SText t) => t | _ => "" end in
              if str_gt mtState lsnInState then
                Some (mkMssql (ms_streams d) (<[ID stream := mtState]> (lsnMap d)), log, Streamed (OneFinal (SText mtState)) false)
              else
                match currentMaxLSN (mi_max inp) with
                | Ok targetLSN =>
                    if negb (str_gt targetLSN lsnInState) then Some (d, log, Streamed NoFinal false)
                    else match prepareCaptureInstances (mi_instances inp) stream with
                         | Ok captureInstances => Some (read_stream inp d stream lsnInState targetLSN captureInstances processFn log)
                         | _ => fail "failed to prepare capture instance"
                         end
                | _ => fail "failed to get MSSQL max LSN"
                end
          end
      | _ => fail "panic recovered: interface conversion"
      end
  end.

Definition mssql_PostCDC (inp : mssql_input) (done : bool) (d : mssql_state) (s : State) : mssql_state * option State * option string :=
  if done then (d, None, Some "context canceled")
  else match ms_streams d !! mi_index inp with
       | None => (d, None, Some "index out of range")
       | Some stream =>
           match lsnMap d !! ID stream with
           | Some val => (d, Some (SetCursor s stream cdcCursorKey (AString val)), None)
           | None => (d, None, None)
           end
       end.

Definition MSSQL_changes : ChangeDriver :=
  {| dstate := mssql_state; dinput := mssql_input; StreamChanges := mssql_StreamChanges; PostCDC := mssql_PostCDC |}.
End MssqlCdc.
