(* ===== verification/MssqlInstances.v ===== *)
(** * SQL Server: LSN texts, the choice of a capture instance, and their management *)

From S2P Require Import Prelude GoString GoSet DataTypes QueryEngine Value ValueFacts Schema Stream Catalog State StateFacts TwoPC Fields Writers Utils Backfill Incremental IncrementalFacts Jdbc Chunking Binlog Cdc CdcFacts MssqlCdc.

(** ** LSN texts

    An LSN is a number below 2^80 in ten big-endian bytes.  Its hexadecimal text is read
    back as the bytes, and texts are ordered as the numbers are. *)
Fixpoint big_endian (n : nat) (z : Z) : list Z :=
  match n with O => [] | S m => (z / 256 ^ Z.of_nat m) mod 256 :: big_endian m z end.
Definition lsn_bytes (z : Z) : list Z := big_endian 10 z.
Definition lsn_text (z : Z) : string := EncodeToString (lsn_bytes z).
Definition is_lsn (z : Z) : Prop := 0 ≤ z < 2 ^ 80.

Lemma big_endian_bytes n z : Forall (λ b, 0 ≤ b < 256) (big_endian n z).
Proof. induction n as [|n IH]; cbn [big_endian]; [constructor|]. constructor; [apply Z.mod_pos_bound; lia|done]. Qed.
Lemma big_endian_mod n z : big_endian n (z mod 256 ^ Z.of_nat n) = big_endian n z.
Proof.
  enough (H : ∀ m, (n ≤ m)%nat → big_endian n (z mod 256 ^ Z.of_nat m) = big_endian n z) by auto.
  induction n as [|n IH]; intros m Hm; [done|]. cbn [big_endian]. f_equal; [|apply IH; lia].
  replace (Z.of_nat m) with (Z.of_nat n + 1 + Z.of_nat (m - n - 1)) by lia. rewrite !Z.pow_add_r by lia.
  set (a := 256 ^ Z.of_nat n). set (b := 256 ^ Z.of_nat (m - n - 1)). assert (0 < a) by (apply Z.pow_pos_nonneg; lia). assert (0 < b) by (apply Z.pow_pos_nonneg; lia).
  rewrite Z.pow_1_r, <- Z.mul_assoc, (Z.rem_mul_r z a (256 * b)) by lia. rewrite (Z.mul_comm a (_ mod _)), Z.div_add by lia.
  rewrite (Z.div_small (z mod a)) by (apply Z.mod_pos_bound; lia). rewrite Z.add_0_l, (Z.rem_mul_r (z / a) 256 b) by lia.
  by rewrite (Z.mul_comm 256), Z_mod_plus_full, Zmod_mod.
Qed.

Definition nibbles : list Z := seqZ 0 16.
Lemma nibble_in x : 0 ≤ x < 16 → x ∈ nibbles.
Proof. intros. apply elem_of_seqZ. lia. Qed.
Lemma nibble_facts a b : 0 ≤ a < 16 → 0 ≤ b < 16 → from_digit (hex_digit a) = Some a ∧ Ascii.compare (hex_digit a) (hex_digit b) = (a ?= b) ∧ 0 ≤ byte_of (hex_digit a) < 128.
Proof.
  intros Ha%nibble_in Hb%nibble_in.
  assert (H : forallb (λ a, forallb (λ b, bool_decide (from_digit (hex_digit a) = Some a) && bool_decide (Ascii.compare (hex_digit a) (hex_digit b) = (a ?= b)) && (byte_of (hex_digit a) <? 128)) nibbles) nibbles = true) by (vm_compute; reflexivity).
  rewrite forallb_forall in H. specialize (H a (proj1 (list_elem_of_In _ _) Ha)). rewrite forallb_forall in H. specialize (H b (proj1 (list_elem_of_In _ _) Hb)).
  apply andb_prop in H as [[H1%bool_decide_eq_true H2%bool_decide_eq_true]%andb_prop H3]. pose proof (byte_of_range (hex_digit a)). split_and!; try done; lia.
Qed.
Lemma nibble_split b : 0 ≤ b < 256 → 0 ≤ b / 16 < 16 ∧ 0 ≤ b mod 16 < 16 ∧ b = 16 * (b / 16) + b mod 16.
Proof. intros. Z.to_euclidean_division_equations. lia. Qed.
Lemma hex_read l : Forall (λ b, 0 ≤ b < 256) l → DecodeString (EncodeToString l) = Ok l.
Proof.
  induction 1 as [|b l Hb _ IH]; cbn [EncodeToString DecodeString]; [done|].
  destruct (nibble_split b Hb) as (H1 & H2 & Heq). destruct (nibble_facts (b / 16) 0 H1 ltac:(lia)) as [-> _], (nibble_facts (b mod 16) 0 H2 ltac:(lia)) as [-> _].
  rewrite IH. cbn. by rewrite <- Heq.
Qed.
Lemma big_endian_compare n x y : 0 ≤ x < 256 ^ Z.of_nat n → 0 ≤ y < 256 ^ Z.of_nat n →
  String.compare (EncodeToString (big_endian n x)) (EncodeToString (big_endian n y)) = (x ?= y).
Proof.
  revert x y. induction n as [|n IH]; intros x y Hx Hy; [cbn in *; symmetry; apply Z.compare_eq_iff; lia|].
  rewrite Nat2Z.inj_succ, Z.pow_succ_r in Hx, Hy by lia. cbn [big_endian EncodeToString]. set (p := 256 ^ Z.of_nat n) in *.
  assert (0 < p) by (apply Z.pow_pos_nonneg; lia). assert (0 ≤ x / p < 256 ∧ 0 ≤ y / p < 256) as [Hxp Hyp].
  { split; (split; [apply Z.div_pos; lia|apply Z.div_lt_upper_bound; lia]). }
  rewrite (Z.mod_small (x / p)), (Z.mod_small (y / p)) by lia. rewrite <- (big_endian_mod n x), <- (big_endian_mod n y). fold p.
  destruct (nibble_split _ Hxp) as (Hx1 & Hx2 & Hxe), (nibble_split _ Hyp) as (Hy1 & Hy2 & Hye).
  cbn [String.compare]. rewrite (proj1 (proj2 (nibble_facts _ _ Hx1 Hy1))), (proj1 (proj2 (nibble_facts _ _ Hx2 Hy2))).
  rewrite IH by (unfold p; apply Z.mod_pos_bound; lia).
  pose proof (Z.div_mod x p ltac:(lia)). pose proof (Z.div_mod y p ltac:(lia)). pose proof (Z.mod_pos_bound x p). pose proof (Z.mod_pos_bound y p).
  destruct (Z.compare_spec (x / p / 16) (y / p / 16)); [destruct (Z.compare_spec ((x / p) mod 16) ((y / p) mod 16))|..];
    [destruct (Z.compare_spec (x mod p) (y mod p))|..]; symmetry; rewrite ?Z.compare_eq_iff, ?Z.compare_lt_iff, ?Z.compare_gt_iff.
  all: try (assert (x / p = y / p) as Heq by lia; rewrite Heq in *; lia).
  all: try (assert (x / p + 1 ≤ y / p) as Hlt by lia; nia).
  all: try (assert (y / p + 1 ≤ x / p) as Hlt by lia; nia).
Qed.

Lemma lsn_pow : 256 ^ Z.of_nat 10 = 2 ^ 80.
Proof. reflexivity. Qed.
Lemma lsn_le x y : is_lsn x → is_lsn y → string_leb (lsn_text x) (lsn_text y) = (x <=? y).
Proof. intros. unfold string_leb, lsn_text, lsn_bytes. rewrite big_endian_compare by (by rewrite lsn_pow). unfold Z.leb. by destruct (x ?= y). Qed.
Lemma lsn_gt x y : is_lsn x → is_lsn y → str_gt (lsn_text x) (lsn_text y) = (y <? x).
Proof. intros. unfold str_gt. rewrite lsn_le by done. lia. Qed.
Lemma lsn_text_inj x y : is_lsn x → is_lsn y → lsn_text x = lsn_text y → x = y.
Proof. intros Hx Hy Heq. pose proof (lsn_le x y Hx Hy) as H1. pose proof (lsn_le y x Hy Hx) as H2. rewrite Heq in H1, H2. rewrite H1 in H2. lia. Qed.
Lemma lsn_nonempty x : lsn_text x ≠ "".
Proof. done. Qed.
Lemma lsn_decode x : DecodeString (lsn_text x) = Ok (lsn_bytes x).
Proof. apply hex_read, big_endian_bytes. Qed.

Lemma ascii_valid s : Forall (λ b, 0 ≤ b < 128) (bytes_of s) → utf8_valid s.
Proof.
  intros Hs. unfold utf8_valid, rune_list. rewrite runes_ascii by done. assert (concat (encode_rune <$> bytes_of s) = bytes_of s) as ->; [|apply string_of_bytes_of].
  induction Hs as [|b l Hb _ IH]; [done|]. cbn. rewrite IH. unfold encode_rune. by rewrite (proj2 (Z.ltb_lt _ _)) by lia.
Qed.
Lemma lsn_valid x : utf8_valid (lsn_text x).
Proof.
  apply ascii_valid. unfold lsn_text, lsn_bytes. pose proof (big_endian_bytes 10 x) as Hl. induction Hl as [|b l Hb _ IH]; cbn [EncodeToString bytes_of]; [constructor|].
  destruct (nibble_split b Hb) as (H1 & H2 & _). constructor; [apply (nibble_facts _ 0); lia|]. constructor; [apply (nibble_facts _ 0); lia|exact IH].
Qed.

(** Reading the bytes as a number. *)
Definition lsn_of (l : list Z) : Z := foldl (λ a b, a * 256 + b) 0 l.
Lemma lsn_of_bytes z : is_lsn z → lsn_of (lsn_bytes z) = z.
Proof.
  intros Hz. assert (H : ∀ n a, foldl (λ a b, a * 256 + b) a (big_endian n z) = a * 256 ^ Z.of_nat n + z mod 256 ^ Z.of_nat n).
  { induction n as [|n IH]; intros a; [cbn; rewrite Z.mod_1_r; lia|]. cbn [big_endian foldl]. rewrite IH, Nat2Z.inj_succ, Z.pow_succ_r by lia.
    assert (0 < 256 ^ Z.of_nat n) by (apply Z.pow_pos_nonneg; lia). rewrite (Z.mul_comm 256), (Z.rem_mul_r z) by lia. lia. }
  unfold lsn_of, lsn_bytes. rewrite H, lsn_pow, Z.mod_small; [lia|exact Hz].
Qed.

(** ** Capture instances *)

(** The newest instance that starts at or before a position. *)
Lemma newest_snoc l c cur : newestValidInstance (l ++ [c]) cur =
  if String.eqb cur "" || string_leb (startLSN c) cur then Some (length l, c) else newestValidInstance l cur.
Proof.
  unfold newestValidInstance. rewrite length_app, reverse_snoc. cbn [length newest_from]. rewrite Nat.add_sub.
  destruct (_ || _); [done|]. destruct l as [|x l] using rev_ind; [done|]. by rewrite length_app, Nat.add_sub.
Qed.
Lemma newest_spec l cur idx c : cur ≠ "" → newestValidInstance l cur = Some (idx, c) →
  l !! idx = Some c ∧ string_leb (startLSN c) cur = true ∧ ∀ idx' c', (idx < idx')%nat → l !! idx' = Some c' → string_leb (startLSN c') cur = false.
Proof.
  intros Hc%String.eqb_neq. induction l as [|x l IH] using rev_ind; [done|]. rewrite newest_snoc, Hc. cbn [orb].
  destruct (string_leb (startLSN x) cur) eqn:E.
  - intros [= <- <-]. split_and!; [by rewrite lookup_app_r, Nat.sub_diag|done|]. intros idx' c' Hlt Hl. apply lookup_lt_Some in Hl. rewrite length_app in Hl. cbn in Hl. lia.
  - intros (H1 & H2 & H3)%IH. split_and!; [by apply lookup_app_l_Some|done|]. intros idx' c' Hlt [Hl|[Hge Hl]]%lookup_app_Some; [by eauto|].
    apply list_lookup_singleton_Some in Hl as [_ <-]. done.
Qed.
Lemma newest_exists l cur c : c ∈ l → string_leb (startLSN c) cur = true → is_Some (newestValidInstance l cur).
Proof.
  induction l as [|x l IH] using rev_ind; [by intros ?%elem_of_nil|]. intros [Hc|Hc]%elem_of_app Hle; rewrite newest_snoc; destruct (_ || _) eqn:E; [done|by apply IH|done|].
  apply list_elem_of_singleton in Hc as ->. by rewrite Hle, orb_true_r in E.
Qed.

(** What the server has for a table over time: the instances ever created for it, oldest
    first, each with its start and the changes it captured. *)
Record instance := mkInstance { i_start : Z; i_name : string; i_rows : list (Z * list (ColumnType * any)) }.
Definition capture_of (s : ConfiguredStream) (i : instance) : captureInstance := mkCapture (Namespace s) (Name s) (i_name i) (lsn_text (i_start i)).
Definition older (i j : instance) : Prop := i_start i < i_start j.
Definition instances_ok (l : list instance) : Prop := StronglySorted older l ∧ ∀ i, i ∈ l → is_lsn (i_start i).

Lemma sorted_lookup l a b i j : StronglySorted older l → l !! a = Some i → l !! b = Some j → (a < b)%nat → i_start i < i_start j.
Proof.
  intros Hs. revert a b. induction Hs as [|x l Hs IH Hx]; intros [|a] [|b] Ha Hb Hlt; try done; try lia; cbn in *.
  - injection Ha as ->. rewrite Forall_forall in Hx. apply Hx. by eapply list_elem_of_lookup_2.
  - apply (IH a b); [done..|lia].
Qed.
Lemma sorted_same l i j : StronglySorted older l → i ∈ l → j ∈ l → i_start i = i_start j → i = j.
Proof.
  intros Hs [a Ha]%list_elem_of_lookup [b Hb]%list_elem_of_lookup He. destruct (Nat.lt_trichotomy a b) as [Hlt|[->|Hlt]]; [|congruence|].
  - pose proof (sorted_lookup _ _ _ _ _ Hs Ha Hb Hlt). lia.
  - pose proof (sorted_lookup _ _ _ _ _ Hs Hb Ha Hlt). lia.
Qed.
Lemma capture_start s s' i j : is_lsn (i_start i) → is_lsn (i_start j) → capture_of s i = capture_of s' j → i_start i = i_start j.
Proof. intros Hi Hj Heq. apply (f_equal startLSN) in Heq. by apply lsn_text_inj. Qed.
Lemma sorted_filter (P : instance → Prop) `{∀ i, Decision (P i)} l : StronglySorted older l → StronglySorted older (filter P l).
Proof.
  induction 1 as [|x l Hs IH Hx]; [constructor|]. rewrite filter_cons. case_decide; [|done]. constructor; [done|].
  rewrite Forall_forall in *. intros y [_ Hy]%list_elem_of_filter. auto.
Qed.

(** Every change belongs to one instance: the newest that started before it. *)
Fixpoint owned (l : list instance) : list (Z * list (ColumnType * any)) :=
  match l with
  | [] => []
  | i :: rest => filter (λ r, i_start i < r.1 ∧ match rest with [] => true | j :: _ => r.1 <=? i_start j end = true) (i_rows i) ++ owned rest
  end.
Definition within (k t : Z) (l : list (Z * list (ColumnType * any))) : list (Z * list (ColumnType * any)) := filter (λ r, k < r.1 ≤ t) l.

Lemma owned_after l x : (∀ i, i ∈ l → x ≤ i_start i) → StronglySorted older l → ∀ r, r ∈ owned l → x < r.1.
Proof.
  intros Hl Hs. induction Hs as [|i l Hs IH Hi]; intros r; cbn [owned]; [by intros ?%elem_of_nil|].
  intros [[[Hr _] _]%list_elem_of_filter|Hr]%elem_of_app; [pose proof (Hl i ltac:(left)); lia|]. apply IH; [|done]. intros j Hj. apply Hl. by right.
Qed.

(** Between the start of an instance and the next one it has all the changes. *)
Lemma owned_within l i k t : StronglySorted older l → i ∈ l → i_start i ≤ k → (∀ x, x ∈ l → i_start x ≤ i_start i ∨ t ≤ i_start x) →
  within k t (owned l) = within k t (i_rows i).
Proof.
  intros Hs Hi Hk Hbetween. unfold within. induction Hs as [|x l Hs IH Hx]; [by apply elem_of_nil in Hi|]. cbn [owned]. rewrite filter_app.
  rewrite Forall_forall in Hx. apply elem_of_cons in Hi as [<-|Hi].
  - assert (filter (λ r, k < r.1 ≤ t) (owned l) = []) as ->.
    { apply filter_none, Forall_forall. intros r Hr. assert (t < r.1); [|lia]. apply (owned_after l t); [|done..]. intros y Hy.
      destruct (Hbetween y ltac:(by right)); [|done]. specialize (Hx y Hy). unfold older in Hx. lia. }
    rewrite app_nil_r, list_filter_filter. apply list_filter_iff. intros r. split; [tauto|]. intros Hr. split; [done|]. split; [lia|].
    destruct l as [|j l]; [done|]. destruct (Hbetween j ltac:(right; left)) as [?|?]; [specialize (Hx j ltac:(left)); unfold older in Hx|]; lia.
  - rewrite IH by (done || intros; apply Hbetween; by right). rewrite list_filter_filter. rewrite filter_none; [done|].
    apply Forall_forall. intros r _ [Hr [_ Hn]]. destruct l as [|j l]; [by apply elem_of_nil in Hi|].
    assert (i_start j ≤ i_start i); [|lia]. apply elem_of_cons in Hi as [->|Hi]; [done|].
    apply StronglySorted_inv in Hs as [_ Hj]. rewrite Forall_forall in Hj. specialize (Hj i Hi). unfold older in Hj. lia.
Qed.

(** The instances a query sees: every one that started by [n] and was not dropped, maybe
    newer ones, none that was dropped. *)
Definition visible (s : ConfiguredStream) (hist : list instance) (n : Z) (dropped : list captureInstance) (l : list instance) : Prop :=
  ∃ P : instance → bool, l = filter (λ i, P i = true) hist
  ∧ (∀ i, i ∈ hist → P i = true → capture_of s i ∉ dropped) ∧ (∀ i, i ∈ hist → i_start i ≤ n → capture_of s i ∉ dropped → P i = true).
(** An instance is dropped only after a newer one, still there, can take over. *)
Definition replaced (s : ConfiguredStream) (hist : list instance) (k : Z) (dropped : list captureInstance) : Prop :=
  ∀ i, i ∈ hist → capture_of s i ∈ dropped → ∃ j, j ∈ hist ∧ capture_of s j ∉ dropped ∧ i_start i < i_start j ≤ k.

Section Select.
Context (s : ConfiguredStream) (hist : list instance) (n : Z) (dropped : list captureInstance) (l : list instance) (k : Z).
Hypothesis Hok : instances_ok hist.
Hypothesis Hvis : visible s hist n dropped l.
Hypothesis Hrep : replaced s hist k dropped.
Hypothesis Hk : is_lsn k.
Hypothesis Hkn : k ≤ n.

Lemma visible_in i : i ∈ l → i ∈ hist ∧ capture_of s i ∉ dropped.
Proof. destruct Hvis as (P & -> & H1 & _). intros [HP Hi]%list_elem_of_filter. auto. Qed.
Lemma visible_now i : i ∈ hist → i_start i ≤ n → capture_of s i ∉ dropped → i ∈ l.
Proof. destruct Hvis as (P & -> & _ & H2). intros. apply list_elem_of_filter. auto. Qed.
Lemma visible_sorted : StronglySorted older l.
Proof. destruct Hvis as (P & -> & _). apply sorted_filter, Hok. Qed.
Lemma start_le i : i ∈ hist → string_leb (startLSN (capture_of s i)) (lsn_text k) = (i_start i <=? k).
Proof. intros. apply lsn_le; [by apply Hok|done]. Qed.

(** The selected instance is the newest of all that started by [k]. *)
Lemma selected idx c : newestValidInstance (capture_of s <$> l) (lsn_text k) = Some (idx, c) →
  ∃ i, i ∈ hist ∧ capture_of s i ∉ dropped ∧ l !! idx = Some i ∧ c = capture_of s i ∧ i_start i ≤ k
  ∧ (∀ x, x ∈ hist → i_start x ≤ k → i_start x ≤ i_start i) ∧ ∀ a x, (idx < a)%nat → l !! a = Some x → k < i_start x.
Proof.
  intros (H1 & H2 & H3)%newest_spec; [|apply lsn_nonempty]. rewrite list_lookup_fmap in H1. destruct (l !! idx) as [i|] eqn:Hi; [|done]. injection H1 as <-.
  destruct (visible_in i) as [Hin Hnd]; [by eapply list_elem_of_lookup_2|]. rewrite start_le in H2 by done. exists i.
  assert (Hafter : ∀ a x, (idx < a)%nat → l !! a = Some x → k < i_start x).
  { intros a x Hlt Hx. specialize (H3 a (capture_of s x) Hlt ltac:(by rewrite list_lookup_fmap, Hx)). rewrite start_le in H3; [lia|].
    apply visible_in. by eapply list_elem_of_lookup_2. }
  assert (Hseen : ∀ x, x ∈ l → i_start x ≤ k → i_start x ≤ i_start i).
  { intros x [a Ha]%list_elem_of_lookup Hx. destruct (Nat.lt_trichotomy a idx) as [Hlt|[->|Hlt]]; [|by simplify_eq|specialize (Hafter a x Hlt Ha); lia].
    pose proof (sorted_lookup _ _ _ _ _ visible_sorted Ha Hi Hlt). lia. }
  split_and!; try done; [lia|]. intros x Hx Hxk. destruct (decide (capture_of s x ∈ dropped)) as [Hd|Hd].
  - destruct (Hrep x Hx Hd) as (j & Hj & Hjd & Hlt). specialize (Hseen j (visible_now j Hj ltac:(lia) Hjd) ltac:(lia)). lia.
  - apply Hseen; [|done]. apply visible_now; [done|lia|done].
Qed.

(** The end of the read: the next instance, if there is one before [n]. *)
Lemma clamped idx c i : newestValidInstance (capture_of s <$> l) (lsn_text k) = Some (idx, c) → l !! idx = Some i → is_lsn n → k < n →
  ∃ t, (match (capture_of s <$> l) !! S idx with
        | Some newer => if str_gt (lsn_text n) (startLSN newer) then startLSN newer else lsn_text n
        | None => lsn_text n
        end) = lsn_text t
  ∧ k < t ≤ n ∧ (∀ x, x ∈ hist → i_start x ≤ i_start i ∨ t ≤ i_start x) ∧ (t = n ∨ ∃ x, x ∈ hist ∧ t = i_start x).
Proof.
  intros Hsel Hi Hn Hlt. destruct (selected idx c Hsel) as (i' & Hin & Hnd & Hi' & _ & Hle & Hmax & Hafter). rewrite Hi in Hi'. injection Hi' as <-.
  assert (Hfar : ∀ x, x ∈ hist → i_start i < i_start x → n < i_start x ∨ ∃ a, (idx < a)%nat ∧ l !! a = Some x).
  { intros x Hx Hgt. destruct (Z_lt_le_dec n (i_start x)); [by left|]. right. assert (k < i_start x) by (destruct (Z_lt_le_dec k (i_start x)); [done|specialize (Hmax x Hx); lia]).
    destruct (decide (capture_of s x ∈ dropped)) as [Hd|Hd]; [destruct (Hrep x Hx Hd) as (j & _ & _ & ?); lia|].
    destruct (proj1 (list_elem_of_lookup l x) (visible_now x Hx ltac:(done) Hd)) as [a Ha]. exists a. split; [|done].
    destruct (Nat.lt_trichotomy a idx) as [Ho|[->|]]; [|simplify_eq; lia|done]. pose proof (sorted_lookup _ _ _ _ _ visible_sorted Ha Hi Ho). lia. }
  rewrite list_lookup_fmap. destruct (l !! S idx) as [nx|] eqn:Enx; cbn [fmap option_fmap option_map].
  - assert (nx ∈ hist) as Hnx by (apply visible_in; by eapply list_elem_of_lookup_2). pose proof (Hafter (S idx) nx ltac:(lia) Enx) as Hknx.
    assert (Hge : ∀ x, x ∈ hist → i_start x ≤ i_start i ∨ n < i_start x ∨ i_start nx ≤ i_start x).
    { intros x Hx. destruct (Z_lt_le_dec (i_start i) (i_start x)) as [Hgt|]; [|by left]. right. destruct (Hfar x Hx Hgt) as [?|(a & Ha & Hxa)]; [by left|right].
      destruct (decide (a = S idx)) as [->|]; [by simplify_eq|]. pose proof (sorted_lookup _ _ _ _ _ visible_sorted Enx Hxa ltac:(lia)). lia. }
    cbn [startLSN capture_of]. rewrite lsn_gt by (done || by apply Hok). destruct (Z.ltb_spec (i_start nx) n).
    + exists (i_start nx). split_and!; [done|lia|lia| |right; by exists nx]. intros x Hx. destruct (Hge x Hx) as [?|[?|?]]; lia.
    + exists n. split_and!; [done|lia|lia| |by left]. intros x Hx. destruct (Hge x Hx) as [?|[?|?]]; lia.
  - exists n. split_and!; [done|lia|lia| |by left]. intros x Hx. destruct (Z_lt_le_dec (i_start i) (i_start x)) as [Hgt|]; [|by left].
    destruct (Hfar x Hx Hgt) as [?|(a & Ha & Hxa)]; [lia|]. apply lookup_lt_Some in Hxa. apply lookup_ge_None in Enx. lia.
Qed.
End Select.

(** ** Management *)
Lemma disabled_consumed exec cur act base l c : cur ≠ "" → Disable c ∈ (disable_consumed exec cur act base l).1 →
  ∃ a, l !! a = Some c ∧ (base + a)%nat ≠ act ∧ string_leb (startLSN c) cur = true.
Proof.
  intros Hc%String.eqb_neq. revert base. induction l as [|x l IH]; intros base; cbn [disable_consumed]; [by intros ?%elem_of_nil|]. rewrite Hc. cbn [orb].
  assert (Hrec : Disable c ∈ (disable_consumed exec cur act (S base) l).1 → ∃ a, (x :: l) !! a = Some c ∧ (base + a)%nat ≠ act ∧ string_leb (startLSN c) cur = true).
  { intros (a & H1 & H2 & H3)%IH. exists (S a). split_and!; [done|lia|done]. }
  destruct (negb (base =? act)%nat && string_leb (startLSN x) cur) eqn:E; [|done]. apply andb_prop in E as [E1 E2].
  assert (Hhead : Disable c = Disable x → ∃ a, (x :: l) !! a = Some c ∧ (base + a)%nat ≠ act ∧ string_leb (startLSN c) cur = true).
  { intros [= ->]. exists 0%nat. split_and!; [done| |done]. apply negb_true_iff, Nat.eqb_neq in E1. lia. }
  destruct (exec (Disable x)); cbn [fst].
  - by intros ?%list_elem_of_singleton; auto.
  - destruct (disable_consumed exec cur act (S base) l) as [cs r]. cbn [fst] in *. intros [?|?]%elem_of_cons; auto.
Qed.
Lemma created_only exec unix ddl id c c' : Disable c' ∉ (create_drifted exec unix ddl id c).1.
Proof.
  unfold create_drifted.
  repeat case_match; cbn; rewrite ?list_elem_of_singleton; by (intros ?%elem_of_nil) || done.
Qed.

Section Manage.
Context {HJ : JsonCodec}.
Context (exec : command → option string) (unix : Z).
(** Only instances that a newer one already replaces are dropped. *)
Lemma manage_drops st m ddl s hist n dropped l k c :
  instances_ok hist → visible s hist n dropped l → replaced s hist k dropped → is_lsn k → k ≤ n →
  default [] (m !! ID s) = capture_of s <$> l → cursor_value st s cdcCursorKey = AString (lsn_text k) →
  Disable c ∈ (manage_stream exec unix st m ddl s).1 →
  ∃ x i, x ∈ hist ∧ c = capture_of s x ∧ i ∈ hist ∧ capture_of s i ∉ dropped ∧ i_start x < i_start i ≤ k
  ∧ Disable (capture_of s i) ∉ (manage_stream exec unix st m ddl s).1.
Proof.
  intros Hok Hvis Hrep Hk Hkn Hm Hcur. unfold manage_stream. rewrite Hm, Hcur.
  destruct (newestValidInstance _ _) as [[idx a]|] eqn:En; [|by intros ?%elem_of_nil].
  destruct (selected s hist n dropped l k Hok Hvis Hrep Hk Hkn _ _ En) as (i & Hi & Hnd & Hidx & -> & Hle & Hmax & Hafter).
  assert (Hcmd : ∀ c, Disable c ∈ (let '(dropped, r) := disable_consumed exec (lsn_text k) idx 0 (capture_of s <$> l) in
       match r with
       | Ok deletedCount => if (length (capture_of s <$> l) - deletedCount =? 1)%nat then let '(created, r) := create_drifted exec unix (ddl !! ID s) (ID s) (capture_of s i) in (dropped ++ created, r) else (dropped, Ok ())
       | Err e => (dropped, Err e) | Panic m => (dropped, Panic m) end).1 → Disable c ∈ (disable_consumed exec (lsn_text k) idx 0 (capture_of s <$> l)).1).
  { intros c'. destruct (disable_consumed _ _ _ _ _) as [cs [d|e|e]]; [|done..]. destruct (_ =? 1)%nat; [|done].
    destruct (create_drifted _ _ _ _ _) as [cr r] eqn:Ec. cbn [fst]. intros [?|Hc]%elem_of_app; [done|].
    pose proof (created_only exec unix (ddl !! ID s) (ID s) (capture_of s i) c') as Hn. by rewrite Ec in Hn. }
  assert (Hdis : ∀ c, Disable c ∈ (disable_consumed exec (lsn_text k) idx 0 (capture_of s <$> l)).1 → ∃ x, x ∈ hist ∧ c = capture_of s x ∧ i_start x < i_start i).
  { intros c' (b & Hb & Hne & Hle')%disabled_consumed; [|apply lsn_nonempty]. rewrite list_lookup_fmap in Hb. destruct (l !! b) as [x|] eqn:Hx; [|done].
    injection Hb as <-. destruct (visible_in s hist n dropped l Hvis x) as [Hin _]; [by eapply list_elem_of_lookup_2|]. exists x. split_and!; [done..|].
    rewrite (start_le s hist k Hok Hk) in Hle' by done. pose proof (Hmax x Hin ltac:(lia)). destruct (decide (i_start x = i_start i)) as [He|]; [|lia].
    apply (sorted_same hist) in He as ->; [|apply Hok|done..]. assert (b = idx); [|lia].
    destruct (Nat.lt_trichotomy b idx) as [Hlt|[->|Hlt]]; [|done|]; [pose proof (sorted_lookup _ _ _ _ _ (visible_sorted s hist n dropped l Hok Hvis) Hx Hidx Hlt)|
      pose proof (sorted_lookup _ _ _ _ _ (visible_sorted s hist n dropped l Hok Hvis) Hidx Hx Hlt)]; lia. }
  intros Hc. destruct (Hdis c (Hcmd c Hc)) as (x & Hx & -> & Hlt). exists x, i. split_and!; try done.
  intros (y & Hy & Heq & Hlt')%Hcmd%Hdis. apply capture_start in Heq; [lia|by apply Hok..].
Qed.
End Manage.

(** What the discovery query returns for an instance, and what the driver makes of it. *)
Definition instance_row (s : ConfiguredStream) (i : instance) : string * string * string * list Z := (Namespace s, Name s, i_name i, lsn_bytes (i_start i)).
Definition row_key (r : string * string * string * list Z) : string := r.1.1.1 +:+ "." +:+ r.1.1.2.
Definition row_capture (r : string * string * string * list Z) : captureInstance := mkCapture r.1.1.1 r.1.1.2 r.1.2 (EncodeToString r.2).
Lemma captures_grouped l m id : default [] (foldl add_capture m l !! id) = default [] (m !! id) ++ (row_capture <$> filter (λ r, row_key r = id) l).
Proof.
  revert m. induction l as [|[[[schema table] name] start] l IH]; intros m; cbn [foldl]; [by rewrite app_nil_r|]. rewrite IH. cbn [add_capture].
  rewrite filter_cons. unfold row_key at 2. cbn [fst snd]. case_decide as Hk; [subst id; rewrite lookup_insert_eq|by rewrite lookup_insert_ne].
  cbn. by rewrite <- app_assoc.
Qed.

(** ** The first position

    Unless the wait timed out, the position was read after the capture job had finished a
    scan that ended later than the last one before the wait and that took fewer
    transactions than it could: the change tables had caught up with the log. *)
Lemma wait_caught_up maxTrans base max wakes lsn : WakeTimeout ∉ wakes → wait_loop maxTrans base max wakes = Some (Ok lsn) →
  currentMaxLSN max = Ok lsn ∧ ∃ session, WakeTick (Ok (Some session)) ∈ wakes ∧ tranCount session < maxTrans
  ∧ ∀ b, base = Some b → time_after (endTime session) (endTime b) = true.
Proof.
  induction wakes as [|wk wakes IH]; intros Hnt; cbn [wait_loop]; [done|]. apply not_elem_of_cons in Hnt as [Hne Hnt].
  assert (Hrec : wait_loop maxTrans base max wakes = Some (Ok lsn) → currentMaxLSN max = Ok lsn ∧ ∃ session, WakeTick (Ok (Some session)) ∈ wk :: wakes
    ∧ tranCount session < maxTrans ∧ ∀ b, base = Some b → time_after (endTime session) (endTime b) = true).
  { intros (? & session & ? & ?)%IH; [|done]. split; [done|]. exists session. split; [by right|done]. }
  destruct wk as [| |[[session|]|e|e]]; try done. destruct (caught_up maxTrans base session) eqn:Ec; [|done]. intros [= Hl]. split; [done|].
  apply andb_prop in Ec as [H1 H2]. exists session. split_and!; [left|lia|]. by intros b ->.
Qed.
