(* ===== verification/MssqlCdcFacts.v ===== *)
(** * Theorems about SQL Server change capture: every change of every stream is delivered
    exactly once, across failed attempts, restarts and changes of the capture instances *)

From S2P Require Import Prelude GoString GoSet DataTypes QueryEngine Value ValueFacts Schema Stream Catalog State StateFacts TwoPC Fields Writers Utils Backfill Incremental IncrementalFacts Jdbc Chunking Binlog Cdc CdcFacts MssqlCdc MssqlInstances.

(** ** Closing the writers of an attempt that pushed to one stream only *)

(** A text as state is committed with the rows and read back. *)
Class TextSink `{CursorSink keep} := {
  commit_text k stream opts raws m t :
    o_Backfill opts = false → filter (λ d, keep d = true) (Data <$> raws) ≠ [] → ms_State m = Some (SText t) →
    ∃ m', metadata (commit k stream opts raws (Some m)) (ID stream) = Some m' ∧ ms_State m' = Some (SText t)
}.

Section CloseOne.
Context {HR : GoRange} {HE : GoEnv} {HJ : JsonCodec} {HK : Sink}.
Context (keep : gmap string any → bool) {HKS : CursorSink keep} {HSS : StreamSink} {HTS : TextSink}.
Context (driver : DriverType).
Notation kept raws := (filter (λ d, keep d = true) (Data <$> raws)).

Definition table_same (sk sk' : sink) (id : string) : Prop := delivered sk' id ≡ₚ delivered sk id ∧ metadata sk' id = metadata sk id.
Definition table_took (sk sk' : sink) (s : ConfiguredStream) (raws : list RawRecord) (t : string) : Prop :=
  delivered sk' (ID s) ≡ₚ delivered sk (ID s) ++ kept raws
  ∧ (kept raws = [] ∧ metadata sk' (ID s) = metadata sk (ID s) ∨ kept raws ≠ [] ∧ meta_state keep sk' s = Some (SText t)).

Lemma table_same_refl sk id : table_same sk sk id.
Proof. done. Qed.
Lemma table_same_trans sk sk1 sk2 id : table_same sk sk1 id → table_same sk1 sk2 id → table_same sk sk2 id.
Proof. intros [H1 H2] [H3 H4]. split; [by rewrite H3|by rewrite H4]. Qed.
Lemma table_took_before sk sk1 sk2 s raws t : table_same sk sk1 (ID s) → table_took sk1 sk2 s raws t → table_took sk sk2 s raws t.
Proof. intros [H1 H2] [H3 H4]. split; [by rewrite H3, H1|by rewrite <- H2]. Qed.
Lemma table_took_after sk sk1 sk2 s raws t : table_took sk sk1 s raws t → table_same sk1 sk2 (ID s) → table_took sk sk2 s raws t.
Proof. intros [H1 H2] [H3 H4]. split; [by rewrite H3, H1|]. unfold meta_state in *. by rewrite H4. Qed.

Lemma commit_empty sk s u log m id : pushed (ID s) log = [] → table_same sk (commit sk s (cdc_options driver u s) (pushed (ID s) log) m) id.
Proof.
  intros Hn. destruct (decide (id = ID s)) as [->|Hne]; [|by split; rewrite ?other_delivered, ?other_metadata].
  rewrite Hn. split; [rewrite commit_delivers by done; by rewrite app_nil_r|by apply commit_nothing].
Qed.
Lemma commit_took sk s u log t : table_took sk (commit sk s (cdc_options driver u s) (pushed (ID s) log) (cdc_metadata (Some (SText t)))) s (pushed (ID s) log) t.
Proof.
  split; [by apply commit_delivers|]. destruct (decide (kept (pushed (ID s) log) = [])) as [Hn|Hn]; [left; split; [done|by apply commit_nothing]|].
  right. split; [done|]. unfold meta_state. destruct (commit_text sk s (cdc_options driver u s) (pushed (ID s) log) (mkMeta (Some "") (Some (SText t)) [] (Some false)) t) as (m' & Hm & Hs); [done..|].
  change (cdc_metadata (Some (SText t))) with (Some (mkMeta (Some "") (Some (SText t)) [] (Some false))). by rewrite Hm.
Qed.

(** A table none of the closed writers has rows for. *)
Lemma close_same ulid final log id cs : (∀ s, s ∈ cs → ID s ≠ id ∨ pushed (ID s) log = []) → ∀ sk fates done err sk' done' err' dead,
  close_writers driver ulid final log cs fates done err sk = (sk', done', err', dead) → table_same sk sk' id.
Proof.
  induction cs as [|s cs IH]; intros Hcs sk fates done err sk' done' err' dead; cbn [close_writers]; [by intros [= <- _ _ _]|].
  assert (Hc : ∀ u m, table_same sk (commit sk s (cdc_options driver u s) (pushed (ID s) log) m) id).
  { intros u m. destruct (Hcs s ltac:(left)) as [Hne|Hn]; [by split; rewrite ?other_delivered, ?other_metadata by done|by apply commit_empty]. }
  assert (Ht : ∀ s', s' ∈ cs → ID s' ≠ id ∨ pushed (ID s') log = []) by (intros; apply Hcs; by right).
  destruct done, fates as [|[|[]| |[]] fates]; cbn [tail]; intros H; try (injection H as <- _ _ _; done || apply Hc); try (by eapply IH);
    (eapply table_same_trans; [apply Hc|by eapply IH]).
Qed.

Lemma close_err ulid final log cs : ∀ sk fates done err sk' done' err' dead,
  close_writers driver ulid final log cs fates done err sk = (sk', done', err', dead) → err' = None → err = None.
Proof.
  induction cs as [|s cs IH]; intros sk fates done err sk' done' err' dead; cbn [close_writers]; [by intros [= _ _ <- _]|].
  destruct done, fates as [|[|[]| |[]] fates]; cbn [tail]; intros H Hn; try (by injection H as _ _ <- _); eapply IH in H; try done; by destruct err.
Qed.

Lemma close_one ulid t log s cs : (∀ id, id ≠ ID s → pushed id log = []) → NoDup (ID <$> cs) → (∀ s', s' ∈ cs → ID s' = ID s → s' = s) →
  ∀ sk fates done err sk' done' err' dead,
  close_writers driver ulid (OneFinal (SText t)) log cs fates done err sk = (sk', done', err', dead) →
  (table_same sk sk' (ID s) ∨ table_took sk sk' s (pushed (ID s) log) t)
  ∧ (s ∈ cs → done' = false → err' = None → dead = false → table_took sk sk' s (pushed (ID s) log) t).
Proof.
  intros Hlog. induction cs as [|s' cs IH]; intros Hnd Huniq sk fates done err sk' done' err' dead.
  { cbn [close_writers]. intros [= <- _ _ _]. split; [by left|]. by intros ?%elem_of_nil. }
  rewrite fmap_cons in Hnd. apply NoDup_cons in Hnd as [Hni Hnd]. destruct (decide (ID s' = ID s)) as [Heq|Hne].
  - apply Huniq in Heq as ->; [|left]. cbn [close_writers].
    assert (Hother : ∀ x, x ∈ cs → ID x ≠ ID s ∨ pushed (ID x) log = []) by (intros x Hx; left; intros He; apply Hni; rewrite <- He; by apply list_elem_of_fmap_2).
    assert (Hsame : ∀ sk1 fs d e sk' done' err' dead, close_writers driver ulid (OneFinal (SText t)) log cs fs d e sk1 = (sk', done', err', dead) → table_same sk1 sk' (ID s))
      by (intros; by eapply close_same).
    pose proof (commit_took sk s (ulid (ID s)) log t) as Hc. change (final_for (OneFinal (SText t)) (ID s)) with (Some (SText t)).
    destruct done, fates as [|[|[]| |[]] fates]; cbn [tail]; intros H;
      try (injection H as <- <- <- <-; split; [by (left; apply table_same_refl) || (right; exact Hc)|by intros]).
    all: try (pose proof (Hsame _ _ _ _ _ _ _ _ H); pose proof H as H'; apply close_done in H' as (_ & -> & _); split; [by left|done]).
    all: try (split; [right|intros _ _ _ _]; by eapply table_took_after; [exact Hc|eapply Hsame]).
    all: split; [left; by eapply Hsame|]; intros _ Hd He; exfalso; first [by apply close_done in H as (_ & -> & _)|eapply close_err in H; [|done]; by destruct err].
  - assert (Hx : s ∈ s' :: cs → s ∈ cs) by (by intros [->|?]%elem_of_cons).
    assert (Hu : ∀ x, x ∈ cs → ID x = ID s → x = s) by (intros x Hin; apply Huniq; by right). cbn [close_writers].
    pose proof (λ u m, commit_empty sk s' u log m (ID s) (Hlog _ Hne)) as Hc.
    destruct done, fates as [|[|[]| |[]] fates]; cbn [tail]; intros H; try (injection H as <- <- <- <-; split; [left; apply table_same_refl || apply Hc|done]).
    all: destruct (IH Hnd Hu _ _ _ _ _ _ _ _ H) as [H1 H2]; (split; [destruct H1 as [H1|H1]; [left|right]|intros Hs Hd He Hdead; specialize (H2 (Hx Hs) Hd He Hdead)]).
    all: first [exact H1|exact H2|by eapply table_same_trans; [apply Hc|]|by eapply table_took_before; [apply Hc|]].
Qed.
End CloseOne.

(** ** The changes of a stream *)
Section Facts.
Context {HS : GoHash string} {HC : GoHash Chunk} {HR : GoRange} {HE : GoEnv} {HJ : JsonCodec} {HK : Sink}.
Context (keep : gmap string any → bool) {HKS : CursorSink keep} {HSS : StreamSink} {HTS : TextSink}.
Context (md5_hex : string → string) (fmt_s fmt_x : any → string) (fmt_clock : gotime → string).
Context (streams : list ConfiguredStream) (history : ConfiguredStream → list instance) (base : ConfiguredStream → list (gmap string any)) (from : ConfiguredStream → Z).
Hypothesis Hids : NoDup (ID <$> streams).
Hypothesis Hhistory : ∀ s, s ∈ streams → instances_ok (history s).
#[local] Instance mssql_driver : ChangeDriver := MSSQL_changes fmt_s fmt_x fmt_clock.
Notation scan := (MapScan (mssql_dataTypeConverter fmt_s fmt_x fmt_clock) mssqlCDCColumnSizer).

Lemma captures_of s l rows : s ∈ streams → filter (λ r, row_key r = ID s) rows = instance_row s <$> l →
  default [] (foldl add_capture ∅ rows !! ID s) = capture_of s <$> l.
Proof. intros Hs Hr. rewrite captures_grouped, lookup_empty, Hr. cbn. by rewrite <- list_fmap_compose. Qed.

(** The record of a row of a change table, if it is one. *)
Definition row_data (s : ConfiguredStream) (cols : list (ColumnType * any)) : list (gmap string any) :=
  match scan (Ok cols) with
  | Ok (record, _) => match change_of_row fmt_x s epoch record with Ok (Some ch) => [ch_Data ch] | _ => [] end
  | _ => []
  end.
Definition rows_of (s : ConfiguredStream) (l : list (Z * list (ColumnType * any))) : list (gmap string any) :=
  filter (λ d, keep d = true) (RetainSelectedColumns s <$> (l ≫= (λ r, row_data s r.2))).
(** The rows of the changes between two positions, and from the first one on. *)
Definition fresh (s : ConfiguredStream) (k e : Z) : list (gmap string any) := rows_of s (within k e (owned (history s))).
Definition expected (s : ConfiguredStream) (p : Z) : list (gmap string any) := fresh s (from s) p.

Lemma rows_of_app s l l' : rows_of s (l ++ l') = rows_of s l ++ rows_of s l'.
Proof. unfold rows_of. by rewrite bind_app, fmap_app, filter_app. Qed.
#[local] Instance rows_of_proper s : Proper ((≡ₚ) ==> (≡ₚ)) (rows_of s).
Proof. intros l l' Hl. unfold rows_of. by rewrite Hl. Qed.
Lemma within_split f k e (l : list (Z * list (ColumnType * any))) : f ≤ k ≤ e → within f e l ≡ₚ within f k l ++ within k e l.
Proof.
  intros Hke. unfold within. induction l as [|r l IH]; [done|]. rewrite !filter_cons. repeat case_decide; try lia; [|by rewrite IH, Permutation_middle|done].
  cbn. by rewrite IH.
Qed.
Lemma rows_split s k e : from s ≤ k ≤ e → expected s e ≡ₚ expected s k ++ fresh s k e.
Proof. intros Hke. unfold expected, fresh. by rewrite (within_split (from s) k e), rows_of_app. Qed.
Lemma fresh_empty s k : fresh s k k = [].
Proof. unfold fresh, within. rewrite filter_none; [done|]. apply Forall_forall. lia. Qed.

(** ** Reading *)
Lemma change_of_row_now s now record : change_of_row fmt_x s now record = match change_of_row fmt_x s epoch record with Ok (Some ch) => Ok (Some (mkChange s now (ch_Kind ch) (ch_Data ch) (ch_ExtraColumns ch))) | r => r end.
Proof. unfold change_of_row. destruct (record !! _) as [[]|]; try done. destruct k; try done. by destruct (_ =? 3). Qed.

(** A server answers truthfully or not at all. *)
Definition truthful (answer : result (list (ColumnType * any))) (r : Z * list (ColumnType * any)) : Prop := answer = Ok r.2 ∨ ∃ e, answer = Err e.
Lemma fetch_rows_spec s now push l rows : appends push → Forall2 truthful l rows → ∀ log log',
  fetch_rows fmt_s fmt_x fmt_clock s now push l log = (log', None) →
  ∃ raws, log' = log ++ ((λ r, (ID s, r)) <$> raws) ∧ Data <$> raws = RetainSelectedColumns s <$> (rows ≫= (λ r, row_data s r.2)).
Proof.
  intros Hpush. induction 1 as [|a r l rows Ha _ IH]; intros log log'; cbn [fetch_rows]; [intros [= <-]; exists []; by rewrite app_nil_r|].
  destruct Ha as [->|[e ->]]; [|by cbn]. cbn [mbind list_bind]. unfold row_data at 1. destruct (scan (Ok r.2)) as [[record size]| |]; [|done..].
  rewrite change_of_row_now. destruct (change_of_row fmt_x s epoch record) as [[ch|]| |]; [|apply IH|done..].
  destruct (push log _) as [log1 [[]|]] eqn:Ep; [done..|]. destruct (Hpush _ _ _ Ep) as (raw & -> & Hraw). cbn in Hraw.
  intros (raws & -> & Hraws)%IH. exists (raw :: raws). cbn. rewrite <- app_assoc, Hraw, Hraws. done.
Qed.

(** ** Positions in the state and in the metadata *)
Definition holds (st : State) (s : ConfiguredStream) (k : Z) : Prop :=
  state_wf st ∧ ∃ e, find_stream st s = Some e ∧ HoldsValue e = true ∧ ss_State e !! cdcCursorKey = Some (SVal (AString (lsn_text k))).
Lemma cursor_holds st s k : holds st s k → cursor_value st s cdcCursorKey = AString (lsn_text k).
Proof. intros (_ & e & He & _ & Hv). unfold cursor_value, GetCursor. change (String.eqb cdcCursorKey "") with false. by rewrite He, Hv. Qed.
Lemma find_set st s v s' : find_stream (SetCursor st s cdcCursorKey v) s' =
  if decide (same_stream s s') then Some (store cdcCursorKey (SVal v) (default (initStreamState s) (find_stream st s))) else find_stream st s'.
Proof. exact (find_upsert st s cdcCursorKey (SVal v) s'). Qed.
Lemma set_wf st s v : state_wf st → state_wf (SetCursor st s cdcCursorKey v).
Proof. intros Hwf. apply upsert_wf; [|done]. intros e. apply store_typed. by left. Qed.
Lemma cursor_set_holds st s k : state_wf st → holds (SetCursor st s cdcCursorKey (AString (lsn_text k))) s k.
Proof.
  intros Hwf. split; [by apply set_wf|]. eexists. rewrite find_set. case_decide as Hd; [|by destruct Hd].
  split_and!; [done..|]. cbn. by rewrite lookup_insert_eq.
Qed.
Lemma holds_other st s s' k v : ID s' ≠ ID s → holds st s' k → holds (SetCursor st s cdcCursorKey v) s' k.
Proof.
  intros Hne (Hwf & e & He & Hr). split; [by apply set_wf|]. exists e. split; [|done].
  rewrite find_set. case_decide as Hd; [|done]. destruct Hne. destruct Hd as [H1 H2]. unfold ID, Stream_ID, Namespace, Name in *. by rewrite H1, H2.
Qed.
Lemma cursor_reload st s k : holds st s k → holds (unmarshal (marshal st)) s k.
Proof.
  intros (Hwf & e & He & Hh & Hv). split; [by apply marshal_wf|]. exists (unmarshal_stream (marshal_stream e)). split_and!; [by apply find_reload| |].
  - cbn. apply negb_true_iff, bool_decide_eq_false. intros Hn.
    assert ((marshal_value <$> ss_State e) !! cdcCursorKey = None) as Hx by (by rewrite Hn). by rewrite lookup_fmap, Hv in Hx.
  - rewrite reload_map, Hv. cbn. do 2 f_equal. apply json_string, lsn_valid.
Qed.

Definition behind (k : Z) (st : option state_json) : Prop :=
  match st with None => True | Some (SText t) => ∃ m, 0 ≤ m ≤ k ∧ t = lsn_text m | Some (SObject _) => False end.
Definition rows_at (sk : sink) (s : ConfiguredStream) (k : Z) : Prop := delivered sk (ID s) ≡ₚ base s ++ expected s k.
Definition ahead (n k : Z) (sk : sink) (s : ConfiguredStream) : Prop := ∃ e, k < e ≤ n ∧ meta_state keep sk s = Some (SText (lsn_text e)) ∧ rows_at sk s e.
Definition settled (k : Z) (sk : sink) (s : ConfiguredStream) : Prop := behind k (meta_state keep sk s) ∧ rows_at sk s k.
(** All rows up to the position of the state, or up to the position of the metadata. *)
Definition status (n k : Z) (sk : sink) (s : ConfiguredStream) : Prop := settled k sk s ∨ ahead n k sk s.

Lemma behind_later k k' st : k ≤ k' → behind k st → behind k' st.
Proof. destruct st as [[]|]; [done| |done]. intros Hk (m & Hm & ->). exists m. split; [lia|done]. Qed.
Lemma status_same n k sk sk' s : table_same keep sk sk' (ID s) → status n k sk s → status n k sk' s.
Proof. intros [H1 H2]. unfold status, settled, ahead, rows_at, meta_state. rewrite H2. setoid_rewrite H1. done. Qed.
Lemma rows_same sk sk' s k : table_same keep sk sk' (ID s) → rows_at sk s k → rows_at sk' s k.
Proof. intros [H1 _]. unfold rows_at. by rewrite H1. Qed.

(** After the rows between two positions were taken. *)
Lemma took_rows sk sk' s raws k t : from s ≤ k ≤ t → table_took keep sk sk' s raws (lsn_text t) → settled k sk s →
  filter (λ d, keep d = true) (Data <$> raws) = fresh s k t → rows_at sk' s t.
Proof. intros Hkt [Hd _] [_ Hr] Hf. unfold rows_at in *. by rewrite Hd, Hr, Hf, (rows_split s k t), app_assoc. Qed.
Lemma took_status n sk sk' s raws k t : from s ≤ k < t → t ≤ n → table_took keep sk sk' s raws (lsn_text t) → settled k sk s →
  filter (λ d, keep d = true) (Data <$> raws) = fresh s k t → status n k sk' s.
Proof.
  intros Hkt Hn Ht Hs Hf. pose proof (took_rows sk sk' s raws k t ltac:(lia) Ht Hs Hf) as Hr. destruct Ht as [Hd [[He Hm]|[_ Hm]]]; [|right; exists t; by split; [lia|]].
  left. split; [unfold meta_state; rewrite Hm; apply Hs|]. rewrite He in Hf. unfold rows_at in *. rewrite Hr, (rows_split s k t), <- Hf, app_nil_r by lia. done.
Qed.
Lemma took_behind sk sk' s raws k t : 0 ≤ k ≤ t → table_took keep sk sk' s raws (lsn_text t) → settled k sk s → behind t (meta_state keep sk' s).
Proof.
  intros Hkt [_ [[_ Hm]|[_ Hm]]] [Hb _]; [unfold meta_state in *; rewrite Hm; by apply (behind_later k); [lia|]|]. rewrite Hm. exists t. split; [lia|done].
Qed.

(** ** One attempt *)

(** The instances the server reports for a stream. *)
Definition reported (s : ConfiguredStream) (n : Z) (dropped : list captureInstance) (answer : rows (string * string * string * list Z)) (l : list instance) : Prop :=
  visible s (history s) n dropped l ∧ ∃ rs, answer = Rows rs ∧ filter (λ r, row_key r = ID s) rs = instance_row s <$> l.

(** The server answers truthfully or with an error. *)
Record honest (s : ConfiguredStream) (n : Z) (dropped : list captureInstance) (inp : mssql_input) : Prop := {
  ho_max : mi_max inp = Ok (lsn_bytes n) ∨ ∃ e, mi_max inp = Err e;
  ho_instances : (∃ l, reported s n dropped (mi_instances inp) l) ∨ ∃ e, mi_instances inp = QueryFailed e ∨ mi_instances inp = RowsFailed e;
  ho_advance k : is_lsn k → mi_advance inp (lsn_bytes k) = Ok (lsn_bytes (k + 1)) ∨ ∃ e, mi_advance inp (lsn_bytes k) = Err e;
  ho_changes i k t l : i ∈ history s → i_start i ≤ k < t → is_lsn k → is_lsn t → mi_changes inp (i_name i) (lsn_bytes (k + 1)) (lsn_bytes t) = ChangeRows l None →
    Forall2 truthful l (within k t (i_rows i))
}.
Notation read := (read_stream fmt_s fmt_x fmt_clock).
Notation changes := (mssql_StreamChanges fmt_s fmt_x fmt_clock).
Definition with_lsn (d : mssql_state) (s : ConfiguredStream) (t : Z) : mssql_state := mkMssql (ms_streams d) (<[ID s := lsn_text t]> (lsnMap d)).

Section Attempt.
Context (s : ConfiguredStream) (n k : Z) (dropped : list captureInstance) (inp : mssql_input).
Hypothesis Hs : s ∈ streams.
Hypothesis Hhonest : honest s n dropped inp.
Hypothesis Hrep : replaced s (history s) k dropped.
Hypothesis Hn : is_lsn n.
Hypothesis Hk : 0 ≤ k ≤ n.

Lemma k_lsn : is_lsn k.
Proof. unfold is_lsn in *. lia. Qed.

Lemma fetch_spec i t push log log' : appends push → i ∈ history s → i_start i ≤ k < t → is_lsn t →
  fetchTableChangesInLSNRange fmt_s fmt_x fmt_clock inp s (capture_of s i) (lsn_text k) (lsn_text t) push log = (log', None) →
  ∃ raws, log' = log ++ ((λ r, (ID s, r)) <$> raws) ∧ Data <$> raws = RetainSelectedColumns s <$> (within k t (i_rows i) ≫= (λ r, row_data s r.2)).
Proof.
  intros Hpush Hi Hkt Ht. unfold fetchTableChangesInLSNRange, advanceLSN. rewrite !lsn_decode. cbv beta iota.
  destruct (ho_advance _ _ _ _ Hhonest k k_lsn) as [->|[e ->]]; [|done].
  change (match lsn_bytes (k + 1) with [] => _ | _ :: _ => Ok (EncodeToString (lsn_bytes (k + 1))) end) with (Ok (lsn_text (k + 1))).
  cbn [mbind result_bind]. rewrite !lsn_decode. cbn [mbind result_bind]. destruct (mi_changes _ _ _ _) as [e|l err] eqn:Ech; [done|].
  destruct (fetch_rows _ _ _ _ _ _ _ _) as [log1 [st|]] eqn:Ef; [done|]. destruct err as [e|]; [done|]. intros [= ->].
  eapply fetch_rows_spec; [done| |exact Ef]. apply (ho_changes _ _ _ _ Hhonest i k t); [done|done|apply k_lsn|done|exact Ech].
Qed.

Lemma read_spec d l push d' log' r : appends push → visible s (history s) n dropped l → k < n →
  read inp d s (lsn_text k) (lsn_text n) (capture_of s <$> l) push [] = (d', log', r) →
  (d' = d ∧ ∀ final done, r ≠ Streamed final done)
  ∨ ∃ t raws, k < t ≤ n ∧ d' = with_lsn d s t ∧ r = Streamed (OneFinal (SText (lsn_text t))) false ∧ log' = (λ r, (ID s, r)) <$> raws
     ∧ filter (λ d, keep d = true) (Data <$> raws) = fresh s k t ∧ (t = n ∨ ∃ x, x ∈ history s ∧ t = i_start x).
Proof.
  intros Hpush Hvis Hlt. unfold read_stream. destruct (newestValidInstance _ _) as [[idx c]|] eqn:En; [|intros [= <- <- <-]; by left].
  destruct (selected s (history s) n dropped l k (Hhistory s Hs) Hvis Hrep k_lsn ltac:(lia) idx c En) as (i & Hi & _ & Hidx & -> & Hle & _).
  destruct (clamped s (history s) n dropped l k (Hhistory s Hs) Hvis Hrep k_lsn ltac:(lia) idx _ i En Hidx Hn Hlt) as (t & -> & Ht & Hbetween & Hend).
  cbv zeta. destruct (fetchTableChangesInLSNRange _ _ _ _ _ _ _ _ _ _) as [log1 [[]|]] eqn:Ef; [intros [= <- <- <-]; by left..|].
  intros [= <- <- <-]. right. destruct (fetch_spec i t push [] log1 Hpush Hi ltac:(lia) ltac:(unfold is_lsn in *; lia) Ef) as (raws & -> & Hd).
  exists t, raws. split_and!; try done; [lia|lia|]. rewrite Hd. unfold fresh, rows_of. by rewrite (owned_within _ i k t (proj1 (Hhistory s Hs)) Hi Hle Hbetween).
Qed.

(** What [StreamChanges] does: it fails, it finds the metadata ahead and catches the state
    up, it finds nothing new, or it reads up to a later position. *)
Lemma mssql_changes_spec d st sk ulid push d' log' r : appends push → ms_streams d = streams → streams !! mi_index inp = Some s → holds st s k → status n k sk s →
  changes inp d st (metas_of MSSQL streams sk ulid) push [] = Some (d', log', r) →
  (d' = d ∧ ∀ final done, r ≠ Streamed final done)
  ∨ (∃ e, k < e ≤ n ∧ meta_state keep sk s = Some (SText (lsn_text e)) ∧ rows_at sk s e ∧ d' = with_lsn d s e ∧ log' = [] ∧ r = Streamed (OneFinal (SText (lsn_text e))) false)
  ∨ (k = n ∧ settled k sk s ∧ d' = d ∧ log' = [] ∧ r = Streamed NoFinal false)
  ∨ (settled k sk s ∧ ∃ t raws, k < t ≤ n ∧ d' = with_lsn d s t ∧ r = Streamed (OneFinal (SText (lsn_text t))) false ∧ log' = (λ r, (ID s, r)) <$> raws
     ∧ filter (λ d, keep d = true) (Data <$> raws) = fresh s k t ∧ (t = n ∨ ∃ x, x ∈ history s ∧ t = i_start x)).
Proof.
  intros Hpush Hd Hidx Hst Hstat. unfold mssql_StreamChanges. rewrite Hd, Hidx, (cursor_holds _ _ _ Hst).
  assert (metas_of MSSQL streams sk ulid !! ID s = Some (meta_state keep sk s)) as ->.
  { apply elem_of_range, (metas_entry keep MSSQL streams Hids). by exists s. }
  cbn [mjoin option_join]. destruct Hstat as [Hset|(e & He & Hm & Hr)].
  - assert (Hskip : match meta_state keep sk s with Some (SObject _) => False | mt => str_gt (match mt with Some (SText t) => t | _ => "" end) (lsn_text k) = false end).
    { destruct Hset as [Hb _]. destruct (meta_state keep sk s) as [[f|t]|]; [done| |done]. destruct Hb as (m & Hm & ->). rewrite lsn_gt; [lia|unfold is_lsn in *; lia|apply k_lsn]. }
    set (mt := meta_state keep sk s) in *. destruct mt as [[f|t0]|]; [done| |]; rewrite Hskip.
    all: destruct (ho_max _ _ _ _ Hhonest) as [Hmx|[e Hmx]]; rewrite Hmx; [|intros [= <- <- <-]; by left].
    all: change (currentMaxLSN (Ok (lsn_bytes n))) with (Ok (lsn_text n)); cbv beta iota; rewrite lsn_gt by (done || apply k_lsn).
    all: destruct (Z.ltb_spec k n); cbn [negb]; [|intros [= <- <- <-]; right; right; left; split_and!; [lia|done..]].
    all: unfold prepareCaptureInstances, prepareCaptureInstancesBulk; destruct (ho_instances _ _ _ _ Hhonest) as [(l & Hvis & rs & -> & Hrs)|(e & [-> | ->])];
      [cbn [mbind result_bind]; rewrite (captures_of s l rs Hs Hrs)|intros [= <- <- <-]; by left..].
    all: destruct (read _ _ _ _ _ _ _ _) as [[d1 l1] r1] eqn:Er; intros [= <- <- <-].
    all: destruct (read_spec _ _ _ _ _ _ Hpush Hvis ltac:(done) Er) as [H1|H1]; [by left|right; right; right; done].
  - rewrite Hm, lsn_gt by (apply k_lsn || unfold is_lsn in *; lia). destruct (Z.ltb_spec k e); [|lia]. intros [= <- <- <-]. right; left. exists e. 
    split_and!; [lia|lia|done|done|unfold with_lsn; by rewrite Hd|done..].
Qed.
End Attempt.

(** ** The invariant *)
Implicit Types (w : cdc_world) (K : string → Z).
Notation attempt_ ai w := (streamChanges md5_hex MSSQL ai streams w) (only parsing).
Definition at_id K (id : string) (m : Z) : string → Z := λ x, if decide (x = id) then m else K x.
Lemma at_id_same K id m : at_id K id m id = m.
Proof. unfold at_id. by rewrite decide_True. Qed.
Lemma at_id_other K id m x : x ≠ id → at_id K id m x = K x.
Proof. intros. unfold at_id. by rewrite decide_False. Qed.

(** [K]: the position of each stream in the state and in its file. *)
Record minv w (n : Z) (dropped : list captureInstance) K : Prop := {
  mi_end : is_lsn n;
  mi_from s : s ∈ streams → 0 ≤ from s ≤ K (ID s);
  mi_pos s : s ∈ streams → 0 ≤ K (ID s) ≤ n;
  mi_state s : s ∈ streams → holds (b_state (c_world w)) s (K (ID s));
  mi_file : ∃ s0, b_file (c_world w) = Some (marshal s0) ∧ ∀ s, s ∈ streams → holds s0 s (K (ID s));
  mi_tables s : s ∈ streams → status n (K (ID s)) (b_sink (c_world w)) s;
  mi_driver : ms_streams (c_driver w) = streams;
  mi_map s v : s ∈ streams → lsnMap (c_driver w) !! ID s = Some v → ∃ m, v = lsn_text m ∧ K (ID s) ≤ m ≤ n;
  mi_dropped s : s ∈ streams → replaced s (history s) (K (ID s)) dropped
}.
(** What the theorem asks of the outside: honest answers, and a writer that cannot be
    created is the first trouble of its process. *)
Record fair w (n : Z) (dropped : list captureInstance) (ai : attempt_input) : Prop := {
  fa_stream : ∃ s, streams !! mi_index (ai_in ai) = Some s ∧ honest s n dropped (ai_in ai);
  fa_open : ai_open ai = None ∨ lsnMap (c_driver w) = ∅
}.

Lemma stream_in i s : streams !! i = Some s → s ∈ streams.
Proof. apply list_elem_of_lookup_2. Qed.
Lemma one_or_other s s' : s ∈ streams → s' ∈ streams → s' = s ∨ ID s' ≠ ID s.
Proof. intros Hs Hs'. destruct (decide (ID s' = ID s)); [left; by apply (same_id streams)|by right]. Qed.
Lemma replaced_mono s hist k k' dropped : k ≤ k' → replaced s hist k dropped → replaced s hist k' dropped.
Proof. intros Hk Hr i Hi Hd. destruct (Hr i Hi Hd) as (j & ? & ? & ?). exists j. split_and!; [done..|lia|lia]. Qed.

(** Another driver state or other tables. *)
Lemma minv_with b d n dropped K sk' d' : minv (mkCdc b d) n dropped K → (∀ s, s ∈ streams → status n (K (ID s)) sk' s) → ms_streams d' = streams →
  (∀ s v, s ∈ streams → lsnMap d' !! ID s = Some v → lsnMap d !! ID s = Some v ∨ ∃ m, v = lsn_text m ∧ K (ID s) ≤ m ≤ n) →
  minv (mkCdc (set_sink sk' b) d') n dropped K.
Proof.
  intros [H1 H0 H2 H3 H4 H5 H6 H7 H8] Hst Hd Hm. split; try done. intros s v Hs Hv. destruct (Hm s v Hs Hv) as [Hv'|?]; [|done]. by apply (H7 s v).
Qed.
Lemma with_lsn_map d s t s' v K n : s ∈ streams → s' ∈ streams → K (ID s) ≤ t ≤ n → lsnMap (with_lsn d s t) !! ID s' = Some v →
  lsnMap d !! ID s' = Some v ∨ ∃ m, v = lsn_text m ∧ K (ID s') ≤ m ≤ n.
Proof.
  intros Hs Hs' Ht. cbn. destruct (decide (ID s' = ID s)) as [->|Hne]; [rewrite lookup_insert_eq; intros [= <-]; right; by exists t|].
  rewrite lookup_insert_ne by done. by left.
Qed.

(** The post-CDC step with the context done. *)
Lemma mssql_post_done ai err w w' out : post_cdc ai true err w = (w', out) → w' = w ∧ out ≠ Finished 0.
Proof. unfold post_cdc. cbn. intros [= <- <-]. destruct w. split; [done|by destruct err]. Qed.
(** It stores what is noted for the stream. *)
Lemma mssql_post_stores ai b d w' out n dropped K s t : streams !! mi_index (ai_in ai) = Some s → minv (mkCdc b d) n dropped K → lsnMap d !! ID s = Some (lsn_text t) →
  K (ID s) ≤ t ≤ n → settled t (b_sink b) s → post_cdc ai false None (mkCdc b d) = (w', out) →
  minv w' n dropped (at_id K (ID s) t) ∧ out = Finished 0 ∧ b_sink (c_world w') = b_sink b ∧ lsnMap (c_driver w') = lsnMap d.
Proof.
  intros Hi [H1 H0 H2 H3 H4 H5 H6 H7 H8] Hmap Ht Hset. assert (s ∈ streams) as Hs by (by eapply stream_in). cbn in *.
  unfold post_cdc. cbn. unfold mssql_PostCDC. rewrite H6, Hi, Hmap. cbn. intros [= <- <-]. split_and!; try done.
  assert (Hset' : ∀ s', s' ∈ streams → holds (SetCursor (b_state b) s cdcCursorKey (AString (lsn_text t))) s' (at_id K (ID s) t (ID s'))).
  { intros s' Hs'. destruct (one_or_other s s' Hs Hs') as [->|Hne]; [rewrite at_id_same; apply cursor_set_holds, (proj1 (H3 s Hs))|].
    rewrite at_id_other by done. apply holds_other; [done|by apply H3]. }
  split; cbn; try done.
  - intros s' Hs'. destruct (one_or_other s s' Hs Hs') as [->|Hne]; [rewrite at_id_same; specialize (H0 s Hs); lia|]. rewrite at_id_other by done. auto.
  - intros s' Hs'. destruct (one_or_other s s' Hs Hs') as [->|Hne]; [rewrite at_id_same; specialize (H2 s Hs); lia|]. rewrite at_id_other by done. auto.
  - exists (SetCursor (b_state b) s cdcCursorKey (AString (lsn_text t))). split; [|done]. destruct (Hset' s Hs) as (_ & e & He & _). by eapply LogState_nonempty.
  - intros s' Hs'. destruct (one_or_other s s' Hs Hs') as [->|Hne]; [rewrite at_id_same; by left|]. rewrite at_id_other by done. auto.
  - intros s' v Hs' Hv. destruct (one_or_other s s' Hs Hs') as [->|Hne]; [|rewrite at_id_other by done; auto].
    rewrite at_id_same. rewrite Hmap in Hv. injection Hv as <-. exists t. split; [done|lia].
  - intros s' Hs'. destruct (one_or_other s s' Hs Hs') as [->|Hne]; [rewrite at_id_same; apply (replaced_mono _ _ (K (ID s))); [lia|auto]|]. rewrite at_id_other by done. auto.
Qed.

(** Closing after a read that pushed to [s] only. *)
Lemma cleanup_one ulid t raws s fates sk sk' done' err dead : s ∈ streams →
  handleWriterCleanup MSSQL ulid (OneFinal (SText t)) ((λ r, (ID s, r)) <$> raws) (snd <$> range (writers_of streams)) fates false None sk = (sk', done', err, dead) →
  (∀ id, id ≠ ID s → table_same keep sk sk' id) ∧ (table_same keep sk sk' (ID s) ∨ table_took keep sk sk' s raws t)
  ∧ (done' = false → err = None ∧ (dead = false → table_took keep sk sk' s raws t)).
Proof.
  intros Hs. unfold handleWriterCleanup. destruct (close_writers _ _ _ _ _ _ _ _ _) as [[[sk1 done1] err1] dead1] eqn:Ecl. intros [= -> <- -> ->].
  pose proof (writers_perm streams Hids) as Hws. assert (Hother : ∀ id, id ≠ ID s → pushed id ((λ r, (ID s, r)) <$> raws) = []) by (intros; by apply pushed_other).
  destruct (close_one keep MSSQL ulid t ((λ r, (ID s, r)) <$> raws) s (snd <$> range (writers_of streams)) Hother ltac:(by rewrite Hws)
    ltac:(intros s' Hs'; rewrite Hws in Hs'; by apply (same_id streams)) _ _ _ _ _ _ _ _ Ecl) as [H1 H2].
  rewrite pushed_same in H1, H2. split_and!; [|done|].
  - intros id Hid. eapply (close_same keep MSSQL); [|exact Ecl]. intros s' Hs'. destruct (decide (ID s' = id)) as [Heq|]; [right|by left]. rewrite Heq. by apply Hother.
  - intros [-> He]%orb_false_iff. destruct err; [done|]. split; [done|]. intros ->. apply H2; [by rewrite Hws|done..].
Qed.
Lemma cleanup_none ulid final fates sk sk' done' err dead :
  handleWriterCleanup MSSQL ulid final [] (snd <$> range (writers_of streams)) fates false None sk = (sk', done', err, dead) →
  (∀ id, table_same keep sk sk' id) ∧ (done' = false → err = None).
Proof.
  unfold handleWriterCleanup. destruct (close_writers _ _ _ _ _ _ _ _ _) as [[[sk1 done1] err1] dead1] eqn:Ecl. intros [= -> <- -> ->]. split.
  - intros id. eapply (close_same keep MSSQL); [|exact Ecl]. by right.
  - intros [_ He]%orb_false_iff. by destruct err.
Qed.

(** What one attempt for [s] leaves. *)
Definition moved K K' (s : ConfiguredStream) : Prop := K (ID s) ≤ K' (ID s) ∧ ∀ id, id ≠ ID s → K' id = K id.
Definition advanced (n k k' : Z) (sk sk' : sink) (s : ConfiguredStream) : Prop :=
  settled k' sk' s ∧ (k' = n ∨ ahead n k sk s ∨ k < k' ∧ ∃ x, x ∈ history s ∧ k' = i_start x).
Lemma moved_refl K s : moved K K s.
Proof. by split. Qed.
Lemma moved_at K s t : K (ID s) ≤ t → moved K (at_id K (ID s) t) s.
Proof. intros. split; [by rewrite at_id_same|]. intros id Hid. by apply at_id_other. Qed.

Section Ends.
Context (b : backfill_world) (d : mssql_state) (n : Z) (dropped : list captureInstance) (K : string → Z) (ai : attempt_input) (s : ConfiguredStream).
Hypothesis Hinv : minv (mkCdc b d) n dropped K.
Hypothesis Hi : streams !! mi_index (ai_in ai) = Some s.
Let Hs : s ∈ streams := stream_in _ _ Hi.
Definition leaves (w' : cdc_world) (out : outcome_of) : Prop :=
  ∃ K', minv w' n dropped K' ∧ moved K K' s ∧ (out = Finished 0 → advanced n (K (ID s)) (K' (ID s)) (b_sink b) (b_sink (c_world w')) s).
Notation cleanup final log done err := (handleWriterCleanup MSSQL (ai_ulid ai) final log (snd <$> range (writers_of streams)) (ai_fates ai) done err (b_sink b)).

Lemma leaves_as w' out : minv w' n dropped K → out ≠ Finished 0 → leaves w' out.
Proof. intros Hw Ho. exists K. split_and!; [done|apply moved_refl|done]. Qed.

(** After a failure. *)
Lemma end_failed final log err sk' done' err' dead w' out : cleanup final log false (Some err) = (sk', done', err', dead) →
  (if dead || ai_dies ai then Some (mkCdc (set_sink sk' b) d, Died) else Some (post_cdc ai done' err' (mkCdc (set_sink sk' b) d))) = Some (w', out) → leaves w' out.
Proof.
  intros Hc. eapply cleanup_failed in Hc as (-> & -> & _); [|done]. assert (set_sink (b_sink b) b = b) as -> by (by destruct b).
  destruct (dead || ai_dies ai); [intros [= <- <-]; by apply leaves_as|]. intros Hp%(inj Some). apply mssql_post_done in Hp as [-> Ho]. by apply leaves_as.
Qed.

(** Without rows: the state catches up with the metadata, or nothing is new. *)
Lemma end_caught_up e sk' done' err' dead w' out : K (ID s) < e ≤ n → meta_state keep (b_sink b) s = Some (SText (lsn_text e)) → rows_at (b_sink b) s e →
  cleanup (OneFinal (SText (lsn_text e))) [] false None = (sk', done', err', dead) →
  (if dead || ai_dies ai then Some (mkCdc (set_sink sk' b) (with_lsn d s e), Died) else Some (post_cdc ai done' err' (mkCdc (set_sink sk' b) (with_lsn d s e)))) = Some (w', out) → leaves w' out.
Proof.
  intros He Hm Hr (Hsame & Herr)%cleanup_none.
  assert (Hinv1 : minv (mkCdc (set_sink sk' b) (with_lsn d s e)) n dropped K).
  { apply (minv_with b d); [done|intros; eapply status_same; [apply Hsame|by apply Hinv]|apply Hinv|intros s' v Hs' Hv; apply (with_lsn_map d s e s' v K n); [done|done|lia|done]]. }
  destruct (dead || ai_dies ai); [intros [= <- <-]; by apply leaves_as|]. intros Hp%(inj Some). destruct done'; [apply mssql_post_done in Hp as [-> ?]; by apply leaves_as|].
  rewrite (Herr eq_refl) in Hp. pose proof (mi_pos _ _ _ _ Hinv s Hs) as Hpos.
  destruct (mssql_post_stores ai (set_sink sk' b) (with_lsn d s e) w' out n dropped K s e Hi Hinv1) as (Hw & -> & Hsk & _); [by cbn; rewrite lookup_insert_eq|lia| |exact Hp|].
  { split; [|by eapply rows_same]. cbn. unfold meta_state in *. rewrite (proj2 (Hsame (ID s))), Hm. exists e. split; [lia|done]. }
  exists (at_id K (ID s) e). split_and!; [done|apply moved_at; lia|]. intros _. rewrite at_id_same, Hsk. split; [|right; left; by exists e].
  split; [|by eapply rows_same]. cbn. unfold meta_state in *. rewrite (proj2 (Hsame (ID s))), Hm. exists e. split; [lia|done].
Qed.
Lemma end_nothing sk' done' err' dead w' out : K (ID s) = n → settled (K (ID s)) (b_sink b) s →
  cleanup NoFinal [] false None = (sk', done', err', dead) →
  (if dead || ai_dies ai then Some (mkCdc (set_sink sk' b) d, Died) else Some (post_cdc ai done' err' (mkCdc (set_sink sk' b) d))) = Some (w', out) → leaves w' out.
Proof.
  intros HKn Hset (Hsame & Herr)%cleanup_none.
  assert (Hinv1 : minv (mkCdc (set_sink sk' b) d) n dropped K).
  { apply (minv_with b d); [done|intros; eapply status_same; [apply Hsame|by apply Hinv]|apply Hinv|by left]. }
  assert (Hset' : settled (K (ID s)) sk' s) by (destruct Hset; split; [unfold meta_state in *; by rewrite (proj2 (Hsame (ID s)))|by eapply rows_same]).
  destruct (dead || ai_dies ai); [intros [= <- <-]; by apply leaves_as|]. intros Hp%(inj Some). destruct done'; [apply mssql_post_done in Hp as [-> ?]; by apply leaves_as|].
  rewrite (Herr eq_refl) in Hp. destruct (lsnMap d !! ID s) as [v|] eqn:Ev.
  - destruct (mi_map _ _ _ _ Hinv s v Hs Ev) as (m & -> & Hm). assert (m = K (ID s)) as -> by lia.
    destruct (mssql_post_stores ai (set_sink sk' b) d w' out n dropped K s (K (ID s)) Hi Hinv1 Ev ltac:(lia) Hset' Hp) as (Hw & -> & Hsk & _).
    eexists. split_and!; [exact Hw|by apply moved_at|]. intros _. rewrite at_id_same, Hsk. split; [done|by left].
  - unfold post_cdc in Hp. cbn in Hp. unfold mssql_PostCDC in Hp. rewrite (mi_driver _ _ _ _ Hinv : ms_streams d = streams), Hi, Ev in Hp. injection Hp as <- <-.
    exists K. split_and!; [done|apply moved_refl|]. intros _. split; [done|by left].
Qed.

(** After a read. *)
Lemma end_read t raws sk' done' err' dead w' out : K (ID s) < t ≤ n → settled (K (ID s)) (b_sink b) s →
  filter (λ d, keep d = true) (Data <$> raws) = fresh s (K (ID s)) t → (t = n ∨ ∃ x, x ∈ history s ∧ t = i_start x) →
  cleanup (OneFinal (SText (lsn_text t))) ((λ r, (ID s, r)) <$> raws) false None = (sk', done', err', dead) →
  (if dead || ai_dies ai then Some (mkCdc (set_sink sk' b) (with_lsn d s t), Died) else Some (post_cdc ai done' err' (mkCdc (set_sink sk' b) (with_lsn d s t)))) = Some (w', out) → leaves w' out.
Proof.
  intros Ht Hset Hf Hend (Hsame & Hone & Hdone)%cleanup_one; [|done]. pose proof (mi_pos _ _ _ _ Hinv s Hs) as Hpos. pose proof (mi_from _ _ _ _ Hinv s Hs) as Hfrom.
  assert (Hinv1 : minv (mkCdc (set_sink sk' b) (with_lsn d s t)) n dropped K).
  { apply (minv_with b d); [done| |apply Hinv|intros s' v Hs' Hv; apply (with_lsn_map d s t s' v K n); [done|done|lia|done]]. intros s' Hs'. pose proof (mi_tables _ _ _ _ Hinv s' Hs') as Hst. cbn in Hst.
    destruct (one_or_other s s' Hs Hs') as [->|Hne]; [|by eapply status_same; [apply Hsame|]].
    destruct Hone as [Hone|Hone]; [by eapply status_same|apply (took_status n (b_sink b) sk' s raws (K (ID s)) t); [lia|lia|done..]]. }
  destruct (dead || ai_dies ai) eqn:Edead; [intros [= <- <-]; by apply leaves_as|]. apply orb_false_iff in Edead as [-> _].
  intros Hp%(inj Some). destruct done'; [apply mssql_post_done in Hp as [-> ?]; by apply leaves_as|].
  destruct (Hdone eq_refl) as [-> Htook]. specialize (Htook eq_refl).
  assert (Hset' : settled t sk' s) by (split; [by apply (took_behind (b_sink b) sk' s raws (K (ID s)) t); [lia|..]|by apply (took_rows (b_sink b) sk' s raws (K (ID s)) t); [lia|..]]).
  destruct (mssql_post_stores ai (set_sink sk' b) (with_lsn d s t) w' out n dropped K s t Hi Hinv1) as (Hw & -> & Hsk & _); [by cbn; rewrite lookup_insert_eq|lia|done|exact Hp|].
  exists (at_id K (ID s) t). split_and!; [done|apply moved_at; lia|]. intros _. rewrite at_id_same, Hsk. split; [done|].
  destruct Hend as [?|?]; [by left|right; right; split; [lia|done]].
Qed.
End Ends.

Lemma attempt_leaves b d n dropped K ai s w' out : minv (mkCdc b d) n dropped K → fair (mkCdc b d) n dropped ai → streams !! mi_index (ai_in ai) = Some s →
  attempt_ ai (mkCdc b d) = Some (w', out) → leaves b n dropped K s w' out.
Proof.
  intros Hinv [(s' & Hi' & Hho) Hopen] Hi. rewrite Hi in Hi'. injection Hi' as <-. assert (s ∈ streams) as Hs by (by eapply stream_in). unfold streamChanges.
  destruct (match ai_open ai with Some i => _ | None => false end) eqn:Eopen.
  { destruct Hopen as [Ho|Ho]; [by rewrite Ho in Eopen|]. cbn in Ho. unfold post_cdc. cbn. unfold mssql_PostCDC.
    rewrite (mi_driver _ _ _ _ Hinv : ms_streams d = streams), Hi, Ho, lookup_empty. intros [= <- <-]. by apply leaves_as. }
  cbv zeta. change (map_imap _ _) with (metas_of MSSQL streams (b_sink b) (ai_ulid ai)). cbn [c_world c_driver].
  destruct (StreamChanges _ _ _ _ _ _) as [[[d' l'] r]|] eqn:Ech; [|done]. fold (writers_of streams).
  destruct (mssql_changes_spec s n (K (ID s)) dropped (ai_in ai) Hs Hho (mi_dropped _ _ _ _ Hinv s Hs) (mi_end _ _ _ _ Hinv) (mi_pos _ _ _ _ Hinv s Hs)
    _ _ _ _ _ _ _ _ (push_change_data md5_hex ai _) (mi_driver _ _ _ _ Hinv) Hi (mi_state _ _ _ _ Hinv s Hs) (mi_tables _ _ _ _ Hinv s Hs) Ech)
    as [[-> Hr]|[(e & He & Hm & Hrows & -> & -> & ->)|[(HKn & Hset & -> & -> & ->)|(Hset & t & raws & Ht & -> & -> & -> & Hf & Hend)]]].
  - destruct r as [final done|err|]; [by destruct (Hr final done)| |intros [= <- <-]; by apply leaves_as].
    destruct (handleWriterCleanup _ _ _ _ _ _ _ _ _) as [[[sk' done'] err'] dead] eqn:Ecl. intros Hp. by eapply end_failed; eauto.
  - destruct (handleWriterCleanup _ _ _ _ _ _ _ _ _) as [[[sk' done'] err'] dead] eqn:Ecl. intros Hp. by eapply (end_caught_up b d); eauto.
  - destruct (handleWriterCleanup _ _ _ _ _ _ _ _ _) as [[[sk' done'] err'] dead] eqn:Ecl. intros Hp. by eapply (end_nothing b d); eauto.
  - destruct (handleWriterCleanup _ _ _ _ _ _ _ _ _) as [[[sk' done'] err'] dead] eqn:Ecl. intros Hp. by eapply (end_read b d n dropped K ai s Hinv Hi t raws); eauto.
Qed.

(** ** Attempts without fault *)
Record decodable (s : ConfiguredStream) : Prop := {
  de_rows i r : i ∈ history s → r ∈ i_rows i → ∃ record size, scan (Ok r.2) = Ok (record, size)
    ∧ match change_of_row fmt_x s epoch record with
      | Ok None => True
      | Ok (Some ch) => is_Some (GetKeysHash md5_hex 2 (ch_Data ch) (Array (s_SourceDefinedPrimaryKey (StreamOf s))))
      | _ => False
      end
}.
Record faultless (s : ConfiguredStream) (n : Z) (dropped : list captureInstance) (ai : attempt_input) : Prop := {
  fl_index : streams !! mi_index (ai_in ai) = Some s;
  fl_open : ai_open ai = None;
  fl_push : ai_push ai = None;
  fl_fates : ai_fates ai = [];
  fl_lives : ai_dies ai = false;
  fl_max : mi_max (ai_in ai) = Ok (lsn_bytes n);
  fl_instances : ∃ l, reported s n dropped (mi_instances (ai_in ai)) l;
  fl_advance k : is_lsn k → mi_advance (ai_in ai) (lsn_bytes k) = Ok (lsn_bytes (k + 1));
  fl_changes i k t : i ∈ history s → i_start i ≤ k < t → is_lsn k → is_lsn t →
    mi_changes (ai_in ai) (i_name i) (lsn_bytes (k + 1)) (lsn_bytes t) = ChangeRows ((λ r, Ok r.2) <$> within k t (i_rows i)) None
}.

Lemma faultless_is_fair w n dropped s ai : faultless s n dropped ai → fair w n dropped ai.
Proof.
  intros [H1 H2 _ _ _ H3 H4 H5 H6]. split; [|by left]. exists s. split; [done|]. split; [by left|by left|intros; left; auto|].
  intros i k t l Hi Hk Hkl Htl. rewrite H6 by done. intros [= <-]. apply Forall2_fmap_l, Forall_Forall2_diag, Forall_forall. by left.
Qed.

Lemma fetch_works s ai dedup rows log : ai_push ai = None →
  (∀ r, r ∈ rows → ∃ record size, scan (Ok r.2) = Ok (record, size) ∧ match change_of_row fmt_x s epoch record with
     | Ok None => True | Ok (Some ch) => is_Some (GetKeysHash md5_hex 2 (ch_Data ch) (Array (s_SourceDefinedPrimaryKey (StreamOf s)))) | _ => False end) →
  ∃ log', fetch_rows fmt_s fmt_x fmt_clock s (mi_now (ai_in ai)) (push_change md5_hex ai dedup) ((λ r : Z * list (ColumnType * any), Ok r.2) <$> rows) log = (log', None).
Proof.
  intros Hp. revert log. induction rows as [|r rows IH]; intros log Hall; cbn [fmap list_fmap fetch_rows]; [by eexists|].
  assert (Hrest : ∀ r, r ∈ rows → _) by (intros r' Hr'; apply Hall; by right). destruct (Hall r ltac:(left)) as (record & size & -> & Hr). rewrite change_of_row_now.
  destruct (change_of_row fmt_x s epoch record) as [[ch|]| |]; [|by apply IH|done..].
  match goal with |- context [push_change md5_hex ai dedup log ?c] => pose proof (push_change_works md5_hex ai dedup log c Hp Hr) as Hw; destruct (push_change md5_hex ai dedup log c) as [l1 st] end.
  cbn in Hw. subst st. by apply IH.
Qed.

Lemma changes_work w n dropped K s ai dedup : decodable s → faultless s n dropped ai → minv w n dropped K → (∃ i, i ∈ history s ∧ i_start i ≤ K (ID s)) →
  ∃ d' log' final, changes (ai_in ai) (c_driver w) (b_state (c_world w)) (metas_of MSSQL streams (b_sink (c_world w)) (ai_ulid ai)) (push_change md5_hex ai dedup) []
    = Some (d', log', Streamed final false).
Proof.
  intros Hdec Hfl Hinv (i0 & Hi0 & Hle0). pose proof (fl_index _ _ _ _ Hfl) as Hi. assert (s ∈ streams) as Hs by (by eapply stream_in).
  pose proof (mi_pos _ _ _ _ Hinv s Hs) as Hpos. pose proof (mi_end _ _ _ _ Hinv) as Hn. pose proof (mi_dropped _ _ _ _ Hinv s Hs) as Hrep.
  assert (Hk : is_lsn (K (ID s))) by (unfold is_lsn in *; lia). set (k := K (ID s)) in *.
  unfold mssql_StreamChanges. rewrite (mi_driver _ _ _ _ Hinv), Hi, (cursor_holds _ _ _ (mi_state _ _ _ _ Hinv s Hs)). fold k.
  assert (metas_of MSSQL streams (b_sink (c_world w)) (ai_ulid ai) !! ID s = Some (meta_state keep (b_sink (c_world w)) s)) as ->.
  { apply elem_of_range, (metas_entry keep MSSQL streams Hids). by exists s. }
  cbn [mjoin option_join]. assert (Hno : ∀ f, meta_state keep (b_sink (c_world w)) s ≠ Some (SObject f)).
  { intros f Hf. destruct (mi_tables _ _ _ _ Hinv s Hs) as [[Hb _]|(e & _ & Hm & _)]; [by rewrite Hf in Hb|congruence]. }
  destruct (meta_state keep (b_sink (c_world w)) s) as [[f|t0]|]; [by destruct (Hno f)| |]; (destruct (str_gt _ (lsn_text k)); [by do 3 eexists|]).
  all: rewrite (fl_max _ _ _ _ Hfl); change (currentMaxLSN (Ok (lsn_bytes n))) with (Ok (lsn_text n)); cbv beta iota; rewrite lsn_gt by done.
  all: destruct (Z.ltb_spec k n) as [Hlt|]; cbn [negb]; [|by do 3 eexists].
  all: destruct (fl_instances _ _ _ _ Hfl) as (l & Hvis & rs & Hans & Hrs); unfold prepareCaptureInstances, prepareCaptureInstancesBulk; rewrite Hans;
    cbn [mbind result_bind]; rewrite (captures_of s l rs Hs Hrs); unfold read_stream.
  all: assert (Hsel : is_Some (newestValidInstance (capture_of s <$> l) (lsn_text k))).
  1,3: assert (∃ i, i ∈ l ∧ i_start i ≤ k) as (i1 & Hi1 & Hle1) by
    (destruct (decide (capture_of s i0 ∈ dropped)) as [Hd|Hd]; [destruct (Hrep i0 Hi0 Hd) as (j & Hj & Hjd & Hlt2); exists j; split; [by eapply visible_now; eauto; lia|lia]|
      exists i0; split; [by eapply visible_now; eauto; lia|done]]);
    apply (newest_exists _ _ (capture_of s i1)); [by apply list_elem_of_fmap_2|]; rewrite (start_le s (history s) k (Hhistory s Hs) Hk); [lia|by eapply visible_in].
  all: destruct Hsel as [[idx c] En]; rewrite En.
  all: destruct (selected s (history s) n dropped l k (Hhistory s Hs) Hvis Hrep Hk ltac:(lia) idx c En) as (i & Hin & _ & Hidx & -> & Hle & _).
  all: destruct (clamped s (history s) n dropped l k (Hhistory s Hs) Hvis Hrep Hk ltac:(lia) idx _ i En Hidx Hn Hlt) as (t & -> & Ht & _); cbv zeta.
  all: unfold fetchTableChangesInLSNRange, advanceLSN; rewrite !lsn_decode; cbv beta iota; rewrite (fl_advance _ _ _ _ Hfl k Hk).
  all: change (match lsn_bytes (k + 1) with [] => _ | _ :: _ => Ok (EncodeToString (lsn_bytes (k + 1))) end) with (Ok (lsn_text (k + 1))).
  all: cbn [mbind result_bind]; rewrite !lsn_decode; cbn [mbind result_bind instanceName capture_of]; rewrite (fl_changes _ _ _ _ Hfl i k t Hin ltac:(lia) Hk ltac:(unfold is_lsn in *; lia)).
  all: destruct (fetch_works s ai dedup (within k t (i_rows i)) [] (fl_push _ _ _ _ Hfl)) as [log' ->];
    [intros r [_ Hr]%list_elem_of_filter; by apply (de_rows _ Hdec i)|by do 3 eexists].
Qed.

Lemma attempt_works w n dropped K s ai : decodable s → faultless s n dropped ai → minv w n dropped K → (∃ i, i ∈ history s ∧ i_start i ≤ K (ID s)) →
  ∃ w', attempt_ ai w = Some (w', Finished 0).
Proof.
  intros Hdec Hfl Hinv Hcov. unfold streamChanges. rewrite (fl_open _ _ _ _ Hfl). cbv zeta.
  change (map_imap _ _) with (metas_of MSSQL streams (b_sink (c_world w)) (ai_ulid ai)).
  match goal with |- context [push_change md5_hex ai ?dd] => destruct (changes_work w n dropped K s ai dd Hdec Hfl Hinv Hcov) as (d' & log' & final & Hch) end.
  pose proof Hch as Hd. change (StreamChanges (ai_in ai)) with (changes (ai_in ai)). rewrite Hch, (fl_fates _ _ _ _ Hfl), (fl_lives _ _ _ _ Hfl). unfold handleWriterCleanup. cbn [orb is_err].
  fold (writers_of streams). destruct (close_clean MSSQL (ai_ulid ai) final log' (snd <$> range (writers_of streams)) (b_sink (c_world w))) as [sk' ->].
  cbn [orb is_err]. unfold post_cdc. cbn. unfold mssql_PostCDC. assert (ms_streams d' = streams) as ->.
  { pose proof (mi_driver _ _ _ _ Hinv) as Hdr. revert Hd. unfold mssql_StreamChanges, read_stream. repeat (case_match; try done); by intros [= <- _ _]; simplify_eq/=. }
  rewrite (fl_index _ _ _ _ Hfl). destruct (lsnMap d' !! ID s); by eexists.
Qed.

(** Attempts one after the other, none of which fails. *)
Fixpoint rounds (ais : list attempt_input) w : option cdc_world :=
  match ais with
  | [] => Some w
  | ai :: ais => match attempt_ ai w with Some (w', Finished 0) => rounds ais w' | _ => None end
  end.
(** The instances that are still to come. *)
Definition pending (s : ConfiguredStream) (k : Z) : nat := length (filter (λ i, k < i_start i) (history s)).
Lemma pending_le s k : (pending s k ≤ length (history s))%nat.
Proof. apply length_filter. Qed.
Lemma filter_fewer {A} (P Q : A → Prop) `{∀ x, Decision (P x)} `{∀ x, Decision (Q x)} (l : list A) : (∀ x, Q x → P x) →
  (length (filter Q l) ≤ length (filter P l))%nat ∧ ∀ x, x ∈ l → P x → ¬ Q x → (length (filter Q l) < length (filter P l))%nat.
Proof.
  intros Hqp. induction l as [|y l [IH1 IH2]]; [split; [done|by intros x ?%elem_of_nil]|]. rewrite !filter_cons. split.
  - repeat case_decide; cbn; try lia; naive_solver.
  - intros x [->|Hx]%elem_of_cons HP HQ; [rewrite (decide_True _ _ HP), (decide_False _ _ HQ); cbn; lia|]. specialize (IH2 x Hx HP HQ). repeat case_decide; cbn; try lia; naive_solver.
Qed.
Lemma pending_less s k x : x ∈ history s → k < i_start x → (pending s (i_start x) < pending s k)%nat.
Proof. intros Hx Hk. eapply (filter_fewer (λ i, k < i_start i) (λ i, i_start x < i_start i)); [lia|exact Hx|lia|lia]. Qed.

Lemma settled_not_ahead n k sk s : is_lsn n → 0 ≤ k → settled k sk s → ¬ ahead n k sk s.
Proof.
  intros Hn Hk [Hb _] (e & He & Hm & _). rewrite Hm in Hb. destruct Hb as (m & Hm' & Heq). apply lsn_text_inj in Heq; unfold is_lsn in *; lia.
Qed.

Section Rounds.
Context (s : ConfiguredStream) (n : Z) (dropped : list captureInstance).
Hypothesis Hdec : decodable s.

Lemma round w K ai : faultless s n dropped ai → minv w n dropped K → (∃ i, i ∈ history s ∧ i_start i ≤ K (ID s)) →
  ∃ w' K', attempt_ ai w = Some (w', Finished 0) ∧ minv w' n dropped K' ∧ K (ID s) ≤ K' (ID s) ∧ advanced n (K (ID s)) (K' (ID s)) (b_sink (c_world w)) (b_sink (c_world w')) s
  ∧ ∃ i, i ∈ history s ∧ i_start i ≤ K' (ID s).
Proof.
  intros Hfl Hinv Hcov. destruct (attempt_works w n dropped K s ai Hdec Hfl Hinv Hcov) as [w' Ha]. destruct w as [b d].
  destruct (attempt_leaves b d n dropped K ai s w' (Finished 0) Hinv (faultless_is_fair _ _ _ _ _ Hfl) (fl_index _ _ _ _ Hfl) Ha) as (K' & Hinv' & [Hle _] & Hadv).
  exists w', K'. split_and!; try done; [by apply Hadv|]. destruct Hcov as (i & ? & ?). exists i. split; [done|lia].
Qed.

Lemma settled_rounds ais w K : Forall (faultless s n dropped) ais → minv w n dropped K → (∃ i, i ∈ history s ∧ i_start i ≤ K (ID s)) →
  settled (K (ID s)) (b_sink (c_world w)) s →
  ∃ w' K', rounds ais w = Some w' ∧ minv w' n dropped K' ∧ settled (K' (ID s)) (b_sink (c_world w')) s
  ∧ (K (ID s) = n ∨ (pending s (K (ID s)) < length ais)%nat → K' (ID s) = n).
Proof.
  intros Hais. revert w K. induction Hais as [|ai ais Hai _ IH]; intros w K Hinv Hcov Hset; cbn [rounds].
  { exists w, K. split_and!; try done. intros [?|?]; [done|cbn in *; lia]. }
  pose proof (stream_in _ _ (fl_index _ _ _ _ Hai)) as Hs. pose proof (mi_pos _ _ _ _ Hinv s Hs) as Hpos.
  destruct (round w K ai Hai Hinv Hcov) as (w1 & K1 & -> & Hinv1 & Hle & [Hset1 Hadv] & Hcov1). cbv beta iota. pose proof (mi_pos _ _ _ _ Hinv1 s Hs) as Hpos1.
  destruct (IH w1 K1 Hinv1 Hcov1 Hset1) as (w' & K' & -> & Hinv' & Hset' & Hfin). exists w', K'. split_and!; try done.
  intros Hor. apply Hfin. destruct Hadv as [?|[Ha|[Hlt (x & Hx & Hxk)]]]; [by left|by apply settled_not_ahead in Ha; [| apply Hinv|lia|]|].
  destruct Hor as [?|Hm]; [left; lia|]. right. cbn in Hm. pose proof (pending_less s (K (ID s)) x Hx ltac:(lia)) as Hp. rewrite <- Hxk in Hp. lia.
Qed.

(** Enough attempts bring the stream to the end. *)
Lemma rounds_complete ais w K : s ∈ streams → Forall (faultless s n dropped) ais → minv w n dropped K → (∃ i, i ∈ history s ∧ i_start i ≤ K (ID s)) →
  ∃ w', rounds ais w = Some w' ∧ ((2 + length (history s) ≤ length ais)%nat → rows_at (b_sink (c_world w')) s n).
Proof.
  intros Hs Hais Hinv Hcov. destruct Hais as [|ai ais Hai Hais]; [exists w; split; [done|cbn; lia]|]. cbn [rounds].
  destruct (round w K ai Hai Hinv Hcov) as (w1 & K1 & -> & Hinv1 & _ & [Hset1 _] & Hcov1). cbv beta iota.
  destruct (settled_rounds ais w1 K1 Hais Hinv1 Hcov1 Hset1) as (w' & K' & -> & _ & [_ Hr] & Hfin). exists w'. split; [done|]. cbn. intros Hlen.
  rewrite Hfin in Hr; [done|]. right. pose proof (pending_le s (K1 (ID s))). lia.
Qed.
End Rounds.

(** ** The start of a process *)
Lemma pre_streams_keeps config src m st l currentLSN : (∀ s, s ∈ l → ∃ v, cursor_value st s cdcCursorKey = AString v) →
  ∃ r, pre_streams config src m currentLSN st l = Some (st, r).
Proof.
  induction l as [|s l IH]; intros Hl; cbn [pre_streams]; [by eexists|]. destruct (m !! ID s); [|by eexists].
  destruct (Hl s ltac:(left)) as [v ->]. apply IH. intros s' Hs'. apply Hl. by right.
Qed.
Lemma manage_streams_from exec unix st m ddl l c : Disable c ∈ (manage_streams exec unix st m ddl l).1 → ∃ s, s ∈ l ∧ Disable c ∈ (manage_stream exec unix st m ddl s).1.
Proof.
  induction l as [|s l IH]; cbn [manage_streams]; [by intros ?%elem_of_nil|]. destruct (manage_stream exec unix st m ddl s) as [cs r] eqn:Em.
  assert (Hhere : Disable c ∈ cs → ∃ s', s' ∈ s :: l ∧ Disable c ∈ (manage_stream exec unix st m ddl s').1) by (intros; exists s; split; [left|by rewrite Em]).
  destruct r; [|done..]. destruct (manage_streams exec unix st m ddl l) as [cs' r']. cbn [fst] in *. intros [?|(s' & ? & ?)%IH]%elem_of_app; [auto|exists s'; split; [by right|done]].
Qed.
Lemma capture_stream s s' i j : capture_of s i = capture_of s' j → ID s = ID s'.
Proof. intros Heq. pose proof (f_equal ci_schema Heq) as H1. pose proof (f_equal ci_table Heq) as H2. cbn in *. unfold ID, Stream_ID, Namespace, Name in *. by rewrite H1, H2. Qed.

(** [PreCDC] leaves the positions alone, and drops only instances that are replaced. *)
Lemma precdc_minv config exec unix answer ddl src b d n dropped dropped' K d' st' cs r : minv (mkCdc b d) n dropped K →
  (∀ rs, answer = Rows rs → ∀ s, s ∈ streams → ∃ l, reported s n dropped answer l) →
  mssql_PreCDC config exec unix answer ddl src streams d (b_state b) = Some (d', st', cs, r) →
  (∀ c, c ∈ dropped' → c ∈ dropped ∨ Disable c ∈ cs) → st' = b_state b ∧ minv (mkCdc b d') n dropped' K.
Proof.
  intros Hinv Hans Hpre Hdrop.
  assert (Hgoal : (∀ s x, s ∈ streams → x ∈ history s → Disable (capture_of s x) ∈ cs →
      ∃ i, i ∈ history s ∧ capture_of s i ∉ dropped ∧ Disable (capture_of s i) ∉ cs ∧ i_start x < i_start i ≤ K (ID s)) →
    ms_streams d' = streams ∧ lsnMap d' = lsnMap d → st' = b_state b → st' = b_state b ∧ minv (mkCdc b d') n dropped' K).
  { intros Hsafe [Hd1 Hd2] ->. split; [done|]. destruct Hinv as [H1 H0 H2 H3 H4 H5 H6 H7 H8]. split; try done; cbn; [by rewrite Hd2|].
    intros s Hs i Hi [Hold|Hnew]%Hdrop; [|destruct (Hsafe s i Hs Hi Hnew) as (j & ? & ? & ? & ?); exists j; split_and!; [done|by intros [?|?]%Hdrop|lia|lia]].
    destruct (H8 s Hs i Hi Hold) as (j & Hj & Hjd & Hlt). destruct (decide (capture_of s j ∈ dropped')) as [[?|Hc]%Hdrop|]; [done| |by exists j].
    destruct (Hsafe s j Hs Hj Hc) as (j' & ? & ? & ? & ?). exists j'. split_and!; [done|by intros [?|?]%Hdrop|lia|lia]. }
  assert (Hnone : cs = [] → ∀ s x, s ∈ streams → x ∈ history s → Disable (capture_of s x) ∈ cs →
      ∃ i, i ∈ history s ∧ capture_of s i ∉ dropped ∧ Disable (capture_of s i) ∉ cs ∧ i_start x < i_start i ≤ K (ID s)) by (intros -> ?? _ _ []%elem_of_nil).
  pose proof (mi_driver _ _ _ _ Hinv : ms_streams d = streams) as Hdr. unfold mssql_PreCDC in Hpre.
  destruct (negb (cdcSupported config)); [injection Hpre as <- <- <- _; by apply Hgoal; [apply Hnone|..]|].
  destruct answer as [e|e|rs]; cbn [prepareCaptureInstancesBulk] in Hpre; [injection Hpre as <- <- <- _; by apply Hgoal; [apply Hnone|..]..|].
  destruct (pre_streams_keeps config src (foldl add_capture ∅ rs) (b_state b) streams "") as [r1 Hr1].
  { intros s Hs. eexists. by apply cursor_holds, Hinv. }
  rewrite Hr1 in Hpre. destruct r1 as [[]|e|e]; [|injection Hpre as <- <- <- _; by apply Hgoal; [apply Hnone|..]..].
  destruct (manageCaptureInstances _ _ _ _ _ _ _) as [cs' r'] eqn:Em. injection Hpre as <- <- -> _. apply Hgoal; [|by destruct r'|done].
  unfold manageCaptureInstances in Em. destruct (negb (ManageCaptureInstances config)); [injection Em as <- _; by apply Hnone|].
  destruct (negb (hasPrimary config) && isReadReplica config); [injection Em as <- _; by apply Hnone|].
  destruct ddl as [e|e|dl]; [injection Em as <- _; by apply Hnone..|]. apply (f_equal fst) in Em. cbn in Em.
  set (m := foldl add_capture ∅ rs) in *. set (ddlm := foldl _ ∅ dl) in *.
  assert (Hone : ∀ s x, s ∈ streams → x ∈ history s → Disable (capture_of s x) ∈ cs → Disable (capture_of s x) ∈ (manage_stream exec unix (b_state b) m ddlm s).1).
  { intros s x Hs Hx Hc. rewrite <- Em in Hc. apply manage_streams_from in Hc as (s' & Hs' & Hc).
    destruct (Hans rs eq_refl s' Hs') as (l & Hvis & rs' & [= <-] & Hrs). pose proof (mi_pos _ _ _ _ Hinv s' Hs') as Hpos. pose proof (mi_end _ _ _ _ Hinv).
    destruct (manage_drops exec unix (b_state b) m ddlm s' (history s') n dropped l (K (ID s')) (capture_of s x) (Hhistory s' Hs') Hvis (mi_dropped _ _ _ _ Hinv s' Hs')
      ltac:(unfold is_lsn in *; lia) ltac:(lia) (captures_of s' l rs Hs' Hrs) (cursor_holds _ _ _ (mi_state _ _ _ _ Hinv s' Hs')) Hc) as (y & _ & _ & Heq & _).
    apply capture_stream in Heq. assert (s' = s) as -> by (by apply (same_id streams)). done. }
  intros s x Hs Hx Hc. specialize (Hone s) as Hone'. pose proof (Hone' x Hs Hx Hc) as Hc'.
  destruct (Hans rs eq_refl s Hs) as (l & Hvis & rs' & [= <-] & Hrs). pose proof (mi_pos _ _ _ _ Hinv s Hs) as Hpos. pose proof (mi_end _ _ _ _ Hinv).
  destruct (manage_drops exec unix (b_state b) m ddlm s (history s) n dropped l (K (ID s)) (capture_of s x) (Hhistory s Hs) Hvis (mi_dropped _ _ _ _ Hinv s Hs)
    ltac:(unfold is_lsn in *; lia) ltac:(lia) (captures_of s l rs Hs Hrs) (cursor_holds _ _ _ (mi_state _ _ _ _ Hinv s Hs)) Hc') as (y & i & Hy & Heq & Hi & Hid & Hlt & Hni).
  apply capture_start in Heq; [|by apply (Hhistory s Hs)..]. exists i. split_and!; [done|done| |lia|lia]. intros Hbad. apply Hni. by apply Hone'.
Qed.

(** ** Runs of any number of processes *)
Section Run.
Context (empty : State).
Definition restart_mssql w : cdc_world := mkCdc (restart empty (c_world w)) (mkMssql streams ∅).

(** The world, the end of the captured log, and the instances dropped so far. *)
Inductive mstep : cdc_world * Z * list captureInstance → cdc_world * Z * list captureInstance → Prop :=
| mstep_captured w n dropped n' : n ≤ n' → is_lsn n' → mstep (w, n, dropped) (w, n', dropped)
| mstep_attempt w n dropped ai w' out :
    fair w n dropped ai → attempt_ ai w = Some (w', out) → mstep (w, n, dropped) (match out with Died => restart_mssql w' | _ => w' end, n, dropped)
| mstep_killed w n dropped : mstep (w, n, dropped) (restart_mssql w, n, dropped)
| mstep_precdc w n dropped config exec unix answer ddl src d' st' cs r dropped' :
    (∀ rs, answer = Rows rs → ∀ s, s ∈ streams → ∃ l, reported s n dropped answer l) →
    mssql_PreCDC config exec unix answer ddl src streams (c_driver w) (b_state (c_world w)) = Some (d', st', cs, r) →
    (∀ c, c ∈ dropped' → c ∈ dropped ∨ Disable c ∈ cs) →
    mstep (w, n, dropped) (mkCdc (mkBackfill st' (b_file (c_world w)) (b_sink (c_world w)) (b_signals (c_world w))) d', n, dropped').

(** Every stream has a position and metadata that are none or older. *)
Record mssql_start w (n : Z) : Prop := {
  st_end : is_lsn n;
  st_from s : s ∈ streams → 0 ≤ from s ≤ n;
  st_state s : s ∈ streams → holds (b_state (c_world w)) s (from s);
  st_file : b_file (c_world w) = Some (marshal (b_state (c_world w)));
  st_driver : c_driver w = mkMssql streams ∅;
  st_metadata s : s ∈ streams → behind (from s) (meta_state keep (b_sink (c_world w)) s);
  st_tables s : s ∈ streams → delivered (b_sink (c_world w)) (ID s) = base s
}.

Definition from_id (id : string) : Z := default 0 (from <$> lookup_first (λ s, String.eqb (ID s) id) streams).
Lemma from_id_of s : s ∈ streams → from_id (ID s) = from s.
Proof. intros Hs. unfold from_id. by rewrite (lookup_stream streams Hids s Hs). Qed.
Lemma start_minv w n : mssql_start w n → minv w n [] from_id.
Proof.
  intros [H1 H2 H3 H4 H5 H6 H7]. split; try done.
  - intros s Hs. rewrite from_id_of by done. specialize (H2 s Hs). lia.
  - intros s Hs. rewrite from_id_of by done. auto.
  - intros s Hs. rewrite from_id_of by done. auto.
  - exists (b_state (c_world w)). split; [done|]. intros s Hs. rewrite from_id_of by done. auto.
  - intros s Hs. rewrite from_id_of by done. left. split; [auto|]. unfold rows_at, expected. by rewrite H7, fresh_empty, app_nil_r.
  - by rewrite H5.
  - intros s v Hs. rewrite H5. cbn. by rewrite lookup_empty.
  - intros s Hs i _ []%elem_of_nil.
Qed.
Lemma restart_minv w n dropped K : minv w n dropped K → minv (restart_mssql w) n dropped K.
Proof.
  intros [H1 H0 H2 H3 (s0 & Hf & Hs0) H5 H6 H7 H8]. split; cbn; try done; [|by exists s0].
  intros s Hs. unfold restart. rewrite Hf. cbn. by apply cursor_reload, Hs0.
Qed.
Lemma longer_minv w n n' dropped K : n ≤ n' → is_lsn n' → minv w n dropped K → minv w n' dropped K.
Proof.
  intros Hn Hl [H1 H0 H2 H3 H4 H5 H6 H7 H8]. split; try done.
  - intros s Hs. specialize (H2 s Hs). lia.
  - intros s Hs. destruct (H5 s Hs) as [?|(e & ? & ? & ?)]; [by left|right; exists e; split_and!; [lia|lia|done..]].
  - intros s v Hs Hv. destruct (H7 s v Hs Hv) as (m & -> & ?). exists m. split; [done|lia].
Qed.
Lemma step_minv x y K : minv x.1.1 x.1.2 x.2 K → mstep x y → ∃ K', minv y.1.1 y.1.2 y.2 K' ∧ ∀ s, s ∈ streams → K (ID s) ≤ K' (ID s).
Proof.
  intros Hinv Hstep. destruct Hstep as [w n dropped n' Hn Hl|w n dropped ai w' out Hfair Ha|w n dropped|w n dropped config exec unix answer ddl src d' st' cs r dropped' Hans Hpre Hdrop]; cbn in *.
  - exists K. split; [by eapply longer_minv|done].
  - destruct (fa_stream _ _ _ _ Hfair) as (s & Hi & _). destruct w as [b d]. destruct (attempt_leaves b d n dropped K ai s w' out Hinv Hfair Hi Ha) as (K' & Hw & [Hle Ho] & _).
    exists K'. split; [destruct out; [done..|by apply restart_minv]|]. intros s' Hs'. destruct (decide (ID s' = ID s)) as [->|Hne]; [done|]. by rewrite Ho.
  - exists K. split; [by apply restart_minv|done].
  - exists K. split; [|done]. destruct w as [b d]. destruct (precdc_minv _ _ _ _ _ _ _ _ _ _ _ _ _ _ _ _ Hinv Hans Hpre Hdrop) as [-> Hw]. by destruct b.
Qed.
Lemma reachable_minv x y K : minv x.1.1 x.1.2 x.2 K → rtc mstep x y → ∃ K', minv y.1.1 y.1.2 y.2 K' ∧ ∀ s, s ∈ streams → K (ID s) ≤ K' (ID s).
Proof.
  intros Hi Hr. revert K Hi. induction Hr as [x|x y z Hstep _ IH]; intros K Hi; [by exists K|].
  destruct (step_minv x y K Hi Hstep) as (K1 & Hi1 & Hle1). destruct (IH K1 Hi1) as (K2 & Hi2 & Hle2). exists K2. split; [done|].
  intros s Hs. specialize (Hle1 s Hs). specialize (Hle2 s Hs). lia.
Qed.

(** C7: SQL Server change capture delivers every change exactly once, as long as a writer
    that cannot be created is the first trouble of its process ([fair]).  The capture job
    goes on, instances are created by the server and dropped by the management at the
    start of a process, attempts fail at any query, row, push or close, processes die at
    any point and new ones start from the state file.  Then the table of every stream
    always holds, besides what it held, exactly the rows of its changes from its first
    position to some later one, each once and read from the instance the change belongs
    to; an instance is dropped only when one that is still there starts after it and not
    after the position the stream recorded, in memory and in the state file; and as many
    attempts without fault as there are instances, and two more, bring a stream to the end
    of the captured log.  What [fair] leaves out loses changes: a writer that cannot be
    created after an earlier attempt of the same process failed
    ([mssql_open_failure_loses_changes] below). *)
Theorem mssql_cdc_exactly_once w n w' n' dropped :
  mssql_start w n → rtc mstep (w, n, []) (w', n', dropped) →
  (∀ s, s ∈ streams → ∃ k, from s ≤ k ≤ n' ∧ delivered (b_sink (c_world w')) (ID s) ≡ₚ base s ++ fresh s (from s) k)
  ∧ (∀ s, s ∈ streams → ∃ k saved, b_file (c_world w') = Some (marshal saved) ∧ holds saved s k ∧ holds (b_state (c_world w')) s k
      ∧ ∀ i, i ∈ history s → capture_of s i ∈ dropped → ∃ j, j ∈ history s ∧ capture_of s j ∉ dropped ∧ i_start i < i_start j ≤ k)
  ∧ ∀ s ais, s ∈ streams → decodable s → (∃ i, i ∈ history s ∧ i_start i ≤ from s) → Forall (faultless s n' dropped) ais →
    ∃ w1, rounds ais w' = Some w1
    ∧ ((2 + length (history s) ≤ length ais)%nat → delivered (b_sink (c_world w1)) (ID s) ≡ₚ base s ++ fresh s (from s) n').
Proof.
  intros Hstart Hr. destruct (reachable_minv (w, n, []) (w', n', dropped) from_id (start_minv w n Hstart) Hr) as (K & Hinv & Hle). cbn in Hinv. split_and!.
  - intros s Hs. pose proof (mi_pos _ _ _ _ Hinv s Hs). pose proof (mi_from _ _ _ _ Hinv s Hs).
    destruct (mi_tables _ _ _ _ Hinv s Hs) as [[_ Hrows]|(e & He & _ & Hrows)]; [exists (K (ID s))|exists e]; (split; [lia|done]).
  - intros s Hs. destruct (mi_file _ _ _ _ Hinv) as (saved & Hf & Hsaved). exists (K (ID s)), saved.
    split_and!; [done|by apply Hsaved|by apply (mi_state _ _ _ _ Hinv)|by apply (mi_dropped _ _ _ _ Hinv)].
  - intros s ais Hs Hdec (i & Hi & Hif) Hais. apply (rounds_complete s n' dropped Hdec ais w' K Hs Hais Hinv). exists i. split; [done|]. pose proof (mi_from _ _ _ _ Hinv s Hs). lia.
Qed.
End Run.
End Facts.

(** ** Witness: a table with two capture instances; the first process dies after its rows
    were committed *)
Section Witness.
#[local] Existing Instances mc_hash mc_chunk_hash mc_range mc_env mc_json mc_sink mc_cursor_sink mc_stream_sink.
#[local] Instance mc_text_sink : TextSink.
Proof.
  split. intros k stream opts raws m t _ Hne Hs. exists m. split; [|done]. destruct raws as [|r raws]; [done|]. cbn. unfold table_of. by rewrite lookup_insert_eq.
Defined.
#[local] Instance shop_mssql : ChangeDriver := MSSQL_changes (λ _, "") (λ _, "") (λ _, "").

Definition captured (lsn id : Z) : Z * list (ColumnType * any) :=
  (lsn, [(mkColumn "__$start_lsn" "BINARY" None, ABytes (string_of (lsn_bytes lsn))); (mkColumn "__$operation" "INT" None, AInt KInt64 2); (mkColumn "id" "BIGINT" None, AInt KInt64 id)]).
Definition first_instance : instance := mkInstance 5 "db_orders" [captured 10 1; captured 30 2].
Definition second_instance : instance := mkInstance 20 "olake_db_orders" [captured 30 2].
Definition users_instance : instance := mkInstance 5 "db_users" [captured 10 3].
Definition shop_history (s : ConfiguredStream) : list instance := if String.eqb (ID s) "db.orders" then [first_instance; second_instance] else [users_instance].
Definition all_instances : list (ConfiguredStream * instance) :=
  [(table_stream "orders", first_instance); (table_stream "orders", second_instance); (table_stream "users", users_instance)].
(** A server with all changes captured, answering for the first table. *)
Definition shop_server : mssql_input := mkMssqlInput 0 (Ok (lsn_bytes 40)) (Rows ((λ x, instance_row x.1 x.2) <$> all_instances)) (λ b, Ok (lsn_bytes (lsn_of b + 1)))
  (λ name f t, match lookup_first (λ x, String.eqb (i_name x.2) name) all_instances with
               | Some x => ChangeRows ((λ r, Ok r.2) <$> within (lsn_of f - 1) (lsn_of t) (i_rows x.2)) None
               | None => ChangesRefused "invalid object name"
               end) (λ _, epoch).
Definition shop_try (open : option nat) (fates : list close_fate) : attempt_input := mkAttempt open shop_server None (λ _, epoch) (λ id, id) fates false.
Definition shop_state : State := SetCursor (SetCursor (empty_state StreamType) (table_stream "orders") cdcCursorKey (AString (lsn_text 5))) (table_stream "users") cdcCursorKey (AString (lsn_text 5)).
Definition shop_world : cdc_world := mkCdc (mkBackfill shop_state (Some (marshal shop_state)) ∅ []) (mkMssql shop ∅).
Definition run_shop (ai : attempt_input) (w : cdc_world) : cdc_world := match streamChanges (λ s, s) MSSQL ai shop w with Some (w, _) => w | None => w end.
Definition rows_in (w : cdc_world) (id : string) : list (gmap string any) := (table_of (b_sink (c_world w)) id).1.

(** What [fair] leaves out: an attempt reads but cannot commit; the retry in the same
    process cannot create a writer, and its post-CDC step stores the position of the
    first.  The first row is never delivered. *)
Lemma mssql_open_failure_loses_changes :
  let w1 := run_shop (shop_try None [CloseErr false]) shop_world in
  let w2 := run_shop (shop_try (Some 0%nat) []) w1 in
  let w3 := run_shop (shop_try None []) w2 in
  rows_in w1 "db.orders" = [] ∧ rows_in w3 "db.orders" = [{["id" := AInt KInt64 2]}]
  ∧ cursor_value (b_state (c_world w3)) (table_stream "orders") cdcCursorKey = AString (lsn_text 40).
Proof. vm_compute. split_and!; reflexivity. Qed.

Definition crashed : cdc_world := restart_mssql (λ _, "") (λ _, "") (λ _, "") shop (empty_state StreamType) (run_shop (shop_try None [CloseErr true]) shop_world).
Notation shop_step := (mstep (λ s, s) (λ _, "") (λ _, "") (λ _, "") shop shop_history (empty_state StreamType)).
Notation shop_faultless := (faultless (λ _, "") (λ _, "") (λ _, "") shop shop_history).

Lemma shop_history_ok s : instances_ok (shop_history s).
Proof.
  unfold shop_history. destruct (String.eqb _ _); (split; [repeat constructor|]); intros i;
    rewrite ?elem_of_cons, elem_of_nil; naive_solver (unfold is_lsn; cbn; lia).
Qed.
Lemma shop_reported n : 40 ≤ n → reported shop_history (table_stream "orders") n [] (mi_instances shop_server) [first_instance; second_instance].
Proof.
  intros Hn. split; [|by eexists]. exists (λ _, true). split; [done|]. split; [by intros i _ _ ?%elem_of_nil|done].
Qed.
Lemma shop_changes i k t : i ∈ shop_history (table_stream "orders") → i_start i ≤ k < t → is_lsn k → is_lsn t →
  mi_changes shop_server (i_name i) (lsn_bytes (k + 1)) (lsn_bytes t) = ChangeRows ((λ r, Ok r.2) <$> within k t (i_rows i)) None.
Proof.
  intros Hi Hkt Hk Ht. cbn [mi_changes shop_server]. rewrite !lsn_of_bytes by (unfold is_lsn in *; lia). rewrite Z.add_simpl_r.
  apply elem_of_cons in Hi as [->|[->|?%elem_of_nil]%elem_of_cons]; done.
Qed.
Lemma shop_try_faultless : shop_faultless (table_stream "orders") 40 [] (shop_try None []).
Proof.
  split; try reflexivity; [by eexists; apply shop_reported| |exact shop_changes].
  intros k Hk. cbn [mi_advance shop_server shop_try ai_in]. by rewrite lsn_of_bytes.
Qed.
Lemma shop_outcome ai w out : snd <$> streamChanges (λ s, s) MSSQL ai shop w = Some out → streamChanges (λ s, s) MSSQL ai shop w = Some (run_shop ai w, out).
Proof. unfold run_shop. destruct (streamChanges _ _ _ _ _) as [[w' out']|]; [|done]. by intros [= <-]. Qed.
Lemma shop_crashed : rtc shop_step (shop_world, 40, []) (crashed, 40, []).
Proof.
  eapply rtc_l; [|eapply rtc_l; [apply (mstep_killed _ _ _ _ _ _ _ (run_shop (shop_try None [CloseErr true]) shop_world))|apply rtc_refl]].
  apply (mstep_attempt _ _ _ _ _ _ _ shop_world 40 [] (shop_try None [CloseErr true]) (run_shop (shop_try None [CloseErr true]) shop_world) (Failed_with "failed to close writer: post cdc error: context canceled")).
  - split; [|by left]. exists (table_stream "orders"). split; [done|].
    destruct (faultless_is_fair (λ _, "") (λ _, "") (λ _, "") shop shop_history shop_world 40 [] _ _ shop_try_faultless) as [(s & [= <-] & Hho) _]. exact Hho.
  - apply shop_outcome. vm_compute. reflexivity.
Qed.

(** Every row has a record with keys to hash. *)
Definition row_ok (s : ConfiguredStream) (r : Z * list (ColumnType * any)) : bool :=
  match MapScan (mssql_dataTypeConverter (λ _, "") (λ _, "") (λ _, "")) mssqlCDCColumnSizer (Ok r.2) with
  | Ok (record, _) =>
      match change_of_row (λ _, "") s epoch record with
      | Ok None => true
      | Ok (Some ch) => bool_decide (is_Some (GetKeysHash (λ s, s) 2 (ch_Data ch) (Array (s_SourceDefinedPrimaryKey (StreamOf s)))))
      | _ => false
      end
  | _ => false
  end.
Lemma shop_decodable : decodable (λ s, s) (λ _, "") (λ _, "") (λ _, "") shop_history (table_stream "orders").
Proof.
  assert (Hall : forallb (λ i, forallb (row_ok (table_stream "orders")) (i_rows i)) [first_instance; second_instance] = true) by (vm_compute; reflexivity).
  rewrite forallb_forall in Hall. split. intros i r Hi Hr. specialize (Hall i (proj1 (list_elem_of_In _ _) Hi)). rewrite forallb_forall in Hall.
  specialize (Hall r (proj1 (list_elem_of_In _ _) Hr)). clear Hi Hr. unfold row_ok in Hall.
  destruct (MapScan _ _ _) as [[record size]| |]; [|done..]. exists record, size. split; [done|]. destruct (change_of_row _ _ _ _) as [[ch|]| |]; [|done..]. by apply bool_decide_eq_true in Hall.
Qed.

Lemma mssql_cdc_exactly_once_witness :
  ∃ w1, rounds (λ s, s) (λ _, "") (λ _, "") (λ _, "") shop (replicate 4 (shop_try None [])) crashed = Some w1
  ∧ delivered (b_sink (c_world w1)) "db.orders" ≡ₚ [{["id" := AInt KInt64 1]}; {["id" := AInt KInt64 2]}].
Proof.
  destruct (mssql_cdc_exactly_once (λ _, true) (λ s, s) (λ _, "") (λ _, "") (λ _, "") shop shop_history (λ _, []) (λ _, 5) ltac:(by_decide) (λ s _, shop_history_ok s)
    (empty_state StreamType) shop_world 40 crashed 40 []) as (_ & _ & Hlive).
  - split; [unfold is_lsn; lia|lia| |reflexivity..| |].
    + intros s [->|[->|?%elem_of_nil]%elem_of_cons]%elem_of_cons; [|apply cursor_set_holds, set_wf; split; constructor|done].
      apply holds_other; [discriminate|]. apply cursor_set_holds. split; constructor.
    + by intros s [->|[->|?%elem_of_nil]%elem_of_cons]%elem_of_cons.
    + by intros s [->|[->|?%elem_of_nil]%elem_of_cons]%elem_of_cons.
  - exact shop_crashed.
  - destruct (Hlive (table_stream "orders") (replicate 4 (shop_try None []))) as (w1 & Hr & Hall).
    + left.
    + exact shop_decodable.
    + exists first_instance. split; [left|done].
    + repeat (constructor; [apply shop_try_faultless|]). constructor.
    + exists w1. split; [exact Hr|]. apply Hall. reflexivity.
Defined.
End Witness.
