(* ===== verification/ChunkingFacts.v ===== *)
(** * Theorems about chunk planning: plans terminate, leave no gap, and read every row once *)

From S2P Require Import Prelude GoString GoSet DataTypes QueryEngine Value ValueFacts Schema Stream StreamFacts Catalog State StateFacts TwoPC Fields Writers Utils Backfill Incremental IncrementalFacts Ranges Jdbc JdbcFacts Chunking Planners.
From stdpp Require Import sorting.
#[local] Open Scope Z_scope.

(** ** Decimal texts *)
Definition numeral_byte (b : Z) : bool := in_range 48 57 b || (b =? 45).

Lemma numeral_go x s :
  Forall (λ b, numeral_byte b = true) (bytes_of s) → Forall (λ b, numeral_byte b = true) (bytes_of (pretty_N_go x s)).
Proof.
  revert s. induction (N.lt_wf_0 x) as [x _ IH]. intros s Hs. destruct (decide (x = 0%N)) as [->|Hx]; [by rewrite pretty_N_go_0|].
  rewrite pretty_N_go_step by lia. apply IH; [apply N.div_lt; lia|]. cbn. constructor; [|done].
  pose proof (N.mod_lt x 10). unfold pretty_N_char. repeat case_match; reflexivity.
Qed.
Lemma numeral_N (x : N) : Forall (λ b, numeral_byte b = true) (bytes_of (pretty x)).
Proof. unfold pretty, pretty_N. case_decide; [by repeat constructor|by apply numeral_go]. Qed.
Lemma numeral_bytes z : Forall (λ b, numeral_byte b = true) (bytes_of (fmt_d z)).
Proof.
  unfold fmt_d. destruct z as [|p|p]; [by repeat constructor|exact (numeral_N (N.pos p))|].
  change (pretty (Z.neg p)) with ("-" +:+ pretty (N.pos p)). rewrite bytes_of_app. apply Forall_app. split; [by repeat constructor|apply numeral_N].
Qed.

(** A decimal text is read back as its number. *)
Lemma digits_go x s acc : digits 0 (pretty_N_go x s) = acc ↔ digits (Z.of_N x) s = acc.
Proof.
  revert s. induction (N.lt_wf_0 x) as [x _ IH]. intros s. destruct (decide (x = 0%N)) as [->|Hx]; [by rewrite pretty_N_go_0|].
  rewrite pretty_N_go_step by lia. rewrite IH by (apply N.div_lt; lia). cbn [digits].
  assert (Hd : digit (pretty_N_char (x mod 10)) = Some (Z.of_N (x mod 10))).
  { pose proof (N.mod_lt x 10) as Hlt. generalize dependent (x mod 10)%N. intros d Hlt.
    assert (d = 0 ∨ d = 1 ∨ d = 2 ∨ d = 3 ∨ d = 4 ∨ d = 5 ∨ d = 6 ∨ d = 7 ∨ d = 8 ∨ d = 9)%N as Hd by lia. by destruct_or! Hd; subst. }
  rewrite Hd. replace (Z.of_N (x / 10) * 10 + Z.of_N (x mod 10)) with (Z.of_N x); [done|]. rewrite N2Z.inj_div, N2Z.inj_mod. pose proof (Z.div_mod (Z.of_N x) 10). lia.
Qed.
Lemma digits_pretty (x : N) : unsigned_digits (pretty x) = Some (Z.of_N x).
Proof.
  assert (Hd : digits 0 (pretty x) = Some (Z.of_N x)).
  { unfold pretty, pretty_N. case_decide as Hx; [by subst|]. by apply digits_go. }
  unfold unsigned_digits. destruct (pretty x) eqn:E; [|done]. unfold pretty, pretty_N in E. case_decide as Hx; [done|].
  assert (Hc : digits 0 (pretty_N_go x "") = Some 0) by (by rewrite E). apply digits_go in Hc. cbn in Hc. injection Hc as Hc. lia.
Qed.
Lemma signed_decimal z : signed_digits (fmt_d z) = Some z.
Proof.
  unfold fmt_d. destruct z as [|p|p]; [done| |].
  - change (pretty (Z.pos p)) with (pretty (N.pos p)). pose proof (digits_pretty (N.pos p)) as Hd. pose proof (numeral_N (N.pos p)) as Hn.
    unfold signed_digits. destruct (pretty (N.pos p)) as [|a s] eqn:E; [done|]. destruct a as [[] [] [] [] [] [] [] []]; try exact Hd;
      (cbn in Hd; unfold unsigned_digits, digits, digit in Hd; done).
  - change (pretty (Z.neg p)) with ("-" +:+ pretty (N.pos p)). change (Z.opp <$> unsigned_digits (pretty (N.pos p)) = Some (Z.neg p)). by rewrite digits_pretty.
Qed.

Lemma substring_app (a b : string) : String.substring 0 (String.length a) (a +:+ b) = a.
Proof. induction a as [|c a IH]; [by destruct b|]. change (String c (String.substring 0 (String.length a) (a +:+ b)) = String c a). by rewrite IH. Qed.
Lemma number_literal c z : number c (formatSQLLiteral (fmt_d z)) = Some z.
Proof.
  assert (Hq : escape_quotes (fmt_d z) = fmt_d z).
  { pose proof (numeral_bytes z) as Hn. unfold escape_quotes. induction (fmt_d z) as [|a s IH]; [done|]. cbn in Hn. apply Forall_cons in Hn as [Ha Hn].
    cbn [ReplaceByte]. destruct (Ascii.eqb_spec a (ascii_of 39)) as [->|]; [done|].
    change (String a (ReplaceByte (ascii_of 39) "''" s) = String a s). by rewrite IH. }
  unfold number, formatSQLLiteral. rewrite Hq. change ("'" +:+ fmt_d z +:+ "'") with (String "'" (fmt_d z +:+ "'")). cbn [String.substring String.length].
  replace (S (String.length (fmt_d z +:+ "'")) - 2)%nat with (String.length (fmt_d z)).
  - rewrite substring_app. apply signed_decimal.
  - rewrite <- !bytes_of_length, bytes_of_app, length_app. cbn. lia.
Qed.

Lemma StrContains_byte s a : StrContains s (String a "") = true → byte_of a ∈ bytes_of s.
Proof.
  induction s as [|b s IH]; [done|]. cbn [StrContains bytes_of]. intros Hc. apply orb_true_iff in Hc as [Hc|Hc]; [|right; by apply IH].
  cbn in Hc. apply andb_true_iff in Hc as [->%Ascii.eqb_eq _]. left.
Qed.

Lemma drop_while_none {A} (p : A → bool) l : Forall (λ x, p x = false) l → drop_while p l = l.
Proof. destruct 1 as [|x l Hx _]; [done|]. cbn. by rewrite Hx. Qed.
Lemma TrimSpace_id s : Forall (λ b, 0 ≤ b < 128 ∧ IsSpace b = false) (bytes_of s) → TrimSpace s = s.
Proof.
  intros Hs. assert (Hr : Forall (λ r : Z * list Z, IsSpace r.1 = false) (runes (bytes_of s))).
  { assert (Forall (λ b, IsSpace b = false) (runes (bytes_of s)).*1) as Hb%Forall_fmap; [|exact Hb].
    rewrite runes_ascii; (eapply Forall_impl; [exact Hs|naive_solver]). }
  unfold TrimSpace. rewrite (drop_while_none _ (runes _)) by done. rewrite drop_while_none by (by apply Forall_reverse).
  by rewrite reverse_involutive, runes_concat, string_of_bytes_of.
Qed.

(** A decimal boundary is one value, read back as it was written. *)
Lemma split_decimal `{GoEnv} z : splitBoundaryValues (str z) = [fmt_d z].
Proof.
  unfold splitBoundaryValues, str. cbn [ConvertToString]. pose proof (numeral_bytes z) as Hn. rewrite Forall_forall in Hn.
  rewrite Split_single.
  - cbn. f_equal. apply TrimSpace_id, Forall_forall. intros b Hb%Hn. unfold numeral_byte, IsSpace, in_range in *. lia.
  - intros Hc%Is_true_true%StrContains_byte%Hn. done.
Qed.

(** ** Chains of boundaries *)
Lemma chain_from_fmap {A B} (f : A → B) (lo : option A) (ks : list A) : chain_from (f <$> lo) (f <$> ks) = (λ r : option A * option A, (f <$> r.1, f <$> r.2)) <$> chain_from lo ks.
Proof. revert lo. induction ks as [|k ks IH]; intros lo; [done|]. cbn. f_equal. exact (IH (Some k)). Qed.
Lemma chunks_of_chain (bs : list (any * list Z)) : chunks_between bs.*1 = chunk_of <$> chain bs.
Proof.
  unfold chunks_between, chain. change (@None any) with (fst <$> @None (any * list Z)). rewrite chain_from_fmap. rewrite <- list_fmap_compose. apply list_fmap_ext.
  intros ? [[?|] [?|]] _; done.
Qed.

Section Reading.
Context `{GoEnv} (val : string → option Z) (lit : string → string → option Z) (raw : string → option bool).

(** Exactly one chunk of a plan has a condition the row satisfies. *)
Definition read_once (cols : list string) (chunks : list Chunk) : Prop :=
  ∃ i c, chunks !! i = Some c ∧ reads val lit raw cols c ∧ ∀ j c', chunks !! j = Some c' → reads val lit raw cols c' → j = i.

Lemma chain_read_once cols (bs : list (any * list Z)) xs :
  row_key val cols xs → cols ≠ [] → bs ≠ [] →
  Forall (λ b, is_nil b.1 = false ∧ bound_key lit cols (splitBoundaryValues b.1) b.2) bs →
  Sorted (λ b b', lex_lt b'.2 b.2 = false) bs →
  read_once cols (chunks_between bs.*1).
Proof.
  intros Hx Hc Hne Hb Hs. destruct (scans_partition val lit raw cols bs xs Hx Hc Hne Hb Hs) as (_ & i & r & Hr & Hrd & Hu).
  rewrite chunks_of_chain. exists i, (chunk_of r). rewrite list_lookup_fmap, Hr. split_and!; [done..|].
  intros j c' Hj Hc'. rewrite list_lookup_fmap in Hj. destruct (chain bs !! j) as [r'|] eqn:Ej; [|done]. injection Hj as <-. by eapply Hu.
Qed.

(** Decimal boundaries on a column that reads a numeral as its number. *)
Lemma decimal_read_once col zs x :
  val col = Some x → (∀ z, lit col (formatSQLLiteral (fmt_d z)) = Some z) → zs ≠ [] → Sorted Z.le zs →
  read_once [col] (chunks_between (str <$> zs)).
Proof.
  intros Hx Hlit Hne Hs. set (bs := (λ z, (str z, [z])) <$> zs). replace (str <$> zs) with bs.*1 by (unfold bs; by rewrite <- list_fmap_compose).
  apply (chain_read_once [col] bs [x]); [by repeat constructor|done|by destruct zs| |].
  - apply Forall_fmap, Forall_true. intros z. cbn [compose fst snd]. rewrite split_decimal. split; [done|]. by repeat constructor.
  - unfold bs. clear -Hs. induction Hs as [|z zs Hs IH Hz]; [constructor|]. constructor; [done|].
    destruct Hz as [|z' zs Hz]; constructor. cbn. apply orb_false_iff. split; [by apply Z.ltb_ge|apply andb_false_r].
Qed.
End Reading.

(** ** Even integer splits *)
Section Integers.
Context `{GoEnv}.
Implicit Types (bounds : NumericChunkBounds).

(** The boundaries from [z] on: [n] steps. *)
Fixpoint progression (n : nat) (step z : Z) : list Z :=
  match n with O => [z] | S n => z :: progression n step (z + step) end.

Definition int64_range (z : Z) : Prop := - 2 ^ 63 ≤ z < 2 ^ 63.

Lemma add64_exact a b : int64_range (a + b) → add64 a b = a + b.
Proof. intros Hr. by apply wrap_s_id. Qed.
Lemma add64_overflow a b : int64_range a → 0 < b < 2 ^ 63 → 2 ^ 63 ≤ a + b → add64 a b = a + b - 2 ^ 64.
Proof.
  unfold int64_range, add64, wrap_s. intros Ha Hb Hs. change (64 - 1) with 63. change (2 ^ 64) with (2 ^ 63 + 2 ^ 63).
  rewrite <- (Z.mod_unique (a + b + 2 ^ 63) (2 ^ 63 + 2 ^ 63) 1 (a + b - 2 ^ 63)); lia.
Qed.

Definition chunk_from (lo : any) (bs : list any) : list Chunk :=
  (λ r, mkChunk (default ANil r.1) (default ANil r.2)) <$> chain_from (Some lo) bs.

Lemma int_loop_spec n fuel step last prev :
  (n < fuel)%nat → 1 ≤ step < 2 ^ 63 → int64_range prev → int64_range last →
  prev + Z.of_nat n * step ≤ last < prev + Z.of_nat n * step + step →
  int_loop fuel step last prev (add64 prev step)
  = Some (if prev + Z.of_nat n * step + step <? 2 ^ 63 then Ok (chunk_from (str prev) (str <$> tail (progression n step prev)))
          else Err "int64 arithmetic overflow").
Proof.
  revert fuel prev. induction n as [|n IH]; intros [|fuel] prev Hf Hs Hp Hl Hlast; try lia; cbn [int_loop].
  - rewrite Z.mul_0_l, Z.add_0_r in *. destruct (Z.ltb_spec (prev + step) (2 ^ 63)) as [Hlt|Hge].
    + rewrite add64_exact by (unfold int64_range in *; lia). destruct (Z.leb_spec (prev + step) last); [lia|done].
    + rewrite add64_overflow by (done || lia). destruct (Z.leb_spec (prev + step - 2 ^ 64) last); [|unfold int64_range in *; lia].
      destruct (Z.leb_spec (prev + step - 2 ^ 64) prev); [done|unfold int64_range in *; lia].
  - assert (Hr : int64_range (prev + step)) by (unfold int64_range in *; nia). rewrite add64_exact by done.
    destruct (Z.leb_spec (prev + step) last); [|nia]. destruct (Z.leb_spec (prev + step) prev); [lia|].
    rewrite IH by (try done; nia). replace (prev + step + Z.of_nat n * step + step) with (prev + Z.of_nat (S n) * step + step) by lia.
    destruct (_ <? _); [|done]. f_equal. destruct n; done.
Qed.

Lemma progression_sorted n step z : 0 ≤ step → Sorted Z.le (progression n step z).
Proof.
  intros Hs. revert z. induction n as [|n IH]; intros z; [by repeat constructor|]. constructor; [apply IH|].
  destruct n; constructor; lia.
Qed.
Lemma progression_head n step z : progression n step z = z :: tail (progression n step z).
Proof. by destruct n. Qed.

(** The whole split: overflow is an error, otherwise the boundaries are the progression. *)
Lemma splitEvenlyForInt_spec fuel bounds n :
  1 ≤ ChunkStep bounds < 2 ^ 63 → int64_range (MinBoundary bounds) → int64_range (MaxBoundary bounds) →
  MinBoundary bounds ≤ MaxBoundary bounds → Z.of_nat n = (MaxBoundary bounds - MinBoundary bounds) / ChunkStep bounds → (n < fuel)%nat →
  splitEvenlyForInt fuel bounds
  = Some (if MinBoundary bounds + Z.of_nat n * ChunkStep bounds + ChunkStep bounds <? 2 ^ 63
          then Ok (chunks_between (str <$> progression n (ChunkStep bounds) (MinBoundary bounds)))
          else Err "int64 arithmetic overflow").
Proof.
  intros Hs Hlo Hhi Hle Hn Hf. unfold splitEvenlyForInt. pose proof (Z.div_mod (MaxBoundary bounds - MinBoundary bounds) (ChunkStep bounds)).
  pose proof (Z.mod_pos_bound (MaxBoundary bounds - MinBoundary bounds) (ChunkStep bounds)).
  rewrite (int_loop_spec n) by (done || nia). destruct (_ <? _); [|done]. rewrite progression_head. done.
Qed.

(** C15: an even split of an integer key terminates; it reports overflow exactly when the
    boundary after the last one leaves int64 (the driver then walks the key instead),
    and otherwise every row is read by exactly one chunk scan, rows below the smallest
    and above the largest key seen when planning included. *)
Theorem int_chunks_read_once fuel bounds :
  1 ≤ ChunkStep bounds < 2 ^ 63 → int64_range (MinBoundary bounds) → int64_range (MaxBoundary bounds) →
  MinBoundary bounds ≤ MaxBoundary bounds → (MaxBoundary bounds - MinBoundary bounds) / ChunkStep bounds < Z.of_nat fuel →
  let last := MinBoundary bounds + (MaxBoundary bounds - MinBoundary bounds) / ChunkStep bounds * ChunkStep bounds in
  if last + ChunkStep bounds <? 2 ^ 63
  then ∃ chunks, splitEvenlyForInt fuel bounds = Some (Ok chunks)
    ∧ ∀ val lit raw col x, val col = Some x → (∀ z, lit col (formatSQLLiteral (fmt_d z)) = Some z) → read_once val lit raw [col] chunks
  else splitEvenlyForInt fuel bounds = Some (Err "int64 arithmetic overflow").
Proof.
  intros Hs Hlo Hhi Hle Hf last. set (q := (MaxBoundary bounds - MinBoundary bounds) / ChunkStep bounds) in *.
  assert (0 ≤ q) by (apply Z.div_pos; lia).
  rewrite (splitEvenlyForInt_spec fuel bounds (Z.to_nat q)) by (try done; lia). rewrite Z2Nat.id by done. fold last.
  destruct (_ <? _); [|done]. eexists. split; [done|]. intros val lit raw col x Hx Hlit. apply (decimal_read_once val lit raw col _ x); [done..| |].
  - by destruct (Z.to_nat q).
  - apply progression_sorted. lia.
Qed.
End Integers.

(** ** Ranges of heap pages and row ids *)
Fixpoint tiles (lo hi : Z) (l : list (Z * Z)) : Prop :=
  match l with
  | [] => lo = hi
  | r :: l => r.1 = lo ∧ r.1 < r.2 ∧ tiles r.2 hi l
  end.
Definition covers (r : Z * Z) (p : Z) : Prop := r.1 ≤ p < r.2.

Lemma tiles_le lo hi l : tiles lo hi l → lo ≤ hi.
Proof. revert lo. induction l as [|[a b] l IH]; cbn; intros lo; [lia|]. intros (-> & ? & Ht%IH). lia. Qed.
Lemma tiles_below lo hi l i r p : tiles lo hi l → l !! i = Some r → covers r p → lo ≤ p.
Proof.
  revert lo i. induction l as [|[a b] l IH]; intros lo [|i]; cbn; try done; intros (-> & ? & Ht); unfold covers in *.
  - intros [= <-]. cbn. lia.
  - intros Hi Hc. pose proof (IH _ _ Ht Hi Hc). lia.
Qed.
Lemma tiles_once lo hi l p :
  tiles lo hi l → lo ≤ p < hi → ∃ i r, l !! i = Some r ∧ covers r p ∧ ∀ j r', l !! j = Some r' → covers r' p → j = i.
Proof.
  revert lo. induction l as [|[a b] l IH]; intros lo Ht Hp; cbn in Ht; [lia|]. destruct Ht as (-> & Hab & Ht).
  destruct (decide (p < b)) as [Hlt|Hge].
  - exists 0%nat, (lo, b). split_and!; [done|unfold covers; cbn in *; lia|]. intros [|j] r' Hj Hc; [done|].
    pose proof (tiles_below _ _ _ _ _ _ Ht Hj Hc). cbn in *. lia.
  - destruct (IH b) as (i & r & Hi & Hc & Hu); [done|lia|]. exists (S i), r. split_and!; [done..|].
    intros [|j] r' Hj Hc'; [injection Hj as <-; unfold covers in Hc'; cbn in Hc'; lia|]. f_equal. by eapply Hu.
Qed.

Section Ctid.
Context `{GoHash string} `{GoHash Chunk} `{GoRange} `{GoEnv} (is_print : Z → bool).

Lemma ctid_loop_tiles fuel relPages batch start :
  0 ≤ start < relPages → 1 ≤ batch → relPages + batch ≤ 2 ^ 32 → relPages - start < Z.of_nat fuel * batch →
  ∃ l, ctid_loop (S fuel) relPages batch start = Some l ∧ tiles start max_uint32 l.
Proof.
  change (2 ^ 32) with 4294967296. revert start. induction fuel as [|fuel IH]; intros start Hs Hb Hr Hf; [lia|].
  remember (S fuel) as k eqn:Hk. cbn [ctid_loop]. destruct (Z.ltb_spec start relPages); [|lia].
  unfold wrap_u. rewrite Z.mod_small by (change (2 ^ 32) with 4294967296; lia).
  destruct (Z.leb_spec relPages (start + batch)).
  - exists [(start, max_uint32)]. subst k. cbn. destruct (Z.ltb_spec (start + batch) relPages); [lia|]. unfold max_uint32. split_and!; try done; lia.
  - subst k. destruct (IH (start + batch)) as (l & -> & Hl); [lia..|]. eexists. split; [done|]. cbn. split_and!; [done|lia|done].
Qed.

Lemma partition_loop_tiles fuel pages maxPages m start :
  0 ≤ start < maxPages → maxPages ≤ max_uint32 → 1 ≤ m → (∀ s, 0 ≤ s < maxPages → m ≤ pages s < 2 ^ 62) →
  maxPages - start < Z.of_nat fuel * m →
  ∃ l, partition_loop (S fuel) pages maxPages start = Some l ∧ tiles start max_uint32 l.
Proof.
  revert start. induction fuel as [|fuel IH]; intros start Hs Hx Hm Hp Hf; [lia|].
  remember (S fuel) as k eqn:Hk. cbn [partition_loop]. destruct (Z.ltb_spec start maxPages); [|lia]. pose proof (Hp start Hs) as Hps.
  unfold max_uint32 in *. rewrite add64_exact by (unfold int64_range; change (2 ^ 63) with (2 ^ 62 + 2 ^ 62); lia).
  destruct (Z.leb_spec maxPages (start + pages start)).
  - exists [(start, 4294967295)]. subst k. cbn. destruct (Z.ltb_spec 4294967295 maxPages); [lia|]. split_and!; try done; lia.
  - subst k. destruct (IH (start + pages start)) as (l & -> & Hl); [lia|done..|nia|]. eexists. split; [done|]. cbn. split_and!; [done|lia|done].
Qed.

(** What the planner needs from the database's answers, and fuel for the chunks.  For a
    plain table: at least one page a chunk, and a page count that stays within 32 bits
    when the pages of a chunk are added to it (beyond, the loop's uint32 counter wraps
    around and it does not end).  For a partitioned one: some partition with a page, and
    at least one page a chunk wherever a chunk starts. *)
Definition ctid_ready (fuel : nat) (db : PgDB) : Prop :=
  ∃ blockSize, pg_block_size db = Ok blockSize ∧
  ((pg_partition_count db = Ok 0 ∧ ∃ heapBytes tableBytes, pg_relation_size db = Ok (heapBytes, tableBytes) ∧
     let pages := rel_pages blockSize heapBytes in let batch := batch_pages (pg_version db) blockSize heapBytes tableBytes in
     1 ≤ pages ∧ 1 ≤ batch ∧ pages + batch ≤ 2 ^ 32 ∧ pages < Z.of_nat fuel * batch)
   ∨ (∃ n partitions maxPages m, pg_partition_count db = Ok n ∧ n ≠ 0 ∧ loadPartitionPages db blockSize = Ok (partitions, maxPages) ∧
     0 < maxPages ∧ 1 ≤ m ∧ (∀ s, 0 ≤ s < maxPages → m ≤ partition_pages (pg_version db) partitions blockSize s < 2 ^ 62) ∧
     maxPages < Z.of_nat fuel * m)).

Lemma load_partition_max b rows l : mapM (load_partition b) rows = Some l → Forall (λ p, Pages p ≤ max_uint32) l.
Proof.
  intros Hl%mapM_Some. induction Hl as [|[[n h] t] p rows l Hp _ IH]; constructor; [|done].
  unfold load_partition in Hp. destruct (b =? 0); [done|]. injection Hp as <-. cbn. lia.
Qed.
Lemma max_pages_le l m : m ≤ max_uint32 → Forall (λ p, Pages p ≤ max_uint32) l → foldl (λ m p, Z.max m (Pages p)) m l ≤ max_uint32.
Proof. revert m. induction l as [|p l IH]; intros m Hm Hl; [done|]. apply Forall_cons in Hl as [? ?]. cbn. apply IH; [lia|done]. Qed.

Lemma generateCTIDRanges_tiles fuel db :
  ctid_ready fuel db → ∃ l, generateCTIDRanges (S fuel) db = Some (Ok l) ∧ tiles 0 max_uint32 l.
Proof.
  intros (b & Hb & [(Hc & h & t & Hr & Hp & Hba & Hw & Hf)|(n & ps & mx & m & Hc & Hn & Hl & Hmx & Hm & Hp & Hf)]); unfold generateCTIDRanges; rewrite Hb, Hc; cbn [and_then].
  - cbn [Z.eqb]. rewrite Hr. cbn [and_then]. destruct (ctid_loop_tiles fuel (rel_pages b h) (batch_pages (pg_version db) b h t) 0) as (l & -> & Ht);
      [lia|exact Hba|exact Hw|rewrite Z.sub_0_r; exact Hf|]. by eexists.
  - apply Z.eqb_neq in Hn as ->. rewrite Hl. cbn [and_then].
    assert (mx ≤ max_uint32).
    { unfold loadPartitionPages in Hl. destruct (pg_partition_rows db) as [rows| |]; [|done..]. cbn in Hl. destruct (mapM _ rows) eqn:E; [|done].
      injection Hl as <- <-. apply max_pages_le; [done|by eapply load_partition_max]. }
    destruct (partition_loop_tiles fuel (partition_pages (pg_version db) ps b) mx m 0) as (l & -> & Ht); [lia|done..|rewrite Z.sub_0_r; exact Hf|]. by eexists.
Qed.

(** The condition of a Postgres chunk with both bounds. *)
Definition pg_cond (q : string) (c : Chunk) : cond := Conj [Cmp q ">=" (fmt_v (Min c)); Cmp q "<" (fmt_v (Max c))].

Lemma pg_chunk_text stream (column : string) r :
  PostgresChunkScanQuery is_print stream column (ctid_chunk r) ""
  = cat ["SELECT * FROM "; quoted_table is_print stream Postgres; " WHERE "; render (pg_cond (QuoteIdentifier is_print column Postgres) (ctid_chunk r))].
Proof.
  unfold PostgresChunkScanQuery, range_condition, and_filter, pg_cond. change (is_nil (Min (ctid_chunk r))) with false. change (is_nil (Max (ctid_chunk r))) with false.
  cbn [render map GoString.Join String.eqb negb andb]. generalize (fmt_v (Min (ctid_chunk r))), (fmt_v (Max (ctid_chunk r))). intros lo hi. by str_eq.
Qed.

(** A row version lives at a page and an offset in it; a bound is at offset 0. *)
Definition at_page (page offset : Z) : Z := page * 65536 + offset.

Lemma pg_cond_truth val lit raw q r page offset :
  0 ≤ offset < 65536 → val q = Some (at_page page offset) → (∀ p, lit q (fmt_v (ctid p)) = Some (at_page p 0)) →
  eval val lit raw (pg_cond q (ctid_chunk r)) = Some true ↔ covers r page.
Proof.
  intros Ho Hv Hl. unfold pg_cond. cbn [eval map foldr Min Max ctid_chunk]. rewrite Hv, !Hl. unfold covers, at_page. cbn.
  destruct (Z.leb_spec (r.1 * 65536 + 0) (page * 65536 + offset)), (Z.ltb_spec (page * 65536 + offset) (r.2 * 65536 + 0)); cbn; split; try done; lia.
Qed.

(** With 8 kB blocks and without TOAST a current server's table needs only its page count
    within range: chunks have a fixed number of pages. *)
Lemma plain_table_ready fuel db heapBytes tableBytes :
  pg_block_size db = Ok 8192 → pg_partition_count db = Ok 0 → pg_relation_size db = Ok (heapBytes, tableBytes) → 140000 ≤ pg_version db → tableBytes ≤ heapBytes →
  let pages := rel_pages 8192 heapBytes in let batch := uint32 (tidRangeSizer (sf64 8192) (sf64 8192) heapBytes) in
  1 ≤ pages ≤ 2 ^ 32 - batch → pages < Z.of_nat fuel * batch → ctid_ready fuel db.
Proof.
  intros Hb Hc Hs Hv Ht pages batch Hp Hf. exists 8192. split; [done|]. left. split; [done|]. exists heapBytes, tableBytes. split; [done|].
  assert (batch_pages (pg_version db) 8192 heapBytes tableBytes = batch) as ->.
  { unfold batch_pages, newCTIDSizer, bytesPerHeapPage. by rewrite (proj2 (Z.leb_le _ _) Hv), (proj2 (Z.leb_le _ _) Ht), orb_true_r. }
  fold pages. assert (1 ≤ batch) by (by vm_compute). split_and!; [lia..|done].
Qed.

(** C16: ctid chunks of a Postgres table split by pages.  When chunks have at least one
    page, and page count plus pages of a chunk stay within 32 bits for a plain table, some
    partition has a page for a partitioned one ([ctid_ready]), the planner terminates with
    fuel for that many chunks; the text of every chunk scan is the range condition on ctid,
    and a row version on any page Postgres can address satisfies exactly one of them, pages
    the table grows to after planning included. *)
Theorem ctid_chunks_read_once fuel db stream :
  ChunkColumn (Metadata stream) = "" → ctid_ready fuel db →
  let q := QuoteIdentifier is_print "ctid" Postgres in
  ∃ chunks, pg_splitTableIntoChunks is_print (S fuel) db stream = Some (Ok chunks)
  ∧ (∀ c, c ∈ chunks → PostgresChunkScanQuery is_print stream "ctid" c ""
       = cat ["SELECT * FROM "; quoted_table is_print stream Postgres; " WHERE "; render (pg_cond q c)])
  ∧ ∀ val lit raw page offset,
      0 ≤ page < max_uint32 → 0 ≤ offset < 65536 → val q = Some (at_page page offset) → (∀ p, lit q (fmt_v (ctid p)) = Some (at_page p 0)) →
      ∃ i c, chunks !! i = Some c ∧ eval val lit raw (pg_cond q c) = Some true
      ∧ ∀ j c', chunks !! j = Some c' → eval val lit raw (pg_cond q c') = Some true → j = i.
Proof.
  intros Hcc Hdb q. destruct (generateCTIDRanges_tiles fuel db Hdb) as (l & Hl & Ht). exists (ctid_chunk <$> l).
  split_and!.
  - unfold pg_splitTableIntoChunks. rewrite Hcc, Hl. done.
  - intros c (r & -> & _)%list_elem_of_fmap. apply pg_chunk_text.
  - intros val lit raw page offset Hp Ho Hv Hlit. destruct (tiles_once 0 max_uint32 l page Ht Hp) as (i & r & Hi & Hc & Hu).
    exists i, (ctid_chunk r). rewrite list_lookup_fmap, Hi. split_and!; [done|by apply (pg_cond_truth _ _ _ _ _ page offset)|].
    intros j c' Hj Hc'. rewrite list_lookup_fmap in Hj. destruct (l !! j) as [r'|] eqn:Ej; [|done]. injection Hj as <-.
    apply (Hu j r' Ej). by apply (pg_cond_truth val lit raw q r' page offset).
Qed.
End Ctid.

(** ** No gaps: a plan is a chain of boundaries open at both ends *)
Definition proper (b : any) : Prop := is_nil b = false.
Definition gapless (chunks : list Chunk) : Prop := chunks = [] ∨ ∃ bs, Forall proper bs ∧ chunks = chunks_between bs.
(** What follows the boundary [lo]. *)
Definition chain_tail (lo : any) (l : list Chunk) : Prop := ∃ bs, Forall proper bs ∧ l = chunk_from lo bs.

Lemma chain_tail_last lo : chain_tail lo [mkChunk lo ANil].
Proof. by exists []. Qed.
Lemma chain_tail_step lo b l : proper b → chain_tail b l → chain_tail lo (mkChunk lo b :: l).
Proof. intros Hb (bs & Hbs & ->). exists (b :: bs). by split; [constructor|]. Qed.
Lemma gapless_start lo l : proper lo → chain_tail lo l → gapless (mkChunk ANil lo :: l).
Proof. intros Hb (bs & Hbs & ->). right. exists (lo :: bs). by split; [constructor|]. Qed.
Lemma gapless_nil : gapless [].
Proof. by left. Qed.
Lemma gapless_strings bs : gapless (chunks_between (AString <$> bs)).
Proof. right. eexists. split; [|done]. by apply Forall_fmap, Forall_true. Qed.

Create HintDb chain.
#[local] Hint Resolve chain_tail_last chain_tail_step gapless_start gapless_nil gapless_strings : chain.
#[local] Hint Extern 1 (proper _) => reflexivity : chain.

(** One unfolding of a planner's loop: the recursive call gives a chain, the other
    branches the last chunk or no plan at all. *)
Ltac chain_cases := repeat first
  [ progress simplify_eq/=
  | match goal with
    | H : context [match ?x with _ => _ end] |- _ => let E := fresh "E" in destruct x eqn:E
    end ]; eauto with chain.

Section Gapless.
Context `{GoHash string} `{GoHash Chunk} `{GoRange} `{GoEnv}.
Context (is_print : Z → bool) (format_float : spec_float → string) (time_format : string → gotime → string).

Lemma int_loop_chain fuel step last prev next l : int_loop fuel step last prev next = Some (Ok l) → chain_tail (str prev) l.
Proof. revert prev next l. induction fuel as [|fuel IH]; intros prev next l; cbn [int_loop]; [done|]. intros Hl. chain_cases. Qed.
Lemma offset_loop_chain fuel rows size last l : offset_loop fuel rows size last = Some l → chain_tail (str last) l.
Proof.
  revert last l. induction fuel as [|fuel IH]; intros last l; cbn [offset_loop]; [done|].
  destruct (_ <? _); [|intros [= <-]; apply chain_tail_last]. intros (l' & Hl' & ->)%fmap_Some. eauto with chain.
Qed.
Lemma key_loop_chain fuel next render v l : key_loop fuel next render v = Some (Ok l) → chain_tail (AString (render v)) l.
Proof. revert v l. induction fuel as [|fuel IH]; intros v l; cbn [key_loop]; [done|]. intros Hl. chain_cases. Qed.
Lemma rowid_loop_chain fuel next n max v l : rowid_loop fuel next n max v = Some (Ok l) → chain_tail (AString v) l.
Proof. revert v l. induction fuel as [|fuel IH]; intros v l; cbn [rowid_loop]; [done|]. unfold and_then. intros Hl. chain_cases. Qed.
Lemma physloc_loop_chain fuel next v l : physloc_loop fuel next v = Some (Ok l) → chain_tail (AString (HexEncode v)) l.
Proof. revert v l. induction fuel as [|fuel IH]; intros v l; cbn [physloc_loop]; [done|]. intros Hl. chain_cases. Qed.

Lemma splitEvenlyForInt_gapless fuel b l : splitEvenlyForInt fuel b = Some (Ok l) → gapless l.
Proof. unfold splitEvenlyForInt. destruct (int_loop _ _ _ _ _) as [[l'| |]|] eqn:E; intros ?; simplify_eq. apply int_loop_chain in E. auto with chain. Qed.
Lemma limitOffsetChunks_gapless fuel n size l : limitOffsetChunks fuel n size = Some l → gapless l.
Proof. unfold limitOffsetChunks. intros (l' & E%offset_loop_chain & ->)%fmap_Some. auto with chain. Qed.
Lemma splitViaPrimaryKey_gapless fuel next render v l : splitViaPrimaryKey fuel next render v = Some (Ok l) → gapless l.
Proof.
  unfold splitViaPrimaryKey. destruct (is_nil v); [intros [= <-]; auto with chain|].
  destruct (key_loop _ _ _ _) as [[l'| |]|] eqn:E; intros ?; simplify_eq. apply key_loop_chain in E. auto with chain.
Qed.
Lemma splitEvenlyForString_gapless align b n l : splitEvenlyForString align b n = Ok l → gapless l.
Proof.
  unfold splitEvenlyForString. destruct (string_attempts _ _ _ _ _ _ _) as [[bs err]| |]; [|done..]. cbn [mbind result_bind].
  destruct (_ <? _); [done|]. destruct (condenseStrings _ _); [done|]. intros [= <-]. apply (gapless_strings (_ :: _)).
Qed.
Lemma WithIsolation_ok {A} b c (fn : option (result A)) a : WithIsolation b c fn = Some (Ok a) → fn = Some (Ok a).
Proof. unfold WithIsolation. destruct b; [done|]. destruct fn as [[]|]; try done. by destruct c; intros [= ->]. Qed.
Lemma and_then_ok {A B} (r : result A) (f : A → option (result B)) b : and_then r f = Some (Ok b) → ∃ a, r = Ok a ∧ f a = Some (Ok b).
Proof. destruct r; try done. eauto. Qed.

Lemma rowids_gapless l : gapless (buildChunksFromStartRowIDs l).
Proof. destruct l; [auto with chain|apply (gapless_strings (_ :: _))]. Qed.
#[local] Hint Resolve rowids_gapless : chain.

Lemma mysql_plan_gapless fuel db stream n avg size l : mysql_plan is_print fuel db stream n avg size = Some (Ok l) → gapless l.
Proof.
  unfold mysql_plan. intros (a & _ & Hl)%and_then_ok. apply and_then_ok in Hl as ([minVal maxVal] & _ & Hl). cbn zeta beta in Hl.
  set (via := WithIsolation _ _ (splitViaPrimaryKey _ _ _ _)) in Hl.
  assert (Hvia : via = Some (Ok l) → gapless l) by (intros Hv%WithIsolation_ok%splitViaPrimaryKey_gapless; done).
  destruct (key_columns stream) as [|pk [|? ?]]; [| |auto].
  - apply WithIsolation_ok in Hl. apply fmap_Some in Hl as (l' & Hl' & [= ->]). by eapply limitOffsetChunks_gapless.
  - apply and_then_ok in Hl as ([[ty len] coll] & _ & Hl). cbn zeta beta iota in Hl.
    destruct (isNumericAndEvenDistributed _ _ _ _ _) as [b|].
    + destruct (splitEvenlyForInt fuel b) as [[l'|e|]|] eqn:E; try done; [|auto]. injection Hl as ->. by eapply splitEvenlyForInt_gapless.
    + destruct (isStringSupportedPK _ _ _ _) as [b|]; [|auto].
      destruct (splitEvenlyForString _ b size) as [l'|e|] eqn:E; try done; [|auto]. injection Hl as ->. by eapply splitEvenlyForString_gapless.
Qed.

Lemma oracle_loop_gapless fuel db stream n l : splitViaTableIterationLoop is_print fuel db stream n = Some (Ok l) → gapless l.
Proof.
  unfold splitViaTableIterationLoop. intros ([lo hi] & _ & Hl)%and_then_ok.
  destruct (rowid_loop _ _ _ _ _) as [[l'| |]|] eqn:E; simplify_eq. apply rowid_loop_chain in E. auto with chain.
Qed.
Lemma oracle_sample_gapless db n k l : splitViaTableIterationSample db n k = Ok l → gapless l.
Proof.
  unfold splitViaTableIterationSample. destruct (o_sample _ _); try done. destruct (_ <? _); [done|].
  destruct (pick _ _ _); try done. cbn. intros [= <-]. auto with chain.
Qed.
Lemma oracle_plan_gapless fuel db stream l : (Oracle_GetOrSplitChunks is_print fuel db stream).2 = Some (Ok l) → gapless l.
Proof.
  unfold Oracle_GetOrSplitChunks. cbn [snd]. destruct (o_any_row db) as [[]|]; [intros [= <-]; auto with chain|done|].
  assert (Hid : ∀ l, splitViaRowID db = Ok l → gapless l).
  { intros l'. unfold splitViaRowID. intros Hr. repeat case_match; simplify_eq; auto with chain. }
  destruct (splitViaRowID db) as [l'| |]; intros Hl; simplify_eq; [by apply Hid|]. unfold splitViaTableIteration in Hl.
  destruct (_ <=? 0); [by eapply oracle_loop_gapless|].
  destruct (splitViaTableIterationSample _ _ _) as [l'| |] eqn:E; simplify_eq; [by eapply oracle_sample_gapless|by eapply oracle_loop_gapless].
Qed.

Lemma iam_bounds_proper n step pages i : Forall proper (iam_bounds n step pages i).
Proof. revert i. induction n as [|n IH]; intros i; cbn; [constructor|]. destruct (pages !! _); constructor; [done|apply IH]. Qed.
Lemma mssql_plan_gapless fuel db stream n avg l : mssql_plan is_print time_format fuel db stream n avg = Some (Ok l) → gapless l.
Proof.
  unfold mssql_plan. intros (a & _ & Hl)%and_then_ok. cbn zeta in Hl.
  assert (Hphys : ∀ sz, splitViaPhysLoc is_print fuel db stream sz = Some (Ok l) → gapless l).
  { intros sz. unfold splitViaPhysLoc. intros ([[lo|] [hi|]] & _ & Hp)%and_then_ok; simplify_eq; try by auto with chain.
    destruct (physloc_loop _ _ _) as [[l'| |]|] eqn:E; simplify_eq. apply physloc_loop_chain in E. auto with chain. }
  assert (Hiam : splitViaIAMWalk db = Ok l → gapless l).
  { unfold splitViaIAMWalk. destruct (ms_object_id db); [|done..]. cbn [mbind result_bind]. destruct (ms_pages _ _) as [| |[|p ps]]; try done.
    intros [= <-]. right. eexists. split; [apply iam_bounds_proper|done]. }
  assert (Hkey : ∀ cols sz, mssql_splitViaPrimaryKey is_print time_format fuel db stream cols sz = Some (Ok l) → gapless l).
  { intros cols sz. unfold mssql_splitViaPrimaryKey. intros ([lo hi] & _ & Hp)%and_then_ok. destruct (is_nil lo); [simplify_eq; auto with chain|].
    apply and_then_ok in Hp as (ty & _ & Hp). by eapply splitViaPrimaryKey_gapless. }
  assert (Hsample : ∀ cols k, splitViaPKSample time_format db cols n k = Ok l → gapless l).
  { intros cols k. unfold splitViaPKSample. destruct (ms_sample _ _) as [ty [| |vals]]; try done. destruct (_ <? _); [done|].
    destruct (pick _ _ _); try done. cbn. intros [= <-]. auto with chain. }
  destruct (key_columns stream) as [|c cols].
  - destruct (probeIAMWalkCapability db); [|by eauto]. destruct (splitViaIAMWalk db) as [[|? ?]| |]; simplify_eq; eauto.
  - destruct (splitViaPKSample _ _ _ _ _) as [[|? ?]| |] eqn:E; simplify_eq; eauto.
Qed.

Lemma db2_plan_gapless fuel db stream l : db2_splitViaPrimaryKey is_print fuel db stream = Some (Ok l) → gapless l.
Proof.
  unfold db2_splitViaPrimaryKey. intros (a & _ & Hl)%and_then_ok. apply and_then_ok in Hl as ([lo hi] & _ & Hl). by eapply splitViaPrimaryKey_gapless.
Qed.

(** C14: planners leave no gaps.  Whatever the database answers, wherever a planner falls
    back to another strategy and whichever queries fail on the way, a plan that MySQL,
    Oracle, SQL Server, or DB2 with a key accept is empty or a chain of boundaries, each
    chunk starting where the one before ends and both ends open, so rows inserted outside
    the planned extremes are read too. *)
Theorem planners_gapless fuel stream chunks :
  (∀ db, (MySQL_GetOrSplitChunks is_print fuel db stream).2 = Some (Ok chunks) → gapless chunks)
  ∧ (∀ db, (Oracle_GetOrSplitChunks is_print fuel db stream).2 = Some (Ok chunks) → gapless chunks)
  ∧ (∀ db, (MSSQL_GetOrSplitChunks is_print time_format fuel db stream).2 = Some (Ok chunks) → gapless chunks)
  ∧ (∀ db, key_columns stream ≠ [] → (DB2_GetOrSplitChunks is_print fuel db stream).2 = Some (Ok chunks) → gapless chunks).
Proof.
  assert (Hempty : ∀ hasRows e, Some (r ← hasRows; if r : bool then Err e else Ok []) = Some (Ok chunks) → gapless chunks).
  { intros hr msg Hl. destruct hr as [[]| |]; cbn in Hl; simplify_eq. auto with chain. }
  split_and!.
  - intros db. unfold MySQL_GetOrSplitChunks. destruct (my_stats db) as [|[[n avg] sz]]; [done|]. destruct (n =? 0); [apply Hempty|apply mysql_plan_gapless].
  - intros db. apply oracle_plan_gapless.
  - intros db. unfold MSSQL_GetOrSplitChunks. destruct (ms_stats db) as [[n avg]| |]; [|done..]. destruct (n =? 0); [apply Hempty|apply mssql_plan_gapless].
  - intros db Hk. unfold DB2_GetOrSplitChunks. destruct (db2_row_count db) as [n| |]; [|done..]. destruct (_ || _); [apply Hempty|].
    destruct (key_columns stream) eqn:E; [done|]. apply db2_plan_gapless.
Qed.
End Gapless.

(** ** Witnesses *)
Section Witnesses.
#[local] Instance wc_hash : GoHash string := ws_hash.
#[local] Instance wc_chunk_hash : GoHash Chunk := ws_chunk_hash.
#[local] Instance wc_range : GoRange := sorted_range.
#[local] Instance wc_env : GoEnv := bare_env.

(** A key of 60 among the chunks of keys 0 to 100. *)
Lemma int_chunks_read_once_witness :
  ∃ chunks, splitEvenlyForInt 10 (mkNumeric 25 0 100) = Some (Ok chunks) ∧ read_once (λ _, Some 60) number (λ _, None) ["`id`"] chunks.
Proof.
  pose proof (int_chunks_read_once 10 (mkNumeric 25 0 100)) as Hc.
  destruct Hc as (chunks & Hs & Hr).
  - cbn. lia.
  - unfold int64_range. cbn. lia.
  - unfold int64_range. cbn. lia.
  - cbn. lia.
  - vm_compute. reflexivity.
  - exists chunks. split; [exact Hs|]. apply (Hr _ _ _ _ 60); [reflexivity|intros z; apply number_literal].
Defined.

(** A heap of 5 GB in pages of 8 kB, without TOAST. *)
Definition five_gb : PgDB := {|
  pg_row_count := Ok 1000; pg_block_size := Ok 8192; pg_partition_count := Ok 0; pg_relation_size := Ok (5000000000, 5000000000);
  pg_partition_rows := Ok []; pg_min_max := λ _, Err ""; pg_next := λ _, Err ""; pg_version := 150000 |}.

Lemma ctid_chunks_read_once_witness :
  ∃ chunks, pg_splitTableIntoChunks (λ _, true) 5 five_gb events = Some (Ok chunks) ∧ length chunks = 3%nat.
Proof.
  destruct (ctid_chunks_read_once (λ _, true) 4 five_gb events) as (chunks & Hs & _).
  - reflexivity.
  - exists 8192. split; [reflexivity|]. left. split; [reflexivity|]. exists 5000000000, 5000000000. split; [reflexivity|]. vm_compute. repeat split; discriminate.
  - exists chunks. split; [exact Hs|]. vm_compute in Hs. injection Hs as <-. reflexivity.
Defined.

(** A table of 8 rows of 1 GB without a key: offsets 3, 6 and 9. *)
Definition big_rows : MySQLDB := {|
  my_stats := inr (8, AFloat64 (sf64 1000000000), 0); my_has_rows := Ok true; my_extremes := λ _, Err ""; my_column := λ _, Err "";
  my_next := λ _ _, (ANil, None); my_align := λ _ _, Rows []; my_begin := None; my_commit := None |}.

Lemma planners_gapless_witness :
  gapless [mkChunk ANil (AString "3"); mkChunk (AString "3") (AString "6"); mkChunk (AString "6") (AString "9"); mkChunk (AString "9") ANil].
Proof.
  apply (proj1 (planners_gapless (λ _, true) (λ _ _, "") 10 events _) big_rows). vm_compute. reflexivity.
Defined.
End Witnesses.
