(* ===== verification/CharsetFacts.v ===== *)
(** * Theorem about string keys: the charset encoding is an order isomorphism

    Keys over the 95 characters are bijective base-95 numbers; the planner walks the
    numbers between two keys and decodes them back into boundaries. *)

From S2P Require Import Prelude GoString GoSet DataTypes QueryEngine Value Schema Stream Catalog State Ranges Jdbc JdbcFacts Chunking.

(** ** Runes *)
Lemma runes_small l : Forall (λ rb, rb.1 < 128 → rb.2 = [rb.1]) (runes l).
Proof.
  remember (length l) as n eqn:Hn. revert l Hn. induction (lt_wf n) as [n _ IH]; intros l ->.
  destruct l as [|b0 t0]; [constructor|]; cbn [runes].
  assert (Hbad : Forall (λ rb, rb.1 < 128 → rb.2 = [rb.1]) ((RuneError, [b0]) :: runes t0)).
  { constructor; [unfold RuneError; cbn; lia|]. eapply IH; [|done]. simpl; lia. }
  destruct (Z.ltb_spec b0 128); [constructor; [done|eapply IH; [|done]; simpl; lia]|].
  destruct t0 as [|b1 t1]; [done|].
  destruct (two_ok b0 b1) eqn:E2; [constructor; [unfold two_ok, cont, in_range in E2; cbn; lia|eapply IH; [|done]; simpl; lia]|].
  destruct t1 as [|b2 t2]; [done|].
  destruct (three_ok b0 b1 b2) eqn:E3; [constructor; [unfold three_ok, cont, in_range in E3; cbn; lia|eapply IH; [|done]; simpl; lia]|].
  destruct t2 as [|b3 t3]; [done|].
  destruct (four_ok b0 b1 b2 b3) eqn:E4; [constructor; [unfold four_ok, cont, in_range in E4; cbn; lia|eapply IH; [|done]; simpl; lia]|done].
Qed.

Lemma rune_list_ascii s : Forall (λ r, r < 128) (rune_list s) → rune_list s = bytes_of s.
Proof.
  unfold rune_list. intros Hr%Forall_fmap. rewrite <- (runes_concat (bytes_of s)) at 2.
  pose proof (runes_small (bytes_of s)) as Hs. induction Hs as [|[r bs] l Hrb _ IH]; [done|].
  apply Forall_cons in Hr as [Hr1 Hr]. cbn in *. rewrite Hrb by done. cbn. f_equal. by apply IH.
Qed.
Lemma encode_ascii l : Forall (λ r, r < 128) l → concat (encode_rune <$> l) = l.
Proof. induction 1 as [|r l Hr _ IH]; [done|]. cbn. unfold encode_rune at 1. apply Z.ltb_lt in Hr as ->. cbn. by f_equal. Qed.

(** ** The charset *)
Lemma charsetBase_95 : charsetBase = 95.
Proof. reflexivity. Qed.
Lemma charset_nodup : NoDup charset.
Proof. apply (bool_decide_unpack _). vm_compute. exact I. Qed.
Lemma charset_ascii : Forall (λ c, c < 128) charset.
Proof. apply (bool_decide_unpack _). vm_compute. exact I. Qed.

Lemma charToIndex_spec ch idx : charToIndex ch = Some idx → 1 ≤ idx ≤ 95 ∧ indexToChar idx = ch ∧ ch < 128.
Proof.
  unfold charToIndex, indexToChar. destruct (list_find _ charset) as [[i c]|] eqn:E; [|done]. intros Hidx. change (Some (Z.of_nat i + 1) = Some idx) in Hidx. injection Hidx as <-.
  apply list_find_Some in E as (Hi & -> & _). pose proof (lookup_lt_Some _ _ _ Hi) as Hlt. change (length charset) with 95%nat in Hlt.
  replace (Z.to_nat (Z.of_nat i + 1 - 1)) with i by lia. rewrite Hi. split_and!; [lia..|done|].
  pose proof charset_ascii as Ha. rewrite Forall_forall in Ha. apply Ha. by eapply list_elem_of_lookup_2.
Qed.

(** ** Bijective base 95 *)
Definition value_of (v : Z) (ds : list Z) : Z := foldl (λ v d, v * 95 + d) v ds.
Definition digits_ok (ds : list Z) : Prop := Forall (λ d, 1 ≤ d ≤ 95) ds.

Lemma value_snoc ds d : value_of 0 (ds ++ [d]) = value_of 0 ds * 95 + d.
Proof. unfold value_of. by rewrite foldl_app. Qed.
Lemma value_pos v ds : digits_ok ds → 0 ≤ v → 2 ^ Z.of_nat (length ds) * v ≤ value_of v ds.
Proof.
  unfold value_of. intros Hd. revert v. induction Hd as [|d ds Hd _ IH]; intros v Hv; cbn [foldl length]; [lia|].
  specialize (IH (v * 95 + d)). rewrite Nat2Z.inj_succ, Z.pow_succ_r by lia. pose proof (Z.pow_pos_nonneg 2 (Z.of_nat (length ds))). nia.
Qed.
Lemma value_long d ds : digits_ok (d :: ds) → 2 ^ Z.of_nat (length ds) ≤ value_of 0 (d :: ds).
Proof.
  intros Hd. apply Forall_cons in Hd as [Hd Hds]. change (value_of 0 (d :: ds)) with (value_of (0 * 95 + d) ds).
  pose proof (value_pos (0 * 95 + d) ds Hds). pose proof (Z.pow_pos_nonneg 2 (Z.of_nat (length ds))). nia.
Qed.

Lemma decode_value fuel ds :
  digits_ok ds → (length ds ≤ fuel)%nat → decode_loop fuel (value_of 0 ds) = indexToChar <$> reverse ds.
Proof.
  revert fuel. induction ds as [|d ds IH] using rev_ind; intros fuel Hd Hf; [by destruct fuel|].
  apply Forall_app in Hd as [Hds Hd]; apply Forall_cons in Hd as [Hd _]. rewrite length_app in Hf. cbn in Hf. destruct fuel as [|fuel]; [lia|].
  rewrite value_snoc, reverse_app. cbn [decode_loop]. rewrite charsetBase_95. assert (Hv : 0 ≤ value_of 0 ds) by (pose proof (value_pos 0 ds Hds); nia).
  destruct (Z.ltb_spec 0 (value_of 0 ds * 95 + d)); [|lia]. rewrite Z.add_comm, Z_mod_plus_full.
  destruct (decide (d = 95)) as [->|].
  - cbn [Z.eqb Z.modulo]. change (95 mod 95 =? 0) with true. cbn iota. replace ((95 + value_of 0 ds * 95 - 1) / 95) with (value_of 0 ds).
    + rewrite IH by (done || lia). done.
    + apply (Z.div_unique _ _ _ 94); lia.
  - rewrite Z.mod_small by lia. destruct (Z.eqb_spec d 0); [lia|]. replace ((d + value_of 0 ds * 95) / 95) with (value_of 0 ds).
    + rewrite IH by (done || lia). done.
    + apply (Z.div_unique _ _ _ d); lia.
Qed.

(** Equally long digit strings compare as their numbers. *)
Lemma value_shift v ds : value_of v ds = v * 95 ^ Z.of_nat (length ds) + value_of 0 ds.
Proof.
  revert v. induction ds as [|d ds IH]; intros v; [cbn; lia|]. change (value_of v (d :: ds)) with (value_of (v * 95 + d) ds).
  change (value_of 0 (d :: ds)) with (value_of (0 * 95 + d) ds). rewrite (IH (v * 95 + d)), (IH (0 * 95 + d)). cbn [length].
  rewrite Nat2Z.inj_succ, Z.pow_succ_r by lia. lia.
Qed.
Lemma value_gap ds es : digits_ok ds → digits_ok es → length ds = length es → value_of 0 es - value_of 0 ds ≤ 95 ^ Z.of_nat (length ds) - 1.
Proof.
  intros Hd He Hl. revert es He Hl. induction Hd as [|d ds Hd _ IH]; intros [|e es] He Hl; try done. apply Forall_cons in He as [He Hes]. injection Hl as Hl.
  change (value_of 0 (d :: ds)) with (value_of (0 * 95 + d) ds). change (value_of 0 (e :: es)) with (value_of (0 * 95 + e) es).
  rewrite (value_shift (0 * 95 + d)), (value_shift (0 * 95 + e)), <- Hl. specialize (IH es Hes Hl). cbn [length]. rewrite Nat2Z.inj_succ, Z.pow_succ_r by lia.
  pose proof (Z.pow_pos_nonneg 95 (Z.of_nat (length ds))). nia.
Qed.
Lemma value_order ds es : digits_ok ds → digits_ok es → length ds = length es → value_of 0 ds <? value_of 0 es = lex_lt ds es.
Proof.
  intros Hd He Hl. revert es He Hl. induction Hd as [|d ds Hd Hds IH]; intros [|e es] He Hl; try done. apply Forall_cons in He as [He Hes]. injection Hl as Hl.
  change (value_of 0 (d :: ds)) with (value_of (0 * 95 + d) ds). change (value_of 0 (e :: es)) with (value_of (0 * 95 + e) es).
  rewrite (value_shift (0 * 95 + d)), (value_shift (0 * 95 + e)), <- Hl. cbn [lex_lt]. rewrite <- IH by done.
  pose proof (value_gap ds es Hds Hes Hl). pose proof (value_gap es ds Hes Hds (eq_sym Hl)) as Hg. rewrite <- Hl in Hg.
  pose proof (Z.pow_pos_nonneg 95 (Z.of_nat (length ds))).
  destruct (Z.ltb_spec d e), (Z.eqb_spec d e), (Z.ltb_spec (value_of 0 ds) (value_of 0 es)); cbn; try lia; try (apply Z.ltb_lt; nia); apply Z.ltb_ge; nia.
Qed.

(** ** Keys *)
Lemma encode_digits l v0 v :
  foldM (λ v ch, match charToIndex ch with Some idx => Ok (v * charsetBase + idx) | None => Err "unsupported character" end) v0 l = Ok v →
  ∃ ds, digits_ok ds ∧ Forall2 (λ ch d, charToIndex ch = Some d) l ds ∧ v = value_of v0 ds.
Proof.
  revert v0. induction l as [|ch l IH]; intros v0; cbn [foldM]; [intros [= <-]; exists []; by repeat constructor|].
  destruct (charToIndex ch) as [d|] eqn:E; [|done]. intros (ds & Hd & Hl & ->)%IH. rewrite charsetBase_95.
  exists (d :: ds). split_and!; [constructor; [by apply (charToIndex_spec ch)|done]|by constructor|done].
Qed.

(** The places of a key's characters in the charset. *)
Definition key_digits (s : string) (ds : list Z) : Prop := Forall2 (λ ch d, charToIndex ch = Some d) (rune_list s) ds.

(** C17: string keys over the charset.  Decoding the number of a key gives the key back,
    and for keys padded to one length the numbers are ordered exactly as the keys are by
    the places of their characters: the planner's walk between two encoded keys visits
    keys in order. *)
Theorem charset_order_isomorphism s v :
  encodeCharsetStringToBigInt s = Ok v →
  decodeBigIntToCharsetString v = s
  ∧ ∃ ds, key_digits s ds ∧ ∀ t w es,
      encodeCharsetStringToBigInt t = Ok w → key_digits t es → length (rune_list t) = length (rune_list s) →
      (v <? w) = lex_lt ds es.
Proof.
  intros Hv. destruct (encode_digits _ _ _ Hv) as (ds & Hd & Hl & ->). split.
  - assert (Hchars : indexToChar <$> ds = rune_list s).
    { clear -Hl. induction Hl as [|ch d l ds Hc _ IH]; [done|]. cbn. f_equal; [by eapply charToIndex_spec|done]. }
    assert (Ha : Forall (λ r, r < 128) (rune_list s)).
    { clear -Hl. induction Hl as [|ch d l ds Hc _ IH]; constructor; [by eapply charToIndex_spec|done]. }
    unfold decodeBigIntToCharsetString. rewrite decode_value; [|done|].
    + rewrite <- fmap_reverse, reverse_involutive, Hchars, encode_ascii, rune_list_ascii by done. apply string_of_bytes_of.
    + destruct ds as [|d ds]; [cbn; lia|]. pose proof (value_long d ds Hd) as Hv2. apply Z.log2_le_mono in Hv2. rewrite Z.log2_pow2 in Hv2 by lia.
      cbn [length]. lia.
  - exists ds. split; [done|]. intros t w es Hw Hes Hlen. destruct (encode_digits _ _ _ Hw) as (es' & He & Hl' & ->).
    assert (es' = es) as ->. { clear -Hl' Hes. revert es Hes. unfold key_digits. induction Hl' as [|ch d l ds Hc _ IH]; intros es Hes; inversion Hes; subst; [done|]. f_equal; [congruence|auto]. }
    apply value_order; [done..|]. apply Forall2_length in Hl, Hl'. lia.
Qed.

Lemma charset_order_isomorphism_witness : decodeBigIntToCharsetString 39402 = "3X~" ∧ ∃ ds, key_digits "3X~" ds.
Proof.
  destruct (charset_order_isomorphism "3X~" 39402) as [Hd (ds & Hk & _)].
  - vm_compute. reflexivity.
  - split; [exact Hd|by exists ds].
Defined.
